(* ===== verification/_CoqProject ===== *)
-Q . S2P
Prelude.v
Interfaces.v
HierarchicalBitset.v
StaticOrderMap.v
ItchOrderTypes.v
LimitOrderBook.v
LinkedPool.v
MockOrderBook.v
BookRefinement.v
BookTheorems.v
AnyOrders.v
SPSCQueue.v
Crc32.v
MmapLogger.v
ItchParser.v
ParserTheorems.v
RecoveryEngine.v
MulticastReceiver.v
Pipeline.v
BpfFilter.v
MagicBuffer.v
EpollReactor.v
OuchClient.v
LivePipeline.v
MachineTypes.v
Kernel.v
TCPSocket.v
Ownership.v
ProgramSetup.v
Telemetry.v
EventLoop.v
DescriptorLimits.v
RealPoll.v
Statistics.v
MockProgram.v
ProgramSafety.v
RealProgram.v
RealLiveness.v
CrashConsistency.v
RealCrash.v
DifferentialTest.v
UnitTests.v
Benchmarks.v
UnusedParts.v
BenchTools.v
