(* ===== verification/Prelude.v ===== *)
(** A verification of marketdatabook: a market-data pipeline in C++ that
    receives NASDAQ ITCH messages, logs them, and maintains a limit order
    book (sources under src/src).

    * The program

    A network thread ([network::MulticastReceiver], or [network::EpollReactor]
    for TCP) hands blocks of messages to [protocol::ItchParser].  The parser
    writes each message to the write-ahead log ([recovery::MmapLogger], frames
    of 64 bytes with a CRC-32C) and pushes the decoded add, execute and cancel
    orders to a single-producer single-consumer queue ([utils::SPSCQueue]).  A
    second thread ([consume] in main.cpp) pops them and applies them to the
    book ([book::LimitOrderBook]), a pool of orders linked by indices, with a
    hash table from order ids to pool cells ([utils::StaticOrderMap]) and a
    three-level bitset of non-empty prices for each side
    ([utils::HierarchicalBitset]).  After a crash
    [recovery::RecoveryEngine] replays the log into a new book.

    * The files

    - Prelude.v (this file): the state-and-failure monad in which member
      functions are written, arrays, machine integers, byte loads and stores,
      bounded loops, tactics, hint databases and the lemmas shared by all.
    - Interfaces.v: what the book asks of its index of prices ([PriceIndex])
      and of its id map ([OrderMap]), as type classes of operations and laws.
    - HierarchicalBitset.v: utils/HierarchicalBitset.h; the bitset is a finite
      set of ticks with its extrema, an instance of [PriceIndexLaws].
    - StaticOrderMap.v: utils/StaticOrderMap.h; open addressing with
      tombstones is a finite map of bounded size, an instance of
      [OrderMapLaws].
    - ItchOrderTypes.v: protocol/ItchOrderTypes.h.
    - LimitOrderBook.v: book/LimitOrderBook.h and .cpp, over the interfaces.
    - LinkedPool.v: lists threaded through the pool.
    - MockOrderBook.v: the reference book of tests/test_limit_order_book.cpp
      and the contract of the real book stated over it.
    - BookRefinement.v: each operation of the book implements its contract
      (a simulation, [book_rep]).
    - BookTheorems.v: the book with the real map and bitsets: refinement for
      whole sequences of orders, price-time priority, best prices,
      conservation of the pool, refused orders, constructor, and what happens
      with a duplicate id or a full id map.
    - AnyOrders.v: the book on orders with any ids: a contract of numbered
      orders, and a simulation by a shadow book whose ids are the numbers.
    - SPSCQueue.v: utils/spscqueue.h, as functions run one at a time and as an
      interleaving of the two threads' shared accesses with stale acquire
      loads: FIFO, race freedom, wait-freedom, and agreement of the models.
    - Crc32.v: utils/crc32.h: equivalence with the byte-wise CRC-32C, burst
      detection.  Initial value 0 and no final complement, as in the code.
    - MmapLogger.v: utils/WalFrame.h, recovery/MmapLogger.h and .cpp.
    - ItchParser.v, ParserTheorems.v: protocol/ItchParser.h: round trip of
      the wire format, what a block does to the log and the queue, and the
      inputs on which the parser diverges, has undefined behaviour, or drops
      orders or frames.
    - RecoveryEngine.v: recovery/RecoveryEngine.h and .cpp: replay, torn
      frames, a full log.
    - MulticastReceiver.v: the packet ring of network/MulticastReceiver.h in
      mock mode, as the interleaved steps of [simulate_packets] and
      [poll_simulation]: delivery in order, delivery of the whole file, and a
      message that does not fit.
    - Pipeline.v: parser, queue, [consume] and recovery together: the
      recovered book is the live book, also with the packet ring in front, and
      how they part when the queue overflows.
    - BpfFilter.v: the packet filter program of MulticastReceiver.h, run by a
      model of the classic BPF machine: which packets pass.
    - MagicBuffer.v: utils/MagicBuffer.h: the doubly mapped ring is a byte
      queue.
    - EpollReactor.v: network/EpollReactor.h: the receive loop over
      [MagicBuffer] and a handler, and the hand-over of connections through
      the queue and the eventfd.
    - OuchClient.v: network/OuchClient.h and protocol/OuchOrderTypes.h: the
      bytes on the wire are the accepted orders.
    - LivePipeline.v: the parser's pushes and the consumer's pops and
      dispatches step by step, in any interleaving: the book at every moment,
      and its recovery from the log.
    - MachineTypes.v: the type invariant: every field of parser, queue, log
      and book stays within the width of its C++ type, for every input and
      every outcome.
    - Kernel.v: the process as a ledger of descriptors, pages and address
      lists; system calls that may fail; the logic [owns] of who holds what,
      and the class [Resource] of objects with a destructor.
    - TCPSocket.v: network/TCPSocket.h over Kernel.v.
    - Ownership.v: constructors, destructors and moves of MmapLogger,
      StaticOrderMap, LimitOrderBook, MagicBuffer, EpollReactor,
      MulticastReceiver (both modes) and TelemetryEngine, call by call.
    - ProgramSetup.v: the start of [main], [consume], [log_telemetry],
      [wait_for_connections] and the statistics threads, and the calls of
      [run_recovery]: lifetimes are balanced, moves keep owners, and the places
      where the code leaks or closes twice.
    - Telemetry.v: telemetry/ and the measurements of [consume] and
      [log_telemetry]: the instrumented loop does what the plain one does; the
      double buffer between the two threads.
    - EventLoop.v: a round of [EpollReactor::run] over the ready descriptors.
    - DescriptorLimits.v: the reactor's own buffers take the descriptors its
      vector is indexed with.
    - RealPoll.v: [poll], the packet ring filled by the kernel.
    - Statistics.v: the statistics threads of both modes.
    - MockProgram.v: [run_mock_mode]: the five threads over their shared state,
      in any schedule, and in fair ones.
    - ProgramSafety.v: MockProgram.v with the book of AnyOrders.v: no file of
      whole messages that fit the log leads to undefined behaviour.
    - RealProgram.v: real mode: the kernel, the poller message by message, and
      the other threads, in any interleaving.
    - RealLiveness.v: real mode gets its work done: a measure of the work left
      that fair rounds bring down to nothing.
    - CrashConsistency.v, RealCrash.v: a crash after any store of
      [log_payload], in mock and in real mode, and what recovery makes of the
      file.
    - DifferentialTest.v: the random test of tests/test_limit_order_book.cpp
      passes on every seed.
    - UnitTests.v: the other tests of src/tests, run on the model.
    - Benchmarks.v: what bench_recovery.cpp and bench_logger.cpp run.
    - UnusedParts.v: utils/PCAPSimulation.h, strategy/ExecutionEngine.h and
      [OrderBookCallBack], which the program does not use yet.
    - BenchTools.v: bench_write.cpp, bench_utils.h and find_cpu_freq.cpp, and
      [create_dummy_event] of bench_logger.cpp.

    * How the code is represented

    A member function is a term of [M S A]: from an object state to an outcome
    (a value, an exception, undefined behaviour, or exhausted fuel) and a new
    state.  Unsigned integers are numbers in [Z]; where an operation can wrap,
    the wrap is written ([u32], [u64], [uwrap]).  Fixed arrays and mmap'ed
    regions are [array]s: an access outside is UB.  A reference to a cell is
    its index and every access through it is a load or a store, so aliasing is
    kept.  The mapping of the log is one flat block of bytes: a message longer
    than the 44 bytes of [WalFrame::payload] (types I and O) runs over the
    member into the checksum and the next frame, as memcpy does in the compiled
    code; only a write past the mapping is UB.  An assertion that fails is UB.  System calls are arguments of the model that say whether they
    succeed; the time stamp counter is a function parameter.

    Fuel: the probing loops of the id map run with capacity + 1 units and are
    shown never to exhaust them; [parse_block] is shown to return with one
    unit for each byte plus one on every block of whole messages, and to
    return with no amount of fuel on an unknown message type; the recovery
    loop, the consumer's loop and the receive loop need one unit for each
    frame, order or byte plus one; the BPF machine needs one for each
    instruction of the program.

    Threads that share memory are interleavings of steps, quantified over all
    schedules.  In SPSCQueue.v the loads of the atomics may return old values;
    in MulticastReceiver.v and EpollReactor.v a thread that waits changes
    nothing, so an old value is a step taken too early.

    The kernel (Kernel.v) is a parameter: the class [OS] says which result
    each call gets, in any way that depends on the history, and [OSLaws] what
    is documented of it (a new descriptor, mapping or list is not held yet; the
    page size is a power of two).  Its instances [sample_os] show that the laws can
    hold.

    * What the theorems show

    - The data structures: each implements its abstract object (finite set,
      bounded finite map, bounded list, byte queue) for every sequence of
      calls, and the book implements the reference book of the tests.
      With repeated ids it implements a contract of numbered orders, so that
      no sequence of orders leads to undefined behaviour.
    - The pipeline: the log replays to the live book; a file sent through the
      packet ring gives the book of its orders, under every fair schedule; the
      consumer may run at any moment in between.
    - The program: in mock mode every schedule of the five threads is safe, and
      every fair one in which the queue has room builds the book of the file;
      in real mode every interleaving with the kernel is safe when the packets
      are what [poll] takes them for, and fair rounds bring every captured
      message to the book and every frame back to the kernel.  These theorems
      are about whole messages that fit the log (64 bytes each, and two for the
      overrun of the last) and about perf counters that are scheduled; those
      that replay the log also need that no order throws and that the last
      message did not leave the byte of the marker after its frame.
    - Crashes: whichever store of a log frame is the last one made, every order
      the book has applied is in a complete frame, and recovery replays the
      complete frames and reports the torn one.  The stores are taken in
      program order and reach the file (the process dies, not the machine).
      The conditions: the messages fit the log; no replayed order throws; the
      last complete message, if it was longer than its payload, did not leave
      the byte of the marker where the next frame starts; and the partial
      frame's checksum is wrong, which is computed for a given message
      ([crash_detected]) and proved for a crash within the first three stores.
      A change of at most four bytes anywhere in a logged frame is always
      noticed.
    - The tests: those of src/tests pass, the random ones on every seed.
    - Types and bounds: fields keep their widths; no access leaves an array on
      the inputs the theorems name.
    - Resources: whichever calls fail, nothing is leaked or released twice by
      MmapLogger, StaticOrderMap, MagicBuffer, MulticastReceiver,
      TelemetryEngine, TCPSocket and OuchClient, constructed and destroyed; the
      exceptions are stated as such: the constructor of EpollReactor leaves its
      epoll descriptor when a buffer cannot be created, LimitOrderBook never
      frees its pool, and the moves of MagicBuffer and of mock-mode receivers
      close a descriptor they do not own.
    - Instrumentation: measurements, telemetry log and statistics do not change
      what the program does while the perf counters are scheduled; one that is
      not stops the consumer between a pop and the dispatch.
    - Defects: the inputs on which the code diverges, leaves an array, loses
      orders, connections or samples, or leaks.

    * What is not modelled

    Thread creation and core affinity beyond a call that may fail; the text of
    errors that comes from strerror; the floating point averages that the
    benchmarks print; accessors that return a member.  The move constructors of
    MulticastReceiver and EpollReactor leave reference members without an
    initialiser, so no program can use them; there is nothing to model.  A
    captured packet shorter than its headers is outside the model of [poll]. *)

From Stdlib Require Export ZArith Lia.
From stdpp Require Export strings numbers base gmap sets list_numbers list.

#[global] Open Scope Z_scope.

(** * Outcomes and the state-and-failure monad

    A C++ member function is a state transformer: it may return a value,
    throw, or have undefined behaviour (an access outside an array, an
    intrinsic outside its domain).  [OutOfFuel] is the result of a loop model
    whose fuel is exhausted; the termination theorems show it is not reached,
    or that it is reached for every fuel. *)

Inductive exn : Type :=
| runtime_error (what : string)
| logic_error (what : string).

Inductive outcome (A : Type) : Type :=
| Ok (a : A)
| Throw (e : exn)
| UB
| OutOfFuel.

Arguments Ok {A} a.
Arguments Throw {A} e.
Arguments UB {A}.
Arguments OutOfFuel {A}.

#[export] Instance exn_eq_dec : EqDecision exn.
Proof. solve_decision. Defined.

#[export] Instance outcome_eq_dec {A} `{EqDecision A} : EqDecision (outcome A).
Proof. solve_decision. Defined.

Definition M (S A : Type) : Type := S → outcome A * S.

#[export] Instance M_ret S : MRet (M S) := λ A a s, (Ok a, s).

#[export] Instance M_bind S : MBind (M S) := λ A B k m s,
  match m s with
  | (Ok a, s') => k a s'
  | (Throw e, s') => (Throw e, s')
  | (UB, s') => (UB, s')
  | (OutOfFuel, s') => (OutOfFuel, s')
  end.

Definition get_state {S} : M S S := λ s, (Ok s, s).
Definition put_state {S} (s : S) : M S unit := λ _, (Ok tt, s).
Definition gets {S A} (f : S → A) : M S A := λ s, (Ok (f s), s).
Definition modify {S} (f : S → S) : M S unit := λ s, (Ok tt, f s).
Definition throw {S A} (e : exn) : M S A := λ s, (Throw e, s).
Definition ub {S A} : M S A := λ s, (UB, s).
Definition out_of_fuel {S A} : M S A := λ s, (OutOfFuel, s).
Definition of_option {S A} (o : option A) : M S A :=
  match o with Some a => mret a | None => ub end.

(** Run a member function of a sub-object inside its owner. *)
Definition zoom {S T A} (get : S → T) (put : T → S → S) (m : M T A) : M S A :=
  λ s, let '(r, t) := m (get s) in (r, put t s).

(** * Arrays

    A fixed-length array is its length, the value every cell was filled with
    (mmap's zero pages, [std::array]'s value initialisation, [fill]) and the
    cells written since.  An index outside the range has no cell. *)

Record array (A : Type) : Type := mkArray {
  alen : Z;
  adef : A;
  acells : gmap Z A
}.

Arguments mkArray {A} alen adef acells.
Arguments alen {A} a.
Arguments adef {A} a.
Arguments acells {A} a.

Definition anew {A} (n : Z) (d : A) : array A := mkArray n d ∅.

Definition in_bounds (n i : Z) : bool := (0 <=? i) && (i <? n).

Definition aget {A} (a : array A) (i : Z) : option A :=
  if in_bounds (alen a) i then Some (default (adef a) (acells a !! i)) else None.

Definition aset {A} (a : array A) (i : Z) (x : A) : array A :=
  mkArray (alen a) (adef a) (<[i := x]> (acells a)).

Definition aput {A} (a : array A) (i : Z) (x : A) : option (array A) :=
  if in_bounds (alen a) i then Some (aset a i x) else None.

Declare Scope mdb_scope.
Delimit Scope mdb_scope with mdb.
Notation "a .[ i ]" := (aget a i) (at level 1, i at level 200, left associativity,
  format "a .[ i ]") : mdb_scope.
#[global] Open Scope mdb_scope.

(** * Machine integers *)

Definition uwrap (w z : Z) : Z := z mod 2 ^ w.
Definition u8 : Z → Z := uwrap 8.
Definition u16 : Z → Z := uwrap 16.
Definition u32 : Z → Z := uwrap 32.
Definition u64 : Z → Z := uwrap 64.

(** Bitwise complement of a [w]-bit word. *)
Definition unot (w x : Z) : Z := Z.lxor x (Z.ones w).

Definition in_range (w x : Z) : Prop := 0 ≤ x < 2 ^ w.

(** [static_cast<size_t>(-1)]. *)
Definition SIZE_MAX : Z := 2 ^ 64 - 1.

(** Trailing zeros of a positive number. *)
Fixpoint pos_ctz (p : positive) : Z :=
  match p with
  | xO q => Z.succ (pos_ctz q)
  | _ => 0
  end.

(** gcc's [__builtin_clzll] and [__builtin_ctzll]: undefined on 0. *)
Definition builtin_clzll (x : Z) : option Z :=
  if x =? 0 then None else Some (63 - Z.log2 x).

Definition builtin_ctzll (x : Z) : option Z :=
  match x with
  | Zpos p => Some (pos_ctz p)
  | _ => None
  end.

(** * Bytes: little-endian loads and stores, byte swaps *)

Fixpoint le_bytes (n : nat) (z : Z) : list Z :=
  match n with
  | O => []
  | S n' => z mod 256 :: le_bytes n' (z / 256)
  end.

Fixpoint le_Z (l : list Z) : Z :=
  match l with
  | [] => 0
  | b :: l' => b + 256 * le_Z l'
  end.

Fixpoint be_Z_acc (acc : Z) (l : list Z) : Z :=
  match l with
  | [] => acc
  | b :: l' => be_Z_acc (256 * acc + b) l'
  end.
Definition be_Z (l : list Z) : Z := be_Z_acc 0 l.

Definition bswap (n : nat) (z : Z) : Z := le_Z (rev (le_bytes n z)).

Definition is_byte (b : Z) : Prop := 0 ≤ b < 256.

(** Read or write consecutive cells of a byte array. *)
Fixpoint read_bytes (a : array Z) (off : Z) (n : nat) : option (list Z) :=
  match n with
  | O => Some []
  | S n' =>
      match aget a off with
      | Some b =>
          match read_bytes a (off + 1) n' with
          | Some l => Some (b :: l)
          | None => None
          end
      | None => None
      end
  end.

Fixpoint write_bytes (a : array Z) (off : Z) (l : list Z) : option (array Z) :=
  match l with
  | [] => Some a
  | b :: l' =>
      match aput a off b with
      | Some a' => write_bytes a' (off + 1) l'
      | None => None
      end
  end.

(** * Loops

    [loop_nat n f s] iterates the loop body [f] at most [n] times; the body
    either continues with a new loop state or leaves with a result.
    [loop_pos] is the same with binary fuel, so that a bound such as the
    capacity of the order map does not have to be written in unary. *)

Fixpoint loop_nat {S R} (n : nat) (f : S → S + R) (s : S) : S + R :=
  match n with
  | O => inl s
  | S n' =>
      match f s with
      | inl s' => loop_nat n' f s'
      | inr r => inr r
      end
  end.

Fixpoint loop_pos {S R} (p : positive) (f : S → S + R) (s : S) : S + R :=
  match p with
  | xH => f s
  | xO q =>
      match loop_pos q f s with
      | inl s' => loop_pos q f s'
      | inr r => inr r
      end
  | xI q =>
      match f s with
      | inl s1 =>
          match loop_pos q f s1 with
          | inl s' => loop_pos q f s'
          | inr r => inr r
          end
      | inr r => inr r
      end
  end.

(** * Tactics *)

(** Case on the first integer comparison of the goal. *)
Ltac zcase :=
  match goal with
  | |- context [?a <? ?b] => destruct (Z.ltb_spec a b)
  | |- context [?a <=? ?b] => destruct (Z.leb_spec a b)
  | |- context [?a =? ?b] => destruct (Z.eqb_spec a b)
  end.

Tactic Notation "zcase" "as" ident(E) :=
  match goal with
  | |- context [?a <? ?b] => destruct (Z.ltb_spec a b) as [E|E]
  | |- context [?a <=? ?b] => destruct (Z.leb_spec a b) as [E|E]
  | |- context [?a =? ?b] => destruct (Z.eqb_spec a b) as [E|E]
  end.

(** Case on the first decision of the goal. *)
Ltac dcase :=
  match goal with |- context [decide ?P] => destruct (decide P) end.
Tactic Notation "dcase" "as" ident(E) :=
  match goal with |- context [decide ?P] => destruct (decide P) as [E|E] end.

(** Turn boolean comparisons in the hypotheses into propositions. *)
Ltac zhyps :=
  repeat match goal with
  | H : (_ <? _) = true |- _ => apply Z.ltb_lt in H
  | H : (_ <? _) = false |- _ => apply Z.ltb_ge in H
  | H : (_ <=? _) = true |- _ => apply Z.leb_le in H
  | H : (_ <=? _) = false |- _ => apply Z.leb_gt in H
  | H : (_ =? _) = true |- _ => apply Z.eqb_eq in H
  | H : (_ =? _) = false |- _ => apply Z.eqb_neq in H
  | H : (_ && _) = true |- _ => apply andb_true_iff in H; destruct H
  | H : (_ || _) = false |- _ => apply orb_false_iff in H; destruct H
  | H : negb _ = true |- _ => apply negb_true_iff in H
  | H : negb _ = false |- _ => apply negb_false_iff in H
  end.

(** * Lemmas: the monad *)

Section Monad_lemmas.
Context {S A B : Type}.
Implicit Types (m : M S A) (k : A → M S B) (s : S).

Lemma bind_ok m k s a s' : m s = (Ok a, s') → (m ≫= k) s = k a s'.
Proof. intros H. unfold mbind, M_bind. by rewrite H. Qed.

Lemma bind_throw m k s e s' : m s = (Throw e, s') → (m ≫= k) s = (Throw e, s').
Proof. intros H. unfold mbind, M_bind. by rewrite H. Qed.

Lemma bind_ub m k s s' : m s = (UB, s') → (m ≫= k) s = (UB, s').
Proof. intros H. unfold mbind, M_bind. by rewrite H. Qed.

Lemma bind_fuel m k s s' : m s = (OutOfFuel, s') → (m ≫= k) s = (OutOfFuel, s').
Proof. intros H. unfold mbind, M_bind. by rewrite H. Qed.
End Monad_lemmas.

Lemma bind_mret {S A B} (x : A) (k : A → M S B) (s : S) : (mret x ≫= k) s = k x s.
Proof. done. Qed.

Lemma bind_gets {S A B} (f : S → A) (k : A → M S B) (s : S) : (gets f ≫= k) s = k (f s) s.
Proof. done. Qed.

Lemma bind_modify {S B} (f : S → S) (k : unit → M S B) (s : S) : (modify f ≫= k) s = k tt (f s).
Proof. done. Qed.

Lemma bind_assoc {S A B C} (m : M S A) (k : A → M S B) (h : B → M S C) (s : S) :
  ((m ≫= k) ≫= h) s = (m ≫= λ x, k x ≫= h) s.
Proof. unfold mbind, M_bind. by destruct (m s) as [[] ?]. Qed.

Lemma zoom_eq {S T A} (get : S → T) put (m : M T A) s r t :
  m (get s) = (r, t) → zoom get put m s = (r, put t s).
Proof. intros H. unfold zoom. by rewrite H. Qed.

(** Advance a monadic computation by one known step. *)
Ltac mstep H := first [ rewrite (bind_ok _ _ _ _ _ H) | rewrite (bind_throw _ _ _ _ _ H)
                      | rewrite (bind_ub _ _ _ _ H) | rewrite (bind_fuel _ _ _ _ H) ].

(** Unfold the monad's operations, leaving the program's own. *)
Ltac munfold :=
  cbv beta iota delta [mbind M_bind mret M_ret gets modify get_state put_state
                       of_option throw ub out_of_fuel zoom].

(** * Lemmas: arrays *)

Create HintDb mdb discriminated.
#[export] Hint Constants Transparent : mdb.
Create Rewrite HintDb mdb.

Section Array_lemmas.
Context {A : Type}.
Implicit Types (a : array A) (i j : Z) (x y : A).

Lemma in_bounds_spec n i : in_bounds n i = true ↔ 0 ≤ i < n.
Proof. unfold in_bounds. rewrite andb_true_iff, Z.leb_le, Z.ltb_lt. lia. Qed.

Lemma in_bounds_out n i : ¬ (0 ≤ i < n) → in_bounds n i = false.
Proof. intros H. apply not_true_iff_false. by rewrite in_bounds_spec. Qed.

Lemma aget_Some_bounds a i x : a.[i] = Some x → 0 ≤ i < alen a.
Proof.
  unfold aget. destruct (in_bounds _ _) eqn:E; [|done].
  intros _. by apply in_bounds_spec.
Qed.

Lemma aget_out a i : ¬ (0 ≤ i < alen a) → a.[i] = None.
Proof. intros H. unfold aget. by rewrite in_bounds_out. Qed.

Lemma aget_in a i : 0 ≤ i < alen a → ∃ x, a.[i] = Some x.
Proof. intros H. unfold aget. rewrite (proj2 (in_bounds_spec _ _) H). eauto. Qed.

Lemma aget_anew n (d : A) i : 0 ≤ i < n → (anew n d).[i] = Some d.
Proof.
  intros H. unfold aget, anew; simpl.
  by rewrite (proj2 (in_bounds_spec _ _) H), lookup_empty.
Qed.

Lemma aput_in a i x : 0 ≤ i < alen a → aput a i x = Some (aset a i x).
Proof. intros H. unfold aput. by rewrite (proj2 (in_bounds_spec _ _) H). Qed.

Lemma aput_out a i x : ¬ (0 ≤ i < alen a) → aput a i x = None.
Proof. intros H. unfold aput. by rewrite in_bounds_out. Qed.

Lemma alen_aset a i x : alen (aset a i x) = alen a.
Proof. done. Qed.

Lemma aget_aset_eq a i x : 0 ≤ i < alen a → (aset a i x).[i] = Some x.
Proof.
  intros H. unfold aget, aset; simpl.
  by rewrite (proj2 (in_bounds_spec _ _) H), lookup_insert_eq.
Qed.

Lemma aget_aset_ne a i j x : i ≠ j → (aset a i x).[j] = a.[j].
Proof. intros H. unfold aget, aset; simpl. by rewrite lookup_insert_ne. Qed.

Lemma aget_aset a i j x : 0 ≤ i < alen a →
  (aset a i x).[j] = if decide (i = j) then Some x else a.[j].
Proof.
  intros H. case_decide as E; [subst; by apply aget_aset_eq | by apply aget_aset_ne].
Qed.
End Array_lemmas.

#[export] Hint Resolve aget_Some_bounds : mdb.
#[export] Hint Rewrite @alen_aset : mdb.

(** * Lemmas: machine integers and bits *)

Lemma uwrap_id w z : in_range w z → uwrap w z = z.
Proof. apply Z.mod_small. Qed.

Lemma uwrap_range w z : 0 ≤ w → in_range w (uwrap w z).
Proof. intros H. apply Z.mod_pos_bound. by apply Z.pow_pos_nonneg. Qed.

Lemma testbit_above w x i : in_range w x → w ≤ i → Z.testbit x i = false.
Proof.
  intros [H0 H1] Hi. destruct (decide (x = 0)) as [->|Hx]; [apply Z.testbit_0_l|].
  apply Z.bits_above_log2; [lia|].
  assert (Z.log2 x < w) by (apply Z.log2_lt_pow2; lia). lia.
Qed.

Lemma in_range_bits w x : 0 ≤ w → 0 ≤ x →
  (∀ i, w ≤ i → Z.testbit x i = false) → in_range w x.
Proof.
  intros Hw Hx Hb. split; [done|].
  destruct (decide (x = 0)) as [->|Hne]; [lia|].
  apply Z.log2_lt_pow2; [lia|].
  destruct (Z.lt_ge_cases (Z.log2 x) w) as [|Hge]; [done|].
  pose proof (Hb _ Hge) as Hf. rewrite Z.bit_log2 in Hf; [done|lia].
Qed.

Lemma lor_range w x y : in_range w x → in_range w y → in_range w (Z.lor x y).
Proof.
  intros Hx Hy. unfold in_range in *.
  destruct (Z.lt_ge_cases w 0) as [Hn|Hw].
  { rewrite (Z.pow_neg_r 2 w) in * by lia. lia. }
  apply in_range_bits; [done|apply Z.lor_nonneg; lia|].
  intros i Hi. rewrite Z.lor_spec.
  by rewrite !(testbit_above w) by (done || unfold in_range; lia).
Qed.

Lemma land_range w x y : 0 ≤ w → in_range w x → 0 ≤ y → in_range w (Z.land x y).
Proof.
  intros Hw Hx Hy. unfold in_range in *.
  apply in_range_bits; [done|apply Z.land_nonneg; lia|].
  intros i Hi. rewrite Z.land_spec.
  by rewrite (testbit_above w x) by (done || unfold in_range; lia).
Qed.

Lemma unot_spec w x i : 0 ≤ w → 0 ≤ i < w → Z.testbit (unot w x) i = negb (Z.testbit x i).
Proof.
  intros Hw Hi. unfold unot. rewrite Z.lxor_spec, Z.ones_spec_low by lia.
  by rewrite xorb_true_r.
Qed.

Lemma unot_range w x : 0 ≤ w → in_range w x → in_range w (unot w x).
Proof.
  intros Hw Hx. unfold unot.
  assert (in_range w (Z.ones w)) as Ho.
  { rewrite Z.ones_equiv. unfold in_range. pose proof (Z.pow_pos_nonneg 2 w). lia. }
  apply in_range_bits; [done| |].
  - apply Z.lxor_nonneg. unfold in_range in *. lia.
  - intros i Hi. rewrite Z.lxor_spec, !(testbit_above w) by done. done.
Qed.

Lemma bit_range w i : 0 ≤ i < w → in_range w (Z.shiftl 1 i).
Proof.
  intros H. rewrite Z.shiftl_1_l. split; [apply Z.pow_nonneg; lia|].
  apply Z.pow_lt_mono_r; lia.
Qed.

Lemma testbit_bit i j : 0 ≤ i → Z.testbit (Z.shiftl 1 i) j = bool_decide (i = j).
Proof.
  intros Hi. rewrite Z.shiftl_1_l. case_bool_decide; subst.
  - apply Z.pow2_bits_true; lia.
  - destruct (Z.lt_ge_cases j 0); [by rewrite Z.testbit_neg_r|].
    apply Z.pow2_bits_false; lia.
Qed.

Lemma nonzero_has_bit w x : in_range w x → x ≠ 0 → ∃ i, 0 ≤ i < w ∧ Z.testbit x i = true.
Proof.
  intros Hx Hne. exists (Z.log2 x). unfold in_range in Hx.
  assert (0 < x) by lia. split.
  - split; [apply Z.log2_nonneg|]. apply Z.log2_lt_pow2; lia.
  - by apply Z.bit_log2.
Qed.

Lemma has_bit_nonzero x i : Z.testbit x i = true → x ≠ 0.
Proof. intros H ->. by rewrite Z.testbit_0_l in H. Qed.

Lemma builtin_clzll_spec x : in_range 64 x → x ≠ 0 →
  ∃ n, builtin_clzll x = Some n ∧ 0 ≤ n < 64 ∧ Z.testbit x (63 - n) = true ∧
       ∀ i, 63 - n < i → Z.testbit x i = false.
Proof.
  intros Hx Hne. unfold in_range in Hx. exists (63 - Z.log2 x). unfold builtin_clzll.
  destruct (Z.eqb_spec x 0); [done|].
  assert (0 ≤ Z.log2 x) by apply Z.log2_nonneg.
  assert (Z.log2 x < 64) by (apply Z.log2_lt_pow2; lia).
  replace (63 - (63 - Z.log2 x)) with (Z.log2 x) by lia.
  repeat split; try lia.
  - apply Z.bit_log2; lia.
  - intros i Hi. apply Z.bits_above_log2; lia.
Qed.

Lemma pos_ctz_nonneg p : 0 ≤ pos_ctz p.
Proof. induction p; simpl; lia. Qed.

Lemma pos_ctz_bit p : Z.testbit (Zpos p) (pos_ctz p) = true.
Proof.
  induction p as [p _|p IH|]; [done| |done].
  simpl pos_ctz. rewrite Pos2Z.inj_xO. pose proof (pos_ctz_nonneg p).
  by rewrite Z.testbit_even_succ.
Qed.

Lemma pos_ctz_low p i : i < pos_ctz p → Z.testbit (Zpos p) i = false.
Proof.
  revert i. induction p as [p _|p IH|]; intros i Hi; simpl in Hi;
    try (apply Z.testbit_neg_r; lia).
  destruct (Z.lt_ge_cases i 0); [by apply Z.testbit_neg_r|].
  rewrite Pos2Z.inj_xO. destruct (decide (i = 0)) as [->|].
  - apply Z.testbit_even_0.
  - replace i with (Z.succ (i - 1)) by lia.
    rewrite Z.testbit_even_succ by lia. apply IH. lia.
Qed.

Lemma builtin_ctzll_spec x : in_range 64 x → x ≠ 0 →
  ∃ n, builtin_ctzll x = Some n ∧ 0 ≤ n < 64 ∧ Z.testbit x n = true ∧
       ∀ i, i < n → Z.testbit x i = false.
Proof.
  intros Hx Hne. destruct x as [|p|p]; [done| |unfold in_range in Hx; lia].
  exists (pos_ctz p). pose proof (pos_ctz_bit p) as Hb.
  repeat split; auto using pos_ctz_nonneg, pos_ctz_low.
  destruct (Z.lt_ge_cases (pos_ctz p) 64) as [|Hge]; [done|].
  by rewrite (testbit_above 64) in Hb.
Qed.

(** * Lemmas: bytes *)

Lemma length_le_bytes n z : length (le_bytes n z) = n.
Proof. revert z. induction n; intros z; simpl; auto. Qed.

Lemma le_bytes_bytes n z : Forall is_byte (le_bytes n z).
Proof.
  revert z. induction n; intros z; simpl; constructor; auto.
  unfold is_byte. apply Z.mod_pos_bound. lia.
Qed.

Lemma le_Z_range l : Forall is_byte l → 0 ≤ le_Z l < 256 ^ Z.of_nat (length l).
Proof.
  induction 1 as [|b l Hb _ IH]; cbn [le_Z length]; [lia|].
  rewrite Nat2Z.inj_succ, Z.pow_succ_r by lia. unfold is_byte in Hb. lia.
Qed.

Lemma le_Z_le_bytes n z : le_Z (le_bytes n z) = z mod 256 ^ Z.of_nat n.
Proof.
  revert z. induction n as [|n IH]; intros z; cbn [le_Z le_bytes].
  - by rewrite Z.mod_1_r.
  - rewrite IH, Nat2Z.inj_succ, Z.pow_succ_r by lia.
    rewrite Z.rem_mul_r by (try apply Z.pow_nonzero; lia). lia.
Qed.

Lemma le_bytes_le_Z l : Forall is_byte l → le_bytes (length l) (le_Z l) = l.
Proof.
  induction 1 as [|b l Hb _ IH]; simpl; [done|]. unfold is_byte in Hb. f_equal.
  - rewrite (Z.mul_comm 256), Z.mod_add, Z.mod_small by lia. done.
  - rewrite (Z.mul_comm 256), Z.div_add, Z.div_small by lia. done.
Qed.

Lemma le_Z_app l1 l2 : le_Z (l1 ++ l2) = le_Z l1 + 256 ^ Z.of_nat (length l1) * le_Z l2.
Proof.
  induction l1 as [|b l1 IH]; cbn [le_Z length app]; [lia|].
  rewrite IH, Nat2Z.inj_succ, Z.pow_succ_r by lia. lia.
Qed.

Lemma be_Z_acc_le acc l :
  be_Z_acc acc l = le_Z (rev l) + 256 ^ Z.of_nat (length l) * acc.
Proof.
  revert acc. induction l as [|b l IH]; intros acc; cbn [be_Z_acc rev length le_Z]; [lia|].
  rewrite IH, le_Z_app, length_rev, Nat2Z.inj_succ, Z.pow_succ_r by lia. cbn [le_Z]. lia.
Qed.

Lemma be_Z_le l : be_Z l = le_Z (rev l).
Proof. unfold be_Z. rewrite be_Z_acc_le. lia. Qed.

(** A little-endian load followed by a byte swap is a big-endian load. *)
Lemma bswap_le_Z l : Forall is_byte l → bswap (length l) (le_Z l) = be_Z l.
Proof. intros H. unfold bswap. by rewrite le_bytes_le_Z, be_Z_le. Qed.

Lemma be_Z_range l : Forall is_byte l → 0 ≤ be_Z l < 256 ^ Z.of_nat (length l).
Proof.
  intros H. rewrite be_Z_le, <- (length_rev l). apply le_Z_range.
  by apply Forall_rev.
Qed.

(** * Lemmas: consecutive cells *)

Lemma read_bytes_Some a off n l :
  read_bytes a off n = Some l ↔
  length l = n ∧ ∀ k, (k < n)%nat → a.[off + Z.of_nat k] = l !! k.
Proof.
  revert off l. induction n as [|n IH]; intros off l; simpl.
  - split; [intros [= <-]; split; [done|lia]|].
    intros [Hl _]. destruct l; [done|discriminate].
  - split.
    + destruct (aget a off) as [b|] eqn:Hb; [|done].
      destruct (read_bytes a (off + 1) n) as [l'|] eqn:Hl; [|done].
      intros [= <-]. apply IH in Hl as [Hlen Hk]. split; [simpl; lia|].
      intros [|k] Hlt; simpl; [by rewrite Z.add_0_r|].
      rewrite <- Hk by lia. f_equal. lia.
    + intros [Hlen Hk]. destruct l as [|b l]; [discriminate|].
      pose proof (Hk 0%nat ltac:(lia)) as H0. simpl in H0. rewrite Z.add_0_r in H0.
      rewrite H0. rewrite (proj2 (IH (off + 1) l)); [done|].
      simpl in Hlen. split; [lia|]. intros k Hlt.
      etrans; [|exact (Hk (S k) ltac:(lia))]. f_equal. lia.
Qed.

Lemma read_bytes_in a off n :
  0 ≤ off → off + Z.of_nat n ≤ alen a → ∃ l, read_bytes a off n = Some l ∧ length l = n.
Proof.
  revert off. induction n as [|n IH]; intros off H0 H1; simpl; [eauto|].
  destruct (aget_in a off) as [b ->]; [lia|].
  destruct (IH (off + 1)) as (l & -> & Hl); [lia..|]. exists (b :: l). simpl. auto.
Qed.

Lemma write_bytes_in a off l :
  0 ≤ off → off + Z.of_nat (length l) ≤ alen a →
  ∃ a', write_bytes a off l = Some a' ∧ alen a' = alen a.
Proof.
  revert a off. induction l as [|b l IH]; intros a off H0 H1; simpl in *; [eauto|].
  rewrite aput_in by lia. apply (IH (aset a off b)); rewrite ?alen_aset; lia.
Qed.

Lemma write_bytes_get a off l a' j :
  write_bytes a off l = Some a' →
  a'.[j] = if decide (off ≤ j < off + Z.of_nat (length l))
           then l !! Z.to_nat (j - off) else a.[j].
Proof.
  revert a off. induction l as [|b l IH]; intros a off; simpl.
  - intros [= <-]. case_decide; [lia|done].
  - destruct (decide (0 ≤ off < alen a)) as [Hin|Hout]; [|by rewrite aput_out].
    rewrite aput_in by done. intros H. rewrite (IH _ _ H), aget_aset by done.
    repeat case_decide; try lia; try done.
    + replace (Z.to_nat (j - off)) with (S (Z.to_nat (j - (off + 1)))) by lia. done.
    + subst. by rewrite Z.sub_diag.
Qed.

Lemma write_bytes_len a off l a' : write_bytes a off l = Some a' → alen a' = alen a.
Proof.
  revert a off. induction l as [|b l IH]; intros a off; simpl; [by intros [= <-]|].
  unfold aput. destruct (in_bounds _ _); [|done]. intros H. by rewrite (IH _ _ H).
Qed.

Lemma write_bytes_out a off l : l ≠ [] → alen a < off + Z.of_nat (length l) →
  write_bytes a off l = None.
Proof.
  revert a off. induction l as [|b l IH]; intros a off Hl Hoff; [done|]. cbn [write_bytes length] in *.
  unfold aput. destruct (in_bounds (alen a) off) eqn:E; [|done]. apply in_bounds_spec in E.
  destruct l as [|b' l]; [simpl in Hoff; lia|]. apply IH; [done|]. rewrite alen_aset. lia.
Qed.

Lemma read_write_same a off l a' :
  write_bytes a off l = Some a' → read_bytes a' off (length l) = Some l.
Proof.
  intros H. apply read_bytes_Some. split; [done|]. intros k Hk.
  rewrite (write_bytes_get _ _ _ _ _ H). case_decide; [|lia]. f_equal. lia.
Qed.

Lemma read_bytes_ext a a' off n :
  (∀ j, off ≤ j < off + Z.of_nat n → a'.[j] = a.[j]) →
  read_bytes a' off n = read_bytes a off n.
Proof.
  revert off. induction n as [|n IH]; intros off H; simpl; [done|].
  rewrite H by lia. destruct (aget a off); [|done]. rewrite IH; [done|].
  intros j Hj. apply H. lia.
Qed.

Lemma read_write_disjoint a off l a' off' n :
  write_bytes a off l = Some a' →
  (off' + Z.of_nat n ≤ off ∨ off + Z.of_nat (length l) ≤ off') →
  read_bytes a' off' n = read_bytes a off' n.
Proof.
  intros H Hd. apply read_bytes_ext. intros j Hj.
  rewrite (write_bytes_get _ _ _ _ _ H). case_decide; [lia|done].
Qed.

Lemma read_bytes_app a off n1 n2 :
  read_bytes a off (n1 + n2) =
  match read_bytes a off n1, read_bytes a (off + Z.of_nat n1) n2 with
  | Some l1, Some l2 => Some (l1 ++ l2)
  | _, _ => None
  end.
Proof.
  revert off. induction n1 as [|n1 IH]; intros off; simpl.
  - rewrite Z.add_0_r. by destruct (read_bytes _ _ _).
  - destruct (aget a off); [|done]. rewrite IH.
    destruct (read_bytes a (off + 1) n1); [|done].
    replace (off + 1 + Z.of_nat n1) with (off + Z.of_nat (S n1)) by lia.
    by destruct (read_bytes a (off + Z.of_nat (S n1)) n2).
Qed.

(** * Lemmas: loops *)

Lemma loop_nat_add {S R} (n m : nat) (f : S → S + R) s :
  loop_nat (n + m) f s =
  match loop_nat n f s with inl s' => loop_nat m f s' | inr r => inr r end.
Proof.
  revert s. induction n as [|n IH]; intros s; simpl; [done|].
  destruct (f s); [apply IH|done].
Qed.

Lemma loop_pos_nat {S R} (p : positive) (f : S → S + R) s :
  loop_pos p f s = loop_nat (Pos.to_nat p) f s.
Proof.
  revert s. induction p as [p IH|p IH|]; intros s; cbn [loop_pos].
  - rewrite Pos2Nat.inj_xI. cbn [loop_nat]. destruct (f s) as [s1|]; [|done].
    replace (2 * Pos.to_nat p)%nat with (Pos.to_nat p + Pos.to_nat p)%nat by lia.
    rewrite loop_nat_add, <- IH. by destruct (loop_pos p f s1).
  - rewrite Pos2Nat.inj_xO.
    replace (2 * Pos.to_nat p)%nat with (Pos.to_nat p + Pos.to_nat p)%nat by lia.
    rewrite loop_nat_add, <- IH. by destruct (loop_pos p f s).
  - simpl. by destruct (f s).
Qed.

(** A loop whose body, on states satisfying [I], either stays in [I] with a
    smaller measure or leaves with a result in [P], leaves within its fuel. *)
Lemma loop_nat_total {S R} (f : S → S + R) (I : S → Prop) (P : R → Prop) (mu : S → nat) :
  (∀ s, I s → match f s with inl s' => I s' ∧ (mu s' < mu s)%nat | inr r => P r end) →
  ∀ n s, I s → (mu s < n)%nat → ∃ r, loop_nat n f s = inr r ∧ P r.
Proof.
  intros Hf n. induction n as [|n IH]; intros s HI Hmu; [lia|]. simpl.
  specialize (Hf s HI). destruct (f s) as [s'|r]; [|eauto].
  destruct Hf as [HI' Hlt]. apply IH; [done|lia].
Qed.

Lemma loop_pos_total {S R} (f : S → S + R) (I : S → Prop) (P : R → Prop) (mu : S → nat) :
  (∀ s, I s → match f s with inl s' => I s' ∧ (mu s' < mu s)%nat | inr r => P r end) →
  ∀ p s, I s → (mu s < Pos.to_nat p)%nat → ∃ r, loop_pos p f s = inr r ∧ P r.
Proof. intros Hf p s. rewrite loop_pos_nat. by apply (loop_nat_total f I P mu). Qed.

(** A body that always continues never leaves, whatever the fuel. *)
Lemma loop_nat_diverges {S R} (f : S → S + R) (I : S → Prop) :
  (∀ s, I s → ∃ s', f s = inl s' ∧ I s') →
  ∀ n s, I s → ∃ s', loop_nat n f s = inl s' ∧ I s'.
Proof.
  intros Hf n. induction n as [|n IH]; intros s HI; simpl; [eauto|].
  destruct (Hf s HI) as (s' & -> & HI'). by apply IH.
Qed.

(** * Lemmas: lists *)

(** First and last element of a list with a default: the index "pointers" of
    the code, whose null value is the default. *)
Definition hdd {A} (d : A) (l : list A) : A := default d (head l).
Definition lastd {A} (d : A) (l : list A) : A := default d (last l).

Lemma hdd_app {A} (d : A) l1 l2 : hdd d (l1 ++ l2) = hdd (hdd d l2) l1.
Proof. by destruct l1. Qed.

Lemma lastd_app {A} (d : A) l1 l2 : lastd d (l1 ++ l2) = lastd (lastd d l1) l2.
Proof.
  unfold lastd. rewrite last_app. by destruct (last l2) as [x|] eqn:E.
Qed.

Lemma lastd_cons {A} (d x : A) l : lastd d (x :: l) = lastd x l.
Proof. apply (lastd_app d [x] l). Qed.

Lemma lastd_in {A} (d : A) l : l ≠ [] → lastd d l ∈ l.
Proof.
  intros Hl. unfold lastd. destruct (last l) as [x|] eqn:E; simpl.
  - by apply last_Some_elem_of.
  - by apply last_None in E.
Qed.

Lemma hdd_in {A} (d : A) l : l ≠ [] → hdd d l ∈ l.
Proof. destruct l; [done|]. intros _. left. Qed.

(** * Lemmas: masks and shifts *)

Lemma land_mask k x : 0 ≤ k → Z.land x (2 ^ k - 1) = x mod 2 ^ k.
Proof. intros H. rewrite <- Z.land_ones by done. f_equal. rewrite Z.ones_equiv. lia. Qed.

Lemma shiftr_div k x : 0 ≤ k → Z.shiftr x k = x / 2 ^ k.
Proof. apply Z.shiftr_div_pow2. Qed.

Lemma shiftl_mul k x : 0 ≤ k → Z.shiftl x k = x * 2 ^ k.
Proof. apply Z.shiftl_mul_pow2. Qed.

(** * Lemmas: counting *)

Lemma length_le_of_NoDup {A} (l k : list A) :
  NoDup l → (∀ x, x ∈ l → x ∈ k) → (length l ≤ length k)%nat.
Proof. intros Hl Hk. apply submseteq_length. by apply NoDup_submseteq. Qed.

Lemma size_le_length {A} (K : gmap Z A) (l : list Z) :
  (∀ k, is_Some (K !! k) → k ∈ l) → (size K ≤ length l)%nat.
Proof.
  intros H. rewrite <- (length_map_to_list K), <- (length_fmap fst).
  apply length_le_of_NoDup; [apply NoDup_fst_map_to_list|].
  intros k Hk. apply list_elem_of_fmap in Hk as ([k' v] & -> & Hkv).
  apply elem_of_map_to_list in Hkv. apply H. eauto.
Qed.

Lemma length_le_size {A} (K : gmap Z A) (l : list Z) :
  NoDup l → (∀ k, k ∈ l → is_Some (K !! k)) → (length l ≤ size K)%nat.
Proof.
  intros Hl H. rewrite <- (length_map_to_list K), <- (length_fmap fst).
  apply length_le_of_NoDup; [done|]. intros k Hk. destruct (H k Hk) as [v Hv].
  apply list_elem_of_fmap. exists (k, v). split; [done|]. by apply elem_of_map_to_list.
Qed.

Lemma filter_id {A} (P : A → Prop) `{!∀ x, Decision (P x)} (l : list A) :
  (∀ x, x ∈ l → P x) → filter P l = l.
Proof.
  induction l as [|x l IH]; intros Hall; [done|].
  rewrite filter_cons_True by (apply Hall; left). f_equal. apply IH. intros y Hy. apply Hall. by right.
Qed.

(** Numbers closer than the modulus with equal residues are equal. *)
Lemma mod_inj_near n a b : 0 < n → a mod n = b mod n → - n < a - b < n → a = b.
Proof.
  intros Hn E Hab. pose proof (Z.div_mod a n ltac:(lia)). pose proof (Z.div_mod b n ltac:(lia)).
  set (k := a / n - b / n). assert (a - b = n * k) as Hk by (unfold k; lia).
  destruct (Z.lt_trichotomy k 0) as [|[E0|]]; [nia|rewrite E0 in Hk; lia|nia].
Qed.

Lemma u64_mod e x : 0 ≤ e ≤ 64 → u64 x mod 2 ^ e = x mod 2 ^ e.
Proof.
  intros He. unfold u64, uwrap. apply Z.mod_mod_divide.
  exists (2 ^ (64 - e)). rewrite <- Z.pow_add_r by lia. f_equal. lia.
Qed.

(** Consecutive writes are one write. *)
Lemma write_bytes_app a off l1 l2 :
  write_bytes a off (l1 ++ l2) =
  match write_bytes a off l1 with
  | Some a' => write_bytes a' (off + Z.of_nat (length l1)) l2
  | None => None
  end.
Proof.
  revert a off. induction l1 as [|b l1 IH]; intros a off; simpl; [by rewrite Z.add_0_r|].
  destruct (aput a off b); [|done]. rewrite IH.
  replace (off + 1 + Z.of_nat (length l1)) with (off + Z.of_nat (S (length l1))) by lia. done.
Qed.

(** * Invariants of member functions

    [keeps P Q m] says that a member function keeps the invariant [P] of its
    object in every outcome and returns values in [Q]; its rules follow the
    monad.  Lemmas about operations go to the hint database [typed]. *)

Definition keeps {S A} (P : S → Prop) (Q : A → Prop) (m : M S A) : Prop :=
  ∀ s, P s → P (m s).2 ∧ ∀ a, (m s).1 = Ok a → Q a.

Create HintDb typed.

Section Keeps.
Context {S A B : Type}.
Implicit Types (P : S → Prop).

Lemma keeps_bind P (Q : A → Prop) (R : B → Prop) (m : M S A) (k : A → M S B) :
  keeps P Q m → (∀ a, Q a → keeps P R (k a)) → keeps P R (m ≫= k).
Proof.
  intros Hm Hk s Hs. destruct (Hm s Hs) as [Hs' Ha]. unfold mbind, M_bind.
  destruct (m s) as [[a|e| |] s']; cbn in *; [by apply Hk; [apply Ha|]|by split..].
Qed.

Lemma keeps_ret P (Q : A → Prop) a : Q a → keeps P Q (mret a).
Proof. intros Ha s Hs. split; [done|]. by intros a' [= <-]. Qed.

Lemma keeps_gets P (Q : A → Prop) f : (∀ s, P s → Q (f s)) → keeps P Q (gets f).
Proof. intros Hf s Hs. split; [done|]. intros a [= <-]. by apply Hf. Qed.

Lemma keeps_modify P f : (∀ s, P s → P (f s)) → keeps P (λ _, True) (modify f).
Proof. intros Hf s Hs. split; [by apply Hf|done]. Qed.

Lemma keeps_of_option P (Q : A → Prop) o : (∀ a, o = Some a → Q a) → keeps P Q (of_option o).
Proof. intros Ho. destruct o as [a|]; [apply keeps_ret; by apply Ho|]. intros s Hs. by split. Qed.

Lemma keeps_throw P (Q : A → Prop) e : keeps P Q (throw e).
Proof. intros s Hs. by split. Qed.

Lemma keeps_weaken P (Q Q' : A → Prop) m : keeps P Q m → (∀ a, Q a → Q' a) → keeps P Q' m.
Proof. intros Hm HQ s Hs. destruct (Hm s Hs) as [H1 H2]. split; [done|]. eauto. Qed.

Lemma keeps_same P (Q : A → Prop) (m : M S A) :
  (∀ s, (m s).2 = s) → (∀ s a, P s → (m s).1 = Ok a → Q a) → keeps P Q m.
Proof. intros H1 H2 s Hs. rewrite H1. eauto. Qed.
End Keeps.

Lemma keeps_zoom {S T A} (P : S → Prop) (P' : T → Prop) (Q : A → Prop) get put (m : M T A) :
  (∀ s, P s → P' (get s)) → (∀ s t, P s → P' t → P (put t s)) → keeps P' Q m →
  keeps P Q (zoom get put m).
Proof.
  intros Hget Hput Hm s Hs. destruct (Hm (get s) (Hget s Hs)) as [H1 H2].
  unfold zoom. destruct (m (get s)) as [r t]. cbn in *. split; [by apply Hput|done].
Qed.

#[export] Hint Resolve keeps_ret keeps_throw : typed.

(** Follow the structure of a member function. *)
Ltac typed_step :=
  match goal with
  | |- keeps _ _ (_ ≫= _) => eapply keeps_bind; [solve [eauto 12 with typed]|intros ? ?; cbv beta in *]
  | |- keeps _ _ (if ?b then _ else _) => destruct b eqn:?
  | |- keeps _ _ (match ?x with _ => _ end) => destruct x eqn:?
  | |- keeps _ _ (let x := _ in _) => cbv zeta
  | |- keeps _ _ _ => solve [eauto 12 with typed]
  end.
Ltac typed := repeat typed_step.
