(* ===== verification/Interfaces.v ===== *)
(** What the order book asks of the two utilities it is built on.

    - [PriceIndex]: the index of non-empty price levels, the role
      [utils::HierarchicalBitset] plays in [book::LimitOrderBook]; its
      laws say that it is a finite set of ticks with constant-time extrema.
    - [OrderMap]: the map from order ids to tagged pool indices, the role
      of [utils::StaticOrderMap]; its laws say that it is a finite map of
      bounded size.

    The book is modelled over the operations and its theorems use only the
    laws; HierarchicalBitset.v and StaticOrderMap.v give the instances.

    [BlockHandler] is what the receiver asks of its message handler (the C++
    concept [HasParseBlockMethod]); Pipeline.v gives the instance. *)

From S2P Require Import Prelude.

(** * Extrema of a set of ticks

    The reference definition of the best price: the largest (bids) or the
    smallest (offers) tick of the set, [size_t(-1)] when it is empty. *)

Definition set_best (f : Z → Z → Z) (X : gset Z) : Z :=
  match elements X with
  | [] => SIZE_MAX
  | x :: l => foldr f x l
  end.

Definition best_bid_of (X : gset Z) : Z := set_best Z.max X.
Definition best_offer_of (X : gset Z) : Z := set_best Z.min X.

Lemma foldr_extremum (f : Z → Z → Z) (le : Z → Z → Prop) :
  (∀ a b, f a b = a ∨ f a b = b) →
  (∀ a b, le a (f a b)) → (∀ a b, le b (f a b)) →
  (∀ a b c, le a b → le b c → le a c) → (∀ a, le a a) →
  ∀ l x, foldr f x l ∈ x :: l ∧ ∀ y, y ∈ x :: l → le y (foldr f x l).
Proof.
  intros Hsel Hl Hr Htr Hrefl l x. induction l as [|a l [IHin IHle]]; simpl.
  - split; [left|]. intros y Hy. apply list_elem_of_singleton in Hy as ->. done.
  - split.
    + rewrite !elem_of_cons in *. destruct (Hsel a (foldr f x l)) as [->| ->]; tauto.
    + intros y Hy.
      assert (y = a ∨ y ∈ x :: l) as [-> | Hy'] by (rewrite !elem_of_cons in *; tauto); [done|].
      eapply Htr; [by apply IHle|done].
Qed.

Lemma set_best_unique f (le : Z → Z → Prop) X m :
  (∀ a b, f a b = a ∨ f a b = b) →
  (∀ a b, le a (f a b)) → (∀ a b, le b (f a b)) →
  (∀ a b c, le a b → le b c → le a c) → (∀ a : Z, le a a) →
  (∀ a b, le a b → le b a → a = b) →
  m ∈ X → (∀ t, t ∈ X → le t m) → set_best f X = m.
Proof.
  intros H1 H2 H3 H4 H5 Has Hm Hle. unfold set_best.
  assert (∀ y, y ∈ X ↔ y ∈ elements X) as Hel by (intros; by rewrite elem_of_elements).
  destruct (elements X) as [|x l] eqn:E; [by apply Hel, elem_of_nil in Hm|].
  destruct (foldr_extremum f le H1 H2 H3 H4 H5 l x) as [Hin Hmx].
  apply Has; [apply Hle, Hel, Hin|apply Hmx, Hel, Hm].
Qed.

Lemma best_bid_of_max X m : m ∈ X → (∀ t, t ∈ X → t ≤ m) → best_bid_of X = m.
Proof. apply (set_best_unique Z.max Z.le); lia. Qed.

Lemma best_offer_of_min X m : m ∈ X → (∀ t, t ∈ X → m ≤ t) → best_offer_of X = m.
Proof. apply (set_best_unique Z.min (λ a b, b ≤ a)); lia. Qed.

Lemma best_bid_of_empty : best_bid_of ∅ = SIZE_MAX.
Proof. done. Qed.

Lemma best_offer_of_empty : best_offer_of ∅ = SIZE_MAX.
Proof. done. Qed.

(** * The index of price levels *)

Class PriceIndex (I : Type) : Type := {
  idx_set : Z → M I unit;
  idx_clear : Z → M I unit;
  idx_best_bid : M I Z;
  idx_best_offer : M I Z
}.

Class PriceIndexLaws (I : Type) `{PriceIndex I} (ticks : Z)
    (rep : I → gset Z → Prop) : Prop := {
  idx_set_spec b X t : rep b X → 0 ≤ t < ticks →
    ∃ b', idx_set t b = (Ok tt, b') ∧ rep b' ({[t]} ∪ X);
  idx_clear_spec b X t : rep b X → 0 ≤ t < ticks →
    ∃ b', idx_clear t b = (Ok tt, b') ∧ rep b' (X ∖ {[t]});
  idx_best_bid_spec b X : rep b X → idx_best_bid b = (Ok (best_bid_of X), b);
  idx_best_offer_spec b X : rep b X → idx_best_offer b = (Ok (best_offer_of X), b)
}.

(** * The map from order ids to pool indices *)

(** A lookup returns the stored value; the code gets it through the bucket
    the lookup points to.  [om_assign k v] is [map[k] = v]. *)
Class OrderMap (T : Type) : Type := {
  om_lookup : Z → M T (option Z);
  om_assign : Z → Z → M T unit;
  om_erase : Z → M T unit
}.

Class OrderMapLaws (T : Type) `{OrderMap T} (capacity : Z) (full : exn)
    (rep : T → gmap Z Z → Prop) : Prop := {
  om_lookup_spec t m k : rep t m → om_lookup k t = (Ok (m !! k), t);
  om_assign_spec t m k v : rep t m →
    is_Some (m !! k) ∨ Z.of_nat (size m) < capacity →
    ∃ t', om_assign k v t = (Ok tt, t') ∧ rep t' (<[k := v]> m);
  om_assign_full t m k v : rep t m →
    m !! k = None → capacity ≤ Z.of_nat (size m) →
    om_assign k v t = (Throw full, t);
  om_erase_spec t m k : rep t m →
    ∃ t', om_erase k t = (Ok tt, t') ∧ rep t' (delete k m)
}.

(** * The handler of blocks of messages *)

(** [parse_block(char* payload_ptr, int payload_len)] on the bytes from the
    pointer on. *)
Class BlockHandler (H : Type) : Type := handle_block : list Z → M H unit.

(** Blocks one after the other; an outcome other than a return ends the run. *)
Fixpoint handle_blocks {H} `{!BlockHandler H} (blocks : list (list Z)) : M H unit :=
  match blocks with
  | [] => mret tt
  | b :: bs => handle_block b;; handle_blocks bs
  end.

Lemma handle_blocks_app {H} `{!BlockHandler H} bs1 bs2 (h : H) :
  handle_blocks (bs1 ++ bs2) h = (handle_blocks bs1;; handle_blocks bs2) h.
Proof.
  revert h. induction bs1 as [|b bs1 IH]; intros h; [done|]. cbn [app handle_blocks].
  rewrite bind_assoc. unfold mbind, M_bind. by destruct (handle_block b h) as [[] ?].
Qed.
