(* ===== verification/HierarchicalBitset.v ===== *)
(** [utils::HierarchicalBitset] (src/src/utils/HierarchicalBitset.h).

    Three levels of 64-bit words: a bit of the first level per tick, a bit
    of the second level per first-level word that is not zero, a bit of
    [third_level_] per second-level word that is not zero.  Within a word,
    position [k] is bit [63 - k], so the leading-zero count finds the
    smallest position and the trailing-zero count the largest.

    The theorems: under the summary invariant the bitset is a finite set of
    ticks ([bitset_rep]); [set_price_level] and [clear_price_level] are
    insertion and removal; [get_best_offer] and [get_best_bid] are the
    minimum and the maximum.  [bitset_price_index_laws] discharges the
    interface the order book uses. *)

From S2P Require Import Prelude Interfaces.

(** * The data and the operations *)

Record HierarchicalBitset : Type := mkBitset {
  first_level_ : array Z;
  second_level_ : array Z;
  third_level_ : Z
}.

Definition L1_SIZE (MAX_TICKS : Z) : Z := (MAX_TICKS + 63) / 64.
Definition L2_SIZE (MAX_TICKS : Z) : Z := (L1_SIZE MAX_TICKS + 63) / 64.

Definition HierarchicalBitset_new (MAX_TICKS : Z) : HierarchicalBitset :=
  mkBitset (anew (L1_SIZE MAX_TICKS) 0) (anew (L2_SIZE MAX_TICKS) 0) 0.

Definition set_first (a : array Z) (b : HierarchicalBitset) : HierarchicalBitset :=
  mkBitset a (second_level_ b) (third_level_ b).
Definition set_second (a : array Z) (b : HierarchicalBitset) : HierarchicalBitset :=
  mkBitset (first_level_ b) a (third_level_ b).
Definition set_third (w : Z) (b : HierarchicalBitset) : HierarchicalBitset :=
  mkBitset (first_level_ b) (second_level_ b) w.

Definition load_first (i : Z) : M HierarchicalBitset Z :=
  a ← gets first_level_; of_option (a.[i]).
Definition store_first (i w : Z) : M HierarchicalBitset unit :=
  a ← gets first_level_; a' ← of_option (aput a i w); modify (set_first a').
Definition load_second (i : Z) : M HierarchicalBitset Z :=
  a ← gets second_level_; of_option (a.[i]).
Definition store_second (i w : Z) : M HierarchicalBitset unit :=
  a ← gets second_level_; a' ← of_option (aput a i w); modify (set_second a').

Definition get_best_offer : M HierarchicalBitset Z :=
  third ← gets third_level_;
  if third =? 0 then mret SIZE_MAX else
  second_level_idx ← of_option (builtin_clzll third);
  w2 ← load_second second_level_idx;
  first_level_idx ← of_option (builtin_clzll w2);
  w1 ← load_first (first_level_idx + Z.shiftl second_level_idx 6);
  actual_idx ← of_option (builtin_clzll w1);
  mret (actual_idx + Z.shiftl first_level_idx 6 + Z.shiftl second_level_idx 12).

Definition get_best_bid : M HierarchicalBitset Z :=
  third ← gets third_level_;
  if third =? 0 then mret SIZE_MAX else
  c3 ← of_option (builtin_ctzll third);
  let second_level_idx := 63 - c3 in
  w2 ← load_second second_level_idx;
  c2 ← of_option (builtin_ctzll w2);
  let first_level_idx := 63 - c2 in
  w1 ← load_first (first_level_idx + Z.shiftl second_level_idx 6);
  c1 ← of_option (builtin_ctzll w1);
  let actual_idx := 63 - c1 in
  mret (actual_idx + Z.shiftl first_level_idx 6 + Z.shiftl second_level_idx 12).

Definition set_price_level (tick_idx : Z) : M HierarchicalBitset unit :=
  let first_level_idx := Z.shiftr tick_idx 6 in
  w1 ← load_first first_level_idx;
  store_first first_level_idx (Z.lor w1 (Z.shiftl 1 (63 - Z.land tick_idx 63)));;
  let second_level_idx := Z.shiftr first_level_idx 6 in
  w2 ← load_second second_level_idx;
  store_second second_level_idx (Z.lor w2 (Z.shiftl 1 (63 - Z.land first_level_idx 63)));;
  w3 ← gets third_level_;
  modify (set_third (Z.lor w3 (Z.shiftl 1 (63 - Z.land second_level_idx 63)))).

Definition clear_price_level (tick_idx : Z) : M HierarchicalBitset unit :=
  let first_level_idx := Z.shiftr tick_idx 6 in
  w1 ← load_first first_level_idx;
  store_first first_level_idx
    (Z.land w1 (unot 64 (Z.shiftl 1 (63 - Z.land tick_idx 63))));;
  w1' ← load_first first_level_idx;
  if w1' =? 0 then
    let second_level_idx := Z.shiftr first_level_idx 6 in
    w2 ← load_second second_level_idx;
    store_second second_level_idx
      (Z.land w2 (unot 64 (Z.shiftl 1 (63 - Z.land first_level_idx 63))));;
    w2' ← load_second second_level_idx;
    if w2' =? 0 then
      w3 ← gets third_level_;
      modify (set_third
        (Z.land w3 (unot 64 (Z.shiftl 1 (63 - Z.land second_level_idx 63)))))
    else mret tt
  else mret tt.

#[export] Instance bitset_price_index : PriceIndex HierarchicalBitset := {
  idx_set := set_price_level;
  idx_clear := clear_price_level;
  idx_best_bid := get_best_bid;
  idx_best_offer := get_best_offer
}.

(** * Positions of a word, from the most significant bit *)

Definition rbit (w k : Z) : bool := Z.testbit w (63 - k).

Lemma rbit_set w k j : 0 ≤ k < 64 → 0 ≤ j < 64 →
  rbit (Z.lor w (Z.shiftl 1 (63 - k))) j = rbit w j || bool_decide (k = j).
Proof.
  intros Hk Hj. unfold rbit. rewrite Z.lor_spec, testbit_bit by lia.
  f_equal. apply bool_decide_ext. lia.
Qed.

Lemma rbit_clear w k j : 0 ≤ k < 64 → 0 ≤ j < 64 →
  rbit (Z.land w (unot 64 (Z.shiftl 1 (63 - k)))) j = rbit w j && negb (bool_decide (k = j)).
Proof.
  intros Hk Hj. unfold rbit. rewrite Z.land_spec, unot_spec, testbit_bit by lia.
  do 2 f_equal. apply bool_decide_ext. lia.
Qed.

Lemma set_word_range w k : 0 ≤ k < 64 → in_range 64 w →
  in_range 64 (Z.lor w (Z.shiftl 1 (63 - k))).
Proof. intros Hk Hw. apply lor_range; [done|]. apply bit_range. lia. Qed.

Lemma clear_word_range w k : 0 ≤ k < 64 → in_range 64 w →
  in_range 64 (Z.land w (unot 64 (Z.shiftl 1 (63 - k)))).
Proof.
  intros Hk Hw. apply land_range; [lia|done|].
  assert (in_range 64 (unot 64 (Z.shiftl 1 (63 - k)))) as [? _]; [|done].
  apply unot_range; [lia|]. apply bit_range. lia.
Qed.

Lemma rbit_nonzero w k : rbit w k = true → w ≠ 0.
Proof. apply has_bit_nonzero. Qed.

Lemma nonzero_rbit w : in_range 64 w → w ≠ 0 → ∃ k, 0 ≤ k < 64 ∧ rbit w k = true.
Proof.
  intros Hw Hne. destruct (nonzero_has_bit 64 w Hw Hne) as (i & Hi & Hb).
  exists (63 - i). split; [lia|]. unfold rbit. by replace (63 - (63 - i)) with i by lia.
Qed.

Lemma set_word_nonzero w k : 0 ≤ k < 64 → Z.lor w (Z.shiftl 1 (63 - k)) ≠ 0.
Proof.
  intros Hk. apply (rbit_nonzero _ k). rewrite rbit_set by done.
  rewrite bool_decide_true by done. apply orb_true_r.
Qed.

(** The leading-zero count is the first position set. *)
Lemma clzll_first w : in_range 64 w → w ≠ 0 →
  ∃ n, builtin_clzll w = Some n ∧ 0 ≤ n < 64 ∧ rbit w n = true ∧
       ∀ j, 0 ≤ j < 64 → rbit w j = true → n ≤ j.
Proof.
  intros Hw Hne. destruct (builtin_clzll_spec w Hw Hne) as (n & -> & Hn & Hb & Hlt).
  exists n. split_and!; try done; try lia. intros j Hj Hbj.
  destruct (Z.lt_ge_cases j n) as [Hl|]; [|lia].
  unfold rbit in Hbj. rewrite Hlt in Hbj; [done|lia].
Qed.

(** 63 minus the trailing-zero count is the last position set. *)
Lemma ctzll_last w : in_range 64 w → w ≠ 0 →
  ∃ n, builtin_ctzll w = Some n ∧ 0 ≤ 63 - n < 64 ∧ rbit w (63 - n) = true ∧
       ∀ j, 0 ≤ j < 64 → rbit w j = true → j ≤ 63 - n.
Proof.
  intros Hw Hne. destruct (builtin_ctzll_spec w Hw Hne) as (n & -> & Hn & Hb & Hlt).
  exists n. unfold rbit. replace (63 - (63 - n)) with n by lia.
  split_and!; try done; try lia. intros j Hj Hbj.
  destruct (Z.lt_ge_cases (63 - j) n) as [Hl|]; [|lia].
  rewrite Hlt in Hbj; [done|lia].
Qed.

(** * The invariant and the set of ticks *)

(** A summary bit is set exactly for a word that exists and is not zero. *)
Definition nonzero_word (o : option Z) : bool :=
  match o with Some w => negb (w =? 0) | None => false end.

Record bitset_ok (MAX_TICKS : Z) (b : HierarchicalBitset) : Prop := {
  ok_ticks : 0 < MAX_TICKS ≤ 262144;
  ok_len1 : alen (first_level_ b) = L1_SIZE MAX_TICKS;
  ok_len2 : alen (second_level_ b) = L2_SIZE MAX_TICKS;
  ok_words1 : ∀ i w, (first_level_ b).[i] = Some w → in_range 64 w;
  ok_words2 : ∀ i w, (second_level_ b).[i] = Some w → in_range 64 w;
  ok_word3 : in_range 64 (third_level_ b);
  ok_summary2 : ∀ s w f, (second_level_ b).[s] = Some w → 0 ≤ f < 64 →
    rbit w f = nonzero_word ((first_level_ b).[f + 64 * s]);
  ok_summary3 : ∀ s, 0 ≤ s < 64 →
    rbit (third_level_ b) s = nonzero_word ((second_level_ b).[s])
}.

(** The bit of a tick. *)
Definition tick_bit (b : HierarchicalBitset) (t : Z) : bool :=
  match (first_level_ b).[t / 64] with
  | Some w => rbit w (t mod 64)
  | None => false
  end.

Definition bitset_rep (MAX_TICKS : Z) (b : HierarchicalBitset) (X : gset Z) : Prop :=
  bitset_ok MAX_TICKS b ∧ ∀ t, t ∈ X ↔ 0 ≤ t ∧ tick_bit b t = true.

(** * Index arithmetic *)

Lemma shiftr6 x : Z.shiftr x 6 = x / 64.
Proof. by rewrite shiftr_div. Qed.

Lemma land63 x : Z.land x 63 = x mod 64.
Proof. apply (land_mask 6). lia. Qed.

Lemma word_bounds MAX_TICKS t : 0 < MAX_TICKS ≤ 262144 → 0 ≤ t < MAX_TICKS →
  0 ≤ t / 64 < L1_SIZE MAX_TICKS ∧ 0 ≤ t / 64 / 64 < L2_SIZE MAX_TICKS ∧ t / 64 / 64 < 64.
Proof.
  intros H1 H2. unfold L2_SIZE, L1_SIZE. Z.to_euclidean_division_equations. lia.
Qed.

Lemma L2_le_64 MAX_TICKS : 0 < MAX_TICKS ≤ 262144 → 0 < L2_SIZE MAX_TICKS ≤ 64.
Proof. intros H. unfold L2_SIZE, L1_SIZE. Z.to_euclidean_division_equations. lia. Qed.

Lemma index_split i : i = i mod 64 + 64 * (i / 64).
Proof. pose proof (Z.div_mod i 64). lia. Qed.

Lemma split_index f s : 0 ≤ f < 64 → (f + 64 * s) / 64 = s ∧ (f + 64 * s) mod 64 = f.
Proof.
  intros Hf. split.
  - rewrite (Z.mul_comm 64), Z.div_add, Z.div_small by lia. lia.
  - rewrite (Z.mul_comm 64), Z.mod_add, Z.mod_small by lia. lia.
Qed.

Lemma mod64_bounds x : 0 ≤ x mod 64 < 64.
Proof. apply Z.mod_pos_bound. lia. Qed.

#[export] Hint Resolve mod64_bounds : mdb.

Section Bitset.
Context (MAX_TICKS : Z).
Implicit Types (b : HierarchicalBitset) (X : gset Z) (t : Z).

Lemma nonzero_word_Some w : nonzero_word (Some w) = bool_decide (w ≠ 0).
Proof. unfold nonzero_word. destruct (Z.eqb_spec w 0); by case_bool_decide. Qed.

Lemma bitset_new_ok : 0 < MAX_TICKS ≤ 262144 →
  bitset_ok MAX_TICKS (HierarchicalBitset_new MAX_TICKS).
Proof.
  intros Ht. constructor; simpl; try done.
  - intros i w H. pose proof (aget_Some_bounds _ _ _ H) as Hb. simpl in Hb.
    rewrite aget_anew in H by done. by simplify_eq.
  - intros i w H. pose proof (aget_Some_bounds _ _ _ H) as Hb. simpl in Hb.
    rewrite aget_anew in H by done. by simplify_eq.
  - intros s w f H Hf. pose proof (aget_Some_bounds _ _ _ H) as Hb. simpl in Hb.
    rewrite aget_anew in H by done. simplify_eq. unfold rbit. rewrite Z.testbit_0_l.
    destruct (_.[f + 64 * s]) as [w|] eqn:E; [|done].
    pose proof (aget_Some_bounds _ _ _ E) as Hb'. simpl in Hb'.
    rewrite aget_anew in E by done. by simplify_eq.
  - intros s Hs. unfold rbit. rewrite Z.testbit_0_l.
    destruct (_.[s]) as [w|] eqn:E; [|done].
    pose proof (aget_Some_bounds _ _ _ E) as Hb'. simpl in Hb'.
    rewrite aget_anew in E by done. by simplify_eq.
Qed.

(** The words a tick touches exist. *)
Lemma tick_words b t : bitset_ok MAX_TICKS b → 0 ≤ t < MAX_TICKS →
  ∃ w1 w2, (first_level_ b).[t / 64] = Some w1 ∧ (second_level_ b).[t / 64 / 64] = Some w2 ∧
           in_range 64 w1 ∧ in_range 64 w2.
Proof.
  intros Hok Ht. destruct (word_bounds MAX_TICKS t (ok_ticks _ _ Hok) Ht) as (H1 & H2 & _).
  rewrite <- (ok_len1 _ _ Hok) in H1. rewrite <- (ok_len2 _ _ Hok) in H2.
  destruct (aget_in _ _ H1) as [w1 Hw1]. destruct (aget_in _ _ H2) as [w2 Hw2].
  exists w1, w2. split_and!; eauto using ok_words1, ok_words2.
Qed.

(** Replacing a first-level word and its two summary bits. *)
Definition updated (b : HierarchicalBitset) (t w1' w2' w3' : Z) : HierarchicalBitset :=
  mkBitset (aset (first_level_ b) (t / 64) w1')
           (aset (second_level_ b) (t / 64 / 64) w2') w3'.

Lemma updated_ok b t w1' w2 w2' w3' :
  bitset_ok MAX_TICKS b → 0 ≤ t < MAX_TICKS →
  (second_level_ b).[t / 64 / 64] = Some w2 →
  in_range 64 w1' → in_range 64 w2' → in_range 64 w3' →
  (∀ f, 0 ≤ f < 64 → rbit w2' f =
     if decide (f = (t / 64) mod 64) then bool_decide (w1' ≠ 0) else rbit w2 f) →
  (∀ s, 0 ≤ s < 64 → rbit w3' s =
     if decide (s = t / 64 / 64) then bool_decide (w2' ≠ 0) else rbit (third_level_ b) s) →
  bitset_ok MAX_TICKS (updated b t w1' w2' w3').
Proof.
  intros Hok Ht Hw2 R1 R2 R3 S2 S3.
  destruct (word_bounds MAX_TICKS t (ok_ticks _ _ Hok) Ht) as (B1 & B2 & B3).
  pose proof Hok as [Htk Hl1 Hl2 Hr1 Hr2 Hr3 Hs2 Hs3].
  constructor; simpl; rewrite ?alen_aset; auto.
  - intros i w. rewrite aget_aset by lia. dcase; [intros; by simplify_eq|eauto].
  - intros i w. rewrite aget_aset by lia. dcase; [intros; by simplify_eq|eauto].
  - intros s w f. rewrite !aget_aset by lia. dcase as E; intros Hs Hf.
    + simplify_eq. rewrite S2 by done. pose proof (index_split (t / 64)) as Hsp.
      destruct (decide (f = (t / 64) mod 64)) as [->|Hne].
      * rewrite decide_True by done. by rewrite nonzero_word_Some.
      * rewrite decide_False by lia. eauto.
    + rewrite decide_False; [eauto|]. intros E'. apply E. rewrite E'. by apply split_index.
  - intros s Hs. rewrite aget_aset by lia. rewrite S3 by done.
    destruct (decide (s = t / 64 / 64)) as [->|Hne].
    + rewrite decide_True by done. by rewrite nonzero_word_Some.
    + rewrite decide_False by done. eauto.
Qed.

(** Its effect on the bits of the ticks. *)
Lemma updated_tick_bit b t w1 w1' w2' w3' t' :
  bitset_ok MAX_TICKS b → 0 ≤ t < MAX_TICKS → (first_level_ b).[t / 64] = Some w1 →
  tick_bit (updated b t w1' w2' w3') t' =
  if decide (t' / 64 = t / 64) then rbit w1' (t' mod 64) else tick_bit b t'.
Proof.
  intros Hok Ht Hw1.
  destruct (word_bounds MAX_TICKS t (ok_ticks _ _ Hok) Ht) as (B1 & _ & _).
  rewrite <- (ok_len1 _ _ Hok) in B1. unfold tick_bit, updated; simpl.
  rewrite aget_aset by lia. repeat dcase; congruence.
Qed.

Lemma same_tick t t' : t' / 64 = t / 64 → t' mod 64 = t mod 64 → t' = t.
Proof. intros H1 H2. rewrite (index_split t), (index_split t'). congruence. Qed.

(** ** set_price_level *)

Definition set_bit (w k : Z) : Z := Z.lor w (Z.shiftl 1 (63 - k)).
Definition clear_bit (w k : Z) : Z := Z.land w (unot 64 (Z.shiftl 1 (63 - k))).

Lemma set_price_level_run b t w1 w2 :
  bitset_ok MAX_TICKS b → 0 ≤ t < MAX_TICKS →
  (first_level_ b).[t / 64] = Some w1 → (second_level_ b).[t / 64 / 64] = Some w2 →
  set_price_level t b =
  (Ok tt, updated b t (set_bit w1 (t mod 64)) (set_bit w2 ((t / 64) mod 64))
            (set_bit (third_level_ b) ((t / 64 / 64) mod 64))).
Proof.
  intros Hok Ht H1 H2. pose proof (aget_Some_bounds _ _ _ H1). pose proof (aget_Some_bounds _ _ _ H2).
  unfold set_price_level, load_first, store_first, load_second, store_second.
  rewrite !shiftr6, !land63. munfold. rewrite H1, aput_in by done. simpl.
  rewrite H2, aput_in by done. done.
Qed.

Lemma set_price_level_rep b X t :
  bitset_rep MAX_TICKS b X → 0 ≤ t < MAX_TICKS →
  ∃ b', set_price_level t b = (Ok tt, b') ∧ bitset_rep MAX_TICKS b' ({[t]} ∪ X).
Proof.
  intros [Hok HX] Ht. destruct (tick_words b t Hok Ht) as (w1 & w2 & H1 & H2 & R1 & R2).
  destruct (word_bounds MAX_TICKS t (ok_ticks _ _ Hok) Ht) as (B1 & B2 & B3).
  eexists. split; [by eapply set_price_level_run|]. split.
  - eapply updated_ok; eauto; unfold set_bit;
      try (apply set_word_range; eauto using ok_word3 with mdb).
    + intros f Hf. rewrite rbit_set by auto with mdb.
      rewrite (bool_decide_true (_ ≠ 0)) by (apply set_word_nonzero; auto with mdb).
      dcase; case_bool_decide; subst; try congruence; by rewrite ?orb_true_r, ?orb_false_r.
    + intros s Hs. rewrite (Z.mod_small (t / 64 / 64)) by lia. rewrite rbit_set by lia.
      rewrite (bool_decide_true (_ ≠ 0)) by (apply set_word_nonzero; auto with mdb).
      dcase; case_bool_decide; subst; try congruence; by rewrite ?orb_true_r, ?orb_false_r.
  - intros t'. rewrite (updated_tick_bit b t w1) by done. rewrite elem_of_union, elem_of_singleton, HX.
    dcase as E.
    + unfold set_bit. rewrite rbit_set by auto with mdb. unfold tick_bit. rewrite E, H1.
      rewrite orb_true_iff, bool_decide_eq_true.
      split; [intros [->|[]]; auto with lia|].
      intros [Ht' [|Hm]]; [by auto|]. left. by apply same_tick.
    + split; [intros [->|]; [done|tauto]|tauto].
Qed.

(** ** clear_price_level *)

Lemma clear_price_level_run b t w1 w2 :
  bitset_ok MAX_TICKS b → 0 ≤ t < MAX_TICKS →
  (first_level_ b).[t / 64] = Some w1 → (second_level_ b).[t / 64 / 64] = Some w2 →
  let w1' := clear_bit w1 (t mod 64) in
  let w2' := clear_bit w2 ((t / 64) mod 64) in
  clear_price_level t b =
  (Ok tt,
   if w1' =? 0 then
     updated b t w1' w2'
       (if w2' =? 0 then clear_bit (third_level_ b) ((t / 64 / 64) mod 64) else third_level_ b)
   else mkBitset (aset (first_level_ b) (t / 64) w1') (second_level_ b) (third_level_ b)).
Proof.
  intros Hok Ht H1 H2 w1' w2'.
  pose proof (aget_Some_bounds _ _ _ H1). pose proof (aget_Some_bounds _ _ _ H2).
  unfold clear_price_level, load_first, store_first, load_second, store_second.
  rewrite !shiftr6, !land63. munfold. rewrite H1, aput_in by done. simpl.
  rewrite aget_aset_eq by done. fold (clear_bit w1 (t mod 64)). fold w1'.
  destruct (w1' =? 0); [|done]. simpl.
  rewrite H2, aput_in by done. simpl. rewrite aget_aset_eq by done.
  fold (clear_bit w2 ((t / 64) mod 64)). fold w2'. by destruct (w2' =? 0).
Qed.

(** The bitset after a first-level word changed but stayed non-zero: the
    summaries are written back unchanged, up to the representation of the
    second-level array. *)
Lemma first_only_ok b t w1 w1' :
  bitset_ok MAX_TICKS b → 0 ≤ t < MAX_TICKS → (first_level_ b).[t / 64] = Some w1 →
  in_range 64 w1' → w1 ≠ 0 → w1' ≠ 0 →
  bitset_ok MAX_TICKS
    (mkBitset (aset (first_level_ b) (t / 64) w1') (second_level_ b) (third_level_ b)).
Proof.
  intros Hok Ht H1 R1 N1 N1'. pose proof (aget_Some_bounds _ _ _ H1).
  pose proof Hok as [Htk Hl1 Hl2 Hr1 Hr2 Hr3 Hs2 Hs3].
  constructor; simpl; rewrite ?alen_aset; auto.
  - intros i w. rewrite aget_aset by lia. dcase; [intros; by simplify_eq|eauto].
  - intros s w f Hs Hf. rewrite aget_aset by lia. rewrite (Hs2 _ _ _ Hs Hf).
    dcase as E; [|done]. rewrite <- E, H1, !nonzero_word_Some.
    by rewrite !bool_decide_true by done.
Qed.

Lemma clear_bit_zero w k : 0 ≤ k < 64 → rbit w k = false → in_range 64 w →
  clear_bit w k = 0 → w = 0.
Proof.
  intros Hk Hb Hw Hz. destruct (decide (w = 0)) as [|Hne]; [done|].
  destruct (nonzero_rbit w Hw Hne) as (j & Hj & Hbj).
  assert (rbit (clear_bit w k) j = true) as Hc.
  { unfold clear_bit. rewrite rbit_clear, Hbj by done.
    rewrite bool_decide_false; [done|]. intros ->. congruence. }
  rewrite Hz in Hc. unfold rbit in Hc. by rewrite Z.testbit_0_l in Hc.
Qed.

Lemma clear_price_level_ok b t b' :
  bitset_ok MAX_TICKS b → 0 ≤ t < MAX_TICKS → clear_price_level t b = (Ok tt, b') →
  bitset_ok MAX_TICKS b'.
Proof.
  intros Hok Ht. destruct (tick_words b t Hok Ht) as (w1 & w2 & H1 & H2 & R1 & R2).
  destruct (word_bounds MAX_TICKS t (ok_ticks _ _ Hok) Ht) as (B1 & B2 & B3).
  rewrite (clear_price_level_run b t w1 w2) by done.
  assert (in_range 64 (clear_bit w1 (t mod 64))) by (apply clear_word_range; auto with mdb).
  assert (in_range 64 (clear_bit w2 ((t / 64) mod 64))) by (apply clear_word_range; auto with mdb).
  destruct (Z.eqb_spec (clear_bit w1 (t mod 64)) 0) as [Hz1|Hz1]; intros [= <-].
  - eapply updated_ok; eauto.
    + destruct (_ =? 0); [apply clear_word_range; eauto with mdb|]; eauto using ok_word3.
    + intros f Hf. rewrite Hz1. unfold clear_bit. rewrite rbit_clear by auto with mdb.
      dcase; case_bool_decide; subst; try congruence; by rewrite ?andb_false_r, ?andb_true_r.
    + intros s Hs. rewrite (Z.mod_small (t / 64 / 64)) by lia.
      destruct (Z.eqb_spec (clear_bit w2 ((t / 64) mod 64)) 0) as [Hz2|Hz2].
      * rewrite Hz2. unfold clear_bit. rewrite rbit_clear by lia.
        dcase; case_bool_decide; subst; try congruence; by rewrite ?andb_false_r, ?andb_true_r.
      * rewrite bool_decide_true by done. dcase as E; [|done]. subst s.
        rewrite (ok_summary3 _ _ Hok) by lia. rewrite H2, nonzero_word_Some.
        apply bool_decide_true. intros ->. apply Hz2, Z.land_0_l.
  - eapply first_only_ok; eauto. intros ->. apply Hz1, Z.land_0_l.
Qed.

Lemma clear_price_level_rep b X t :
  bitset_rep MAX_TICKS b X → 0 ≤ t < MAX_TICKS →
  ∃ b', clear_price_level t b = (Ok tt, b') ∧ bitset_rep MAX_TICKS b' (X ∖ {[t]}).
Proof.
  intros [Hok HX] Ht. destruct (tick_words b t Hok Ht) as (w1 & w2 & H1 & H2 & R1 & R2).
  pose proof (aget_Some_bounds _ _ _ H1) as B1.
  pose proof (clear_price_level_run b t w1 w2 Hok Ht H1 H2) as Hrun. cbv zeta in Hrun.
  eexists. split; [exact Hrun|]. split; [by eapply clear_price_level_ok|].
  intros t'. rewrite elem_of_difference, elem_of_singleton, HX.
  assert (∀ a2 w3, tick_bit (mkBitset (aset (first_level_ b) (t / 64)
            (clear_bit w1 (t mod 64))) a2 w3) t' = tick_bit b t' && negb (bool_decide (t = t'))) as Hbit.
  { intros a2 w3. unfold tick_bit; simpl. rewrite aget_aset by done. dcase as E.
    - rewrite <- E, H1. unfold clear_bit. rewrite rbit_clear by auto with mdb.
      do 2 f_equal. apply bool_decide_ext. split; [|by intros ->].
      intros Hm. symmetry. by apply same_tick.
    - rewrite bool_decide_false by congruence. by rewrite andb_true_r. }
  unfold updated. destruct (clear_bit w1 (t mod 64) =? 0);
    rewrite Hbit, andb_true_iff, negb_true_iff, bool_decide_eq_false;
    split; intros; destruct_and?; split_and?; congruence.
Qed.

(** ** The extrema *)

(** A tick of the set is witnessed at every level. *)
Lemma tick_path b t : bitset_ok MAX_TICKS b → 0 ≤ t → tick_bit b t = true →
  ∃ w1 w2, (first_level_ b).[t / 64] = Some w1 ∧ rbit w1 (t mod 64) = true ∧
           (second_level_ b).[t / 64 / 64] = Some w2 ∧ rbit w2 ((t / 64) mod 64) = true ∧
           rbit (third_level_ b) (t / 64 / 64) = true ∧ 0 ≤ t / 64 / 64 < 64.
Proof.
  intros Hok Ht Hb. unfold tick_bit in Hb.
  destruct ((first_level_ b).[t / 64]) as [w1|] eqn:H1; [|done].
  pose proof (aget_Some_bounds _ _ _ H1) as B1. rewrite (ok_len1 _ _ Hok) in B1.
  assert (0 ≤ t / 64 / 64 < L2_SIZE MAX_TICKS ∧ t / 64 / 64 < 64) as [B2 B3].
  { pose proof (L2_le_64 _ (ok_ticks _ _ Hok)). unfold L2_SIZE in *.
    Z.to_euclidean_division_equations. lia. }
  destruct (aget_in (second_level_ b) (t / 64 / 64)) as [w2 H2]; [by rewrite (ok_len2 _ _ Hok)|].
  assert (rbit w2 ((t / 64) mod 64) = true) as Hb2.
  { rewrite (ok_summary2 _ _ Hok _ _ _ H2) by auto with mdb.
    rewrite <- index_split, H1, nonzero_word_Some. apply bool_decide_true. by eapply rbit_nonzero. }
  exists w1, w2. split_and!; auto; try lia.
  rewrite (ok_summary3 _ _ Hok) by lia. rewrite H2, nonzero_word_Some.
  apply bool_decide_true. by eapply rbit_nonzero.
Qed.

(** The same, along given words: where the path of a tick meets them, they
    hold its bits. *)
Lemma tick_path_at b t s f w1 w2 : bitset_ok MAX_TICKS b → 0 ≤ t → tick_bit b t = true →
  (second_level_ b).[s] = Some w2 → (first_level_ b).[f + 64 * s] = Some w1 →
  0 ≤ t / 64 / 64 < 64 ∧ rbit (third_level_ b) (t / 64 / 64) = true ∧
  (t / 64 / 64 = s → rbit w2 ((t / 64) mod 64) = true) ∧
  (t / 64 / 64 = s → (t / 64) mod 64 = f → rbit w1 (t mod 64) = true).
Proof.
  intros Hok Ht Hb H2 H1.
  destruct (tick_path b t Hok Ht Hb) as (v1 & v2 & G1 & G1b & G2 & G2b & G3 & G4).
  split_and!; try done; try lia.
  - intros <-. congruence.
  - intros <- <-. rewrite <- index_split in H1. congruence.
Qed.

Lemma nonzero_word_inv o : nonzero_word o = true → ∃ w, o = Some w ∧ w ≠ 0.
Proof. destruct o as [w|]; [|done]. rewrite nonzero_word_Some, bool_decide_eq_true. eauto. Qed.

(** A set third-level bit leads down to a non-zero second-level word, and a
    bit of that word to a non-zero first-level word. *)
Lemma third_down b s : bitset_ok MAX_TICKS b → 0 ≤ s < 64 → rbit (third_level_ b) s = true →
  ∃ w2, (second_level_ b).[s] = Some w2 ∧ w2 ≠ 0 ∧ in_range 64 w2.
Proof.
  intros Hok Hs Hb. rewrite (ok_summary3 _ _ Hok) in Hb by done.
  destruct (nonzero_word_inv _ Hb) as (w2 & H2 & Hne). eauto using ok_words2.
Qed.

Lemma second_down b s w2 f : bitset_ok MAX_TICKS b → (second_level_ b).[s] = Some w2 →
  0 ≤ f < 64 → rbit w2 f = true →
  ∃ w1, (first_level_ b).[f + 64 * s] = Some w1 ∧ w1 ≠ 0 ∧ in_range 64 w1.
Proof.
  intros Hok H2 Hf Hb. rewrite (ok_summary2 _ _ Hok _ _ _ H2) in Hb by done.
  destruct (nonzero_word_inv _ Hb) as (w1 & H1 & Hne). eauto using ok_words1.
Qed.

Lemma tick_bit_at b a f s w1 : 0 ≤ a < 64 → (first_level_ b).[f + 64 * s] = Some w1 →
  rbit w1 a = true → tick_bit b (a + 64 * (f + 64 * s)) = true.
Proof.
  intros Ha H1 Hb. unfold tick_bit.
  destruct (split_index a (f + 64 * s) Ha) as [-> ->]. by rewrite H1.
Qed.

Lemma third_zero_empty b X : bitset_rep MAX_TICKS b X → third_level_ b = 0 → X = ∅.
Proof.
  intros [Hok HX] Hz. apply leibniz_equiv. intros t. split; [|set_solver].
  intros [Ht Hb]%HX. destruct (tick_path b t Hok Ht Hb) as (_ & _ & _ & _ & _ & _ & H3 & _).
  rewrite Hz in H3. unfold rbit in H3. by rewrite Z.testbit_0_l in H3.
Qed.

Lemma tick_of_path a f s : a + f * 64 + s * 4096 = a + 64 * (f + 64 * s).
Proof. lia. Qed.

Lemma get_best_offer_rep b X :
  bitset_rep MAX_TICKS b X → get_best_offer b = (Ok (best_offer_of X), b).
Proof.
  intros Hrep. pose proof Hrep as [Hok HX]. unfold get_best_offer, load_first, load_second. munfold.
  destruct (Z.eqb_spec (third_level_ b) 0) as [Hz|Hnz].
  { by rewrite (third_zero_empty b X Hrep Hz). }
  destruct (clzll_first _ (ok_word3 _ _ Hok) Hnz) as (s & -> & Hs & Hbs & Hext_s).
  destruct (third_down b s Hok Hs Hbs) as (w2 & H2 & Hne2 & R2). rewrite H2.
  destruct (clzll_first w2 R2 Hne2) as (f & -> & Hf & Hbf & Hext_f).
  rewrite !shiftl_mul by lia. replace (s * 2 ^ 6) with (64 * s) by lia.
  destruct (second_down b s w2 f Hok H2 Hf Hbf) as (w1 & H1 & Hne1 & R1). rewrite H1.
  destruct (clzll_first w1 R1 Hne1) as (a & -> & Ha & Hba & Hext_a).
  do 2 f_equal. symmetry. change (2 ^ 6) with 64. change (2 ^ 12) with 4096.
  rewrite tick_of_path. pose proof (aget_Some_bounds _ _ _ H1).
  apply best_offer_of_min.
  { apply HX. split; [lia|]. by eapply tick_bit_at. }
  intros t [Ht Hb]%HX.
  destruct (tick_path_at b t s f w1 w2 Hok Ht Hb H2 H1) as (B3 & P3 & P2 & P1).
  pose proof (index_split t). pose proof (index_split (t / 64)).
  pose proof (mod64_bounds t). pose proof (mod64_bounds (t / 64)).
  pose proof (Hext_s _ B3 P3).
  destruct (decide (t / 64 / 64 = s)) as [Es|]; [|lia].
  pose proof (Hext_f _ (mod64_bounds (t / 64)) (P2 Es)).
  destruct (decide ((t / 64) mod 64 = f)) as [Ef|]; [|lia].
  pose proof (Hext_a _ (mod64_bounds t) (P1 Es Ef)). lia.
Qed.

Lemma get_best_bid_rep b X :
  bitset_rep MAX_TICKS b X → get_best_bid b = (Ok (best_bid_of X), b).
Proof.
  intros Hrep. pose proof Hrep as [Hok HX]. unfold get_best_bid, load_first, load_second. munfold.
  destruct (Z.eqb_spec (third_level_ b) 0) as [Hz|Hnz].
  { by rewrite (third_zero_empty b X Hrep Hz). }
  destruct (ctzll_last _ (ok_word3 _ _ Hok) Hnz) as (c3 & -> & Hs & Hbs & Hext_s).
  generalize dependent (63 - c3). intros s Hs Hbs Hext_s.
  destruct (third_down b s Hok Hs Hbs) as (w2 & H2 & Hne2 & R2). rewrite H2.
  destruct (ctzll_last w2 R2 Hne2) as (c2 & -> & Hf & Hbf & Hext_f).
  generalize dependent (63 - c2). intros f Hf Hbf Hext_f.
  rewrite !shiftl_mul by lia. replace (s * 2 ^ 6) with (64 * s) by lia.
  destruct (second_down b s w2 f Hok H2 Hf Hbf) as (w1 & H1 & Hne1 & R1). rewrite H1.
  destruct (ctzll_last w1 R1 Hne1) as (c1 & -> & Ha & Hba & Hext_a).
  generalize dependent (63 - c1). intros a Ha Hba Hext_a.
  do 2 f_equal. symmetry. change (2 ^ 6) with 64. change (2 ^ 12) with 4096.
  rewrite tick_of_path. pose proof (aget_Some_bounds _ _ _ H1).
  apply best_bid_of_max.
  { apply HX. split; [lia|]. by eapply tick_bit_at. }
  intros t [Ht Hb]%HX.
  destruct (tick_path_at b t s f w1 w2 Hok Ht Hb H2 H1) as (B3 & P3 & P2 & P1).
  pose proof (index_split t). pose proof (index_split (t / 64)).
  pose proof (mod64_bounds t). pose proof (mod64_bounds (t / 64)).
  pose proof (Hext_s _ B3 P3).
  destruct (decide (t / 64 / 64 = s)) as [Es|]; [|lia].
  pose proof (Hext_f _ (mod64_bounds (t / 64)) (P2 Es)).
  destruct (decide ((t / 64) mod 64 = f)) as [Ef|]; [|lia].
  pose proof (Hext_a _ (mod64_bounds t) (P1 Es Ef)). lia.
Qed.

Lemma bitset_new_rep : 0 < MAX_TICKS ≤ 262144 →
  bitset_rep MAX_TICKS (HierarchicalBitset_new MAX_TICKS) ∅.
Proof.
  intros Ht. split; [by apply bitset_new_ok|]. intros t. split; [set_solver|].
  intros [H0 Hb]. unfold tick_bit in Hb; simpl in Hb.
  destruct (_.[t / 64]) as [w|] eqn:E; [|done].
  pose proof (aget_Some_bounds _ _ _ E) as Hb'. simpl in Hb'.
  rewrite aget_anew in E by done. simplify_eq. unfold rbit in Hb. by rewrite Z.testbit_0_l in Hb.
Qed.

#[export] Instance bitset_price_index_laws :
  PriceIndexLaws HierarchicalBitset MAX_TICKS (bitset_rep MAX_TICKS).
Proof.
  constructor; [exact set_price_level_rep|exact clear_price_level_rep
               |exact get_best_bid_rep|exact get_best_offer_rep].
Qed.
End Bitset.

(** * Sequences of updates

    The differential test (src/tests/test_hierarchical_bitset.cpp) runs
    random updates on the bitset and on a [std::set] and compares the best
    prices; the theorem is that comparison for every sequence. *)

Inductive tick_op : Type := SetTick (t : Z) | ClearTick (t : Z).

Definition tick_of (op : tick_op) : Z := match op with SetTick t | ClearTick t => t end.

Definition run_tick_op (op : tick_op) : M HierarchicalBitset unit :=
  match op with SetTick t => set_price_level t | ClearTick t => clear_price_level t end.

Fixpoint run_tick_ops (ops : list tick_op) : M HierarchicalBitset unit :=
  match ops with
  | [] => mret tt
  | op :: ops' => run_tick_op op;; run_tick_ops ops'
  end.

Definition set_tick_op (op : tick_op) (X : gset Z) : gset Z :=
  match op with SetTick t => {[t]} ∪ X | ClearTick t => X ∖ {[t]} end.

Fixpoint set_tick_ops (ops : list tick_op) (X : gset Z) : gset Z :=
  match ops with
  | [] => X
  | op :: ops' => set_tick_ops ops' (set_tick_op op X)
  end.

Lemma run_tick_ops_rep MAX_TICKS ops b X :
  bitset_rep MAX_TICKS b X → Forall (λ op, 0 ≤ tick_of op < MAX_TICKS) ops →
  ∃ b', run_tick_ops ops b = (Ok tt, b') ∧ bitset_rep MAX_TICKS b' (set_tick_ops ops X).
Proof.
  intros Hrep Hops. revert b X Hrep. induction Hops as [|op ops Hop _ IH]; intros b X Hrep; simpl.
  - eauto.
  - assert (∃ b', run_tick_op op b = (Ok tt, b') ∧ bitset_rep MAX_TICKS b' (set_tick_op op X))
      as (b' & Hrun & Hrep') by (destruct op; simpl; eauto using set_price_level_rep, clear_price_level_rep).
    mstep Hrun. by apply IH.
Qed.

(** C15 Any sequence of [set_price_level] and [clear_price_level] on ticks
    below MAX_TICKS runs without undefined behaviour, and afterwards
    [get_best_bid] and [get_best_offer] return the maximum and the minimum of
    the set of ticks the sequence leaves set, [size_t(-1)] when it is empty. *)
Theorem bitset_run_refines_set MAX_TICKS ops :
  0 < MAX_TICKS ≤ 262144 → Forall (λ op, 0 ≤ tick_of op < MAX_TICKS) ops →
  ∃ b, run_tick_ops ops (HierarchicalBitset_new MAX_TICKS) = (Ok tt, b) ∧
       get_best_bid b = (Ok (best_bid_of (set_tick_ops ops ∅)), b) ∧
       get_best_offer b = (Ok (best_offer_of (set_tick_ops ops ∅)), b).
Proof.
  intros Ht Hops.
  destruct (run_tick_ops_rep MAX_TICKS ops _ _ (bitset_new_rep _ Ht) Hops) as (b & Hrun & Hrep).
  exists b. split_and!; eauto using get_best_bid_rep, get_best_offer_rep.
Qed.

Lemma bitset_run_refines_set_witness :
  let ops := [SetTick 99999; SetTick 64; SetTick 4097; ClearTick 99999; SetTick 4096] in
  ∃ b, run_tick_ops ops (HierarchicalBitset_new 100000) = (Ok tt, b) ∧
       get_best_bid b = (Ok (best_bid_of (set_tick_ops ops ∅)), b) ∧
       get_best_offer b = (Ok (best_offer_of (set_tick_ops ops ∅)), b).
Proof.
  intros ops. apply (bitset_run_refines_set 100000 ops); [lia|].
  unfold ops. repeat constructor; simpl; lia.
Defined.

(** The summary invariant: after any update sequence a bit of the second
    level is set exactly when its first-level word is not zero, and a bit of
    the third level exactly when its second-level word is not zero. *)
Theorem bitset_summaries_invariant MAX_TICKS ops b :
  0 < MAX_TICKS ≤ 262144 → Forall (λ op, 0 ≤ tick_of op < MAX_TICKS) ops →
  run_tick_ops ops (HierarchicalBitset_new MAX_TICKS) = (Ok tt, b) →
  (∀ s w f, (second_level_ b).[s] = Some w → 0 ≤ f < 64 →
     (Z.testbit w (63 - f) = true ↔
      ∃ w1, (first_level_ b).[f + 64 * s] = Some w1 ∧ w1 ≠ 0)) ∧
  (∀ s, 0 ≤ s < 64 →
     (Z.testbit (third_level_ b) (63 - s) = true ↔
      ∃ w2, (second_level_ b).[s] = Some w2 ∧ w2 ≠ 0)).
Proof.
  intros Ht Hops Hrun.
  destruct (run_tick_ops_rep MAX_TICKS ops _ _ (bitset_new_rep _ Ht) Hops) as (b' & Hrun' & [Hok _]).
  assert (b' = b) as -> by congruence.
  assert (∀ o, nonzero_word o = true ↔ ∃ w, o = Some w ∧ w ≠ 0) as Hnz.
  { intros o. split; [apply nonzero_word_inv|]. intros (w & -> & Hw).
    rewrite nonzero_word_Some. by apply bool_decide_true. }
  split.
  - intros s w f Hw Hf. rewrite <- Hnz. fold (rbit w f). by rewrite (ok_summary2 _ _ Hok _ _ _ Hw).
  - intros s Hs. rewrite <- Hnz. fold (rbit (third_level_ b) s). by rewrite (ok_summary3 _ _ Hok).
Qed.

Lemma bitset_summaries_invariant_witness :
  let b := (run_tick_ops [SetTick 70; ClearTick 3] (HierarchicalBitset_new 100000)).2 in
  Z.testbit (third_level_ b) 63 = true ∧ ∃ w2, (second_level_ b).[0] = Some w2 ∧ w2 ≠ 0.
Proof.
  intros b. split; [by vm_compute|].
  apply (bitset_summaries_invariant 100000 [SetTick 70; ClearTick 3] b);
    [lia|repeat constructor; simpl; lia|reflexivity|lia|by vm_compute].
Defined.
