(* ===== verification/StaticOrderMap.v ===== *)
(** [utils::StaticOrderMap] (src/src/utils/StaticOrderMap.h).

    An open-addressed hash table with linear probing and tombstones.  A
    [Bucket*] is modelled by its index from [map_]: [map_] is 0, [end_] is
    the capacity, [nullptr] is [None].  Probing loops run with the fuel
    [capacity_ + 1]; the loop counter of the code bounds them by [capacity_],
    and [find_spec] and [insert_spec] show the fuel is never exhausted.

    The theorems: under the invariant [map_ok] (distinct keys in the occupied
    buckets, and no empty bucket between a key's home slot and its bucket)
    the table represents a finite map ([map_rep]); the operations are lookup,
    bounded insertion and deletion.  [order_map_laws] discharges the interface
    the order book uses. *)

From S2P Require Import Prelude Interfaces.

(** * The data *)

Inductive BucketState : Type := Empty | Occupied | Tombstone.

#[export] Instance BucketState_eq_dec : EqDecision BucketState.
Proof. solve_decision. Defined.

Record Bucket : Type := mkBucket {
  order_id : Z;
  pool_idx : Z;
  state : BucketState
}.

#[export] Instance Bucket_eq_dec : EqDecision Bucket.
Proof. solve_decision. Defined.

(** [sizeof(Bucket)], with its 16-byte alignment. *)
Definition sizeof_Bucket : Z := 16.

Record StaticOrderMap : Type := mkOrderMap {
  map_ : array Bucket;
  end_ : Z;
  capacity_ : Z;
  mapped_bytes_ : Z
}.

Definition set_map (a : array Bucket) (m : StaticOrderMap) : StaticOrderMap :=
  mkOrderMap a (end_ m) (capacity_ m) (mapped_bytes_ m).

Definition load_bucket (i : Z) : M StaticOrderMap Bucket :=
  a ← gets map_; of_option (a.[i]).
Definition store_bucket (i : Z) (b : Bucket) : M StaticOrderMap unit :=
  a ← gets map_; a' ← of_option (aput a i b); modify (set_map a').

(** * The operations *)

(** The pages of an anonymous mapping are zero, so every bucket starts
    [Empty].  [mmap_ok] is the success of the mmap call.  The class is only
    instantiated below 2^32: its static_assert takes the popcount of an
    [unsigned int], which no larger power of two passes; so the table has all
    its buckets, the product below not wrapping. *)
Definition StaticOrderMap_new (Capacity page_size : Z) (mmap_ok : bool)
    : outcome StaticOrderMap :=
  let bytes_needed := u64 (Capacity * sizeof_Bucket) in
  let page_aligned_bytes_needed :=
    Z.land (bytes_needed + page_size - 1) (unot 64 (page_size - 1)) in
  if mmap_ok then
    Ok (mkOrderMap (anew Capacity (mkBucket 0 0 Empty)) Capacity Capacity
          page_aligned_bytes_needed)
  else Throw (runtime_error
    "StaticOrderMap(): Unable to allocate memory for StaticOrderMap.").

(** A null [map_] (a moved-from map) is a table with no bucket. *)
Definition null_map : array Bucket := anew 0 (mkBucket 0 0 Empty).

(** The move constructor: the new map and what is left of the old one.  It
    does not initialise [mapped_bytes_]: [junk] is the value found there. *)
Definition StaticOrderMap_move (junk : Z) (other : StaticOrderMap)
    : StaticOrderMap * StaticOrderMap :=
  (mkOrderMap (map_ other) (end_ other) (capacity_ other) junk,
   mkOrderMap null_map 0 (capacity_ other) (mapped_bytes_ other)).

(** Move assignment; the table it replaces is unmapped. *)
Definition StaticOrderMap_move_assign (same_object : bool) (this other : StaticOrderMap)
    : StaticOrderMap * StaticOrderMap :=
  if same_object then (this, other)
  else (mkOrderMap (map_ other) (end_ other) (capacity_ other) (mapped_bytes_ other),
        mkOrderMap null_map (end_ other) (capacity_ other) (mapped_bytes_ other)).

(** The destructor: the number of bytes it unmaps, if any. *)
Definition StaticOrderMap_destroy (m : StaticOrderMap) : option Z :=
  if alen (map_ m) =? 0 then None else Some (mapped_bytes_ m).

Definition probe_fuel (m : StaticOrderMap) : positive := Z.to_pos (capacity_ m + 1).

(** [curr_location++], wrapping from [end_] to [map_]. *)
Definition next_location (m : StaticOrderMap) (curr : Z) : Z :=
  if curr + 1 =? end_ m then 0 else curr + 1.

(** One iteration of the loop of [find]: the loop state is
    [num_elements_checked] and [curr_location]. *)
Definition find_step (m : StaticOrderMap) (id : Z) (st : Z * Z)
    : (Z * Z) + outcome (option Z) :=
  let '(num_elements_checked, curr_location) := st in
  if num_elements_checked <? capacity_ m then
    match (map_ m).[curr_location] with
    | None => inr UB
    | Some b =>
        if bool_decide (state b = Empty) then inr (Ok None)
        else if (order_id b =? id) && bool_decide (state b = Occupied)
        then inr (Ok (Some curr_location))
        else inl (num_elements_checked + 1, next_location m curr_location)
    end
  else inr (Ok None).

Definition find (id : Z) : M StaticOrderMap (option Z) := λ m,
  let idx := Z.land id (capacity_ m - 1) in
  match loop_pos (probe_fuel m) (find_step m id) (0, idx) with
  | inr r => (r, m)
  | inl _ => (OutOfFuel, m)
  end.

(** One iteration of the loop of [insert]; leaving it yields the final loop
    state. *)
Definition insert_step (m : StaticOrderMap) (id : Z) (st : Z * Z)
    : (Z * Z) + outcome (Z * Z) :=
  let '(num_elements_checked, curr_location) := st in
  if num_elements_checked <? capacity_ m then
    match (map_ m).[curr_location] with
    | None => inr UB
    | Some b =>
        if bool_decide (state b = Occupied) && negb (order_id b =? id)
        then inl (num_elements_checked + 1, next_location m curr_location)
        else inr (Ok st)
    end
  else inr (Ok st).

Definition insert_probe (id : Z) : M StaticOrderMap (Z * Z) := λ m,
  let idx := Z.land id (capacity_ m - 1) in
  match loop_pos (probe_fuel m) (insert_step m id) (0, idx) with
  | inr r => (r, m)
  | inl _ => (OutOfFuel, m)
  end.

Definition insert (id idx : Z) : M StaticOrderMap (Z * bool) :=
  '(num_elements_checked, curr_location) ← insert_probe id;
  m ← get_state;
  if num_elements_checked <? capacity_ m then
    store_bucket curr_location (mkBucket id idx Occupied);;
    mret (curr_location, true)
  else mret (end_ m, false).

Definition map_full : exn := runtime_error
  "StaticOrderMap::operator[]: Map is full, unable to allocate any more elements.".

(** [operator[]]: the index of the bucket whose [pool_idx] the returned
    reference denotes. *)
Definition operator_index (id : Z) : M StaticOrderMap Z :=
  found ← find id;
  match found with
  | None =>
      p ← insert id 0;
      if (p.2 : bool) then mret p.1 else throw map_full
  | Some i => mret i
  end.

(** [erase(Bucket* entry_ptr)]. *)
Definition erase_ptr (entry_ptr : Z) : M StaticOrderMap unit :=
  m ← get_state;
  if (entry_ptr <? 0) || (end_ m <=? entry_ptr) then
    throw (runtime_error
      "StaticOrderMap::erase(): Unable to erase an element that is not from the map.")
  else
    b ← load_bucket entry_ptr;
    store_bucket entry_ptr (mkBucket (order_id b) (pool_idx b) Tombstone).

(** [erase(uint64_t order_id)]. *)
Definition erase (id : Z) : M StaticOrderMap unit :=
  found ← find id;
  match found with
  | Some i =>
      b ← load_bucket i;
      store_bucket i (mkBucket (order_id b) (pool_idx b) Tombstone)
  | None => mret tt
  end.

(** The client's [it = find(id); ... it->pool_idx]. *)
Definition find_pool_idx (id : Z) : M StaticOrderMap (option Z) :=
  found ← find id;
  match found with
  | None => mret None
  | Some i => b ← load_bucket i; mret (Some (pool_idx b))
  end.

(** The client's [map[id] = idx]. *)
Definition index_assign (id idx : Z) : M StaticOrderMap unit :=
  i ← operator_index id;
  b ← load_bucket i;
  store_bucket i (mkBucket (order_id b) idx (state b)).

#[export] Instance static_order_map : OrderMap StaticOrderMap := {
  om_lookup := find_pool_idx;
  om_assign := index_assign;
  om_erase := erase
}.

(** * The invariant and the represented map *)

Section Map.
Context (C : Z).
Implicit Types (m : StaticOrderMap) (K : gmap Z Z).

(** The [j]-th slot probed for a key. *)
Definition slot (k j : Z) : Z := (k + j) mod C.

Definition occupied_at m (i k v : Z) : Prop :=
  (map_ m).[i] = Some (mkBucket k v Occupied).

Definition nonempty_at m (i : Z) : Prop :=
  ∃ b, (map_ m).[i] = Some b ∧ state b ≠ Empty.

Record map_ok m : Prop := {
  ok_pow2 : ∃ e, 0 ≤ e ∧ C = 2 ^ e;
  ok_capacity : capacity_ m = C;
  ok_end : end_ m = C;
  ok_len : alen (map_ m) = C;
  ok_unique : ∀ i j k v w, occupied_at m i k v → occupied_at m j k w → i = j;
  ok_probe : ∀ i k v, occupied_at m i k v →
    ∃ d, 0 ≤ d < C ∧ i = slot k d ∧ ∀ j, 0 ≤ j < d → nonempty_at m (slot k j)
}.

Definition map_rep m K : Prop :=
  map_ok m ∧ ∀ k v, K !! k = Some v ↔ ∃ i, occupied_at m i k v.
End Map.

Section Map_lemmas.
Context (C : Z).
Implicit Types (m : StaticOrderMap) (K : gmap Z Z).

Abbreviation slot := (slot C).
Abbreviation map_ok := (map_ok C).
Abbreviation map_rep := (map_rep C).

Lemma ok_pos m : map_ok m → 0 < C.
Proof. intros Hok. destruct (ok_pow2 _ _ Hok) as (e & He & ->). by apply Z.pow_pos_nonneg. Qed.

Lemma slot_bounds k j : 0 < C → 0 ≤ slot k j < C.
Proof. intros HC. by apply Z.mod_pos_bound. Qed.

Lemma home_slot m k : map_ok m → Z.land k (capacity_ m - 1) = slot k 0.
Proof.
  intros Hok. rewrite (ok_capacity _ _ Hok).
  destruct (ok_pow2 _ _ Hok) as (e & He & HC). unfold slot.
  rewrite HC, land_mask by done. by rewrite Z.add_0_r.
Qed.

Lemma next_slot m k j : map_ok m → next_location m (slot k j) = slot k (j + 1).
Proof.
  intros Hok. pose proof (ok_pos _ Hok) as HC. unfold next_location, slot.
  rewrite (ok_end _ _ Hok). rewrite Z.add_assoc.
  pose proof (Z.mod_pos_bound (k + j) C HC) as Hb.
  rewrite (Z.add_mod (k + j) 1) by lia.
  destruct (decide (C = 1)) as [->|H1].
  { rewrite !Z.mod_1_r. done. }
  rewrite (Z.mod_small 1) by lia. zcase as E.
  - rewrite E, Z.mod_same by lia. done.
  - by rewrite (Z.mod_small (_ + 1)) by lia.
Qed.

Lemma slot_inj k d d' : 0 ≤ d < C → 0 ≤ d' < C → slot k d = slot k d' → d = d'.
Proof.
  intros Hd Hd'. unfold slot. intros H.
  pose proof (Z.div_mod (k + d) C ltac:(lia)). pose proof (Z.div_mod (k + d') C ltac:(lia)).
  assert (d - d' = C * ((k + d) / C - (k + d') / C)) as E by lia.
  assert ((k + d) / C - (k + d') / C = 0) by nia. lia.
Qed.

Lemma slot_surj k i : 0 ≤ i < C → ∃ d, 0 ≤ d < C ∧ i = slot k d.
Proof.
  intros Hi. exists ((i - k) mod C). split; [apply Z.mod_pos_bound; lia|].
  unfold slot. rewrite Zplus_mod_idemp_r.
  replace (k + (i - k)) with i by lia. by rewrite Z.mod_small.
Qed.

Lemma slot_bucket m k j : map_ok m → ∃ b, (map_ m).[slot k j] = Some b.
Proof.
  intros Hok. apply aget_in. rewrite (ok_len _ _ Hok).
  apply slot_bounds. by apply ok_pos with m.
Qed.

Lemma probe_fuel_enough m : map_ok m → Pos.to_nat (probe_fuel m) = S (Z.to_nat C).
Proof.
  intros Hok. pose proof (ok_pos _ Hok). unfold probe_fuel.
  rewrite (ok_capacity _ _ Hok). lia.
Qed.

(** ** find *)

(** What [find] returns. *)
Definition find_post m (k : Z) (r : outcome (option Z)) : Prop :=
  (∃ i v, r = Ok (Some i) ∧ occupied_at m i k v) ∨
  (r = Ok None ∧ ∀ i v, ¬ occupied_at m i k v).

Definition not_holding m (k j : Z) : Prop :=
  nonempty_at m (slot k j) ∧ ∀ v, ¬ occupied_at m (slot k j) k v.

Lemma not_found m k n :
  map_ok m → (∀ j, 0 ≤ j < n → not_holding m k j) → 0 ≤ n ≤ C →
  (n < C → ¬ nonempty_at m (slot k n)) →
  ∀ i v, ¬ occupied_at m i k v.
Proof.
  intros Hok Hbefore Hn Hempty i v Hocc.
  destruct (ok_probe _ _ Hok _ _ _ Hocc) as (d & Hd & -> & Hpath).
  destruct (Z.lt_trichotomy d n) as [Hlt|[->|Hgt]].
  - destruct (Hbefore d ltac:(lia)) as [_ Hno]. by apply (Hno v).
  - apply Hempty; [lia|]. eexists. split; [exact Hocc|]. done.
  - apply Hempty; [lia|]. apply Hpath. lia.
Qed.

Lemma find_spec m k : map_ok m → ∃ r, find k m = (r, m) ∧ find_post m k r.
Proof.
  intros Hok. pose proof (ok_pos _ Hok) as HC. unfold find. rewrite home_slot by done.
  destruct (loop_pos_total (find_step m k)
    (λ st, 0 ≤ st.1 ≤ C ∧ st.2 = slot k st.1 ∧ ∀ j, 0 ≤ j < st.1 → not_holding m k j)
    (find_post m k) (λ st, Z.to_nat (C - st.1))) with (p := probe_fuel m) (s := (0, slot k 0))
    as (r & -> & Hr).
  - intros [n curr] (Hn & Hcurr & Hbefore). cbn [fst snd] in *. subst curr.
    unfold find_step. rewrite (ok_capacity _ _ Hok). zcase.
    2: { right. split; [done|]. apply (not_found m k n); try done; lia. }
    destruct (slot_bucket m k n Hok) as [b Hb]. rewrite Hb.
    case_bool_decide as He.
    { right. split; [done|]. apply (not_found m k n); try done; try lia.
      intros _ (b' & Hb' & Hne). congruence. }
    destruct ((order_id b =? k) && bool_decide (state b = Occupied)) eqn:E.
    + zhyps. apply bool_decide_eq_true in H1. left. exists (slot k n), (pool_idx b). split; [done|].
      unfold occupied_at. rewrite Hb. f_equal. destruct b; simpl in *; congruence.
    + simpl. rewrite next_slot by done. split_and!; [lia..| |lia].
      intros j Hj. destruct (decide (j = n)) as [->|]; [|apply Hbefore; lia].
      split; [by exists b|]. intros v Hocc. unfold occupied_at in Hocc.
      rewrite Hb in Hocc. simplify_eq. simpl in E.
      by rewrite Z.eqb_refl in E.
  - simpl. split_and!; [lia..|done|]. intros j Hj. lia.
  - simpl. rewrite probe_fuel_enough by done. lia.
  - eauto.
Qed.

Lemma find_rep m K k : map_rep m K →
  (∃ i v, find k m = (Ok (Some i), m) ∧ occupied_at m i k v ∧ K !! k = Some v) ∨
  (find k m = (Ok None, m) ∧ K !! k = None).
Proof.
  intros [Hok HK]. destruct (find_spec m k Hok) as (r & -> & [(i & v & -> & Hocc)|[-> Hno]]).
  - left. exists i, v. split_and!; try done. apply HK. eauto.
  - right. split; [done|]. apply eq_None_not_Some. intros [v Hv].
    apply HK in Hv as [i Hi]. by apply (Hno i v).
Qed.

(** ** Writing a bucket *)

Lemma set_map_occupied m j b i k v : 0 ≤ j < alen (map_ m) →
  occupied_at (set_map (aset (map_ m) j b) m) i k v ↔
  if decide (i = j) then b = mkBucket k v Occupied else occupied_at m i k v.
Proof.
  intros Hj. unfold occupied_at; simpl. rewrite aget_aset by done.
  repeat case_decide; subst; try congruence; split; congruence.
Qed.

Lemma set_map_nonempty m j b i : 0 ≤ j < alen (map_ m) → state b ≠ Empty →
  nonempty_at m i → nonempty_at (set_map (aset (map_ m) j b) m) i.
Proof.
  intros Hj Hb (b' & Hb' & Hne). unfold nonempty_at; simpl. rewrite aget_aset by done.
  dcase; eauto.
Qed.

(** Writing an occupied bucket with a key that no other bucket holds, at a
    slot of the key's probe path. *)
Lemma write_rep m K k v n :
  map_rep m K → 0 ≤ n < C →
  (∀ j, 0 ≤ j < n → nonempty_at m (slot k j)) →
  (∀ k' w, occupied_at m (slot k n) k' w → k' = k) →
  (∀ i w, occupied_at m i k w → i = slot k n) →
  map_rep (set_map (aset (map_ m) (slot k n) (mkBucket k v Occupied)) m) (<[k := v]> K).
Proof.
  intros [Hok HK] Hn Hpath Hslot Huniq. pose proof (ok_pos _ Hok) as HC.
  assert (0 ≤ slot k n < alen (map_ m)) as Hb.
  { rewrite (ok_len _ _ Hok). by apply slot_bounds. }
  split; [constructor; simpl; try apply Hok|].
  - intros i j k' w w'. rewrite !set_map_occupied by done. repeat dcase; subst; try congruence.
    + intros [= -> ->] Hocc. symmetry. by eapply Huniq.
    + intros Hocc [= -> ->]. by eapply Huniq.
    + eapply ok_unique; eauto.
  - intros i k' w. rewrite set_map_occupied by done. dcase as E.
    + intros [= -> ->]. exists n. split_and!; [lia..|done|].
      intros j Hj. apply set_map_nonempty; try done. by apply Hpath.
    + intros Hocc. destruct (ok_probe _ _ Hok _ _ _ Hocc) as (d & Hd & -> & Hp).
      exists d. split_and!; [lia..|done|]. intros j Hj. apply set_map_nonempty; try done. by apply Hp.
  - intros k' w. rewrite lookup_insert. setoid_rewrite set_map_occupied; [|done..].
    case_decide as E; subst.
    + split.
      * intros [= ->]. exists (slot k' n). by rewrite decide_True.
      * intros (i & Hi). destruct (decide (i = slot k' n)); [congruence|].
        by apply Huniq in Hi.
    + rewrite HK. split; intros [i Hi]; exists i.
      * rewrite decide_False; [done|]. intros ->. apply E. symmetry. by eapply Hslot.
      * by destruct (decide (i = slot k n)); [congruence|].
Qed.

(** Changing an occupied bucket into a tombstone. *)
Lemma tombstone_rep m K i k v :
  map_rep m K → occupied_at m i k v →
  map_rep (set_map (aset (map_ m) i (mkBucket k v Tombstone)) m) (delete k K).
Proof.
  intros [Hok HK] Hi. pose proof (aget_Some_bounds _ _ _ Hi) as Hb.
  split; [constructor; simpl; try apply Hok|].
  - intros i' j k' w w'. rewrite !set_map_occupied by done. repeat dcase; subst; try congruence.
    eapply ok_unique; eauto.
  - intros i' k' w. rewrite set_map_occupied by done. dcase as E; [done|].
    intros Hocc. destruct (ok_probe _ _ Hok _ _ _ Hocc) as (d & Hd & -> & Hp).
    exists d. split_and!; [lia..|done|]. intros j Hj. apply set_map_nonempty; try done. by apply Hp.
  - intros k' w. rewrite lookup_delete. setoid_rewrite set_map_occupied; [|done..].
    case_decide as E; subst.
    + split; [done|]. intros [i' Hi']. destruct (decide (i' = i)); [congruence|].
      assert (i' = i) by (eapply ok_unique; eauto). done.
    + rewrite HK. split; intros [i' Hi']; exists i'.
      * rewrite decide_False; [done|]. intros ->. unfold occupied_at in *. congruence.
      * by destruct (decide (i' = i)); [congruence|].
Qed.

(** ** insert *)

Definition insert_post m (k : Z) (r : outcome (Z * Z)) : Prop :=
  ∃ n, r = Ok (n, slot k n) ∧ 0 ≤ n ≤ C ∧
       (∀ j, 0 ≤ j < n → ∃ k' w, k' ≠ k ∧ occupied_at m (slot k j) k' w) ∧
       (n < C → ∀ k' w, occupied_at m (slot k n) k' w → k' = k).

Lemma insert_probe_spec m k :
  map_ok m → ∃ r, insert_probe k m = (r, m) ∧ insert_post m k r.
Proof.
  intros Hok. pose proof (ok_pos _ Hok) as HC. unfold insert_probe. rewrite home_slot by done.
  destruct (loop_pos_total (insert_step m k)
    (λ st, 0 ≤ st.1 ≤ C ∧ st.2 = slot k st.1 ∧
           ∀ j, 0 ≤ j < st.1 → ∃ k' w, k' ≠ k ∧ occupied_at m (slot k j) k' w)
    (insert_post m k) (λ st, Z.to_nat (C - st.1))) with (p := probe_fuel m) (s := (0, slot k 0))
    as (r & -> & Hr).
  - intros [n curr] (Hn & Hcurr & Hbefore). cbn [fst snd] in *. subst curr.
    unfold insert_step. rewrite (ok_capacity _ _ Hok). zcase.
    2: { exists n. split_and!; auto; lia. }
    destruct (slot_bucket m k n Hok) as [b Hb]. rewrite Hb.
    destruct (bool_decide (state b = Occupied) && negb (order_id b =? k)) eqn:E.
    + zhyps. apply bool_decide_eq_true in H0. cbn [fst snd]. rewrite next_slot by done.
      split_and!; [lia..| |lia].
      intros j Hj. destruct (decide (j = n)) as [->|]; [|apply Hbefore; lia].
      exists (order_id b), (pool_idx b). split; [done|].
      unfold occupied_at. rewrite Hb. f_equal. destruct b; simpl in *; congruence.
    + exists n. split_and!; auto; [lia..|]. intros _ k' w Hocc. unfold occupied_at in Hocc.
      rewrite Hb in Hocc. simplify_eq. simpl in E. by destruct (Z.eqb_spec k' k).
  - simpl. split_and!; [lia..|done|]. intros j Hj. lia.
  - simpl. rewrite probe_fuel_enough by done. lia.
  - eauto.
Qed.

(** ** Counting the occupied buckets *)

(** The key of a bucket. *)
Definition key_at m (i : Z) : Z :=
  match (map_ m).[i] with Some b => order_id b | None => 0 end.

Lemma key_at_occupied m i k v : occupied_at m i k v → key_at m i = k.
Proof. intros H. unfold key_at. by rewrite H. Qed.

Lemma all_occupied_size m K : map_rep m K →
  (∀ i, 0 ≤ i < C → ∃ k v, occupied_at m i k v) → C ≤ Z.of_nat (size K).
Proof.
  intros [Hok HK] Hall. pose proof (ok_pos _ Hok) as HC.
  pose proof (length_le_size K (key_at m <$> seqZ 0 C)) as Hlen.
  rewrite length_fmap, length_seqZ in Hlen. cut (Z.to_nat C ≤ size K)%nat; [lia|].
  apply Hlen.
  - apply NoDup_fmap_2_strong; [|apply NoDup_seqZ]. intros i j Hi Hj.
    apply elem_of_seqZ in Hi, Hj.
    destruct (Hall i) as (k & v & Hkv); [lia|]. destruct (Hall j) as (k' & v' & Hkv'); [lia|].
    rewrite (key_at_occupied _ _ _ _ Hkv), (key_at_occupied _ _ _ _ Hkv'). intros ->.
    eapply ok_unique; eauto.
  - intros k Hk. apply list_elem_of_fmap in Hk as (i & -> & Hi). apply elem_of_seqZ in Hi.
    destruct (Hall i) as (k & v & Hkv); [lia|].
    exists v. apply HK. exists i. by rewrite (key_at_occupied _ _ _ _ Hkv).
Qed.

Lemma free_slot_size m K i : map_rep m K → 0 ≤ i < C →
  (∀ k v, ¬ occupied_at m i k v) → Z.of_nat (size K) < C.
Proof.
  intros [Hok HK] Hi Hfree. pose proof (ok_pos _ Hok) as HC.
  pose proof (size_le_length K (key_at m <$> (seqZ 0 i ++ seqZ (i + 1) (C - i - 1)))) as Hlen.
  rewrite length_fmap, length_app, !length_seqZ in Hlen.
  cut (size K ≤ Z.to_nat i + Z.to_nat (C - i - 1))%nat; [lia|]. apply Hlen.
  intros k [v Hv]. apply HK in Hv as [i' Hi'].
  apply list_elem_of_fmap. exists i'. split; [by rewrite (key_at_occupied _ _ _ _ Hi')|].
  pose proof (aget_Some_bounds _ _ _ Hi') as Hb. rewrite (ok_len _ _ Hok) in Hb.
  rewrite elem_of_app, !elem_of_seqZ. assert (i' ≠ i) by (intros ->; by apply (Hfree k v)). lia.
Qed.

(** ** The operations on the represented map *)

Lemma insert_room m K k v : map_rep m K → K !! k = None → Z.of_nat (size K) < C →
  ∃ i m', insert k v m = (Ok (i, true), m') ∧ occupied_at m' i k v ∧
          map_rep m' (<[k := v]> K).
Proof.
  intros Hrep Hk Hsz. pose proof Hrep as [Hok HK].
  assert (∀ i w, ¬ occupied_at m i k w) as Hfresh.
  { intros i w Hocc. assert (K !! k = Some w) by (apply HK; eauto). congruence. }
  destruct (insert_probe_spec m k Hok) as (r & Hp & n & -> & Hn & Hbefore & Hat).
  assert (n < C) as Hlt.
  { destruct (Z.lt_ge_cases n C) as [|Hge]; [done|]. exfalso.
    assert (C ≤ Z.of_nat (size K)); [|lia]. apply (all_occupied_size m K Hrep).
    intros i Hi. destruct (slot_surj k i Hi) as (d & Hd & ->).
    destruct (Hbefore d) as (k' & w & _ & Hocc); [lia|]. eauto. }
  assert (0 ≤ slot k n < alen (map_ m)) as Hb.
  { rewrite (ok_len _ _ Hok). apply slot_bounds. by apply ok_pos with m. }
  exists (slot k n), (set_map (aset (map_ m) (slot k n) (mkBucket k v Occupied)) m).
  split_and!.
  - unfold insert. mstep Hp. munfold. rewrite (ok_capacity _ _ Hok).
    rewrite (proj2 (Z.ltb_lt n C) Hlt). unfold store_bucket. munfold. by rewrite aput_in.
  - apply set_map_occupied; [done|]. by rewrite decide_True.
  - apply write_rep; try done; [lia|..].
    + intros j Hj. destruct (Hbefore j Hj) as (k' & w & _ & Hocc).
      eexists. split; [exact Hocc|done].
    + by apply Hat.
    + intros i w Hocc. by apply Hfresh in Hocc.
Qed.

Lemma insert_no_room m K k v : map_rep m K → K !! k = None → C ≤ Z.of_nat (size K) →
  insert k v m = (Ok (end_ m, false), m).
Proof.
  intros Hrep Hk Hsz. pose proof Hrep as [Hok HK].
  destruct (insert_probe_spec m k Hok) as (r & Hp & n & -> & Hn & Hbefore & Hat).
  assert (n = C) as ->.
  { destruct (decide (n = C)) as [|Hne]; [done|]. exfalso.
    assert (Z.of_nat (size K) < C); [|lia]. apply (free_slot_size m K (slot k n) Hrep).
    - apply slot_bounds. by apply ok_pos with m.
    - intros k' w Hocc. pose proof (Hat ltac:(lia) k' w Hocc) as ->.
      assert (K !! k = Some w) by (apply HK; eauto). congruence. }
  unfold insert. mstep Hp. munfold. rewrite (ok_capacity _ _ Hok), Z.ltb_irrefl. done.
Qed.

Lemma operator_index_present m K k v : map_rep m K → K !! k = Some v →
  ∃ i, operator_index k m = (Ok i, m) ∧ occupied_at m i k v.
Proof.
  intros Hrep Hk. destruct (find_rep m K k Hrep) as [(i & v' & Hf & Hocc & Hk')|[_ Hk']]; [|congruence].
  simplify_eq. exists i. split; [|done]. unfold operator_index. by mstep Hf.
Qed.

Lemma operator_index_fresh m K k : map_rep m K → K !! k = None → Z.of_nat (size K) < C →
  ∃ i m', operator_index k m = (Ok i, m') ∧ occupied_at m' i k 0 ∧ map_rep m' (<[k := 0]> K).
Proof.
  intros Hrep Hk Hsz. destruct (find_rep m K k Hrep) as [(i & v' & _ & _ & Hk')|[Hf _]]; [congruence|].
  destruct (insert_room m K k 0 Hrep Hk Hsz) as (i & m' & Hi & Hocc & Hrep').
  exists i, m'. split_and!; try done. unfold operator_index. mstep Hf. by mstep Hi.
Qed.

Lemma operator_index_full m K k : map_rep m K → K !! k = None → C ≤ Z.of_nat (size K) →
  operator_index k m = (Throw map_full, m).
Proof.
  intros Hrep Hk Hsz. destruct (find_rep m K k Hrep) as [(i & v' & _ & _ & Hk')|[Hf _]]; [congruence|].
  unfold operator_index. mstep Hf. by mstep (insert_no_room m K k 0 Hrep Hk Hsz).
Qed.

(** Overwriting the value of an occupied bucket. *)
Lemma overwrite_rep m K i k v w : map_rep m K → occupied_at m i k v →
  map_rep (set_map (aset (map_ m) i (mkBucket k w Occupied)) m) (<[k := w]> K).
Proof.
  intros Hrep Hocc. pose proof Hrep as [Hok HK].
  destruct (ok_probe _ _ Hok _ _ _ Hocc) as (d & Hd & -> & Hpath).
  apply write_rep; try done.
  - intros k' w' Hocc'. unfold occupied_at in *. congruence.
  - intros i w' Hocc'. eapply ok_unique; eauto.
Qed.

Lemma store_at m i b : 0 ≤ i < alen (map_ m) →
  store_bucket i b m = (Ok tt, set_map (aset (map_ m) i b) m).
Proof. intros Hi. unfold store_bucket. munfold. by rewrite aput_in. Qed.

Lemma load_at m i k v : occupied_at m i k v →
  load_bucket i m = (Ok (mkBucket k v Occupied), m).
Proof. intros Hocc. unfold load_bucket. munfold. by rewrite Hocc. Qed.

Lemma index_assign_rep m K k v : map_rep m K →
  is_Some (K !! k) ∨ Z.of_nat (size K) < C →
  ∃ m', index_assign k v m = (Ok tt, m') ∧ map_rep m' (<[k := v]> K).
Proof.
  intros Hrep Hroom.
  assert (∃ i w m1 K1, operator_index k m = (Ok i, m1) ∧ occupied_at m1 i k w ∧
            map_rep m1 K1 ∧ <[k := v]> K1 = <[k := v]> K)
    as (i & w & m1 & K1 & Hi & Hocc & Hrep1 & HK1).
  { destruct (K !! k) as [w|] eqn:Hk.
    - destruct (operator_index_present m K k w Hrep Hk) as (i & Hi & Hocc). eauto 10.
    - destruct Hroom as [[? ?]|Hsz]; [done|].
      destruct (operator_index_fresh m K k Hrep Hk Hsz) as (i & m' & Hi & Hocc & Hrep').
      exists i, 0, m', (<[k := 0]> K). by rewrite insert_insert_eq. }
  eexists. split.
  - unfold index_assign. mstep Hi. mstep (load_at _ _ _ _ Hocc).
    apply store_at. by eapply aget_Some_bounds.
  - rewrite <- HK1. by eapply overwrite_rep.
Qed.

Lemma index_assign_full m K k v : map_rep m K → K !! k = None → C ≤ Z.of_nat (size K) →
  index_assign k v m = (Throw map_full, m).
Proof.
  intros Hrep Hk Hsz. unfold index_assign.
  by mstep (operator_index_full m K k Hrep Hk Hsz).
Qed.

Lemma erase_rep m K k : map_rep m K →
  ∃ m', erase k m = (Ok tt, m') ∧ map_rep m' (delete k K).
Proof.
  intros Hrep. unfold erase.
  destruct (find_rep m K k Hrep) as [(i & v & Hf & Hocc & Hk)|[Hf Hk]].
  - eexists. split; [|by apply tombstone_rep].
    mstep Hf. mstep (load_at _ _ _ _ Hocc). apply store_at. by eapply aget_Some_bounds.
  - exists m. mstep Hf. split; [done|]. by rewrite delete_id.
Qed.

Lemma find_pool_idx_rep m K k : map_rep m K → find_pool_idx k m = (Ok (K !! k), m).
Proof.
  intros Hrep. unfold find_pool_idx.
  destruct (find_rep m K k Hrep) as [(i & v & Hf & Hocc & Hk)|[Hf Hk]]; mstep Hf.
  - mstep (load_at _ _ _ _ Hocc). by rewrite Hk.
  - by rewrite Hk.
Qed.

Lemma StaticOrderMap_new_rep page_size m :
  (∃ e, 0 ≤ e ∧ C = 2 ^ e) → StaticOrderMap_new C page_size true = Ok m → map_rep m ∅.
Proof.
  intros Hpow [= <-].
  assert (∀ i k v, ¬ occupied_at (mkOrderMap (anew C (mkBucket 0 0 Empty)) C C
    (Z.land (u64 (C * sizeof_Bucket) + page_size - 1) (unot 64 (page_size - 1)))) i k v) as Hno.
  { intros i k v Hocc. unfold occupied_at in Hocc; simpl in Hocc.
    pose proof (aget_Some_bounds _ _ _ Hocc) as Hb. simpl in Hb.
    by rewrite aget_anew in Hocc by done. }
  split; [constructor; simpl; try done|].
  - intros i j k v w Hocc. by apply Hno in Hocc.
  - intros i k v Hocc. by apply Hno in Hocc.
  - intros k v. rewrite lookup_empty. split; [done|]. intros [i Hocc]. by apply Hno in Hocc.
Qed.

#[export] Instance order_map_laws : OrderMapLaws StaticOrderMap C map_full map_rep.
Proof.
  constructor; [exact find_pool_idx_rep|exact index_assign_rep|exact index_assign_full|exact erase_rep].
Qed.
End Map_lemmas.

(** * Sequences of operations

    Lookups, assignments and erasures against a finite map of bounded
    size.  An assignment of a new key to a full map throws and changes
    nothing. *)

Inductive map_op : Type := MapFind (k : Z) | MapAssign (k v : Z) | MapErase (k : Z).

Definition run_map_op (op : map_op) (m : StaticOrderMap)
    : outcome (option Z) * StaticOrderMap :=
  match op with
  | MapFind k => find_pool_idx k m
  | MapAssign k v => (index_assign k v;; mret None) m
  | MapErase k => (erase k;; mret None) m
  end.

Definition spec_map_op (C : Z) (op : map_op) (K : gmap Z Z)
    : outcome (option Z) * gmap Z Z :=
  match op with
  | MapFind k => (Ok (K !! k), K)
  | MapAssign k v =>
      match K !! k with
      | Some _ => (Ok None, <[k := v]> K)
      | None => if Z.of_nat (size K) <? C then (Ok None, <[k := v]> K) else (Throw map_full, K)
      end
  | MapErase k => (Ok None, delete k K)
  end.

Fixpoint run_map_ops (ops : list map_op) (m : StaticOrderMap)
    : list (outcome (option Z)) * StaticOrderMap :=
  match ops with
  | [] => ([], m)
  | op :: ops' =>
      let '(r, m1) := run_map_op op m in
      let '(rs, m2) := run_map_ops ops' m1 in (r :: rs, m2)
  end.

Fixpoint spec_map_ops (C : Z) (ops : list map_op) (K : gmap Z Z)
    : list (outcome (option Z)) * gmap Z Z :=
  match ops with
  | [] => ([], K)
  | op :: ops' =>
      let '(r, K1) := spec_map_op C op K in
      let '(rs, K2) := spec_map_ops C ops' K1 in (r :: rs, K2)
  end.

Lemma run_map_op_rep C op m K : map_rep C m K →
  (run_map_op op m).1 = (spec_map_op C op K).1 ∧
  map_rep C (run_map_op op m).2 (spec_map_op C op K).2.
Proof.
  intros Hrep. destruct op as [k|k v|k]; simpl.
  - by rewrite (find_pool_idx_rep C m K k Hrep).
  - destruct (K !! k) as [w|] eqn:Hk.
    + destruct (index_assign_rep C m K k v Hrep) as (m' & Hrun & Hrep'); [left; eauto|].
      by mstep Hrun.
    + zcase.
      * destruct (index_assign_rep C m K k v Hrep) as (m' & Hrun & Hrep'); [by right|].
        by mstep Hrun.
      * by mstep (index_assign_full C m K k v Hrep Hk ltac:(lia)).
  - destruct (erase_rep C m K k Hrep) as (m' & Hrun & Hrep'). by mstep Hrun.
Qed.

Lemma run_map_ops_rep C ops m K : map_rep C m K →
  (run_map_ops ops m).1 = (spec_map_ops C ops K).1 ∧
  map_rep C (run_map_ops ops m).2 (spec_map_ops C ops K).2.
Proof.
  revert m K. induction ops as [|op ops IH]; intros m K Hrep; simpl; [done|].
  destruct (run_map_op_rep C op m K Hrep) as [Hr Hrep1].
  destruct (run_map_op op m) as [r m1], (spec_map_op C op K) as [r' K1]; simpl in *.
  destruct (IH m1 K1 Hrep1) as [Hrs Hrep2].
  destruct (run_map_ops ops m1) as [rs m2], (spec_map_ops C ops K1) as [rs' K2]; simpl in *.
  split; [congruence|done].
Qed.

(** C14 The order map, started empty, answers every sequence of lookups,
    [map[k] = v] assignments and erasures exactly as a finite map limited to
    [Capacity] keys: each lookup returns the last value assigned and not
    erased, an assignment of a new key to a full map throws "Map is full" and
    changes nothing, and no operation reads outside the table or fails to
    terminate. *)
Theorem order_map_run_refines_gmap e page_size m ops :
  0 ≤ e → StaticOrderMap_new (2 ^ e) page_size true = Ok m →
  (run_map_ops ops m).1 = (spec_map_ops (2 ^ e) ops ∅).1.
Proof.
  intros He Hnew. apply run_map_ops_rep.
  by eapply StaticOrderMap_new_rep; [exists e|].
Qed.

Lemma order_map_run_refines_gmap_witness :
  let m := mkOrderMap (anew 2 (mkBucket 0 0 Empty)) 2 2 4096 in
  let ops := [MapAssign 1 10; MapAssign 3 30; MapFind 3; MapAssign 5 50; MapErase 1;
              MapAssign 5 51; MapFind 3; MapFind 5; MapFind 1] in
  (run_map_ops ops m).1 = (spec_map_ops (2 ^ 1) ops ∅).1.
Proof.
  intros m ops. apply (order_map_run_refines_gmap 1 4096 m ops); [lia|reflexivity].
Defined.

(** The probing invariant: after any such sequence no two occupied
    buckets hold the same order id, and every bucket between an id's home slot
    and the bucket that holds it is non-empty, so a search cannot stop
    early. *)
Theorem order_map_probe_invariant e page_size m ops :
  0 ≤ e → StaticOrderMap_new (2 ^ e) page_size true = Ok m →
  let m' := (run_map_ops ops m).2 in
  (∀ i j b c, (map_ m').[i] = Some b → (map_ m').[j] = Some c →
     state b = Occupied → state c = Occupied → order_id b = order_id c → i = j) ∧
  (∀ i b, (map_ m').[i] = Some b → state b = Occupied →
     ∃ d, 0 ≤ d < 2 ^ e ∧ i = (order_id b + d) mod 2 ^ e ∧
          ∀ j, 0 ≤ j < d → ∃ c, (map_ m').[(order_id b + j) mod 2 ^ e] = Some c ∧ state c ≠ Empty).
Proof.
  intros He Hnew m'.
  destruct (run_map_ops_rep (2 ^ e) ops m ∅) as [_ [Hok _]].
  { by eapply StaticOrderMap_new_rep; [exists e|]. }
  fold m' in Hok. split.
  - intros i j [k v ?] [k' w ?] Hb Hc; simpl; intros -> -> ->. by eapply (ok_unique _ _ Hok).
  - intros i [k v ?] Hb; simpl; intros ->.
    destruct (ok_probe _ _ Hok i k v Hb) as (d & Hd & Hi & Hp). by exists d.
Qed.

Lemma order_map_probe_invariant_witness :
  let m := mkOrderMap (anew 4 (mkBucket 0 0 Empty)) 4 4 4096 in
  let m' := (run_map_ops [MapAssign 1 10; MapAssign 5 50; MapErase 1; MapAssign 9 90] m).2 in
  (map_ m').[2] = Some (mkBucket 5 50 Occupied) ∧
  ∃ d, 0 ≤ d < 2 ^ 2 ∧ 2 = (5 + d) mod 2 ^ 2 ∧
       ∀ j, 0 ≤ j < d → ∃ c, (map_ m').[(5 + j) mod 2 ^ 2] = Some c ∧ state c ≠ Empty.
Proof.
  intros m m'. split; [reflexivity|].
  by apply (proj2 (order_map_probe_invariant 2 4096 m
    [MapAssign 1 10; MapAssign 5 50; MapErase 1; MapAssign 9 90] ltac:(lia) eq_refl)
    2 (mkBucket 5 50 Occupied)).
Defined.

(** [insert] alone does not look past a tombstone: inserting an id that
    is already present behind one creates a second bucket for it, and erasing
    the id then uncovers the old value.  ([operator[]] looks the id up first
    and does not do this.) *)
Theorem insert_past_tombstone_duplicates :
  let m := mkOrderMap (anew 4 (mkBucket 0 0 Empty)) 4 4 4096 in
  ((index_assign 1 10;; index_assign 5 50;; erase 1;; insert 5 51;; erase 5;;
    find_pool_idx 5) m).1 = Ok (Some 50).
Proof. reflexivity. Qed.

(** [erase] of a bucket pointer throws, changing nothing, on a pointer outside the
    table, and turns any bucket of the table into a tombstone. *)
Theorem erase_ptr_bounds C m i :
  map_ok C m →
  (¬ (0 ≤ i < C) → (erase_ptr i m).2 = m ∧ ∃ e, (erase_ptr i m).1 = Throw e) ∧
  (0 ≤ i < C → ∃ b, (map_ m).[i] = Some b ∧
     erase_ptr i m = (Ok tt, set_map (aset (map_ m) i (mkBucket (order_id b) (pool_idx b) Tombstone)) m)).
Proof.
  intros Hok. unfold erase_ptr. munfold. rewrite (ok_end _ _ Hok). split; intros Hi.
  - assert ((i <? 0) || (C <=? i) = true) as ->
      by (apply orb_true_iff; rewrite Z.ltb_lt, Z.leb_le; lia). eauto.
  - assert ((i <? 0) || (C <=? i) = false) as ->
      by (apply orb_false_iff; rewrite Z.ltb_ge, Z.leb_gt; lia).
    assert (0 ≤ i < alen (map_ m)) as Hb by (by rewrite (ok_len _ _ Hok)).
    destruct (aget_in _ _ Hb) as [b Hbk]. exists b. split; [done|].
    unfold load_bucket, store_bucket. munfold. by rewrite Hbk, aput_in.
Qed.

Lemma erase_ptr_bounds_witness :
  let m := mkOrderMap (anew 2 (mkBucket 0 0 Empty)) 2 2 4096 in
  (erase_ptr 2 m).2 = m ∧ ∃ e, (erase_ptr 2 m).1 = Throw e.
Proof.
  intros m. apply (erase_ptr_bounds 2 m 2); [|lia].
  apply (StaticOrderMap_new_rep 2 4096 m); [by exists 1|reflexivity].
Defined.
