(* ===== verification/ItchOrderTypes.v ===== *)
(** The messages of the program (src/src/protocol/ItchOrderTypes.h): the
    normalized (host byte order) orders the parser produces and the book
    consumes, the common header, and the sizes and field offsets of the
    packed wire structs.

    The wire structs are only read through byte offsets into a payload
    buffer, so they are represented by the offsets of their fields
    ([AddOrder], [OrderExecuted], [CancelOrder] are packed: no padding). *)

From S2P Require Import Prelude.

Inductive OrderType : Type := AddOrderType | ExecuteOrderType | CancelOrderType.

(** [static_cast<uint8_t>(type)]: the position in the enumeration. *)
Definition OrderType_index (t : OrderType) : Z :=
  match t with AddOrderType => 0 | ExecuteOrderType => 1 | CancelOrderType => 2 end.

Record Header : Type := mkHeader {
  h_timestamp : Z;
  h_order_reference_number : Z;
  h_stock_locate : Z;
  h_tracking_number : Z
}.

Record NormalizedAddOrder : Type := mkAddOrder {
  ao_timestamp : Z;
  ao_order_reference_number : Z;
  ao_shares : Z;
  ao_price : Z;
  ao_stock_locate : Z;
  ao_tracking_number : Z;
  ao_stock : list Z;
  ao_indicator : Z
}.

Record NormalizedOrderExecuted : Type := mkOrderExecuted {
  eo_timestamp : Z;
  eo_order_reference_number : Z;
  eo_match_number : Z;
  eo_shares : Z;
  eo_stock_locate : Z;
  eo_tracking_number : Z
}.

Record NormalizedCancelOrder : Type := mkCancelOrder {
  co_timestamp : Z;
  co_order_reference_number : Z;
  co_shares : Z;
  co_stock_locate : Z;
  co_tracking_number : Z
}.

(** The tag and the union. *)
Inductive NormalizedOrder : Type :=
| NAdd (add_order : NormalizedAddOrder)
| NExecute (execute_order : NormalizedOrderExecuted)
| NCancel (cancel_order : NormalizedCancelOrder).

Definition order_type (o : NormalizedOrder) : OrderType :=
  match o with
  | NAdd _ => AddOrderType
  | NExecute _ => ExecuteOrderType
  | NCancel _ => CancelOrderType
  end.

#[export] Instance OrderType_eq_dec : EqDecision OrderType.
Proof. solve_decision. Defined.
#[export] Instance Header_eq_dec : EqDecision Header.
Proof. solve_decision. Defined.
#[export] Instance NormalizedAddOrder_eq_dec : EqDecision NormalizedAddOrder.
Proof. solve_decision. Defined.
#[export] Instance NormalizedOrderExecuted_eq_dec : EqDecision NormalizedOrderExecuted.
Proof. solve_decision. Defined.
#[export] Instance NormalizedCancelOrder_eq_dec : EqDecision NormalizedCancelOrder.
Proof. solve_decision. Defined.
#[export] Instance NormalizedOrder_eq_dec : EqDecision NormalizedOrder.
Proof. solve_decision. Defined.

(** Characters of the protocol. *)
Definition char_A : Z := 65.
Definition char_B : Z := 66.
Definition char_E : Z := 69.
Definition char_S : Z := 83.
Definition char_X : Z := 88.
Definition char_minus : Z := 45.

(** Sizes of the packed wire structs. *)
Definition sizeof_AddOrder : nat := 36.
Definition sizeof_OrderExecuted : nat := 31.
Definition sizeof_CancelOrder : nat := 23.

(** Offsets of the fields common to the three structs. *)
Definition off_stock_locate : nat := 1.
Definition off_tracking_number : nat := 3.
Definition off_timestamp : nat := 5.
Definition off_order_reference_number : nat := 11.

(** AddOrder: indicator, shares, stock, price. *)
Definition off_add_indicator : nat := 19.
Definition off_add_shares : nat := 20.
Definition off_add_stock : nat := 24.
Definition off_add_price : nat := 32.

(** OrderExecuted: shares, match number. *)
Definition off_exec_shares : nat := 19.
Definition off_exec_match_number : nat := 23.

(** CancelOrder: shares. *)
Definition off_cancel_shares : nat := 19.
