(* ===== verification/LimitOrderBook.v ===== *)
(** [book::LimitOrderBook] (src/src/book/LimitOrderBook.h and .cpp): the
    definitions.

    The pool of orders is an array whose cells are linked by index
    "pointers"; [NULL_INDEX] is the null one.  Each price level of each side
    is a doubly-linked list through the pool; the free cells are a
    singly-linked list from [next_free_index_].  A C++ reference
    ([Order&], [PriceLevel&]) is the index of the cell it denotes, and every
    access through it is a load or a store of that cell, so that aliasing is
    kept.  The template parameter [side] is an argument; [levels side] is
    [bids_] or [asks_], [bitset side] the corresponding bitset.

    The book is modelled over the interfaces [OrderMap] and [PriceIndex].
    The pool has exactly [max_orders] cells: the slack of the last page of
    the mapping is not part of it, so an index outside the pool is UB here. *)

From S2P Require Import Prelude Interfaces ItchOrderTypes.

Inductive Side : Type := Buy | Sell.

#[export] Instance Side_eq_dec : EqDecision Side.
Proof. solve_decision. Defined.

Record Order : Type := mkOrder {
  order_reference_number : Z;
  shares : Z;
  price : Z;
  next : Z;
  prev : Z
}.

(** [alignas(32)]. *)
Definition sizeof_Order : Z := 32.

Record PriceLevel : Type := mkLevel {
  head : Z;
  tail : Z
}.

#[export] Instance Order_eq_dec : EqDecision Order.
Proof. solve_decision. Defined.
#[export] Instance PriceLevel_eq_dec : EqDecision PriceLevel.
Proof. solve_decision. Defined.

Definition set_next (x : Z) (o : Order) : Order :=
  mkOrder (order_reference_number o) (shares o) (price o) x (prev o).
Definition set_prev (x : Z) (o : Order) : Order :=
  mkOrder (order_reference_number o) (shares o) (price o) (next o) x.
Definition set_shares (x : Z) (o : Order) : Order :=
  mkOrder (order_reference_number o) x (price o) (next o) (prev o).
Definition set_parsed (p : NormalizedAddOrder) (o : Order) : Order :=
  mkOrder (ao_order_reference_number p) (ao_shares p) (ao_price p) (next o) (prev o).
Definition set_head (x : Z) (l : PriceLevel) : PriceLevel := mkLevel x (tail l).
Definition set_tail (x : Z) (l : PriceLevel) : PriceLevel := mkLevel (head l) x.

(** * Constants *)

Definition NULL_INDEX : Z := 4294967295.
Definition MAX_TICKS : Z := 100000.
Definition SIDE_MASK : Z := Z.shiftl 1 31.
Definition INDEX_MASK : Z := unot 32 SIDE_MASK.
Definition ORDER_MAP_SIZE : Z := Z.shiftl 2 21.

Section Book.
Context {Map Idx : Type} `{!OrderMap Map} `{!PriceIndex Idx}.

Record LimitOrderBook : Type := mkBook {
  pool_ : array Order;
  bids_ : array PriceLevel;
  asks_ : array PriceLevel;
  orders_ : Map;
  bids_bitset_ : Idx;
  asks_bitset_ : Idx;
  next_free_index_ : Z
}.

(** * Access to the parts of the book *)

Definition set_pool (a : array Order) (b : LimitOrderBook) : LimitOrderBook :=
  mkBook a (bids_ b) (asks_ b) (orders_ b) (bids_bitset_ b) (asks_bitset_ b) (next_free_index_ b).
Definition set_orders (m : Map) (b : LimitOrderBook) : LimitOrderBook :=
  mkBook (pool_ b) (bids_ b) (asks_ b) m (bids_bitset_ b) (asks_bitset_ b) (next_free_index_ b).
Definition set_next_free (i : Z) (b : LimitOrderBook) : LimitOrderBook :=
  mkBook (pool_ b) (bids_ b) (asks_ b) (orders_ b) (bids_bitset_ b) (asks_bitset_ b) i.

Definition levels (side : Side) (b : LimitOrderBook) : array PriceLevel :=
  match side with Buy => bids_ b | Sell => asks_ b end.
Definition set_levels (side : Side) (a : array PriceLevel) (b : LimitOrderBook) : LimitOrderBook :=
  match side with
  | Buy => mkBook (pool_ b) a (asks_ b) (orders_ b) (bids_bitset_ b) (asks_bitset_ b)
             (next_free_index_ b)
  | Sell => mkBook (pool_ b) (bids_ b) a (orders_ b) (bids_bitset_ b) (asks_bitset_ b)
              (next_free_index_ b)
  end.

Definition bitset (side : Side) (b : LimitOrderBook) : Idx :=
  match side with Buy => bids_bitset_ b | Sell => asks_bitset_ b end.
Definition set_bitset (side : Side) (i : Idx) (b : LimitOrderBook) : LimitOrderBook :=
  match side with
  | Buy => mkBook (pool_ b) (bids_ b) (asks_ b) (orders_ b) i (asks_bitset_ b) (next_free_index_ b)
  | Sell => mkBook (pool_ b) (bids_ b) (asks_ b) (orders_ b) (bids_bitset_ b) i (next_free_index_ b)
  end.

Definition load_order (i : Z) : M LimitOrderBook Order :=
  a ← gets pool_; of_option (a.[i]).
Definition update_order (i : Z) (f : Order → Order) : M LimitOrderBook unit :=
  a ← gets pool_; o ← of_option (a.[i]); a' ← of_option (aput a i (f o)); modify (set_pool a').
Definition load_level (side : Side) (p : Z) : M LimitOrderBook PriceLevel :=
  a ← gets (levels side); of_option (a.[p]).
Definition update_level (side : Side) (p : Z) (f : PriceLevel → PriceLevel)
    : M LimitOrderBook unit :=
  a ← gets (levels side); l ← of_option (a.[p]); a' ← of_option (aput a p (f l));
  modify (set_levels side a').
Definition on_orders {A} (m : M Map A) : M LimitOrderBook A := zoom orders_ set_orders m.
Definition on_bitset {A} (side : Side) (m : M Idx A) : M LimitOrderBook A :=
  zoom (bitset side) (set_bitset side) m.

(** * Adding an order *)

Definition add_update_price_level (side : Side) (level new_order_idx : Z)
    : M LimitOrderBook unit :=
  update_order new_order_idx (set_prev NULL_INDEX);;
  update_order new_order_idx (set_next NULL_INDEX);;
  price_level ← load_level side level;
  (if head price_level =? NULL_INDEX
   then update_level side level (set_head new_order_idx) else mret tt);;
  price_level ← load_level side level;
  (if tail price_level =? NULL_INDEX then mret tt
   else update_order (tail price_level) (set_next new_order_idx);;
        update_order new_order_idx (set_prev (tail price_level)));;
  update_level side level (set_tail new_order_idx).

Definition add_order_impl (side : Side) (order : NormalizedAddOrder) : M LimitOrderBook unit :=
  new_order_idx ← gets next_free_index_;
  free_cell ← load_order new_order_idx;
  modify (set_next_free (next free_cell));;
  update_order new_order_idx (set_parsed order);;
  let tagged_idx := match side with Buy => 0 | Sell => Z.shiftl 1 31 end in
  new_order ← load_order new_order_idx;
  on_orders (om_assign (order_reference_number new_order) (Z.lor tagged_idx new_order_idx));;
  add_update_price_level side (price new_order) new_order_idx;;
  on_bitset side (idx_set (price new_order)).

Definition add_order (parsed_order : NormalizedAddOrder) : M LimitOrderBook unit :=
  if MAX_TICKS <=? ao_price parsed_order then mret tt else
  free ← gets next_free_index_;
  if free =? NULL_INDEX then mret tt else
  if ao_indicator parsed_order =? char_B
  then add_order_impl Buy parsed_order
  else add_order_impl Sell parsed_order.

(** * Removing an order *)

Definition execute_update_price_level (side : Side) (level order_idx : Z)
    : M LimitOrderBook unit :=
  price_level ← load_level side level;
  (if head price_level =? order_idx
   then order ← load_order order_idx; update_level side level (set_head (next order))
   else mret tt);;
  price_level ← load_level side level;
  if tail price_level =? order_idx
  then order ← load_order order_idx; update_level side level (set_tail (prev order))
  else mret tt.

Definition release_order_to_pool (side : Side) (order_idx : Z) : M LimitOrderBook unit :=
  order ← load_order order_idx;
  (if prev order =? NULL_INDEX then mret tt
   else update_order (prev order) (set_next (next order)));;
  order ← load_order order_idx;
  (if next order =? NULL_INDEX then mret tt
   else update_order (next order) (set_prev (prev order)));;
  order ← load_order order_idx;
  execute_update_price_level side (price order) order_idx;;
  price_level ← load_level side (price order);
  (if head price_level =? NULL_INDEX
   then on_bitset side (idx_clear (price order)) else mret tt);;
  order ← load_order order_idx;
  on_orders (om_erase (order_reference_number order));;
  free ← gets next_free_index_;
  update_order order_idx (set_next free);;
  modify (set_next_free order_idx).

Definition cancel_order (order_id : Z) : M LimitOrderBook unit :=
  it ← on_orders (om_lookup order_id);
  match it with
  | None => mret tt
  | Some tagged_order_idx =>
      let order_idx := Z.land tagged_order_idx INDEX_MASK in
      let is_sell := negb (Z.land tagged_order_idx SIDE_MASK =? 0) in
      if is_sell then release_order_to_pool Sell order_idx
      else release_order_to_pool Buy order_idx
  end.

Definition too_few_shares : exn := runtime_error
  "LimitOrderBook::execute_order(): Current order has less shares than required from execute order".

(** The guard keeps the 32-bit subtraction of the shares from wrapping. *)
Definition execute_order (order : NormalizedOrderExecuted) : M LimitOrderBook unit :=
  it ← on_orders (om_lookup (eo_order_reference_number order));
  match it with
  | None => mret tt
  | Some tagged_order_idx =>
      let order_idx := Z.land tagged_order_idx INDEX_MASK in
      let is_sell := negb (Z.land tagged_order_idx SIDE_MASK =? 0) in
      curr_order ← load_order order_idx;
      if shares curr_order <? eo_shares order then throw too_few_shares else
      update_order order_idx (set_shares (shares curr_order - eo_shares order));;
      curr_order ← load_order order_idx;
      if shares curr_order =? 0 then
        if is_sell then release_order_to_pool Sell order_idx
        else release_order_to_pool Buy order_idx
      else mret tt
  end.

(** * Best prices *)

Definition book_best_bid : M LimitOrderBook Z := on_bitset Buy idx_best_bid.
Definition book_best_offer : M LimitOrderBook Z := on_bitset Sell idx_best_offer.

(** * Construction *)

(** The loop [for (i = 1; i < max_orders; ++i) pool_[i - 1].next = i]. *)
Fixpoint link_pool (n : nat) (i : Z) (a : array Order) : option (array Order) :=
  match n with
  | O => Some a
  | S n' =>
      match a.[i - 1] with
      | Some o =>
          match aput a (i - 1) (set_next (u32 i) o) with
          | Some a' => link_pool n' (i + 1) a'
          | None => None
          end
      | None => None
      end
  end.

Definition zero_order : Order := mkOrder 0 0 0 0 0.

(** [orders] and [idx] are the default-constructed members; [mmap_ok] is the
    success of the mmap call.  When the size in bytes wraps, the pool has fewer
    cells than the loop links. *)
Definition LimitOrderBook_new (max_orders : Z) (mmap_ok : bool) (orders : Map) (idx : Idx)
    : outcome LimitOrderBook :=
  if max_orders =? 0 then
    Throw (runtime_error "LimitOrderBook(): Max Orders should be a positive value.")
  else if mmap_ok then
    if u64 (max_orders * sizeof_Order) <? max_orders * sizeof_Order then UB else
    match link_pool (Z.to_nat (max_orders - 1)) 1 (anew max_orders zero_order) with
    | Some a =>
        match a.[max_orders - 1] with
        | Some o =>
            match aput a (max_orders - 1) (set_next NULL_INDEX o) with
            | Some a' =>
                Ok (mkBook a' (anew MAX_TICKS (mkLevel NULL_INDEX NULL_INDEX))
                      (anew MAX_TICKS (mkLevel NULL_INDEX NULL_INDEX)) orders idx idx 0)
            | None => UB
            end
        | None => UB
        end
    | None => UB
    end
  else Throw (runtime_error "LimitOrderBook(): Unable to mmap order pool.").
End Book.

Arguments LimitOrderBook : clear implicits.
