(* ===== verification/LinkedPool.v ===== *)
(** Lists threaded through the order pool by index "pointers".

    [dseg a pv l nx] says that the cells [l] of the pool [a] form a
    doubly-linked segment whose first [prev] is [pv] and whose last [next] is
    [nx]; [sseg] is the singly-linked version, the shape of the free list;
    [level_ok] relates a [PriceLevel] to the whole list of its orders.
    The lemmas say how the segments change under the updates the book makes:
    appending a cell at the tail and unlinking a cell. *)

From S2P Require Import Prelude ItchOrderTypes LimitOrderBook.

Implicit Types (a : array Order) (l : list Z) (x y f pv nx : Z) (o : Order).

Fixpoint dseg a pv l nx : Prop :=
  match l with
  | [] => True
  | x :: l' => (∃ o, a.[x] = Some o ∧ prev o = pv ∧ next o = hdd nx l') ∧ dseg a x l' nx
  end.

Fixpoint sseg a l nx : Prop :=
  match l with
  | [] => True
  | x :: l' => (∃ o, a.[x] = Some o ∧ next o = hdd nx l') ∧ sseg a l' nx
  end.

Definition level_ok a (pl : PriceLevel) l : Prop :=
  head pl = hdd NULL_INDEX l ∧ tail pl = lastd NULL_INDEX l ∧ dseg a NULL_INDEX l NULL_INDEX.

(** The two halves of a cell: its links and the order it holds. *)
Definition links a x : option (Z * Z) := (λ o, (prev o, next o)) <$> a.[x].
Definition data a x : option (Z * Z * Z) :=
  (λ o, (order_reference_number o, shares o, price o)) <$> a.[x].

(** [a'] differs from [a] at most in the links of the cells [touched]. *)
Definition relinked a a' (touched : list Z) : Prop :=
  alen a' = alen a ∧ (∀ x, data a' x = data a x) ∧ (∀ x, x ∉ touched → a'.[x] = a.[x]).

(** * Segments *)

Lemma dseg_app a pv l1 l2 nx :
  dseg a pv (l1 ++ l2) nx ↔ dseg a pv l1 (hdd nx l2) ∧ dseg a (lastd pv l1) l2 nx.
Proof.
  revert pv. induction l1 as [|x l1 IH]; intros pv; simpl; [tauto|].
  rewrite IH, lastd_cons, hdd_app. tauto.
Qed.

Lemma dseg_links a a' pv l nx :
  (∀ x, x ∈ l → links a' x = links a x) → dseg a pv l nx → dseg a' pv l nx.
Proof.
  revert pv. induction l as [|x l IH]; intros pv Hext; simpl; [done|].
  intros [(o & Ho & Hp & Hn) Hd]. split; [|apply IH; [set_solver|done]].
  pose proof (Hext x ltac:(set_solver)) as E. unfold links in E. rewrite Ho in E. simpl in E.
  destruct (a'.[x]) as [o'|]; [|done]. simplify_eq/=. exists o'. split_and!; congruence.
Qed.

Lemma dseg_ext a a' pv l nx :
  (∀ x, x ∈ l → a'.[x] = a.[x]) → dseg a pv l nx → dseg a' pv l nx.
Proof. intros H. apply dseg_links. intros x Hx. unfold links. by rewrite H. Qed.

Lemma sseg_ext a a' l nx :
  (∀ x, x ∈ l → a'.[x] = a.[x]) → sseg a l nx → sseg a' l nx.
Proof.
  induction l as [|x l IH]; intros Hext; simpl; [done|].
  intros [(o & Ho & Hn) Hd]. split; [|apply IH; [set_solver|done]].
  exists o. rewrite Hext by set_solver. done.
Qed.

Lemma dseg_cell a pv l nx x : dseg a pv l nx → x ∈ l → ∃ o, a.[x] = Some o.
Proof.
  revert pv. induction l as [|y l IH]; intros pv; simpl; [set_solver|].
  intros [(o & Ho & _) Hd] [->|Hx]%elem_of_cons; eauto.
Qed.

(** Redirecting the link out of the end of a segment. *)
Lemma dseg_set_next a pv l y nx nx' o :
  dseg a pv (l ++ [y]) nx → y ∉ l → a.[y] = Some o →
  dseg (aset a y (set_next nx' o)) pv (l ++ [y]) nx'.
Proof.
  intros Hd Hy Ho. pose proof (aget_Some_bounds _ _ _ Ho).
  apply dseg_app in Hd as [Hl (Hlast & _)]. apply dseg_app. simpl in *. split.
  - revert Hl. apply dseg_ext. intros x Hx. apply aget_aset_ne. by intros ->.
  - destruct Hlast as (o' & Ho' & Hp & _). assert (o' = o) as -> by congruence. split; [|done].
    exists (set_next nx' o). by rewrite aget_aset_eq.
Qed.

(** Redirecting the link into the start of a segment. *)
Lemma dseg_set_prev a pv pv' l y nx o :
  dseg a pv (y :: l) nx → y ∉ l → a.[y] = Some o →
  dseg (aset a y (set_prev pv' o)) pv' (y :: l) nx.
Proof.
  intros [(o' & Ho' & _ & Hn) Hd] Hy Ho. pose proof (aget_Some_bounds _ _ _ Ho).
  assert (o' = o) as -> by congruence. split.
  - exists (set_prev pv' o). by rewrite aget_aset_eq.
  - revert Hd. apply dseg_ext. intros x Hx. apply aget_aset_ne. by intros ->.
Qed.

(** * Relinking *)

Lemma relinked_refl a t : relinked a a t.
Proof. done. Qed.

Lemma relinked_aset a x o o' t :
  a.[x] = Some o → x ∈ t →
  order_reference_number o' = order_reference_number o → shares o' = shares o →
  price o' = price o → relinked a (aset a x o') t.
Proof.
  intros Ho Hx H1 H2 H3. pose proof (aget_Some_bounds _ _ _ Ho). split_and!; [done|..].
  - intros y. unfold data. rewrite aget_aset by done. dcase; [|done].
    subst y. rewrite Ho. simpl. congruence.
  - intros y Hy. apply aget_aset_ne. by intros ->.
Qed.

Lemma relinked_trans a1 a2 a3 t :
  relinked a1 a2 t → relinked a2 a3 t → relinked a1 a3 t.
Proof.
  intros (L1 & D1 & F1) (L2 & D2 & F2). split_and!; [congruence|..].
  - intros x. by rewrite D2.
  - intros x Hx. by rewrite F2, F1.
Qed.

Lemma relinked_cell a a' t x o : relinked a a' t → a.[x] = Some o →
  ∃ o', a'.[x] = Some o' ∧ order_reference_number o' = order_reference_number o ∧
        shares o' = shares o ∧ price o' = price o.
Proof.
  intros (_ & D & _) Ho. specialize (D x). unfold data in D. rewrite Ho in D. simpl in D.
  destruct (a'.[x]) as [o'|]; [|done]. simpl in D. simplify_eq. eauto 10.
Qed.

(** * Appending at the tail of a level *)

Lemma level_append_empty a pl f o :
  level_ok a pl [] → a.[f] = Some o → prev o = NULL_INDEX → next o = NULL_INDEX →
  level_ok a (mkLevel f f) [f].
Proof. intros _ Ho Hp Hn. split_and!; try done. simpl. eauto. Qed.

Lemma level_append a pl l y f o oy :
  level_ok a pl (l ++ [y]) → NoDup (l ++ [y]) → f ∉ l ++ [y] →
  a.[y] = Some oy → a.[f] = Some o → next o = NULL_INDEX →
  let a' := aset (aset a y (set_next f oy)) f (set_prev y o) in
  level_ok a' (mkLevel (head pl) f) ((l ++ [y]) ++ [f]).
Proof.
  intros (Hh & Ht & Hd) Hnd Hf Hy Ho Hn a'.
  apply NoDup_app in Hnd as (_ & Hny & _).
  assert (y ∉ l) as Hyl by (intros Hin; by apply (Hny y Hin), list_elem_of_singleton).
  assert (f ≠ y) by set_solver.
  pose proof (aget_Some_bounds _ _ _ Hy). pose proof (aget_Some_bounds _ _ _ Ho).
  split_and!.
  - simpl. rewrite Hh. by destruct l.
  - simpl. by rewrite lastd_app.
  - apply dseg_app. rewrite lastd_app. split.
    + eapply (dseg_ext (aset a y (set_next f oy))).
      * intros x Hx. apply aget_aset_ne. by intros ->.
      * by eapply dseg_set_next.
    + simpl. split; [|done]. exists (set_prev y o). unfold a'. by rewrite aget_aset_eq.
Qed.

(** * Unlinking a cell *)

(** The pool after the neighbours of an unlinked cell are joined. *)
Definition joined a (pv nx : Z) : array Order :=
  let a1 := if pv =? NULL_INDEX then a
            else match a.[pv] with Some o => aset a pv (set_next nx o) | None => a end in
  if nx =? NULL_INDEX then a1
  else match a1.[nx] with Some o => aset a1 nx (set_prev pv o) | None => a1 end.

Lemma dseg_out_of_end a pv l nx nx' :
  dseg a pv l nx → NoDup l → NULL_INDEX ∉ l → pv = NULL_INDEX →
  dseg (if lastd pv l =? NULL_INDEX then a
        else match a.[lastd pv l] with Some o => aset a (lastd pv l) (set_next nx' o) | None => a end)
       pv l nx'.
Proof.
  intros Hd Hnd Hnull ->. destruct l as [|y l _] using rev_ind; [done|].
  rewrite lastd_app. change (lastd (lastd NULL_INDEX l) [y]) with y.
  apply NoDup_app in Hnd as (_ & Hny & _).
  assert (y ∉ l) as Hyl by (intros Hin; by apply (Hny y Hin), list_elem_of_singleton).
  zcase; [set_solver|].
  destruct (dseg_cell _ _ _ _ y Hd) as [o Ho]; [set_solver|]. rewrite Ho.
  by eapply dseg_set_next.
Qed.

Lemma dseg_into_start a pv pv' l nx :
  dseg a pv l nx → NoDup l → NULL_INDEX ∉ l → nx = NULL_INDEX →
  dseg (if hdd nx l =? NULL_INDEX then a
        else match a.[hdd nx l] with Some o => aset a (hdd nx l) (set_prev pv' o) | None => a end)
       pv' l nx.
Proof.
  intros Hd Hnd Hnull ->. destruct l as [|y l]; [done|].
  change (hdd NULL_INDEX (y :: l)) with y.
  apply NoDup_cons in Hnd as [Hyl _]. zcase; [set_solver|].
  destruct (dseg_cell _ _ _ _ y Hd) as [o Ho]; [left|]. rewrite Ho. by eapply dseg_set_prev.
Qed.

Lemma level_cell a pl l1 f l2 : level_ok a pl (l1 ++ f :: l2) →
  ∃ o, a.[f] = Some o ∧ prev o = lastd NULL_INDEX l1 ∧ next o = hdd NULL_INDEX l2.
Proof. intros (_ & _ & Hd). by apply dseg_app in Hd as [_ [H _]]. Qed.

(** Joining the neighbours leaves a list without the cell. *)
Lemma joined_dseg a l1 f l2 :
  dseg a NULL_INDEX (l1 ++ f :: l2) NULL_INDEX →
  NoDup (l1 ++ f :: l2) → NULL_INDEX ∉ l1 ++ f :: l2 →
  dseg (joined a (lastd NULL_INDEX l1) (hdd NULL_INDEX l2)) NULL_INDEX (l1 ++ l2) NULL_INDEX.
Proof.
  intros Hd Hnd Hnull. apply dseg_app in Hd as [H1 [_ H2]].
  apply NoDup_app in Hnd as (N1 & N12 & [Nf N2]%NoDup_cons).
  assert (∀ x, x ∈ l1 → x ∉ l2) as Hdisj by set_solver.
  apply dseg_app. unfold joined.
  set (a1 := if lastd NULL_INDEX l1 =? NULL_INDEX then a else _).
  assert (dseg a1 NULL_INDEX l1 (hdd NULL_INDEX l2)) as D1
    by (eapply dseg_out_of_end; eauto; set_solver).
  assert (dseg a1 f l2 NULL_INDEX) as D2.
  { revert H2. apply dseg_ext. intros x Hx. unfold a1. destruct l1 as [|z l1]; [done|].
    zcase; [done|]. destruct (a.[_]); [|done]. apply aget_aset_ne. intros <-.
    by apply (Hdisj (lastd NULL_INDEX (z :: l1))); [apply lastd_in|]. }
  split.
  - revert D1. apply dseg_ext. intros x Hx. zcase; [done|].
    destruct (a1.[hdd _ _]); [|done]. apply aget_aset_ne. intros <-.
    destruct l2 as [|z l2]; [done|]. apply (Hdisj _ Hx). left.
  - eapply dseg_into_start; eauto; set_solver.
Qed.

Lemma joined_relinked a l1 f l2 :
  dseg a NULL_INDEX (l1 ++ f :: l2) NULL_INDEX → NoDup (l1 ++ f :: l2) →
  let a' := joined a (lastd NULL_INDEX l1) (hdd NULL_INDEX l2) in
  relinked a a' (l1 ++ l2) ∧ a'.[f] = a.[f].
Proof.
  intros Hd Hnd a'.
  assert (relinked a a' (l1 ++ l2)) as R.
  2: { split; [done|]. apply R. apply NoDup_app in Hnd as (_ & N12 & [Nf _]%NoDup_cons).
       rewrite elem_of_app. intros [Hin|Hin]; [|done]. apply (N12 _ Hin). left. }
  unfold a', joined. set (a1 := if lastd NULL_INDEX l1 =? NULL_INDEX then a else _).
  assert (relinked a a1 (l1 ++ l2)) as R1.
  { unfold a1. destruct l1 as [|z l1]; [apply relinked_refl|]. zcase; [apply relinked_refl|].
    destruct (a.[_]) as [o|] eqn:Ho; [|apply relinked_refl].
    eapply relinked_aset; eauto. apply elem_of_app. left. by apply lastd_in. }
  eapply relinked_trans; [exact R1|]. destruct l2 as [|z l2]; [apply relinked_refl|].
  change (hdd NULL_INDEX (z :: l2)) with z.
  zcase; [apply relinked_refl|].
  destruct (a1.[z]) as [o|] eqn:Ho; [|apply relinked_refl].
  eapply relinked_aset; eauto. set_solver.
Qed.
