(* ===== verification/MockOrderBook.v ===== *)
(** The reference order book: [MockOrderBook] of the differential test
    (src/tests/test_limit_order_book.cpp), and the contract of
    [book::LimitOrderBook] stated over it.

    The reference book keeps the live orders in a map and, for each side, a
    map from prices to the queue of order ids at that price.  The contract
    [spec_*] adds the three guards of the real book: a price of at least
    MAX_TICKS is ignored, an addition to a full book is ignored, an execution
    of more shares than the order has is refused. *)

From S2P Require Import Prelude Interfaces ItchOrderTypes LimitOrderBook.

(** * The reference book *)

Record MockOrder : Type := mkMockOrder {
  mo_shares : Z;
  mo_price : Z;
  mo_side : Side
}.

Record MockOrderBook : Type := mkMock {
  mk_bids : gmap Z (list Z);
  mk_asks : gmap Z (list Z);
  mk_orders : gmap Z MockOrder
}.

Definition mock_empty : MockOrderBook := mkMock ∅ ∅ ∅.

Definition queues (side : Side) (m : MockOrderBook) : gmap Z (list Z) :=
  match side with Buy => mk_bids m | Sell => mk_asks m end.
Definition set_queues (side : Side) (q : gmap Z (list Z)) (m : MockOrderBook) : MockOrderBook :=
  match side with
  | Buy => mkMock q (mk_asks m) (mk_orders m)
  | Sell => mkMock (mk_bids m) q (mk_orders m)
  end.
Definition set_mock_orders (os : gmap Z MockOrder) (m : MockOrderBook) : MockOrderBook :=
  mkMock (mk_bids m) (mk_asks m) os.

(** [bids_[p]]: a missing price has the empty list. *)
Definition queue (side : Side) (p : Z) (m : MockOrderBook) : list Z :=
  default [] (queues side m !! p).

Definition mock_add_order (id : Z) (o : MockOrder) (m : MockOrderBook) : MockOrderBook :=
  let m1 := set_mock_orders (<[id := o]> (mk_orders m)) m in
  set_queues (mo_side o)
    (<[mo_price o := queue (mo_side o) (mo_price o) m ++ [id]]> (queues (mo_side o) m)) m1.

Definition mock_cancel_order (id : Z) (m : MockOrderBook) : MockOrderBook :=
  match mk_orders m !! id with
  | None => m
  | Some o =>
      let price_list := filter (λ x, x ≠ id) (queue (mo_side o) (mo_price o) m) in
      let q := queues (mo_side o) m in
      let q' := match price_list with
                | [] => delete (mo_price o) q
                | _ => <[mo_price o := price_list]> q
                end in
      set_mock_orders (delete id (mk_orders m)) (set_queues (mo_side o) q' m)
  end.

Definition mock_execute_order (id n : Z) (m : MockOrderBook) : MockOrderBook :=
  match mk_orders m !! id with
  | None => m
  | Some o =>
      let o' := mkMockOrder (mo_shares o - n) (mo_price o) (mo_side o) in
      let m' := set_mock_orders (<[id := o']> (mk_orders m)) m in
      if mo_shares o' =? 0 then mock_cancel_order id m' else m'
  end.

Definition mock_best_bid (m : MockOrderBook) : Z := best_bid_of (dom (mk_bids m)).
Definition mock_best_offer (m : MockOrderBook) : Z := best_offer_of (dom (mk_asks m)).

(** * The contract *)

Definition side_of_indicator (indicator : Z) : Side :=
  if indicator =? char_B then Buy else Sell.

Definition spec_add_order (max_orders : Z) (p : NormalizedAddOrder) (m : MockOrderBook)
    : MockOrderBook :=
  if MAX_TICKS <=? ao_price p then m
  else if max_orders <=? Z.of_nat (size (mk_orders m)) then m
  else mock_add_order (ao_order_reference_number p)
         (mkMockOrder (ao_shares p) (ao_price p) (side_of_indicator (ao_indicator p))) m.

Definition spec_execute_order (p : NormalizedOrderExecuted) (m : MockOrderBook)
    : outcome unit * MockOrderBook :=
  match mk_orders m !! eo_order_reference_number p with
  | Some o =>
      if mo_shares o <? eo_shares p then (Throw too_few_shares, m)
      else (Ok tt, mock_execute_order (eo_order_reference_number p) (eo_shares p) m)
  | None => (Ok tt, m)
  end.

(** * Well-formed reference books *)

Record mock_ok (m : MockOrderBook) : Prop := {
  mok_queue : ∀ side p id, id ∈ queue side p m ↔
    ∃ o, mk_orders m !! id = Some o ∧ mo_side o = side ∧ mo_price o = p;
  mok_nodup : ∀ side p, NoDup (queue side p m);
  mok_nonempty : ∀ side p, queues side m !! p ≠ Some [];
  mok_price : ∀ id o, mk_orders m !! id = Some o → 0 ≤ mo_price o < MAX_TICKS
}.

Lemma queues_set side side' q m :
  queues side (set_queues side' q m) = if decide (side = side') then q else queues side m.
Proof. by destruct side, side'. Qed.

Lemma queues_set_orders side os m : queues side (set_mock_orders os m) = queues side m.
Proof. by destruct side. Qed.

Lemma orders_set_queues side q m : mk_orders (set_queues side q m) = mk_orders m.
Proof. by destruct side. Qed.

Lemma queue_set_orders side p os m : queue side p (set_mock_orders os m) = queue side p m.
Proof. by destruct side. Qed.

Lemma mock_empty_ok : mock_ok mock_empty.
Proof.
  constructor.
  - intros side p id. unfold queue. split.
    + destruct side; simpl; rewrite lookup_empty; simpl; set_solver.
    + intros (o & Ho & _). simpl in Ho. by rewrite lookup_empty in Ho.
  - intros side p. unfold queue. destruct side; simpl; rewrite lookup_empty; constructor.
  - intros side p. by destruct side; simpl; rewrite lookup_empty.
  - intros id o Ho. simpl in Ho. by rewrite lookup_empty in Ho.
Qed.

(** ** Addition *)

Lemma mock_add_orders id o m : mk_orders (mock_add_order id o m) = <[id := o]> (mk_orders m).
Proof. unfold mock_add_order. by rewrite orders_set_queues. Qed.

Lemma mock_add_queues id o m side :
  queues side (mock_add_order id o m) =
  if decide (side = mo_side o)
  then <[mo_price o := queue (mo_side o) (mo_price o) m ++ [id]]> (queues side m)
  else queues side m.
Proof.
  unfold mock_add_order. rewrite queues_set. dcase; [by subst|]. by rewrite queues_set_orders.
Qed.

Lemma mock_add_queue id o m side p :
  queue side p (mock_add_order id o m) =
  if decide (side = mo_side o ∧ p = mo_price o) then queue side p m ++ [id] else queue side p m.
Proof.
  unfold queue at 1. rewrite mock_add_queues. dcase as Es.
  - subst side. rewrite lookup_insert. repeat dcase; naive_solver.
  - rewrite decide_False; [done|naive_solver].
Qed.

Lemma mock_add_ok id o m : mock_ok m → mk_orders m !! id = None →
  0 ≤ mo_price o < MAX_TICKS → mock_ok (mock_add_order id o m).
Proof.
  intros Hok Hid Hp.
  assert (∀ side p, id ∉ queue side p m) as Hnew.
  { intros side p (o' & Ho' & _)%(mok_queue _ Hok). congruence. }
  constructor.
  - intros side p id'. rewrite mock_add_queue, mock_add_orders, lookup_insert. dcase as E.
    + destruct E as [-> ->]. rewrite elem_of_app, list_elem_of_singleton, (mok_queue _ Hok).
      case_decide; naive_solver.
    + rewrite (mok_queue _ Hok). case_decide; naive_solver.
  - intros side p. rewrite mock_add_queue. dcase; [|apply mok_nodup, Hok].
    apply NoDup_app. split_and!; [apply mok_nodup, Hok| |apply NoDup_singleton].
    intros x Hx ->%list_elem_of_singleton. by apply (Hnew side p).
  - intros side p. rewrite mock_add_queues. dcase; [|apply mok_nonempty, Hok].
    rewrite lookup_insert. case_decide; [|apply mok_nonempty, Hok].
    intros [= E]. by destruct (queue _ _ _).
  - intros id' o'. rewrite mock_add_orders, lookup_insert.
    case_decide; [intros [= <-]; done|apply mok_price, Hok].
Qed.

(** ** Cancellation *)

Lemma mock_cancel_orders id m : mk_orders (mock_cancel_order id m) = delete id (mk_orders m).
Proof.
  unfold mock_cancel_order. destruct (mk_orders m !! id) eqn:E; [done|]. by rewrite delete_id.
Qed.

Lemma mock_cancel_queue id m o side p : mock_ok m → mk_orders m !! id = Some o →
  queue side p (mock_cancel_order id m) = filter (λ x, x ≠ id) (queue side p m).
Proof.
  intros Hok Ho. unfold queue at 1, mock_cancel_order. rewrite Ho.
  rewrite queues_set_orders, queues_set. dcase as Es; subst.
  - set (l := filter _ (queue (mo_side o) (mo_price o) m)).
    assert (default [] (match l with
      | [] => delete (mo_price o) (queues (mo_side o) m)
      | _ => <[mo_price o := l]> (queues (mo_side o) m) end !! p) =
      if decide (mo_price o = p) then l else queue (mo_side o) p m) as ->.
    { unfold queue. destruct l; rewrite ?lookup_delete, ?lookup_insert; by dcase. }
    dcase as Ep; [by subst p|]. symmetry. apply filter_id.
    intros x Hx ->. apply (mok_queue _ Hok) in Hx as (o' & Ho' & _ & Hp). congruence.
  - symmetry. apply filter_id. intros x Hx ->.
    apply (mok_queue _ Hok) in Hx as (o' & Ho' & Hs & _). congruence.
Qed.

Lemma mock_cancel_dom id m o side : mock_ok m → mk_orders m !! id = Some o →
  dom (queues side (mock_cancel_order id m)) =
  if decide (side = mo_side o ∧ filter (λ x, x ≠ id) (queue side (mo_price o) m) = [])
  then dom (queues side m) ∖ {[mo_price o]} else dom (queues side m).
Proof.
  intros Hok Ho. unfold mock_cancel_order. rewrite Ho, queues_set_orders, queues_set.
  destruct (decide (side = mo_side o)) as [->|Es]; [|rewrite decide_False by tauto; done].
  destruct (filter _ _) as [|y l] eqn:E.
  - rewrite decide_True by done. by rewrite dom_delete_L.
  - rewrite decide_False by (intros [_ ?]; congruence). rewrite dom_insert_L.
    assert (mo_price o ∈ dom (queues (mo_side o) m)); [|set_solver].
    apply elem_of_dom. apply not_eq_None_Some. intros Hn.
    assert (id ∈ queue (mo_side o) (mo_price o) m) as Hin by (apply mok_queue; eauto).
    unfold queue in Hin. rewrite Hn in Hin. by apply elem_of_nil in Hin.
Qed.

Lemma mock_cancel_ok id m : mock_ok m → mock_ok (mock_cancel_order id m).
Proof.
  intros Hok. destruct (mk_orders m !! id) as [o|] eqn:Ho.
  2: { unfold mock_cancel_order. by rewrite Ho. }
  constructor.
  - intros side p id'. rewrite (mock_cancel_queue id m o) by done.
    rewrite mock_cancel_orders, list_elem_of_filter, (mok_queue _ Hok), lookup_delete.
    case_decide; naive_solver.
  - intros side p. rewrite (mock_cancel_queue id m o) by done.
    apply NoDup_filter, mok_nodup, Hok.
  - intros side p. unfold mock_cancel_order. rewrite Ho, queues_set_orders, queues_set.
    dcase; [|apply mok_nonempty, Hok].
    destruct (filter _ _) as [|y l]; rewrite ?lookup_delete, ?lookup_insert; case_decide; try done;
      subst; apply mok_nonempty, Hok.
  - intros id' o'. rewrite mock_cancel_orders. intros [_ H]%lookup_delete_Some.
    by eapply mok_price.
Qed.

(** ** Execution *)

(** Replacing the shares of a live order. *)
Definition with_shares (id n : Z) (o : MockOrder) (m : MockOrderBook) : MockOrderBook :=
  set_mock_orders (<[id := mkMockOrder n (mo_price o) (mo_side o)]> (mk_orders m)) m.

Lemma with_shares_ok id n o m : mock_ok m → mk_orders m !! id = Some o →
  mock_ok (with_shares id n o m).
Proof.
  intros Hok Ho. unfold with_shares. constructor.
  - intros side p id'. rewrite queue_set_orders, (mok_queue _ Hok). simpl.
    rewrite lookup_insert. case_decide; naive_solver.
  - intros side p. rewrite queue_set_orders. apply mok_nodup, Hok.
  - intros side p. rewrite queues_set_orders. apply mok_nonempty, Hok.
  - intros id' o'. simpl. rewrite lookup_insert. case_decide; [|by apply mok_price].
    intros [= <-]. simpl. by eapply mok_price.
Qed.

Lemma mock_execute_ok id n m : mock_ok m → mock_ok (mock_execute_order id n m).
Proof.
  intros Hok. unfold mock_execute_order. destruct (mk_orders m !! id) as [o|] eqn:Ho; [|done].
  pose proof (with_shares_ok id (mo_shares o - n) o m Hok Ho) as Hok'. simpl.
  destruct (_ =? 0); [by apply mock_cancel_ok|done].
Qed.

Lemma spec_add_ok max_orders p m : mock_ok m → 0 ≤ ao_price p →
  mk_orders m !! ao_order_reference_number p = None → mock_ok (spec_add_order max_orders p m).
Proof.
  intros Hok Hp Hid. unfold spec_add_order. repeat zcase; try done. by apply mock_add_ok.
Qed.

Lemma spec_execute_ok p m : mock_ok m → mock_ok (spec_execute_order p m).2.
Proof.
  intros Hok. unfold spec_execute_order. destruct (mk_orders m !! _); [|done].
  zcase; [done|]. by apply mock_execute_ok.
Qed.
