(* ===== verification/BookRefinement.v ===== *)
(** [book::LimitOrderBook] implements its contract.

    [book_rep] relates a concrete book to a reference book: the pool cells of
    the live orders, the doubly-linked list of each price level, the free
    list, the id map and the two bitsets represent the reference book's
    orders and queues.  Every operation preserves the relation, never touches
    memory outside the pool or the level arrays, and returns or throws as the
    contract says.  The proofs use the id map and the bitsets only through
    the interfaces. *)

From S2P Require Import Prelude Interfaces ItchOrderTypes LimitOrderBook LinkedPool MockOrderBook.

(** * Tagged indices *)

Definition tag (side : Side) (i : Z) : Z :=
  Z.lor (match side with Buy => 0 | Sell => Z.shiftl 1 31 end) i.

Lemma index_mask_ones : INDEX_MASK = Z.ones 31.
Proof. done. Qed.

Lemma tag_index side i : 0 ≤ i < 2 ^ 31 → Z.land (tag side i) INDEX_MASK = i.
Proof.
  intros Hi. unfold tag. rewrite index_mask_ones, Z.land_lor_distr_l.
  rewrite (Z.land_ones i), Z.mod_small by lia. by destruct side.
Qed.

Lemma land_side_mask i : 0 ≤ i < 2 ^ 31 → Z.land i SIDE_MASK = 0.
Proof.
  intros Hi. apply Z.bits_inj'. intros n Hn. rewrite Z.land_spec, Z.testbit_0_l.
  unfold SIDE_MASK. rewrite testbit_bit by lia. case_bool_decide; [|apply andb_false_r].
  subst n. by rewrite (testbit_above 31).
Qed.

Lemma tag_is_sell side i : 0 ≤ i < 2 ^ 31 →
  negb (Z.land (tag side i) SIDE_MASK =? 0) = match side with Buy => false | Sell => true end.
Proof.
  intros Hi. unfold tag. rewrite Z.land_lor_distr_l, (land_side_mask i) by done. by destruct side.
Qed.

(** * Running the accessors *)

Section Run.
Context {Map Idx : Type} `{!OrderMap Map} `{!PriceIndex Idx}.
Implicit Types (b : LimitOrderBook Map Idx) (side : Side).

Lemma load_order_run b i o : (pool_ b).[i] = Some o → load_order i b = (Ok o, b).
Proof. intros H. unfold load_order. munfold. by rewrite H. Qed.

Lemma update_order_run b i o f : (pool_ b).[i] = Some o →
  update_order i f b = (Ok tt, set_pool (aset (pool_ b) i (f o)) b).
Proof.
  intros H. pose proof (aget_Some_bounds _ _ _ H). unfold update_order. munfold.
  by rewrite H, aput_in.
Qed.

Lemma load_level_run b side p l : (levels side b).[p] = Some l →
  load_level side p b = (Ok l, b).
Proof. intros H. unfold load_level. munfold. by rewrite H. Qed.

Lemma update_level_run b side p l f : (levels side b).[p] = Some l →
  update_level side p f b = (Ok tt, set_levels side (aset (levels side b) p (f l)) b).
Proof.
  intros H. pose proof (aget_Some_bounds _ _ _ H). unfold update_level. munfold.
  by rewrite H, aput_in.
Qed.

Lemma levels_set_pool side a b : levels side (set_pool a b) = levels side b.
Proof. by destruct side. Qed.
Lemma levels_set_orders side m b : levels side (set_orders m b) = levels side b.
Proof. by destruct side. Qed.
Lemma levels_set_next_free side i b : levels side (set_next_free i b) = levels side b.
Proof. by destruct side. Qed.
Lemma levels_set_bitset side side' i b : levels side (set_bitset side' i b) = levels side b.
Proof. by destruct side, side'. Qed.
Lemma levels_set_levels side side' lv b :
  levels side (set_levels side' lv b) = if decide (side = side') then lv else levels side b.
Proof. by destruct side, side'. Qed.
Lemma pool_set_levels side lv b : pool_ (set_levels side lv b) = pool_ b.
Proof. by destruct side. Qed.
Lemma pool_set_bitset side i b : pool_ (set_bitset side i b) = pool_ b.
Proof. by destruct side. Qed.
Lemma orders_set_levels side lv b : orders_ (set_levels side lv b) = orders_ b.
Proof. by destruct side. Qed.
Lemma orders_set_bitset side i b : orders_ (set_bitset side i b) = orders_ b.
Proof. by destruct side. Qed.
Lemma next_free_set_levels side lv b : next_free_index_ (set_levels side lv b) = next_free_index_ b.
Proof. by destruct side. Qed.
Lemma next_free_set_bitset side i b : next_free_index_ (set_bitset side i b) = next_free_index_ b.
Proof. by destruct side. Qed.
Lemma bitset_set_pool side a b : bitset side (set_pool a b) = bitset side b.
Proof. by destruct side. Qed.
Lemma bitset_set_orders side m b : bitset side (set_orders m b) = bitset side b.
Proof. by destruct side. Qed.
Lemma bitset_set_next_free side i b : bitset side (set_next_free i b) = bitset side b.
Proof. by destruct side. Qed.
Lemma bitset_set_levels side side' lv b : bitset side (set_levels side' lv b) = bitset side b.
Proof. by destruct side, side'. Qed.
Lemma bitset_set_bitset side side' i b :
  bitset side (set_bitset side' i b) = if decide (side = side') then i else bitset side b.
Proof. by destruct side, side'. Qed.
Lemma set_levels_twice side lv lv' b :
  set_levels side lv (set_levels side lv' b) = set_levels side lv b.
Proof. by destruct side. Qed.
Lemma pool_set_pool a b : pool_ (set_pool a b) = a.
Proof. done. Qed.
Lemma pool_set_orders m b : pool_ (set_orders m b) = pool_ b.
Proof. done. Qed.
Lemma pool_set_next_free i b : pool_ (set_next_free i b) = pool_ b.
Proof. done. Qed.
Lemma orders_set_pool a b : orders_ (set_pool a b) = orders_ b.
Proof. done. Qed.
Lemma orders_set_orders m b : orders_ (set_orders m b) = m.
Proof. done. Qed.
Lemma orders_set_next_free i b : orders_ (set_next_free i b) = orders_ b.
Proof. done. Qed.
Lemma next_free_set_pool a b : next_free_index_ (set_pool a b) = next_free_index_ b.
Proof. done. Qed.
Lemma next_free_set_orders m b : next_free_index_ (set_orders m b) = next_free_index_ b.
Proof. done. Qed.
Lemma next_free_set_next_free i b : next_free_index_ (set_next_free i b) = i.
Proof. done. Qed.
Lemma set_pool_twice a a' b : set_pool a (set_pool a' b) = set_pool a b.
Proof. done. Qed.
Lemma set_pool_levels side a lv b :
  set_pool a (set_levels side lv b) = set_levels side lv (set_pool a b).
Proof. by destruct side. Qed.
End Run.

Create Rewrite HintDb book.
#[export] Hint Rewrite @levels_set_pool @levels_set_orders @levels_set_next_free
  @levels_set_bitset @levels_set_levels @pool_set_levels @pool_set_bitset
  @pool_set_pool @pool_set_orders @pool_set_next_free
  @orders_set_levels @orders_set_bitset @orders_set_pool @orders_set_orders @orders_set_next_free
  @next_free_set_levels @next_free_set_bitset @next_free_set_pool @next_free_set_orders
  @next_free_set_next_free
  @bitset_set_pool @bitset_set_orders @bitset_set_next_free @bitset_set_levels
  @bitset_set_bitset @set_levels_twice @set_pool_twice @set_pool_levels : book.

(** Simplify the accessors of an updated book. *)
Ltac bsimpl := autorewrite with book.
Tactic Notation "bsimpl" "in" hyp(H) := autorewrite with book in H.

(** * A price level under the two list operations *)

Section Levels.
Context {Map Idx : Type} `{!OrderMap Map} `{!PriceIndex Idx}.
Implicit Types (b : LimitOrderBook Map Idx) (side : Side).

(** [lv'] is [lv] with another level at [p]. *)
Definition level_changed (lv lv' : array PriceLevel) (p : Z) (pl : PriceLevel) : Prop :=
  alen lv' = alen lv ∧ lv'.[p] = Some pl ∧ ∀ q, q ≠ p → lv'.[q] = lv.[q].

Lemma level_changed_aset lv p pl pl' : lv.[p] = Some pl → level_changed lv (aset lv p pl') p pl'.
Proof.
  intros H. pose proof (aget_Some_bounds _ _ _ H). split_and!; [done|by apply aget_aset_eq|].
  intros q Hq. by apply aget_aset_ne.
Qed.

Lemma level_changed_refl lv p pl : lv.[p] = Some pl → level_changed lv lv p pl.
Proof. done. Qed.

Lemma level_changed_trans lv1 lv2 lv3 p pl2 pl3 :
  level_changed lv1 lv2 p pl2 → level_changed lv2 lv3 p pl3 → level_changed lv1 lv3 p pl3.
Proof.
  intros (L1 & _ & F1) (L2 & H2 & F2). split_and!; [congruence|done|].
  intros q Hq. by rewrite F2, F1.
Qed.

Lemma level_ok_frame a a' t pl l : relinked a a' t → (∀ x, x ∈ l → x ∉ t) →
  level_ok a pl l → level_ok a' pl l.
Proof.
  intros (_ & _ & F) Hd (H1 & H2 & H3). split_and!; try done.
  revert H3. apply dseg_ext. intros x Hx. apply F. by apply Hd.
Qed.

Lemma set_pool_id b : set_pool (pool_ b) b = b.
Proof. by destruct b. Qed.

(** Linking a cell whose links are null at the end of a level. *)
Lemma append_cell_run b side p f o2 pl l :
  (pool_ b).[f] = Some o2 → prev o2 = NULL_INDEX → next o2 = NULL_INDEX →
  (levels side b).[p] = Some pl → level_ok (pool_ b) pl l →
  NoDup l → f ∉ l → f ≠ NULL_INDEX → NULL_INDEX ∉ l →
  ∃ a' lv' pl',
    (price_level ← load_level side p;
     (if head price_level =? NULL_INDEX then update_level side p (set_head f) else mret tt);;
     price_level ← load_level side p;
     (if tail price_level =? NULL_INDEX then mret tt
      else update_order (tail price_level) (set_next f);;
           update_order f (set_prev (tail price_level)));;
     update_level side p (set_tail f)) b = (Ok tt, set_levels side lv' (set_pool a' b)) ∧
    relinked (pool_ b) a' (f :: l) ∧ level_changed (levels side b) lv' p pl' ∧
    level_ok a' pl' (l ++ [f]).
Proof.
  intros H2 Hpv Hnx Hpl Hlv Hnd Hf Hfn Hnull. pose proof (aget_Some_bounds _ _ _ H2) as Bf.
  mstep (load_level_run _ _ _ _ Hpl). pose proof Hlv as (Hh & Ht & Hd). rewrite Hh.
  destruct l as [|y l _] using rev_ind.
  - change (hdd NULL_INDEX []) with NULL_INDEX. rewrite Z.eqb_refl.
    mstep (update_level_run _ _ _ _ (set_head f) Hpl).
    set (lv1 := aset (levels side b) p (set_head f pl)).
    assert (level_changed (levels side b) lv1 p (set_head f pl)) as C1 by (by eapply level_changed_aset).
    assert ((levels side (set_levels side lv1 b)).[p] = Some (set_head f pl)) as Hpl3.
    { bsimpl. rewrite decide_True by done. apply C1. }
    mstep (load_level_run _ _ _ _ Hpl3). simpl tail. rewrite Ht.
    change (lastd NULL_INDEX []) with NULL_INDEX. rewrite Z.eqb_refl, bind_mret.
    rewrite (update_level_run _ _ _ _ (set_tail f) Hpl3). bsimpl. rewrite decide_True by done.
    exists (pool_ b), (aset lv1 p (set_tail f (set_head f pl))), (set_tail f (set_head f pl)).
    rewrite set_pool_id. split_and!; [done|by apply relinked_refl| |by eapply level_append_empty].
    eapply level_changed_trans; [exact C1|]. eapply level_changed_aset, C1.
  - assert (hdd NULL_INDEX (l ++ [y]) ≠ NULL_INDEX) as Hhn.
    { intros E. apply Hnull. rewrite <- E at 1. apply hdd_in. by destruct l. }
    rewrite (proj2 (Z.eqb_neq _ _) Hhn), bind_mret. mstep (load_level_run _ _ _ _ Hpl).
    rewrite Ht, lastd_app. change (lastd (lastd NULL_INDEX l) [y]) with y.
    assert (y ≠ NULL_INDEX) as Hyn by set_solver. rewrite (proj2 (Z.eqb_neq _ _) Hyn).
    destruct (dseg_cell _ _ _ _ y Hd) as [oy Hy]; [set_solver|].
    assert (f ≠ y) as Hfy by set_solver.
    rewrite bind_assoc. mstep (update_order_run b y oy (set_next f) Hy).
    assert ((aset (pool_ b) y (set_next f oy)).[f] = Some o2) as H3 by (by rewrite aget_aset_ne).
    mstep (update_order_run (set_pool (aset (pool_ b) y (set_next f oy)) b) f o2 (set_prev y) H3). bsimpl.
    set (a3 := aset (aset (pool_ b) y (set_next f oy)) f (set_prev y o2)).
    assert ((levels side (set_pool a3 b)).[p] = Some pl) as Hpl4 by (by bsimpl).
    rewrite (update_level_run _ _ _ _ (set_tail f) Hpl4). bsimpl.
    do 3 eexists. split_and!; [done| |by eapply level_changed_aset|].
    + eapply relinked_trans; eapply relinked_aset; eauto; set_solver.
    + eapply (level_append (pool_ b) pl l y f o2 oy); eauto.
Qed.

Lemma add_level_run b side p f o pl l :
  (pool_ b).[f] = Some o → (levels side b).[p] = Some pl → level_ok (pool_ b) pl l →
  NoDup l → f ∉ l → f ≠ NULL_INDEX → NULL_INDEX ∉ l →
  ∃ a' lv' pl', add_update_price_level side p f b = (Ok tt, set_levels side lv' (set_pool a' b)) ∧
    relinked (pool_ b) a' (f :: l) ∧ level_changed (levels side b) lv' p pl' ∧
    level_ok a' pl' (l ++ [f]).
Proof.
  intros Ho Hpl Hlv Hnd Hf Hfn Hnull. pose proof (aget_Some_bounds _ _ _ Ho) as Bf.
  unfold add_update_price_level.
  mstep (update_order_run b f o (set_prev NULL_INDEX) Ho).
  set (o1 := set_prev NULL_INDEX o).
  assert ((aset (pool_ b) f o1).[f] = Some o1) as H1 by (by apply aget_aset_eq).
  mstep (update_order_run (set_pool (aset (pool_ b) f o1) b) f o1 (set_next NULL_INDEX) H1).
  bsimpl. set (o2 := set_next NULL_INDEX o1). set (a2 := aset (aset (pool_ b) f o1) f o2).
  assert (relinked (pool_ b) a2 (f :: l)) as R2.
  { eapply relinked_trans; eapply relinked_aset; eauto; set_solver. }
  destruct (append_cell_run (set_pool a2 b) side p f o2 pl l) as (a' & lv' & pl' & Hrun & HR & HC & HL);
    bsimpl; try done.
  - by apply aget_aset_eq.
  - destruct Hlv as (Hh & Ht & Hd). split_and!; try done. revert Hd. apply dseg_ext.
    intros x Hx. unfold a2. rewrite !aget_aset_ne; [done|by intros ->..].
  - exists a', lv', pl'. bsimpl in Hrun. bsimpl in HC. bsimpl in HR. rewrite Hrun.
    split_and!; try done. by eapply relinked_trans.
Qed.

Lemma set_levels_id b side : set_levels side (levels side b) b = b.
Proof. by destruct b, side. Qed.

(** The two conditional updates at the start of [release_order_to_pool]. *)
Lemma join_prev_run b pv nx :
  (pv ≠ NULL_INDEX → is_Some ((pool_ b).[pv])) →
  (if pv =? NULL_INDEX then mret tt else update_order pv (set_next nx)) b =
  (Ok tt, set_pool (if pv =? NULL_INDEX then pool_ b
                    else match (pool_ b).[pv] with
                         | Some o => aset (pool_ b) pv (set_next nx o) | None => pool_ b end) b).
Proof.
  intros H. zcase; [by rewrite set_pool_id|]. destruct (H n) as [o Ho].
  by rewrite (update_order_run _ _ _ _ Ho), Ho.
Qed.

Lemma join_next_run b pv nx :
  (nx ≠ NULL_INDEX → is_Some ((pool_ b).[nx])) →
  (if nx =? NULL_INDEX then mret tt else update_order nx (set_prev pv)) b =
  (Ok tt, set_pool (if nx =? NULL_INDEX then pool_ b
                    else match (pool_ b).[nx] with
                         | Some o => aset (pool_ b) nx (set_prev pv o) | None => pool_ b end) b).
Proof.
  intros H. zcase; [by rewrite set_pool_id|]. destruct (H n) as [o Ho].
  by rewrite (update_order_run _ _ _ _ Ho), Ho.
Qed.

(** [execute_update_price_level] moves the ends of a level past a removed
    cell. *)
Lemma execute_level_run b side p f o pl l1 l2 :
  (pool_ b).[f] = Some o → prev o = lastd NULL_INDEX l1 → next o = hdd NULL_INDEX l2 →
  (levels side b).[p] = Some pl →
  head pl = hdd NULL_INDEX (l1 ++ f :: l2) → tail pl = lastd NULL_INDEX (l1 ++ f :: l2) →
  NoDup (l1 ++ f :: l2) →
  ∃ lv' pl', execute_update_price_level side p f b = (Ok tt, set_levels side lv' b) ∧
    level_changed (levels side b) lv' p pl' ∧
    head pl' = hdd NULL_INDEX (l1 ++ l2) ∧ tail pl' = lastd NULL_INDEX (l1 ++ l2).
Proof.
  intros Ho Hp Hn Hpl Hh Ht Hnd. apply NoDup_app in Hnd as (_ & Hd & [Hf _]%NoDup_cons).
  unfold execute_update_price_level. mstep (load_level_run _ _ _ _ Hpl).
  assert (∃ lv1 pl1, (if head pl =? f
      then order ← load_order f; update_level side p (set_head (next order)) else mret tt) b =
      (Ok tt, set_levels side lv1 b) ∧ level_changed (levels side b) lv1 p pl1 ∧
      head pl1 = hdd NULL_INDEX (l1 ++ l2) ∧ tail pl1 = tail pl)
    as (lv1 & pl1 & Hrun1 & C1 & Hh1 & Ht1).
  { rewrite Hh. destruct l1 as [|x l1]; unfold hdd; simpl.
    - rewrite Z.eqb_refl. mstep (load_order_run _ _ _ Ho).
      rewrite (update_level_run _ _ _ _ _ Hpl). do 2 eexists.
      split_and!; [done|by eapply level_changed_aset|done|done].
    - rewrite (proj2 (Z.eqb_neq x f)). 2: { intros ->. apply (Hd f); left. }
      exists (levels side b), pl. rewrite set_levels_id. by split_and!. }
  mstep Hrun1.
  assert ((levels side (set_levels side lv1 b)).[p] = Some pl1) as Hpl1.
  { bsimpl. rewrite decide_True by done. apply C1. }
  mstep (load_level_run _ _ _ _ Hpl1). rewrite Ht1, Ht, lastd_app, lastd_cons.
  destruct l2 as [|y l2 _] using rev_ind.
  - change (lastd f []) with f. rewrite Z.eqb_refl.
    assert ((pool_ (set_levels side lv1 b)).[f] = Some o) as Ho1 by (by bsimpl).
    mstep (load_order_run _ _ _ Ho1). rewrite (update_level_run _ _ _ _ _ Hpl1). bsimpl.
    rewrite decide_True by done. exists (aset lv1 p (set_tail (prev o) pl1)), (set_tail (prev o) pl1).
    split_and!; [done| |done|].
    + eapply level_changed_trans; [exact C1|]. eapply level_changed_aset, C1.
    + simpl. by rewrite app_nil_r.
  - rewrite lastd_app. change (lastd (lastd f l2) [y]) with y.
    rewrite (proj2 (Z.eqb_neq y f)). 2: { intros ->. apply Hf. set_solver. }
    exists lv1, pl1. split_and!; try done.
    rewrite Ht1, Ht, !lastd_app, lastd_cons. by rewrite lastd_app.
Qed.
End Levels.

(** * The initial pool *)

Lemma link_pool_spec n i (a : array Order) : 1 ≤ i → i - 1 + Z.of_nat n ≤ alen a →
  ∃ a', link_pool n i a = Some a' ∧ alen a' = alen a ∧
    ∀ j, a'.[j] = if decide (i - 1 ≤ j < i - 1 + Z.of_nat n)
                  then set_next (u32 (j + 1)) <$> a.[j] else a.[j].
Proof.
  revert i a. induction n as [|n IH]; intros i a Hi Hn; cbn [link_pool].
  - exists a. split_and!; try done. intros j. dcase; [lia|done].
  - destruct (aget_in a (i - 1)) as [o Ho]; [lia|]. rewrite Ho, aput_in by lia.
    destruct (IH (i + 1) (aset a (i - 1) (set_next (u32 i) o))) as (a' & Hrun & Hlen & Hget);
      [lia|rewrite alen_aset; lia|].
    exists a'. split_and!; [done..|]. intros j. rewrite Hget, aget_aset by lia.
    repeat dcase; try lia; try done. subst j. rewrite Ho. simpl. do 3 f_equal. lia.
Qed.

Lemma sseg_seqZ (a : array Order) n k :
  (∀ j, k ≤ j < k + Z.of_nat n → ∃ o, a.[j] = Some o ∧
     next o = if decide (j + 1 = k + Z.of_nat n) then NULL_INDEX else j + 1) →
  sseg a (seqZ k (Z.of_nat n)) NULL_INDEX.
Proof.
  revert k. induction n as [|n IH]; intros k H; [done|].
  rewrite seqZ_cons by lia. replace (Z.pred (Z.of_nat (S n))) with (Z.of_nat n) by lia.
  split.
  - destruct (H k) as (o & Ho & Hn); [lia|]. exists o. split; [done|]. rewrite Hn. dcase.
    + assert (n = 0%nat) as -> by lia. done.
    + rewrite seqZ_cons by lia. unfold hdd. simpl. lia.
  - apply IH. intros j Hj. destruct (H j) as (o & Ho & Hn); [lia|]. exists o. split; [done|].
    rewrite Hn. repeat dcase; lia || done.
Qed.

Lemma pool_bytes_exact n : 0 < n ≤ 2 ^ 31 → (u64 (n * sizeof_Order) <? n * sizeof_Order) = false.
Proof.
  intros Hn. apply Z.ltb_ge. unfold u64, uwrap, sizeof_Order. rewrite Z.mod_small by lia. done.
Qed.

Lemma new_pool max_orders : 0 < max_orders ≤ 2 ^ 31 →
  ∃ a a' o, link_pool (Z.to_nat (max_orders - 1)) 1 (anew max_orders zero_order) = Some a ∧
    a.[max_orders - 1] = Some o ∧ aput a (max_orders - 1) (set_next NULL_INDEX o) = Some a' ∧
    alen a' = max_orders ∧ sseg a' (seqZ 0 max_orders) NULL_INDEX.
Proof.
  intros Hmax.
  destruct (link_pool_spec (Z.to_nat (max_orders - 1)) 1 (anew max_orders zero_order))
    as (a & Hrun & Hlen & Hget); [lia|simpl; lia|]. simpl in Hlen.
  destruct (aget_in a (max_orders - 1)) as [o Ho]; [lia|].
  exists a, (aset a (max_orders - 1) (set_next NULL_INDEX o)), o.
  split_and!; try done; [apply aput_in; lia|].
  rewrite <- (Z2Nat.id max_orders) at 2 by lia. apply sseg_seqZ. intros j Hj.
  rewrite aget_aset by lia. dcase as E.
  - exists (set_next NULL_INDEX o). split; [done|]. by rewrite decide_True by lia.
  - rewrite Hget, decide_True, aget_anew by lia. eexists. split; [done|].
    rewrite decide_False by lia. simpl. apply uwrap_id. unfold in_range. lia.
Qed.

(** * The refinement relation *)

Section Refinement.
Context {Map Idx : Type} `{!OrderMap Map} `{!PriceIndex Idx}.
Context (omrep : Map → gmap Z Z → Prop) (idxrep : Idx → gset Z → Prop).
Context (capacity : Z) (full : exn).
Context `{!OrderMapLaws Map capacity full omrep} `{!PriceIndexLaws Idx MAX_TICKS idxrep}.
Context (max_orders : Z).
Implicit Types (b : LimitOrderBook Map Idx) (m : MockOrderBook) (side : Side).

(** The pool cell of a live order. *)
Definition ix (loc : gmap Z Z) (id : Z) : Z := default NULL_INDEX (loc !! id).

(** [loc] places the live orders in the pool, apart from each other and from
    the free list [free]; together they are the whole pool. *)
Record placed (orders : gmap Z MockOrder) (loc : gmap Z Z) (free : list Z) : Prop := {
  p_loc : ∀ id, is_Some (loc !! id) ↔ is_Some (orders !! id);
  p_loc_inj : ∀ id id' i, loc !! id = Some i → loc !! id' = Some i → id = id';
  p_loc_range : ∀ id i, loc !! id = Some i → 0 ≤ i < max_orders;
  p_free_nodup : NoDup free;
  p_free_range : ∀ i, i ∈ free → 0 ≤ i < max_orders ∧ ∀ id, loc !! id ≠ Some i;
  p_count : Z.of_nat (size orders) + Z.of_nat (length free) = max_orders
}.

(** [K] is the content of the id map. *)
Record book_rep_at b m (loc : gmap Z Z) (free : list Z) (K : gmap Z Z) : Prop := {
  br_max : 0 < max_orders ≤ 2 ^ 31 ∧ max_orders ≤ capacity;
  br_mock : mock_ok m;
  br_pool_len : alen (pool_ b) = max_orders;
  br_levels_len : ∀ side, alen (levels side b) = MAX_TICKS;
  br_map : omrep (orders_ b) K;
  br_ids : ∀ id, K !! id = (λ o, tag (mo_side o) (ix loc id)) <$> mk_orders m !! id;
  br_cell : ∀ id o, mk_orders m !! id = Some o →
    data (pool_ b) (ix loc id) = Some (id, mo_shares o, mo_price o);
  br_level : ∀ side p, 0 ≤ p < MAX_TICKS → ∃ pl, (levels side b).[p] = Some pl ∧
    level_ok (pool_ b) pl (ix loc <$> queue side p m);
  br_bitset : ∀ side, idxrep (bitset side b) (dom (queues side m));
  br_free : sseg (pool_ b) free NULL_INDEX;
  br_free_head : next_free_index_ b = hdd NULL_INDEX free;
  br_placed : placed (mk_orders m) loc free
}.

Definition book_rep b m : Prop := ∃ loc free K, book_rep_at b m loc free K.

(** ** Changing the placement *)

Lemma placed_add orders loc f fr id o : placed orders loc (f :: fr) → orders !! id = None →
  placed (<[id := o]> orders) (<[id := f]> loc) fr.
Proof.
  intros P Hid. assert (f ∈ f :: fr) as Hf by left.
  destruct (p_free_range _ _ _ P f Hf) as [Hfr Hfl].
  pose proof (p_free_nodup _ _ _ P) as [Hffr Hnd]%NoDup_cons.
  constructor.
  - intros id'. rewrite !lookup_insert. dcase; [done|apply P].
  - intros id1 id2 i. rewrite !lookup_insert.
    repeat dcase; intros; simplify_eq; try done; try (by exfalso; eapply Hfl).
    eapply p_loc_inj; eauto.
  - intros id' i. rewrite lookup_insert. dcase; [|eapply p_loc_range; eauto]. by intros [= <-].
  - done.
  - intros i Hi. destruct (p_free_range _ _ _ P i) as [H1 H2]; [by right|]. split; [done|].
    intros id'. rewrite lookup_insert. dcase; [|done]. intros [= ->]. done.
  - rewrite map_size_insert_None by done. pose proof (p_count _ _ _ P). simpl in *. lia.
Qed.

Lemma placed_delete orders loc free id o f : placed orders loc free → orders !! id = Some o →
  loc !! id = Some f → placed (delete id orders) (delete id loc) (f :: free).
Proof.
  intros P Ho Hf. constructor.
  - intros id'. rewrite !lookup_delete. dcase; [|apply P]. split; by intros [].
  - intros id1 id2 i. rewrite !lookup_delete. repeat dcase; try done. apply P.
  - intros id' i. rewrite lookup_delete. dcase; [done|]. apply P.
  - apply NoDup_cons. split; [|apply P]. intros Hin.
    by destruct (p_free_range _ _ _ P f Hin) as [_ H]; apply (H id).
  - intros i [->|Hi]%elem_of_cons.
    + split; [by eapply p_loc_range|]. intros id' [Hne Hl']%lookup_delete_Some.
      apply Hne. by eapply p_loc_inj.
    + destruct (p_free_range _ _ _ P i Hi) as [H1 H2]. split; [done|].
      intros id' [_ H]%lookup_delete_Some. by apply (H2 id').
  - pose proof (p_count _ _ _ P). rewrite map_size_delete_Some by eauto.
    assert (size orders ≠ 0%nat); [|simpl; lia].
    intros E. apply map_size_empty_inv in E. rewrite E in Ho. by rewrite lookup_empty in Ho.
Qed.

Lemma placed_update orders loc free id o o' : placed orders loc free → orders !! id = Some o →
  placed (<[id := o']> orders) loc free.
Proof.
  intros P Ho. constructor; try apply P.
  - intros id'. rewrite lookup_insert. dcase as E; [|apply P]. subst id'.
    rewrite (p_loc _ _ _ P), Ho. split; eauto.
  - rewrite map_size_insert_Some by eauto. apply P.
Qed.

(** ** Facts about the placement *)

Section Facts.
Context {b m loc free K} (R : book_rep_at b m loc free K).

Lemma live_loc id o : mk_orders m !! id = Some o → loc !! id = Some (ix loc id).
Proof using R.
  intros Ho. destruct (proj2 (p_loc _ _ _ (br_placed _ _ _ _ _ R) id)) as [i Hi]; [eauto|].
  unfold ix. by rewrite Hi.
Qed.

Lemma live_range id o : mk_orders m !! id = Some o → 0 ≤ ix loc id < max_orders.
Proof using R. intros Ho. eapply p_loc_range; [apply R|]. by eapply live_loc. Qed.

Lemma live_not_null id o : mk_orders m !! id = Some o → ix loc id ≠ NULL_INDEX.
Proof using R.
  intros Ho E. pose proof (live_range id o Ho). destruct (br_max _ _ _ _ _ R).
  unfold NULL_INDEX in E. lia.
Qed.

Lemma ix_inj id id' o o' : mk_orders m !! id = Some o → mk_orders m !! id' = Some o' →
  ix loc id = ix loc id' → id = id'.
Proof using R.
  intros Ho Ho' E. eapply p_loc_inj; [apply R|by eapply live_loc|].
  rewrite E. by eapply live_loc.
Qed.

Lemma queue_live side p id : id ∈ queue side p m →
  ∃ o, mk_orders m !! id = Some o ∧ mo_side o = side ∧ mo_price o = p.
Proof using R. intros H. by apply (mok_queue _ (br_mock _ _ _ _ _ R)). Qed.

Lemma queue_ix_elem side p x : x ∈ ix loc <$> queue side p m →
  ∃ id o, x = ix loc id ∧ mk_orders m !! id = Some o ∧ mo_side o = side ∧ mo_price o = p.
Proof using R.
  intros (id & -> & Hid)%list_elem_of_fmap. destruct (queue_live _ _ _ Hid) as (o & ?). eauto.
Qed.

Lemma queue_ix_nodup side p : NoDup (ix loc <$> queue side p m).
Proof using R.
  apply NoDup_fmap_2_strong; [|apply mok_nodup, (br_mock _ _ _ _ _ R)].
  intros x y Hx Hy. destruct (queue_live _ _ _ Hx) as (o & Ho & _).
  destruct (queue_live _ _ _ Hy) as (o' & Ho' & _). by eapply ix_inj.
Qed.

Lemma queue_ix_null side p : NULL_INDEX ∉ ix loc <$> queue side p m.
Proof using R.
  intros (id & o & E & Ho & _)%queue_ix_elem. by apply (live_not_null id o Ho).
Qed.

Lemma queue_ix_disjoint side p side' p' x :
  x ∈ ix loc <$> queue side p m → x ∈ ix loc <$> queue side' p' m → side = side' ∧ p = p'.
Proof using R.
  intros (id & o & -> & Ho & <- & <-)%queue_ix_elem (id' & o' & E & Ho' & <- & <-)%queue_ix_elem.
  assert (id = id') as <- by (by eapply ix_inj). assert (o = o') as <- by congruence. done.
Qed.

Lemma free_not_queue side p x : x ∈ free → x ∉ ix loc <$> queue side p m.
Proof using R.
  intros Hx (id & o & -> & Ho & _)%queue_ix_elem.
  destruct (p_free_range _ _ _ (br_placed _ _ _ _ _ R) _ Hx) as [_ H]. apply (H id). by eapply live_loc.
Qed.

Lemma free_not_null x : x ∈ free → x ≠ NULL_INDEX.
Proof using R.
  intros Hx ->. destruct (p_free_range _ _ _ (br_placed _ _ _ _ _ R) _ Hx) as [H _].
  destruct (br_max _ _ _ _ _ R). unfold NULL_INDEX in H. lia.
Qed.

Lemma ids_size : size K = size (mk_orders m).
Proof using R.
  rewrite <- !size_dom. f_equal. apply set_eq. intros id. rewrite !elem_of_dom.
  by rewrite (br_ids _ _ _ _ _ R), fmap_is_Some.
Qed.

Lemma live_cell id o : mk_orders m !! id = Some o → ∃ c, (pool_ b).[ix loc id] = Some c ∧
  order_reference_number c = id ∧ shares c = mo_shares o ∧ price c = mo_price o.
Proof using R.
  intros Ho. pose proof (br_cell _ _ _ _ _ R id o Ho) as D. unfold data in D.
  destruct ((pool_ b).[ix loc id]) as [c|]; [|done]. simpl in D. simplify_eq. eauto 10.
Qed.
End Facts.

Lemma ix_insert_ne loc id f id' : id' ≠ id → ix (<[id := f]> loc) id' = ix loc id'.
Proof. intros H. unfold ix. by rewrite lookup_insert_ne. Qed.

Lemma ix_insert_eq loc id f : ix (<[id := f]> loc) id = f.
Proof. unfold ix. by rewrite lookup_insert_eq. Qed.

Lemma ix_fmap_insert loc id f (l : list Z) : id ∉ l → ix (<[id := f]> loc) <$> l = ix loc <$> l.
Proof.
  intros H. apply list_fmap_ext. intros i x Hx. apply ix_insert_ne. intros ->.
  apply H. by eapply list_elem_of_lookup_2.
Qed.

Lemma ix_delete_ne loc id id' : id' ≠ id → ix (delete id loc) id' = ix loc id'.
Proof. intros H. unfold ix. by rewrite lookup_delete_ne. Qed.

Lemma ix_fmap_delete loc id (l : list Z) : id ∉ l → ix (delete id loc) <$> l = ix loc <$> l.
Proof.
  intros H. apply list_fmap_ext. intros i x Hx. apply ix_delete_ne. intros ->.
  apply H. by eapply list_elem_of_lookup_2.
Qed.

(** ** Addition *)

(** The book after an addition to the cell [f], as the steps of
    [add_order_impl] build it. *)
Lemma add_order_impl_run b m loc f fr K side p :
  book_rep_at b m loc (f :: fr) K → 0 ≤ ao_price p < MAX_TICKS →
  let id := ao_order_reference_number p in
  let l := ix loc <$> queue side (ao_price p) m in
  mk_orders m !! id = None →
  ∃ o0 a' lv' pl' t' i',
    (pool_ b).[f] = Some o0 ∧
    add_order_impl side p b =
      (Ok tt, set_bitset side i' (set_levels side lv' (set_pool a'
                (set_orders t' (set_next_free (hdd NULL_INDEX fr) b))))) ∧
    relinked (aset (pool_ b) f (set_parsed p o0)) a' (f :: l) ∧
    level_changed (levels side b) lv' (ao_price p) pl' ∧ level_ok a' pl' (l ++ [f]) ∧
    omrep t' (<[id := tag side f]> K) ∧
    idxrep i' ({[ao_price p]} ∪ dom (queues side m)).
Proof.
  intros R Hp id l Hid. pose proof (br_free _ _ _ _ _ R) as [(o0 & Ho0 & Hn0) _].
  assert (f ∈ f :: fr) as Hf by left.
  pose proof (aget_Some_bounds _ _ _ Ho0) as Bf.
  assert (f ∉ l) as Hfl by (by eapply free_not_queue).
  destruct (br_level _ _ _ _ _ R side _ Hp) as (pl & Hpl & Hlv). fold l in Hlv.
  destruct (om_assign_spec (orders_ b) K id (tag side f) (br_map _ _ _ _ _ R)) as (t' & Hasg & Ht').
  { right. rewrite (ids_size R). pose proof (p_count _ _ _ (br_placed _ _ _ _ _ R)). simpl in *.
    destruct (br_max _ _ _ _ _ R). lia. }
  destruct (idx_set_spec (bitset side b) _ (ao_price p) (br_bitset _ _ _ _ _ R side) Hp)
    as (i' & Hset & Hi').
  set (a1 := aset (pool_ b) f (set_parsed p o0)).
  assert (a1.[f] = Some (set_parsed p o0)) as H1 by (by apply aget_aset_eq).
  set (b3 := set_orders t' (set_pool a1 (set_next_free (hdd NULL_INDEX fr) b))).
  destruct (add_level_run b3 side (ao_price p) f (set_parsed p o0) pl l)
    as (a' & lv' & pl' & Hrun & HR & HC & HL).
  { done. } { unfold b3. by bsimpl. }
  { destruct Hlv as (Hh & Ht & Hd). split_and!; try done. unfold b3. bsimpl. revert Hd.
    apply dseg_ext. intros x Hx. apply aget_aset_ne. by intros ->. }
  { apply (queue_ix_nodup R). } { done. } { by apply (free_not_null R). }
  { apply (queue_ix_null R). }
  exists o0, a', lv', pl', t', i'. unfold b3 in *. bsimpl in HR. bsimpl in HC.
  split_and!; try done.
  unfold add_order_impl. rewrite bind_gets, (br_free_head _ _ _ _ _ R).
  change (hdd NULL_INDEX (f :: fr)) with f. mstep (load_order_run _ _ _ Ho0).
  rewrite bind_modify, Hn0.
  mstep (update_order_run (set_next_free (hdd NULL_INDEX fr) b) f o0 (set_parsed p) Ho0). bsimpl.
  mstep (load_order_run (set_pool a1 (set_next_free (hdd NULL_INDEX fr) b)) f _ H1).
  cbn [order_reference_number price set_parsed].
  mstep (zoom_eq orders_ set_orders (om_assign id (tag side f))
           (set_pool a1 (set_next_free (hdd NULL_INDEX fr) b)) _ _ Hasg).
  mstep Hrun. unfold on_bitset. erewrite zoom_eq; [done|]. bsimpl. exact Hset.
Qed.

(** The cells the addition does not touch. *)
Lemma add_untouched b m loc f fr K side p o0 a' l x :
  book_rep_at b m loc (f :: fr) K →
  relinked (aset (pool_ b) f (set_parsed p o0)) a' (f :: l) →
  x ≠ f → x ∉ l → a'.[x] = (pool_ b).[x].
Proof.
  intros R (_ & _ & F) Hf Hl. rewrite F by set_solver. apply aget_aset_ne. congruence.
Qed.

(** The price levels after an addition. *)
Lemma add_levels b m loc f fr K side p o0 a' lv' pl' s q :
  book_rep_at b m loc (f :: fr) K → 0 ≤ q < MAX_TICKS →
  let id := ao_order_reference_number p in
  let l := ix loc <$> queue side (ao_price p) m in
  mk_orders m !! id = None →
  relinked (aset (pool_ b) f (set_parsed p o0)) a' (f :: l) →
  level_changed (levels side b) lv' (ao_price p) pl' → level_ok a' pl' (l ++ [f]) →
  ∃ pl, (if decide (s = side) then lv' else levels s b).[q] = Some pl ∧
    level_ok a' pl (ix (<[id := f]> loc) <$>
      queue s q (mock_add_order id (mkMockOrder (ao_shares p) (ao_price p) side) m)).
Proof.
  intros R Hq id l Hid HR HC HL.
  assert (∀ s q, id ∉ queue s q m) as Hnq.
  { intros s' q' (o & Ho & _)%(queue_live R). congruence. }
  rewrite mock_add_queue. cbn [mo_side mo_price].
  destruct (decide (s = side ∧ q = ao_price p)) as [[-> ->]|Hne].
  - rewrite decide_True by done. exists pl'. split; [apply HC|].
    rewrite fmap_app, ix_fmap_insert by done. simpl. rewrite ix_insert_eq. done.
  - destruct (br_level _ _ _ _ _ R s q Hq) as (pl & Hpl & Hlv). exists pl. split.
    + dcase; [|done]. subst s. destruct HC as (_ & _ & F). rewrite F; [done|]. naive_solver.
    + rewrite ix_fmap_insert by done. destruct Hlv as (Hh & Ht & Hd). split_and!; try done.
      revert Hd. apply dseg_ext. intros x Hx. eapply add_untouched; eauto.
      * intros ->. eapply (free_not_queue R); [left|done].
      * intros Hxl. destruct (queue_ix_disjoint R _ _ _ _ _ Hx Hxl). naive_solver.
Qed.

Lemma add_order_impl_rep b m loc f fr K side p :
  book_rep_at b m loc (f :: fr) K → 0 ≤ ao_price p < MAX_TICKS →
  mk_orders m !! ao_order_reference_number p = None →
  ∃ b', add_order_impl side p b = (Ok tt, b') ∧
    book_rep b' (mock_add_order (ao_order_reference_number p)
                   (mkMockOrder (ao_shares p) (ao_price p) side) m).
Proof.
  intros R Hp Hid.
  destruct (add_order_impl_run b m loc f fr K side p R Hp Hid)
    as (o0 & a' & lv' & pl' & t' & i' & Ho0 & Hrun & HR & HC & HL & Ht' & Hi').
  set (id := ao_order_reference_number p) in *.
  pose proof (aget_Some_bounds _ _ _ Ho0) as Bf.
  pose proof (br_placed _ _ _ _ _ R) as P.
  pose proof (placed_add _ _ _ _ id (mkMockOrder (ao_shares p) (ao_price p) side) P Hid) as P'.
  assert (∀ id' o, mk_orders m !! id' = Some o → ix loc id' ≠ f) as Hplace.
  { intros id' o Ho E. destruct (p_free_range _ _ _ P f ltac:(left)) as [_ H].
    apply (H id'). rewrite <- E. by eapply (live_loc R). }
  eexists. split; [exact Hrun|]. exists (<[id := f]> loc), fr, (<[id := tag side f]> K).
  constructor; bsimpl; try apply R; try done.
  - apply mock_add_ok; [apply R|done..].
  - destruct HR as (HR & _). rewrite HR, alen_aset. apply R.
  - intros s. bsimpl. dcase; [|apply R]. subst. destruct HC as (HC & _). rewrite HC. apply R.
  - intros id'. rewrite mock_add_orders, !lookup_insert. dcase as E.
    + subst id'. simpl. by rewrite ix_insert_eq.
    + rewrite ix_insert_ne by done. apply R.
  - intros id' o. destruct HR as (_ & HD & _). rewrite mock_add_orders, lookup_insert. dcase as E.
    + intros [= <-]. subst id'. rewrite ix_insert_eq, HD. unfold data. by rewrite aget_aset_eq.
    + intros Ho. rewrite ix_insert_ne by done. rewrite HD. unfold data.
      rewrite aget_aset_ne by (symmetry; by eapply Hplace). by apply R.
  - intros s q Hq. bsimpl. by eapply add_levels.
  - intros s. bsimpl. rewrite mock_add_queues. cbn [mo_side mo_price].
    destruct (decide (s = side)) as [->|]; [|apply R]. by rewrite dom_insert_L.
  - pose proof (br_free _ _ _ _ _ R) as [_ Hs]. revert Hs. apply sseg_ext. intros x Hx.
    pose proof (p_free_nodup _ _ _ P) as [Hffr _]%NoDup_cons.
    eapply add_untouched; eauto; [by intros ->|]. eapply (free_not_queue R). by right.
  - by rewrite mock_add_orders.
Qed.

Lemma free_empty_iff b m loc free K : book_rep_at b m loc free K →
  next_free_index_ b = NULL_INDEX ↔ max_orders ≤ Z.of_nat (size (mk_orders m)).
Proof.
  intros R. rewrite (br_free_head _ _ _ _ _ R). pose proof (p_count _ _ _ (br_placed _ _ _ _ _ R)) as Hc.
  destruct free as [|f fr]; simpl in *; [split; [lia|done]|]. split; [|lia].
  intros E. exfalso. eapply (free_not_null R f); [left|done].
Qed.

Lemma add_order_rep b m p :
  book_rep b m → 0 ≤ ao_price p → mk_orders m !! ao_order_reference_number p = None →
  ∃ b', add_order p b = (Ok tt, b') ∧ book_rep b' (spec_add_order max_orders p m).
Proof.
  intros (loc & free & K & R) Hp Hid. unfold add_order, spec_add_order.
  assert (book_rep b m) as Hrep by (by exists loc, free, K).
  zcase as Ep; [by exists b|]. rewrite bind_gets.
  pose proof (free_empty_iff _ _ _ _ _ R) as Hfree.
  destruct (Z.eqb_spec (next_free_index_ b) NULL_INDEX) as [E|E]; zcase as Ec;
    try (exfalso; tauto || lia).
  { by exists b. }
  destruct free as [|f fr].
  { by rewrite (br_free_head _ _ _ _ _ R) in E. }
  unfold side_of_indicator. destruct (ao_indicator p =? char_B); by eapply add_order_impl_rep.
Qed.

(** ** Removal *)

Lemma queue_split b m loc free K id o : book_rep_at b m loc free K →
  mk_orders m !! id = Some o →
  ∃ q1 q2, queue (mo_side o) (mo_price o) m = q1 ++ id :: q2 ∧
           filter (λ x, x ≠ id) (queue (mo_side o) (mo_price o) m) = q1 ++ q2.
Proof.
  intros R Ho. pose proof (br_mock _ _ _ _ _ R) as Hok.
  assert (id ∈ queue (mo_side o) (mo_price o) m) as Hin by (apply (mok_queue _ Hok); eauto).
  apply list_elem_of_split in Hin as (q1 & q2 & E). exists q1, q2. split; [done|].
  pose proof (mok_nodup _ Hok (mo_side o) (mo_price o)) as Hnd. rewrite E in Hnd |- *.
  apply NoDup_app in Hnd as (_ & H1 & [H2 _]%NoDup_cons).
  rewrite filter_app, filter_cons_False by tauto.
  rewrite !filter_id; [done|..].
  - intros x Hx ->. done.
  - intros x Hx ->. apply (H1 id Hx). left.
Qed.

(** The first half of [release_order_to_pool]: joining the neighbours and
    moving the ends of the level. *)
Lemma unlink_run b m loc free K id o q1 q2 c :
  book_rep_at b m loc free K → mk_orders m !! id = Some o →
  queue (mo_side o) (mo_price o) m = q1 ++ id :: q2 →
  (pool_ b).[ix loc id] = Some c →
  let f := ix loc id in
  let l1 := ix loc <$> q1 in let l2 := ix loc <$> q2 in
  ∃ pl, level_ok (pool_ b) pl (l1 ++ f :: l2) ∧
    (levels (mo_side o) b).[mo_price o] = Some pl ∧
    NoDup (l1 ++ f :: l2) ∧ (NULL_INDEX ∉ l1 ++ f :: l2) ∧
    prev c = lastd NULL_INDEX l1 ∧ next c = hdd NULL_INDEX l2.
Proof.
  intros R Ho Hq Hc f l1 l2. pose proof (mok_price _ (br_mock _ _ _ _ _ R) _ _ Ho) as Hp.
  destruct (br_level _ _ _ _ _ R (mo_side o) _ Hp) as (pl & Hpl & Hlv).
  pose proof (queue_ix_nodup R (mo_side o) (mo_price o)) as Hnd.
  pose proof (queue_ix_null R (mo_side o) (mo_price o)) as Hnull.
  rewrite Hq, fmap_app, fmap_cons in Hlv, Hnd, Hnull.
  destruct (level_cell _ _ _ _ _ Hlv) as (c' & Hc' & Hpv & Hnx).
  assert (c' = c) as -> by (unfold f in *; congruence). exists pl. done.
Qed.

(** The two updates that join the neighbours of a cell of a level. *)
Lemma join_run b l1 f l2 c (k : M (LimitOrderBook Map Idx) unit) :
  dseg (pool_ b) NULL_INDEX (l1 ++ f :: l2) NULL_INDEX → NoDup (l1 ++ f :: l2) →
  (pool_ b).[f] = Some c → prev c = lastd NULL_INDEX l1 → next c = hdd NULL_INDEX l2 →
  (order ← load_order f;
   (if prev order =? NULL_INDEX then mret tt else update_order (prev order) (set_next (next order)));;
   order ← load_order f;
   (if next order =? NULL_INDEX then mret tt else update_order (next order) (set_prev (prev order)));;
   k) b = k (set_pool (joined (pool_ b) (lastd NULL_INDEX l1) (hdd NULL_INDEX l2)) b).
Proof.
  intros Hd Hnd Hc Hpv Hnx.
  assert (∀ x, x ∈ l1 ++ f :: l2 → is_Some ((pool_ b).[x])) as Hcells.
  { intros x Hx. destruct (dseg_cell _ _ _ _ x Hd Hx) as [? ->]. eauto. }
  apply NoDup_app in Hnd as (_ & N12 & [Nf _]%NoDup_cons).
  mstep (load_order_run _ _ _ Hc). rewrite Hpv, Hnx.
  assert (lastd NULL_INDEX l1 ≠ NULL_INDEX → lastd NULL_INDEX l1 ∈ l1) as Hin1.
  { destruct l1; [done|]. intros _. by apply lastd_in. }
  mstep (join_prev_run b (lastd NULL_INDEX l1) (hdd NULL_INDEX l2)
    ltac:(intros Hn; apply Hcells; apply elem_of_app; left; by apply Hin1)).
  set (a1 := if lastd NULL_INDEX l1 =? NULL_INDEX then pool_ b else _).
  assert (a1.[f] = Some c ∧ ∀ x, is_Some ((pool_ b).[x]) → is_Some (a1.[x])) as [Hc1 Hcells1].
  { unfold a1. zcase as E; [by split|]. destruct (Hcells (lastd NULL_INDEX l1)) as [o' Ho'].
    { apply elem_of_app. left. by apply Hin1. }
    rewrite Ho'. pose proof (aget_Some_bounds _ _ _ Ho'). split.
    - rewrite aget_aset_ne; [done|]. intros Ef. apply (N12 f); [|left]. rewrite <- Ef. by apply Hin1.
    - intros x Hx. rewrite aget_aset by done. dcase; eauto. }
  mstep (load_order_run (set_pool a1 b) f c Hc1). rewrite Hpv, Hnx.
  mstep (join_next_run (set_pool a1 b) (lastd NULL_INDEX l1) (hdd NULL_INDEX l2)
    ltac:(intros Hn; apply Hcells1, Hcells; destruct l2; [done|]; set_solver)).
  by bsimpl.
Qed.

Lemma set_bitset_id b side : set_bitset side (bitset side b) b = b.
Proof. by destruct b, side. Qed.

(** Clearing the level's bit when its list has become empty. *)
Lemma clear_level_run b m loc free K id o b1 pl' :
  book_rep_at b m loc free K → mk_orders m !! id = Some o →
  bitset (mo_side o) b1 = bitset (mo_side o) b →
  head pl' = hdd NULL_INDEX (ix loc <$> filter (λ x, x ≠ id) (queue (mo_side o) (mo_price o) m)) →
  ∃ i', (if head pl' =? NULL_INDEX then on_bitset (mo_side o) (idx_clear (mo_price o)) else mret tt) b1 =
        (Ok tt, set_bitset (mo_side o) i' b1) ∧
        idxrep i' (dom (queues (mo_side o) (mock_cancel_order id m))).
Proof.
  intros R Ho Hb Hh. pose proof (br_mock _ _ _ _ _ R) as Hok. set (side := mo_side o) in *.
  rewrite (mock_cancel_dom id m o side Hok Ho), Hh.
  pose proof (queue_ix_null R side (mo_price o)) as Hnull.
  set (q := filter _ (queue side (mo_price o) m)) in *. zcase as E.
  - assert (q = []) as Eq.
    { destruct q as [|x q'] eqn:Eq; [done|]. exfalso.
      assert (ix loc x = NULL_INDEX) as Ex by exact E. apply Hnull. rewrite <- Ex. apply list_elem_of_fmap_2.
      assert (x ∈ q) as Hx by (rewrite Eq; left). by apply list_elem_of_filter in Hx as [_ ?]. }
    rewrite decide_True by done.
    destruct (idx_clear_spec (bitset side b) _ (mo_price o) (br_bitset _ _ _ _ _ R side)
      (mok_price _ Hok _ _ Ho)) as (i' & Hcl & Hi').
    exists i'. split; [|done]. unfold on_bitset. apply zoom_eq. by rewrite Hb.
  - rewrite decide_False. 2: { intros [_ Eq]. apply E. by rewrite Eq. }
    exists (bitset side b). split; [|apply R]. by rewrite <- Hb, set_bitset_id.
Qed.

Lemma release_run b m loc free K id o :
  book_rep_at b m loc free K → mk_orders m !! id = Some o →
  let side := mo_side o in let f := ix loc id in
  ∃ c q1 q2 lv' pl' t' i',
    let l1 := ix loc <$> q1 in let l2 := ix loc <$> q2 in
    let a1 := joined (pool_ b) (lastd NULL_INDEX l1) (hdd NULL_INDEX l2) in
    queue side (mo_price o) m = q1 ++ id :: q2 ∧
    filter (λ x, x ≠ id) (queue side (mo_price o) m) = q1 ++ q2 ∧
    (pool_ b).[f] = Some c ∧ a1.[f] = Some c ∧ relinked (pool_ b) a1 (l1 ++ l2) ∧
    level_ok a1 pl' (l1 ++ l2) ∧ level_changed (levels side b) lv' (mo_price o) pl' ∧
    omrep t' (delete id K) ∧ idxrep i' (dom (queues side (mock_cancel_order id m))) ∧
    release_order_to_pool side f b =
      (Ok tt, set_next_free f (set_pool (aset a1 f (set_next (next_free_index_ b) c))
         (set_orders t' (set_bitset side i' (set_levels side lv' b))))).
Proof.
  intros R Ho. cbv zeta. pose proof (br_mock _ _ _ _ _ R) as Hok.
  destruct (queue_split _ _ _ _ _ _ _ R Ho) as (q1 & q2 & Hq & Hfilt).
  destruct (live_cell R id o Ho) as (c & Hc & Hcid & _ & Hcp).
  destruct (unlink_run _ _ _ _ _ _ _ _ _ _ R Ho Hq Hc)
    as (pl & Hlv & Hpl & Hnd & Hnull & Hpv & Hnx).
  set (l1 := ix loc <$> q1) in *. set (l2 := ix loc <$> q2) in *.
  set (side := mo_side o) in *. set (f := ix loc id) in *.
  pose proof Hlv as (Hh & Ht & Hd).
  destruct (joined_relinked _ _ _ _ Hd Hnd) as [HR Hcf].
  pose proof (joined_dseg _ _ _ _ Hd Hnd Hnull) as Hd'.
  set (a1 := joined (pool_ b) (lastd NULL_INDEX l1) (hdd NULL_INDEX l2)) in *.
  assert (a1.[f] = Some c) as Hc1 by congruence.
  destruct (execute_level_run (set_pool a1 b) side (mo_price o) f c pl l1 l2)
    as (lv' & pl' & Hrun & HC & Hh' & Ht'); try done.
  bsimpl in HC.
  destruct (om_erase_spec (orders_ b) K id (br_map _ _ _ _ _ R)) as (t' & Herase & Hrep').
  destruct (clear_level_run b m loc free K id o (set_levels side lv' (set_pool a1 b)) pl' R Ho)
    as (i' & Hbits & Hi'); [by bsimpl|by fold side; rewrite Hfilt, fmap_app|].
  exists c, q1, q2, lv', pl', t', i'. split_and!; try done.
  unfold release_order_to_pool. fold l1 l2 a1.
  rewrite (join_run b l1 f l2 c) by done. fold a1.
  mstep (load_order_run (set_pool a1 b) f c Hc1). rewrite Hcp.
  mstep Hrun. destruct HC as (HC1 & HC2 & HC3).
  mstep (load_level_run (set_levels side lv' (set_pool a1 b)) side (mo_price o) pl'
    ltac:(bsimpl; rewrite decide_True by done; exact HC2)).
  mstep Hbits. mstep (load_order_run (set_bitset side i' (set_levels side lv' (set_pool a1 b))) f c
    ltac:(bsimpl; exact Hc1)).
  rewrite Hcid. mstep (zoom_eq orders_ set_orders (om_erase id)
    (set_bitset side i' (set_levels side lv' (set_pool a1 b))) (Ok tt) t'
    ltac:(bsimpl; exact Herase)).
  rewrite bind_gets. bsimpl.
  mstep (update_order_run (set_orders t' (set_bitset side i' (set_levels side lv' (set_pool a1 b))))
    f c (set_next (next_free_index_ b)) ltac:(bsimpl; exact Hc1)).
  bsimpl. by destruct side.
Qed.

(** The price levels after a removal: the pool [a'] has the level of the
    removed order relinked to [l] and differs from the old one only in the
    cells of [l] and in the removed cell. *)
Lemma release_levels b m loc free K id o a' lv' pl' s q :
  book_rep_at b m loc free K → mk_orders m !! id = Some o → 0 ≤ q < MAX_TICKS →
  let l := ix loc <$> filter (λ x, x ≠ id) (queue (mo_side o) (mo_price o) m) in
  level_ok a' pl' l → level_changed (levels (mo_side o) b) lv' (mo_price o) pl' →
  (∀ x, x ≠ ix loc id → x ∉ l → a'.[x] = (pool_ b).[x]) →
  ∃ pl, (if decide (s = mo_side o) then lv' else levels s b).[q] = Some pl ∧
    level_ok a' pl (ix (delete id loc) <$> queue s q (mock_cancel_order id m)).
Proof.
  intros R Ho Hq l HL HC Hfar. pose proof (br_mock _ _ _ _ _ R) as Hok.
  assert (∀ s q, id ∉ filter (λ x, x ≠ id) (queue s q m)) as Hnid.
  { intros s' q' [H _]%list_elem_of_filter. done. }
  rewrite (mock_cancel_queue id m o), ix_fmap_delete by done.
  destruct (decide (s = mo_side o ∧ q = mo_price o)) as [[-> ->]|Hne].
  { rewrite decide_True by done. exists pl'. split; [apply HC|done]. }
  rewrite filter_id.
  2: { intros x Hx ->. destruct (queue_live R _ _ _ Hx) as (o' & Ho' & <- & <-).
       apply Hne. assert (o' = o) as -> by congruence. done. }
  assert (∀ x, x ∈ ix loc <$> queue s q m → x ∉ ix loc <$> queue (mo_side o) (mo_price o) m) as Hother.
  { intros x Hx Hx'. apply Hne. apply (queue_ix_disjoint R _ _ _ _ _ Hx Hx'). }
  destruct (br_level _ _ _ _ _ R s q Hq) as (pl & Hpl & Hh & Ht & Hd). exists pl. split.
  - dcase; [|done]. subst s. destruct HC as (_ & _ & F). rewrite F; [done|]. naive_solver.
  - split_and!; try done. revert Hd. apply dseg_ext. intros x Hx. apply Hfar.
    + intros ->. apply (Hother _ Hx). apply list_elem_of_fmap_2. apply (mok_queue _ Hok). eauto.
    + intros (y & -> & [_ Hy]%list_elem_of_filter)%list_elem_of_fmap.
      apply (Hother _ Hx). by apply list_elem_of_fmap_2.
Qed.

Lemma removed_not_queued b m loc free K id o s q : book_rep_at b m loc free K → mk_orders m !! id = Some o →
  ix loc id ∉ ix loc <$> filter (λ x, x ≠ id) (queue s q m).
Proof.
  intros R Ho (y & E & [Hy Hyq]%list_elem_of_filter)%list_elem_of_fmap.
  destruct (queue_live R _ _ _ Hyq) as (oy & Hoy & _). apply Hy. by eapply (ix_inj R).
Qed.

Lemma release_rep b m loc free K id o :
  book_rep_at b m loc free K → mk_orders m !! id = Some o →
  ∃ b', release_order_to_pool (mo_side o) (ix loc id) b = (Ok tt, b') ∧
        book_rep b' (mock_cancel_order id m).
Proof.
  intros R Ho. pose proof (br_mock _ _ _ _ _ R) as Hok.
  destruct (release_run b m loc free K id o R Ho)
    as (c & q1 & q2 & lv' & pl' & t' & i' & Hq & Hfilt & Hc & Hc1 & HR & HL & HC & Ht' & Hi' & Hrun).
  set (side := mo_side o) in *. set (f := ix loc id) in *.
  set (l := ix loc <$> filter (λ x, x ≠ id) (queue side (mo_price o) m)).
  assert ((ix loc <$> q1) ++ (ix loc <$> q2) = l) as El by (unfold l; by rewrite Hfilt, fmap_app).
  rewrite El in HR, HL. set (a1 := joined (pool_ b) _ _) in *.
  set (a' := aset a1 f (set_next (next_free_index_ b) c)) in *.
  pose proof (aget_Some_bounds _ _ _ Hc1) as Bf.
  assert (∀ x, x ≠ f → x ∉ l → a'.[x] = (pool_ b).[x]) as Hfar.
  { intros x Hxf Hxl. unfold a'. rewrite aget_aset_ne by congruence. by apply HR. }
  assert (∀ x, data a' x = data (pool_ b) x) as Hdata.
  { intros x. destruct HR as (_ & HD & _). rewrite <- HD. unfold data, a'. rewrite aget_aset by done.
    dcase; [|done]. subst x. by rewrite Hc1. }
  pose proof (removed_not_queued b m loc free K id o side (mo_price o) R Ho) as Hfl.
  assert (level_ok a' pl' l) as HL'.
  { destruct HL as (Hh & Ht & Hd). split_and!; try done. revert Hd. apply dseg_ext.
    intros x Hx. apply aget_aset_ne. by intros <-. }
  pose proof (placed_delete _ _ _ id o f (br_placed _ _ _ _ _ R) Ho (live_loc R id o Ho)) as P'.
  eexists. split; [exact Hrun|]. exists (delete id loc), (f :: free), (delete id K).
  constructor; bsimpl; try apply R; try done.
  - by apply mock_cancel_ok.
  - destruct HR as (HR & _). unfold a'. rewrite alen_aset, HR. apply R.
  - intros s. bsimpl. dcase; [|apply R]. subst. destruct HC as (HC & _). rewrite HC. apply R.
  - intros id'. rewrite mock_cancel_orders, !lookup_delete. dcase as E; [done|].
    rewrite ix_delete_ne by done. apply R.
  - intros id' o'. rewrite mock_cancel_orders, lookup_delete_Some. intros [Hne Ho'].
    rewrite ix_delete_ne, Hdata by congruence. by apply R.
  - intros s q Hq'. bsimpl. by eapply release_levels.
  - intros s. bsimpl. destruct (decide (s = side)) as [->|Hs]; [done|].
    rewrite (mock_cancel_dom id m o) by done. rewrite decide_False by (by intros [? _]). apply R.
  - split.
    + exists (set_next (next_free_index_ b) c). unfold a'. rewrite aget_aset_eq by done.
      split; [done|]. apply R.
    + eapply sseg_ext; [|apply R]. intros x Hx. apply Hfar.
      * intros ->. by pose proof (p_free_nodup _ _ _ P') as [? _]%NoDup_cons.
      * intros (y & -> & [_ Hy]%list_elem_of_filter)%list_elem_of_fmap.
        apply (free_not_queue R side (mo_price o) _ Hx). by apply list_elem_of_fmap_2.
  - by rewrite mock_cancel_orders.
Qed.

(** ** The operations *)

Lemma lookup_run b m loc free K id :
  book_rep_at b m loc free K →
  on_orders (om_lookup id) b =
  (Ok ((λ o, tag (mo_side o) (ix loc id)) <$> mk_orders m !! id), b).
Proof.
  intros R. unfold on_orders.
  rewrite (zoom_eq _ _ _ _ _ _ (om_lookup_spec _ _ id (br_map _ _ _ _ _ R))).
  rewrite (br_ids _ _ _ _ _ R). by destruct b.
Qed.

(** The side and index decoded from the id map select the right release. *)
Lemma release_decoded b m loc free K id o :
  book_rep_at b m loc free K → mk_orders m !! id = Some o →
  ∃ b', (if negb (Z.land (tag (mo_side o) (ix loc id)) SIDE_MASK =? 0)
         then release_order_to_pool Sell (Z.land (tag (mo_side o) (ix loc id)) INDEX_MASK)
         else release_order_to_pool Buy (Z.land (tag (mo_side o) (ix loc id)) INDEX_MASK)) b =
        (Ok tt, b') ∧ book_rep b' (mock_cancel_order id m).
Proof.
  intros R Ho. destruct (br_max _ _ _ _ _ R). pose proof (live_range R id o Ho).
  rewrite tag_is_sell, tag_index by lia.
  destruct (release_rep b m loc free K id o R Ho) as (b' & Hrun & Hrep).
  exists b'. split; [|done]. by destruct (mo_side o).
Qed.

Lemma cancel_order_rep b m id :
  book_rep b m → ∃ b', cancel_order id b = (Ok tt, b') ∧ book_rep b' (mock_cancel_order id m).
Proof.
  intros (loc & free & K & R). unfold cancel_order. mstep (lookup_run b m loc free K id R).
  destruct (mk_orders m !! id) as [o|] eqn:Ho; simpl.
  - by eapply release_decoded.
  - exists b. split; [done|]. unfold mock_cancel_order. rewrite Ho. by exists loc, free, K.
Qed.

(** Writing the shares of a live order. *)
Lemma shares_rep b m loc free K id o c n :
  book_rep_at b m loc free K → mk_orders m !! id = Some o →
  (pool_ b).[ix loc id] = Some c →
  book_rep_at (set_pool (aset (pool_ b) (ix loc id) (set_shares n c)) b)
    (with_shares id n o m) loc free K.
Proof.
  intros R Ho Hc. pose proof (aget_Some_bounds _ _ _ Hc) as Bf.
  assert (∀ x, links (aset (pool_ b) (ix loc id) (set_shares n c)) x = links (pool_ b) x) as Hlinks.
  { intros x. unfold links. rewrite aget_aset by done. dcase; [|done]. subst x. by rewrite Hc. }
  destruct (live_cell R id o Ho) as (c' & Hc' & Hid & _ & Hp). assert (c' = c) as -> by congruence.
  constructor; bsimpl; try apply R.
  - apply with_shares_ok; [apply R|done].
  - intros id'. unfold with_shares; simpl. rewrite lookup_insert. dcase as E; [|apply R].
    subst id'. rewrite (br_ids _ _ _ _ _ R), Ho. done.
  - intros id' o'. unfold with_shares; simpl. rewrite lookup_insert. unfold data.
    rewrite aget_aset by done. dcase as E.
    + intros [= <-]. subst id'. rewrite decide_True by done. simpl. by rewrite Hid, Hp.
    + intros Ho'. rewrite decide_False; [by apply R|]. intros E'. apply E. by eapply (ix_inj R).
  - intros s q Hq. unfold with_shares. rewrite queue_set_orders. bsimpl.
    destruct (br_level _ _ _ _ _ R s q Hq) as (pl & Hpl & Hh & Ht & Hd). exists pl.
    split; [done|]. split_and!; try done. revert Hd. apply dseg_links. intros x _. apply Hlinks.
  - eapply sseg_ext; [|apply R]. intros x Hx. apply aget_aset_ne. intros <-.
    destruct (p_free_range _ _ _ (br_placed _ _ _ _ _ R) _ Hx) as [_ H]. apply (H id). by eapply (live_loc R).
  - unfold with_shares; simpl. eapply placed_update; [apply R|done].
Qed.

Lemma execute_order_rep b m p :
  book_rep b m →
  ∃ b', execute_order p b = ((spec_execute_order p m).1, b') ∧
        book_rep b' (spec_execute_order p m).2.
Proof.
  intros (loc & free & K & R). unfold execute_order, spec_execute_order.
  set (id := eo_order_reference_number p).
  mstep (lookup_run b m loc free K id R).
  destruct (mk_orders m !! id) as [o|] eqn:Ho; simpl; [|by exists b; split; [|exists loc, free, K]].
  destruct (br_max _ _ _ _ _ R). pose proof (live_range R id o Ho).
  destruct (live_cell R id o Ho) as (c & Hc & Hid & Hsh & Hp).
  rewrite tag_index by lia. mstep (load_order_run _ _ _ Hc). rewrite Hsh. zcase.
  { exists b. split; [done|]. by exists loc, free, K. }
  mstep (update_order_run _ _ _ (set_shares (mo_shares o - eo_shares p)) Hc).
  set (n := mo_shares o - eo_shares p).
  pose proof (shares_rep b m loc free K id o c n R Ho Hc) as R'.
  set (b1 := set_pool (aset (pool_ b) (ix loc id) (set_shares n c)) b) in *.
  assert ((pool_ b1).[ix loc id] = Some (set_shares n c)) as Hc1.
  { apply aget_aset_eq. by eapply aget_Some_bounds. }
  mstep (load_order_run _ _ _ Hc1). unfold mock_execute_order. rewrite Ho. simpl. fold n.
  change (set_mock_orders _ m) with (with_shares id n o m).
  destruct (n =? 0); [|by exists b1; split; [|exists loc, free, K]].
  assert (mk_orders (with_shares id n o m) !! id = Some (mkMockOrder n (mo_price o) (mo_side o))) as Ho1.
  { unfold with_shares; simpl. by rewrite lookup_insert_eq. }
  pose proof (release_decoded b1 _ loc free K id _ R' Ho1) as Hrel. simpl in Hrel.
  by rewrite tag_index in Hrel by lia.
Qed.

Lemma best_bid_rep b m : book_rep b m → book_best_bid b = (Ok (mock_best_bid m), b).
Proof.
  intros (loc & free & K & R). unfold book_best_bid, on_bitset.
  rewrite (zoom_eq _ _ _ _ _ _ (idx_best_bid_spec _ _ (br_bitset _ _ _ _ _ R Buy))).
  by rewrite set_bitset_id.
Qed.

Lemma best_offer_rep b m : book_rep b m → book_best_offer b = (Ok (mock_best_offer m), b).
Proof.
  intros (loc & free & K & R). unfold book_best_offer, on_bitset.
  rewrite (zoom_eq _ _ _ _ _ _ (idx_best_offer_spec _ _ (br_bitset _ _ _ _ _ R Sell))).
  by rewrite set_bitset_id.
Qed.

(** ** Construction *)

Lemma new_book_rep orders idx b :
  0 < max_orders ≤ 2 ^ 31 → max_orders ≤ capacity → omrep orders ∅ → idxrep idx ∅ →
  LimitOrderBook_new max_orders true orders idx = Ok b → book_rep b mock_empty.
Proof.
  intros Hmax Hcap Hom Hidx Hnew.
  destruct (new_pool max_orders Hmax) as (a & a' & o & Hlink & Ho & Hput & Hlen & Hseg).
  unfold LimitOrderBook_new in Hnew. rewrite (proj2 (Z.eqb_neq max_orders 0)) in Hnew by lia.
  rewrite pool_bytes_exact, Hlink, Ho, Hput in Hnew by done. injection Hnew as <-.
  exists ∅, (seqZ 0 max_orders), ∅. constructor; simpl; try done.
  - apply mock_empty_ok.
  - by intros [].
  - intros side p Hp. exists (mkLevel NULL_INDEX NULL_INDEX).
    assert (queue side p mock_empty = []) as -> by (by destruct side).
    split; [|done]. destruct side; by apply aget_anew.
  - intros []; simpl; by rewrite dom_empty_L.
  - rewrite seqZ_cons by lia. done.
  - constructor; try done.
    + intros id. rewrite !lookup_empty. split; by intros [].
    + apply NoDup_seqZ.
    + intros i Hi%elem_of_seqZ. split; [lia|]. intros id. by rewrite lookup_empty.
    + rewrite length_seqZ, map_size_empty. lia.
Qed.
End Refinement.
