(* ===== verification/BookTheorems.v ===== *)
(** The order book as the program instantiates it.

    [Book] is [book::LimitOrderBook] over the real id map and the real
    bitsets; [dispatch] is the table by which [consume] (src/src/main.cpp)
    applies a normalized order.  The theorems are about every book reached
    from an empty one by orders whose additions carry a new id (the
    exchange's reference numbers are unique while live): it answers as the
    reference book does, keeps price-time priority in its linked lists, loses
    no pool cell, and is left unchanged by every order it refuses.  The last
    theorems show what happens outside that precondition. *)

From S2P Require Import Prelude Interfaces HierarchicalBitset StaticOrderMap ItchOrderTypes LimitOrderBook LinkedPool MockOrderBook BookRefinement.

Definition Book : Type := LimitOrderBook StaticOrderMap HierarchicalBitset.

(** The members are constructed before the body of the constructor runs.
    [map_ok] and [pool_ok] are the successes of the two mmap calls. *)
Definition new_book (max_orders page_size : Z) (map_ok pool_ok : bool) : outcome Book :=
  match StaticOrderMap_new ORDER_MAP_SIZE page_size map_ok with
  | Ok om => LimitOrderBook_new max_orders pool_ok om (HierarchicalBitset_new MAX_TICKS)
  | Throw e => Throw e
  | UB => UB
  | OutOfFuel => OutOfFuel
  end.

(** [dispatch_table[order.type](book, order)]. *)
Definition dispatch (order : NormalizedOrder) : M Book unit :=
  match order with
  | NAdd o => add_order o
  | NExecute o => execute_order o
  | NCancel o => cancel_order (co_order_reference_number o)
  end.

(** The contract's answer to an order. *)
Definition spec_dispatch (max_orders : Z) (order : NormalizedOrder) (m : MockOrderBook)
    : outcome unit * MockOrderBook :=
  match order with
  | NAdd o => (Ok tt, spec_add_order max_orders o m)
  | NExecute o => spec_execute_order o m
  | NCancel o => (Ok tt, mock_cancel_order (co_order_reference_number o) m)
  end.

(** Orders one after the other, each exception caught, with the best prices
    read after each of them. *)
Fixpoint observe (os : list NormalizedOrder) (b : Book)
    : list (outcome unit * outcome Z * outcome Z) * Book :=
  match os with
  | [] => ([], b)
  | o :: os' =>
      let '(r, b1) := dispatch o b in
      let '(obs, b2) := observe os' b1 in
      ((r, (book_best_bid b1).1, (book_best_offer b1).1) :: obs, b2)
  end.

Fixpoint spec_observe (max_orders : Z) (os : list NormalizedOrder) (m : MockOrderBook)
    : list (outcome unit * outcome Z * outcome Z) * MockOrderBook :=
  match os with
  | [] => ([], m)
  | o :: os' =>
      let '(r, m1) := spec_dispatch max_orders o m in
      let '(obs, m2) := spec_observe max_orders os' m1 in
      ((r, Ok (mock_best_bid m1), Ok (mock_best_offer m1)) :: obs, m2)
  end.

(** An addition carries an unsigned price and an id that is not live. *)
Definition fresh_order (o : NormalizedOrder) (m : MockOrderBook) : bool :=
  match o with
  | NAdd p => (0 <=? ao_price p) &&
              bool_decide (mk_orders m !! ao_order_reference_number p = None)
  | _ => true
  end.

Fixpoint fresh_orders (max_orders : Z) (os : list NormalizedOrder) (m : MockOrderBook) : bool :=
  match os with
  | [] => true
  | o :: os' => fresh_order o m && fresh_orders max_orders os' (spec_dispatch max_orders o m).2
  end.

(** Following the links of the pool. *)
Fixpoint walk (n : nat) (a : array Order) (i : Z) : option (list Order) :=
  if i =? NULL_INDEX then Some [] else
  match n with
  | O => None
  | S n' =>
      match a.[i] with
      | Some o => match walk n' a (next o) with Some l => Some (o :: l) | None => None end
      | None => None
      end
  end.

(** The orders of a price level, from its head. *)
Definition level_orders {Map Idx} (side : Side) (p : Z) (b : LimitOrderBook Map Idx)
    : option (list (Z * Z)) :=
  match (levels side b).[p] with
  | Some pl =>
      match walk (S (Z.to_nat (alen (pool_ b)))) (pool_ b) (head pl) with
      | Some l => Some ((λ o, (order_reference_number o, shares o)) <$> l)
      | None => None
      end
  | None => None
  end.

(** The reference queue with the remaining shares of its orders. *)
Definition queue_orders (side : Side) (p : Z) (m : MockOrderBook) : list (Z * Z) :=
  (λ id, (id, default 0 (mo_shares <$> mk_orders m !! id))) <$> queue side p m.

(** * Reachable books represent the reference book *)

Section Reach.
Context (max_orders page_size : Z).

Definition rep (b : Book) (m : MockOrderBook) : Prop :=
  book_rep (map_rep ORDER_MAP_SIZE) (bitset_rep MAX_TICKS) ORDER_MAP_SIZE max_orders b m.

Lemma rep_new b : 0 < max_orders ≤ ORDER_MAP_SIZE →
  new_book max_orders page_size true true = Ok b → rep b mock_empty.
Proof.
  intros Hmax Hnew.
  assert (ORDER_MAP_SIZE = 2 ^ 22) as Hsize by done.
  eapply new_book_rep in Hnew; [exact Hnew|lia|lia| |].
  - eapply StaticOrderMap_new_rep; [|reflexivity]. by exists 22.
  - apply bitset_new_rep. by unfold MAX_TICKS.
Qed.

Lemma dispatch_rep b m o : rep b m → fresh_order o m = true →
  ∃ b', dispatch o b = ((spec_dispatch max_orders o m).1, b') ∧
        rep b' (spec_dispatch max_orders o m).2.
Proof.
  intros Hrep Hf. destruct o as [p|p|p]; simpl in *.
  - apply andb_true_iff in Hf as [Hp Hid]. apply Z.leb_le in Hp.
    apply bool_decide_eq_true in Hid. by apply (add_order_rep _ _ _ map_full).
  - by apply (execute_order_rep _ _ _ map_full).
  - by apply (cancel_order_rep _ _ _ map_full).
Qed.

Lemma observe_rep os b m : rep b m → fresh_orders max_orders os m = true →
  (observe os b).1 = (spec_observe max_orders os m).1 ∧
  rep (observe os b).2 (spec_observe max_orders os m).2.
Proof.
  revert b m. induction os as [|o os IH]; intros b m Hrep Hf; simpl in *; [done|].
  apply andb_true_iff in Hf as [Ho Hf].
  destruct (dispatch_rep b m o Hrep Ho) as (b1 & Hrun & Hrep1). rewrite Hrun.
  destruct (spec_dispatch max_orders o m) as [r m1]; simpl in *.
  destruct (IH b1 m1 Hrep1 Hf) as [Hobs Hrep2].
  destruct (observe os b1), (spec_observe max_orders os m1); simpl in *.
  rewrite (best_bid_rep _ _ _ _ _ _ Hrep1), (best_offer_rep _ _ _ _ _ _ Hrep1).
  split; [by f_equal|done].
Qed.

(** The state reached from an empty book. *)
Lemma reach_rep os b : 0 < max_orders ≤ ORDER_MAP_SIZE →
  new_book max_orders page_size true true = Ok b →
  fresh_orders max_orders os mock_empty = true →
  (observe os b).1 = (spec_observe max_orders os mock_empty).1 ∧
  rep (observe os b).2 (spec_observe max_orders os mock_empty).2.
Proof. intros Hmax Hnew. apply observe_rep. by eapply rep_new. Qed.
End Reach.

(** * Walking the lists *)

Lemma walk_dseg a l n pv : dseg a pv l NULL_INDEX → NULL_INDEX ∉ l → (length l ≤ n)%nat →
  ∃ os, walk n a (hdd NULL_INDEX l) = Some os ∧ mapM (aget a) l = Some os.
Proof.
  revert n pv. induction l as [|x l IH]; intros n pv; simpl; intros Hd Hnull Hn.
  - exists []. by destruct n.
  - destruct n as [|n]; simpl in Hn; [lia|]. destruct Hd as [(o & Ho & _ & Hnext) Hd].
    destruct (IH n x Hd) as (os & Hw & Hm); [set_solver|lia|]. exists (o :: os).
    change (hdd NULL_INDEX (x :: l)) with x. simpl. rewrite Ho. simpl. rewrite Hnext, Hw, Hm.
    by rewrite (proj2 (Z.eqb_neq x NULL_INDEX)) by set_solver.
Qed.

Lemma walk_sseg a l n : sseg a l NULL_INDEX → NULL_INDEX ∉ l → (length l ≤ n)%nat →
  ∃ os, walk n a (hdd NULL_INDEX l) = Some os ∧ length os = length l.
Proof.
  revert n. induction l as [|x l IH]; intros n; simpl; intros Hd Hnull Hn.
  - exists []. by destruct n.
  - destruct n as [|n]; simpl in Hn; [lia|]. destruct Hd as [(o & Ho & Hnext) Hd].
    destruct (IH n Hd) as (os & Hw & Hm); [set_solver|lia|]. exists (o :: os).
    change (hdd NULL_INDEX (x :: l)) with x. simpl. rewrite Ho, Hnext, Hw.
    rewrite (proj2 (Z.eqb_neq x NULL_INDEX)) by set_solver. by rewrite <- Hm.
Qed.

Section Walks.
Context {Map Idx : Type} (omrep : Map → gmap Z Z → Prop) (idxrep : Idx → gset Z → Prop).
Context (capacity max_orders : Z).

Lemma level_orders_rep side p b m : book_rep omrep idxrep capacity max_orders b m →
  0 ≤ p < MAX_TICKS →
  level_orders side p b = Some (queue_orders side p m).
Proof.
  intros (loc & free & K & R) Hp. unfold level_orders, queue_orders.
  destruct (br_level _ _ _ _ _ _ _ _ _ R side p Hp) as (pl & Hpl & Hh & _ & Hd).
  rewrite Hpl, Hh.
  assert (length (ix loc <$> queue side p m) ≤ Z.to_nat (alen (pool_ b)))%nat as Hlen.
  { rewrite (br_pool_len _ _ _ _ _ _ _ _ _ R).
    pose proof (p_count _ _ _ _ (br_placed _ _ _ _ _ _ _ _ _ R)) as Hc. rewrite length_fmap.
    enough (length (queue side p m) ≤ size (mk_orders m))%nat by lia.
    apply length_le_size; [apply mok_nodup, R|].
    intros id (o & Ho & _)%(mok_queue _ (br_mock _ _ _ _ _ _ _ _ _ R)). eauto. }
  destruct (walk_dseg _ _ (S (Z.to_nat (alen (pool_ b)))) _ Hd
    (queue_ix_null _ _ _ _ R side p) ltac:(lia)) as (os & Hw & Hm).
  rewrite Hw. f_equal. clear Hw Hh Hd Hlen.
  assert (∀ id, id ∈ queue side p m → ∃ o, mk_orders m !! id = Some o) as Hlive.
  { intros id (o & Ho & _)%(mok_queue _ (br_mock _ _ _ _ _ _ _ _ _ R)). eauto. }
  revert os Hm Hlive. induction (queue side p m) as [|id q IH]; simpl; intros os Hm Hlive.
  - by injection Hm as <-.
  - destruct (Hlive id) as [o Ho]; [left|].
    destruct (live_cell _ _ _ _ R id o Ho) as (c & Hc & Hid & Hsh & _).
    rewrite Hc in Hm. simpl in Hm. destruct (mapM _ _) as [os'|] eqn:E; [|done].
    injection Hm as <-. simpl. rewrite Ho, Hid, Hsh. simpl. f_equal.
    apply IH; [done|]. intros id' Hid'. apply Hlive. by right.
Qed.
End Walks.

(** The orders the contract refuses. *)
Definition refused (max_orders : Z) (o : NormalizedOrder) (m : MockOrderBook) : bool :=
  match o with
  | NAdd p => (MAX_TICKS <=? ao_price p) || (max_orders <=? Z.of_nat (size (mk_orders m)))
  | NExecute p =>
      match mk_orders m !! eo_order_reference_number p with
      | Some o => mo_shares o <? eo_shares p
      | None => true
      end
  | NCancel p => bool_decide (mk_orders m !! co_order_reference_number p = None)
  end.

Lemma refused_unchanged max_orders b m o : rep max_orders b m → refused max_orders o m = true →
  dispatch o b = ((spec_dispatch max_orders o m).1, b).
Proof.
  intros (loc & free & K & R) Hr. destruct o as [p|p|p]; simpl in *.
  - unfold add_order. zcase; [done|]. rewrite bind_gets.
    simpl in Hr. apply Z.leb_le in Hr.
    by rewrite (proj2 (free_empty_iff _ _ _ _ _ _ _ _ _ R) Hr).
  - unfold execute_order, spec_execute_order.
    mstep (lookup_run _ _ _ map_full _ _ _ _ _ _ (eo_order_reference_number p) R).
    destruct (mk_orders m !! _) as [o|] eqn:Ho; [|done]. simpl. rewrite Hr.
    destruct (br_max _ _ _ _ _ _ _ _ _ R). pose proof (live_range _ _ _ _ R _ o Ho).
    destruct (live_cell _ _ _ _ R _ o Ho) as (c & Hc & _ & Hsh & _).
    rewrite tag_index by lia. mstep (load_order_run _ _ _ Hc). by rewrite Hsh, Hr.
  - unfold cancel_order. apply bool_decide_eq_true in Hr.
    mstep (lookup_run _ _ _ map_full _ _ _ _ _ _ (co_order_reference_number p) R). by rewrite Hr.
Qed.

Lemma best_of_spec (f : Z → Z → Z) (le : Z → Z → Prop) (X : gset Z) :
  (∀ a b, f a b = a ∨ f a b = b) → (∀ a b, le a (f a b)) → (∀ a b, le b (f a b)) →
  (∀ a b c, le a b → le b c → le a c) → (∀ a : Z, le a a) →
  (X = ∅ ∧ set_best f X = SIZE_MAX) ∨ (set_best f X ∈ X ∧ ∀ t, t ∈ X → le t (set_best f X)).
Proof.
  intros H1 H2 H3 H4 H5. unfold set_best.
  assert (∀ y, y ∈ X ↔ y ∈ elements X) as Hel by (intros; by rewrite elem_of_elements).
  destruct (elements X) as [|x l] eqn:E; [left|right].
  - split; [|done]. apply set_eq. intros y. rewrite Hel. set_solver.
  - destruct (foldr_extremum f le H1 H2 H3 H4 H5 l x) as [Hin Hmx].
    split; [by apply Hel|]. intros t Ht. apply Hmx. by apply Hel.
Qed.

(** The prices with a non-empty queue are those of the live orders. *)
Lemma dom_queues side p m : mock_ok m →
  p ∈ dom (queues side m) ↔ ∃ id o, mk_orders m !! id = Some o ∧ mo_side o = side ∧ mo_price o = p.
Proof.
  intros Hok. rewrite elem_of_dom. split.
  - intros [q Hq]. destruct q as [|id q]; [by apply (mok_nonempty _ Hok) in Hq|].
    exists id. apply (mok_queue _ Hok). unfold queue. rewrite Hq. left.
  - intros (id & o & H). assert (id ∈ queue side p m) as Hin by (apply mok_queue; eauto).
    unfold queue in Hin. destruct (queues side m !! p); [eauto|]. by apply elem_of_nil in Hin.
Qed.

(** * The theorems *)

Definition sample_add (id shares price indicator : Z) : NormalizedOrder :=
  NAdd (mkAddOrder 0 id shares price 0 0 [] indicator).
Definition sample_execute (id shares : Z) : NormalizedOrder :=
  NExecute (mkOrderExecuted 0 id 0 shares 0 0).
Definition sample_cancel (id : Z) : NormalizedOrder := NCancel (mkCancelOrder 0 id 0 0 0).

(** Two orders at one price, a partial and a full execution, a full pool, a
    collision in the id map, a refused execution, cancellations. *)
Definition sample_orders : list NormalizedOrder :=
  [sample_add 1 100 500 char_B; sample_add 4194305 50 500 char_B; sample_execute 1 40;
   sample_add 2 10 700 char_S; sample_add 3 10 650 char_S; sample_execute 4194305 51;
   sample_execute 1 60; sample_add 3 10 650 char_S; sample_add 9 1 100000 char_S;
   sample_cancel 2; sample_cancel 77].

(** C11 The book refines its contract: from an empty book of at most
    ORDER_MAP_SIZE cells, every sequence of orders whose additions carry
    unused ids gives, order by order, the outcome (normal return or the "less
    shares" exception) and the best bid and offer of the reference book;
    in particular no operation touches memory outside the pool or the level
    arrays. *)
Theorem book_refines_contract max_orders page_size os b :
  0 < max_orders ≤ ORDER_MAP_SIZE → new_book max_orders page_size true true = Ok b →
  fresh_orders max_orders os mock_empty = true →
  (observe os b).1 = (spec_observe max_orders os mock_empty).1.
Proof. intros Hmax Hnew Hf. by eapply reach_rep. Qed.

Lemma book_refines_contract_witness :
  ∃ b, new_book 3 4096 true true = Ok b ∧
       (observe sample_orders b).1 = (spec_observe 3 sample_orders mock_empty).1.
Proof.
  eexists. split; [reflexivity|].
  apply (book_refines_contract 3 4096 sample_orders); [by vm_compute|reflexivity|by vm_compute].
Defined.

(** C12 Price-time priority: at every tick and side of a reachable book, the
    pool cells met by following [next] from the level's head are, in order,
    the live orders of that price in order of arrival, with their remaining
    shares; the walk ends at the null index. *)
Theorem level_lists_price_time_priority max_orders page_size os b side p :
  0 < max_orders ≤ ORDER_MAP_SIZE → new_book max_orders page_size true true = Ok b →
  fresh_orders max_orders os mock_empty = true → 0 ≤ p < MAX_TICKS →
  level_orders side p (observe os b).2 =
  Some (queue_orders side p (spec_observe max_orders os mock_empty).2).
Proof.
  intros Hmax Hnew Hf Hp. eapply level_orders_rep; [|done]. by eapply reach_rep.
Qed.

Lemma level_lists_price_time_priority_witness :
  ∃ b, new_book 3 4096 true true = Ok b ∧
       level_orders Buy 500 (observe (take 5 sample_orders) b).2 = Some [(1, 60); (4194305, 50)].
Proof.
  eexists. split; [reflexivity|].
  rewrite (level_lists_price_time_priority 3 4096 (take 5 sample_orders));
    [by vm_compute|by vm_compute|reflexivity|by vm_compute|by vm_compute].
Defined.

(** C33 The best prices: in a reachable book [get_best_bid] is the highest
    price of a live buy order, [get_best_offer] the lowest price of a live
    sell order, and each is [size_t(-1)] exactly when its side has none. *)
Theorem best_prices_of_live_orders max_orders page_size os b :
  0 < max_orders ≤ ORDER_MAP_SIZE → new_book max_orders page_size true true = Ok b →
  fresh_orders max_orders os mock_empty = true →
  let live side p := ∃ id o, mk_orders (spec_observe max_orders os mock_empty).2 !! id = Some o ∧
                             mo_side o = side ∧ mo_price o = p in
  let b' := (observe os b).2 in
  (∃ p, book_best_bid b' = (Ok p, b') ∧
     ((p = SIZE_MAX ∧ ∀ q, ¬ live Buy q) ∨ (live Buy p ∧ ∀ q, live Buy q → q ≤ p))) ∧
  (∃ p, book_best_offer b' = (Ok p, b') ∧
     ((p = SIZE_MAX ∧ ∀ q, ¬ live Sell q) ∨ (live Sell p ∧ ∀ q, live Sell q → p ≤ q))).
Proof.
  intros Hmax Hnew Hf live b'.
  destruct (reach_rep max_orders page_size os b Hmax Hnew Hf) as [_ Hrep].
  fold b' in Hrep. set (m := (spec_observe _ _ _).2) in *.
  assert (mock_ok m) as Hok by (destruct Hrep as (? & ? & ? & R); apply R).
  assert (∀ side q, live side q ↔ q ∈ dom (queues side m)) as Hlive
    by (intros; by rewrite dom_queues).
  split; eexists;
    (split; [exact (best_bid_rep _ _ _ _ _ _ Hrep) || exact (best_offer_rep _ _ _ _ _ _ Hrep)|]).
  - destruct (best_of_spec Z.max Z.le (dom (queues Buy m))) as [[E ?]|[? Hle]]; try lia.
    + left. split; [done|]. intros q. rewrite Hlive, E. set_solver.
    + right. split; [by apply Hlive|]. intros q Hq%Hlive. by apply Hle.
  - destruct (best_of_spec Z.min (λ a b, b ≤ a) (dom (queues Sell m))) as [[E ?]|[? Hle]]; try lia.
    + left. split; [done|]. intros q. rewrite Hlive, E. set_solver.
    + right. split; [by apply Hlive|]. intros q Hq%Hlive. by apply Hle.
Qed.

Lemma best_prices_of_live_orders_witness :
  ∃ b, new_book 3 4096 true true = Ok b ∧
       ∃ p, book_best_bid (observe sample_orders b).2 = (Ok p, (observe sample_orders b).2).
Proof.
  eexists. split; [reflexivity|].
  match goal with |- ∃ p, book_best_bid (observe _ ?b).2 = _ =>
    destruct (best_prices_of_live_orders 3 4096 sample_orders b) as [(p & Hp & _) _] end;
    [by vm_compute|reflexivity|by vm_compute|by exists p].
Defined.

(** C34 No pool cell is lost: in a reachable book the walk of the free list
    from [next_free_index_] ends, and visits [max_orders] minus the number of
    live orders cells. *)
Theorem free_list_conserved max_orders page_size os b :
  0 < max_orders ≤ ORDER_MAP_SIZE → new_book max_orders page_size true true = Ok b →
  fresh_orders max_orders os mock_empty = true →
  let b' := (observe os b).2 in
  ∃ l, walk (S (Z.to_nat max_orders)) (pool_ b') (next_free_index_ b') = Some l ∧
       Z.of_nat (length l) =
       max_orders - Z.of_nat (size (mk_orders (spec_observe max_orders os mock_empty).2)).
Proof.
  intros Hmax Hnew Hf b'.
  destruct (reach_rep max_orders page_size os b Hmax Hnew Hf) as [_ (loc & free & K & R)].
  fold b' in R. pose proof (p_count _ _ _ _ (br_placed _ _ _ _ _ _ _ _ _ R)) as Hc.
  destruct (walk_sseg (pool_ b') free (S (Z.to_nat max_orders))) as (l & Hw & Hl).
  - apply R.
  - intros Hin. by apply (free_not_null _ _ _ _ R) in Hin.
  - lia.
  - exists l. rewrite (br_free_head _ _ _ _ _ _ _ _ _ R), Hw, Hl. split; [done|lia].
Qed.

Lemma free_list_conserved_witness :
  ∃ b, new_book 3 4096 true true = Ok b ∧
       let b' := (observe sample_orders b).2 in
       ∃ l, walk 4 (pool_ b') (next_free_index_ b') = Some l ∧ Z.of_nat (length l) = 1.
Proof.
  eexists. split; [reflexivity|].
  apply (free_list_conserved 3 4096 sample_orders); [by vm_compute|reflexivity|by vm_compute].
Defined.

(** C35 Refused orders change nothing: in a reachable book an addition at or
    above MAX_TICKS or to a full pool, a cancellation or an execution of an
    unknown id, and an execution of more shares than remain leave every part
    of the book (pool, levels, id map, bitsets, free list) as it was; only
    the last of them throws. *)
Theorem refused_orders_change_nothing max_orders page_size os b o :
  0 < max_orders ≤ ORDER_MAP_SIZE → new_book max_orders page_size true true = Ok b →
  fresh_orders max_orders os mock_empty = true →
  let b' := (observe os b).2 in
  let m' := (spec_observe max_orders os mock_empty).2 in
  refused max_orders o m' = true →
  dispatch o b' = (match o with
                   | NExecute p => match mk_orders m' !! eo_order_reference_number p with
                                   | Some _ => Throw too_few_shares
                                   | None => Ok tt
                                   end
                   | _ => Ok tt
                   end, b').
Proof.
  intros Hmax Hnew Hf b' m' Hr.
  destruct (reach_rep max_orders page_size os b Hmax Hnew Hf) as [_ Hrep].
  rewrite (refused_unchanged max_orders b' m' o Hrep Hr). destruct o as [p|p|p]; try done.
  simpl in *. unfold spec_execute_order.
  destruct (mk_orders m' !! eo_order_reference_number p); [|done]. by rewrite Hr.
Qed.

Lemma refused_orders_change_nothing_witness :
  ∃ b, new_book 3 4096 true true = Ok b ∧
       let b' := (observe (take 5 sample_orders) b).2 in
       dispatch (sample_execute 4194305 51) b' = (Throw too_few_shares, b') ∧
       dispatch (sample_add 8 1 1 char_B) b' = (Ok tt, b').
Proof.
  eexists. split; [reflexivity|]. split.
  - apply (refused_orders_change_nothing 3 4096 (take 5 sample_orders) _ (sample_execute 4194305 51));
      [by vm_compute|reflexivity|by vm_compute|by vm_compute].
  - apply (refused_orders_change_nothing 3 4096 (take 5 sample_orders) _ (sample_add 8 1 1 char_B));
      [by vm_compute|reflexivity|by vm_compute|by vm_compute].
Defined.

Lemma new_book_total max_orders page_size : 0 < max_orders ≤ ORDER_MAP_SIZE →
  ∃ b, new_book max_orders page_size true true = Ok b.
Proof.
  intros Hmax. assert (ORDER_MAP_SIZE = 2 ^ 22) as Hsize by done.
  destruct (new_pool max_orders) as (a & a' & o & Hl & Ho & Hp & _); [lia|].
  unfold new_book, LimitOrderBook_new, StaticOrderMap_new.
  rewrite (proj2 (Z.eqb_neq max_orders 0)) by lia. rewrite pool_bytes_exact, Hl, Ho, Hp by lia. by eexists.
Qed.

(** The constructor: a pool of zero orders and a failed mapping throw; a
    pool of 1 to ORDER_MAP_SIZE orders gives a book with no best price on either side
    and a free list of all its cells. *)
Theorem new_book_outcomes max_orders page_size map_ok pool_ok :
  0 ≤ max_orders ≤ ORDER_MAP_SIZE →
  match new_book max_orders page_size map_ok pool_ok with
  | Ok b => map_ok = true ∧ pool_ok = true ∧ 0 < max_orders ∧
            book_best_bid b = (Ok SIZE_MAX, b) ∧ book_best_offer b = (Ok SIZE_MAX, b)
  | Throw _ => map_ok = false ∨ pool_ok = false ∨ max_orders = 0
  | _ => False
  end.
Proof.
  intros Hmax.
  destruct map_ok; [|by left]. destruct (decide (max_orders = 0)) as [->|Hz]; [by right; right|].
  destruct pool_ok.
  - destruct (new_book_total max_orders page_size) as [b Hb]; [lia|]. rewrite Hb.
    assert (rep max_orders b mock_empty) as Hrep by (eapply rep_new; [lia|done]).
    split_and!; try done; [lia|exact (best_bid_rep _ _ _ _ _ _ Hrep)|
                           exact (best_offer_rep _ _ _ _ _ _ Hrep)].
  - unfold new_book, LimitOrderBook_new. simpl.
    rewrite (proj2 (Z.eqb_neq max_orders 0)) by done. by right; left.
Qed.

Lemma new_book_outcomes_witness :
  match new_book 1000 4096 true true with
  | Ok b => book_best_bid b = (Ok SIZE_MAX, b)
  | _ => True
  end.
Proof.
  pose proof (new_book_outcomes 1000 4096 true true ltac:(by vm_compute)) as H.
  destruct (new_book 1000 4096 true true); [apply H|done..].
Defined.

(** Outside the precondition: adding an order under an id that is still
    live replaces the id's entry in the map and leaves the first order in its
    price level for ever.  After both cancellations the level at 500 still
    holds the order, no id names it, and the best bid stays 500. *)
Theorem duplicate_live_id_is_leaked :
  match new_book 4 4096 true true with
  | Ok b =>
      let b' := (observe [sample_add 1 10 500 char_B; sample_add 1 10 600 char_B;
                          sample_cancel 1; sample_cancel 1] b).2 in
      (book_best_bid b').1 = Ok 500 ∧ (find_pool_idx 1 (orders_ b')).1 = Ok None ∧
      level_orders Buy 500 b' = Some [(1, 10)]
  | _ => False
  end.
Proof. by vm_compute. Qed.

(** A full id map: when the map holds as many ids as its capacity and a
    pool cell is free, an addition of a new id throws "Map is full" after the
    cell has been taken off the free list, so the cell is lost. *)
Theorem add_to_full_map_leaks_cell C (b : Book) K p cell :
  map_rep C (orders_ b) K → C ≤ Z.of_nat (size K) →
  K !! ao_order_reference_number p = None → ao_price p < MAX_TICKS →
  next_free_index_ b ≠ NULL_INDEX → (pool_ b).[next_free_index_ b] = Some cell →
  (add_order p b).1 = Throw map_full ∧ next_free_index_ (add_order p b).2 = next cell ∧
  orders_ (add_order p b).2 = orders_ b ∧ levels Buy (add_order p b).2 = levels Buy b ∧
  levels Sell (add_order p b).2 = levels Sell b.
Proof.
  intros Hrep Hfull Hid Hp Hnn Hcell.
  assert (∀ side, add_order_impl side p b =
    (Throw map_full, set_pool (aset (pool_ b) (next_free_index_ b) (set_parsed p cell))
                       (set_next_free (next cell) b))) as Himpl.
  { intros side. unfold add_order_impl. rewrite bind_gets.
    mstep (load_order_run _ _ _ Hcell). rewrite bind_modify.
    mstep (update_order_run (set_next_free (next cell) b) _ _ (set_parsed p) Hcell).
    assert (0 ≤ next_free_index_ b < alen (pool_ b)) as Hb by (by eapply aget_Some_bounds).
    erewrite bind_ok; [|apply load_order_run, aget_aset_eq, Hb].
    erewrite bind_throw; [done|]. unfold on_orders.
    erewrite zoom_eq; [|exact (index_assign_full C _ K _ _ Hrep Hid Hfull)]. by destruct b. }
  assert (add_order p b = (Throw map_full, set_pool (aset (pool_ b) (next_free_index_ b)
    (set_parsed p cell)) (set_next_free (next cell) b))) as ->; [|done].
  unfold add_order. rewrite (proj2 (Z.leb_gt MAX_TICKS (ao_price p))) by done. rewrite bind_gets.
  rewrite (proj2 (Z.eqb_neq _ NULL_INDEX)) by done. by destruct (_ =? char_B).
Qed.

Lemma add_to_full_map_leaks_cell_witness :
  let om := mkOrderMap (anew 1 (mkBucket 0 0 Empty)) 1 1 4096 in
  ∃ b : Book,
    LimitOrderBook_new 2 true (run_map_ops [MapAssign 5 0] om).2
      (HierarchicalBitset_new MAX_TICKS) = Ok b ∧
    (add_order (mkAddOrder 0 6 10 500 0 0 [] char_B) b).1 = Throw map_full.
Proof.
  intros om. eexists. split; [reflexivity|].
  eapply (add_to_full_map_leaks_cell 1 _ (<[5 := 0]> ∅));
    [|by vm_compute|reflexivity|by vm_compute|by vm_compute|reflexivity].
  refine (proj2 (run_map_ops_rep 1 [MapAssign 5 0] om ∅ _)).
  apply (StaticOrderMap_new_rep 1 4096 om); [by exists 0|reflexivity].
Defined.
