(* ===== verification/AnyOrders.v ===== *)
(** The order book on orders with any ids.

    [LimitOrderBook] writes [orders_[id] = index] for every accepted addition,
    also when the id is that of a live order: the older order stays in its
    price level and no id leads to it any more.  BookTheorems.v describes the
    book for ids that are not live; here there is no condition on the ids.

    The contract [any_dispatch] gives every accepted addition a number of its
    own and keeps the book of numbered orders (the reference book of
    MockOrderBook.v), the id of each number, and for each id the number it
    refers to now.  The proof runs the book beside a shadow of itself whose
    orders carry the numbers: the shadow's ids are always new, so the
    refinement of BookRefinement.v applies to it, and each operation of the
    book follows its shadow step by step ([follows]). *)

From S2P Require Import Prelude Interfaces HierarchicalBitset StaticOrderMap ItchOrderTypes LimitOrderBook LinkedPool MockOrderBook BookRefinement BookTheorems.

(** * The contract *)

Record AnyBook : Type := mkAny {
  any_book : MockOrderBook;
  any_name : gmap Z Z;
  any_current : gmap Z Z;
  any_count : Z
}.

(** The numbers start at 1. *)
Definition any_empty : AnyBook := mkAny mock_empty ∅ ∅ 1.

Definition set_any_book (m : MockOrderBook) (s : AnyBook) : AnyBook :=
  mkAny m (any_name s) (any_current s) (any_count s).

(** The id of a number; cells that were never used have id 0. *)
Definition name_of (names : gmap Z Z) (k : Z) : Z := default 0 (names !! k).

Definition with_add_id (k : Z) (p : NormalizedAddOrder) : NormalizedAddOrder :=
  mkAddOrder (ao_timestamp p) k (ao_shares p) (ao_price p) (ao_stock_locate p)
    (ao_tracking_number p) (ao_stock p) (ao_indicator p).
Definition with_execute_id (k : Z) (p : NormalizedOrderExecuted) : NormalizedOrderExecuted :=
  mkOrderExecuted (eo_timestamp p) k (eo_match_number p) (eo_shares p) (eo_stock_locate p)
    (eo_tracking_number p).

(** An addition is accepted when its price has a level and a cell is free. *)
Definition accepted (max_orders : Z) (p : NormalizedAddOrder) (m : MockOrderBook) : bool :=
  (ao_price p <? MAX_TICKS) && (Z.of_nat (size (mk_orders m)) <? max_orders).

Definition any_add (max_orders : Z) (p : NormalizedAddOrder) (s : AnyBook) : AnyBook :=
  let k := any_count s in
  if accepted max_orders p (any_book s) then
    mkAny (spec_add_order max_orders (with_add_id k p) (any_book s))
      (<[k := ao_order_reference_number p]> (any_name s))
      (<[ao_order_reference_number p := k]> (any_current s)) (k + 1)
  else s.

Definition any_dispatch (max_orders : Z) (o : NormalizedOrder) (s : AnyBook)
    : outcome unit * AnyBook :=
  match o with
  | NAdd p => (Ok tt, any_add max_orders p s)
  | NExecute p =>
      match any_current s !! eo_order_reference_number p with
      | Some k =>
          let '(r, m) := spec_execute_order (with_execute_id k p) (any_book s) in
          (r, set_any_book m s)
      | None => (Ok tt, s)
      end
  | NCancel p =>
      match any_current s !! co_order_reference_number p with
      | Some k => (Ok tt, set_any_book (mock_cancel_order k (any_book s)) s)
      | None => (Ok tt, s)
      end
  end.

Fixpoint any_observe (max_orders : Z) (os : list NormalizedOrder) (s : AnyBook)
    : list (outcome unit * outcome Z * outcome Z) * AnyBook :=
  match os with
  | [] => ([], s)
  | o :: os' =>
      let '(r, s1) := any_dispatch max_orders o s in
      let '(obs, s2) := any_observe max_orders os' s1 in
      ((r, Ok (mock_best_bid (any_book s1)), Ok (mock_best_offer (any_book s1))) :: obs, s2)
  end.

(** The orders of a level: the id and the remaining shares of each number. *)
Definition any_queue (side : Side) (p : Z) (s : AnyBook) : list (Z * Z) :=
  prod_map (name_of (any_name s)) id <$> queue_orders side p (any_book s).

(** The fields the parser reads as unsigned numbers are not negative. *)
Definition price_ok (o : NormalizedOrder) : bool :=
  match o with NAdd p => 0 <=? ao_price p | _ => true end.

(** * Following a run

    [follows R R' m g Q]: when [g] returns from a state related by [R], so
    does [m], with related states [R'] and results [Q]. *)

Section Follows.
Context {S T : Type}.

Definition follows {A B} (R R' : S → T → Prop) (m : M S A) (g : M T B)
    (Q : A → B → Prop) : Prop :=
  ∀ s t y t', R s t → g t = (Ok y, t') → ∃ x s', m s = (Ok x, s') ∧ Q x y ∧ R' s' t'.

Lemma follows_ret {A B} (R : S → T → Prop) (Q : A → B → Prop) x y :
  Q x y → follows R R (mret x) (mret y) Q.
Proof. intros HQ s t y' t' HR [= <- <-]. by exists x, s. Qed.

Lemma follows_bind {A A' B B'} (R R1 R2 : S → T → Prop) (m : M S A) (g : M T B)
    (k : A → M S A') (l : B → M T B') (Q : A → B → Prop) (Q' : A' → B' → Prop) :
  follows R R1 m g Q → (∀ x y, Q x y → follows R1 R2 (k x) (l y) Q') →
  follows R R2 (m ≫= k) (g ≫= l) Q'.
Proof.
  intros Hm Hk s t y t' HR Hg. unfold mbind, M_bind in Hg.
  destruct (g t) as [[z| | |] t1] eqn:Eg; try done.
  destruct (Hm s t z t1 HR Eg) as (x & s1 & Em & HQ & HR1).
  destruct (Hk x z HQ s1 t1 y t' HR1 Hg) as (x' & s2 & Ek & HQ' & HR2).
  exists x', s2. split; [|done]. by mstep Em.
Qed.

Lemma follows_gets {A B} (R : S → T → Prop) (f : S → A) (g : T → B) (Q : A → B → Prop) :
  (∀ s t, R s t → Q (f s) (g t)) → follows R R (gets f) (gets g) Q.
Proof. intros HQ s t y t' HR [= <- <-]. exists (f s), s. eauto. Qed.

Lemma follows_modify (R R' : S → T → Prop) (f : S → S) (g : T → T) :
  (∀ s t, R s t → R' (f s) (g t)) → follows R R' (modify f) (modify g) eq.
Proof. intros HR' s t y t' HR [= <- <-]. exists tt, (f s). eauto. Qed.

(** Steps that only read keep any property of the states. *)
Lemma follows_read {A B} (R P : S → T → Prop) (m : M S A) (g : M T B) Q :
  follows R R m g Q → (∀ s, (m s).2 = s) → (∀ t, (g t).2 = t) →
  follows (λ s t, R s t ∧ P s t) (λ s t, R s t ∧ P s t) m g Q.
Proof.
  intros H Hm Hg s t y t' [HR HP] Eg. destruct (H s t y t' HR Eg) as (x & s' & Em & HQ & HR').
  exists x, s'. split_and!; try done. pose proof (Hm s) as E1. pose proof (Hg t) as E2.
  rewrite Em in E1. rewrite Eg in E2. simpl in *. by subst.
Qed.

Lemma follows_if {A B} (c : bool) (R R' : S → T → Prop) (m1 m2 : M S A) (g1 g2 : M T B) Q :
  follows R R' m1 g1 Q → follows R R' m2 g2 Q →
  follows R R' (if c then m1 else m2) (if c then g1 else g2) Q.
Proof. by destruct c. Qed.
End Follows.

(** * The shadow book *)

(** The id map of the shadow: a finite map that refuses a new key when it is
    full. *)
Definition finite_map (capacity : Z) (full : exn) : OrderMap (gmap Z Z) := {|
  om_lookup k := gets (λ m : gmap Z Z, m !! k);
  om_assign k v := λ m : gmap Z Z,
    match m !! k with
    | Some _ => (Ok tt, <[k := v]> m)
    | None => if Z.of_nat (size m) <? capacity then (Ok tt, <[k := v]> m) else (Throw full, m)
    end;
  om_erase k := modify (λ m : gmap Z Z, delete k m)
|}.

Lemma finite_map_laws capacity full :
  @OrderMapLaws (gmap Z Z) (finite_map capacity full) capacity full eq.
Proof.
  split.
  - by intros t m k ->.
  - intros t m k v -> H. exists (<[k := v]> m). split; [|done]. simpl.
    destruct (m !! k) eqn:E; [done|]. zcase; [done|]. destruct H as [[? ?]|]; [congruence|lia].
  - intros t m k v -> Hk Hsize. simpl. rewrite Hk. zcase; [lia|done].
  - intros t m k ->. by exists (delete k m).
Qed.

Section Shadow.
Context {Map Idx : Type} `{!OrderMap Map} `{!PriceIndex Idx}.
Context (omrep : Map → gmap Z Z → Prop) (idxrep : Idx → gset Z → Prop).
Context (capacity : Z) (full : exn).
Context `{!OrderMapLaws Map capacity full omrep} `{!PriceIndexLaws Idx MAX_TICKS idxrep}.
#[local] Instance shadow_map : OrderMap (gmap Z Z) := finite_map capacity full.
#[local] Instance shadow_map_laws : OrderMapLaws (gmap Z Z) capacity full eq :=
  finite_map_laws capacity full.

Abbreviation RealBook := (LimitOrderBook Map Idx).
Abbreviation ShadowBook := (LimitOrderBook (gmap Z Z) Idx).

(** A cell of the book is the cell of the shadow with the id of its number. *)
Definition renamed (names : gmap Z Z) (c : Order) : Order :=
  mkOrder (name_of names (order_reference_number c)) (shares c) (price c) (next c) (prev c).

(** [pin]: a cell whose number is known. *)
Definition pinned (pin : option (Z * Z)) (g : ShadowBook) : Prop :=
  match pin with
  | Some (i, k) => ∃ c, (pool_ g).[i] = Some c ∧ order_reference_number c = k
  | None => True
  end.

Lemma pinned_pool pin g g' : pool_ g' = pool_ g → pinned pin g → pinned pin g'.
Proof. intros E. unfold pinned. destruct pin as [[i k]|]; [|done]. by rewrite E. Qed.

Record shadow (names current : gmap Z Z) (count : Z) (pin : option (Z * Z))
    (b : RealBook) (g : ShadowBook) : Prop := {
  sh_len : alen (pool_ b) = alen (pool_ g);
  sh_cell : ∀ i c, (pool_ g).[i] = Some c →
    0 ≤ order_reference_number c < count ∧ (pool_ b).[i] = Some (renamed names c);
  sh_levels : ∀ side, levels side b = levels side g;
  sh_bitset : ∀ side, bitset side b = bitset side g;
  sh_free : next_free_index_ b = next_free_index_ g;
  sh_map : ∃ K, omrep (orders_ b) K ∧ ∀ id, K !! id = current !! id ≫= λ k, orders_ g !! k;
  sh_current : ∀ id k, current !! id = Some k → k < count ∧ name_of names k = id;
  sh_keys : ∀ k, is_Some (orders_ g !! k) → k < count;
  sh_pin : pinned pin g
}.

Ltac frame_fields HR :=
  intros; bsimpl;
  by rewrite ?(sh_levels _ _ _ _ _ _ HR), ?(sh_bitset _ _ _ _ _ _ HR), ?(sh_free _ _ _ _ _ _ HR).

Section Steps.
Context (names current : gmap Z Z) (count : Z) (pin : option (Z * Z)).
Abbreviation R := (shadow names current count pin).

(** A cell read through its index. *)
Definition same_cell (i : Z) (c c' : Order) : Prop :=
  c = renamed names c' ∧
  match pin with Some (j, k) => i = j → order_reference_number c' = k | None => True end.

Lemma follows_load_order i : follows R R (load_order i) (load_order i) (same_cell i).
Proof.
  intros b g c g' HR. unfold load_order. rewrite !bind_gets.
  destruct ((pool_ g).[i]) as [c'|] eqn:E; [|done]. intros [= <- <-].
  destruct (sh_cell _ _ _ _ _ _ HR i c' E) as [_ Hb]. rewrite Hb.
  exists (renamed names c'), b. split; [done|]. split; [|done]. split; [done|].
  pose proof (sh_pin _ _ _ _ _ _ HR) as Hp. destruct pin as [[j k]|]; [|done].
  intros ->. destruct Hp as (c & Hc & <-). congruence.
Qed.

(** An update that leaves the id of the cell. *)
Lemma follows_update_order i f :
  (∀ c, f (renamed names c) = renamed names (f c) ∧
        order_reference_number (f c) = order_reference_number c) →
  follows R R (update_order i f) (update_order i f) eq.
Proof.
  intros Hf b g y g' HR. unfold update_order. rewrite !bind_gets.
  destruct ((pool_ g).[i]) as [c|] eqn:E; [|done]. cbn [of_option]. rewrite !bind_mret.
  pose proof (aget_Some_bounds _ _ _ E) as Hb. rewrite aput_in by done. intros [= <- <-].
  destruct (sh_cell _ _ _ _ _ _ HR i c E) as [Hc Hr]. rewrite Hr. cbn [of_option].
  rewrite bind_mret, aput_in by (by rewrite (sh_len _ _ _ _ _ _ HR)).
  eexists _, _. split; [done|]. split; [done|]. destruct (Hf c) as [Hf1 Hf2].
  constructor; bsimpl; try apply HR.
  - intros j c'. rewrite !aget_aset by (rewrite ?(sh_len _ _ _ _ _ _ HR); done).
    dcase; [|apply HR]. intros [= <-]. by rewrite Hf1, Hf2.
  - pose proof (sh_pin _ _ _ _ _ _ HR) as Hp. unfold pinned in *. destruct pin as [[j k]|]; [|done].
    destruct Hp as (c' & Hc' & Hk). rewrite pool_set_pool, aget_aset by done.
    dcase as Ej; [|by exists c']. exists (f c). split; [done|]. subst j. congruence.
Qed.

(** Changes outside the pool and the id map. *)
Lemma shadow_frame b g b' g' : R b g →
  pool_ b' = pool_ b → pool_ g' = pool_ g → orders_ b' = orders_ b → orders_ g' = orders_ g →
  (∀ side, levels side b' = levels side g') → (∀ side, bitset side b' = bitset side g') →
  next_free_index_ b' = next_free_index_ g' → R b' g'.
Proof.
  intros HR Hb Hg Ob Og Hl Hi Hf. constructor; rewrite ?Hb, ?Hg, ?Ob, ?Og; try done; try apply HR.
  eapply pinned_pool; [exact Hg|apply HR].
Qed.

Lemma follows_load_level side p : follows R R (load_level side p) (load_level side p) eq.
Proof.
  intros b g l g' HR. unfold load_level. rewrite !bind_gets, (sh_levels _ _ _ _ _ _ HR).
  destruct ((levels side g).[p]) as [c|]; [|done]. intros [= <- <-]. by exists c, b.
Qed.

Lemma follows_update_level side p f :
  follows R R (update_level side p f) (update_level side p f) eq.
Proof.
  intros b g y g' HR. unfold update_level. rewrite !bind_gets, (sh_levels _ _ _ _ _ _ HR).
  destruct ((levels side g).[p]) as [l|] eqn:E; [|done]. cbn [of_option]. rewrite !bind_mret.
  pose proof (aget_Some_bounds _ _ _ E) as Hb. rewrite aput_in by done. intros [= <- <-].
  eexists _, _. split; [done|]. split; [done|]. eapply shadow_frame; [exact HR|frame_fields HR..].
Qed.

Lemma follows_on_bitset {A} side (m : M Idx A) :
  follows R R (on_bitset side m) (on_bitset side m) eq.
Proof.
  intros b g y g' HR. unfold on_bitset, zoom. rewrite (sh_bitset _ _ _ _ _ _ HR).
  destruct (m (bitset side g)) as [r i]. intros [= -> <-].
  eexists _, _. split; [done|]. split; [done|]. eapply shadow_frame; [exact HR|frame_fields HR..].
Qed.

Lemma follows_get_free : follows R R (gets next_free_index_) (gets next_free_index_) eq.
Proof. apply follows_gets. intros b g HR. apply HR. Qed.

Lemma follows_set_free i : follows R R (modify (set_next_free i)) (modify (set_next_free i)) eq.
Proof.
  apply follows_modify. intros b g HR. eapply shadow_frame; [exact HR|frame_fields HR..].
Qed.

(** The lookup of an id is the lookup of the number it refers to. *)
Lemma lookup_follows b g id : R b g →
  on_orders (om_lookup id) b = (Ok (current !! id ≫= λ k, orders_ g !! k), b).
Proof.
  intros HR. destruct (sh_map _ _ _ _ _ _ HR) as (K & HK & Hmap). unfold on_orders.
  rewrite (zoom_eq _ _ _ _ _ _ (om_lookup_spec _ _ id HK)). rewrite Hmap. by destruct b.
Qed.

(** The id map has no more entries than the shadow's. *)
Lemma current_size b g (K : gmap Z Z) : R b g →
  (∀ id, K !! id = current !! id ≫= λ k, orders_ g !! k) → (size K ≤ size (orders_ g))%nat.
Proof.
  intros HR Hmap.
  set (num := λ id, default 0 (current !! id)).
  assert (∀ id, is_Some (K !! id) → ∃ k, current !! id = Some k ∧ is_Some (orders_ g !! k)) as Hk.
  { intros id [v Hv]. rewrite Hmap in Hv. destruct (current !! id) as [k|]; [|done]. eauto. }
  rewrite <- (length_map_to_list K), <- (length_fmap fst), <- (length_fmap num).
  assert (∀ id, id ∈ (map_to_list K).*1 → is_Some (K !! id)) as Hin.
  { intros id ([id' v] & -> & Hv)%list_elem_of_fmap. apply elem_of_map_to_list in Hv. eauto. }
  apply length_le_size.
  - apply NoDup_fmap_2_strong; [|apply NoDup_fst_map_to_list].
    intros x y Hx%Hin%Hk Hy%Hin%Hk Heq. destruct Hx as (k & Ex & _), Hy as (k' & Ey & _).
    unfold num in Heq. rewrite Ex, Ey in Heq. simpl in Heq. subst k'.
    apply (sh_current _ _ _ _ _ _ HR) in Ex as [_ <-]. by apply (sh_current _ _ _ _ _ _ HR) in Ey as [_ ->].
  - intros j (id & -> & (k & Ek & Hs)%Hin%Hk)%list_elem_of_fmap. unfold num. by rewrite Ek.
Qed.
End Steps.

Create HintDb follows.

(** Use what is known of the results of a step. *)
Ltac follow_intro :=
  let x := fresh "x" in let y := fresh "y" in let H := fresh "H" in
  intros x y H;
  lazymatch type of H with
  | same_cell _ _ _ _ _ => destruct H as [-> H]
  | _ => subst x
  end; cbn [renamed price next prev shares].

(** Solve a [follows] goal by the rules above. *)
Ltac follow :=
  lazymatch goal with
  | |- follows _ _ (mret _) _ _ => by apply follows_ret
  | |- follows _ _ (load_order _) _ _ => apply follows_load_order
  | |- follows _ _ (load_level _ _) _ _ => apply follows_load_level
  | |- follows _ _ (update_level _ _ _) _ _ => apply follows_update_level
  | |- follows _ _ (update_order _ _) _ _ => apply follows_update_order; by intros []
  | |- follows _ _ (on_bitset _ _) _ _ => apply follows_on_bitset
  | |- follows _ _ (gets next_free_index_) _ _ => apply follows_get_free
  | |- follows _ _ (modify _) _ _ => apply follows_set_free
  | |- follows _ _ (if _ then _ else _) _ _ => apply follows_if; follow
  | |- follows ?R _ ((if _ then _ else _) ≫= _) _ _ =>
      apply (follows_bind R R _ _ _ _ _ eq); [follow|follow_intro; follow]
  | |- follows ?R _ (on_orders _ ≫= _) _ _ =>
      apply (follows_bind R R _ _ _ _ _ eq); [follow|follow_intro; follow]
  | |- follows _ _ (_ ≫= _) _ _ => eapply follows_bind; [follow|follow_intro; follow]
  | |- _ => auto with follows
  end.

(** Adding an order to its level, and taking it out. *)
Lemma follows_add_level names current count pin side p i :
  follows (shadow names current count pin) (shadow names current count pin)
    (add_update_price_level side p i) (add_update_price_level side p i) eq.
Proof. unfold add_update_price_level. follow. Qed.

Lemma follows_execute_level names current count pin side p i :
  follows (shadow names current count pin) (shadow names current count pin)
    (execute_update_price_level side p i) (execute_update_price_level side p i) eq.
Proof. unfold execute_update_price_level. follow. Qed.

#[local] Hint Resolve follows_add_level follows_execute_level : follows.

(** Erasing the number an id refers to. *)
Lemma follows_erase names current count pin id k :
  current !! id = Some k →
  follows (shadow names current count pin) (shadow names current count pin)
    (on_orders (om_erase id)) (on_orders (om_erase k)) eq.
Proof.
  intros Hid b g y g' HR [= <- <-].
  destruct (sh_map _ _ _ _ _ _ HR) as (K & HK & Hmap).
  destruct (om_erase_spec _ _ id HK) as (t' & Ht & HK').
  exists tt, (set_orders t' b). split; [by apply zoom_eq|]. split; [done|].
  constructor; try apply HR; cycle 1.
  { intros k' [v Hv]. simpl in Hv. apply lookup_delete_Some in Hv as [_ Hv].
    apply (sh_keys _ _ _ _ _ _ HR). eauto. }
  exists (delete id K). split; [done|]. intros id'. rewrite lookup_delete. simpl.
  destruct (sh_current _ _ _ _ _ _ HR id k Hid) as [_ Hk]. case_decide as E.
  - subst id'. rewrite Hid. simpl. by rewrite lookup_delete_eq.
  - rewrite Hmap. destruct (current !! id') as [k'|] eqn:E'; [|done]. simpl.
    rewrite lookup_delete_ne; [done|]. intros <-.
    destruct (sh_current _ _ _ _ _ _ HR id' k E') as [_ ?]. congruence.
Qed.

(** A release follows when the cell holds the number its id refers to. *)
Lemma follows_release names current count side i id k :
  current !! id = Some k → name_of names k = id →
  follows (shadow names current count (Some (i, k))) (shadow names current count (Some (i, k)))
    (release_order_to_pool side i) (release_order_to_pool side i) eq.
Proof.
  intros Hid Hname. unfold release_order_to_pool. follow.
  cbn [renamed order_reference_number]. rewrite H2, Hname by done. by apply follows_erase.
Qed.

(** A cell taken for a new order gets the next number. *)
Lemma follows_set_parsed names current count i p :
  follows (shadow names current count None)
    (λ b g, shadow (<[count := ao_order_reference_number p]> names) current (count + 1)
              (Some (i, count)) b g ∧ orders_ g !! count = None)
    (update_order i (set_parsed p)) (update_order i (set_parsed (with_add_id count p))) eq.
Proof.
  intros b g y g' HR. unfold update_order. rewrite !bind_gets.
  destruct ((pool_ g).[i]) as [c|] eqn:E; [|done]. cbn [of_option]. rewrite !bind_mret.
  pose proof (aget_Some_bounds _ _ _ E) as Hb. rewrite aput_in by done. intros [= <- <-].
  destruct (sh_cell _ _ _ _ _ _ HR i c E) as [Hc Hr]. rewrite Hr. cbn [of_option].
  rewrite bind_mret, aput_in by (by rewrite (sh_len _ _ _ _ _ _ HR)).
  eexists _, _. split; [done|]. split; [done|]. split; cycle 1.
  { apply eq_None_not_Some. intros Hk. apply (sh_keys _ _ _ _ _ _ HR) in Hk. lia. }
  constructor; bsimpl; try apply HR.
  - intros j c'. rewrite !aget_aset by (rewrite ?(sh_len _ _ _ _ _ _ HR); done).
    dcase; [intros [= <-]|intros Hj].
    + unfold renamed, set_parsed, name_of. simpl. rewrite lookup_insert_eq. simpl. split; [lia|done].
    + destruct (sh_cell _ _ _ _ _ _ HR j c' Hj) as [Hc' Hr']. split; [lia|].
      rewrite Hr'. unfold renamed, name_of. rewrite lookup_insert_ne by lia. done.
  - intros id k Hk. destruct (sh_current _ _ _ _ _ _ HR id k Hk) as [Hlt Hn]. split; [lia|].
    unfold name_of. by rewrite lookup_insert_ne by lia.
  - intros k Hk. apply (sh_keys _ _ _ _ _ _ HR) in Hk. lia.
  - exists (set_parsed (with_add_id count p) c). rewrite pool_set_pool. split; [|done].
    by apply aget_aset_eq.
Qed.

(** Entering the id of a new order in the map. *)
Lemma follows_assign names current count pin id v :
  name_of names count = id →
  follows (λ b g, shadow names current (count + 1) pin b g ∧ orders_ g !! count = None)
    (shadow names (<[id := count]> current) (count + 1) pin)
    (on_orders (om_assign id v)) (on_orders (om_assign count v)) eq.
Proof.
  intros Hname b g y g' [HR Hnew] Hg. unfold on_orders, zoom in Hg. simpl in Hg. rewrite Hnew in Hg.
  destruct (Z.ltb_spec (Z.of_nat (size (orders_ g))) capacity) as [Hsize|]; [|done].
  injection Hg as <- <-. destruct (sh_map _ _ _ _ _ _ HR) as (K & HK & Hmap).
  destruct (om_assign_spec _ _ id v HK) as (t' & Ht & HK').
  { right. pose proof (current_size _ _ _ _ _ _ _ HR Hmap). lia. }
  exists tt, (set_orders t' b). split; [by apply zoom_eq|]. split; [done|].
  constructor; try apply HR.
  - exists (<[id := v]> K). split; [done|]. intros id'. rewrite !lookup_insert. simpl.
    case_decide as E; simpl; [by rewrite lookup_insert_eq|]. rewrite Hmap.
    destruct (current !! id') as [k|] eqn:E'; [|done]. simpl. rewrite lookup_insert_ne; [done|].
    intros <-. destruct (sh_current _ _ _ _ _ _ HR id' count E') as [_ ?]. congruence.
  - intros id' k. rewrite lookup_insert. case_decide as E; [|apply HR]. intros [= <-].
    split; [lia|congruence].
  - intros k [w Hw]. simpl in Hw. apply lookup_insert_Some in Hw as [[<- _]|[_ Hw]]; [lia|].
    apply (sh_keys _ _ _ _ _ _ HR). eauto.
Qed.

Lemma load_order_reads {Map' Idx'} i (b : LimitOrderBook Map' Idx') : (load_order i b).2 = b.
Proof. unfold load_order. rewrite bind_gets. by destruct ((pool_ b).[i]). Qed.

Lemma follows_add_impl names current count side p :
  follows (shadow names current count None)
    (λ b g, ∃ i, shadow (<[count := ao_order_reference_number p]> names)
                   (<[ao_order_reference_number p := count]> current) (count + 1) (Some (i, count)) b g)
    (add_order_impl side p) (add_order_impl side (with_add_id count p)) eq.
Proof.
  unfold add_order_impl.
  do 3 (eapply follows_bind; [follow|follow_intro]).
  eapply follows_bind; [apply follows_set_parsed|follow_intro].
  eapply follows_bind; [apply follows_read; [apply follows_load_order|apply load_order_reads..]|].
  follow_intro. cbn [renamed order_reference_number]. rewrite H0 by done.
  set (id := ao_order_reference_number p).
  assert (name_of (<[count := id]> names) count = id) as Hname.
  { unfold name_of. by rewrite lookup_insert_eq. }
  rewrite Hname.
  eapply follows_bind; [by apply follows_assign|follow_intro].
  eapply follows_bind; [follow|follow_intro].
  intros b g u g' HR Hg. edestruct follows_on_bitset as (z & b' & Hb & HQ & HR'); [exact HR|exact Hg|].
  exists z, b'. split_and!; [done..|]. by eexists.
Qed.

Lemma shadow_pin names current count pin pin' b g :
  shadow names current count pin b g → pinned pin' g → shadow names current count pin' b g.
Proof. intros HR Hp. constructor; try apply HR. done. Qed.

(** * The operations *)

Context (max_orders : Z).

Abbreviation shadow_rep := (book_rep (Map := gmap Z Z) eq idxrep capacity max_orders).

Definition any_rep (b : RealBook) (s : AnyBook) : Prop :=
  ∃ g, shadow (any_name s) (any_current s) (any_count s) None b g ∧ shadow_rep g (any_book s).

Lemma shadow_live g m loc free K k : book_rep_at (Map := gmap Z Z) eq idxrep capacity max_orders g m loc free K →
  orders_ g !! k = (λ o, tag (mo_side o) (ix loc k)) <$> mk_orders m !! k.
Proof. intros R. rewrite (br_map _ _ _ _ _ _ _ _ _ R). apply R. Qed.

(** The next number is not live. *)
Lemma count_fresh names current count pin b g m :
  shadow names current count pin b g → shadow_rep g m → mk_orders m !! count = None.
Proof.
  intros HR (loc & free & K & R). apply eq_None_not_Some. intros [o Ho].
  pose proof (sh_keys _ _ _ _ _ _ HR count) as H. rewrite (shadow_live _ _ _ _ _ _ R), Ho in H.
  assert (count < count) by (apply H; eauto). lia.
Qed.

Lemma add_order_any b s p : any_rep b s → 0 ≤ ao_price p →
  ∃ b', add_order p b = (Ok tt, b') ∧ any_rep b' (any_add max_orders p s).
Proof.
  intros (g & HR & Hrep) Hp. pose proof Hrep as (loc & free & K & R).
  pose proof (free_empty_iff _ _ _ _ _ _ _ _ _ R) as Hfree.
  unfold add_order, any_add, accepted. set (k := any_count s).
  assert (any_rep b s) as Hsame by (by exists g).
  destruct (Z.ltb_spec (ao_price p) MAX_TICKS) as [Ep|Ep];
    [rewrite (proj2 (Z.leb_gt _ _) Ep)|rewrite (proj2 (Z.leb_le _ _) Ep); by exists b].
  rewrite bind_gets, (sh_free _ _ _ _ _ _ HR).
  destruct (Z.eqb_spec (next_free_index_ g) NULL_INDEX) as [E|E]; zcase as Ec;
    try (exfalso; tauto || lia); cbn [andb]; [by exists b|].
  destruct (add_order_rep eq idxrep capacity full max_orders g (any_book s) (with_add_id k p))
    as (g' & Hg & Hrep'); [done|done|by eapply count_fresh|].
  unfold add_order in Hg. cbn [with_add_id ao_price ao_indicator] in Hg.
  rewrite (proj2 (Z.leb_gt _ _) Ep), bind_gets, (proj2 (Z.eqb_neq _ _) E) in Hg.
  assert (∃ side, (if ao_indicator p =? char_B then add_order_impl Buy p else add_order_impl Sell p)
    = add_order_impl (Map := Map) (Idx := Idx) side p ∧
    add_order_impl side (with_add_id k p) g = (Ok tt, g')) as (side & -> & Hg').
  { destruct (ao_indicator p =? char_B); eauto. }
  destruct (follows_add_impl _ _ _ side p b g tt g' HR Hg') as (x & b' & Hb & -> & i & HR').
  exists b'. split; [done|]. exists g'. split; [|done]. by eapply shadow_pin.
Qed.

(** The number an id refers to, when it is live, is the one in its cell. *)
Lemma shadow_pin_live names current count b g m loc free K k o :
  shadow names current count None b g →
  book_rep_at (Map := gmap Z Z) eq idxrep capacity max_orders g m loc free K →
  mk_orders m !! k = Some o → shadow names current count (Some (ix loc k, k)) b g.
Proof.
  intros HR R Ho. eapply shadow_pin; [exact HR|].
  destruct (live_cell _ _ _ _ R k o Ho) as (c & Hc & Hk & _). by exists c.
Qed.

(** The part that cancellation and execution share. *)
Lemma follows_decoded names current count (c : bool) i id k :
  current !! id = Some k → name_of names k = id →
  follows (shadow names current count (Some (i, k))) (shadow names current count (Some (i, k)))
    (if c then release_order_to_pool Sell i else release_order_to_pool Buy i)
    (if c then release_order_to_pool Sell i else release_order_to_pool Buy i) eq.
Proof. intros Hid Hname. apply follows_if; by eapply follows_release. Qed.

Lemma cancel_order_any b s id k : any_rep b s → any_current s !! id = Some k →
  ∃ b', cancel_order id b = (Ok tt, b') ∧
        any_rep b' (set_any_book (mock_cancel_order k (any_book s)) s).
Proof.
  intros (g & HR & Hrep) Hid. pose proof Hrep as (loc & free & K & R).
  destruct (cancel_order_rep eq idxrep capacity full max_orders g (any_book s) k Hrep)
    as (g' & Hg & Hrep').
  unfold cancel_order in *. mstep (lookup_follows _ _ _ _ _ _ id HR). rewrite Hid.
  cbn [mbind option_bind]. rewrite (shadow_live _ _ _ _ _ _ R).
  rewrite (bind_ok _ _ _ _ _ (lookup_run eq idxrep capacity full max_orders _ _ _ _ _ k R)) in Hg.
  destruct (mk_orders (any_book s) !! k) as [o|] eqn:Ho; simpl in *.
  - pose proof (shadow_pin_live _ _ _ _ _ _ _ _ _ _ _ HR R Ho) as HP.
    destruct (br_max _ _ _ _ _ _ _ _ _ R). pose proof (live_range _ _ _ _ R k o Ho).
    rewrite tag_index in * by lia.
    destruct (sh_current _ _ _ _ _ _ HR id k Hid) as [_ Hname].
    destruct (follows_decoded _ _ _ _ _ _ _ Hid Hname _ _ _ _ HP Hg) as (x & b' & Hb & -> & HR').
    exists b'. split; [done|]. exists g'. split; [|done]. by eapply shadow_pin.
  - exists b. split; [done|]. exists g. injection Hg as <-. done.
Qed.

Lemma follows_write_shares names current count (c : bool) i id k n :
  current !! id = Some k → name_of names k = id →
  follows (shadow names current count (Some (i, k))) (shadow names current count (Some (i, k)))
    (update_order i (set_shares n);; curr_order ← load_order i;
     if shares curr_order =? 0
     then if c then release_order_to_pool Sell i else release_order_to_pool Buy i else mret tt)
    (update_order i (set_shares n);; curr_order ← load_order i;
     if shares curr_order =? 0
     then if c then release_order_to_pool Sell i else release_order_to_pool Buy i else mret tt) eq.
Proof. intros Hid Hname. follow; by eapply follows_release. Qed.

Lemma execute_order_any b s p k : any_rep b s →
  any_current s !! eo_order_reference_number p = Some k →
  let spec := spec_execute_order (with_execute_id k p) (any_book s) in
  ∃ b', execute_order p b = (spec.1, b') ∧ any_rep b' (set_any_book spec.2 s).
Proof.
  intros (g & HR & Hrep) Hid spec. pose proof Hrep as (loc & free & K & R).
  destruct (execute_order_rep eq idxrep capacity full max_orders g (any_book s) (with_execute_id k p) Hrep)
    as (g' & Hg & Hrep'). fold spec in Hg, Hrep'.
  unfold execute_order in *. mstep (lookup_follows _ _ _ _ _ _ (eo_order_reference_number p) HR).
  rewrite Hid. cbn [mbind option_bind]. rewrite (shadow_live _ _ _ _ _ _ R).
  cbn [with_execute_id eo_order_reference_number] in Hg.
  rewrite (bind_ok _ _ _ _ _ (lookup_run eq idxrep capacity full max_orders _ _ _ _ _ k R)) in Hg.
  unfold spec, spec_execute_order in *. cbn [with_execute_id eo_order_reference_number eo_shares] in *.
  destruct (mk_orders (any_book s) !! k) as [o|] eqn:Ho; cbn [fmap option_fmap option_map] in *;
    [|exists b; split; [done|]; exists g; injection Hg as <-; done].
  pose proof (shadow_pin_live _ _ _ _ _ _ _ _ _ _ _ HR R Ho) as HP.
  destruct (br_max _ _ _ _ _ _ _ _ _ R). pose proof (live_range _ _ _ _ R k o Ho).
  rewrite tag_index in * by lia.
  destruct (sh_current _ _ _ _ _ _ HR _ k Hid) as [_ Hname].
  destruct (live_cell _ _ _ _ R k o Ho) as (c & Hc & Hk & Hsh & _).
  destruct (sh_cell _ _ _ _ _ _ HR _ c Hc) as [_ Hb].
  mstep (load_order_run _ _ _ Hb). rewrite (bind_ok _ _ _ _ _ (load_order_run _ _ _ Hc)) in Hg.
  cbn [renamed shares] in *. rewrite Hsh in *.
  destruct (mo_shares o <? eo_shares p); [exists b; split; [done|]; exists g; injection Hg as <-; done|].
  destruct (follows_write_shares _ _ _ _ _ _ _ _ Hid Hname _ _ _ _ HP Hg) as (x & b' & Hb' & -> & HR').
  exists b'. split; [done|]. exists g'. split; [|done]. by eapply shadow_pin.
Qed.

(** * The new book *)

Lemma link_pool_zero n i (a a' : array Order) : link_pool n i a = Some a' →
  (∀ j c, a.[j] = Some c → order_reference_number c = 0) →
  ∀ j c, a'.[j] = Some c → order_reference_number c = 0.
Proof.
  revert i a. induction n as [|n IH]; simpl; intros i a Hl Ha; [by injection Hl as <-|].
  destruct (a.[i - 1]) as [o|] eqn:Eo; [|done].
  pose proof (aget_Some_bounds _ _ _ Eo) as Hb. rewrite aput_in in Hl by done.
  eapply IH; [exact Hl|]. intros j c. rewrite aget_aset by done. dcase; [|by apply Ha].
  intros [= <-]. simpl. by eapply Ha.
Qed.

Lemma any_rep_new orders idx b :
  0 < max_orders ≤ 2 ^ 31 → max_orders ≤ capacity → omrep orders ∅ → idxrep idx ∅ →
  LimitOrderBook_new max_orders true orders idx = Ok b → any_rep b any_empty.
Proof.
  intros Hmax Hcap Hom Hidx Hnew.
  destruct (new_pool max_orders Hmax) as (a & a' & o & Hlink & Ho & Hput & Hlen & Hseg).
  assert (∀ (Map' : Type) (os : Map'), LimitOrderBook_new max_orders true os idx = Ok (mkBook a'
    (anew MAX_TICKS (mkLevel NULL_INDEX NULL_INDEX)) (anew MAX_TICKS (mkLevel NULL_INDEX NULL_INDEX))
    os idx idx 0)) as Hbook.
  { intros Map' os. unfold LimitOrderBook_new. rewrite (proj2 (Z.eqb_neq max_orders 0)) by lia.
    by rewrite pool_bytes_exact, Hlink, Ho, Hput. }
  rewrite Hbook in Hnew. injection Hnew as <-. eexists. split; cycle 1.
  { eapply (new_book_rep eq idxrep capacity max_orders ∅ idx); done. }
  assert (∀ j c, a'.[j] = Some c → order_reference_number c = 0) as Hzero.
  { intros j c. pose proof (aget_Some_bounds _ _ _ Ho) as Hb. rewrite aput_in in Hput by done.
    injection Hput as <-. rewrite aget_aset by done.
    assert (∀ j c, a.[j] = Some c → order_reference_number c = 0) as Ha.
    { eapply link_pool_zero; [exact Hlink|]. intros j' c' Hc'.
      pose proof (aget_Some_bounds _ _ _ Hc') as Hj. rewrite aget_anew in Hc' by done.
      by injection Hc' as <-. }
    dcase; [intros [= <-]; simpl; by eapply Ha|apply Ha]. }
  constructor; simpl; try done.
  - intros i c Hc. rewrite Hc. pose proof (Hzero i c Hc) as Hid. split; [lia|]. destruct c. simpl in *.
    by subst.
  - by exists ∅.
  - by intros k [].
Qed.

(** * Sequences of orders *)

Lemma best_bid_any b s : any_rep b s → book_best_bid b = (Ok (mock_best_bid (any_book s)), b).
Proof.
  intros (g & HR & (loc & free & K & R)). unfold book_best_bid, on_bitset, zoom.
  rewrite (sh_bitset _ _ _ _ _ _ HR Buy).
  rewrite (idx_best_bid_spec _ _ (br_bitset _ _ _ _ _ _ _ _ _ R Buy)).
  rewrite <- (sh_bitset _ _ _ _ _ _ HR Buy). by destruct b.
Qed.

Lemma best_offer_any b s :
  any_rep b s → book_best_offer b = (Ok (mock_best_offer (any_book s)), b).
Proof.
  intros (g & HR & (loc & free & K & R)). unfold book_best_offer, on_bitset, zoom.
  rewrite (sh_bitset _ _ _ _ _ _ HR Sell).
  rewrite (idx_best_offer_spec _ _ (br_bitset _ _ _ _ _ _ _ _ _ R Sell)).
  rewrite <- (sh_bitset _ _ _ _ _ _ HR Sell). by destruct b.
Qed.

(** The linked lists of the book are those of its shadow with the ids. *)
Lemma walk_shadow names current count pin b g n i :
  shadow names current count pin b g →
  walk n (pool_ b) i = option_map (map (renamed names)) (walk n (pool_ g) i).
Proof.
  intros HR. revert i. induction n as [|n IH]; intros i; simpl; [by destruct (_ =? _)|].
  destruct (i =? NULL_INDEX); [done|]. destruct ((pool_ g).[i]) as [c|] eqn:E.
  - destruct (sh_cell _ _ _ _ _ _ HR i c E) as [_ ->]. simpl. rewrite IH. by destruct (walk _ _ _).
  - rewrite aget_out; [done|]. rewrite (sh_len _ _ _ _ _ _ HR). intros [x Hx]%(aget_in (pool_ g)).
    congruence.
Qed.

Lemma level_orders_any side p b s : any_rep b s → 0 ≤ p < MAX_TICKS →
  level_orders side p b = Some (any_queue side p s).
Proof.
  intros (g & HR & Hrep) Hp. pose proof (level_orders_rep _ _ _ _ side p _ _ Hrep Hp) as Hg.
  unfold level_orders, any_queue in *. rewrite (sh_levels _ _ _ _ _ _ HR).
  destruct ((levels side g).[p]) as [pl|]; [|done].
  rewrite (walk_shadow _ _ _ _ _ _ _ _ HR), (sh_len _ _ _ _ _ _ HR).
  destruct (walk _ _ _) as [l|]; [|done]. injection Hg as <-. simpl. f_equal.
  rewrite <- !list_fmap_compose. done.
Qed.
End Shadow.

(** * The book of the program *)

Section Program.
Context (max_orders page_size : Z).

Definition book_any (b : Book) (s : AnyBook) : Prop :=
  any_rep (map_rep ORDER_MAP_SIZE) (bitset_rep MAX_TICKS) ORDER_MAP_SIZE max_orders b s.

Lemma book_any_new b : 0 < max_orders ≤ ORDER_MAP_SIZE →
  new_book max_orders page_size true true = Ok b → book_any b any_empty.
Proof.
  intros Hmax Hnew. assert (ORDER_MAP_SIZE = 2 ^ 22) as Hsize by done.
  eapply any_rep_new in Hnew; [exact Hnew|lia|lia| |].
  - eapply StaticOrderMap_new_rep; [|reflexivity]. by exists 22.
  - apply bitset_new_rep. by unfold MAX_TICKS.
Qed.

(** An id that refers to no number is not in the map. *)
Lemma lookup_unknown b s id : book_any b s → any_current s !! id = None →
  on_orders (om_lookup id) b = (Ok None, b).
Proof.
  intros (g & HR & _) Hid. by rewrite (lookup_follows _ _ map_full _ _ _ _ _ _ id HR), Hid.
Qed.

Lemma dispatch_any b s o : book_any b s → price_ok o = true →
  ∃ b', dispatch o b = ((any_dispatch max_orders o s).1, b') ∧
        book_any b' (any_dispatch max_orders o s).2.
Proof.
  intros Hb Ho. destruct o as [p|p|p]; simpl in *.
  - apply Z.leb_le in Ho. by apply (add_order_any _ _ _ map_full).
  - destruct (any_current s !! _) as [k|] eqn:Ek.
    + destruct (execute_order_any _ _ _ map_full _ _ _ _ _ Hb Ek) as (b' & Hrun & Hb').
      destruct (spec_execute_order _ _). by exists b'.
    + unfold execute_order. mstep (lookup_unknown _ _ _ Hb Ek). by exists b.
  - destruct (any_current s !! _) as [k|] eqn:Ek.
    + by apply (cancel_order_any _ _ _ map_full).
    + unfold cancel_order. mstep (lookup_unknown _ _ _ Hb Ek). by exists b.
Qed.

Lemma any_dispatch_outcome o s :
  (any_dispatch max_orders o s).1 = Ok tt ∨ (any_dispatch max_orders o s).1 = Throw too_few_shares.
Proof.
  destruct o as [p|p|p]; simpl; [by left| |by destruct (_ !! _); left].
  destruct (any_current s !! _) as [k|]; [|by left]. unfold spec_execute_order. simpl.
  destruct (mk_orders _ !! _); [|by left]. destruct (_ <? _); [by right|by left].
Qed.

Lemma observe_any os b s : book_any b s → forallb price_ok os = true →
  (observe os b).1 = (any_observe max_orders os s).1 ∧
  book_any (observe os b).2 (any_observe max_orders os s).2.
Proof.
  revert b s. induction os as [|o os IH]; intros b s Hrep Hf; simpl in *; [done|].
  apply andb_true_iff in Hf as [Ho Hf].
  destruct (dispatch_any b s o Hrep Ho) as (b1 & Hrun & Hrep1). rewrite Hrun.
  destruct (any_dispatch max_orders o s) as [r s1]; simpl in *.
  destruct (IH b1 s1 Hrep1 Hf) as [Hobs Hrep2].
  destruct (observe os b1), (any_observe max_orders os s1); simpl in *.
  rewrite (best_bid_any _ _ _ _ _ _ Hrep1), (best_offer_any _ _ _ _ _ _ Hrep1).
  split; [by f_equal|done].
Qed.

Lemma any_observe_outcomes os s :
  Forall (λ r, r.1.1 = Ok tt ∨ r.1.1 = Throw too_few_shares) (any_observe max_orders os s).1.
Proof.
  revert s. induction os as [|o os IH]; intros s; simpl; [constructor|].
  pose proof (any_dispatch_outcome o s) as Ho. destruct (any_dispatch max_orders o s) as [r s1].
  specialize (IH s1). destruct (any_observe max_orders os s1). by constructor.
Qed.
End Program.

(** C7 The book on every sequence of orders, with no condition on their ids:
    it returns from each or throws the "less shares" exception, as the
    contract says, with the contract's best prices, and never touches memory
    outside its arrays; every price level lists the ids and remaining shares
    of the contract's queue in order of arrival.  An addition with the id of
    a live order hides that order: it keeps its place in the level and the id
    refers to the new one. *)
Theorem book_on_any_orders max_orders page_size os b :
  0 < max_orders ≤ ORDER_MAP_SIZE → new_book max_orders page_size true true = Ok b →
  forallb price_ok os = true →
  (observe os b).1 = (any_observe max_orders os any_empty).1 ∧
  Forall (λ r, r.1.1 = Ok tt ∨ r.1.1 = Throw too_few_shares) (observe os b).1 ∧
  ∀ side p, 0 ≤ p < MAX_TICKS →
    level_orders side p (observe os b).2 =
    Some (any_queue side p (any_observe max_orders os any_empty).2).
Proof.
  intros Hmax Hnew Hf.
  destruct (observe_any max_orders os b any_empty) as [Hobs Hrep];
    [by eapply book_any_new|done|].
  split_and!; [done|rewrite Hobs; apply any_observe_outcomes|].
  intros side p Hp. by eapply level_orders_any.
Qed.

(** Two live orders with id 1, an execution of each kind, a cancellation and
    a cancellation of the hidden order, which does nothing. *)
Definition repeated_ids : list NormalizedOrder :=
  [sample_add 1 100 500 char_B; sample_add 1 50 500 char_B; sample_execute 1 60;
   sample_execute 1 20; sample_add 1 7 600 char_S; sample_cancel 1; sample_cancel 1].

Lemma book_on_any_orders_witness :
  ∃ b, new_book 4 4096 true true = Ok b ∧
       (fst ∘ fst) <$> (observe repeated_ids b).1 =
         [Ok tt; Ok tt; Throw too_few_shares; Ok tt; Ok tt; Ok tt; Ok tt] ∧
       level_orders Buy 500 (observe repeated_ids b).2 = Some [(1, 100); (1, 30)].
Proof.
  destruct (new_book 4 4096 true true) as [b| | |] eqn:E; [|discriminate E..].
  exists b. split; [reflexivity|].
  destruct (book_on_any_orders 4 4096 repeated_ids b) as (Hobs & _ & Hlev);
    [by vm_compute|exact E|by vm_compute|].
  rewrite Hobs, Hlev by (by vm_compute). clear. split; by vm_compute.
Defined.
