(* ===== verification/SPSCQueue.v ===== *)
(** [utils::SPSCQueue] (src/src/utils/spscqueue.h): the single-producer
    single-consumer ring buffer between the parser and the book.

    Two models of the same code:

    - [push] and [pop] are the whole member functions run one at a time; the
      refinement theorem says that they are a bounded list queue.
    - [step] interleaves the two threads at the granularity of the shared
      accesses.  Each of the atomics [tail_] and [head_] has one writer; it is
      the history of the values stored to it, and an acquire load by the
      other thread may return any value that is not older than the last one
      that thread has read (C++ coherence), so stale reads are covered.  A
      slot of [data_] is an ordinary memory cell.

    For every interleaving: the elements come out in the order they went in,
    none is lost or duplicated, at most Size - 1 are stored, every slot access
    is inside the array, and the accesses to a slot by the two threads are
    ordered by a release store that the other side has read (no data race). *)

From S2P Require Import Prelude.

(** * The sequential model *)

Section Queue.
Context {T : Type} (Size : Z).

Record SPSCQueue : Type := mkQueue {
  tail_ : Z;
  cached_head_ : Z;
  head_ : Z;
  cached_tail_ : Z;
  data_ : array T
}.

(** [default_data] is the content of the slots before the first push. *)
Definition SPSCQueue_new (default_data : T) : SPSCQueue :=
  mkQueue 0 0 0 0 (anew Size default_data).

Definition set_tail_ (x : Z) (q : SPSCQueue) : SPSCQueue :=
  mkQueue x (cached_head_ q) (head_ q) (cached_tail_ q) (data_ q).
Definition set_cached_head (x : Z) (q : SPSCQueue) : SPSCQueue :=
  mkQueue (tail_ q) x (head_ q) (cached_tail_ q) (data_ q).
Definition set_head_ (x : Z) (q : SPSCQueue) : SPSCQueue :=
  mkQueue (tail_ q) (cached_head_ q) x (cached_tail_ q) (data_ q).
Definition set_cached_tail (x : Z) (q : SPSCQueue) : SPSCQueue :=
  mkQueue (tail_ q) (cached_head_ q) (head_ q) x (data_ q).
Definition set_data (a : array T) (q : SPSCQueue) : SPSCQueue :=
  mkQueue (tail_ q) (cached_head_ q) (head_ q) (cached_tail_ q) a.

(** [(i + 1) & (Size - 1)] on [size_t]. *)
Definition next_idx (i : Z) : Z := Z.land (u64 (i + 1)) (Size - 1).

(** Both overloads: they differ in how the element is assigned. *)
Definition push (input : T) : M SPSCQueue bool :=
  tail_idx ← gets tail_;
  let next_tail_idx := next_idx tail_idx in
  cached ← gets cached_head_;
  full ← (if cached =? next_tail_idx then
            head ← gets head_;
            modify (set_cached_head head);;
            mret (head =? next_tail_idx)
          else mret false);
  if (full : bool) then mret false
  else
    a ← gets data_; a' ← of_option (aput a tail_idx input);
    modify (set_data a');;
    modify (set_tail_ next_tail_idx);;
    mret true.

(** [Some x] is a return of true with the output set to [x]. *)
Definition pop : M SPSCQueue (option T) :=
  head_idx ← gets head_;
  let next_head_idx := next_idx head_idx in
  cached ← gets cached_tail_;
  empty ← (if head_idx =? cached then
             tail ← gets tail_;
             modify (set_cached_tail tail);;
             mret (head_idx =? tail)
           else mret false);
  if (empty : bool) then mret None
  else
    a ← gets data_; output ← of_option (a.[head_idx]);
    modify (set_head_ next_head_idx);;
    mret (Some output).

(** ** The list the queue holds *)

(** [h], [t] count the pops and the pushes; [sh], [st] are the counts behind
    the cached indices. *)
Record queue_rep_at (q : SPSCQueue) (l : list T) (h t sh st : Z) : Prop := {
  qr_size : ∃ e, 0 ≤ e ≤ 63 ∧ Size = 2 ^ e;
  qr_order : 0 ≤ sh ≤ h ∧ h ≤ st ≤ t ∧ t < sh + Size;
  qr_tail : tail_ q = t mod Size;
  qr_head : head_ q = h mod Size;
  qr_cached_head : cached_head_ q = sh mod Size;
  qr_cached_tail : cached_tail_ q = st mod Size;
  qr_len : alen (data_ q) = Size;
  qr_length : Z.of_nat (length l) = t - h;
  qr_data : ∀ j x, l !! j = Some x → (data_ q).[(h + Z.of_nat j) mod Size] = Some x
}.

Definition queue_rep (q : SPSCQueue) (l : list T) : Prop :=
  ∃ h t sh st, queue_rep_at q l h t sh st.

Lemma next_idx_mod n : (∃ e, 0 ≤ e ≤ 63 ∧ Size = 2 ^ e) →
  next_idx (n mod Size) = (n + 1) mod Size.
Proof.
  intros (e & He & HS). unfold next_idx. rewrite HS, land_mask, u64_mod by lia.
  assert (0 < 2 ^ e) by (apply Z.pow_pos_nonneg; lia). by rewrite Zplus_mod_idemp_l.
Qed.

Lemma size_pos : (∃ e, 0 ≤ e ≤ 63 ∧ Size = 2 ^ e) → 0 < Size.
Proof. intros (e & He & ->). apply Z.pow_pos_nonneg; lia. Qed.

(** The full test of [push], against any known head count. *)
Lemma full_test t sh : 0 < Size → sh ≤ t < sh + Size →
  (sh mod Size =? (t + 1) mod Size) = (t - sh =? Size - 1).
Proof.
  intros HS Ht. destruct (Z.eqb_spec (t - sh) (Size - 1)) as [E|E].
  - apply Z.eqb_eq. replace (t + 1) with (sh + 1 * Size) by lia. by rewrite Z_mod_plus_full.
  - apply Z.eqb_neq. intros Hm. apply mod_inj_near in Hm; lia.
Qed.

(** The empty test of [pop]. *)
Lemma empty_test h st : 0 < Size → h ≤ st < h + Size →
  (h mod Size =? st mod Size) = (h =? st).
Proof.
  intros HS Hst. destruct (Z.eqb_spec h st) as [->|E]; [apply Z.eqb_refl|].
  apply Z.eqb_neq. intros Hm. apply mod_inj_near in Hm; lia.
Qed.

Lemma SPSCQueue_new_rep e d : 0 ≤ e ≤ 63 → Size = 2 ^ e → queue_rep (SPSCQueue_new d) [].
Proof.
  intros He HS. exists 0, 0, 0, 0.
  assert (0 < Size) by (apply size_pos; eauto).
  constructor; simpl; rewrite ?Z.mod_0_l by lia; eauto; try lia; done.
Qed.

Lemma push_rep q l x : queue_rep q l →
  ∃ q', push x q = (Ok (Z.of_nat (length l) <? Size - 1), q') ∧
        queue_rep q' (if Z.of_nat (length l) <? Size - 1 then l ++ [x] else l).
Proof.
  intros (h & t & sh & st & R). destruct R as [Hs Ho Ht Hh Hch Hct Hlen Hl Hd].
  pose proof (size_pos Hs) as HS. unfold push. munfold.
  rewrite Ht, Hch, (next_idx_mod _ Hs), (full_test t sh) by lia.
  assert (0 ≤ t mod Size < alen (data_ q)) as Hslot by (rewrite Hlen; by apply Z.mod_pos_bound).
  assert (∀ sh' q', sh ≤ sh' ≤ h → t < sh' + Size - 1 → tail_ q' = t mod Size →
    head_ q' = h mod Size → cached_head_ q' = sh' mod Size → cached_tail_ q' = st mod Size →
    data_ q' = data_ q →
    queue_rep (set_tail_ ((t + 1) mod Size) (set_data (aset (data_ q) (t mod Size) x) q')) (l ++ [x]))
    as Hpush.
  { intros sh' q' Hsh' Hroom Ht' Hh' Hch' Hct' Hd'. exists h, (t + 1), sh', st.
    constructor; simpl; rewrite ?length_app; simpl; try done; try lia.
    intros j y [Hj|[Hj Hy]]%lookup_app_Some.
    - pose proof (lookup_lt_Some _ _ _ Hj). rewrite aget_aset_ne; [by apply Hd|].
      intros E. apply mod_inj_near in E; lia.
    - apply list_lookup_singleton_Some in Hy as [Hj' <-].
      replace (h + Z.of_nat j) with t by lia. by apply aget_aset_eq. }
  rewrite Hl. destruct (Z.eqb_spec (t - sh) (Size - 1)) as [E|E].
  - rewrite Hh, (full_test t h) by lia. destruct (Z.eqb_spec (t - h) (Size - 1)) as [E'|E'].
    + rewrite (proj2 (Z.ltb_ge _ _)) by lia. eexists. split; [done|].
      exists h, t, h, st. constructor; simpl; try done; lia.
    + rewrite (proj2 (Z.ltb_lt _ _)) by lia. simpl. rewrite aput_in by done. eexists. split; [done|].
      apply (Hpush h); simpl; try done; lia.
  - rewrite (proj2 (Z.ltb_lt _ _)) by lia. rewrite aput_in by done. eexists. split; [done|].
    apply (Hpush sh); simpl; try done; lia.
Qed.

Lemma pop_rep q l : queue_rep q l →
  ∃ q', pop q = (Ok (hd_error l), q') ∧ queue_rep q' (tail l).
Proof.
  intros (h & t & sh & st & R). destruct R as [Hs Ho Ht Hh Hch Hct Hlen Hl Hd].
  pose proof (size_pos Hs) as HS. unfold pop. munfold.
  rewrite Hct, Hh, (next_idx_mod _ Hs), (empty_test h st) by lia.
  assert (∀ st' q' x l', l = x :: l' → h < st' ≤ t → tail_ q' = t mod Size →
    cached_head_ q' = sh mod Size → cached_tail_ q' = st' mod Size → data_ q' = data_ q →
    queue_rep (set_head_ ((h + 1) mod Size) q') l') as Hpop.
  { intros st' q' x l' -> Hst' Ht' Hch' Hct' Hd'. simpl in Hl. exists (h + 1), t, sh, st'.
    constructor; simpl; try done; try lia; rewrite Hd'; [done|]. intros j y Hj.
    replace (h + 1 + Z.of_nat j) with (h + Z.of_nat (S j)) by lia. by apply Hd. }
  destruct l as [|x l'].
  - simpl in Hl. assert (h = st ∧ h = t) as [E E'] by lia.
    rewrite (proj2 (Z.eqb_eq h st)), Ht, (empty_test h t), (proj2 (Z.eqb_eq h t)) by lia.
    eexists. split; [done|]. exists h, t, sh, t. constructor; simpl; try done; lia.
  - simpl in Hl. pose proof (Hd 0%nat x eq_refl) as Hx. rewrite Z.add_0_r in Hx.
    destruct (Z.eqb_spec h st) as [E|E].
    + rewrite Ht, (empty_test h t), (proj2 (Z.eqb_neq h t)) by lia. simpl. rewrite Hx.
      eexists. split; [done|]. eapply (Hpop t); simpl; try done; lia.
    + rewrite Hx. eexists. split; [done|]. eapply (Hpop st); simpl; try done; lia.
Qed.
End Queue.

(** * The concurrent model *)

Section Concurrent.
Context {T : Type} (Size : Z).

(** Where each thread is inside its member function, with its local
    variables. *)
Inductive producer_pc : Type :=
| PIdle
| PCheck (input : T) (tail_idx : Z)     (** about to compare [cached_head_] *)
| PLoadHead (input : T) (tail_idx : Z)  (** about to load [head_] *)
| PWrite (input : T) (tail_idx : Z)     (** about to write the slot *)
| PPublish (input : T) (tail_idx : Z).  (** about to store [tail_] *)

Inductive consumer_pc : Type :=
| CIdle
| CCheck (head_idx : Z)
| CLoadTail (head_idx : Z)
| CRead (head_idx : Z)
| CPublish (output : T) (head_idx : Z).

(** The shared memory and the two threads.  [tail_stores] and [head_stores]
    are the values stored to the atomics, oldest first; [seen_head] and
    [seen_tail] are the positions of the last values loaded by the other
    thread.  [pushed] and [popped] record the completed calls. *)
Record config : Type := mkConfig {
  tail_stores : list Z;
  head_stores : list Z;
  slots : array T;
  producer : producer_pc;
  p_cached_head : Z;
  seen_head : nat;
  consumer : consumer_pc;
  c_cached_tail : Z;
  seen_tail : nat;
  pushed : list T;
  popped : list T
}.

Definition config_new (d : T) : config :=
  mkConfig [0] [0] (anew Size d) PIdle 0 0 CIdle 0 0 [] [].

Definition set_producer (pc : producer_pc) (c : config) : config :=
  mkConfig (tail_stores c) (head_stores c) (slots c) pc (p_cached_head c) (seen_head c)
    (consumer c) (c_cached_tail c) (seen_tail c) (pushed c) (popped c).
Definition set_consumer (pc : consumer_pc) (c : config) : config :=
  mkConfig (tail_stores c) (head_stores c) (slots c) (producer c) (p_cached_head c) (seen_head c)
    pc (c_cached_tail c) (seen_tail c) (pushed c) (popped c).
Definition load_head (k : nat) (v : Z) (c : config) : config :=
  mkConfig (tail_stores c) (head_stores c) (slots c) (producer c) v k
    (consumer c) (c_cached_tail c) (seen_tail c) (pushed c) (popped c).
Definition load_tail (k : nat) (v : Z) (c : config) : config :=
  mkConfig (tail_stores c) (head_stores c) (slots c) (producer c) (p_cached_head c) (seen_head c)
    (consumer c) v k (pushed c) (popped c).
Definition write_slot (a : array T) (c : config) : config :=
  mkConfig (tail_stores c) (head_stores c) a (producer c) (p_cached_head c) (seen_head c)
    (consumer c) (c_cached_tail c) (seen_tail c) (pushed c) (popped c).
Definition store_tail (v : Z) (x : T) (c : config) : config :=
  mkConfig (tail_stores c ++ [v]) (head_stores c) (slots c) (producer c) (p_cached_head c)
    (seen_head c) (consumer c) (c_cached_tail c) (seen_tail c) (pushed c ++ [x]) (popped c).
Definition store_head (v : Z) (x : T) (c : config) : config :=
  mkConfig (tail_stores c) (head_stores c ++ [v]) (slots c) (producer c) (p_cached_head c)
    (seen_head c) (consumer c) (c_cached_tail c) (seen_tail c) (pushed c) (popped c ++ [x]).

(** One step of the producer inside [push]. *)
Inductive push_step : config → config → Prop :=
| push_call c x t :
    producer c = PIdle → last (tail_stores c) = Some t →
    push_step c (set_producer (PCheck x t) c)
| push_cached c x t :
    producer c = PCheck x t → p_cached_head c ≠ next_idx Size t →
    push_step c (set_producer (PWrite x t) c)
| push_reload c x t :
    producer c = PCheck x t → p_cached_head c = next_idx Size t →
    push_step c (set_producer (PLoadHead x t) c)
| push_room c x t k v :
    producer c = PLoadHead x t → (seen_head c ≤ k)%nat → head_stores c !! k = Some v →
    v ≠ next_idx Size t →
    push_step c (set_producer (PWrite x t) (load_head k v c))
| push_full c x t k v :
    producer c = PLoadHead x t → (seen_head c ≤ k)%nat → head_stores c !! k = Some v →
    v = next_idx Size t →
    push_step c (set_producer PIdle (load_head k v c))
| push_write c x t a :
    producer c = PWrite x t → aput (slots c) t x = Some a →
    push_step c (set_producer (PPublish x t) (write_slot a c))
| push_publish c x t :
    producer c = PPublish x t →
    push_step c (set_producer PIdle (store_tail (next_idx Size t) x c)).

(** One step of the consumer inside [pop]. *)
Inductive pop_step : config → config → Prop :=
| pop_call c h :
    consumer c = CIdle → last (head_stores c) = Some h →
    pop_step c (set_consumer (CCheck h) c)
| pop_cached c h :
    consumer c = CCheck h → h ≠ c_cached_tail c →
    pop_step c (set_consumer (CRead h) c)
| pop_reload c h :
    consumer c = CCheck h → h = c_cached_tail c →
    pop_step c (set_consumer (CLoadTail h) c)
| pop_some c h k v :
    consumer c = CLoadTail h → (seen_tail c ≤ k)%nat → tail_stores c !! k = Some v → h ≠ v →
    pop_step c (set_consumer (CRead h) (load_tail k v c))
| pop_empty c h k v :
    consumer c = CLoadTail h → (seen_tail c ≤ k)%nat → tail_stores c !! k = Some v → h = v →
    pop_step c (set_consumer CIdle (load_tail k v c))
| pop_read c h x :
    consumer c = CRead h → (slots c).[h] = Some x →
    pop_step c (set_consumer (CPublish x h) c)
| pop_publish c x h :
    consumer c = CPublish x h →
    pop_step c (set_consumer CIdle (store_head (next_idx Size h) x c)).

Definition step (c c' : config) : Prop := push_step c c' ∨ pop_step c c'.

Definition reachable (d : T) (c : config) : Prop := rtc step (config_new d) c.

(** ** The invariant *)

Definition pushes (c : config) : Z := Z.of_nat (length (pushed c)).
Definition pops (c : config) : Z := Z.of_nat (length (popped c)).

(** What a producer (consumer) between its checks and its publication knows. *)
Definition producer_ok (c : config) : Prop :=
  match producer c with
  | PIdle => True
  | PCheck _ t | PLoadHead _ t => t = pushes c mod Size
  | PWrite _ t => t = pushes c mod Size ∧ pushes c < Z.of_nat (seen_head c) + Size - 1
  | PPublish x t => t = pushes c mod Size ∧ pushes c < Z.of_nat (seen_head c) + Size - 1 ∧
                    (slots c).[t] = Some x
  end.

Definition consumer_ok (c : config) : Prop :=
  match consumer c with
  | CIdle => True
  | CCheck h | CLoadTail h => h = pops c mod Size
  | CRead h => h = pops c mod Size ∧ pops c < Z.of_nat (seen_tail c)
  | CPublish x h => h = pops c mod Size ∧ pops c < Z.of_nat (seen_tail c) ∧
                    pushed c !! length (popped c) = Some x
  end.

Record config_ok (c : config) : Prop := {
  ok_size : ∃ e, 0 ≤ e ≤ 63 ∧ Size = 2 ^ e;
  ok_slots : alen (slots c) = Size;
  ok_tail_stores : ∀ k v, tail_stores c !! k = Some v → v = Z.of_nat k mod Size;
  ok_tail_count : length (tail_stores c) = S (length (pushed c));
  ok_head_stores : ∀ k v, head_stores c !! k = Some v → v = Z.of_nat k mod Size;
  ok_head_count : length (head_stores c) = S (length (popped c));
  ok_cached_head : p_cached_head c = Z.of_nat (seen_head c) mod Size;
  ok_cached_tail : c_cached_tail c = Z.of_nat (seen_tail c) mod Size;
  ok_seen_head : Z.of_nat (seen_head c) ≤ pops c;
  ok_seen_tail : pops c ≤ Z.of_nat (seen_tail c) ≤ pushes c;
  ok_room : pushes c < Z.of_nat (seen_head c) + Size;
  ok_content : ∀ j x, pops c ≤ Z.of_nat j → pushed c !! j = Some x →
    (slots c).[Z.of_nat j mod Size] = Some x;
  ok_fifo : popped c `prefix_of` pushed c;
  ok_producer : producer_ok c;
  ok_consumer : consumer_ok c
}.

Lemma last_store (l : list Z) n v : (∀ k v, l !! k = Some v → v = Z.of_nat k mod Size) →
  length l = S n → last l = Some v → v = Z.of_nat n mod Size.
Proof.
  intros Hl Hn. rewrite last_lookup, Hn. intros H. by apply Hl in H.
Qed.

Lemma stores_app (l : list Z) v : (∀ k v, l !! k = Some v → v = Z.of_nat k mod Size) →
  v = Z.of_nat (length l) mod Size →
  ∀ k w, (l ++ [v]) !! k = Some w → w = Z.of_nat k mod Size.
Proof.
  intros Hl Hv k w [H|[Hk H]]%lookup_app_Some; [by apply Hl|].
  apply list_lookup_singleton_Some in H as [Hk' <-]. rewrite Hv. do 2 f_equal. lia.
Qed.

Lemma config_new_ok e d : 0 ≤ e ≤ 63 → Size = 2 ^ e → config_ok (config_new d).
Proof.
  intros He HS. assert (0 < Size) by (apply (size_pos Size); eauto).
  assert (∀ k v, [0] !! k = Some v → v = Z.of_nat k mod Size) as Hstore.
  { intros k v [-> <-]%list_lookup_singleton_Some. by rewrite Z.mod_0_l by lia. }
  constructor; unfold pushes, pops; simpl; rewrite ?Z.mod_0_l by lia; eauto; try lia; done.
Qed.

(** A field of the invariant that the step leaves as it is. *)
Ltac unchanged C :=
  first [ exact (ok_size _ C) | exact (ok_slots _ C)
        | exact (ok_tail_stores _ C) | exact (ok_tail_count _ C)
        | exact (ok_head_stores _ C) | exact (ok_head_count _ C)
        | exact (ok_cached_head _ C) | exact (ok_cached_tail _ C)
        | exact (ok_seen_head _ C) | exact (ok_seen_tail _ C) | exact (ok_room _ C)
        | exact (ok_content _ C) | exact (ok_fifo _ C)
        | exact (ok_producer _ C) | exact (ok_consumer _ C) ].

(** The store of the tail. *)
Lemma push_publish_ok c c' x t : config_ok c → push_step c c' → producer c = PPublish x t → config_ok c'.
Proof.
  intros C Hstep Hx. pose proof (ok_producer _ C) as P. unfold producer_ok in P.
  destruct Hstep as [c ? ? Hp ?|c ? ? Hp ?|c ? ? Hp ?|c ? ? ? ? Hp ? ? ?|c ? ? ? ? Hp ? ? ?|c ? ? ? Hp ?|c v u Hp];
    rewrite Hp in Hx; try done. clear x t Hx. rewrite Hp in P.
  pose proof (ok_seen_head _ C) as Hsh. pose proof (ok_seen_tail _ C) as Hst. pose proof (ok_room _ C) as Hroom.
  destruct P as (-> & Hfree & Hslot).
  rewrite (next_idx_mod _ _ (ok_size _ C)).
  constructor; simpl; try unchanged C; unfold pushes, pops in *; simpl;
    rewrite ?length_app; simpl; try lia.
  - apply stores_app; [apply C|]. rewrite (ok_tail_count _ C). f_equal. lia.
  - rewrite (ok_tail_count _ C). lia.
  - intros j y Hj [Hy|[Hlen Hy]]%lookup_app_Some; [by apply C|].
    apply list_lookup_singleton_Some in Hy as [Hj' <-].
    replace j with (length (pushed c)) by lia. done.
  - by apply prefix_app_r, C.
  - done.
  - pose proof (ok_consumer _ C) as Q. unfold consumer_ok in *; simpl.
    destruct (consumer c); simpl in *; try done. destruct Q as (? & ? & Hx).
    split_and!; try done. by apply lookup_app_l_Some.
Qed.

Lemma push_step_ok c c' : config_ok c → push_step c c' → config_ok c'.
Proof.
  intros C Hstep. pose proof (size_pos Size (ok_size _ C)) as HS.
  pose proof (ok_producer _ C) as P. unfold producer_ok in P.
  pose proof (ok_seen_head _ C) as Hsh. pose proof (ok_seen_tail _ C) as Hst.
  pose proof (ok_room _ C) as Hroom.
  destruct Hstep as [c x t Hp Ht|c x t Hp Hc|c x t Hp Hc|c x t k v Hp Hk Hv Hne|c x t k v Hp Hk Hv Heq
                    |c x t a Hp Ha|c x t Hp]; rewrite Hp in P.
  - constructor; simpl; try unchanged C. unfold producer_ok; simpl.
    exact (last_store _ _ _ (ok_tail_stores _ C) (ok_tail_count _ C) Ht).
  - constructor; simpl; try unchanged C. unfold producer_ok; simpl. split; [done|].
    rewrite (ok_cached_head _ C), P, (next_idx_mod _ _ (ok_size _ C)) in Hc.
    apply Z.eqb_neq in Hc. rewrite full_test in Hc by (unfold pushes in *; lia). zhyps.
    unfold pushes in *; simpl; lia.
  - constructor; simpl; try unchanged C. done.
  - pose proof (lookup_lt_Some _ _ _ Hv) as Hlt. rewrite (ok_head_count _ C) in Hlt.
    apply (ok_head_stores _ C) in Hv as ->.
    rewrite P, (next_idx_mod _ _ (ok_size _ C)) in Hne. apply Z.eqb_neq in Hne.
    rewrite full_test in Hne by (unfold pushes, pops in *; lia). zhyps.
    constructor; simpl; try unchanged C; try done; unfold producer_ok, pushes, pops in *; simpl; lia.
  - pose proof (lookup_lt_Some _ _ _ Hv) as Hlt. rewrite (ok_head_count _ C) in Hlt.
    apply (ok_head_stores _ C) in Hv as Hv'.
    constructor; simpl; try unchanged C; try done; unfold producer_ok, pushes, pops in *; simpl; lia.
  - destruct P as [-> Hfree].
    assert (0 ≤ pushes c mod Size < alen (slots c)) as Hslot
      by (rewrite (ok_slots _ C); by apply Z.mod_pos_bound).
    rewrite aput_in in Ha by done. injection Ha as <-.
    constructor; simpl; try unchanged C.
    + intros j y Hj Hy. pose proof (lookup_lt_Some _ _ _ Hy). rewrite aget_aset_ne; [by apply C|].
      intros E. apply mod_inj_near in E; unfold pushes, pops in *; simpl in *; lia.
    + unfold producer_ok; simpl. split_and!; [done|done|by apply aget_aset_eq].
  - eapply push_publish_ok; [exact C|by constructor|exact Hp].
Qed.

Lemma pop_step_ok c c' : config_ok c → pop_step c c' → config_ok c'.
Proof.
  intros C Hstep. pose proof (size_pos Size (ok_size _ C)) as HS.
  pose proof (ok_consumer _ C) as P. unfold consumer_ok in P.
  pose proof (ok_seen_head _ C) as Hsh. pose proof (ok_seen_tail _ C) as Hst.
  pose proof (ok_room _ C) as Hroom.
  destruct Hstep as [c h Hp Ht|c h Hp Hc|c h Hp Hc|c h k v Hp Hk Hv Hne|c h k v Hp Hk Hv Heq
                    |c h x Hp Hx|c x h Hp]; rewrite Hp in P.
  - constructor; simpl; try unchanged C. unfold consumer_ok; simpl.
    exact (last_store _ _ _ (ok_head_stores _ C) (ok_head_count _ C) Ht).
  - constructor; simpl; try unchanged C. unfold consumer_ok; simpl. split; [done|].
    rewrite (ok_cached_tail _ C), P in Hc.
    apply Z.eqb_neq in Hc. rewrite empty_test in Hc by (unfold pushes in *; lia). zhyps.
    unfold pops in *; simpl; lia.
  - constructor; simpl; try unchanged C. done.
  - pose proof (lookup_lt_Some _ _ _ Hv) as Hlt. rewrite (ok_tail_count _ C) in Hlt.
    apply (ok_tail_stores _ C) in Hv as ->. rewrite P in Hne. apply Z.eqb_neq in Hne.
    rewrite empty_test in Hne by (unfold pushes, pops in *; lia). zhyps.
    constructor; simpl; try unchanged C; try done; unfold consumer_ok, pushes, pops in *; simpl; lia.
  - pose proof (lookup_lt_Some _ _ _ Hv) as Hlt. rewrite (ok_tail_count _ C) in Hlt.
    apply (ok_tail_stores _ C) in Hv as Hv'.
    constructor; simpl; try unchanged C; try done; unfold consumer_ok, pushes, pops in *; simpl; lia.
  - destruct P as [-> Hsome]. constructor; simpl; try unchanged C. unfold consumer_ok; simpl.
    split_and!; [done|done|].
    destruct (lookup_lt_is_Some_2 (pushed c) (length (popped c))) as [y Hy].
    { unfold pops, pushes in *; lia. }
    pose proof (ok_content _ C _ _ (Z.le_refl _) Hy) as Hs. unfold pops in Hx. congruence.
  - destruct P as (-> & Hsome & Hx). rewrite (next_idx_mod _ _ (ok_size _ C)).
    constructor; simpl; try unchanged C; unfold pushes, pops in *; simpl;
      rewrite ?length_app; simpl; try lia.
    + apply stores_app; [apply C|]. rewrite (ok_head_count _ C). f_equal. lia.
    + rewrite (ok_head_count _ C). lia.
    + intros j y Hj. apply C. unfold pops. lia.
    + destruct (ok_fifo _ C) as [k Hk]. rewrite Hk, lookup_app_r, Nat.sub_diag in Hx by lia.
      destruct k as [|y k]; [done|]. injection Hx as ->. exists k. by rewrite Hk, <- app_assoc.
    + done.
Qed.

Lemma reachable_ok e d c : 0 ≤ e ≤ 63 → Size = 2 ^ e → reachable d c → config_ok c.
Proof.
  intros He HS Hr. pose proof (config_new_ok e d He HS) as H0. revert H0.
  induction Hr as [|c1 c2 c3 [Hs|Hs] _ IH]; eauto using push_step_ok, pop_step_ok.
Qed.

(** ** Progress *)

(** The steps left in the current call. *)
Definition push_left (pc : producer_pc) : nat :=
  match pc with
  | PIdle => 0 | PCheck _ _ => 4 | PLoadHead _ _ => 3 | PWrite _ _ => 2 | PPublish _ _ => 1
  end.
Definition pop_left (pc : consumer_pc) : nat :=
  match pc with
  | CIdle => 0 | CCheck _ => 4 | CLoadTail _ => 3 | CRead _ => 2 | CPublish _ _ => 1
  end.

Lemma push_can_step c : config_ok c → producer c ≠ PIdle → ∃ c', push_step c c'.
Proof.
  intros C Hp. pose proof (size_pos Size (ok_size _ C)) as HS.
  pose proof (ok_producer _ C) as P. unfold producer_ok in P.
  destruct (producer c) as [|x t|x t|x t|x t] eqn:E; [done| | | |].
  - destruct (decide (p_cached_head c = next_idx Size t));
      eexists; [by eapply push_reload|by eapply push_cached].
  - destruct (lookup_lt_is_Some_2 (head_stores c) (seen_head c)) as [v Hv].
    { rewrite (ok_head_count _ C). pose proof (ok_seen_head _ C). unfold pops in *. lia. }
    destruct (decide (v = next_idx Size t)); eexists; [by eapply push_full|by eapply push_room].
  - destruct P as [-> _]. eexists. eapply push_write; [done|]. apply aput_in.
    rewrite (ok_slots _ C). by apply Z.mod_pos_bound.
  - eexists. by eapply push_publish.
Qed.

Lemma pop_can_step c : config_ok c → consumer c ≠ CIdle → ∃ c', pop_step c c'.
Proof.
  intros C Hp. pose proof (size_pos Size (ok_size _ C)) as HS.
  pose proof (ok_consumer _ C) as P. unfold consumer_ok in P.
  destruct (consumer c) as [|h|h|h|x h] eqn:E; [done| | | |].
  - destruct (decide (h = c_cached_tail c)); eexists; [by eapply pop_reload|by eapply pop_cached].
  - destruct (lookup_lt_is_Some_2 (tail_stores c) (seen_tail c)) as [v Hv].
    { rewrite (ok_tail_count _ C). pose proof (ok_seen_tail _ C). unfold pushes in *. lia. }
    destruct (decide (h = v)); eexists; [by eapply pop_empty|by eapply pop_some].
  - destruct P as [-> _]. destruct (aget_in (slots c) (pops c mod Size)) as [x Hx].
    { rewrite (ok_slots _ C). by apply Z.mod_pos_bound. }
    eexists. by eapply pop_read.
  - eexists. by eapply pop_publish.
Qed.

Lemma push_step_left c c' : push_step c c' → producer c ≠ PIdle →
  (push_left (producer c') < push_left (producer c))%nat.
Proof.
  intros Hs Hne. destruct Hs; simpl; match goal with H : producer _ = _ |- _ => rewrite H in * end;
    simpl; (done || lia).
Qed.

Lemma pop_step_left c c' : pop_step c c' → consumer c ≠ CIdle →
  (pop_left (consumer c') < pop_left (consumer c))%nat.
Proof.
  intros Hs Hne. destruct Hs; simpl; match goal with H : consumer _ = _ |- _ => rewrite H in * end;
    simpl; (done || lia).
Qed.

Lemma push_refused c c' x t : config_ok c → push_step c c' → producer c = PLoadHead x t →
  producer c' = PIdle →
  pushes c' - Z.of_nat (seen_head c') = Size - 1 ∧ pushed c' = pushed c.
Proof.
  intros C Hs Hp Hi. pose proof (ok_producer _ C) as P. unfold producer_ok in P.
  rewrite Hp in P. pose proof (size_pos Size (ok_size _ C)) as HS.
  pose proof (ok_room _ C). pose proof (ok_seen_head _ C). pose proof (ok_seen_tail _ C).
  destruct Hs as [| | | |c x' t' k v Hp' Hk Hv Heq| |]; simplify_eq/=; [|congruence].
  split; [|done]. pose proof (lookup_lt_Some _ _ _ Hv) as Hlt.
  rewrite (ok_head_count _ C) in Hlt. apply (ok_head_stores _ C) in Hv.
  assert (t' = pushes c mod Size) as -> by congruence.
  rewrite (next_idx_mod _ _ (ok_size _ C)) in Hv. symmetry in Hv. apply Z.eqb_eq in Hv.
  rewrite full_test in Hv by (unfold pushes, pops in *; lia). zhyps. unfold pushes in *. simpl. lia.
Qed.

Lemma pop_refused c c' h : config_ok c → pop_step c c' → consumer c = CLoadTail h →
  consumer c' = CIdle → pops c' = Z.of_nat (seen_tail c') ∧ popped c' = popped c.
Proof.
  intros C Hs Hp Hi. pose proof (ok_consumer _ C) as P. unfold consumer_ok in P.
  rewrite Hp in P. pose proof (size_pos Size (ok_size _ C)) as HS.
  pose proof (ok_room _ C). pose proof (ok_seen_head _ C). pose proof (ok_seen_tail _ C).
  destruct Hs as [| | | |c h' k v Hp' Hk Hv Heq| |]; simplify_eq/=; [|congruence].
  split; [|done]. pose proof (lookup_lt_Some _ _ _ Hv) as Hlt.
  rewrite (ok_tail_count _ C) in Hlt. apply (ok_tail_stores _ C) in Hv.
  assert (v = pops c mod Size) as E by congruence. rewrite E in Hv. apply Z.eqb_eq in Hv.
  rewrite empty_test in Hv by (unfold pushes, pops in *; lia). zhyps. unfold pops in *. simpl. lia.
Qed.
End Concurrent.

(** ** The two models agree *)

Section Agree.
Context {T : Type} (Size : Z).

(** A configuration with both threads outside the queue, and the object. *)
Definition at_rest (q : SPSCQueue (T := T)) (c : config (T := T)) : Prop :=
  producer c = PIdle ∧ consumer c = CIdle ∧
  last (tail_stores c) = Some (tail_ q) ∧ last (head_stores c) = Some (head_ q) ∧
  (seen_tail c < length (tail_stores c))%nat ∧ (seen_head c < length (head_stores c))%nat ∧
  p_cached_head c = cached_head_ q ∧ c_cached_tail c = cached_tail_ q ∧ slots c = data_ q.

Lemma last_at (l : list Z) v k : last l = Some v → (k < length l)%nat →
  ∃ n, (k ≤ n < length l)%nat ∧ l !! n = Some v.
Proof.
  intros Hl Hk. exists (pred (length l)). split; [lia|]. by rewrite <- last_lookup.
Qed.

Ltac rest := unfold at_rest; simpl; rewrite ?last_snoc, ?length_app; simpl;
  split_and!; (done || lia).

Lemma push_finish x q c a t : producer c = PWrite x t → at_rest q (set_producer PIdle c) →
  aput (data_ q) t x = Some a →
  ∃ c', rtc (push_step Size) c c' ∧ at_rest (set_tail_ (next_idx Size t) (set_data a q)) c' ∧
        pushed c' = pushed c ++ [x] ∧ popped c' = popped c.
Proof.
  intros Hp (_ & Hc & Ht & Hh & Hst & Hsh & Hch & Hct & Hd) Ha. simpl in *.
  eexists. split.
  - eapply rtc_l; [eapply push_write; [done|by rewrite Hd]|].
    eapply rtc_l; [by eapply push_publish|]. apply rtc_refl.
  - split; [rest|done].
Qed.

Lemma push_interleaving x q q' r c : at_rest q c → push Size x q = (Ok r, q') →
  ∃ c1 c', push_step Size c c1 ∧ producer c1 = PCheck x (tail_ q) ∧ rtc (push_step Size) c1 c' ∧ at_rest q' c' ∧
        pushed c' = pushed c ++ (if (r : bool) then [x] else []) ∧ popped c' = popped c.
Proof.
  intros Hr. pose proof Hr as (Hp & Hc & Ht & Hh & Hst & Hsh & Hch & Hct & Hd).
  destruct (last_at _ _ _ Hh Hsh) as (k & Hk & Hkv).
  assert (push_step Size c (set_producer (PCheck x (tail_ q)) c)) as Hcall by by apply push_call.
  unfold push. munfold. set (t := tail_ q) in *.
  destruct (Z.eqb_spec (cached_head_ q) (next_idx Size t)) as [E|E].
  - destruct (Z.eqb_spec (head_ q) (next_idx Size t)) as [E'|E'].
    + intros [= <- <-]. exists (set_producer (PCheck x t) c). eexists. split; [exact Hcall|]. split; [done|]. split.
      * eapply rtc_l; [eapply push_reload; [reflexivity|by rewrite <- E]|].
        eapply rtc_l; [eapply (push_full _ _ _ _ k); [reflexivity|simpl; lia|exact Hkv|done]|].
        apply rtc_refl.
      * split; [rest|]. simpl. by rewrite app_nil_r.
    + simpl. destruct (aput (data_ q) t x) as [a|] eqn:Ha; [|done]. intros [= <- <-].
      edestruct (push_finish x (set_cached_head (head_ q) q)
        (set_producer (PWrite x t) (load_head k (head_ q) (set_producer (PLoadHead x t)
          (set_producer (PCheck x t) c)))) a t) as (c' & Hs & H'); [done|rest|done|].
      exists (set_producer (PCheck x t) c), c'. split; [exact Hcall|]. split; [done|]. split; [|exact H'].
      eapply rtc_l; [eapply push_reload; [reflexivity|by rewrite <- E]|].
      eapply rtc_l; [eapply (push_room _ _ _ _ k); [reflexivity|simpl; lia|exact Hkv|done]|].
      exact Hs.
  - destruct (aput (data_ q) t x) as [a|] eqn:Ha; [|done]. intros [= <- <-].
    edestruct (push_finish x q (set_producer (PWrite x t) (set_producer (PCheck x t) c)) a t)
      as (c' & Hs & H'); [done|rest|done|].
    exists (set_producer (PCheck x t) c), c'. split; [exact Hcall|]. split; [done|]. split; [|exact H'].
    eapply rtc_l; [eapply push_cached; [reflexivity|by rewrite <- Hch in E]|]. exact Hs.
Qed.

Lemma pop_finish q c h x : consumer c = CRead h → at_rest q (set_consumer CIdle c) →
  (data_ q).[h] = Some x →
  ∃ c', rtc (pop_step Size) c c' ∧ at_rest (set_head_ (next_idx Size h) q) c' ∧
        pushed c' = pushed c ∧ popped c' = popped c ++ [x].
Proof.
  intros Hp (Hi & _ & Ht & Hh & Hst & Hsh & Hch & Hct & Hd) Hx. simpl in *.
  eexists. split.
  - eapply rtc_l; [eapply pop_read; [done|by rewrite Hd]|].
    eapply rtc_l; [by eapply pop_publish|]. apply rtc_refl.
  - split; [rest|done].
Qed.

Lemma pop_interleaving q q' r c : at_rest q c → pop Size q = (Ok r, q') →
  ∃ c1 c', pop_step Size c c1 ∧ consumer c1 = CCheck (head_ q) ∧ rtc (pop_step Size) c1 c' ∧ at_rest q' c' ∧
        pushed c' = pushed c ∧ popped c' = popped c ++ option_list r.
Proof.
  intros Hr. pose proof Hr as (Hp & Hc & Ht & Hh & Hst & Hsh & Hch & Hct & Hd).
  destruct (last_at _ _ _ Ht Hst) as (k & Hk & Hkv).
  assert (pop_step Size c (set_consumer (CCheck (head_ q)) c)) as Hcall by by apply pop_call.
  unfold pop. munfold. set (h := head_ q) in *.
  destruct (Z.eqb_spec h (cached_tail_ q)) as [E|E].
  - destruct (Z.eqb_spec h (tail_ q)) as [E'|E'].
    + intros [= <- <-]. exists (set_consumer (CCheck h) c). eexists. split; [exact Hcall|]. split; [done|]. split.
      * eapply rtc_l; [eapply pop_reload; [reflexivity|by rewrite E]|].
        eapply rtc_l; [eapply (pop_empty _ _ _ k); [reflexivity|simpl; lia|exact Hkv|done]|].
        apply rtc_refl.
      * split; [rest|]. simpl. by rewrite app_nil_r.
    + simpl. destruct ((data_ q).[h]) as [x|] eqn:Hx; [|done]. intros [= <- <-].
      edestruct (pop_finish (set_cached_tail (tail_ q) q)
        (set_consumer (CRead h) (load_tail k (tail_ q) (set_consumer (CLoadTail h)
          (set_consumer (CCheck h) c)))) h x) as (c' & Hs & H'); [done|rest|done|].
      exists (set_consumer (CCheck h) c), c'. split; [exact Hcall|]. split; [done|]. split; [|exact H'].
      eapply rtc_l; [eapply pop_reload; [reflexivity|by rewrite E]|].
      eapply rtc_l; [eapply (pop_some _ _ _ k); [reflexivity|simpl; lia|exact Hkv|done]|].
      exact Hs.
  - destruct ((data_ q).[h]) as [x|] eqn:Hx; [|done]. intros [= <- <-].
    edestruct (pop_finish q (set_consumer (CRead h) (set_consumer (CCheck h) c)) h x)
      as (c' & Hs & H'); [done|rest|done|].
    exists (set_consumer (CCheck h) c), c'. split; [exact Hcall|]. split; [done|]. split; [|exact H'].
    eapply rtc_l; [eapply pop_cached; [reflexivity|by rewrite <- Hct in E]|]. exact Hs.
Qed.
End Agree.

(** * Sequences of calls *)

Section Calls.
Context {T : Type} (Size : Z).

Inductive queue_op : Type := Push (x : T) | Pop.

(** What a call returns: [push] its boolean, [pop] its output. *)
Definition run_queue_op (op : queue_op) (q : SPSCQueue (T := T))
    : outcome (bool + option T) * SPSCQueue :=
  match op with
  | Push x => (r ← push Size x; mret (inl r)) q
  | Pop => (r ← pop Size; mret (inr r)) q
  end.

Fixpoint run_queue_ops (ops : list queue_op) (q : SPSCQueue (T := T))
    : list (outcome (bool + option T)) * SPSCQueue :=
  match ops with
  | [] => ([], q)
  | op :: ops' =>
      let '(r, q1) := run_queue_op op q in
      let '(rs, q2) := run_queue_ops ops' q1 in (r :: rs, q2)
  end.

(** A queue of at most Size - 1 elements. *)
Definition spec_queue_op (op : queue_op) (l : list T) : outcome (bool + option T) * list T :=
  match op with
  | Push x => if Z.of_nat (length l) <? Size - 1 then (Ok (inl true), l ++ [x])
              else (Ok (inl false), l)
  | Pop => (Ok (inr (hd_error l)), tail l)
  end.

Fixpoint spec_queue_ops (ops : list queue_op) (l : list T)
    : list (outcome (bool + option T)) * list T :=
  match ops with
  | [] => ([], l)
  | op :: ops' =>
      let '(r, l1) := spec_queue_op op l in
      let '(rs, l2) := spec_queue_ops ops' l1 in (r :: rs, l2)
  end.

Lemma run_queue_op_rep op q l : queue_rep Size q l →
  (run_queue_op op q).1 = (spec_queue_op op l).1 ∧
  queue_rep Size (run_queue_op op q).2 (spec_queue_op op l).2.
Proof.
  intros Hrep. destruct op as [x|]; simpl.
  - destruct (push_rep Size q l x Hrep) as (q' & Hrun & Hrep'). mstep Hrun.
    by destruct (_ <? _).
  - destruct (pop_rep Size q l Hrep) as (q' & Hrun & Hrep'). by mstep Hrun.
Qed.

Lemma run_queue_ops_rep ops q l : queue_rep Size q l →
  (run_queue_ops ops q).1 = (spec_queue_ops ops l).1 ∧
  queue_rep Size (run_queue_ops ops q).2 (spec_queue_ops ops l).2.
Proof.
  revert q l. induction ops as [|op ops IH]; intros q l Hrep; simpl; [done|].
  destruct (run_queue_op_rep op q l Hrep) as [Hr Hrep1].
  destruct (run_queue_op op q) as [r q1], (spec_queue_op op l) as [r' l1]; simpl in *.
  destruct (IH q1 l1 Hrep1) as [Hrs Hrep2].
  destruct (run_queue_ops ops q1), (spec_queue_ops ops l1); simpl in *.
  split; [congruence|done].
Qed.

(** What a call adds to the elements accepted and to the elements delivered. *)
Definition op_accepted (op : queue_op) (r : outcome (bool + option T)) : list T :=
  match op, r with Push x, Ok (inl true) => [x] | _, _ => [] end.
Definition op_delivered (r : outcome (bool + option T)) : list T :=
  match r with Ok (inr (Some x)) => [x] | _ => [] end.

(** The threads of the concurrent model make the call [op] and return from it:
    the thread of [op] enters the call, and its own steps alone lead to [c'],
    where exactly the result [r] has been added. *)
Definition op_step (op : queue_op) : config (T := T) → config (T := T) → Prop :=
  match op with Push _ => push_step Size | Pop => pop_step Size end.

Definition makes_call (op : queue_op) (r : outcome (bool + option T)) (c c' : config (T := T)) : Prop :=
  ∃ c1, op_step op c c1 ∧
    match op with
    | Push x => ∃ t, producer c1 = PCheck x t
    | Pop => ∃ h, consumer c1 = CCheck h
    end ∧
    rtc (op_step op) c1 c' ∧
    pushed c' = pushed c ++ op_accepted op r ∧ popped c' = popped c ++ op_delivered r.

(** The configurations of the concurrent model between the calls [ops], which
    return [rs]: at each of them both threads are outside the queue, and the
    shared indices, the cached ones and the slots are those of the object. *)
Fixpoint interleaves (ops : list queue_op) (rs : list (outcome (bool + option T)))
    (q : SPSCQueue (T := T)) (c : config (T := T)) : Prop :=
  at_rest q c ∧
  match ops, rs with
  | [], [] => True
  | op :: ops', r :: rs' => ∃ c', makes_call op r c c' ∧ interleaves ops' rs' (run_queue_op op q).2 c'
  | _, _ => False
  end.

Lemma run_queue_op_interleaving op q q' r c : at_rest q c → run_queue_op op q = (Ok r, q') →
  ∃ c', makes_call op (Ok r) c c' ∧ at_rest q' c'.
Proof.
  intros Hc. destruct op as [x|]; simpl; munfold.
  - destruct (push Size x q) as [[b| | |] q1] eqn:E; intros [= <- <-].
    destruct (push_interleaving Size x q q1 b c Hc E) as (c1 & c' & Hs & H1 & Hp & Hr & Hpu & Hpo).
    exists c'. split; [|done]. exists c1. split_and!; [done|by eexists|done| |by rewrite app_nil_r].
    by destruct b.
  - destruct (pop Size q) as [[b| | |] q1] eqn:E; intros [= <- <-].
    destruct (pop_interleaving Size q q1 b c Hc E) as (c1 & c' & Hs & H1 & Hp & Hr & Hpu & Hpo).
    exists c'. split; [|done]. exists c1. split_and!; [done|by eexists|done|by rewrite app_nil_r|].
    by destruct b.
Qed.

Lemma spec_queue_op_ok op l : ∃ r, (spec_queue_op op l).1 = Ok r.
Proof. destruct op; simpl; [zcase|]; eauto. Qed.

Lemma run_queue_ops_interleaving ops q l c : queue_rep Size q l → at_rest q c →
  interleaves ops (run_queue_ops ops q).1 q c.
Proof.
  revert q l c. induction ops as [|op ops IH]; intros q l c Hrep Hc; simpl; [done|].
  destruct (run_queue_op_rep op q l Hrep) as [Hr Hrep1].
  destruct (spec_queue_op_ok op l) as [v Hv]. rewrite Hv in Hr.
  destruct (run_queue_op op q) as [r q1] eqn:E; simpl in *. subst r.
  destruct (run_queue_op_interleaving op q q1 v c Hc E) as (c1 & Hs1 & Hc1).
  specialize (IH q1 _ c1 Hrep1 Hc1). destruct (run_queue_ops ops q1) as [rs q2]; simpl in *.
  split; [done|]. exists c1. split; [done|]. exact IH.
Qed.
End Calls.

(** * The theorems *)

(** C13 FIFO for every interleaving: whatever the scheduling of the two
    threads and however stale their acquire loads, the elements returned by
    [pop] are, in order, a prefix of the elements accepted by [push] (none
    lost, duplicated or reordered), at most Size - 1 are waiting, and each
    waiting element is still in its slot. *)
Theorem spsc_fifo {T : Type} e (d : T) c :
  0 ≤ e ≤ 63 → reachable (2 ^ e) d c →
  ∃ waiting, pushed c = popped c ++ waiting ∧ Z.of_nat (length waiting) ≤ 2 ^ e - 1 ∧
    ∀ j x, waiting !! j = Some x → (slots c).[(pops c + Z.of_nat j) mod 2 ^ e] = Some x.
Proof.
  intros He Hr. pose proof (reachable_ok (2 ^ e) e d c He eq_refl Hr) as C.
  destruct (ok_fifo _ _ C) as [w Hw]. exists w. split; [done|].
  pose proof (ok_room _ _ C) as Hroom. pose proof (ok_seen_head _ _ C) as Hsh.
  unfold pushes, pops in *. rewrite Hw, length_app in Hroom. split; [lia|]. intros j x Hj.
  rewrite <- Nat2Z.inj_add. apply (ok_content _ _ C); [unfold pops; lia|].
  by rewrite Hw, lookup_app_r, Nat.add_comm, Nat.add_sub by lia.
Qed.

(** C31 No data race and no access outside the array: when the producer is
    about to write a slot, the slot exists, the consumer is not about to read
    it, and the producer has read a [head_] store at least as recent as the
    one that followed the slot's previous pop; when the consumer is about to
    read a slot, it has read a [tail_] store at least as recent as the one
    that published the element. *)
Theorem spsc_race_free {T : Type} e (d : T) c :
  0 ≤ e ≤ 63 → reachable (2 ^ e) d c →
  (∀ x t, producer c = PWrite x t →
     0 ≤ t < alen (slots c) ∧ consumer c ≠ CRead t ∧
     pushes c - 2 ^ e + 1 ≤ Z.of_nat (seen_head c)) ∧
  (∀ h, consumer c = CRead h →
     0 ≤ h < alen (slots c) ∧ pops c + 1 ≤ Z.of_nat (seen_tail c)).
Proof.
  intros He Hr. pose proof (reachable_ok (2 ^ e) e d c He eq_refl Hr) as C.
  pose proof (size_pos _ (ok_size _ _ C)) as HS.
  pose proof (ok_producer _ _ C) as P. pose proof (ok_consumer _ _ C) as Q.
  pose proof (ok_room _ _ C). pose proof (ok_seen_head _ _ C). pose proof (ok_seen_tail _ _ C).
  unfold producer_ok, consumer_ok in *. rewrite (ok_slots _ _ C). split.
  - intros x t Hp. rewrite Hp in P. destruct P as [-> Hroom].
    split_and!; [by apply Z.mod_pos_bound|by apply Z.mod_pos_bound| |lia].
    intros Hc. rewrite Hc in Q. destruct Q as [E Hsome]. apply mod_inj_near in E; lia.
  - intros h Hc. rewrite Hc in Q. destruct Q as [-> Hsome].
    split_and!; [by apply Z.mod_pos_bound|by apply Z.mod_pos_bound|lia].
Qed.

(** C36 Wait-freedom and refusals: in every reachable configuration each
    thread inside a call can take a step, whatever the other thread does, and
    each of its steps brings it closer to its return; [push] returns false
    only when Size - 1 elements were waiting according to the [head_] value it
    read, and [pop] only when none was according to the [tail_] value. *)
Theorem spsc_wait_free {T : Type} e (d : T) c :
  0 ≤ e ≤ 63 → reachable (2 ^ e) d c →
  (producer c ≠ PIdle → (∃ c', push_step (2 ^ e) c c') ∧
     ∀ c', push_step (2 ^ e) c c' → (push_left (producer c') < push_left (producer c))%nat) ∧
  (consumer c ≠ CIdle → (∃ c', pop_step (2 ^ e) c c') ∧
     ∀ c', pop_step (2 ^ e) c c' → (pop_left (consumer c') < pop_left (consumer c))%nat) ∧
  (∀ c' x t, push_step (2 ^ e) c c' → producer c = PLoadHead x t → producer c' = PIdle →
     pushes c' - Z.of_nat (seen_head c') = 2 ^ e - 1 ∧ pushed c' = pushed c) ∧
  (∀ c' h, pop_step (2 ^ e) c c' → consumer c = CLoadTail h → consumer c' = CIdle →
     pops c' = Z.of_nat (seen_tail c') ∧ popped c' = popped c).
Proof.
  intros He Hr. pose proof (reachable_ok (2 ^ e) e d c He eq_refl Hr) as C.
  split_and!; eauto using push_can_step, push_step_left, pop_can_step, pop_step_left,
    push_refused, pop_refused.
Qed.

(** Both threads inside their calls: 7 has been pushed, the producer is about
    to write 8, the consumer about to read 7. *)
Definition sample_config : config (T := Z) :=
  mkConfig [0; 1] [0] (aset (anew 4 0) 0 7) (PWrite 8 1) 0 0 (CRead 0) 1 1 [7] [].

Lemma sample_reachable : reachable (2 ^ 2) 0 sample_config.
Proof.
  eapply rtc_l; [left; eapply (push_call _ _ 7); reflexivity|].
  eapply rtc_l; [left; eapply push_cached; [reflexivity|done]|].
  eapply rtc_l; [left; eapply push_write; reflexivity|].
  eapply rtc_l; [right; eapply pop_call; reflexivity|].
  eapply rtc_l; [left; eapply push_publish; reflexivity|].
  eapply rtc_l; [right; eapply pop_reload; reflexivity|].
  eapply rtc_l; [left; eapply (push_call _ _ 8); reflexivity|].
  eapply rtc_l; [right; eapply (pop_some _ _ _ 1 1); [reflexivity|simpl; lia|reflexivity|done]|].
  eapply rtc_l; [left; eapply push_cached; [reflexivity|done]|].
  apply rtc_refl.
Qed.

Lemma spsc_fifo_witness :
  ∃ waiting, pushed sample_config = popped sample_config ++ waiting ∧
    Z.of_nat (length waiting) ≤ 2 ^ 2 - 1.
Proof.
  destruct (spsc_fifo 2 0 sample_config ltac:(lia) sample_reachable) as (w & Hw & Hl & _). eauto.
Defined.

Lemma spsc_race_free_witness :
  producer sample_config = PWrite 8 1 ∧
  0 ≤ 1 < alen (slots sample_config) ∧ consumer sample_config ≠ CRead 1.
Proof.
  split; [reflexivity|].
  destruct (spsc_race_free 2 0 sample_config ltac:(lia) sample_reachable) as [H _].
  destruct (H 8 1 eq_refl) as (H1 & H2 & _). auto.
Defined.

Lemma spsc_wait_free_witness : ∃ c', push_step (2 ^ 2) sample_config c'.
Proof. by apply (spsc_wait_free 2 0 sample_config ltac:(lia) sample_reachable). Defined.

(** C37 Run one call at a time, the queue is a bounded list: any sequence of
    pushes and pops on a new queue returns what a list of at most Size - 1
    elements returns (a push to a full one and a pop of an empty one return
    false), and never touches a slot outside the array.  The run is one of the
    concurrent model: from its initial configuration there are configurations,
    one after each call, such that the thread that makes the call enters it
    and gets there by its own steps alone, the elements accepted and delivered
    grow by exactly what the call returned, and in each of them [tail_],
    [head_], both cached indices and the slots are those of the object. *)
Theorem spsc_refines_bounded_list {T : Type} e (d : T) ops :
  0 ≤ e ≤ 63 →
  let rs := (run_queue_ops (2 ^ e) ops (SPSCQueue_new (2 ^ e) d)).1 in
  rs = (spec_queue_ops (2 ^ e) ops []).1 ∧
  interleaves (2 ^ e) ops rs (SPSCQueue_new (2 ^ e) d) (config_new (2 ^ e) d).
Proof.
  intros He rs. pose proof (SPSCQueue_new_rep (2 ^ e) e d He eq_refl) as Hrep.
  split; [by apply run_queue_ops_rep|]. eapply run_queue_ops_interleaving; [exact Hrep|].
  unfold at_rest. simpl. split_and!; (done || lia).
Qed.

Lemma spsc_refines_bounded_list_witness :
  (run_queue_ops (2 ^ 1) [Push 5; Push 6; Pop; Pop; Push 7; Pop] (SPSCQueue_new (2 ^ 1) 0)).1 =
  [Ok (inl true); Ok (inl false); Ok (inr (Some 5)); Ok (inr None); Ok (inl true); Ok (inr (Some 7))].
Proof.
  destruct (spsc_refines_bounded_list 1 0 [Push 5; Push 6; Pop; Pop; Push 7; Pop] ltac:(lia))
    as [-> _]. reflexivity.
Defined.
