(* ===== verification/Crc32.v ===== *)
(** [utils::calculate_crc32] (src/src/utils/crc32.h): the checksum of the
    first 60 bytes of a WAL frame.

    [mm_crc32] is the SSE4.2 instruction behind [_mm_crc32_u64] and
    [_mm_crc32_u32]: the reflected CRC-32C polynomial, one bit at a time from
    the least significant bit of the operand.  The theorems: the eight
    instructions compute the byte-by-byte CRC-32C (initial value 0, no final
    complement) of the 60 bytes, the result fits the 32-bit [checksum] field,
    and two frames that differ only inside four consecutive bytes have
    different checksums. *)

From S2P Require Import Prelude.

(** * The instruction and the function *)

Definition crc_poly : Z := 2197175160.  (* 0x82F63B78 *)

Definition crc_bit (crc : Z) (b : bool) : Z :=
  Z.lxor (Z.shiftr crc 1) (if xorb (Z.odd crc) b then crc_poly else 0).

Definition crc_bits (crc : Z) (bs : list bool) : Z := fold_left crc_bit bs crc.

(** The low [n] bits of [v], least significant first. *)
Fixpoint bits_of (n : nat) (v : Z) : list bool :=
  match n with
  | O => []
  | S n' => Z.odd v :: bits_of n' (Z.div2 v)
  end.

(** [_mm_crc32_u64] ([n] = 64) and [_mm_crc32_u32] ([n] = 32): the
    accumulator is the low half of its operand. *)
Definition mm_crc32 (n : nat) (crc v : Z) : Z := crc_bits (u32 crc) (bits_of n v).

(** The little-endian load of [n] bytes at offset [off] of a block. *)
Definition load_le (data : list Z) (off n : nat) : option Z :=
  if (off + n <=? length data)%nat then Some (le_Z (take n (drop off data))) else None.

(** [ptr[i]]. *)
Definition word64 (data : list Z) (i : nat) : option Z := load_le data (8 * i) 8.

(** The seven 64-bit words at [ptr], then the 32-bit word at [ptr + 7].
    [None] is a read past the block. *)
Definition calculate_crc32 (data : list Z) : option Z :=
  w0 ← word64 data 0; let crc := mm_crc32 64 0 w0 in
  w1 ← word64 data 1; let crc := mm_crc32 64 crc w1 in
  w2 ← word64 data 2; let crc := mm_crc32 64 crc w2 in
  w3 ← word64 data 3; let crc := mm_crc32 64 crc w3 in
  w4 ← word64 data 4; let crc := mm_crc32 64 crc w4 in
  w5 ← word64 data 5; let crc := mm_crc32 64 crc w5 in
  w6 ← word64 data 6; let crc := mm_crc32 64 crc w6 in
  w7 ← load_le data 56 4;
  let crc := mm_crc32 32 (u32 crc) w7 in
  Some (u32 crc).

(** * The reference: CRC-32C byte by byte *)

(** The polynomial is that of CRC-32C; as in the code, the initial value is 0
    and there is no final complement, unlike the standard's parameters. *)
Definition crc_byte (crc b : Z) : Z := crc_bits crc (bits_of 8 b).

Definition crc32c (data : list Z) : Z := fold_left crc_byte data 0.

(** * Ranges *)

Lemma crc_poly_range : in_range 32 crc_poly.
Proof. by vm_compute. Qed.

Lemma lxor_range w a b : 0 ≤ w → in_range w a → in_range w b → in_range w (Z.lxor a b).
Proof.
  intros Hw Ha Hb. unfold in_range in *.
  assert (0 ≤ Z.lxor a b) as H0 by (apply Z.lxor_nonneg; lia).
  split; [done|]. destruct (decide (Z.lxor a b = 0)) as [->|Hne].
  { apply Z.pow_pos_nonneg; lia. }
  destruct (Z.lt_ge_cases (Z.lxor a b) (2 ^ w)) as [|Hge]; [done|].
  assert (w ≤ Z.log2 (Z.lxor a b)) as Hl by (apply Z.log2_le_pow2; lia).
  pose proof (Z.bit_log2 (Z.lxor a b) ltac:(lia)) as Hbit. rewrite Z.lxor_spec in Hbit.
  rewrite !(testbit_above w) in Hbit; done.
Qed.

Lemma crc_bit_range c b : in_range 32 c → in_range 32 (crc_bit c b).
Proof.
  intros Hc. unfold crc_bit. apply lxor_range; [lia| |].
  - unfold in_range in *. rewrite Z.shiftr_div_pow2 by lia. change (2 ^ 1) with 2.
    split; [apply Z.div_pos; lia|]. apply Z.div_lt_upper_bound; lia.
  - destruct (xorb _ _); [apply crc_poly_range|]. by vm_compute.
Qed.

Lemma crc_bits_range c bs : in_range 32 c → in_range 32 (crc_bits c bs).
Proof.
  revert c. induction bs as [|b bs IH]; intros c Hc; simpl; [done|]. by apply IH, crc_bit_range.
Qed.

Lemma u32_small c : in_range 32 c → u32 c = c.
Proof. apply Z.mod_small. Qed.

(** * Equivalence with the reference *)

Lemma bits_of_add n m v : bits_of (n + m) v = bits_of n v ++ bits_of m (v / 2 ^ Z.of_nat n).
Proof.
  revert v. induction n as [|n IH]; intros v; cbn [bits_of Nat.add app].
  - by rewrite Z.div_1_r.
  - rewrite IH. do 3 f_equal. rewrite Z.div2_div, Z.div_div by lia.
    f_equal. rewrite Nat2Z.inj_succ, Z.pow_succ_r by lia. lia.
Qed.

Lemma bits_of_mod n v : bits_of n v = bits_of n (v mod 2 ^ Z.of_nat n).
Proof.
  revert v. induction n as [|n IH]; intros v; [done|]. cbn [bits_of].
  assert (0 < 2 ^ Z.of_nat n) by (apply Z.pow_pos_nonneg; lia).
  rewrite Nat2Z.inj_succ, Z.pow_succ_r by lia.
  rewrite (Z.rem_mul_r v 2) by lia. f_equal.
  - rewrite Z.odd_add_mul_2, Zmod_odd. by destruct (Z.odd v).
  - rewrite IH. f_equal. rewrite !Z.div2_div, (Z.mul_comm 2), Z.div_add by lia.
    pose proof (Z.mod_pos_bound v 2 ltac:(lia)). rewrite (Z.div_small (v mod 2)) by lia.
    by rewrite Z.add_0_l.
Qed.

Lemma bits_of_le_Z l : Forall is_byte l →
  bits_of (8 * length l) (le_Z l) = concat (bits_of 8 <$> l).
Proof.
  induction 1 as [|b l Hb _ IH]; [done|]. cbn [length le_Z fmap list_fmap concat].
  unfold is_byte in Hb. replace (8 * S (length l))%nat with (8 + 8 * length l)%nat by lia.
  rewrite bits_of_add. change (2 ^ Z.of_nat 8) with 256. rewrite (bits_of_mod 8 (b + _)).
  change (2 ^ Z.of_nat 8) with 256.
  rewrite (Z.mul_comm 256), Z.mod_add, Z.mod_small, Z.div_add, Z.div_small by lia.
  by rewrite Z.add_0_l, IH.
Qed.

Lemma crc_bits_app c bs1 bs2 : crc_bits c (bs1 ++ bs2) = crc_bits (crc_bits c bs1) bs2.
Proof. apply fold_left_app. Qed.

Lemma crc_bytes_bits c l : fold_left crc_byte l c = crc_bits c (concat (bits_of 8 <$> l)).
Proof.
  revert c. induction l as [|b l IH]; intros c; [done|].
  cbn [fold_left fmap list_fmap concat]. rewrite IH, crc_bits_app. done.
Qed.

Lemma crc_bytes_range c l : in_range 32 c → in_range 32 (fold_left crc_byte l c).
Proof. intros Hc. rewrite crc_bytes_bits. by apply crc_bits_range. Qed.

(** One instruction consumes its bytes in order. *)
Lemma mm_crc32_bytes c l : in_range 32 c → Forall is_byte l →
  mm_crc32 (8 * length l) c (le_Z l) = fold_left crc_byte l c.
Proof.
  intros Hc Hl. unfold mm_crc32. by rewrite u32_small, bits_of_le_Z, crc_bytes_bits.
Qed.

Lemma load_le_app pre l post : load_le (pre ++ l ++ post) (length pre) (length l) = Some (le_Z l).
Proof.
  unfold load_le. rewrite !length_app.
  rewrite (proj2 (Nat.leb_le _ _)) by lia. by rewrite drop_app_length, take_app_length.
Qed.

Lemma crc_step (n : nat) data k c : in_range 32 c → Forall is_byte data → (k + n ≤ length data)%nat →
  c = fold_left crc_byte (take k data) 0 →
  ∃ w, load_le data k n = Some w ∧
       mm_crc32 (8 * n) c w = fold_left crc_byte (take (k + n) data) 0.
Proof.
  intros Hc Hd Hk ->. unfold load_le. rewrite (proj2 (Nat.leb_le _ _)) by done.
  eexists. split; [done|].
  assert (length (take n (drop k data)) = n) as Hlen by (rewrite length_take, length_drop; lia).
  rewrite <- Hlen at 1. rewrite mm_crc32_bytes; [|done|by apply Forall_take, Forall_drop].
  rewrite <- fold_left_app. f_equal. by rewrite take_take_drop.
Qed.

Lemma calculate_crc32_spec data : Forall is_byte data → (60 ≤ length data)%nat →
  calculate_crc32 data = Some (crc32c (take 60 data)).
Proof.
  intros Hd Hlen.
  assert (∀ k c, c = fold_left crc_byte (take k data) 0 → in_range 32 c) as Hrange.
  { intros k c ->. by apply crc_bytes_range. }
  assert (0 = fold_left crc_byte (take 0 data) 0) as E0 by done.
  destruct (crc_step 8 data 0 0) as (w0 & H0 & E1); [by vm_compute|done|lia|done|].
  destruct (crc_step 8 data 8 (mm_crc32 64 0 w0)) as (w1 & H1 & E2); [eauto|done|lia|done|].
  destruct (crc_step 8 data 16 (mm_crc32 64 (mm_crc32 64 0 w0) w1)) as (w2 & H2 & E3);
    [eauto|done|lia|done|].
  set (c3 := mm_crc32 64 (mm_crc32 64 (mm_crc32 64 0 w0) w1) w2).
  destruct (crc_step 8 data 24 c3) as (w3 & H3 & E4); [eauto|done|lia|done|].
  destruct (crc_step 8 data 32 (mm_crc32 64 c3 w3)) as (w4 & H4 & E5); [eauto|done|lia|done|].
  destruct (crc_step 8 data 40 (mm_crc32 64 (mm_crc32 64 c3 w3) w4)) as (w5 & H5 & E6);
    [eauto|done|lia|done|].
  set (c6 := mm_crc32 64 (mm_crc32 64 (mm_crc32 64 c3 w3) w4) w5).
  destruct (crc_step 8 data 48 c6) as (w6 & H6 & E7); [eauto|done|lia|done|].
  destruct (crc_step 4 data 56 (mm_crc32 64 c6 w6)) as (w7 & H7 & E8); [eauto|done|lia|done|].
  unfold calculate_crc32, word64. simpl (8 * _)%nat in *.
  rewrite H0. cbn [mbind option_bind]. rewrite H1. cbn [mbind option_bind].
  rewrite H2. cbn [mbind option_bind]. fold c3. rewrite H3. cbn [mbind option_bind].
  rewrite H4. cbn [mbind option_bind]. rewrite H5. cbn [mbind option_bind]. fold c6.
  rewrite H6. cbn [mbind option_bind]. rewrite H7. cbn [mbind option_bind].
  rewrite (u32_small (mm_crc32 64 c6 w6)) by eauto. rewrite E8.
  rewrite u32_small by (by apply crc_bytes_range). done.
Qed.

(** * Injectivity *)

(** A step is the step on a zero bit after adding the bit to the state. *)
Lemma crc_bit_zero c b : crc_bit c b = crc_bit (Z.lxor c (Z.b2z b)) false.
Proof.
  unfold crc_bit. f_equal.
  - apply Z.bits_inj'. intros n Hn. rewrite !Z.shiftr_spec, Z.lxor_spec by lia.
    replace (Z.testbit (Z.b2z b) (n + 1)) with false; [by rewrite xorb_false_r|].
    destruct b; [|by rewrite Z.testbit_0_l]. simpl Z.b2z. by rewrite (testbit_above 1) by (done || lia).
  - rewrite <- !Z.bit0_odd, Z.lxor_spec, Z.b2z_bit0, xorb_false_r. done.
Qed.

Lemma crc_bit_inj c c' : in_range 32 c → in_range 32 c' →
  crc_bit c false = crc_bit c' false → c = c'.
Proof.
  intros Hc Hc' E.
  assert (∀ x, in_range 32 x → Z.testbit (crc_bit x false) 31 = Z.odd x) as Htop.
  { intros x Hx. unfold crc_bit. rewrite Z.lxor_spec, Z.shiftr_spec, xorb_false_r by lia.
    rewrite (testbit_above 32) by (done || lia). by destruct (Z.odd x). }
  assert (Z.odd c = Z.odd c') as Hodd by (rewrite <- !Htop by done; by rewrite E).
  unfold crc_bit in E. rewrite Hodd in E.
  assert (Z.shiftr c 1 = Z.shiftr c' 1) as Hs.
  { apply (f_equal (λ z, Z.lxor z (if xorb (Z.odd c') false then crc_poly else 0))) in E.
    by rewrite !Z.lxor_assoc, !Z.lxor_nilpotent, !Z.lxor_0_r in E. }
  apply Z.bits_inj'. intros n Hn. destruct (decide (n = 0)) as [->|Hne].
  - by rewrite !Z.bit0_odd.
  - apply (f_equal (λ z, Z.testbit z (n - 1))) in Hs. rewrite !Z.shiftr_spec in Hs by lia.
    by replace (n - 1 + 1) with n in Hs by lia.
Qed.

Lemma lxor_inj_l a b c : Z.lxor a b = Z.lxor a c → b = c.
Proof.
  intros E. apply (f_equal (Z.lxor a)) in E.
  by rewrite <- !Z.lxor_assoc, !Z.lxor_nilpotent, !Z.lxor_0_l in E.
Qed.

Lemma b2z_range b : in_range 32 (Z.b2z b).
Proof. by destruct b. Qed.

(** From different states the same bits lead to different states. *)
Lemma crc_bits_state_inj bs c c' : in_range 32 c → in_range 32 c' →
  crc_bits c bs = crc_bits c' bs → c = c'.
Proof.
  revert c c'. induction bs as [|b bs IH]; intros c c' Hc Hc' E; simpl in E; [done|].
  apply IH in E; [|by apply crc_bit_range..].
  rewrite (crc_bit_zero c), (crc_bit_zero c') in E.
  apply crc_bit_inj in E; [|by apply lxor_range, b2z_range..].
  by rewrite (Z.lxor_comm c), (Z.lxor_comm c') in E; apply lxor_inj_l in E.
Qed.

(** The number whose binary digits are [bs]. *)
Fixpoint bits_Z (bs : list bool) : Z :=
  match bs with
  | [] => 0
  | b :: bs' => Z.b2z b + 2 * bits_Z bs'
  end.

Lemma bits_Z_range bs : 0 ≤ bits_Z bs < 2 ^ Z.of_nat (length bs).
Proof.
  induction bs as [|b bs IH]; [by vm_compute|]. cbn [bits_Z length].
  rewrite Nat2Z.inj_succ, Z.pow_succ_r by lia. destruct b; simpl Z.b2z; lia.
Qed.

Lemma bits_Z_inj bs bs' : length bs = length bs' → bits_Z bs = bits_Z bs' → bs = bs'.
Proof.
  revert bs'. induction bs as [|b bs IH]; intros [|b' bs'] Hl E; try done.
  cbn [bits_Z] in E. simpl in Hl.
  assert (b = b') as -> by (destruct b, b'; simpl Z.b2z in E; (done || lia)).
  f_equal. apply IH; lia.
Qed.

(** Feeding bits is adding them to the state and feeding zeros. *)
Lemma crc_bits_zeros bs c :
  crc_bits c bs = crc_bits (Z.lxor c (bits_Z bs)) (replicate (length bs) false).
Proof.
  revert c. induction bs as [|b bs IH]; intros c; cbn [bits_Z length replicate].
  - by rewrite Z.lxor_0_r.
  - cbn [crc_bits fold_left]. fold (crc_bits (crc_bit c b) bs).
    fold (crc_bits (crc_bit (Z.lxor c (Z.b2z b + 2 * bits_Z bs)) false) (replicate (length bs) false)).
    rewrite IH. f_equal. rewrite (crc_bit_zero c b).
    set (v := bits_Z bs).
    assert (Z.b2z b + 2 * v = Z.lxor (Z.b2z b) (Z.shiftl v 1)) as ->.
    {
      rewrite <- Z.add_nocarry_lxor; [rewrite Z.shiftl_mul_pow2; lia|].
      apply Z.bits_inj'. intros n Hn. rewrite Z.land_spec, Z.testbit_0_l.
      destruct (decide (n = 0)) as [->|]; [by rewrite Z.shiftl_spec_low, andb_false_r by lia|].
      destruct b; simpl Z.b2z; [|by rewrite Z.testbit_0_l].
      by rewrite (testbit_above 1) by (done || lia). }
    rewrite <- Z.lxor_assoc. unfold crc_bit. rewrite !xorb_false_r.
    assert (Z.odd (Z.lxor (Z.lxor c (Z.b2z b)) (Z.shiftl v 1)) = Z.odd (Z.lxor c (Z.b2z b))) as ->.
    { rewrite <- !Z.bit0_odd, Z.lxor_spec, Z.shiftl_spec_low by lia. apply xorb_false_r. }
    rewrite (Z.shiftr_lxor _ (Z.shiftl v 1)), Z.shiftr_shiftl_l, Z.shiftl_0_r by lia.
    by rewrite !Z.lxor_assoc, (Z.lxor_comm v).
Qed.

(** At most 32 different bits fed to the same state give different states. *)
Lemma crc_bits_burst bs bs' c : in_range 32 c → length bs = length bs' → (length bs ≤ 32)%nat →
  crc_bits c bs = crc_bits c bs' → bs = bs'.
Proof.
  intros Hc Hl H32 E. rewrite (crc_bits_zeros bs), (crc_bits_zeros bs'), Hl in E.
  assert (∀ l, (length l ≤ 32)%nat → in_range 32 (Z.lxor c (bits_Z l))) as Hr.
  { intros l Hlen. apply lxor_range; [lia|done|]. pose proof (bits_Z_range l) as [H0 H1].
    split; [done|]. eapply Z.lt_le_trans; [exact H1|]. apply Z.pow_le_mono_r; lia. }
  apply crc_bits_state_inj in E; [|apply Hr; lia..].
  apply lxor_inj_l in E. by apply bits_Z_inj.
Qed.

(** The check value of CRC-32C (initial value and final complement included)
    on the digits 1 to 9. *)
Example crc32c_check_value :
  Z.lxor (fold_left crc_byte [49; 50; 51; 52; 53; 54; 55; 56; 57] (Z.ones 32)) (Z.ones 32) = 3808858755.
Proof. by vm_compute. Qed.

(** C39 The eight instructions of [calculate_crc32] compute the byte-by-byte
    remainder by the CRC-32C polynomial of the first 60 bytes of the block,
    with initial value 0 and no final complement (the standard CRC-32C starts
    from and ends with all ones), and the result fits the 32-bit checksum
    field. *)
Theorem calculate_crc32_is_crc32c data :
  Forall is_byte data → (60 ≤ length data)%nat →
  calculate_crc32 data = Some (crc32c (take 60 data)) ∧ in_range 32 (crc32c (take 60 data)).
Proof.
  intros Hd Hlen. split; [by apply calculate_crc32_spec|]. by apply crc_bytes_range.
Qed.

Lemma calculate_crc32_is_crc32c_witness :
  calculate_crc32 (replicate 60 170) = Some (crc32c (take 60 (replicate 60 170))).
Proof.
  apply (calculate_crc32_is_crc32c (replicate 60 170)); [|simpl; lia].
  apply Forall_replicate. unfold is_byte. lia.
Defined.

Lemma bits_Z_bits_of n v : bits_Z (bits_of n v) = v mod 2 ^ Z.of_nat n.
Proof.
  revert v. induction n as [|n IH]; intros v; cbn [bits_of bits_Z]; [by rewrite Z.mod_1_r|].
  assert (0 < 2 ^ Z.of_nat n) by (apply Z.pow_pos_nonneg; lia).
  rewrite IH, Nat2Z.inj_succ, Z.pow_succ_r, (Z.rem_mul_r v 2), Zmod_odd, Z.div2_div by lia.
  by destruct (Z.odd v).
Qed.

Lemma le_Z_bits l : Forall is_byte l → 0 ≤ le_Z l < 2 ^ Z.of_nat (8 * length l).
Proof.
  intros Hl. pose proof (le_Z_range l Hl) as Hr. change 256 with (2 ^ 8) in Hr.
  rewrite <- Z.pow_mul_r in Hr by lia. by rewrite Nat2Z.inj_mul.
Qed.

Lemma burst_bits (x y : list Z) : Forall is_byte x → Forall is_byte y → length x = length y →
  concat (bits_of 8 <$> x) = concat (bits_of 8 <$> y) → x = y.
Proof.
  intros Hx Hy Hl E. rewrite <- !bits_of_le_Z in E by done.
  rewrite <- (le_bytes_le_Z x), <- (le_bytes_le_Z y), Hl by done. f_equal.
  apply (f_equal bits_Z) in E. rewrite !bits_Z_bits_of in E.
  by rewrite !Z.mod_small in E by by apply le_Z_bits.
Qed.

Lemma crc32c_burst pre x y post : Forall is_byte x → Forall is_byte y →
  length x = length y → (length x ≤ 4)%nat →
  crc32c (pre ++ x ++ post) = crc32c (pre ++ y ++ post) → x = y.
Proof.
  intros Hx Hy Hl H4 E. unfold crc32c in E. rewrite !fold_left_app in E.
  rewrite (crc_bytes_bits _ post), (crc_bytes_bits (fold_left crc_byte y _) post) in E.
  assert (in_range 32 (fold_left crc_byte pre 0)) as Hc by (by apply crc_bytes_range).
  apply crc_bits_state_inj in E; [|by apply crc_bytes_range..].
  rewrite (crc_bytes_bits _ x), (crc_bytes_bits _ y) in E.
  assert (∀ l : list Z, length (concat (bits_of 8 <$> l)) = (8 * length l)%nat) as Hlb.
  { intros l. induction l as [|b l IH]; [done|]. cbn [fmap list_fmap concat length].
    rewrite length_app, IH. simpl. lia. }
  apply crc_bits_burst in E; [|done|rewrite !Hlb; lia|rewrite Hlb; lia]. by apply burst_bits.
Qed.

(** A block followed by its checksum, lowest byte first, leaves the state 0. *)
Lemma crc32c_residue hd l : Forall is_byte l → length l = 4%nat → crc32c hd = le_Z l →
  crc32c (hd ++ l) = 0.
Proof.
  intros Hl H4 E. unfold crc32c in *. rewrite fold_left_app, E, crc_bytes_bits, <- bits_of_le_Z, H4 by done.
  rewrite crc_bits_zeros. replace (bits_Z (bits_of (8 * 4) (le_Z l))) with (le_Z l).
  { rewrite Z.lxor_nilpotent. by vm_compute. }
  rewrite bits_Z_bits_of. symmetry. apply Z.mod_small. pose proof (le_Z_bits l Hl) as Hr. by rewrite H4 in Hr.
Qed.

(** Burst detection: two 60-byte blocks that differ only inside a window
    of at most four bytes have different checksums, so a corrupted or
    half-written 32-bit word is always noticed. *)
Theorem crc32_detects_burst pre x y post :
  Forall is_byte (pre ++ x ++ post) → Forall is_byte (pre ++ y ++ post) →
  length (pre ++ x ++ post) = 60%nat → length x = length y → (length x ≤ 4)%nat → x ≠ y →
  calculate_crc32 (pre ++ x ++ post) ≠ calculate_crc32 (pre ++ y ++ post).
Proof.
  intros Hbx Hby Hlen Hl H4 Hne E. apply Hne.
  assert (length (pre ++ y ++ post) = 60%nat) as Hlen' by (rewrite !length_app in *; lia).
  rewrite !calculate_crc32_spec in E by (done || lia). injection E as E.
  rewrite <- Hlen, take_ge, Hlen, <- Hlen', take_ge in E by lia.
  apply Forall_app in Hbx as [_ [Hx _]%Forall_app]. apply Forall_app in Hby as [_ [Hy _]%Forall_app].
  by eapply crc32c_burst.
Qed.

Lemma crc32_detects_burst_witness :
  calculate_crc32 (replicate 30 0 ++ [1; 2; 3; 4] ++ replicate 26 0) ≠
  calculate_crc32 (replicate 30 0 ++ [0; 2; 3; 0] ++ replicate 26 0).
Proof.
  assert (∀ a b c d, is_byte a → is_byte b → is_byte c → is_byte d →
    Forall is_byte (replicate 30 0 ++ [a; b; c; d] ++ replicate 26 0)) as Hb.
  { intros a b c d ????. apply Forall_app. split; [apply Forall_replicate; unfold is_byte; lia|].
    do 4 (constructor; [done|]). apply Forall_replicate. unfold is_byte. lia. }
  apply (crc32_detects_burst (replicate 30 0) [1; 2; 3; 4] [0; 2; 3; 0] (replicate 26 0));
    [apply Hb; unfold is_byte; lia|apply Hb; unfold is_byte; lia|reflexivity|reflexivity|simpl; lia|].
  intros [= ?].
Defined.
