(* ===== verification/MmapLogger.v ===== *)
(** The write-ahead log: [recovery::WalFrame] (src/src/utils/WalFrame.h) and
    [recovery::MmapLogger] (src/src/recovery/MmapLogger.h and .cpp).

    The log is a file of FILE_SIZE bytes mapped in memory; a frame is 64
    bytes of it.  The mapping is a byte array and a [WalFrame*] is the offset
    of its first byte from [start_].  Stores to the fields of a frame are
    little-endian stores at the fields' offsets; a store outside the mapping
    is UB.  The result of each system call of the constructor is an argument
    of the model. *)

From S2P Require Import Prelude.

(** * WalFrame *)

Definition off_marker : Z := 0.
Definition off_msg_type : Z := 1.
Definition off_channel_id : Z := 2.
Definition off_seq_num : Z := 4.
Definition off_frame_timestamp : Z := 8.
Definition off_payload : Z := 16.
Definition off_checksum : Z := 60.
Definition sizeof_payload : nat := 44.
Definition sizeof_WalFrame : Z := 64.

Definition VALID_FRAME_MARKER : Z := 170.

(** * MmapLogger *)

Definition FILE_SIZE : Z := Z.shiftl 1 30.

(** [start_] is the mapping, or null in a moved-from logger; [curr_] is an
    offset from [start_]. *)
Record MmapLogger : Type := mkLogger {
  start_ : option (array Z);
  curr_ : Z
}.

(** [O_CREAT | O_TRUNC] and [fallocate] give a file of zero bytes. *)
Definition MmapLogger_new (open_ok fallocate_ok mmap_ok madvise_ok : bool) : outcome MmapLogger :=
  if negb open_ok then Throw (runtime_error "MmapLogger(): unable to create new file.")
  else if negb fallocate_ok then
    Throw (runtime_error "MmapLogger(): unable to fallocate data blocks for file.")
  else if negb mmap_ok then Throw (runtime_error "MmapLogger(): unable to mmap file.")
  else if negb madvise_ok then Throw (runtime_error "MmapLogger(): unable to use madvise.")
  else Ok (mkLogger (Some (anew FILE_SIZE 0)) 0).

(** The move constructor and assignment: the new logger and what is left in
    the old one.  The mapping [operator=] replaces is unmapped first. *)
Definition MmapLogger_move (other : MmapLogger) : MmapLogger * MmapLogger :=
  (mkLogger (start_ other) (curr_ other), mkLogger None 0).

Definition MmapLogger_move_assign (same_object : bool) (this other : MmapLogger)
    : MmapLogger * MmapLogger :=
  if same_object then (this, other) else (mkLogger (start_ other) (curr_ other), mkLogger None 0).

(** The destructor: true when it unmaps. *)
Definition MmapLogger_destroy (l : MmapLogger) : bool :=
  match start_ l with Some _ => true | None => false end.

(** In a moved-from logger [curr_] is an address, null at first. *)
Definition reserve_frame : M MmapLogger (option Z) :=
  l ← get_state;
  if FILE_SIZE <? curr_ l + sizeof_WalFrame then mret None
  else
    let frame := curr_ l in
    modify (λ l, mkLogger (start_ l) (curr_ l + sizeof_WalFrame));;
    match start_ l with
    | Some _ => mret (Some frame)
    | None => if frame =? 0 then mret None else mret (Some frame)
    end.

(** [flush_to_disk] hands the bytes written so far to the kernel: the
    argument of msync. *)
Definition flush_to_disk : M MmapLogger Z := l ← get_state; mret (curr_ l).

(** Stores through a frame pointer, and reads of it. *)
Definition store_bytes (off : Z) (bytes : list Z) : M MmapLogger unit :=
  l ← get_state; a ← of_option (start_ l); a' ← of_option (write_bytes a off bytes);
  put_state (mkLogger (Some a') (curr_ l)).
Definition store_le (off : Z) (n : nat) (v : Z) : M MmapLogger unit :=
  store_bytes off (le_bytes n v).
Definition load_bytes (off : Z) (n : nat) : M MmapLogger (list Z) :=
  l ← get_state; a ← of_option (start_ l); of_option (read_bytes a off n).

(** * Lemmas *)

Lemma store_bytes_run a c off bytes a' : write_bytes a off bytes = Some a' →
  store_bytes off bytes (mkLogger (Some a) c) = (Ok tt, mkLogger (Some a') c).
Proof. intros H. unfold store_bytes. munfold. simpl. by rewrite H. Qed.

Lemma load_bytes_run a c off n l : read_bytes a off n = Some l →
  load_bytes off n (mkLogger (Some a) c) = (Ok l, mkLogger (Some a) c).
Proof. intros H. unfold load_bytes. munfold. simpl. by rewrite H. Qed.

Lemma reserve_frame_room a c : c + sizeof_WalFrame ≤ FILE_SIZE →
  reserve_frame (mkLogger (Some a) c) =
  (Ok (Some c), mkLogger (Some a) (c + sizeof_WalFrame)).
Proof.
  intros H. unfold reserve_frame. munfold. simpl.
  by rewrite (proj2 (Z.ltb_ge FILE_SIZE (c + sizeof_WalFrame))).
Qed.

Lemma reserve_frame_full l : FILE_SIZE < curr_ l + sizeof_WalFrame →
  reserve_frame l = (Ok None, l).
Proof.
  intros H. unfold reserve_frame. munfold.
  by rewrite (proj2 (Z.ltb_lt FILE_SIZE (curr_ l + sizeof_WalFrame))).
Qed.

(** Reserving [n] frames. *)
Fixpoint reserve_frames (n : nat) : M MmapLogger (list (option Z)) :=
  match n with
  | O => mret []
  | S n' => f ← reserve_frame; fs ← reserve_frames n'; mret (f :: fs)
  end.

(** The frames a live logger gives out: consecutive from [c] while they fit. *)
Fixpoint frames_from (n : nat) (c : Z) : list (option Z) :=
  match n with
  | O => []
  | S n' =>
      if FILE_SIZE <? c + sizeof_WalFrame then None :: frames_from n' c
      else Some c :: frames_from n' (c + sizeof_WalFrame)
  end.

Lemma reserve_frames_run n a c : ∃ c',
  reserve_frames n (mkLogger (Some a) c) = (Ok (frames_from n c), mkLogger (Some a) c').
Proof.
  revert c. induction n as [|n IH]; intros c; simpl; [by eexists|].
  destruct (Z.ltb_spec FILE_SIZE (c + sizeof_WalFrame)) as [H|H].
  - destruct (IH c) as [c' Hc]. exists c'.
    mstep (reserve_frame_full (mkLogger (Some a) c) H). by mstep Hc.
  - destruct (IH (c + sizeof_WalFrame)) as [c' Hc]. exists c'.
    mstep (reserve_frame_room a c H). by mstep Hc.
Qed.

Lemma frames_from_spec n c k : FILE_SIZE = c + sizeof_WalFrame * k → 0 ≤ k →
  ∀ i, (i < n)%nat → frames_from n c !! i =
    Some (if Z.of_nat i <? k then Some (c + sizeof_WalFrame * Z.of_nat i) else None).
Proof.
  unfold sizeof_WalFrame.
  revert c k. induction n as [|n IH]; intros c k Hk H0 i Hi; [lia|]. simpl frames_from.
  destruct (Z.ltb_spec FILE_SIZE (c + sizeof_WalFrame)) as [H|H]; unfold sizeof_WalFrame in H.
  - assert (k = 0) as -> by lia. destruct i as [|i]; simpl; [done|].
    rewrite (IH c 0) by lia. repeat zcase; done || lia.
  - destruct i as [|i].
    + rewrite (proj2 (Z.ltb_lt (Z.of_nat 0) k)) by lia. simpl. do 2 f_equal. lia.
    + cbn [lookup list_lookup]. rewrite (IH (c + 64) (k - 1)) by lia. do 2 f_equal. repeat zcase; try lia; f_equal; lia.
Qed.

(** The frames of a new log: the [i]-th call of [reserve_frame] returns
    the frame at byte 64 i of the file for the first 2^24 calls, so the frames
    are aligned, disjoint and inside the mapping, and null for ever after. *)
Theorem reserve_frames_partition_file n logger i :
  MmapLogger_new true true true true = Ok logger → (i < n)%nat →
  ∃ fs logger', reserve_frames n logger = (Ok fs, logger') ∧ length fs = n ∧
    fs !! i = Some (if Z.of_nat i <? 2 ^ 24 then Some (64 * Z.of_nat i) else None).
Proof.
  intros [= <-] Hi. destruct (reserve_frames_run n (anew FILE_SIZE 0) 0) as [c' Hrun].
  exists (frames_from n 0), (mkLogger (Some (anew FILE_SIZE 0)) c'). split; [done|]. split.
  - clear Hi Hrun. generalize 0. induction n as [|n IH]; intros c; simpl; [done|].
    by destruct (_ <? _); simpl; rewrite IH.
  - by rewrite (frames_from_spec n 0 (2 ^ 24)).
Qed.

Lemma reserve_frames_partition_file_witness :
  ∃ fs logger', reserve_frames 3 (mkLogger (Some (anew FILE_SIZE 0)) 0) = (Ok fs, logger') ∧
    length fs = 3%nat ∧ fs !! 2%nat = Some (Some 128).
Proof.
  apply (reserve_frames_partition_file 3 (mkLogger (Some (anew FILE_SIZE 0)) 0) 2);
    [reflexivity|lia].
Defined.
