(* ===== verification/ItchParser.v ===== *)
(** [protocol::ItchParser] (src/src/protocol/ItchParser.h): the definitions.

    A block of payload is the list of its bytes; [payload_ptr] is the list
    from the pointer on and [payload_len] its length.  A read past the block
    is UB.  The time stamp counter, which the code reads once for each frame it
    logs, is the parameter [tsc]: the value returned by the read made for the
    frame of the given sequence number.  [parse_block] takes fuel; a block
    whose messages have positive lengths needs at most one unit for each
    byte and one more (ParserTheorems.v). *)

From S2P Require Import Prelude SPSCQueue ItchOrderTypes Crc32 MmapLogger.

(** * Message lengths *)

Definition message_length_table : list Z := [
  0;   0;   0;   0;   0;   0;   0;   0;   0;   0;   0;   0;   0;   0;   0;   0;
  0;   0;   0;   0;   0;   0;   0;   0;   0;   0;   0;   0;   0;   0;   0;   0;
  0;   0;   0;   0;   0;   0;   0;   0;   0;   0;   0;   0;   0;   0;   0;   0;
  0;   0;   0;   0;   0;   0;   0;   0;   0;   0;   0;   0;   0;   0;   0;   0;
  0;  36;  19;  36;  19;  31;  40;   0;  25;  50;  35;  28;  26;   0;  20;  48;
 44;  40;  39;  12;   0;  35;  35;  12;  23;  20;   0;   0;   0;   0;   0;   0;
  0;   0;   0;   0;   0;   0;   0;   0;  21;   0;   0;   0;   0;   0;   0;   0;
  0;   0;   0;   0;   0;   0;   0;   0;   0;   0;   0;   0;   0;   0;   0;   0;
  0;   0;   0;   0;   0;   0;   0;   0;   0;   0;   0;   0;   0;   0;   0;   0;
  0;   0;   0;   0;   0;   0;   0;   0;   0;   0;   0;   0;   0;   0;   0;   0;
  0;   0;   0;   0;   0;   0;   0;   0;   0;   0;   0;   0;   0;   0;   0;   0;
  0;   0;   0;   0;   0;   0;   0;   0;   0;   0;   0;   0;   0;   0;   0;   0;
  0;   0;   0;   0;   0;   0;   0;   0;   0;   0;   0;   0;   0;   0;   0;   0;
  0;   0;   0;   0;   0;   0;   0;   0;   0;   0;   0;   0;   0;   0;   0;   0;
  0;   0;   0;   0;   0;   0;   0;   0;   0;   0;   0;   0;   0;   0;   0;   0;
  0;   0;   0;   0;   0;   0;   0;   0;   0;   0;   0;   0;   0;   0;   0;   0].

(** [message_type - '\0']: [char] is signed on the target. *)
Definition char_index (byte : Z) : Z := if byte <? 128 then byte else byte - 256.

(** [message_length_table[message_type - '\0']]; [None] is an index outside
    the table. *)
Definition message_length (byte : Z) : option Z :=
  if char_index byte <? 0 then None else message_length_table !! Z.to_nat (char_index byte).

(** * Reading the packed structs *)

Definition bytes_at (l : list Z) (off n : nat) : option (list Z) :=
  if (off + n <=? length l)%nat then Some (take n (drop off l)) else None.

(** A little-endian load of [n] bytes, byte-swapped. *)
Definition load_swapped (l : list Z) (off n : nat) : option Z :=
  match bytes_at l off n with Some b => Some (bswap n (le_Z b)) | None => None end.

Definition extract_header (payload : list Z) : option Header :=
  b ← bytes_at payload off_timestamp 6;
  let ts := le_Z b in
  let timestamp := Z.shiftr (bswap 8 ts) 16 in
  order_reference_number ← load_swapped payload off_order_reference_number 8;
  stock_locate ← load_swapped payload off_stock_locate 2;
  tracking_number ← load_swapped payload off_tracking_number 2;
  Some (mkHeader timestamp order_reference_number stock_locate tracking_number).

(** The value-initialised [stock_locate] and [tracking_number] of an add order
    stay zero. *)
Definition parse_add_order (raw_data : list Z) (header : Header) : option NormalizedOrder :=
  shares ← load_swapped raw_data off_add_shares 4;
  price ← load_swapped raw_data off_add_price 4;
  stock ← bytes_at raw_data off_add_stock 8;
  indicator ← raw_data !! off_add_indicator;
  Some (NAdd (mkAddOrder (h_timestamp header) (h_order_reference_number header)
                shares price 0 0 stock indicator)).

Definition parse_executed_order (raw_data : list Z) (header : Header) : option NormalizedOrder :=
  match_number ← load_swapped raw_data off_exec_match_number 8;
  shares ← load_swapped raw_data off_exec_shares 4;
  Some (NExecute (mkOrderExecuted (h_timestamp header) (h_order_reference_number header)
                    match_number shares (h_stock_locate header) (h_tracking_number header))).

Definition parse_cancel_order (raw_data : list Z) (header : Header) : option NormalizedOrder :=
  shares ← load_swapped raw_data off_cancel_shares 4;
  Some (NCancel (mkCancelOrder (h_timestamp header) (h_order_reference_number header)
                   shares (h_stock_locate header) (h_tracking_number header))).

(** * The parser *)

Section Parser.
Context (QUEUE_SIZE : Z) (tsc : Z → Z).

Record ItchParser : Type := mkParser {
  queue_ : SPSCQueue (T := NormalizedOrder);
  logger_ : MmapLogger;
  curr_seq_num : Z
}.

Definition set_queue (q : SPSCQueue) (p : ItchParser) : ItchParser :=
  mkParser q (logger_ p) (curr_seq_num p).
Definition set_logger (l : MmapLogger) (p : ItchParser) : ItchParser :=
  mkParser (queue_ p) l (curr_seq_num p).
Definition set_seq_num (n : Z) (p : ItchParser) : ItchParser :=
  mkParser (queue_ p) (logger_ p) n.

Definition on_logger {A} (m : M MmapLogger A) : M ItchParser A := zoom logger_ set_logger m.
Definition on_queue {A} (m : M SPSCQueue A) : M ItchParser A := zoom queue_ set_queue m.

Definition ItchParser_new (queue : SPSCQueue) (logger : MmapLogger) : ItchParser :=
  mkParser queue logger 0.

(** [memcpy] writes through the frame's [payload] member without looking at
    its size: the message of 50 bytes of type I and that of 48 bytes of type O
    run over the 44 bytes of the member.  The mapping is one flat block of
    bytes, as the compiled code has it, so that their last bytes go to the
    checksum, which is stored later, and to the frame after; a write past the
    end of the mapping is UB. *)
Definition log_payload (payload : list Z) (message_len : nat) (msg_type : Z) : M ItchParser unit :=
  wal_frame_ptr ← on_logger reserve_frame;
  match wal_frame_ptr with
  | None => mret tt
  | Some frame =>
      on_logger (store_le (frame + off_marker) 1 VALID_FRAME_MARKER);;
      on_logger (store_le (frame + off_msg_type) 1 msg_type);;
      on_logger (store_le (frame + off_channel_id) 2 1);;
      seq ← gets curr_seq_num;
      modify (set_seq_num (u64 (seq + 1)));;
      on_logger (store_le (frame + off_seq_num) 4 seq);;
      on_logger (store_le (frame + off_frame_timestamp) 8 (tsc seq));;
      bytes ← of_option (bytes_at payload 0 message_len);
      on_logger (store_bytes (frame + off_payload) bytes);;
      block ← on_logger (load_bytes frame 60);
      checksum ← of_option (calculate_crc32 block);
      on_logger (store_le (frame + off_checksum) 4 checksum)
  end.

(** [queue_.push(std::move(new_order))]: the result is not used. *)
Definition push_order (new_order : NormalizedOrder) : M ItchParser unit :=
  _ ← on_queue (push QUEUE_SIZE new_order); mret tt.

Fixpoint parse_block (fuel : nat) (payload : list Z) : M ItchParser unit :=
  match fuel with
  | O => out_of_fuel
  | S fuel' =>
      match payload with
      | [] => mret tt
      | message_type :: _ =>
          message_len ← of_option (message_length message_type);
          if Z.of_nat (length payload) <? message_len then mret tt
          else if message_type =? char_A then
            log_payload payload 36 char_A;;
            header ← of_option (extract_header payload);
            new_order ← of_option (parse_add_order payload header);
            push_order new_order;;
            parse_block fuel' (drop 36 payload)
          else if message_type =? char_E then
            log_payload payload 31 char_E;;
            header ← of_option (extract_header payload);
            new_order ← of_option (parse_executed_order payload header);
            push_order new_order;;
            parse_block fuel' (drop 31 payload)
          else if message_type =? char_X then
            log_payload payload 23 char_X;;
            header ← of_option (extract_header payload);
            new_order ← of_option (parse_cancel_order payload header);
            push_order new_order;;
            parse_block fuel' (drop 23 payload)
          else
            log_payload payload (Z.to_nat message_len) char_minus;;
            parse_block fuel' (drop (Z.to_nat message_len) payload)
      end
  end.

(** The body of the loop alone: what is left of the block, or [None] when the
    loop ends. *)
Definition parse_step (payload : list Z) : M ItchParser (option (list Z)) :=
  match payload with
  | [] => mret None
  | message_type :: _ =>
      message_len ← of_option (message_length message_type);
      if Z.of_nat (length payload) <? message_len then mret None
      else if message_type =? char_A then
        log_payload payload 36 char_A;;
        header ← of_option (extract_header payload);
        new_order ← of_option (parse_add_order payload header);
        push_order new_order;;
        mret (Some (drop 36 payload))
      else if message_type =? char_E then
        log_payload payload 31 char_E;;
        header ← of_option (extract_header payload);
        new_order ← of_option (parse_executed_order payload header);
        push_order new_order;;
        mret (Some (drop 31 payload))
      else if message_type =? char_X then
        log_payload payload 23 char_X;;
        header ← of_option (extract_header payload);
        new_order ← of_option (parse_cancel_order payload header);
        push_order new_order;;
        mret (Some (drop 23 payload))
      else
        log_payload payload (Z.to_nat message_len) char_minus;;
        mret (Some (drop (Z.to_nat message_len) payload))
  end.
End Parser.
