(* ===== verification/ParserTheorems.v ===== *)
(** What [protocol::ItchParser] does to a block of messages.

    - the parse functions decode the big-endian fields of the ITCH messages
      ([decode]) and invert the encoders;
    - [parse_block] on a block of whole messages appends one log frame for
      each message and pushes one order for each add, execute and cancel
      message; it stops before an incomplete message;
    - outside that domain: a message type of length zero is never consumed,
      a type byte above 127 indexes outside the length table, a full queue
      drops orders that the log keeps, a full log drops frames. *)

From S2P Require Import Prelude SPSCQueue ItchOrderTypes Crc32 MmapLogger ItchParser.

(** * The decoded messages *)

(** A big-endian field. *)
Definition be_at (m : list Z) (off n : nat) : Z := be_Z (take n (drop off m)).

Definition decode_header (m : list Z) : Header :=
  mkHeader (be_at m off_timestamp 6) (be_at m off_order_reference_number 8)
    (be_at m off_stock_locate 2) (be_at m off_tracking_number 2).

Definition decode_add (m : list Z) : NormalizedOrder :=
  NAdd (mkAddOrder (be_at m off_timestamp 6) (be_at m off_order_reference_number 8)
    (be_at m off_add_shares 4) (be_at m off_add_price 4) 0 0
    (take 8 (drop off_add_stock m)) (nth off_add_indicator m 0)).

Definition decode_executed (m : list Z) : NormalizedOrder :=
  NExecute (mkOrderExecuted (be_at m off_timestamp 6) (be_at m off_order_reference_number 8)
    (be_at m off_exec_match_number 8) (be_at m off_exec_shares 4)
    (be_at m off_stock_locate 2) (be_at m off_tracking_number 2)).

Definition decode_cancel (m : list Z) : NormalizedOrder :=
  NCancel (mkCancelOrder (be_at m off_timestamp 6) (be_at m off_order_reference_number 8)
    (be_at m off_cancel_shares 4) (be_at m off_stock_locate 2) (be_at m off_tracking_number 2)).

(** The order a message carries, if it is of a supported type. *)
Definition decode (m : list Z) : option NormalizedOrder :=
  match m with
  | c :: _ =>
      if c =? char_A then Some (decode_add m)
      else if c =? char_E then Some (decode_executed m)
      else if c =? char_X then Some (decode_cancel m)
      else None
  | [] => None
  end.

(** ** The parse functions decode *)

Lemma bytes_at_in l off n : (off + n ≤ length l)%nat → bytes_at l off n = Some (take n (drop off l)).
Proof. intros H. unfold bytes_at. by rewrite (proj2 (Nat.leb_le _ _)). Qed.

Lemma take_drop_bytes l off n : Forall is_byte l → Forall is_byte (take n (drop off l)).
Proof. intros H. by apply Forall_take, Forall_drop. Qed.

Lemma length_take_drop {A} (l : list A) off n : (off + n ≤ length l)%nat →
  length (take n (drop off l)) = n.
Proof. intros H. rewrite length_take, length_drop. lia. Qed.

Lemma load_swapped_be l off n : Forall is_byte l → (off + n ≤ length l)%nat →
  load_swapped l off n = Some (be_at l off n).
Proof.
  intros Hl H. unfold load_swapped. rewrite bytes_at_in by done. f_equal.
  rewrite <- (length_take_drop l off n H) at 1. by apply bswap_le_Z, take_drop_bytes.
Qed.

Lemma le_bytes_pad l k : Forall is_byte l →
  le_bytes (length l + k) (le_Z l) = l ++ replicate k 0.
Proof.
  induction 1 as [|b l Hb _ IH]; simpl.
  - induction k as [|k IH]; simpl; [done|]. by rewrite Z.div_0_l, IH.
  - unfold is_byte in Hb. rewrite (Z.mul_comm 256), Z.mod_add, Z.mod_small by lia. f_equal.
    rewrite Z.div_add, Z.div_small by lia. by rewrite Z.add_0_l.
Qed.

(** The six-byte time stamp: copied to the low bytes, swapped, shifted. *)
Lemma timestamp_be b : Forall is_byte b → length b = 6%nat →
  Z.shiftr (bswap 8 (le_Z b)) 16 = be_Z b.
Proof.
  intros Hb Hl. unfold bswap. replace 8%nat with (length b + 2)%nat by lia.
  rewrite le_bytes_pad, rev_app_distr by done. simpl rev. rewrite be_Z_le.
  rewrite Z.shiftr_div_pow2 by lia. cbn [le_Z app].
  replace (0 + 256 * (0 + 256 * le_Z (rev b))) with (le_Z (rev b) * 2 ^ 16) by lia.
  by rewrite Z.div_mul.
Qed.

Lemma extract_header_decode m : Forall is_byte m → (19 ≤ length m)%nat →
  extract_header m = Some (decode_header m).
Proof.
  intros Hm Hl. unfold extract_header, decode_header, off_timestamp, off_order_reference_number,
    off_stock_locate, off_tracking_number.
  rewrite bytes_at_in by lia. cbn [mbind option_bind]. rewrite !load_swapped_be by (done || lia).
  cbn [mbind option_bind].
  rewrite timestamp_be; [done|by apply take_drop_bytes|apply length_take_drop; lia].
Qed.

Lemma parse_add_order_decode m : Forall is_byte m → (36 ≤ length m)%nat →
  parse_add_order m (decode_header m) = Some (decode_add m).
Proof.
  intros Hm Hl. unfold parse_add_order, decode_add, off_add_shares, off_add_price, off_add_stock,
    off_add_indicator.
  rewrite !load_swapped_be by (done || lia). cbn [mbind option_bind].
  rewrite bytes_at_in by lia. cbn [mbind option_bind].
  destruct (lookup_lt_is_Some_2 m 19) as [c Hc]; [lia|]. rewrite Hc. cbn [mbind option_bind].
  by rewrite (nth_lookup_Some m 19 0 c Hc).
Qed.

Lemma parse_executed_order_decode m : Forall is_byte m → (31 ≤ length m)%nat →
  parse_executed_order m (decode_header m) = Some (decode_executed m).
Proof.
  intros Hm Hl. unfold parse_executed_order, decode_executed, off_exec_match_number,
    off_exec_shares. by rewrite !load_swapped_be by (done || lia).
Qed.

Lemma parse_cancel_order_decode m : Forall is_byte m → (23 ≤ length m)%nat →
  parse_cancel_order m (decode_header m) = Some (decode_cancel m).
Proof.
  intros Hm Hl. unfold parse_cancel_order, decode_cancel, off_cancel_shares.
  by rewrite load_swapped_be by (done || lia).
Qed.

(** ** Only the message's own bytes matter *)

Lemma be_at_app m rest off n : (off + n ≤ length m)%nat → be_at (m ++ rest) off n = be_at m off n.
Proof.
  intros H. unfold be_at. f_equal.
  by rewrite drop_app_le, take_app_le by (rewrite ?length_drop; lia).
Qed.

Lemma decode_add_app m rest : (36 ≤ length m)%nat → decode_add (m ++ rest) = decode_add m.
Proof.
  intros H. unfold decode_add, off_timestamp, off_order_reference_number, off_add_shares,
    off_add_price, off_add_stock, off_add_indicator.
  rewrite !be_at_app, drop_app_le, take_app_le, app_nth1 by (rewrite ?length_drop; lia). done.
Qed.

Lemma decode_executed_app m rest : (31 ≤ length m)%nat →
  decode_executed (m ++ rest) = decode_executed m.
Proof.
  intros H. unfold decode_executed, off_timestamp, off_order_reference_number,
    off_exec_match_number, off_exec_shares, off_stock_locate, off_tracking_number.
  by rewrite !be_at_app by lia.
Qed.

Lemma decode_cancel_app m rest : (23 ≤ length m)%nat →
  decode_cancel (m ++ rest) = decode_cancel m.
Proof.
  intros H. unfold decode_cancel, off_timestamp, off_order_reference_number,
    off_cancel_shares, off_stock_locate, off_tracking_number.
  by rewrite !be_at_app by lia.
Qed.

(** * The log *)

Section Log.
Context (tsc : Z → Z).

(** The first 60 bytes of the frame of a message and the frame; the unused
    bytes of [payload] are zero. *)
Definition frame_head (seq msg_type : Z) (m : list Z) : list Z :=
  le_bytes 1 VALID_FRAME_MARKER ++ le_bytes 1 msg_type ++ le_bytes 2 1 ++ le_bytes 4 seq ++
  le_bytes 8 (tsc seq) ++ take 44 (m ++ replicate 44 0).

Definition frame_bytes (seq msg_type : Z) (m : list Z) : list Z :=
  frame_head seq msg_type m ++ le_bytes 4 (crc32c (frame_head seq msg_type m)).

(** The type recorded for a message. *)
Definition log_type (m : list Z) : Z :=
  match m with
  | c :: _ => if (c =? char_A) || (c =? char_E) || (c =? char_X) then c else char_minus
  | [] => char_minus
  end.

(** [frames] are the frames written, [next] the first byte after them.  The
    second byte after them may have been written by an oversized message too;
    all others are still zero. *)
Record log_rep_at (l : MmapLogger) (a : array Z) (frames : list (list Z)) (next : Z) : Prop := {
  lr_start : start_ l = Some a;
  lr_len : alen a = FILE_SIZE;
  lr_curr : curr_ l = 64 * Z.of_nat (length frames);
  lr_fits : 64 * Z.of_nat (length frames) ≤ FILE_SIZE;
  lr_frames : ∀ i f, frames !! i = Some f → read_bytes a (64 * Z.of_nat i) 64 = Some f;
  lr_next : curr_ l < FILE_SIZE → a.[curr_ l] = Some next;
  lr_second : curr_ l + 1 < FILE_SIZE → ∃ x, is_byte x ∧ a.[curr_ l + 1] = Some x;
  lr_zero : ∀ j, curr_ l + 2 ≤ j < FILE_SIZE → a.[j] = Some 0
}.

Definition log_rep (l : MmapLogger) (frames : list (list Z)) (next : Z) : Prop :=
  ∃ a, log_rep_at l a frames next.

Lemma log_rep_new l : MmapLogger_new true true true true = Ok l → log_rep l [] 0.
Proof.
  intros [= <-]. assert (FILE_SIZE = 2 ^ 30) as HF by done.
  exists (anew FILE_SIZE 0). constructor; cbn [start_ curr_ length].
  - done.
  - done.
  - done.
  - lia.
  - intros i f Hi. by rewrite lookup_nil in Hi.
  - intros _. apply aget_anew. lia.
  - intros _. exists 0. split; [by vm_compute|]. apply aget_anew. lia.
  - intros j Hj. apply aget_anew. lia.
Qed.

Lemma length_frame_head seq ty m : length (frame_head seq ty m) = 60%nat.
Proof.
  unfold frame_head. rewrite !length_app, !length_le_bytes, length_take, length_app, length_replicate.
  lia.
Qed.

Lemma frame_head_bytes seq ty m : Forall is_byte m → Forall is_byte (frame_head seq ty m).
Proof.
  intros Hm. unfold frame_head. repeat apply Forall_app_2; try apply le_bytes_bytes.
  apply Forall_take, Forall_app_2; [done|]. apply Forall_replicate. unfold is_byte. lia.
Qed.

Lemma length_frame_bytes seq ty m : length (frame_bytes seq ty m) = 64%nat.
Proof. unfold frame_bytes. by rewrite length_app, length_frame_head, length_le_bytes. Qed.

(** The bytes the six field stores write. *)
Definition frame_stores (seq ty : Z) (m : list Z) : list Z :=
  le_bytes 1 VALID_FRAME_MARKER ++ le_bytes 1 ty ++ le_bytes 2 1 ++ le_bytes 4 seq ++
  le_bytes 8 (tsc seq) ++ m.

Lemma length_frame_stores seq ty m : length (frame_stores seq ty m) = (16 + length m)%nat.
Proof. unfold frame_stores. rewrite !length_app, !length_le_bytes. lia. Qed.

Lemma frame_stores_app seq ty m l : frame_stores seq ty m ++ l = frame_stores seq ty (m ++ l).
Proof. unfold frame_stores. by rewrite !app_assoc. Qed.

Lemma frame_head_stores seq ty m :
  frame_head seq ty m = take 60 (frame_stores seq ty (m ++ replicate 44 0)).
Proof. by unfold frame_head, frame_stores. Qed.

(** After the stores the first 60 bytes of the frame are its head, provided
    the payload area was zero. *)
Lemma stored_head a a' c seq ty m : 0 ≤ c → c + 60 ≤ alen a →
  write_bytes a c (frame_stores seq ty m) = Some a' →
  (∀ j, c + 2 ≤ j < c + 60 → a.[j] = Some 0) →
  read_bytes a' c 60 = Some (frame_head seq ty m).
Proof.
  intros Hc Hlen Hw Hz. apply read_bytes_Some. split; [apply length_frame_head|].
  intros k Hk. rewrite (write_bytes_get _ _ _ _ _ Hw), length_frame_stores.
  rewrite frame_head_stores, lookup_take, (decide_True (P := (k < 60)%nat)) by lia.
  rewrite <- frame_stores_app.
  destruct (decide (k < 16 + length m)%nat) as [H|H].
  - rewrite decide_True by lia. rewrite lookup_app_l by (rewrite length_frame_stores; lia).
    f_equal. lia.
  - rewrite decide_False by lia. rewrite Hz by lia.
    rewrite lookup_app_r by (rewrite length_frame_stores; lia).
    rewrite length_frame_stores, lookup_replicate_2 by lia. done.
Qed.

Lemma write_bytes_app_inv a off l1 l2 a' : write_bytes a off (l1 ++ l2) = Some a' →
  ∃ a1, write_bytes a off l1 = Some a1 ∧ write_bytes a1 (off + Z.of_nat (length l1)) l2 = Some a'.
Proof. rewrite write_bytes_app. destruct (write_bytes a off l1); [eauto|done]. Qed.

Lemma on_logger_run {A} (f : M MmapLogger A) q l n r l' : f l = (r, l') →
  on_logger f (mkParser q l n) = (r, mkParser q l' n).
Proof. intros H. unfold on_logger, zoom. simpl. by rewrite H. Qed.

Lemma calculate_crc32_total l : (60 ≤ length l)%nat → ∃ c, calculate_crc32 l = Some c.
Proof.
  intros H. unfold calculate_crc32, word64, load_le.
  rewrite !(proj2 (Nat.leb_le _ _)) by lia. by eexists.
Qed.

(** One call with a frame left: the field stores, then the checksum. *)
Lemma log_payload_run payload n ty bytes q a c seq : alen a = FILE_SIZE → 0 ≤ c →
  c + 64 ≤ FILE_SIZE → bytes_at payload 0 n = Some bytes → c + 16 + Z.of_nat (length bytes) ≤ FILE_SIZE →
  ∃ a1 a2 block crc,
    write_bytes a c (frame_stores seq ty bytes) = Some a1 ∧ read_bytes a1 c 60 = Some block ∧
    calculate_crc32 block = Some crc ∧ write_bytes a1 (c + 60) (le_bytes 4 crc) = Some a2 ∧
    log_payload tsc payload n ty (mkParser q (mkLogger (Some a) c) seq) =
    (Ok tt, mkParser q (mkLogger (Some a2) (c + 64)) (u64 (seq + 1))).
Proof.
  intros Hlen Hc Hroom Hbytes Hfit.
  destruct (write_bytes_in a c (frame_stores seq ty bytes)) as (a1 & Hw & Hlen1);
    [done|rewrite length_frame_stores; lia|].
  destruct (read_bytes_in a1 c 60) as (block & Hr & Hbl); [done|lia|].
  destruct (calculate_crc32_total block) as [crc Hcrc]; [lia|].
  destruct (write_bytes_in a1 (c + 60) (le_bytes 4 crc)) as (a2 & Hw2 & _);
    [lia|rewrite length_le_bytes; lia|].
  exists a1, a2, block, crc. split_and!; try done.
  pose proof Hw as Hw'. unfold frame_stores in Hw'.
  apply write_bytes_app_inv in Hw' as (b1 & S1 & Hw').
  apply write_bytes_app_inv in Hw' as (b2 & S2 & Hw').
  apply write_bytes_app_inv in Hw' as (b3 & S3 & Hw').
  apply write_bytes_app_inv in Hw' as (b4 & S4 & Hw').
  apply write_bytes_app_inv in Hw' as (b5 & S5 & S6).
  rewrite !length_le_bytes in *. rewrite <- !Z.add_assoc in *. simpl (Z.of_nat _ + _) in *.
  unfold log_payload, store_le.
  mstep (on_logger_run _ q _ seq _ _ (reserve_frame_room a c Hroom)).
  rewrite <- (Z.add_0_r c) in S1.
  mstep (on_logger_run _ q _ seq _ _ (store_bytes_run _ (c + 64) _ _ _ S1)).
  mstep (on_logger_run _ q _ seq _ _ (store_bytes_run _ (c + 64) _ _ _ S2)).
  mstep (on_logger_run _ q _ seq _ _ (store_bytes_run _ (c + 64) _ _ _ S3)).
  rewrite bind_gets, bind_modify. unfold set_seq_num. cbn [curr_seq_num queue_ logger_].
  mstep (on_logger_run _ q _ (u64 (seq + 1)) _ _ (store_bytes_run _ (c + 64) _ _ _ S4)).
  mstep (on_logger_run _ q _ (u64 (seq + 1)) _ _ (store_bytes_run _ (c + 64) _ _ _ S5)).
  rewrite Hbytes. cbn [of_option]. rewrite bind_mret.
  mstep (on_logger_run _ q _ (u64 (seq + 1)) _ _ (store_bytes_run _ (c + 64) _ _ _ S6)).
  mstep (on_logger_run _ q _ (u64 (seq + 1)) _ _ (load_bytes_run _ (c + 64) _ _ _ Hr)).
  rewrite Hcrc. cbn [of_option]. rewrite bind_mret.
  exact (on_logger_run _ q _ (u64 (seq + 1)) _ _ (store_bytes_run _ (c + 64) _ _ _ Hw2)).
Qed.

(** The byte that a message leaves at the start of the next frame: messages
    longer than 48 bytes run over. *)
Definition overrun (m : list Z) : Z := default 0 (m !! 48%nat).

(** What the stores and the checksum leave in the file. *)
Lemma stored_frame a a1 a2 c seq ty m block crc : 0 ≤ c → alen a = FILE_SIZE → c + 66 ≤ FILE_SIZE →
  Forall is_byte m → (length m ≤ 50)%nat →
  (∀ j, c + 2 ≤ j < FILE_SIZE → a.[j] = Some 0) →
  write_bytes a c (frame_stores seq ty m) = Some a1 → read_bytes a1 c 60 = Some block →
  calculate_crc32 block = Some crc → write_bytes a1 (c + 60) (le_bytes 4 crc) = Some a2 →
  alen a2 = FILE_SIZE ∧ read_bytes a2 c 64 = Some (frame_bytes seq ty m) ∧
  (∀ j, j < c → a2.[j] = a.[j]) ∧ a2.[c + 64] = Some (overrun m) ∧
  (∃ x, is_byte x ∧ a2.[c + 65] = Some x) ∧ (∀ j, c + 66 ≤ j < FILE_SIZE → a2.[j] = Some 0).
Proof.
  intros Hc Hlen Hroom Hm Hm50 Hz Hw1 Hr Hcrc Hw2.
  rewrite (stored_head a a1 c seq ty m) in Hr by (lia || done || (intros; apply Hz; lia)).
  injection Hr as <-.
  rewrite calculate_crc32_spec, take_ge in Hcrc by
    (rewrite ?length_frame_head; auto using frame_head_bytes). injection Hcrc as <-.
  assert (∀ j, j < c + 60 ∨ c + 64 ≤ j → a2.[j] = a1.[j]) as Hget2.
  { intros j Hj. rewrite (write_bytes_get _ _ _ _ _ Hw2), length_le_bytes.
    rewrite decide_False by lia. done. }
  assert (∀ j, a1.[j] = if decide (c ≤ j < c + 16 + Z.of_nat (length m))
                        then frame_stores seq ty m !! Z.to_nat (j - c) else a.[j]) as Hget1.
  { intros j. rewrite (write_bytes_get _ _ _ _ _ Hw1), length_frame_stores.
    destruct (decide (c ≤ j < c + 16 + Z.of_nat (length m)));
      [rewrite decide_True by lia|rewrite decide_False by lia]; done. }
  split_and!.
  - by rewrite (write_bytes_len _ _ _ _ Hw2), (write_bytes_len _ _ _ _ Hw1).
  - change 64%nat with (60 + 4)%nat. rewrite read_bytes_app.
    rewrite (read_bytes_ext a1) by (intros j Hj; apply Hget2; lia).
    rewrite (stored_head a a1 c seq ty m) by (lia || done || (intros; apply Hz; lia)).
    pose proof (read_write_same _ _ _ _ Hw2) as Hs. rewrite length_le_bytes in Hs.
    change (Z.of_nat 60) with 60. by rewrite Hs.
  - intros j Hj. rewrite Hget2, Hget1, decide_False by lia. done.
  - rewrite Hget2, Hget1 by lia. unfold overrun. dcase as E.
    + replace (Z.to_nat (c + 64 - c)) with (16 + 48)%nat by lia.
      assert (∀ l, frame_stores seq ty l !! (16 + 48)%nat = l !! 48%nat) as -> by done.
      destruct (lookup_lt_is_Some_2 m 48) as [x Hx]; [lia|]. by rewrite Hx.
    + rewrite (lookup_ge_None_2 m 48) by lia. apply Hz. lia.
  - rewrite Hget2, Hget1 by lia. dcase as E.
    + replace (Z.to_nat (c + 65 - c)) with (16 + 49)%nat by lia.
      assert (∀ l, frame_stores seq ty l !! (16 + 49)%nat = l !! 49%nat) as -> by done.
      destruct (lookup_lt_is_Some_2 m 49) as [x Hx]; [lia|]. exists x. split; [|done].
      by eapply (Forall_lookup_1 is_byte).
    + exists 0. split; [by vm_compute|]. apply Hz. lia.
  - intros j Hj. rewrite Hget2, Hget1, decide_False by lia. apply Hz. lia.
Qed.

Lemma log_payload_rep m rest ty q l frames next : log_rep l frames next →
  Forall is_byte m → (length m ≤ 50)%nat →
  64 * Z.of_nat (S (length frames)) + 2 ≤ FILE_SIZE →
  ∃ l', log_payload tsc (m ++ rest) (length m) ty (mkParser q l (Z.of_nat (length frames))) =
        (Ok tt, mkParser q l' (Z.of_nat (S (length frames)))) ∧
        log_rep l' (frames ++ [frame_bytes (Z.of_nat (length frames)) ty m]) (overrun m).
Proof.
  intros (a & R) Hm Hm50 Hroom. set (n := length frames) in *.
  destruct l as [sa c]. destruct R as [Hs Hlen Hcurr _ Hfr _ _ Hz]. cbn [start_ curr_] in *.
  fold n in Hcurr. subst sa c.
  assert (FILE_SIZE = 2 ^ 30) as HF by done.
  destruct (log_payload_run (m ++ rest) (length m) ty m q a (64 * Z.of_nat n) (Z.of_nat n))
    as (a1 & a2 & block & crc & Hw1 & Hr & Hcrc & Hw2 & Hrun); try (lia || assumption).
  { rewrite bytes_at_in by (rewrite length_app; lia). by rewrite drop_0, take_app_length. }
  destruct (stored_frame a a1 a2 (64 * Z.of_nat n) (Z.of_nat n) ty m block crc)
    as (Hlen2 & Hread & Hlow & Hnext & Hsecond & Hzero); try (lia || assumption).
  exists (mkLogger (Some a2) (64 * Z.of_nat n + 64)). split.
  - rewrite Hrun. do 2 f_equal. unfold u64, uwrap. rewrite Z.mod_small by lia. lia.
  - exists a2. constructor; cbn [start_ curr_]; rewrite ?length_app; cbn [length]; fold n;
      try (lia || reflexivity || (intros; assumption)).
    + intros i f [Hi|[Hi Hf]]%lookup_app_Some.
      * pose proof (lookup_lt_Some _ _ _ Hi) as Hlt. fold n in Hlt.
        rewrite (read_bytes_ext a) by (intros j Hj; apply Hlow; lia). by apply Hfr.
      * apply list_lookup_singleton_Some in Hf as [Hi' <-]. fold n in Hi, Hi'.
        by replace i with n by lia.
    + intros _. by rewrite <- Z.add_assoc.
    + intros j Hj. apply Hzero. lia.
Qed.

(** A full log: the call does nothing. *)
Lemma log_payload_full payload n ty p : FILE_SIZE < curr_ (logger_ p) + 64 →
  log_payload tsc payload n ty p = (Ok tt, p).
Proof.
  intros H. destruct p as [q l s]. unfold log_payload.
  by mstep (on_logger_run _ q l s _ _ (reserve_frame_full l H)).
Qed.
End Log.

(** * Blocks of messages *)

(** A message whose length is the one of its type. *)
Definition whole_message (m : list Z) : bool :=
  match m with
  | c :: _ => bool_decide (message_length c = Some (Z.of_nat (length m)))
  | [] => false
  end.

(** Nothing, or the beginning of a message. *)
Definition incomplete (rest : list Z) : bool :=
  match rest with
  | [] => true
  | c :: _ => match message_length c with
              | Some n => Z.of_nat (length rest) <? n
              | None => false
              end
  end.

Lemma message_length_bound c n : message_length c = Some n → 0 ≤ n ≤ 50.
Proof.
  unfold message_length. destruct (_ <? 0); [done|]. intros H.
  assert (Forall (λ n, 0 ≤ n ≤ 50) message_length_table) as Hall.
  { apply (bool_decide_unpack _). by vm_compute. }
  rewrite Forall_lookup in Hall. by eapply Hall.
Qed.

Lemma whole_message_50 m : whole_message m = true → (length m ≤ 50)%nat.
Proof.
  destruct m as [|c m]; [done|]. unfold whole_message. intros Hm%bool_decide_eq_true.
  apply message_length_bound in Hm. lia.
Qed.

Section Block.
Context (e : Z) (tsc : Z → Z).
#[local] Abbreviation Size := (2 ^ e).

(** The elements a queue of [Size] slots holds after pushes. *)
Definition enqueue (l : list NormalizedOrder) (o : NormalizedOrder) : list NormalizedOrder :=
  if Z.of_nat (length l) <? Size - 1 then l ++ [o] else l.

Fixpoint message_frames (seq : nat) (ms : list (list Z)) : list (list Z) :=
  match ms with
  | [] => []
  | m :: ms' => frame_bytes tsc (Z.of_nat seq) (log_type m) m :: message_frames (S seq) ms'
  end.

Definition parser_rep (p : ItchParser) (frames : list (list Z)) (next : Z)
    (l : list NormalizedOrder) : Prop :=
  log_rep (logger_ p) frames next ∧ queue_rep Size (queue_ p) l ∧
  curr_seq_num p = Z.of_nat (length frames).

Lemma push_order_rep q lg s l o : queue_rep Size q l →
  ∃ q', push_order Size o (mkParser q lg s) = (Ok tt, mkParser q' lg s) ∧
        queue_rep Size q' (enqueue l o).
Proof.
  intros Hq. destruct (push_rep Size q l o Hq) as (q' & Hrun & Hq').
  exists q'. split; [|done]. unfold push_order, on_queue, zoom. munfold. simpl. by rewrite Hrun.
Qed.

(** The branch of a supported message: log, parse, push. *)
Lemma order_branch {A} n ty parse o (k : M ItchParser A) m rest p :
  length m = n → (19 ≤ n)%nat → Forall is_byte (m ++ rest) →
  parse (m ++ rest) (decode_header (m ++ rest)) = Some o →
  (log_payload tsc (m ++ rest) n ty;;
   header ← of_option (extract_header (m ++ rest));
   new_order ← of_option (parse (m ++ rest) header);
   push_order Size new_order;; k) p =
  (log_payload tsc (m ++ rest) (length m) ty;; push_order Size o;; k) p.
Proof.
  intros <- Hn Hb Hparse. unfold mbind at 1 5, M_bind at 1 5.
  destruct (log_payload tsc (m ++ rest) (length m) ty p) as [[[]|ex| |] p1]; try done.
  rewrite extract_header_decode by (done || (rewrite length_app; lia)).
  cbn [of_option]. rewrite bind_mret, Hparse. cbn [of_option]. by rewrite bind_mret.
Qed.

(** The loop is its body followed by the loop. *)
Lemma parse_block_steps fuel payload p :
  parse_block Size tsc (S fuel) payload p =
  (r ← parse_step Size tsc payload;
   match r with Some rest => parse_block Size tsc fuel rest | None => mret tt end) p.
Proof.
  destruct payload as [|c payload]; [done|]. cbn [parse_block parse_step].
  destruct (message_length c) as [n|]; [|done]. cbn [of_option]. rewrite !bind_assoc, !bind_mret.
  destruct (_ <? n); [done|].
  destruct (c =? char_A); [|destruct (c =? char_E); [|destruct (c =? char_X)]];
    unfold mbind, M_bind; (destruct (log_payload _ _ _ _ p) as [[[]| | |] p1]; [|done..]); try done;
    (destruct (of_option _ p1) as [[h| | |] p2]; [|done..]);
    (destruct (of_option _ p2) as [[o| | |] p3]; [|done..]);
    by destruct (push_order _ o p3) as [[[]| | |] p4].
Qed.

(** One iteration of the loop: the message is logged and, if it carries an
    order, the order is pushed. *)
Lemma parse_step_message m rest p : whole_message m = true → Forall is_byte (m ++ rest) →
  parse_step Size tsc (m ++ rest) p =
  (log_payload tsc (m ++ rest) (length m) (log_type m);;
   (match decode m with Some o => push_order Size o | None => mret tt end);;
   mret (Some rest)) p.
Proof.
  intros Hm Hb. destruct m as [|c m0]; [done|]. unfold whole_message in Hm.
  apply bool_decide_eq_true in Hm. pose proof (message_length_bound _ _ Hm) as Hbound.
  assert (∀ n, length (c :: m0) = n → drop n ((c :: m0) ++ rest) = rest) as Hdrop
    by (intros n <-; apply drop_app_length).
  change ((c :: m0) ++ rest) with (c :: (m0 ++ rest)). cbn [parse_step]. rewrite Hm. cbn [of_option]. rewrite bind_mret.
  change (c :: m0 ++ rest) with ((c :: m0) ++ rest). set (m := c :: m0) in *.
  rewrite (proj2 (Z.ltb_ge _ _)) by (rewrite length_app; lia).
  assert (decode m = if c =? char_A then Some (decode_add m) else
    if c =? char_E then Some (decode_executed m) else
    if c =? char_X then Some (decode_cancel m) else None) as -> by done.
  assert (log_type m = if (c =? char_A) || (c =? char_E) || (c =? char_X) then c else char_minus)
    as -> by done.
  clearbody m.
  destruct (Z.eqb_spec c char_A) as [->|HA]; [|destruct (Z.eqb_spec c char_E) as [->|HE];
    [|destruct (Z.eqb_spec c char_X) as [->|HX]]].
  - injection Hm as Hm. rewrite (Hdrop 36%nat) by lia. apply order_branch; try (done || lia).
    rewrite <- (decode_add_app m rest) by lia.
    apply parse_add_order_decode; [done|rewrite length_app; lia].
  - injection Hm as Hm. rewrite (Hdrop 31%nat) by lia. apply order_branch; try (done || lia).
    rewrite <- (decode_executed_app m rest) by lia.
    apply parse_executed_order_decode; [done|rewrite length_app; lia].
  - injection Hm as Hm. rewrite (Hdrop 23%nat) by lia. apply order_branch; try (done || lia).
    rewrite <- (decode_cancel_app m rest) by lia.
    apply parse_cancel_order_decode; [done|rewrite length_app; lia].
  - rewrite Nat2Z.id, (Hdrop _ eq_refl). done.
Qed.

Lemma parse_iteration fuel m rest p : whole_message m = true → Forall is_byte (m ++ rest) →
  parse_block Size tsc (S fuel) (m ++ rest) p =
  (log_payload tsc (m ++ rest) (length m) (log_type m);;
   (match decode m with Some o => push_order Size o | None => mret tt end);;
   parse_block Size tsc fuel rest) p.
Proof.
  intros Hm Hb. rewrite parse_block_steps. unfold mbind at 1, M_bind at 1.
  rewrite parse_step_message by done. unfold mbind, M_bind.
  destruct (log_payload _ _ _ _ p) as [[[]| | |] p1]; [|done..].
  destruct (decode m) as [o|]; [|done]. by destruct (push_order Size o p1) as [[[]| | |] p2].
Qed.

(** One message at the front of the block, with room in the log. *)
Lemma parse_step_rep m rest p frames next l :
  whole_message m = true → Forall is_byte (m ++ rest) → parser_rep p frames next l →
  64 * Z.of_nat (S (length frames)) + 2 ≤ FILE_SIZE →
  ∃ p', parse_step Size tsc (m ++ rest) p = (Ok (Some rest), p') ∧
        parser_rep p' (frames ++ [frame_bytes tsc (Z.of_nat (length frames)) (log_type m) m])
          (overrun m) (match decode m with Some o => enqueue l o | None => l end).
Proof.
  intros Hm Hb (Hlog & Hq & Hseq) Hroom. rewrite parse_step_message by done.
  destruct p as [q lg s]. cbn [logger_ queue_ curr_seq_num] in *. subst s.
  pose proof (whole_message_50 m Hm) as Hm50.
  destruct (log_payload_rep tsc m rest (log_type m) q lg frames next Hlog) as (lg' & Hrun & Hlog');
    [by apply Forall_app in Hb as [? _]|done|done|].
  mstep Hrun. set (s' := Z.of_nat (S (length frames))).
  assert (∃ q', (match decode m with Some o => push_order Size o | None => mret tt end)
      (mkParser q lg' s') = (Ok tt, mkParser q' lg' s') ∧
      queue_rep Size q' (match decode m with Some o => enqueue l o | None => l end))
    as (q' & Hpush & Hq').
  { destruct (decode m) as [o|]; [by apply push_order_rep|by exists q]. }
  mstep Hpush. exists (mkParser q' lg' s'). split; [done|].
  unfold parser_rep, s'. cbn [logger_ queue_ curr_seq_num]. rewrite length_app. simpl (length [_]).
  split_and!; [done|done|lia].
Qed.

Lemma parse_message fuel m rest p frames next l :
  whole_message m = true → Forall is_byte (m ++ rest) → parser_rep p frames next l →
  64 * Z.of_nat (S (length frames)) + 2 ≤ FILE_SIZE →
  ∃ p', parse_block Size tsc (S fuel) (m ++ rest) p = parse_block Size tsc fuel rest p' ∧
        parser_rep p' (frames ++ [frame_bytes tsc (Z.of_nat (length frames)) (log_type m) m])
          (overrun m) (match decode m with Some o => enqueue l o | None => l end).
Proof.
  intros Hm Hb Hp Hroom. destruct (parse_step_rep m rest p frames next l Hm Hb Hp Hroom) as (p' & E & Hp').
  exists p'. split; [|done]. rewrite parse_block_steps. by mstep E.
Qed.

Lemma parse_step_end rest p : incomplete rest = true → parse_step Size tsc rest p = (Ok None, p).
Proof.
  destruct rest as [|c rest]; [done|]. unfold incomplete. cbn [parse_step].
  destruct (message_length c) as [n|]; [|done]. intros H. cbn [of_option]. rewrite bind_mret.
  by rewrite H.
Qed.

Lemma parse_end fuel rest p : incomplete rest = true →
  parse_block Size tsc (S fuel) rest p = (Ok tt, p).
Proof. intros H. rewrite parse_block_steps. by mstep (parse_step_end rest p H). Qed.

Definition enqueue_all (l os : list NormalizedOrder) : list NormalizedOrder :=
  fold_left enqueue os l.

(** The whole block. *)
Lemma parse_block_rep ms rest fuel p frames next l :
  Forall (λ m, whole_message m = true) ms → incomplete rest = true →
  Forall is_byte (concat ms ++ rest) → (length ms < fuel)%nat → parser_rep p frames next l →
  64 * Z.of_nat (length frames + length ms) + 2 ≤ FILE_SIZE →
  ∃ p', parse_block Size tsc fuel (concat ms ++ rest) p = (Ok tt, p') ∧
        parser_rep p' (frames ++ message_frames (length frames) ms)
          (fold_left (λ _ m, overrun m) ms next) (enqueue_all l (omap decode ms)).
Proof.
  intros Hms Hrest. revert fuel p frames next l.
  induction Hms as [|m ms Hm _ IH]; intros fuel p frames next l Hb Hfuel Hp Hroom.
  - destruct fuel as [|fuel]; [simpl in Hfuel; lia|]. exists p.
    rewrite parse_end by done. simpl. by rewrite app_nil_r.
  - destruct fuel as [|fuel]; [simpl in Hfuel; lia|]. cbn [concat length] in *.
    rewrite <- app_assoc in *.
    destruct (parse_message fuel m (concat ms ++ rest) p frames next l Hm Hb Hp) as (p1 & Hrun & Hp1);
      [lia|].
    destruct (IH fuel p1 _ _ _ (proj2 (proj1 (Forall_app _ _ _) Hb)) ltac:(lia) Hp1)
      as (p2 & Hrun2 & Hp2); [rewrite length_app; simpl; lia|].
    exists p2. split; [by rewrite Hrun, Hrun2|].
    rewrite length_app, Nat.add_1_r, <- app_assoc in Hp2.
    cbn [message_frames fold_left omap list_omap]. unfold enqueue_all in *.
    destruct (decode m); exact Hp2.
Qed.
End Block.

(** * Encoding *)

Definition be_bytes (n : nat) (z : Z) : list Z := rev (le_bytes n z).

(** The ITCH messages (sections 1.3.1, 1.4.1 and 1.4.3). *)
Definition encode (o : NormalizedOrder) : list Z :=
  match o with
  | NAdd o =>
      [char_A] ++ be_bytes 2 (ao_stock_locate o) ++ be_bytes 2 (ao_tracking_number o) ++
      be_bytes 6 (ao_timestamp o) ++ be_bytes 8 (ao_order_reference_number o) ++
      [ao_indicator o] ++ be_bytes 4 (ao_shares o) ++ ao_stock o ++ be_bytes 4 (ao_price o)
  | NExecute o =>
      [char_E] ++ be_bytes 2 (eo_stock_locate o) ++ be_bytes 2 (eo_tracking_number o) ++
      be_bytes 6 (eo_timestamp o) ++ be_bytes 8 (eo_order_reference_number o) ++
      be_bytes 4 (eo_shares o) ++ be_bytes 8 (eo_match_number o)
  | NCancel o =>
      [char_X] ++ be_bytes 2 (co_stock_locate o) ++ be_bytes 2 (co_tracking_number o) ++
      be_bytes 6 (co_timestamp o) ++ be_bytes 8 (co_order_reference_number o) ++
      be_bytes 4 (co_shares o)
  end.

(** The fields fit the message. *)
Definition valid_order (o : NormalizedOrder) : Prop :=
  match o with
  | NAdd o =>
      in_range 16 (ao_stock_locate o) ∧ in_range 16 (ao_tracking_number o) ∧
      in_range 48 (ao_timestamp o) ∧ in_range 64 (ao_order_reference_number o) ∧
      is_byte (ao_indicator o) ∧ in_range 32 (ao_shares o) ∧
      length (ao_stock o) = 8%nat ∧ Forall is_byte (ao_stock o) ∧ in_range 32 (ao_price o)
  | NExecute o =>
      in_range 16 (eo_stock_locate o) ∧ in_range 16 (eo_tracking_number o) ∧
      in_range 48 (eo_timestamp o) ∧ in_range 64 (eo_order_reference_number o) ∧
      in_range 32 (eo_shares o) ∧ in_range 64 (eo_match_number o)
  | NCancel o =>
      in_range 16 (co_stock_locate o) ∧ in_range 16 (co_tracking_number o) ∧
      in_range 48 (co_timestamp o) ∧ in_range 64 (co_order_reference_number o) ∧
      in_range 32 (co_shares o)
  end.

(** What the parser keeps: the locate and tracking codes of an add order are
    dropped. *)
Definition parsed (o : NormalizedOrder) : NormalizedOrder :=
  match o with
  | NAdd o => NAdd (mkAddOrder (ao_timestamp o) (ao_order_reference_number o) (ao_shares o)
                      (ao_price o) 0 0 (ao_stock o) (ao_indicator o))
  | _ => o
  end.

(** The parse function of the message's type. *)
Definition parse_order (m : list Z) : option NormalizedOrder :=
  header ← extract_header m;
  match m with
  | c :: _ =>
      if c =? char_A then parse_add_order m header
      else if c =? char_E then parse_executed_order m header
      else if c =? char_X then parse_cancel_order m header
      else None
  | [] => None
  end.

Lemma length_be_bytes n z : length (be_bytes n z) = n.
Proof. unfold be_bytes. by rewrite length_rev, length_le_bytes. Qed.

Lemma be_bytes_bytes n z : Forall is_byte (be_bytes n z).
Proof. apply Forall_rev, le_bytes_bytes. Qed.

Lemma be_at_field pre n z post : 0 ≤ z < 256 ^ Z.of_nat n →
  be_at (pre ++ be_bytes n z ++ post) (length pre) n = z.
Proof.
  intros Hz. unfold be_at. rewrite drop_app_length, take_app_le by (rewrite length_be_bytes; lia).
  rewrite take_ge by (rewrite length_be_bytes; lia). rewrite be_Z_le. unfold be_bytes.
  by rewrite rev_involutive, le_Z_le_bytes, Z.mod_small.
Qed.

(** The header fields of a message. *)
Lemma decode_header_encode c sl tn ts rn post : in_range 16 sl → in_range 16 tn →
  in_range 48 ts → in_range 64 rn →
  decode_header ([c] ++ be_bytes 2 sl ++ be_bytes 2 tn ++ be_bytes 6 ts ++ be_bytes 8 rn ++ post) =
  mkHeader ts rn sl tn.
Proof.
  intros H1 H2 H3 H4. unfold decode_header. f_equal.
  - exact (be_at_field ([c] ++ be_bytes 2 sl ++ be_bytes 2 tn) 6 ts (be_bytes 8 rn ++ post) H3).
  - exact (be_at_field ([c] ++ be_bytes 2 sl ++ be_bytes 2 tn ++ be_bytes 6 ts) 8 rn post H4).
  - exact (be_at_field [c] 2 sl (be_bytes 2 tn ++ be_bytes 6 ts ++ be_bytes 8 rn ++ post) H1).
  - exact (be_at_field ([c] ++ be_bytes 2 sl) 2 tn (be_bytes 6 ts ++ be_bytes 8 rn ++ post) H2).
Qed.

Lemma encode_bytes o : valid_order o → Forall is_byte (encode o).
Proof.
  destruct o; cbn [valid_order encode]; intros Hv; destruct_and!;
    repeat first [ apply be_bytes_bytes | assumption
                 | match goal with |- Forall _ (_ ++ _) => apply Forall_app_2 end ];
    apply Forall_singleton; (assumption || by vm_compute).
Qed.

Lemma length_encode o : valid_order o →
  length (encode o) = match o with NAdd _ => 36 | NExecute _ => 31 | NCancel _ => 23 end%nat.
Proof.
  destruct o; cbn [valid_order encode]; intros Hv; rewrite !length_app, !length_be_bytes; simpl;
    [|lia|lia]. destruct_and!. lia.
Qed.

Lemma decode_encode_add o : valid_order (NAdd o) →
  decode (encode (NAdd o)) = Some (parsed (NAdd o)).
Proof.
  destruct o as [ts rn sh pr sl tn st ind]; simpl; intros Hv; destruct_and!.
  change (encode _) with ([char_A] ++ be_bytes 2 sl ++ be_bytes 2 tn ++ be_bytes 6 ts ++
    be_bytes 8 rn ++ [ind] ++ be_bytes 4 sh ++ st ++ be_bytes 4 pr).
  set (pre := [char_A] ++ be_bytes 2 sl ++ be_bytes 2 tn ++ be_bytes 6 ts ++ be_bytes 8 rn).
  pose proof (decode_header_encode char_A sl tn ts rn ([ind] ++ be_bytes 4 sh ++ st ++ be_bytes 4 pr))
    as Hh. unfold decode_header in Hh. specialize (Hh ltac:(done) ltac:(done) ltac:(done) ltac:(done)).
  injection Hh as Ht Hr _ _.
  set (m := [char_A] ++ be_bytes 2 sl ++ be_bytes 2 tn ++ be_bytes 6 ts ++
    be_bytes 8 rn ++ [ind] ++ be_bytes 4 sh ++ st ++ be_bytes 4 pr) in *.
  assert (m = pre ++ [ind] ++ be_bytes 4 sh ++ st ++ be_bytes 4 pr) as Em by done.
  change (decode m) with (Some (decode_add m)). f_equal. unfold decode_add. do 2 f_equal.
  + exact Ht.
  + exact Hr.
  + exact (be_at_field (pre ++ [ind]) 4 sh (st ++ be_bytes 4 pr) ltac:(done)).
  + pose proof (be_at_field (pre ++ [ind] ++ be_bytes 4 sh ++ st) 4 pr [] ltac:(done)) as Hp.
    assert (length (pre ++ [ind] ++ be_bytes 4 sh ++ st) = 32%nat) as Hl
      by (unfold pre; rewrite !length_app, !length_be_bytes; simpl; lia).
    rewrite Hl, app_nil_r, <- !app_assoc in Hp. exact Hp.
  + exact (eq_trans (f_equal (take 8) (drop_app_length (pre ++ [ind] ++ be_bytes 4 sh) _))
             (take_app_length' st _ 8 ltac:(done))).
Qed.

Lemma decode_encode_executed o : valid_order (NExecute o) →
  decode (encode (NExecute o)) = Some (parsed (NExecute o)).
Proof.
  destruct o as [ts rn mn sh sl tn]; simpl; intros Hv; destruct_and!.
  change (encode _) with ([char_E] ++ be_bytes 2 sl ++ be_bytes 2 tn ++ be_bytes 6 ts ++
    be_bytes 8 rn ++ be_bytes 4 sh ++ be_bytes 8 mn).
  pose proof (decode_header_encode char_E sl tn ts rn (be_bytes 4 sh ++ be_bytes 8 mn)) as Hh.
  specialize (Hh ltac:(done) ltac:(done) ltac:(done) ltac:(done)).
  unfold decode_header in Hh. injection Hh as Ht Hr Hs Hn.
  set (pre := [char_E] ++ be_bytes 2 sl ++ be_bytes 2 tn ++ be_bytes 6 ts ++ be_bytes 8 rn).
  change (decode _) with (Some (decode_executed (pre ++ be_bytes 4 sh ++ be_bytes 8 mn))).
  unfold decode_executed. do 3 f_equal; [exact Ht|exact Hr| | |exact Hs|exact Hn].
  + exact (be_at_field (pre ++ be_bytes 4 sh) 8 mn [] ltac:(done)).
  + exact (be_at_field pre 4 sh (be_bytes 8 mn) ltac:(done)).
Qed.

Lemma decode_encode_cancel o : valid_order (NCancel o) →
  decode (encode (NCancel o)) = Some (parsed (NCancel o)).
Proof.
  destruct o as [ts rn sh sl tn]; simpl; intros Hv; destruct_and!.
  change (encode _) with ([char_X] ++ be_bytes 2 sl ++ be_bytes 2 tn ++ be_bytes 6 ts ++
    be_bytes 8 rn ++ be_bytes 4 sh).
  pose proof (decode_header_encode char_X sl tn ts rn (be_bytes 4 sh)) as Hh.
  specialize (Hh ltac:(done) ltac:(done) ltac:(done) ltac:(done)).
  unfold decode_header in Hh. injection Hh as Ht Hr Hs Hn.
  set (pre := [char_X] ++ be_bytes 2 sl ++ be_bytes 2 tn ++ be_bytes 6 ts ++ be_bytes 8 rn).
  change (decode _) with (Some (decode_cancel (pre ++ be_bytes 4 sh))).
  unfold decode_cancel. do 3 f_equal; [exact Ht|exact Hr| |exact Hs|exact Hn].
  exact (be_at_field pre 4 sh [] ltac:(done)).
Qed.

Lemma decode_encode o : valid_order o → decode (encode o) = Some (parsed o).
Proof.
  destruct o; [apply decode_encode_add|apply decode_encode_executed|apply decode_encode_cancel].
Qed.

Lemma parse_order_decode m : Forall is_byte m → whole_message m = true →
  is_Some (decode m) → parse_order m = decode m.
Proof.
  intros Hb Hw Hd. destruct m as [|c m]; [done|]. unfold whole_message in Hw.
  apply bool_decide_eq_true in Hw. unfold parse_order, decode in *.
  destruct (Z.eqb_spec c char_A) as [->|HA]; [|destruct (Z.eqb_spec c char_E) as [->|HE];
    [|destruct (Z.eqb_spec c char_X) as [->|HX]; [|by destruct Hd]]];
    injection Hw as Hw; rewrite extract_header_decode by (done || simpl; lia); cbn [mbind option_bind].
  - apply parse_add_order_decode; [done|simpl; lia].
  - apply parse_executed_order_decode; [done|simpl; lia].
  - apply parse_cancel_order_decode; [done|simpl; lia].
Qed.

Lemma encode_whole o : valid_order o → whole_message (encode o) = true.
Proof.
  intros Hv. pose proof (length_encode o Hv) as Hl.
  assert (∃ l, encode o = (match o with NAdd _ => char_A | NExecute _ => char_E | NCancel _ => char_X end) :: l)
    as [l El] by (destruct o; by eexists).
  unfold whole_message. rewrite El in *. apply bool_decide_eq_true. rewrite Hl. by destruct o.
Qed.

(** * The theorems *)

(** C32 Round trip: for every add, execute or cancel order whose fields fit
    the wire format, extracting the header and parsing the encoded message
    gives the order back (of an add order, everything but the locate and
    tracking codes, which the parser leaves zero). *)
Theorem parse_encode_roundtrip o :
  valid_order o → parse_order (encode o) = Some (parsed o).
Proof.
  intros Hv. rewrite <- decode_encode by done.
  apply parse_order_decode; [by apply encode_bytes|by apply encode_whole|].
  rewrite decode_encode by done. eauto.
Qed.

Lemma parse_encode_roundtrip_witness :
  let o := NExecute (mkOrderExecuted 34200000000000 77 9 250 13 2) in
  parse_order (encode o) = Some (parsed o).
Proof. intros o. apply (parse_encode_roundtrip o). repeat split; by vm_compute. Defined.

Lemma length_concat_whole ms : Forall (λ m, whole_message m = true) ms →
  (length ms ≤ length (concat ms))%nat.
Proof.
  induction 1 as [|m ms Hm _ IH]; simpl; [lia|]. rewrite length_app.
  destruct m; [done|]. simpl. lia.
Qed.

(** C16 Parsing a block: on a block made of whole messages followed by nothing
    or an incomplete message, and with room in the log for their frames and two
    bytes more, [parse_block] returns (fuel: one unit for each byte and one
    more), has appended to the log exactly one frame for each message, numbered
    in order, with its type, its bytes and its CRC, and has pushed the decoded
    add, execute and cancel orders in order, those dropped that found the queue
    full; the incomplete message is left. *)
Theorem parse_block_logs_and_pushes e tsc ms rest p frames next l :
  Forall (λ m, whole_message m = true) ms → incomplete rest = true →
  Forall is_byte (concat ms ++ rest) → parser_rep e p frames next l →
  64 * Z.of_nat (length frames + length ms) + 2 ≤ FILE_SIZE →
  ∃ p', parse_block (2 ^ e) tsc (S (length (concat ms ++ rest))) (concat ms ++ rest) p = (Ok tt, p') ∧
        parser_rep e p' (frames ++ message_frames tsc (length frames) ms)
          (fold_left (λ _ m, overrun m) ms next) (enqueue_all e l (omap decode ms)).
Proof.
  intros Hms Hrest Hb Hp Hroom. apply (parse_block_rep e tsc ms rest); try done.
  rewrite length_app. pose proof (length_concat_whole ms Hms). lia.
Qed.

Lemma new_parser_rep e q lg : 0 ≤ e ≤ 63 → MmapLogger_new true true true true = Ok lg →
  parser_rep e (ItchParser_new (SPSCQueue_new (2 ^ e) q) lg) [] 0 [].
Proof.
  intros He Hl. unfold parser_rep. simpl. split_and!; [by apply log_rep_new| |done].
  by apply (SPSCQueue_new_rep _ e).
Qed.

(** A small block: an execution, a cancellation, an imbalance message and the
    beginning of an add order. *)
Definition sample_messages : list (list Z) :=
  [encode (NExecute (mkOrderExecuted 5 77 9 250 13 2));
   encode (NCancel (mkCancelOrder 6 78 10 13 3));
   73 :: replicate 49 1].

Lemma parse_block_logs_and_pushes_witness :
  let p := ItchParser_new (SPSCQueue_new (2 ^ 2) (NCancel (mkCancelOrder 0 0 0 0 0)))
             (mkLogger (Some (anew FILE_SIZE 0)) 0) in
  let payload := concat sample_messages ++ [65; 0] in
  ∃ p', parse_block (2 ^ 2) (λ n, 1000 + n) (S (length payload)) payload p = (Ok tt, p').
Proof.
  intros p payload.
  destruct (parse_block_logs_and_pushes 2 (λ n, 1000 + n) sample_messages [65; 0] p [] 0 [])
    as (p' & Hrun & _); [| | | | |by exists p'].
  - repeat constructor; by vm_compute.
  - by vm_compute.
  - apply (bool_decide_unpack _). by vm_compute.
  - apply new_parser_rep; [lia|reflexivity].
  - by vm_compute.
Defined.

Lemma enqueue_all_take e l os : 0 ≤ e →
  Z.of_nat (length l) ≤ 2 ^ e - 1 →
  enqueue_all e l os = take (Z.to_nat (2 ^ e - 1)) (l ++ os).
Proof.
  intros He. revert l. induction os as [|o os IH]; intros l Hl; unfold enqueue_all in *; simpl.
  - rewrite app_nil_r, take_ge by lia. done.
  - unfold enqueue at 2. zcase as E.
    + rewrite IH by (rewrite length_app; simpl; lia). by rewrite <- app_assoc.
    + rewrite IH by lia. rewrite !take_app_le, !take_ge by lia. done.
Qed.

(** Dropped orders: [parse_block] ignores the result of [push].  When a
    block carries more orders than the Size - 1 the queue can hold, it still
    returns normally and logs every message, but only the first Size - 1
    orders are in the queue; the others reach the log and never the book. *)
Theorem full_queue_drops_logged_orders e tsc ms d lg :
  0 ≤ e ≤ 63 → MmapLogger_new true true true true = Ok lg →
  Forall (λ m, whole_message m = true) ms → Forall is_byte (concat ms) →
  64 * Z.of_nat (length ms) + 2 ≤ FILE_SIZE →
  2 ^ e - 1 < Z.of_nat (length (omap decode ms)) →
  ∃ p', parse_block (2 ^ e) tsc (S (length (concat ms))) (concat ms)
          (ItchParser_new (SPSCQueue_new (2 ^ e) d) lg) = (Ok tt, p') ∧
        log_rep (logger_ p') (message_frames tsc 0 ms) (fold_left (λ _ m, overrun m) ms 0) ∧
        queue_rep (2 ^ e) (queue_ p') (take (Z.to_nat (2 ^ e - 1)) (omap decode ms)).
Proof.
  intros He Hlg Hms Hb Hroom Hmany.
  assert (0 < 2 ^ e) by (apply Z.pow_pos_nonneg; lia).
  destruct (parse_block_rep e tsc ms [] (S (length (concat ms)))
    (ItchParser_new (SPSCQueue_new (2 ^ e) d) lg) [] 0 [] Hms eq_refl)
    as (p' & Hrun & Hlog & Hq & _); rewrite ?app_nil_r in *; try done.
  - pose proof (length_concat_whole ms Hms). lia.
  - by apply (new_parser_rep e d lg).
  - exists p'. rewrite enqueue_all_take in Hq by (simpl; lia). done.
Qed.

Lemma full_queue_drops_logged_orders_witness :
  let ms := replicate 4 (encode (NCancel (mkCancelOrder 6 78 10 13 3))) in
  ∃ p', parse_block (2 ^ 1) (λ n, n) (S (length (concat ms))) (concat ms)
          (ItchParser_new (SPSCQueue_new (2 ^ 1) (NCancel (mkCancelOrder 0 0 0 0 0)))
             (mkLogger (Some (anew FILE_SIZE 0)) 0)) = (Ok tt, p') ∧
        queue_rep (2 ^ 1) (queue_ p') [NCancel (mkCancelOrder 6 78 10 13 3)].
Proof.
  intros ms.
  destruct (full_queue_drops_logged_orders 1 (λ n, n) ms (NCancel (mkCancelOrder 0 0 0 0 0))
    (mkLogger (Some (anew FILE_SIZE 0)) 0)) as (p' & Hrun & _ & Hq);
    [lia|reflexivity| | |by vm_compute|by vm_compute|].
  - repeat constructor; by vm_compute.
  - apply (bool_decide_unpack _). by vm_compute.
  - exists p'. split; [exact Hrun|].
    assert (take (Z.to_nat (2 ^ 1 - 1)) (omap decode ms) = [NCancel (mkCancelOrder 6 78 10 13 3)])
      as E by (by vm_compute). rewrite E in Hq. exact Hq.
Defined.

(** A logger with its mapping. *)
Definition live_log (l : MmapLogger) : Prop :=
  ∃ a, start_ l = Some a ∧ alen a = FILE_SIZE ∧ 0 ≤ curr_ l.

Lemma log_payload_live tsc payload n ty p : live_log (logger_ p) → (n ≤ 44)%nat →
  (n ≤ length payload)%nat →
  ∃ p', log_payload tsc payload n ty p = (Ok tt, p') ∧ live_log (logger_ p').
Proof.
  intros (a & Ha & Hlen & Hc) Hn Hp. destruct p as [q [sa c] s]. cbn [logger_ start_ curr_] in *. subst sa.
  destruct (Z.lt_ge_cases FILE_SIZE (c + 64)) as [H|H].
  - eexists. split; [by apply log_payload_full|]. by exists a.
  - pose proof (bytes_at_in payload 0 n ltac:(lia)) as Hb.
    destruct (log_payload_run tsc payload n ty _ q a c s Hlen Hc H Hb) as (a1 & a2 & block & crc & Hw1 & _ & _ & Hw2 & Hrun).
    { rewrite length_take. lia. }
    eexists. split; [exact Hrun|]. exists a2. cbn [logger_ start_ curr_].
    rewrite (write_bytes_len _ _ _ _ Hw2), (write_bytes_len _ _ _ _ Hw1). split_and!; (done || lia).
Qed.

(** A type byte whose message has no length is never passed. *)
Lemma zero_length_diverges Size tsc c rest p : message_length c = Some 0 → live_log (logger_ p) →
  ∀ fuel, (parse_block Size tsc fuel (c :: rest) p).1 = OutOfFuel.
Proof.
  intros Hc Hlive fuel. revert p Hlive. induction fuel as [|fuel IH]; intros p Hlive; [done|].
  cbn [parse_block]. rewrite Hc. cbn [of_option]. rewrite bind_mret.
  rewrite (proj2 (Z.ltb_ge _ 0)) by lia.
  assert (c ≠ char_A ∧ c ≠ char_E ∧ c ≠ char_X) as (HA & HE & HX)
    by (split_and!; intros ->; by vm_compute in Hc).
  rewrite (proj2 (Z.eqb_neq _ _) HA), (proj2 (Z.eqb_neq _ _) HE), (proj2 (Z.eqb_neq _ _) HX).
  destruct (log_payload_live tsc (c :: rest) 0 char_minus p Hlive) as (p' & Hrun & Hlive'); [lia|simpl; lia|].
  simpl (Z.to_nat 0). mstep Hrun. by apply IH.
Qed.

(** C40 Non-termination: a message type whose table entry is 0 (every byte
    below 128 that is not an ITCH type) is never consumed.  Whatever the
    fuel, [parse_block] does not return: it logs empty frames until the log
    is full and then spins. *)
Theorem unknown_type_diverges e tsc c rest p :
  message_length c = Some 0 → live_log (logger_ p) →
  ∀ fuel, (parse_block (2 ^ e) tsc fuel (c :: rest) p).1 = OutOfFuel.
Proof. apply zero_length_diverges. Qed.

Lemma unknown_type_diverges_witness :
  (parse_block (2 ^ 1) (λ n, n) 1000 [0; 65]
     (ItchParser_new (SPSCQueue_new (2 ^ 1) (NCancel (mkCancelOrder 0 0 0 0 0)))
        (mkLogger (Some (anew FILE_SIZE 0)) 0))).1 = OutOfFuel.
Proof.
  apply (unknown_type_diverges 1 (λ n, n) 0 [65]); [reflexivity|].
  exists (anew FILE_SIZE 0). split_and!; by vm_compute.
Defined.

(** Undefined behaviour: [message_type] is a signed [char], so a first
    byte of 128 to 255 gives a negative index into the length table. *)
Theorem high_type_byte_is_ub e tsc c rest p fuel :
  128 ≤ c < 256 → parse_block (2 ^ e) tsc (S fuel) (c :: rest) p = (UB, p).
Proof.
  intros Hc. cbn [parse_block]. unfold message_length, char_index.
  rewrite (proj2 (Z.ltb_ge c 128)), (proj2 (Z.ltb_lt (c - 256) 0)) by lia. done.
Qed.

Lemma high_type_byte_is_ub_witness :
  let p := ItchParser_new (SPSCQueue_new (2 ^ 1) (NCancel (mkCancelOrder 0 0 0 0 0)))
             (mkLogger (Some (anew FILE_SIZE 0)) 0) in
  parse_block (2 ^ 1) (λ n, n) 5 [200] p = (UB, p).
Proof. intros p. apply (high_type_byte_is_ub 1 (λ n, n) 200 [] p 4). lia. Defined.

(** A full log: [reserve_frame] returns null and [log_payload] gives up,
    but the parser goes on: an order that arrives when no frame is left is
    still pushed to the queue while the log stays as it is, with no error. *)
Theorem full_log_is_silent e tsc m rest fuel p l o :
  whole_message m = true → Forall is_byte (m ++ rest) → decode m = Some o →
  FILE_SIZE < curr_ (logger_ p) + 64 → queue_rep (2 ^ e) (queue_ p) l →
  ∃ q', parse_block (2 ^ e) tsc (S fuel) (m ++ rest) p =
          parse_block (2 ^ e) tsc fuel rest (mkParser q' (logger_ p) (curr_seq_num p)) ∧
        queue_rep (2 ^ e) q' (enqueue e l o).
Proof.
  intros Hm Hb Ho Hfull Hq. rewrite parse_iteration by done.
  mstep (log_payload_full tsc (m ++ rest) (length m) (log_type m) p Hfull). rewrite Ho.
  destruct p as [q lg s]. destruct (push_order_rep e q lg s l o Hq) as (q' & Hpush & Hq').
  exists q'. split; [by mstep Hpush|done].
Qed.

Lemma full_log_is_silent_witness :
  let m := encode (NCancel (mkCancelOrder 6 78 10 13 3)) in
  let p := ItchParser_new (SPSCQueue_new (2 ^ 2) (NCancel (mkCancelOrder 0 0 0 0 0)))
             (mkLogger (Some (anew FILE_SIZE 0)) FILE_SIZE) in
  ∃ q', parse_block (2 ^ 2) (λ n, n) 2 (m ++ []) p =
          parse_block (2 ^ 2) (λ n, n) 1 [] (mkParser q' (logger_ p) 0) ∧
        queue_rep (2 ^ 2) q' (enqueue 2 [] (NCancel (mkCancelOrder 6 78 10 13 3))).
Proof.
  intros m p.
  apply (full_log_is_silent 2 (λ n, n) m [] 1 p []);
    [by vm_compute|apply (bool_decide_unpack _); by vm_compute|by vm_compute|by vm_compute|].
  by apply (SPSCQueue_new_rep _ 2).
Defined.
