(* ===== verification/RecoveryEngine.v ===== *)
(** [recovery::RecoveryEngine] (src/src/recovery/RecoveryEngine.h and .cpp).

    [run_recovery] maps a log file and replays its frames into a book until
    the first frame without the valid marker or with a wrong checksum.  The
    mapped file is a byte array whose length is the file size rounded up to
    whole pages, zero past the end of the file; a read outside it is UB.  The
    loop takes fuel, one unit for each frame and one more. *)

From S2P Require Import Prelude Interfaces HierarchicalBitset StaticOrderMap SPSCQueue ItchOrderTypes LimitOrderBook MockOrderBook BookTheorems Crc32 MmapLogger ItchParser ParserTheorems.

Record RecoveryReport : Type := mkReport {
  records_processed : Z;
  last_valid_seq : Z;
  torn_write_detected : bool
}.

Record RecoveryEngine : Type := mkEngine {
  order_book_ : Book;
  report_ : RecoveryReport
}.

Definition RecoveryEngine_new (order_book : Book) : RecoveryEngine :=
  mkEngine order_book (mkReport 0 0 false).

Definition get_recovery_report (en : RecoveryEngine) : RecoveryReport := report_ en.

Definition set_book (b : Book) (en : RecoveryEngine) : RecoveryEngine := mkEngine b (report_ en).
Definition on_book {A} (m : M Book A) : M RecoveryEngine A := zoom order_book_ set_book m.

Definition set_torn (en : RecoveryEngine) : RecoveryEngine :=
  mkEngine (order_book_ en)
    (mkReport (records_processed (report_ en)) (last_valid_seq (report_ en)) true).
Definition count_record (seq : Z) (en : RecoveryEngine) : RecoveryEngine :=
  mkEngine (order_book_ en)
    (mkReport (u64 (records_processed (report_ en) + 1)) seq (torn_write_detected (report_ en))).

(** [order.add_order], [order.execute_order], [order.cancel_order]: reading
    the member of the union that is not active is UB. *)
Definition as_add (o : NormalizedOrder) : option NormalizedAddOrder :=
  match o with NAdd o => Some o | _ => None end.
Definition as_execute (o : NormalizedOrder) : option NormalizedOrderExecuted :=
  match o with NExecute o => Some o | _ => None end.
Definition as_cancel (o : NormalizedOrder) : option NormalizedCancelOrder :=
  match o with NCancel o => Some o | _ => None end.

(** The switch on the message type. *)
Definition process_frame (msg_type : Z) (payload : list Z) : M RecoveryEngine unit :=
  header ← of_option (extract_header payload);
  if msg_type =? char_A then
    order ← of_option (parse_add_order payload header);
    o ← of_option (as_add order); on_book (add_order o)
  else if msg_type =? char_E then
    order ← of_option (parse_executed_order payload header);
    o ← of_option (as_execute order); on_book (execute_order o)
  else if msg_type =? char_X then
    order ← of_option (parse_cancel_order payload header);
    o ← of_option (as_cancel order); on_book (cancel_order (co_order_reference_number o))
  else mret tt.

(** The loop from the frame at offset [curr]. *)
Fixpoint recover_loop (fuel : nat) (mem : array Z) (curr : Z) : M RecoveryEngine unit :=
  match fuel with
  | O => out_of_fuel
  | S fuel' =>
      marker ← of_option (mem.[curr + off_marker]);
      if marker =? VALID_FRAME_MARKER then
        block ← of_option (read_bytes mem curr 60);
        calculated_checksum ← of_option (calculate_crc32 block);
        checksum ← of_option (read_bytes mem (curr + off_checksum) 4);
        if calculated_checksum =? le_Z checksum then
          payload ← of_option (read_bytes mem (curr + off_payload) sizeof_payload);
          msg_type ← of_option (mem.[curr + off_msg_type]);
          process_frame msg_type payload;;
          seq_num ← of_option (read_bytes mem (curr + off_seq_num) 4);
          modify (count_record (le_Z seq_num));;
          recover_loop fuel' mem (curr + sizeof_WalFrame)
        else modify set_torn
      else mret tt
  end.

(** The mapping of a file: whole pages, zero past the end of the file. *)
Definition map_file (page_size : Z) (file : array Z) : array Z :=
  mkArray ((alen file + page_size - 1) / page_size * page_size) (adef file) (acells file).

(** [file] is the content of the file when it can be opened; [mmap_ok] and
    [madvise_ok] are the results of the calls. *)
Definition run_recovery (fuel : nat) (page_size : Z) (file : option (array Z))
    (mmap_ok madvise_ok : bool) : M RecoveryEngine unit :=
  match file with
  | None => throw (runtime_error "RecoveryEngine::run_recovery: unable to open file for recovery.")
  | Some f =>
      if negb mmap_ok then
        throw (runtime_error "RecoveryEngine::run_recovery: unable to mmap file for recovery.")
      else if negb madvise_ok then
        throw (runtime_error "RecoveryEngine::run_recovery: unable to use madvise.")
      else recover_loop fuel (map_file page_size f) 0
  end.

(** * Replaying orders *)

(** Orders one after the other; an exception ends the run. *)
Fixpoint apply_orders (os : list NormalizedOrder) : M Book unit :=
  match os with
  | [] => mret tt
  | o :: os' => dispatch o;; apply_orders os'
  end.

(** ** Frames *)

Lemma read_sub a off n l k j : read_bytes a off n = Some l → (k + j ≤ n)%nat →
  read_bytes a (off + Z.of_nat k) j = Some (take j (drop k l)).
Proof.
  intros H Hkj. apply read_bytes_Some in H as [Hl Hget]. apply read_bytes_Some.
  split; [rewrite length_take, length_drop; lia|]. intros i Hi.
  rewrite lookup_take, decide_True, lookup_drop, <- Hget by lia. f_equal. lia.
Qed.

Lemma read_at a off n l k x : read_bytes a off n = Some l → l !! k = Some x →
  a.[off + Z.of_nat k] = Some x.
Proof.
  intros H Hx. apply read_bytes_Some in H as [Hl Hget]. rewrite Hget; [done|].
  apply lookup_lt_Some in Hx. lia.
Qed.

(** The payload area of a frame. *)
Definition frame_payload (m : list Z) : list Z := take 44 (m ++ replicate 44 0).

Lemma on_book_run {A} (f : M Book A) b rep r b' : f b = (r, b') →
  on_book f (mkEngine b rep) = (r, mkEngine b' rep).
Proof. intros H. unfold on_book, zoom. simpl. by rewrite H. Qed.

Lemma frame_payload_prefix m : (length m ≤ 44)%nat →
  frame_payload m = m ++ replicate (44 - length m) 0.
Proof.
  intros H. unfold frame_payload. rewrite take_app, take_ge by lia. f_equal.
  rewrite take_replicate. f_equal. lia.
Qed.

Lemma length_frame_payload m : length (frame_payload m) = 44%nat.
Proof. unfold frame_payload. rewrite length_take, length_app, length_replicate. lia. Qed.

Lemma frame_payload_bytes m : Forall is_byte m → Forall is_byte (frame_payload m).
Proof.
  intros Hm. apply Forall_take, Forall_app_2; [done|]. apply Forall_replicate. unfold is_byte. lia.
Qed.

(** Processing the frame of a message applies the order it decodes to. *)
Lemma process_frame_run m b rep : whole_message m = true → Forall is_byte m →
  process_frame (log_type m) (frame_payload m) (mkEngine b rep) =
  match decode m with
  | Some o => on_book (dispatch o) (mkEngine b rep)
  | None => (Ok tt, mkEngine b rep)
  end.
Proof.
  intros Hw Hb. unfold process_frame. pose proof (length_frame_payload m) as Hl.
  rewrite extract_header_decode by (auto using frame_payload_bytes || lia).
  cbn [of_option]. rewrite bind_mret.
  destruct m as [|c m0]; [done|]. unfold whole_message in Hw. apply bool_decide_eq_true in Hw.
  assert (decode (c :: m0) = if c =? char_A then Some (decode_add (c :: m0)) else
    if c =? char_E then Some (decode_executed (c :: m0)) else
    if c =? char_X then Some (decode_cancel (c :: m0)) else None) as -> by done.
  assert (log_type (c :: m0) =
    if (c =? char_A) || (c =? char_E) || (c =? char_X) then c else char_minus) as -> by done.
  set (m := c :: m0) in *. clearbody m.
  pose proof (frame_payload_bytes m Hb) as Hfb.
  destruct (Z.eqb_spec c char_A) as [->|HA].
  { injection Hw as Hw. cbn [orb]. change (char_A =? char_A) with true. cbn iota.
    rewrite parse_add_order_decode by (done || lia).
    rewrite frame_payload_prefix, decode_add_app by lia. cbn [of_option]. by rewrite !bind_mret. }
  destruct (Z.eqb_spec c char_E) as [->|HE].
  { injection Hw as Hw. cbn [orb]. change (char_E =? char_A) with false.
    change (char_E =? char_E) with true. cbn iota.
    rewrite parse_executed_order_decode by (done || lia).
    rewrite frame_payload_prefix, decode_executed_app by lia. cbn [of_option]. by rewrite !bind_mret. }
  destruct (Z.eqb_spec c char_X) as [->|HX].
  { injection Hw as Hw. cbn [orb]. change (char_X =? char_A) with false.
    change (char_X =? char_E) with false. change (char_X =? char_X) with true. cbn iota.
    rewrite parse_cancel_order_decode by (done || lia).
    rewrite frame_payload_prefix, decode_cancel_app by lia. cbn [of_option]. by rewrite !bind_mret. }
  done.
Qed.

(** ** One frame of the log *)

Section Replay.
Context (tsc : Z → Z).

(** The pieces of a frame. *)
Lemma frame_pieces mem off seq m : Forall is_byte m → in_range 32 seq →
  read_bytes mem off 64 = Some (frame_bytes tsc seq (log_type m) m) → is_byte (log_type m) →
  mem.[off + off_marker] = Some VALID_FRAME_MARKER ∧
  mem.[off + off_msg_type] = Some (log_type m) ∧
  (∃ block, read_bytes mem off 60 = Some block ∧
     ∃ crc, calculate_crc32 block = Some crc ∧
            ∃ l, read_bytes mem (off + off_checksum) 4 = Some l ∧ le_Z l = crc) ∧
  read_bytes mem (off + off_payload) sizeof_payload = Some (frame_payload m) ∧
  ∃ l, read_bytes mem (off + off_seq_num) 4 = Some l ∧ le_Z l = seq.
Proof.
  intros Hm Hseq Hr Hty. set (hd := frame_head tsc seq (log_type m) m).
  assert (length hd = 60%nat) as Hhd by apply length_frame_head.
  assert (Forall is_byte hd) as Hfb by (by apply frame_head_bytes).
  assert (frame_bytes tsc seq (log_type m) m = hd ++ le_bytes 4 (crc32c hd)) as Ef by done.
  split_and!.
  - by apply (read_at _ _ _ _ 0 _ Hr).
  - apply (read_at _ _ _ _ 1 _ Hr). cbn. by rewrite Z.mod_small.
  - exists hd. split.
    { pose proof (read_sub _ _ _ _ 0 60 Hr ltac:(lia)) as H. rewrite Z.add_0_r in H.
      by rewrite H, Ef, drop_0, <- Hhd, take_app_length. }
    exists (crc32c hd).
    rewrite calculate_crc32_spec, take_ge by (done || lia).
    split; [done|]. exists (le_bytes 4 (crc32c hd)). split.
    { pose proof (read_sub _ _ _ _ 60 4 Hr ltac:(lia)) as H.
      by rewrite Ef, <- Hhd, drop_app_length, Hhd in H. }
    rewrite le_Z_le_bytes. apply Z.mod_small. by apply crc_bytes_range.
  - pose proof (read_sub _ _ _ _ 16 44 Hr ltac:(lia)) as H.
    change (drop 16 (frame_bytes tsc seq (log_type m) m))
      with (frame_payload m ++ le_bytes 4 (crc32c hd)) in H.
    by rewrite take_app_length' in H by (by rewrite length_frame_payload).
  - exists (le_bytes 4 seq). split; [exact (read_sub _ _ _ _ 4 4 Hr ltac:(lia))|].
    rewrite le_Z_le_bytes. by apply Z.mod_small.
Qed.

Lemma log_type_byte m : Forall is_byte m → is_byte (log_type m).
Proof.
  intros Hm. unfold log_type. destruct m as [|c m]; [by vm_compute|].
  inversion Hm; subst. by destruct (_ || _).
Qed.

(** The loop on a log from its [n]-th frame. *)
Lemma recover_frame fuel mem off seq m b rep :
  whole_message m = true → Forall is_byte m → in_range 32 seq →
  read_bytes mem off 64 = Some (frame_bytes tsc seq (log_type m) m) →
  recover_loop (S fuel) mem off (mkEngine b rep) =
  ((match decode m with Some o => on_book (dispatch o) | None => mret tt end);;
   modify (count_record seq);; recover_loop fuel mem (off + 64)) (mkEngine b rep).
Proof.
  intros Hw Hm Hseq Hr.
  destruct (frame_pieces mem off seq m Hm Hseq Hr (log_type_byte m Hm))
    as (H1 & H2 & (block & H3 & crc & H4 & l & H5 & H6) & H7 & l' & H8 & H9).
  cbn [recover_loop]. rewrite H1. cbn [of_option]. rewrite bind_mret.
  change (VALID_FRAME_MARKER =? VALID_FRAME_MARKER) with true. cbn iota.
  rewrite H3. cbn [of_option]. rewrite bind_mret, H4. cbn [of_option].
  rewrite bind_mret, H5. cbn [of_option]. rewrite bind_mret, H6, Z.eqb_refl, H7.
  cbn [of_option]. rewrite bind_mret, H2. cbn [of_option]. rewrite bind_mret.
  rewrite H8. cbn [of_option].
  unfold mbind at 1, M_bind at 1. rewrite process_frame_run by done.
  unfold mbind at 2, M_bind at 2.
  destruct (decode m) as [o|]; rewrite <- H9; done.
Qed.

(** The report after the frames up to [n] (with [lv] before any frame). *)
Definition report_at (n : nat) (lv : Z) : RecoveryReport :=
  mkReport (Z.of_nat n) (match n with O => lv | S n' => Z.of_nat n' end) false.

Lemma count_record_at k b : Z.of_nat k < 2 ^ 24 →
  count_record (Z.of_nat k) (mkEngine b (report_at k 0)) = mkEngine b (report_at (S k) 0).
Proof.
  intros Hk. unfold count_record, report_at. cbn [order_book_ report_ records_processed
    torn_write_detected]. do 2 f_equal. unfold u64, uwrap. rewrite Z.mod_small; lia.
Qed.

(** The frames of [ms] from the [k]-th frame of the memory on. *)
Definition holds_frames (mem : array Z) (k : nat) (frames : list (list Z)) : Prop :=
  ∀ i f, frames !! i = Some f → read_bytes mem (64 * Z.of_nat (k + i)) 64 = Some f.

(** Replaying frames: the loop goes on after them with the book they give, or
    ends with the exception of the first order that throws. *)
Lemma recover_frames ms k fuel mem b r b' :
  Forall (λ m, whole_message m = true) ms → Forall (Forall is_byte) ms →
  holds_frames mem k (message_frames tsc k ms) → Z.of_nat (k + length ms) ≤ 2 ^ 24 →
  apply_orders (omap decode ms) b = (r, b') →
  ∃ rep', recover_loop (length ms + fuel) mem (64 * Z.of_nat k) (mkEngine b (report_at k 0)) =
    match r with
    | Ok _ => recover_loop fuel mem (64 * Z.of_nat (k + length ms))
                (mkEngine b' (report_at (k + length ms) 0))
    | _ => (r, mkEngine b' rep')
    end.
Proof.
  intros Hw. revert k b. induction Hw as [|m ms Hm _ IH]; intros k b Hb Hfr Hsz Happ.
  - injection Happ as <- <-. exists (report_at k 0). cbn [length]. by rewrite Nat.add_0_r.
  - apply Forall_cons in Hb as [Hbm Hb]. cbn [length] in *.
    assert (read_bytes mem (64 * Z.of_nat k) 64 = Some (frame_bytes tsc (Z.of_nat k) (log_type m) m)) as Hr.
    { specialize (Hfr 0%nat _ eq_refl). by rewrite Nat.add_0_r in Hfr. }
    cbn [Nat.add].
    rewrite (recover_frame (length ms + fuel) mem _ (Z.of_nat k) m) by (done || (unfold in_range; lia)).
    assert (∀ b1, apply_orders (omap decode ms) b1 = (r, b') →
      ∃ rep', recover_loop (length ms + fuel) mem (64 * Z.of_nat k + 64)
                (count_record (Z.of_nat k) (mkEngine b1 (report_at k 0))) =
      match r with
      | Ok _ => recover_loop fuel mem (64 * Z.of_nat (k + S (length ms)))
                  (mkEngine b' (report_at (k + S (length ms)) 0))
      | _ => (r, mkEngine b' rep')
      end) as Hrest.
    { intros b1 Hb1. rewrite count_record_at by lia.
      replace (64 * Z.of_nat k + 64) with (64 * Z.of_nat (S k)) by lia.
      replace (k + S (length ms))%nat with (S k + length ms)%nat in * by lia.
      apply IH; try done; try lia.
      intros i f Hi. specialize (Hfr (S i) f Hi).
      by replace (k + S i)%nat with (S k + i)%nat in Hfr by lia. }
    cbn [omap list_omap] in Happ. destruct (decode m) as [o|].
    + cbn [apply_orders] in Happ. munfold. unfold on_book, zoom. cbn [order_book_].
      unfold mbind, M_bind in Happ.
      destruct (dispatch o b) as [[[]|ex| |] b1]; [by apply Hrest|..];
        injection Happ as <- <-; by eexists.
    + munfold. by apply Hrest.
Qed.

(** ** Where the loop stops *)

(** At a frame without the marker. *)
Lemma recover_stop fuel mem off en x : mem.[off] = Some x → x ≠ VALID_FRAME_MARKER →
  recover_loop (S fuel) mem off en = (Ok tt, en).
Proof.
  intros Hx Hne. cbn [recover_loop]. unfold off_marker. rewrite Z.add_0_r, Hx. cbn [of_option].
  rewrite bind_mret. by rewrite (proj2 (Z.eqb_neq _ _) Hne).
Qed.

(** At the end of the mapping. *)
Lemma recover_end fuel mem off en : alen mem ≤ off → recover_loop (S fuel) mem off en = (UB, en).
Proof.
  intros Hoff. cbn [recover_loop]. unfold off_marker. rewrite Z.add_0_r.
  by rewrite (aget_out mem off) by lia.
Qed.

(** At a frame whose head is not the one its checksum was computed from. *)
Lemma recover_torn fuel mem off en hd crc : Forall is_byte hd → length hd = 60%nat →
  read_bytes mem off 64 = Some (hd ++ le_bytes 4 crc) → in_range 32 crc →
  hd !! 0%nat = Some VALID_FRAME_MARKER → crc32c hd ≠ crc →
  recover_loop (S fuel) mem off en = (Ok tt, set_torn en).
Proof.
  intros Hb Hl Hr Hcrc Hm Hne.
  assert (read_bytes mem off 60 = Some hd) as H60.
  { pose proof (read_sub _ _ _ _ 0 60 Hr ltac:(lia)) as H. rewrite Z.add_0_r in H.
    by rewrite H, drop_0, <- Hl, take_app_length. }
  assert (read_bytes mem (off + off_checksum) 4 = Some (le_bytes 4 crc)) as Hc.
  { pose proof (read_sub _ _ _ _ 60 4 Hr ltac:(lia)) as H.
    by rewrite <- Hl, drop_app_length, Hl in H. }
  pose proof (read_at _ _ _ _ 0 _ H60 Hm) as Hmark.
  cbn [recover_loop]. unfold off_marker. change (Z.of_nat 0) with 0 in Hmark. rewrite Hmark.
  cbn [of_option]. rewrite bind_mret.
  change (VALID_FRAME_MARKER =? VALID_FRAME_MARKER) with true. cbn iota.
  rewrite H60. cbn [of_option]. rewrite bind_mret.
  rewrite calculate_crc32_spec, take_ge by (done || lia). cbn [of_option]. rewrite bind_mret, Hc.
  cbn [of_option]. rewrite bind_mret, le_Z_le_bytes, Z.mod_small by done.
  by rewrite (proj2 (Z.eqb_neq _ _) Hne).
Qed.
End Replay.

Lemma map_file_pages page_size file : 0 < page_size → (page_size | alen file) →
  map_file page_size file = file.
Proof.
  intros Hp [k Hk]. unfold map_file. destruct file as [n d c]. cbn [alen adef acells] in *.
  f_equal. rewrite Hk. replace (k * page_size + page_size - 1) with (page_size - 1 + k * page_size) by lia.
  rewrite Z.div_add, Z.div_small by lia. lia.
Qed.

(** A whole run on a file that begins with the frames of [ms]. *)
Lemma run_recovery_frames tsc ms page_size file fuel b r b' :
  Forall (λ m, whole_message m = true) ms → Forall (Forall is_byte) ms →
  0 < page_size → (page_size | alen file) → holds_frames file 0 (message_frames tsc 0 ms) →
  Z.of_nat (length ms) ≤ 2 ^ 24 → (length ms < fuel)%nat →
  apply_orders (omap decode ms) b = (r, b') →
  ∃ rep' fuel', run_recovery fuel page_size (Some file) true true (RecoveryEngine_new b) =
    match r with
    | Ok _ => recover_loop (S fuel') file (64 * Z.of_nat (length ms))
                (mkEngine b' (report_at (length ms) 0))
    | _ => (r, mkEngine b' rep')
    end.
Proof.
  intros Hw Hb Hpage Hdiv Hfr Hsz Hfuel Happ.
  destruct (recover_frames tsc ms 0 (S (fuel - length ms - 1)) file b r b' Hw Hb Hfr Hsz Happ)
    as [rep' Hrun].
  exists rep', (fuel - length ms - 1)%nat.
  replace (length ms + S (fuel - length ms - 1))%nat with fuel in Hrun by lia.
  unfold run_recovery. cbn [negb]. rewrite map_file_pages by done. exact Hrun.
Qed.

(** * The theorems *)

(** C17 Recovery replays the log: on a file that holds the frames of a
    sequence of messages followed by a byte that is not the marker, the loop
    ends at that byte, has applied to the book exactly the orders the messages
    decode to, in order, and reports the number of frames and the last
    sequence number; if an order throws, recovery ends with that exception
    and the book as it then is. *)
Theorem recovery_replays_log tsc ms page_size file fuel next b r b' :
  Forall (λ m, whole_message m = true) ms → Forall (Forall is_byte) ms →
  0 < page_size → (page_size | alen file) → holds_frames file 0 (message_frames tsc 0 ms) →
  file.[64 * Z.of_nat (length ms)] = Some next → next ≠ VALID_FRAME_MARKER →
  Z.of_nat (length ms) ≤ 2 ^ 24 → (length ms < fuel)%nat →
  apply_orders (omap decode ms) b = (r, b') →
  ∃ rep', run_recovery fuel page_size (Some file) true true (RecoveryEngine_new b) =
            (r, mkEngine b' rep') ∧
          (r = Ok tt → rep' = report_at (length ms) 0).
Proof.
  intros Hw Hb Hpage Hdiv Hfr Hnext Hne Hsz Hfuel Happ.
  destruct (run_recovery_frames tsc ms page_size file fuel b r b') as (rep' & fuel' & ->); try done.
  destruct r as [[]|ex| |]; [|by exists rep'..].
  rewrite (recover_stop _ _ _ _ next) by done. by exists (report_at (length ms) 0).
Qed.

(** A file with the frames of two sample messages, and a book. *)
Definition sample_log (ms : list (list Z)) : array Z :=
  default (anew 4096 0) (write_bytes (anew 4096 0) 0 (concat (message_frames (λ n, 7 * n) 0 ms))).

Definition replay_messages : list (list Z) :=
  [encode (NAdd (mkAddOrder 5 77 100 650 1 2 [65; 65; 80; 76; 32; 32; 32; 32] char_B));
   encode (NExecute (mkOrderExecuted 6 77 9 40 13 2));
   83 :: replicate 11 0].

Lemma holds_frames_cons mem k f fs :
  read_bytes mem (64 * Z.of_nat k) 64 = Some f → holds_frames mem (S k) fs →
  holds_frames mem k (f :: fs).
Proof.
  intros Hf Hfs [|i] g; cbn [lookup list_lookup].
  - intros [= <-]. by rewrite Nat.add_0_r.
  - intros Hg. rewrite Nat.add_succ_r. by apply Hfs.
Qed.

Lemma holds_frames_nil mem k : holds_frames mem k [].
Proof. intros i f Hi. by rewrite lookup_nil in Hi. Qed.

Lemma recovery_replays_log_witness :
  match new_book 4 4096 true true with
  | Ok b =>
      let run := apply_orders (omap decode replay_messages) b in
      ∃ rep', run_recovery 10 4096 (Some (sample_log replay_messages)) true true
                (RecoveryEngine_new b) = (run.1, mkEngine run.2 rep')
  | _ => False
  end.
Proof.
  destruct (new_book 4 4096 true true) as [b| | |] eqn:E; [|by vm_compute in E..].
  intros run.
  destruct (recovery_replays_log (λ n, 7 * n) replay_messages 4096 (sample_log replay_messages) 10 0
    b run.1 run.2) as (rep' & Hrun & _);
    [| |lia| | | |done|by vm_compute|simpl; lia|apply surjective_pairing|by exists rep'].
  - repeat constructor; by vm_compute.
  - apply (bool_decide_unpack _). by vm_compute.
  - by exists 1.
  - repeat (apply holds_frames_cons; [by vm_compute|]). apply holds_frames_nil.
  - by vm_compute.
Defined.

(** At a frame changed inside four bytes: the loop stops, and sets the flag when
    the marker still stands. *)
Lemma recover_changed_frame fuel mem off en tsc seq m pre x y post : Forall is_byte m →
  frame_bytes tsc seq (log_type m) m = pre ++ x ++ post →
  Forall is_byte y → length x = length y → (length x ≤ 4)%nat → x ≠ y →
  read_bytes mem off 64 = Some (pre ++ y ++ post) →
  recover_loop (S fuel) mem off en =
  (Ok tt, if bool_decide ((pre ++ y ++ post) !! 0%nat = Some VALID_FRAME_MARKER) then set_torn en else en).
Proof.
  intros Hm Hf Hy Hlen H4 Hne Hread. set (hd := frame_head tsc seq (log_type m) m) in *.
  assert (Forall is_byte hd) as Hhb by by apply frame_head_bytes.
  assert (Forall is_byte (le_bytes 4 (crc32c hd))) as Hcb by apply le_bytes_bytes.
  assert (crc32c (pre ++ x ++ post) = 0) as Hres.
  { rewrite <- Hf. apply crc32c_residue; [done|apply length_le_bytes|]. rewrite le_Z_le_bytes. symmetry.
    apply Z.mod_small. by apply crc_bytes_range. }
  assert (Forall is_byte (pre ++ x ++ post)) as Hxb by (rewrite <- Hf; by apply Forall_app).
  assert (Forall is_byte x ∧ Forall is_byte (pre ++ y ++ post)) as [Hx Hfb].
  { rewrite !Forall_app in *. tauto. }
  assert (length (pre ++ y ++ post) = 64%nat) as Hl.
  { pose proof (length_frame_bytes tsc seq (log_type m) m) as Hl. rewrite Hf in Hl.
    rewrite !length_app in *. lia. }
  assert (crc32c (pre ++ y ++ post) ≠ 0) as Hcrc.
  { intros E. apply Hne. apply (crc32c_burst pre x y post); [done..|]. by rewrite Hres, E. }
  revert Hread Hfb Hl Hcrc. generalize (pre ++ y ++ post). clear. intros f Hread Hfb Hl Hcrc.
  destruct (f !! 0%nat) as [c|] eqn:Hc; [|apply lookup_ge_None in Hc; lia].
  pose proof (read_at _ _ _ _ 0 _ Hread Hc) as Hmark. rewrite Z.add_0_r in Hmark.
  case_bool_decide as Hv; [|by apply (recover_stop _ _ _ _ c); [done|congruence]].
  assert (Forall is_byte (drop 60 f)) as Hd by by apply Forall_drop.
  assert (length (drop 60 f) = 4%nat) as Hd4 by (rewrite length_drop; lia).
  apply (recover_torn _ _ _ _ (take 60 f) (le_Z (drop 60 f))).
  - by apply Forall_take.
  - rewrite length_take. lia.
  - pose proof (le_bytes_le_Z _ Hd) as Hb. rewrite Hd4 in Hb. by rewrite Hb, take_drop.
  - pose proof (le_Z_bits _ Hd) as Hr. by rewrite Hd4 in Hr.
  - rewrite lookup_take_lt by lia. congruence.
  - intros E. apply Hcrc. rewrite <- (take_drop 60 f). by apply crc32c_residue.
Qed.

(** C18 A torn or corrupted frame: a log holds the frames of some messages, and
    then a frame whose 64 bytes (marker, header, payload, checksum) differ from
    what was logged inside a window of at most four bytes, anywhere in it.
    Recovery applies exactly the orders of the frames before it, in order, and
    nothing of it or after it; it reports the torn write if the marker still
    stands and ends without a report if the marker was changed.  If an order
    of an earlier frame throws, recovery ends with that exception. *)
Theorem torn_frame_stops_recovery tsc ms m pre x y post page_size file fuel b r b' :
  Forall (λ m, whole_message m = true) ms → Forall (Forall is_byte) (ms ++ [m]) →
  0 < page_size → (page_size | alen file) → holds_frames file 0 (message_frames tsc 0 ms) →
  frame_bytes tsc (Z.of_nat (length ms)) (log_type m) m = pre ++ x ++ post →
  Forall is_byte y → length x = length y → (length x ≤ 4)%nat → x ≠ y →
  read_bytes file (64 * Z.of_nat (length ms)) 64 = Some (pre ++ y ++ post) →
  Z.of_nat (length ms) ≤ 2 ^ 24 → (length ms < fuel)%nat →
  apply_orders (omap decode ms) b = (r, b') →
  ∃ rep', run_recovery fuel page_size (Some file) true true (RecoveryEngine_new b) =
            (r, mkEngine b' rep') ∧
          (r = Ok tt →
           rep' = mkReport (Z.of_nat (length ms)) (last_valid_seq (report_at (length ms) 0))
                    (bool_decide ((pre ++ y ++ post) !! 0%nat = Some VALID_FRAME_MARKER))).
Proof.
  intros Hw Hb Hpage Hdiv Hfr Hf Hby Hlen H4 Hne Hread Hsz Hfuel Happ.
  apply Forall_app in Hb as [Hb Hbm]. rewrite Forall_singleton in Hbm.
  destruct (run_recovery_frames tsc ms page_size file fuel b r b') as (rep' & fuel' & ->); try done.
  destruct r as [[]|ex| |]; [|by exists rep'..].
  rewrite (recover_changed_frame _ _ _ _ tsc (Z.of_nat (length ms)) m pre x y post) by done.
  case_bool_decide; by eexists.
Qed.

(** The log of [replay_messages] in which the three lowest bytes of the second
    frame's checksum were lost, and the same log without the marker there. *)
Definition torn_log : array Z :=
  default (anew 4096 0) (write_bytes (sample_log replay_messages) (64 + 60) [0; 0; 0]).
Definition unmarked_log : array Z :=
  default (anew 4096 0) (write_bytes (sample_log replay_messages) 64 [0]).

Lemma torn_frame_stops_recovery_witness :
  match new_book 4 4096 true true with
  | Ok b =>
      let run := apply_orders (omap decode (take 1 replay_messages)) b in
      run_recovery 10 4096 (Some torn_log) true true (RecoveryEngine_new b) =
        (Ok tt, mkEngine run.2 (mkReport 1 0 true)) ∧
      run_recovery 10 4096 (Some unmarked_log) true true (RecoveryEngine_new b) =
        (Ok tt, mkEngine run.2 (mkReport 1 0 false))
  | _ => False
  end.
Proof.
  destruct (new_book 4 4096 true true) as [b| | |] eqn:E; [|by vm_compute in E..].
  intros run. set (m := nth 1 replay_messages []). set (f := frame_bytes (λ n, 7 * n) 1 (log_type m) m).
  assert (Hrun : run = (Ok tt, run.2)).
  { unfold run. revert E. unfold new_book, StaticOrderMap_new. cbn [negb].
    intros E. injection E as <-. by vm_compute. }
  split.
  - destruct (torn_frame_stops_recovery (λ n, 7 * n) (take 1 replay_messages) m
      (take 60 f) (take 3 (drop 60 f)) [0; 0; 0] (drop 63 f) 4096 torn_log 10 b (Ok tt) run.2)
      as (rep' & -> & ->); [| |lia| | | | | | | | |by vm_compute|simpl; lia|exact Hrun|done|by vm_compute].
    1: repeat constructor; by vm_compute.
    1: apply (bool_decide_unpack _); by vm_compute.
    1: by exists 1.
    1: repeat (apply holds_frames_cons; [by vm_compute|]); apply holds_frames_nil.
    2: repeat constructor; lia.
    3: vm_compute; lia.
    all: by vm_compute.
  - destruct (torn_frame_stops_recovery (λ n, 7 * n) (take 1 replay_messages) m
      [] (take 1 f) [0] (drop 1 f) 4096 unmarked_log 10 b (Ok tt) run.2)
      as (rep' & -> & ->); [| |lia| | | | | | | | |by vm_compute|simpl; lia|exact Hrun|done|by vm_compute].
    1: repeat constructor; by vm_compute.
    1: apply (bool_decide_unpack _); by vm_compute.
    1: by exists 1.
    1: repeat (apply holds_frames_cons; [by vm_compute|]); apply holds_frames_nil.
    2: repeat constructor; lia.
    3: vm_compute; lia.
    all: by vm_compute.
Defined.

(** A log with no free frame: when every frame of the file is valid and
    its size is a whole number of pages, the loop reads the marker of a frame
    past the end of the mapping. *)
Theorem full_log_recovery_is_ub tsc ms page_size file fuel b b' :
  Forall (λ m, whole_message m = true) ms → Forall (Forall is_byte) ms →
  0 < page_size → (page_size | alen file) → holds_frames file 0 (message_frames tsc 0 ms) →
  alen file = 64 * Z.of_nat (length ms) →
  Z.of_nat (length ms) ≤ 2 ^ 24 → (length ms < fuel)%nat →
  apply_orders (omap decode ms) b = (Ok tt, b') →
  (run_recovery fuel page_size (Some file) true true (RecoveryEngine_new b)).1 = UB.
Proof.
  intros Hw Hb Hpage Hdiv Hfr Hlen Hsz Hfuel Happ.
  destruct (run_recovery_frames tsc ms page_size file fuel b (Ok tt) b') as (_ & fuel' & ->);
    try done.
  by rewrite recover_end by lia.
Qed.

(** A page of 64 frames of system events. *)
Definition full_page : list (list Z) := replicate 64 (83 :: replicate 11 0).

Lemma full_log_recovery_is_ub_witness :
  match new_book 4 4096 true true with
  | Ok b => (run_recovery 65 4096 (Some (sample_log full_page)) true true (RecoveryEngine_new b)).1 = UB
  | _ => False
  end.
Proof.
  destruct (new_book 4 4096 true true) as [b| | |] eqn:E; [|by vm_compute in E..].
  apply (full_log_recovery_is_ub (λ n, 7 * n) full_page 4096 (sample_log full_page) 65 b b);
    [| |lia| | |by vm_compute|by vm_compute|vm_compute; lia|reflexivity].
  - repeat constructor; by vm_compute.
  - apply (bool_decide_unpack _). by vm_compute.
  - by exists 1.
  - repeat (apply holds_frames_cons; [by vm_compute|]). apply holds_frames_nil.
Defined.
