(* ===== verification/MulticastReceiver.v ===== *)
(** [network::MulticastReceiver] (src/src/network/MulticastReceiver.h): the
    packet ring in mock mode.

    [simulate_packets] plays the kernel: it cuts a file of length-prefixed
    messages into ring frames.  [poll_simulation] runs in another thread and
    hands the payload of each frame to the message handler.  The two share the
    ring, a mapping of RX_FRAME_NR frames of RX_FRAME_SIZE bytes; a frame
    starts with a [tpacket2_hdr], whose [tp_status] says whose frame it is.

    The ring is a byte array, and a pointer into it an offset from [ring_]; an
    access outside it is UB.  Each thread is a machine that takes one step at a
    time: a step makes at most one atomic access to a status, or one group of
    plain accesses to the frame the thread owns.  A schedule says which thread
    steps next; a step of a thread that waits for a status changes nothing, so
    a load that returns an old status is a step taken too early.

    The theorems hold for every handler ([BlockHandler]) and every schedule. *)

From S2P Require Import Prelude Interfaces.

(** * Constants *)

Definition RX_BLOCK_SIZE : Z := Z.shiftl 1 16.
Definition RX_FRAME_SIZE : Z := 2048.
Definition RX_BLOCK_NR : Z := 128.
Definition RX_FRAME_NR : Z := RX_BLOCK_SIZE * RX_BLOCK_NR / RX_FRAME_SIZE.

(** [struct tpacket2_hdr] of linux/if_packet.h. *)
Definition off_tp_status : Z := 0.
Definition off_tp_len : Z := 4.
Definition off_tp_snaplen : Z := 8.
Definition off_tp_mac : Z := 12.
Definition off_tp_net : Z := 14.
Definition sizeof_tpacket2_hdr : Z := 32.
Definition TP_STATUS_KERNEL : Z := 0.
Definition TP_STATUS_USER : Z := 1.
Definition TPACKET_ALIGN (x : Z) : Z := Z.land (x + 15) (unot 32 15).

(** * The ring *)

Definition ring_load (off : Z) (n : nat) : M (array Z) Z :=
  r ← get_state; l ← of_option (read_bytes r off n); mret (le_Z l).
Definition ring_store_bytes (off : Z) (l : list Z) : M (array Z) unit :=
  r ← get_state; r' ← of_option (write_bytes r off l); put_state r'.
Definition ring_store (off : Z) (n : nat) (v : Z) : M (array Z) unit :=
  ring_store_bytes off (le_bytes n v).

(** The body of the loop of [simulate_packets] between the wait and the
    release of the frame: header, then payload. *)
Definition fill_frame (curr_frame_ptr : Z) (message : list Z) : M (array Z) unit :=
  let message_len := Z.of_nat (length message) in
  ring_store (curr_frame_ptr + off_tp_snaplen) 4 message_len;;
  ring_store (curr_frame_ptr + off_tp_len) 4 message_len;;
  ring_store (curr_frame_ptr + off_tp_mac) 2 (TPACKET_ALIGN sizeof_tpacket2_hdr);;
  tp_mac ← ring_load (curr_frame_ptr + off_tp_mac) 2;
  ring_store (curr_frame_ptr + off_tp_net) 2 tp_mac;;
  tp_mac ← ring_load (curr_frame_ptr + off_tp_mac) 2;
  ring_store_bytes (curr_frame_ptr + tp_mac) message.

(** The payload [poll_simulation] finds in a frame.  [payload_length] is an
    int; a negative length is outside the model. *)
Definition frame_block (start_of_frame : Z) : M (array Z) (list Z) :=
  tp_net ← ring_load (start_of_frame + off_tp_net) 2;
  tp_snaplen ← ring_load (start_of_frame + off_tp_snaplen) 4;
  if 2 ^ 31 <=? tp_snaplen then ub else
  r ← get_state; of_option (read_bytes r (start_of_frame + tp_net) (Z.to_nat tp_snaplen)).

(** * The two threads *)

Section Receiver.
Context {H : Type} `{!BlockHandler H}.

Inductive simulator_pc : Type :=
| SimHead                          (** the head of the loop *)
| SimWait (message_len : nat)      (** waiting for the frame *)
| SimFill (message_len : nat)      (** about to write the frame *)
| SimPublish (message_len : nat)   (** about to hand the frame over *)
| SimDone.

Inductive poller_pc : Type :=
| PollWait      (** waiting for the frame *)
| PollParse     (** about to read the frame and call the handler *)
| PollRelease.  (** about to return the frame *)

(** [data_] is the file from [data] to [data_end]; [handled_] records the
    blocks given to the handler. *)
Record Receiver : Type := mkReceiver {
  ring_ : array Z;
  simulator_ : simulator_pc;
  data_ : list Z;
  frame_idx_ : Z;
  poller_ : poller_pc;
  curr_frame_idx_ : Z;
  total_packets_ : Z;
  handler_ : H;
  handled_ : list (list Z)
}.

(** The mock-mode constructor, and the start of the two threads. *)
Definition MulticastReceiver_new (handler : H) (mock_mode mmap_ok : bool) (file : list Z)
    : outcome Receiver :=
  if mock_mode then
    if mmap_ok then
      Ok (mkReceiver (anew (RX_BLOCK_SIZE * RX_BLOCK_NR) 0) SimHead file 0 PollWait 0 0 handler [])
    else Throw (runtime_error "MulticastReceiver(): Unable to create mock RX ring buffer.")
  else Throw (runtime_error
    "MulticastReceiver(): Mock mode constructor should only be used when mock_mode is true.").

Definition set_ring (r : array Z) (s : Receiver) : Receiver :=
  mkReceiver r (simulator_ s) (data_ s) (frame_idx_ s) (poller_ s) (curr_frame_idx_ s)
    (total_packets_ s) (handler_ s) (handled_ s).
Definition set_simulator (pc : simulator_pc) (d : list Z) (i : Z) (s : Receiver) : Receiver :=
  mkReceiver (ring_ s) pc d i (poller_ s) (curr_frame_idx_ s) (total_packets_ s) (handler_ s)
    (handled_ s).
Definition set_poller (pc : poller_pc) (s : Receiver) : Receiver :=
  mkReceiver (ring_ s) (simulator_ s) (data_ s) (frame_idx_ s) pc (curr_frame_idx_ s)
    (total_packets_ s) (handler_ s) (handled_ s).
Definition set_handler (h : H) (s : Receiver) : Receiver :=
  mkReceiver (ring_ s) (simulator_ s) (data_ s) (frame_idx_ s) (poller_ s) (curr_frame_idx_ s)
    (total_packets_ s) h (handled_ s).
Definition record_block (b : list Z) (s : Receiver) : Receiver :=
  mkReceiver (ring_ s) (simulator_ s) (data_ s) (frame_idx_ s) PollRelease (curr_frame_idx_ s)
    (total_packets_ s) (handler_ s) (handled_ s ++ [b]).
Definition next_frame (s : Receiver) : Receiver :=
  mkReceiver (ring_ s) (simulator_ s) (data_ s) (frame_idx_ s) PollWait
    ((curr_frame_idx_ s + 1) mod RX_FRAME_NR) (u64 (total_packets_ s + 1)) (handler_ s) (handled_ s).

Definition on_ring {A} (m : M (array Z) A) : M Receiver A := zoom ring_ set_ring m.
Definition on_handler {A} (m : M H A) : M Receiver A := zoom handler_ set_handler m.

(** The next step of [simulate_packets]. *)
Definition simulate_step : M Receiver unit :=
  s ← get_state;
  let curr_frame_ptr := frame_idx_ s * RX_FRAME_SIZE in
  match simulator_ s with
  | SimHead =>
      match data_ s with
      | [] | [_] => modify (set_simulator SimDone (data_ s) (frame_idx_ s))
      | b0 :: b1 :: data =>
          let message_len := bswap 2 (le_Z [b0; b1]) in
          if Z.of_nat (length data) <? message_len
          then modify (set_simulator SimDone data (frame_idx_ s))
          else modify (set_simulator (SimWait (Z.to_nat message_len)) data (frame_idx_ s))
      end
  | SimWait message_len =>
      status ← on_ring (ring_load (curr_frame_ptr + off_tp_status) 4);
      if Z.land status TP_STATUS_USER =? 0
      then modify (set_simulator (SimFill message_len) (data_ s) (frame_idx_ s))
      else mret tt
  | SimFill message_len =>
      on_ring (fill_frame curr_frame_ptr (take message_len (data_ s)));;
      modify (set_simulator (SimPublish message_len) (data_ s) (frame_idx_ s))
  | SimPublish message_len =>
      on_ring (ring_store (curr_frame_ptr + off_tp_status) 4 TP_STATUS_USER);;
      modify (set_simulator SimHead (drop message_len (data_ s))
                ((frame_idx_ s + 1) mod RX_FRAME_NR))
  | SimDone => mret tt
  end.

(** The next step of [poll_simulation]. *)
Definition poll_step : M Receiver unit :=
  s ← get_state;
  let start_of_frame := curr_frame_idx_ s * RX_FRAME_SIZE in
  match poller_ s with
  | PollWait =>
      status ← on_ring (ring_load (start_of_frame + off_tp_status) 4);
      if Z.land status TP_STATUS_USER =? 0 then mret tt else modify (set_poller PollParse)
  | PollParse =>
      block ← on_ring (frame_block start_of_frame);
      on_handler (handle_block block);;
      modify (record_block block)
  | PollRelease =>
      on_ring (ring_store (start_of_frame + off_tp_status) 4 TP_STATUS_KERNEL);;
      modify next_frame
  end.

Inductive thread : Type := Simulator | Poller.

Definition thread_step (t : thread) : M Receiver unit :=
  match t with Simulator => simulate_step | Poller => poll_step end.

Fixpoint run_schedule (ts : list thread) : M Receiver unit :=
  match ts with
  | [] => mret tt
  | t :: ts' => thread_step t;; run_schedule ts'
  end.

(** ** The messages of a file *)

(** The reference: cut the file at its length prefixes, up to the first that
    is incomplete. *)
Fixpoint split_messages (fuel : nat) (file : list Z) : list (list Z) :=
  match fuel, file with
  | S fuel', b0 :: b1 :: rest =>
      let n := Z.to_nat (be_Z [b0; b1]) in
      if (n <=? length rest)%nat then take n rest :: split_messages fuel' (drop n rest) else []
  | _, _ => []
  end.

Definition file_messages (file : list Z) : list (list Z) := split_messages (length file) file.
End Receiver.

(** * The memory of the ring *)

Definition ring_ok (r : array Z) : Prop := alen r = RX_BLOCK_SIZE * RX_BLOCK_NR.

Definition status_at (r : array Z) (i v : Z) : Prop :=
  read_bytes r (i * RX_FRAME_SIZE + off_tp_status) 4 = Some (le_bytes 4 v).

(** Frame [i] holds a message: what the poller reads. *)
Record message_at (r : array Z) (i : Z) (m : list Z) : Prop := {
  ma_snaplen : read_bytes r (i * RX_FRAME_SIZE + off_tp_snaplen) 4 =
    Some (le_bytes 4 (Z.of_nat (length m)));
  ma_net : read_bytes r (i * RX_FRAME_SIZE + off_tp_net) 2 = Some (le_bytes 2 32);
  ma_payload : read_bytes r (i * RX_FRAME_SIZE + 32) (length m) = Some m
}.

(** The room of a frame after its header. *)
Definition fits (m : list Z) : Prop := Z.of_nat (length m) ≤ RX_FRAME_SIZE - 32.

(** [r'] differs from [r] in frame [i] only. *)
Definition only_frame (i : Z) (r r' : array Z) : Prop :=
  ∀ j, ¬ (i * RX_FRAME_SIZE ≤ j < (i + 1) * RX_FRAME_SIZE) → r'.[j] = r.[j].

Lemma RX_FRAME_NR_eq : RX_FRAME_NR = 4096.
Proof. reflexivity. Qed.

Lemma RX_total : RX_BLOCK_SIZE * RX_BLOCK_NR = RX_FRAME_NR * RX_FRAME_SIZE.
Proof. reflexivity. Qed.

Ltac offsets :=
  unfold off_tp_status, off_tp_len, off_tp_snaplen, off_tp_mac, off_tp_net, RX_FRAME_SIZE,
    sizeof_tpacket2_hdr, fits, ring_ok in *;
  rewrite ?RX_total, ?RX_FRAME_NR_eq in *; unfold RX_FRAME_SIZE in *.

Lemma status_frame i j r r' v : only_frame i r r' → i ≠ j → status_at r j v → status_at r' j v.
Proof.
  intros Ho Hij Hs. unfold status_at in *. rewrite <- Hs. apply read_bytes_ext.
  intros k Hk. apply Ho. offsets. lia.
Qed.

Lemma message_frame i j r r' m : only_frame i r r' → i ≠ j → fits m →
  message_at r j m → message_at r' j m.
Proof.
  intros Ho Hij Hf [H1 H2 H3].
  assert (∀ off n, 0 ≤ off → off + Z.of_nat n ≤ RX_FRAME_SIZE →
    read_bytes r' (j * RX_FRAME_SIZE + off) n = read_bytes r (j * RX_FRAME_SIZE + off) n) as He.
  { intros off n Hoff Hn. apply read_bytes_ext. intros k Hk. apply Ho. offsets. lia. }
  constructor; rewrite He; try done; offsets; lia.
Qed.

Lemma ring_load_run r off n l : read_bytes r off n = Some l → ring_load off n r = (Ok (le_Z l), r).
Proof. intros E. unfold ring_load. munfold. by rewrite E. Qed.

Lemma ring_store_run r off l : 0 ≤ off → off + Z.of_nat (length l) ≤ alen r →
  ∃ r', ring_store_bytes off l r = (Ok tt, r') ∧ write_bytes r off l = Some r' ∧ alen r' = alen r.
Proof.
  intros H0 H1. destruct (write_bytes_in r off l H0 H1) as (r' & E & Hl).
  exists r'. split; [|done]. unfold ring_store_bytes. munfold. by rewrite E.
Qed.

Lemma only_frame_write i r r' r1 off l : only_frame i r r1 → write_bytes r1 off l = Some r' →
  i * RX_FRAME_SIZE ≤ off → off + Z.of_nat (length l) ≤ (i + 1) * RX_FRAME_SIZE →
  only_frame i r r'.
Proof.
  intros Ho Hw H1 H2 j Hj. rewrite (write_bytes_get _ _ _ _ _ Hw). case_decide; [lia|]. by apply Ho.
Qed.

(** Two-byte and four-byte stores in the header of frame [i]. *)
Lemma header_store_run i off n v r : ring_ok r → 0 ≤ i < RX_FRAME_NR → 0 ≤ off →
  off + Z.of_nat n ≤ 32 →
  ∃ r', ring_store (i * RX_FRAME_SIZE + off) n v r = (Ok tt, r') ∧ ring_ok r' ∧
        read_bytes r' (i * RX_FRAME_SIZE + off) n = Some (le_bytes n v) ∧
        only_frame i r r' ∧
        ∀ off' n', off' + Z.of_nat n' ≤ off ∨ off + Z.of_nat n ≤ off' →
          read_bytes r' (i * RX_FRAME_SIZE + off') n' = read_bytes r (i * RX_FRAME_SIZE + off') n'.
Proof.
  intros Hok Hi H0 H1. unfold ring_store.
  destruct (ring_store_run r (i * RX_FRAME_SIZE + off) (le_bytes n v)) as (r' & E & W & L);
    [offsets; lia|rewrite length_le_bytes; offsets; lia|].
  pose proof (read_write_same _ _ _ _ W) as R. rewrite length_le_bytes in R.
  exists r'. split_and!; [done|unfold ring_ok in *; congruence|done| |].
  - eapply only_frame_write; [|eassumption|offsets; lia|rewrite length_le_bytes; offsets; lia].
    by intros j _.
  - intros off' n' Hd. apply (read_write_disjoint _ _ _ _ _ _ W). rewrite length_le_bytes. lia.
Qed.

Lemma only_frame_trans i r1 r2 r3 : only_frame i r1 r2 → only_frame i r2 r3 → only_frame i r1 r3.
Proof. intros H1 H2 j Hj. by rewrite H2, H1. Qed.

(** The header of a frame is written before its payload. *)
Lemma fill_header_run i m r : ring_ok r → 0 ≤ i < RX_FRAME_NR →
  ∃ r', fill_frame (i * RX_FRAME_SIZE) m r = ring_store_bytes (i * RX_FRAME_SIZE + 32) m r' ∧
        ring_ok r' ∧ only_frame i r r' ∧ (∀ v, status_at r i v → status_at r' i v) ∧
        read_bytes r' (i * RX_FRAME_SIZE + off_tp_snaplen) 4 =
          Some (le_bytes 4 (Z.of_nat (length m))) ∧
        read_bytes r' (i * RX_FRAME_SIZE + off_tp_net) 2 = Some (le_bytes 2 32).
Proof.
  intros Hok Hi. unfold fill_frame. change (TPACKET_ALIGN sizeof_tpacket2_hdr) with 32.
  destruct (header_store_run i off_tp_snaplen 4 (Z.of_nat (length m)) r)
    as (r1 & E1 & Ok1 & R1 & O1 & D1); [done|done|offsets; lia|offsets; lia|]. mstep E1.
  destruct (header_store_run i off_tp_len 4 (Z.of_nat (length m)) r1)
    as (r2 & E2 & Ok2 & _ & O2 & D2); [done|done|offsets; lia|offsets; lia|]. mstep E2.
  destruct (header_store_run i off_tp_mac 2 32 r2)
    as (r3 & E3 & Ok3 & R3 & O3 & D3); [done|done|offsets; lia|offsets; lia|]. mstep E3.
  mstep (ring_load_run _ _ _ _ R3). change (le_Z (le_bytes 2 32)) with 32.
  destruct (header_store_run i off_tp_net 2 32 r3)
    as (r4 & E4 & Ok4 & R4 & O4 & D4); [done|done|offsets; lia|offsets; lia|]. mstep E4.
  rewrite <- (D4 off_tp_mac 2%nat) in R3 by (offsets; lia).
  mstep (ring_load_run _ _ _ _ R3). change (le_Z (le_bytes 2 32)) with 32.
  exists r4. split_and!; [done|done|by eauto 6 using only_frame_trans| | |done].
  - intros v Hv. unfold status_at in *. by rewrite D4, D3, D2, D1 by (offsets; lia).
  - by rewrite D4, D3, D2 by (offsets; lia).
Qed.

(** Filling a frame that has room for the message. *)
Lemma fill_frame_run i m r : ring_ok r → 0 ≤ i < RX_FRAME_NR → fits m →
  ∃ r', fill_frame (i * RX_FRAME_SIZE) m r = (Ok tt, r') ∧ ring_ok r' ∧ message_at r' i m ∧
        only_frame i r r' ∧ ∀ v, status_at r i v → status_at r' i v.
Proof.
  intros Hok Hi Hf. destruct (fill_header_run i m r Hok Hi) as (r1 & -> & Hok1 & Ho & Hst & Hl & Hn).
  destruct (ring_store_run r1 (i * RX_FRAME_SIZE + 32) m) as (r2 & E & W & L);
    [offsets; lia|offsets; lia|].
  exists r2. split_and!; [done|unfold ring_ok in *; congruence| | |].
  - constructor; [| |by apply (read_write_same _ _ _ _ W)];
      by rewrite (read_write_disjoint _ _ _ _ _ _ W) by (offsets; lia).
  - eapply only_frame_write; [done|done|offsets; lia|offsets; lia].
  - intros v Hv. unfold status_at in *. rewrite (read_write_disjoint _ _ _ _ _ _ W) by (offsets; lia).
    by apply Hst.
Qed.

(** Storing a status. *)
Lemma set_status_run i v r : ring_ok r → 0 ≤ i < RX_FRAME_NR →
  ∃ r', ring_store (i * RX_FRAME_SIZE + off_tp_status) 4 v r = (Ok tt, r') ∧ ring_ok r' ∧
        status_at r' i v ∧ only_frame i r r' ∧ ∀ m, message_at r i m → message_at r' i m.
Proof.
  intros Hok Hi. destruct (header_store_run i off_tp_status 4 v r) as (r' & E & Hok' & R & Ho & D);
    [done|done|offsets; lia|offsets; lia|].
  exists r'. split_and!; try done. intros m [H1 H2 H3].
  constructor; rewrite D; try done; offsets; lia.
Qed.

Lemma load_status r i v : status_at r i v → 0 ≤ v < 2 ^ 32 →
  ring_load (i * RX_FRAME_SIZE + off_tp_status) 4 r = (Ok v, r).
Proof.
  intros Hs Hv. rewrite (ring_load_run _ _ _ _ Hs), le_Z_le_bytes, Z.mod_small; [done|lia].
Qed.

Lemma frame_block_run r i m : message_at r i m → fits m →
  frame_block (i * RX_FRAME_SIZE) r = (Ok m, r).
Proof.
  intros [H1 H2 H3] Hf. unfold frame_block.
  mstep (ring_load_run _ _ _ _ H2). mstep (ring_load_run _ _ _ _ H1).
  rewrite le_Z_le_bytes, Z.mod_small by (offsets; lia). change (le_Z (le_bytes 2 32)) with 32.
  rewrite (proj2 (Z.leb_gt _ _)) by (offsets; lia). munfold.
  by rewrite Nat2Z.id, H3.
Qed.

(** * The invariant *)

Section Invariant.
Context {H : Type} `{!BlockHandler H} (h0 : H) (ms : list (list Z)).
Hypothesis Hfits : Forall fits ms.
Implicit Types (s : Receiver (H := H)) (p c : nat).

Definition ring_slot (k : nat) : Z := Z.of_nat k mod RX_FRAME_NR.

(** What the simulator still has to publish, after [p] messages. *)
Definition simulator_ok p c s : Prop :=
  let pending n rest :=
    (n ≤ length (data_ s))%nat ∧ drop p ms = take n (data_ s) :: rest ∧
    rest = file_messages (drop n (data_ s)) in
  match simulator_ s with
  | SimHead => drop p ms = file_messages (data_ s)
  | SimWait n => ∃ rest, pending n rest
  | SimFill n => (∃ rest, pending n rest) ∧ (p < c + 4096)%nat
  | SimPublish n => (∃ rest, pending n rest) ∧ (p < c + 4096)%nat ∧
                    message_at (ring_ s) (ring_slot p) (take n (data_ s))
  | SimDone => drop p ms = []
  end.

(** What the poller has handled, after [c] frames returned. *)
Definition poller_ok p c s : Prop :=
  match poller_ s with
  | PollWait => handled_ s = take c ms
  | PollParse => handled_ s = take c ms ∧ (c < p)%nat
  | PollRelease => handled_ s = take (S c) ms ∧ (c < p)%nat
  end.

(** [p] messages published, [c] of them returned: the frames in between hold
    them and belong to the poller, the others to the simulator. *)
Record receiver_ok (s : Receiver) (p c : nat) : Prop := {
  ro_ring : ring_ok (ring_ s);
  ro_bytes : Forall is_byte (data_ s);
  ro_window : (c ≤ p ≤ c + 4096)%nat ∧ (p ≤ length ms)%nat;
  ro_frame_idx : frame_idx_ s = ring_slot p;
  ro_curr_idx : curr_frame_idx_ s = ring_slot c;
  ro_total : total_packets_ s = u64 (Z.of_nat c);
  ro_full : ∀ k m, (c ≤ k < p)%nat → ms !! k = Some m →
    status_at (ring_ s) (ring_slot k) TP_STATUS_USER ∧ message_at (ring_ s) (ring_slot k) m;
  ro_free : ∀ i, 0 ≤ i < RX_FRAME_NR → (∀ k, (c ≤ k < p)%nat → i ≠ ring_slot k) →
    status_at (ring_ s) i TP_STATUS_KERNEL;
  ro_simulator : simulator_ok p c s;
  ro_poller : poller_ok p c s;
  ro_handler : handle_blocks (handled_ s) h0 = (Ok tt, handler_ s)
}.

Lemma ring_slot_range k : 0 ≤ ring_slot k < RX_FRAME_NR.
Proof. apply Z.mod_pos_bound. by rewrite RX_FRAME_NR_eq. Qed.

Lemma ring_slot_S k : (ring_slot k + 1) mod RX_FRAME_NR = ring_slot (S k).
Proof. unfold ring_slot. rewrite Zplus_mod_idemp_l. f_equal. lia. Qed.

Lemma ring_slot_inj k k' : ring_slot k = ring_slot k' → (k < k' + 4096)%nat → (k' < k + 4096)%nat → k = k'.
Proof. unfold ring_slot. rewrite RX_FRAME_NR_eq. intros E H1 H2. apply mod_inj_near in E; lia. Qed.

Lemma ring_slot_wrap k : ring_slot (k + 4096) = ring_slot k.
Proof.
  unfold ring_slot. rewrite RX_FRAME_NR_eq, Nat2Z.inj_add.
  change (Z.of_nat 4096) with (1 * 4096). by rewrite Z_mod_plus_full.
Qed.

Lemma split_messages_fuel f file : (length file ≤ f)%nat →
  split_messages f file = file_messages file.
Proof.
  unfold file_messages. revert file. induction f as [f IH] using lt_wf_ind. intros file Hf.
  destruct file as [|b0 [|b1 rest]]; [by destruct f|by destruct f|].
  destruct f as [|f]; [simpl in Hf; lia|]. cbn [length split_messages] in *.
  destruct (Nat.leb_spec (Z.to_nat (be_Z [b0; b1])) (length rest)); [|done].
  f_equal. rewrite (IH f), <- (IH (S (length rest))); rewrite ?length_drop; (lia || done).
Qed.

Lemma file_messages_cons b0 b1 rest : is_byte b0 → is_byte b1 →
  file_messages (b0 :: b1 :: rest) =
  (let n := Z.to_nat (bswap 2 (le_Z [b0; b1])) in
   if Z.of_nat (length rest) <? bswap 2 (le_Z [b0; b1]) then []
   else take n rest :: file_messages (drop n rest)).
Proof.
  intros H0 H1. unfold file_messages at 1. cbn [length split_messages].
  assert (Forall is_byte [b0; b1]) as Hb by (rewrite !Forall_cons; done).
  change 2%nat with (length [b0; b1]). rewrite bswap_le_Z by done.
  pose proof (be_Z_range [b0; b1] Hb) as [Hr _].
  destruct (Z.ltb_spec (Z.of_nat (length rest)) (be_Z [b0; b1])).
  - by rewrite (proj2 (Nat.leb_gt _ _)) by lia.
  - rewrite (proj2 (Nat.leb_le _ _)) by lia. f_equal.
    apply (split_messages_fuel (S (length rest))). rewrite length_drop. lia.
Qed.

Lemma fits_lookup k m : ms !! k = Some m → fits m.
Proof. intros Hk. by apply (proj1 (Forall_lookup _ _) Hfits k). Qed.

Lemma drop_lookup_cons {A} (l l' : list A) k x : drop k l = x :: l' →
  l !! k = Some x ∧ drop (S k) l = l'.
Proof.
  intros E. split.
  - pose proof (lookup_drop l k 0) as Hd. rewrite E, Nat.add_0_r in Hd. by symmetry.
  - replace (S k) with (k + 1)%nat by lia. by rewrite <- skipn_skipn, E || (rewrite <- drop_drop, E).
Qed.

(** ** The work left *)

Definition simulator_work s : nat :=
  match simulator_ s with
  | SimHead => 4 * length (file_messages (data_ s)) + 1
  | SimWait n => 4 * length (file_messages (drop n (data_ s))) + 4
  | SimFill n => 4 * length (file_messages (drop n (data_ s))) + 3
  | SimPublish n => 4 * length (file_messages (drop n (data_ s))) + 2
  | SimDone => 0
  end.

Definition poller_work s : nat :=
  let left := (3 * (length ms - length (handled_ s)))%nat in
  match poller_ s with
  | PollWait => left
  | PollParse => left - 1
  | PollRelease => left + 1
  end.

Definition work_left s : nat := simulator_work s + poller_work s.

(** A step that waits changes nothing, every other one is progress. *)
Definition advances s s' : Prop := S (work_left s') = work_left s.
Definition progress s s' : Prop := s' = s ∨ advances s s'.

(** Count the work of a step. *)
Ltac work_step := unfold poller_work; cbn -[file_messages Nat.mul]; lia.

Lemma frame_full s p c : receiver_ok s p c → (c < p)%nat →
  ∃ m, ms !! c = Some m ∧ fits m ∧ status_at (ring_ s) (ring_slot c) TP_STATUS_USER ∧
       message_at (ring_ s) (ring_slot c) m.
Proof.
  intros R Hc. destruct (ro_window _ _ _ R) as [Hw Hp].
  destruct (lookup_lt_is_Some_2 ms c) as [m Hm]; [lia|].
  exists m. split_and!; [done|by eapply fits_lookup| |]; by eapply (ro_full _ _ _ R c m).
Qed.

Lemma ring_slot_free s p c : receiver_ok s p c → (p < c + 4096)%nat →
  status_at (ring_ s) (ring_slot p) TP_STATUS_KERNEL.
Proof.
  intros R Hp. apply (ro_free _ _ _ R); [apply ring_slot_range|].
  intros k Hk E. apply ring_slot_inj in E; lia.
Qed.

Lemma on_ring_run {A} (m : M (array Z) A) s r a : m (ring_ s) = (Ok a, r) →
  on_ring m s = (Ok a, set_ring r s).
Proof. intros E. unfold on_ring, zoom. by rewrite E. Qed.

Lemma set_ring_id s : set_ring (ring_ s) s = s.
Proof. by destruct s. Qed.

Lemma sim_head_ok s p c : receiver_ok s p c → simulator_ s = SimHead →
  ∃ s', simulate_step s = (Ok tt, s') ∧ receiver_ok s' p c ∧ advances s s'.
Proof.
  intros R Hpc. pose proof (ro_simulator _ _ _ R) as Hs. pose proof (ro_bytes _ _ _ R) as Hb.
  unfold simulator_ok in Hs. unfold simulate_step, advances, work_left, simulator_work.
  unfold mbind at 1, M_bind at 1. cbn [get_state]. rewrite Hpc in *.
  destruct (data_ s) as [|b0 [|b1 data]] eqn:Hd;
    try (eexists; split; [done|]; split; [|done]; destruct R;
         constructor; try done; cbn; by rewrite ?Hd).
  apply Forall_cons in Hb as [Hb0 Hb1]. apply Forall_cons in Hb1 as [Hb1 Hb].
  rewrite (file_messages_cons b0 b1 data Hb0 Hb1) in *. cbv zeta in *.
  destruct (Z.of_nat (length data) <? _) eqn:El; eexists; (split; [done|]);
    (split; [|work_step]); destruct R; constructor; try done.
  apply Z.ltb_ge in El. unfold simulator_ok. cbn [simulator_ set_simulator data_].
  eexists. split_and!; [|done|done]. lia.
Qed.

Lemma sim_wait_ok s p c n : receiver_ok s p c → simulator_ s = SimWait n →
  ∃ s', simulate_step s = (Ok tt, s') ∧ receiver_ok s' p c ∧ (s' = s ∧ p = (c + 4096)%nat ∨ advances s s').
Proof.
  intros R Hpc. pose proof (ro_simulator _ _ _ R) as Hs. unfold simulator_ok in Hs.
  destruct (ro_window _ _ _ R) as [Hw Hp].
  unfold simulate_step, advances, work_left, simulator_work.
  unfold mbind at 1, M_bind at 1. cbn [get_state]. rewrite Hpc in *.
  rewrite (ro_frame_idx _ _ _ R). destruct (decide (p = c + 4096)%nat) as [->|Hne].
  - destruct (frame_full s _ c R) as (m & _ & _ & Hu & _); [lia|].
    rewrite <- ring_slot_wrap in Hu.
    mstep (on_ring_run _ s _ _ (load_status _ _ _ Hu ltac:(done))). rewrite set_ring_id. eauto 6.
  - pose proof (ring_slot_free _ _ _ R ltac:(lia)) as Hk.
    mstep (on_ring_run _ s _ _ (load_status _ _ _ Hk ltac:(done))). rewrite set_ring_id.
    eexists. split; [done|]. split; [|right; work_step].
    pose proof (ro_frame_idx _ _ _ R).
    destruct R; constructor; try done. split; [done|lia].
Qed.

(** The frames after a change of the one frame [i]. *)
Lemma full_frames s p c r' i : receiver_ok s p c → only_frame i (ring_ s) r' →
  ∀ k m, (c ≤ k < p)%nat → ring_slot k ≠ i → ms !! k = Some m →
  status_at r' (ring_slot k) TP_STATUS_USER ∧ message_at r' (ring_slot k) m.
Proof.
  intros R Ho k m Hk Hi Hm. destruct (ro_full _ _ _ R k m Hk Hm) as [Hu Hmsg].
  split; [by eapply status_frame|]. eapply message_frame; eauto. by eapply fits_lookup.
Qed.

Lemma sim_fill_ok s p c n : receiver_ok s p c → simulator_ s = SimFill n →
  ∃ s', simulate_step s = (Ok tt, s') ∧ receiver_ok s' p c ∧ advances s s'.
Proof.
  intros R Hpc. pose proof (ro_simulator _ _ _ R) as Hs. unfold simulator_ok in Hs.
  unfold simulate_step, advances, work_left, simulator_work.
  unfold mbind at 1, M_bind at 1. cbn [get_state]. rewrite Hpc in *.
  destruct Hs as [(rest & Hn & Hd & Hr) Hroom]. destruct (drop_lookup_cons _ _ _ _ Hd) as [Hlk _].
  rewrite (ro_frame_idx _ _ _ R).
  destruct (fill_frame_run (ring_slot p) (take n (data_ s)) (ring_ s)) as (r' & E & Hok & Hm & Ho & Hst);
    [apply R|apply ring_slot_range|by eapply fits_lookup|].
  mstep (on_ring_run _ s _ _ E). eexists. split; [done|].
  split; [|work_step].
  pose proof (full_frames _ _ _ _ _ R Ho) as Hfull. pose proof (ro_frame_idx _ _ _ R) as Hidx.
  pose proof (ring_slot_free _ _ _ R Hroom) as Hfree.
  destruct R as [Rr Rb Rw Rf Rc Rt Rfull Rfree Rs Rp Rh]. constructor; try done.
  - intros k m Hk. apply Hfull; [done|]. intros Ek. apply ring_slot_inj in Ek; lia.
  - intros i Hi Hne. cbn. destruct (decide (i = ring_slot p)) as [->|Hip]; [by apply Hst|].
    eapply status_frame; [done|congruence|by apply Rfree].
  - unfold simulator_ok. cbn. split_and!; [by exists rest|done|done].
Qed.

Lemma sim_publish_ok s p c n : receiver_ok s p c → simulator_ s = SimPublish n →
  ∃ s', simulate_step s = (Ok tt, s') ∧ receiver_ok s' (S p) c ∧ advances s s'.
Proof.
  intros R Hpc. pose proof (ro_simulator _ _ _ R) as Hs. unfold simulator_ok in Hs.
  unfold simulate_step, advances, work_left, simulator_work.
  unfold mbind at 1, M_bind at 1. cbn [get_state]. rewrite Hpc in *.
  destruct Hs as ((rest & Hn & Hd & Hr) & Hroom & Hmsg).
  destruct (drop_lookup_cons _ _ _ _ Hd) as [Hlk Hd']. pose proof (lookup_lt_Some _ _ _ Hlk).
  rewrite (ro_frame_idx _ _ _ R).
  destruct (set_status_run (ring_slot p) TP_STATUS_USER (ring_ s)) as (r' & E & Hok & Hst & Ho & Hm);
    [apply R|apply ring_slot_range|].
  mstep (on_ring_run _ s _ _ E). eexists. split; [done|].
  split; [|work_step].
  pose proof (full_frames _ _ _ _ _ R Ho) as Hfull. pose proof (ro_frame_idx _ _ _ R) as Hidx.
  destruct R as [Rr Rb Rw Rf Rc Rt Rfull Rfree Rs Rp Rh]. constructor; try done.
  - by apply Forall_drop.
  - lia.
  - apply ring_slot_S.
  - intros k m Hk Hkm. cbn. destruct (decide (k = p)) as [->|Hkp].
    + simplify_eq. split; [done|]. by apply Hm.
    + apply Hfull; [lia| |done]. intros Ek. apply ring_slot_inj in Ek; lia.
  - intros i Hi Hne. cbn. eapply status_frame; [done| |].
    + intros Ei. apply (Hne p); [lia|done].
    + apply Rfree; [done|]. intros k Hk. apply Hne. lia.
  - unfold simulator_ok. cbn. by rewrite Hd'.
  - unfold poller_ok in *. cbn. destruct (poller_ s); naive_solver lia.
Qed.

Lemma simulate_step_ok s p c : receiver_ok s p c →
  ∃ s' p', simulate_step s = (Ok tt, s') ∧ receiver_ok s' p' c ∧ progress s s'.
Proof.
  intros R. destruct (simulator_ s) as [|n|n|n|] eqn:Hpc.
  - destruct (sim_head_ok _ _ _ R Hpc) as (s' & ? & ? & ?). unfold progress. eauto 7.
  - destruct (sim_wait_ok _ _ _ _ R Hpc) as (s' & ? & ? & [[? _]|?]); unfold progress; eauto 7.
  - destruct (sim_fill_ok _ _ _ _ R Hpc) as (s' & ? & ? & ?). unfold progress. eauto 7.
  - destruct (sim_publish_ok _ _ _ _ R Hpc) as (s' & ? & ? & ?). unfold progress. eauto 7.
  - exists s, p. split; [|by split; [|left]]. unfold simulate_step, mbind, M_bind. cbn. by rewrite Hpc.
Qed.

(** ** The poller *)

Context (hN : H).
Hypothesis Hrun : handle_blocks ms h0 = (Ok tt, hN).

(** The handler returns on every block it is given. *)
Lemma handle_next k m h : ms !! k = Some m → handle_blocks (take k ms) h0 = (Ok tt, h) →
  ∃ h', handle_block m h = (Ok tt, h') ∧ handle_blocks (take (S k) ms) h0 = (Ok tt, h').
Proof.
  intros Hm Hh. pose proof Hrun as Hr. rewrite <- (take_drop_middle _ _ _ Hm) in Hr.
  rewrite handle_blocks_app in Hr. rewrite (bind_ok _ _ _ _ _ Hh) in Hr. cbn [handle_blocks] in Hr.
  destruct (handle_block m h) as [[[]| | |] h1] eqn:E;
    unfold mbind, M_bind in Hr; rewrite E in Hr; try done.
  exists h1. split; [done|]. rewrite (take_S_r _ _ _ Hm), handle_blocks_app, (bind_ok _ _ _ _ _ Hh).
  cbn [handle_blocks]. by rewrite (bind_ok _ _ _ _ _ E).
Qed.

Lemma poll_wait_ok s p c : receiver_ok s p c → poller_ s = PollWait →
  ∃ s', poll_step s = (Ok tt, s') ∧ receiver_ok s' p c ∧ (s' = s ∧ c = p ∨ advances s s').
Proof.
  intros R Hpc. pose proof (ro_poller _ _ _ R) as Hp. unfold poller_ok in Hp.
  destruct (ro_window _ _ _ R) as [Hw Hl].
  unfold poll_step, advances, work_left, poller_work.
  unfold mbind at 1, M_bind at 1. cbn [get_state]. rewrite Hpc in *. rewrite (ro_curr_idx _ _ _ R).
  destruct (decide (c = p)%nat) as [->|Hne].
  - pose proof (ring_slot_free _ _ _ R ltac:(lia)) as Hk.
    mstep (on_ring_run _ s _ _ (load_status _ _ _ Hk ltac:(done))). rewrite set_ring_id. eauto 6.
  - destruct (frame_full s p c R) as (m & _ & _ & Hu & _); [lia|].
    mstep (on_ring_run _ s _ _ (load_status _ _ _ Hu ltac:(done))). rewrite set_ring_id.
    eexists. split; [done|]. split.
    + destruct R; constructor; try done. split; [done|lia].
    + right. unfold simulator_work. cbn -[file_messages Nat.mul]. rewrite Hp, length_take. lia.
Qed.

Lemma poll_parse_ok s p c : receiver_ok s p c → poller_ s = PollParse →
  ∃ s', poll_step s = (Ok tt, s') ∧ receiver_ok s' p c ∧ advances s s'.
Proof.
  intros R Hpc. pose proof (ro_poller _ _ _ R) as Hp. unfold poller_ok in Hp.
  unfold poll_step, advances, work_left, poller_work.
  unfold mbind at 1, M_bind at 1. cbn [get_state]. rewrite Hpc in *. destruct Hp as [Hh Hc].
  destruct (frame_full s p c R Hc) as (m & Hlk & Hf & _ & Hm). pose proof (lookup_lt_Some _ _ _ Hlk).
  rewrite (ro_curr_idx _ _ _ R).
  mstep (on_ring_run _ s _ _ (frame_block_run _ _ _ Hm Hf)). rewrite set_ring_id.
  pose proof (ro_handler _ _ _ R) as Hd. rewrite Hh in Hd.
  destruct (handle_next _ _ _ Hlk Hd) as (h' & E & E').
  assert (on_handler (handle_block m) s = (Ok tt, set_handler h' s)) as Eh.
  { unfold on_handler, zoom. by rewrite E. }
  mstep Eh. eexists. split; [done|]. split.
  - destruct R; constructor; try done.
    + unfold poller_ok. cbn. by rewrite Hh, (take_S_r _ _ _ Hlk).
    + cbn. by rewrite Hh, <- (take_S_r _ _ _ Hlk).
  - unfold simulator_work. cbn -[file_messages Nat.mul].
    rewrite Hh, length_app, length_take. cbn -[Nat.mul]. lia.
Qed.

Lemma poll_release_ok s p c : receiver_ok s p c → poller_ s = PollRelease →
  ∃ s', poll_step s = (Ok tt, s') ∧ receiver_ok s' p (S c) ∧ advances s s'.
Proof.
  intros R Hpc. pose proof (ro_poller _ _ _ R) as Hp. unfold poller_ok in Hp.
  unfold poll_step, advances, work_left, poller_work.
  unfold mbind at 1, M_bind at 1. cbn [get_state]. rewrite Hpc in *. destruct Hp as [Hh Hc].
  rewrite (ro_curr_idx _ _ _ R).
  destruct (set_status_run (ring_slot c) TP_STATUS_KERNEL (ring_ s)) as (r' & E & Hok & Hst & Ho & Hm);
    [apply R|apply ring_slot_range|].
  mstep (on_ring_run _ s _ _ E). eexists. split; [done|].
  split; [|unfold simulator_work; cbn -[file_messages Nat.mul]; lia].
  pose proof (full_frames _ _ _ _ _ R Ho) as Hfull. pose proof (ro_curr_idx _ _ _ R) as Hidx.
  destruct R as [Rr Rb Rw Rf Rc Rt Rfull Rfree Rs Rp Rh]. constructor; try done.
  - lia.
  - cbn. rewrite Rc. apply ring_slot_S.
  - cbn. rewrite Rt. unfold u64, uwrap. rewrite Zplus_mod_idemp_l. f_equal. lia.
  - intros k m Hk. apply Hfull; [lia|]. intros Ek. apply ring_slot_inj in Ek; lia.
  - intros i Hi Hne. cbn. destruct (decide (i = ring_slot c)) as [->|Hic]; [done|].
    eapply status_frame; [done|congruence|]. apply Rfree; [done|]. intros k Hk.
    destruct (decide (k = c)) as [->|]; [done|]. apply Hne. lia.
  - unfold simulator_ok in *. cbn. destruct (simulator_ s) as [|n|n|n|]; try done.
    + destruct Rs. split; [done|lia].
    + destruct Rs as (? & ? & Hmsg). split_and!; [done|lia|].
      destruct Rw. eapply message_frame; [done| |by eapply fits_lookup, proj1, drop_lookup_cons; naive_solver|done].
      intros Ek. apply ring_slot_inj in Ek; lia.
Qed.

Lemma poll_step_ok s p c : receiver_ok s p c →
  ∃ s' c', poll_step s = (Ok tt, s') ∧ receiver_ok s' p c' ∧ progress s s'.
Proof.
  intros R. destruct (poller_ s) eqn:Hpc.
  - destruct (poll_wait_ok _ _ _ R Hpc) as (s' & ? & ? & [[? _]|?]); unfold progress; eauto 7.
  - destruct (poll_parse_ok _ _ _ R Hpc) as (s' & ? & ? & ?). unfold progress. eauto 7.
  - destruct (poll_release_ok _ _ _ R Hpc) as (s' & ? & ? & ?). unfold progress. eauto 7.
Qed.

Lemma thread_step_ok t s p c : receiver_ok s p c →
  ∃ s' p' c', thread_step t s = (Ok tt, s') ∧ receiver_ok s' p' c' ∧ progress s s'.
Proof.
  intros R. destruct t; cbn [thread_step].
  - destruct (simulate_step_ok s p c R) as (s' & p' & ?). eauto.
  - destruct (poll_step_ok s p c R) as (s' & c' & ?). eauto.
Qed.

(** ** Schedules *)

(** The file is read and every message handled. *)
Definition finished s : Prop :=
  simulator_ s = SimDone ∧ poller_ s = PollWait ∧ handled_ s = ms.

Lemma poller_advances s p c : receiver_ok s p c → (c < p)%nat ∨ poller_ s ≠ PollWait →
  ∃ s', poll_step s = (Ok tt, s') ∧ advances s s'.
Proof.
  intros R Hc. destruct (poller_ s) eqn:Hpc.
  - destruct (poll_wait_ok _ _ _ R Hpc) as (s' & ? & ? & [[_ ->]|?]); [|eauto]. destruct Hc; [lia|done].
  - destruct (poll_parse_ok _ _ _ R Hpc) as (s' & ? & ? & ?). eauto.
  - destruct (poll_release_ok _ _ _ R Hpc) as (s' & ? & ? & ?). eauto.
Qed.

(** The two threads never wait for each other. *)
Lemma not_stuck s p c : receiver_ok s p c →
  finished s ∨ ∃ t s', thread_step t s = (Ok tt, s') ∧ advances s s'.
Proof.
  intros R. destruct (ro_window _ _ _ R) as [Hw Hp].
  pose proof (ro_simulator _ _ _ R) as Hs. pose proof (ro_poller _ _ _ R) as Hl.
  assert ((∃ s', poll_step s = (Ok tt, s') ∧ advances s s') →
          ∃ t s', thread_step t s = (Ok tt, s') ∧ advances s s') as Hpoll.
  { intros (s' & ?). by exists Poller, s'. }
  destruct (simulator_ s) as [|n|n|n|] eqn:Hpc.
  - destruct (sim_head_ok _ _ _ R Hpc) as (s' & ? & _ & ?). right. by exists Simulator, s'.
  - destruct (sim_wait_ok _ _ _ _ R Hpc) as (s' & ? & _ & [[_ ->]|?]); right;
      [|by exists Simulator, s'].
    apply Hpoll. eapply poller_advances; [done|left; lia].
  - destruct (sim_fill_ok _ _ _ _ R Hpc) as (s' & ? & _ & ?). right. by exists Simulator, s'.
  - destruct (sim_publish_ok _ _ _ _ R Hpc) as (s' & ? & _ & ?). right. by exists Simulator, s'.
  - unfold simulator_ok in Hs. rewrite Hpc in Hs. apply (f_equal length) in Hs.
    rewrite length_drop in Hs. simpl in Hs.
    destruct (poller_ s) eqn:Hq.
    + destruct (decide (c < p)%nat) as [Hcp|Hcp].
      { right. apply Hpoll. eapply poller_advances; eauto. }
      left. split_and!; [done|done|]. unfold poller_ok in Hl. rewrite Hq in Hl.
      rewrite Hl, take_ge; [done|lia].
    + right. apply Hpoll. eapply poller_advances; [done|right; congruence].
    + right. apply Hpoll. eapply poller_advances; [done|right; congruence].
Qed.

Lemma run_schedule_ok ts s p c : receiver_ok s p c →
  ∃ s' p' c', run_schedule ts s = (Ok tt, s') ∧ receiver_ok s' p' c' ∧
    (s' = s ∨ (work_left s' < work_left s)%nat).
Proof.
  revert s p c. induction ts as [|t ts IH]; intros s p c R; [by exists s, p, c; eauto|].
  destruct (thread_step_ok t s p c R) as (s1 & p1 & c1 & E1 & R1 & Hpr).
  destruct (IH s1 p1 c1 R1) as (s2 & p2 & c2 & E2 & R2 & Hw).
  exists s2, p2, c2. cbn [run_schedule]. mstep E1. split_and!; [done|done|].
  unfold progress, advances in Hpr. destruct Hpr as [->|], Hw as [->|]; auto; right; lia.
Qed.

(** A round in which both threads step makes progress. *)
Lemma round_advances ts s p c : receiver_ok s p c → Simulator ∈ ts → Poller ∈ ts →
  ∃ s' p' c', run_schedule ts s = (Ok tt, s') ∧ receiver_ok s' p' c' ∧
    (finished s ∧ s' = s ∨ (work_left s' < work_left s)%nat).
Proof.
  intros R H1 H2. destruct (run_schedule_ok ts s p c R) as (s' & p' & c' & E & R' & [->|Hw]);
    [|eauto 8].
  exists s, p', c'. split_and!; [done|done|]. left. split; [|done].
  destruct (not_stuck s p c R) as [|(t & s1 & Et & Ha)]; [done|exfalso].
  assert (t ∈ ts) as Ht by (by destruct t). clear H1 H2 R'.
  induction ts as [|t' ts IH]; [by apply elem_of_nil in Ht|].
  destruct (thread_step_ok t' s p c R) as (s2 & p2 & c2 & E2 & R2 & [->|Ha2]);
    cbn [run_schedule] in E; rewrite (bind_ok _ _ _ _ _ E2) in E.
  - apply elem_of_cons in Ht as [->|Ht]; [|by apply IH].
    rewrite Et in E2. unfold advances in Ha. simplify_eq. lia.
  - destruct (run_schedule_ok ts s2 p2 c2 R2) as (s3 & ? & ? & E3 & _ & Hw3).
    assert (s3 = s) as -> by congruence.
    unfold advances in Ha2. destruct Hw3 as [<-|]; lia.
Qed.

Lemma run_schedule_app ts1 ts2 s :
  run_schedule (ts1 ++ ts2) s = (run_schedule ts1;; run_schedule ts2) s.
Proof.
  revert s. induction ts1 as [|t ts1 IH]; intros s; [done|]. cbn [app run_schedule].
  rewrite bind_assoc. unfold mbind, M_bind. by destruct (thread_step t s) as [[] ?].
Qed.

(** Enough rounds finish the file, whatever the rounds are. *)
Lemma rounds_finish rounds s p c : receiver_ok s p c →
  Forall (λ ts, Simulator ∈ ts ∧ Poller ∈ ts) rounds → (work_left s ≤ length rounds)%nat →
  ∃ s' p' c', run_schedule (concat rounds) s = (Ok tt, s') ∧ receiver_ok s' p' c' ∧ finished s'.
Proof.
  intros R Hr. revert s p c R. induction Hr as [|ts rounds [H1 H2] _ IH]; intros s p c R Hl.
  - exists s, p, c. split_and!; [done|done|]. destruct (not_stuck s p c R) as [|(t & s1 & _ & Ha)]; [done|].
    unfold advances in Ha. simpl in Hl. lia.
  - destruct (round_advances ts s p c R H1 H2) as (s1 & p1 & c1 & E1 & R1 & Hw).
    assert (∀ ts', run_schedule (ts ++ ts') s = run_schedule ts' s1) as Happ.
    { intros ts'. by rewrite run_schedule_app, (bind_ok _ _ _ _ _ E1). }
    cbn [concat]. rewrite Happ. destruct Hw as [[Hf ->]|Hw].
    + destruct (run_schedule_ok (concat rounds) s p1 c1 R1) as (s2 & p2 & c2 & E2 & R2 & Hw2).
      exists s2, p2, c2. split_and!; [done|done|]. destruct Hw2 as [->|Hw2]; [done|].
      destruct Hf as (Hf1 & Hf2 & Hf3).
      unfold work_left, simulator_work, poller_work in Hw2. rewrite Hf1, Hf2, Hf3 in Hw2. lia.
    + apply (IH s1 p1 c1 R1). simpl in Hl. lia.
Qed.
End Invariant.

Lemma new_ring_status i : 0 ≤ i < RX_FRAME_NR →
  status_at (anew (RX_BLOCK_SIZE * RX_BLOCK_NR) 0) i TP_STATUS_KERNEL.
Proof.
  intros Hi. apply read_bytes_Some. split; [done|]. intros k Hk.
  rewrite (aget_anew _ 0) by (offsets; lia). by do 4 (destruct k as [|k]; [done|]); lia.
Qed.

Lemma new_receiver_ok {H} `{!BlockHandler H} (h : H) file s : Forall is_byte file →
  MulticastReceiver_new h true true file = Ok s → receiver_ok h (file_messages file) s 0 0.
Proof.
  intros Hb [= <-]. constructor; cbn -[file_messages]; try done; try lia.
  intros i Hi _. by apply new_ring_status.
Qed.

(** A fair schedule that is long enough. *)
Lemma rounds_run {H} `{!BlockHandler H} (h hN : H) file s rounds :
  Forall is_byte file → Forall fits (file_messages file) →
  handle_blocks (file_messages file) h = (Ok tt, hN) →
  MulticastReceiver_new h true true file = Ok s →
  Forall (λ ts, Simulator ∈ ts ∧ Poller ∈ ts) rounds →
  (7 * length (file_messages file) + 1 ≤ length rounds)%nat →
  ∃ s' p c, run_schedule (concat rounds) s = (Ok tt, s') ∧
    receiver_ok h (file_messages file) s' p c ∧ finished (file_messages file) s'.
Proof.
  intros Hb Hf Hrun Hnew Hr Hl.
  eapply (rounds_finish h (file_messages file) Hf hN Hrun rounds s 0 0); [by apply new_receiver_ok|done|].
  injection Hnew as <-. unfold work_left, simulator_work, poller_work.
  cbn -[file_messages Nat.mul]. lia.
Qed.

Lemma finished_handler {H} `{!BlockHandler H} (h hN : H) ms s p c :
  handle_blocks ms h = (Ok tt, hN) → receiver_ok h ms s p c → finished ms s → handler_ s = hN.
Proof.
  intros Hrun R (_ & _ & Hh). pose proof (ro_handler _ _ _ _ _ R) as E. congruence.
Qed.

(** * The theorems *)

(** Delivery in order: whatever the interleaving of the two threads, no step
    goes outside the ring, and the blocks given to the handler so far are the
    first messages of the file, in order, none lost, repeated or mixed.  The
    messages must fit a frame and the handler must return on them. *)
Theorem ring_delivers_in_order {H} `{!BlockHandler H} (h hN : H) file s ts :
  Forall is_byte file → Forall fits (file_messages file) →
  handle_blocks (file_messages file) h = (Ok tt, hN) →
  MulticastReceiver_new h true true file = Ok s →
  ∃ s' k, run_schedule ts s = (Ok tt, s') ∧ handled_ s' = take k (file_messages file) ∧
    handle_blocks (take k (file_messages file)) h = (Ok tt, handler_ s').
Proof.
  intros Hb Hf Hrun Hnew.
  destruct (run_schedule_ok h (file_messages file) Hf hN Hrun ts s 0 0) as (s' & p & c & E & R & _);
    [by apply new_receiver_ok|].
  assert (∃ k, handled_ s' = take k (file_messages file)) as [k Hk].
  { pose proof (ro_poller _ _ _ _ _ R) as Hp. unfold poller_ok in Hp.
    destruct (poller_ s'); naive_solver. }
  exists s', k. split_and!; [done|done|]. rewrite <- Hk. apply (ro_handler _ _ _ _ _ R).
Qed.

(** A handler that counts the bytes of its blocks. *)
#[local] Instance counting_handler : BlockHandler Z := λ block n, (Ok tt, n + Z.of_nat (length block)).

Definition sample_file : list Z := [0; 3; 1; 2; 3; 0; 0; 0; 2; 9; 8; 0; 5; 1].

Lemma ring_delivers_in_order_witness :
  match MulticastReceiver_new 0 true true sample_file with
  | Ok s => ∃ s' k, run_schedule [Simulator; Poller; Simulator; Simulator; Simulator; Poller; Poller] s
                    = (Ok tt, s') ∧ handled_ s' = take k [[1; 2; 3]; []; [9; 8]]
  | _ => False
  end.
Proof.
  destruct (MulticastReceiver_new 0 true true sample_file) as [s| | |] eqn:E; try done.
  destruct (ring_delivers_in_order 0 5 sample_file s
    [Simulator; Poller; Simulator; Simulator; Simulator; Poller; Poller]) as (s' & k & H1 & H2 & _);
    [apply (bool_decide_unpack _); by vm_compute|repeat constructor; by vm_compute
    |by vm_compute|done|by exists s', k].
Defined.

(** The whole file is delivered: any schedule that contains seven rounds for
    each message and one more, a round being a stretch in which both threads
    step at least once, ends with the file read to its end, every message
    handled and the poller waiting: the threads do not deadlock. *)
Theorem ring_delivers_whole_file {H} `{!BlockHandler H} (h hN : H) file s rounds :
  Forall is_byte file → Forall fits (file_messages file) →
  handle_blocks (file_messages file) h = (Ok tt, hN) →
  MulticastReceiver_new h true true file = Ok s →
  Forall (λ ts, Simulator ∈ ts ∧ Poller ∈ ts) rounds →
  (7 * length (file_messages file) + 1 ≤ length rounds)%nat →
  ∃ s', run_schedule (concat rounds) s = (Ok tt, s') ∧ simulator_ s' = SimDone ∧
    handled_ s' = file_messages file ∧ handler_ s' = hN.
Proof.
  intros Hb Hf Hrun Hnew Hr Hl.
  destruct (rounds_run h hN file s rounds Hb Hf Hrun Hnew Hr Hl) as (s' & p & c & E & R & Hfin).
  exists s'. split_and!; [done|apply Hfin..|by eapply finished_handler].
Qed.

Lemma ring_delivers_whole_file_witness :
  match MulticastReceiver_new 0 true true sample_file with
  | Ok s => ∃ s', run_schedule (concat (replicate 22 [Poller; Simulator])) s = (Ok tt, s') ∧
                  handled_ s' = [[1; 2; 3]; []; [9; 8]] ∧ handler_ s' = 5
  | _ => False
  end.
Proof.
  destruct (MulticastReceiver_new 0 true true sample_file) as [s| | |] eqn:E; try done.
  destruct (ring_delivers_whole_file 0 5 sample_file s (replicate 22 [Poller; Simulator]))
    as (s' & H1 & _ & H2 & H3);
    [apply (bool_decide_unpack _); by vm_compute|repeat constructor; by vm_compute
    |by vm_compute|done| |by vm_compute|by exists s'].
  apply Forall_replicate. set_solver.
Defined.

(** A message that does not fit: [simulate_packets] does not compare the
    length prefix (up to 65535) with the room of a frame (2016 bytes).  A
    longer message overwrites the header of the next frame: its status gets
    the low byte from the message, so a frame can be given to the poller, or
    taken from it, by the data.  In the last frames the copy leaves the
    ring. *)
Theorem oversized_message_corrupts_ring i m r : ring_ok r → 0 ≤ i < RX_FRAME_NR →
  2016 < Z.of_nat (length m) →
  if i * RX_FRAME_SIZE + 32 + Z.of_nat (length m) <=? RX_FRAME_NR * RX_FRAME_SIZE
  then ∃ r', fill_frame (i * RX_FRAME_SIZE) m r = (Ok tt, r') ∧
             r'.[(i + 1) * RX_FRAME_SIZE + off_tp_status] = m !! 2016%nat
  else (fill_frame (i * RX_FRAME_SIZE) m r).1 = UB.
Proof.
  intros Hok Hi Hm. destruct (fill_header_run i m r Hok Hi) as (r1 & -> & Hok1 & _).
  destruct (Z.leb_spec (i * RX_FRAME_SIZE + 32 + Z.of_nat (length m)) (RX_FRAME_NR * RX_FRAME_SIZE)).
  - destruct (ring_store_run r1 (i * RX_FRAME_SIZE + 32) m) as (r2 & E & W & L);
      [offsets; lia|offsets; lia|].
    exists r2. split; [done|]. rewrite (write_bytes_get _ _ _ _ _ W). offsets.
    case_decide; [f_equal; lia|lia].
  - unfold ring_store_bytes. munfold. rewrite write_bytes_out; [done| |offsets; lia].
    by intros ->.
Qed.

Lemma oversized_message_corrupts_ring_witness :
  ∃ r', fill_frame (0 * RX_FRAME_SIZE) (replicate 2017 1) (anew (RX_BLOCK_SIZE * RX_BLOCK_NR) 0)
        = (Ok tt, r') ∧ r'.[(0 + 1) * RX_FRAME_SIZE + off_tp_status] = Some 1.
Proof.
  apply (oversized_message_corrupts_ring 0 (replicate 2017 1)); [done|done|].
  rewrite length_replicate. lia.
Defined.
