(* ===== verification/Pipeline.v ===== *)
(** The program end to end (src/src/main.cpp): blocks of messages go through
    the parser into the log and the queue, [consume] takes the orders out of
    the queue and dispatches them to the book; after a crash the log is
    replayed into a new book.  In mock mode the blocks are the messages of a
    file that pass through the packet ring (MulticastReceiver.v); a System is
    then the handler of the receiver.

    [drain] is the loop of [consume] run until the queue is empty; the
    measurements around the dispatch are in Telemetry.v, where they are shown
    not to change what the loop does while the perf counters are scheduled.
    An exception of the book is not caught by [consume], so it ends the run.
    [run_blocks] lets the consumer catch up after each block; LivePipeline.v
    has the two threads in any interleaving. *)

From S2P Require Import Prelude Interfaces HierarchicalBitset StaticOrderMap SPSCQueue ItchOrderTypes LimitOrderBook MockOrderBook BookTheorems Crc32 MmapLogger ItchParser ParserTheorems RecoveryEngine MulticastReceiver.

Record System : Type := mkSystem {
  sys_parser : ItchParser;
  sys_book : Book
}.

Definition set_sys_parser (p : ItchParser) (s : System) : System := mkSystem p (sys_book s).
Definition set_sys_book (b : Book) (s : System) : System := mkSystem (sys_parser s) b.
Definition on_parser {A} (m : M ItchParser A) : M System A := zoom sys_parser set_sys_parser m.
Definition on_sys_book {A} (m : M Book A) : M System A := zoom sys_book set_sys_book m.

Section System.
Context (e : Z) (tsc : Z → Z).
Hypothesis He : 0 ≤ e ≤ 63.
#[local] Abbreviation Size := (2 ^ e).

(** [while (true) { while (!queue.pop(order)); dispatch_table[...](book, order); }] *)
Fixpoint drain (fuel : nat) : M System unit :=
  match fuel with
  | O => out_of_fuel
  | S fuel' =>
      popped ← on_parser (on_queue (pop Size));
      match popped with
      | None => mret tt
      | Some order => on_sys_book (dispatch order);; drain fuel'
      end
  end.

(** A block is parsed, then the queue is emptied. *)
Definition process_block (payload : list Z) : M System unit :=
  on_parser (parse_block Size tsc (S (length payload)) payload);;
  drain (S (length payload)).

Fixpoint run_blocks (payloads : list (list Z)) : M System unit :=
  match payloads with
  | [] => mret tt
  | b :: bs => process_block b;; run_blocks bs
  end.

(** * Lemmas *)

Lemma length_omap_le {A B} (f : A → option B) (l : list A) : (length (omap f l) ≤ length l)%nat.
Proof.
  induction l as [|x l IH]; [done|]. cbn [omap list_omap length].
  destruct (f x); cbn [length]; change (list_omap A B f l) with (omap f l); lia.
Qed.

Lemma drain_rep fuel p b b' l : queue_rep Size (queue_ p) l → (length l < fuel)%nat →
  apply_orders l b = (Ok tt, b') →
  ∃ q', drain fuel (mkSystem p b) = (Ok tt, mkSystem (set_queue q' p) b') ∧ queue_rep Size q' [].
Proof.
  revert p b l. induction fuel as [|fuel IH]; intros p b l Hq Hl Happ; [lia|].
  destruct (pop_rep Size (queue_ p) l Hq) as (q1 & Hpop & Hq1).
  assert (on_parser (on_queue (pop Size)) (mkSystem p b) =
    (Ok (hd_error l), mkSystem (set_queue q1 p) b)) as Hrun.
  { unfold on_parser, on_queue, zoom. cbn [sys_parser]. by rewrite Hpop. }
  cbn [drain]. mstep Hrun. destruct l as [|o l]; cbn [hd_error].
  - injection Happ as <-. by exists q1.
  - cbn [apply_orders length] in *. unfold mbind, M_bind in Happ |- *.
    unfold on_sys_book, zoom. cbn [sys_book].
    destruct (dispatch o b) as [[[]|ex| |] b1]; try done.
    destruct (IH (set_queue q1 p) b1 l Hq1 ltac:(lia) Happ) as (q' & Hd & Hq').
    exists q'. split; [|done]. exact Hd.
Qed.

(** A block of whole messages that fits the queue, with the start of the next
    message after it. *)
Definition block_ok (blk : list (list Z) * list Z) : Prop :=
  Forall (λ m, whole_message m = true) blk.1 ∧ incomplete blk.2 = true ∧
  Forall is_byte (concat blk.1 ++ blk.2) ∧ Z.of_nat (length (omap decode blk.1)) ≤ Size - 1.

Definition payload_of (blk : list (list Z) * list Z) : list Z := concat blk.1 ++ blk.2.

Lemma enqueue_all_fits os : Z.of_nat (length os) ≤ Size - 1 → enqueue_all e [] os = os.
Proof.
  intros H. rewrite enqueue_all_take by (simpl; lia). simpl. by rewrite take_ge by lia.
Qed.

Lemma apply_orders_app os1 os2 b b' : apply_orders (os1 ++ os2) b = (Ok tt, b') →
  ∃ b1, apply_orders os1 b = (Ok tt, b1) ∧ apply_orders os2 b1 = (Ok tt, b').
Proof.
  revert b. induction os1 as [|o os1 IH]; intros b; simpl; [by exists b|].
  unfold mbind, M_bind. destruct (dispatch o b) as [[[]|ex| |] b1]; try done. apply IH.
Qed.

Lemma apply_orders_snoc os o b b1 : apply_orders os b = (Ok tt, b1) → apply_orders (os ++ [o]) b = dispatch o b1.
Proof.
  revert b. induction os as [|x os IH]; intros b; cbn [app apply_orders].
  - intros [= <-]. munfold. by destruct (dispatch o b) as [[[]| | |] b1].
  - unfold mbind, M_bind. destruct (dispatch x b) as [[[]| | |] b2]; try done. apply IH.
Qed.

Lemma message_frames_app k ms1 ms2 :
  message_frames tsc k (ms1 ++ ms2) =
  message_frames tsc k ms1 ++ message_frames tsc (k + length ms1) ms2.
Proof.
  revert k. induction ms1 as [|m ms1 IH]; intros k; simpl; [by rewrite Nat.add_0_r|].
  rewrite IH. by rewrite Nat.add_succ_r.
Qed.

Lemma length_message_frames k ms : length (message_frames tsc k ms) = length ms.
Proof. revert k. induction ms; intros k; simpl; auto. Qed.

Lemma process_block_rep blk p frames next b b' : block_ok blk → parser_rep e p frames next [] →
  64 * Z.of_nat (length frames + length blk.1) + 2 ≤ FILE_SIZE →
  apply_orders (omap decode blk.1) b = (Ok tt, b') →
  ∃ p', process_block (payload_of blk) (mkSystem p b) = (Ok tt, mkSystem p' b') ∧
        parser_rep e p' (frames ++ message_frames tsc (length frames) blk.1)
          (fold_left (λ _ m, overrun m) blk.1 next) [].
Proof.
  destruct blk as [ms rest]. intros (Hw & Hrest & Hb & Hsz) Hp Hroom Happ. simpl in *.
  unfold process_block, payload_of. cbn [fst snd].
  pose proof (length_concat_whole ms Hw) as Hlen.
  destruct (parse_block_rep e tsc ms rest (S (length (concat ms ++ rest))) p frames next [])
    as (p1 & Hparse & Hlog & Hq & Hseq); try done.
  { rewrite length_app. lia. }
  rewrite enqueue_all_fits in Hq by done.
  assert (on_parser (parse_block Size tsc (S (length (concat ms ++ rest))) (concat ms ++ rest))
    (mkSystem p b) = (Ok tt, mkSystem p1 b)) as Hrun.
  { unfold on_parser, zoom. cbn [sys_parser]. by rewrite Hparse. }
  destruct (drain_rep (S (length (concat ms ++ rest))) p1 b b' (omap decode ms) Hq) as (q' & Hd & Hq'); try done.
  { pose proof (length_omap_le decode ms). rewrite length_app. lia. }
  exists (set_queue q' p1). split; [by mstep Hrun|]. done.
Qed.

Lemma run_blocks_rep blks p frames next b b' : Forall block_ok blks → parser_rep e p frames next [] →
  64 * Z.of_nat (length frames + length (concat (fst <$> blks))) + 2 ≤ FILE_SIZE →
  apply_orders (omap decode (concat (fst <$> blks))) b = (Ok tt, b') →
  ∃ p', run_blocks (payload_of <$> blks) (mkSystem p b) = (Ok tt, mkSystem p' b') ∧
        parser_rep e p' (frames ++ message_frames tsc (length frames) (concat (fst <$> blks)))
          (fold_left (λ _ m, overrun m) (concat (fst <$> blks)) next) [].
Proof.
  intros Hblks. revert p frames next b.
  induction Hblks as [|blk blks Hblk _ IH]; intros p frames next b Hp Hroom Happ.
  - injection Happ as <-. exists p. simpl. by rewrite app_nil_r.
  - cbn [fmap list_fmap concat] in *. rewrite omap_app in Happ. rewrite length_app in Hroom.
    apply apply_orders_app in Happ as (b1 & Happ1 & Happ2).
    destruct (process_block_rep blk p frames next b b1 Hblk Hp) as (p1 & Hrun1 & Hp1);
      [lia|done|].
    destruct (IH p1 _ _ b1 Hp1) as (p2 & Hrun2 & Hp2);
      [rewrite length_app, length_message_frames; lia|done|].
    exists p2. split; [cbn [run_blocks]; by mstep Hrun1|].
    rewrite length_app, length_message_frames, <- app_assoc, <- message_frames_app in Hp2.
    by rewrite fold_left_app.
Qed.
End System.

(** ** Recovery of the log *)

(** The log a parser has written can be replayed. *)
Lemma log_recovers e tsc p ms l b b' page_size fuel :
  let next := fold_left (λ _ m, overrun m) ms 0 in
  parser_rep e p (message_frames tsc 0 ms) next l →
  Forall (λ m, whole_message m = true) ms → Forall (Forall is_byte) ms →
  64 * Z.of_nat (length ms) + 2 ≤ FILE_SIZE →
  apply_orders (omap decode ms) b = (Ok tt, b') →
  0 < page_size → (page_size | FILE_SIZE) → next ≠ VALID_FRAME_MARKER → (length ms < fuel)%nat →
  ∃ file, start_ (logger_ p) = Some file ∧
    run_recovery fuel page_size (Some file) true true (RecoveryEngine_new b) =
      (Ok tt, mkEngine b' (report_at (length ms) 0)).
Proof.
  intros next (Hlog & _ & _) Hw Hb Hroom Happ Hpage Hdiv Hnext Hfuel.
  assert (FILE_SIZE = 2 ^ 30) as HF by done. destruct Hlog as (file & L).
  pose proof (lr_curr _ _ _ _ L) as Hcurr. rewrite length_message_frames in Hcurr.
  exists file. split; [apply L|].
  destruct (run_recovery_frames tsc ms page_size file fuel b (Ok tt) b') as (_ & fuel' & ->); try done.
  - by rewrite (lr_len _ _ _ _ L).
  - intros i f Hi. by apply (lr_frames _ _ _ _ L).
  - lia.
  - apply (recover_stop _ _ _ _ next); [|done]. rewrite <- Hcurr. apply (lr_next _ _ _ _ L). lia.
Qed.

Lemma blocks_messages e blks : Forall (block_ok e) blks →
  Forall (λ m, whole_message m = true) (concat (fst <$> blks)) ∧
  Forall (Forall is_byte) (concat (fst <$> blks)).
Proof.
  induction 1 as [|[ms rest] blks (Hw & _ & Hb & _) _ [IH1 IH2]]; [done|].
  cbn [fmap list_fmap concat fst] in *. split; apply Forall_app; split; try done.
  apply Forall_app in Hb as [Hb _]. clear -Hb. induction ms as [|m ms IH]; [done|].
  cbn [concat] in Hb. apply Forall_app in Hb as [Hm Hb]. constructor; auto.
Qed.

(** ** The system as the handler of the receiver *)

Definition system_handler (e : Z) (tsc : Z → Z) : BlockHandler System := process_block e tsc.

Definition one_message (m : list Z) : list (list Z) * list Z := ([m], []).

Lemma handle_blocks_run e tsc ms s :
  handle_blocks (BlockHandler0 := system_handler e tsc) ms s =
  run_blocks e tsc (payload_of <$> (one_message <$> ms)) s.
Proof.
  revert s. induction ms as [|m ms IH]; intros s; [done|]. cbn [handle_blocks run_blocks fmap list_fmap].
  change (payload_of (one_message m)) with ((m ++ []) ++ []). rewrite !app_nil_r.
  unfold mbind, M_bind, handle_block, system_handler. by destruct (process_block e tsc m s) as [[] ?].
Qed.

Lemma one_message_ok e m : 1 ≤ e → whole_message m = true → Forall is_byte m →
  block_ok e (one_message m).
Proof.
  intros He Hw Hb. unfold block_ok, one_message. cbn [fst snd concat]. rewrite !app_nil_r.
  split_and!; [by repeat constructor|done|done|].
  assert (2 ^ 1 ≤ 2 ^ e) by (apply Z.pow_le_mono_r; lia).
  pose proof (length_omap_le decode [m]). simpl (length [m]) in *. lia.
Qed.

Lemma concat_one_message ms : concat (fst <$> (one_message <$> ms)) = ms.
Proof. induction ms as [|m ms IH]; [done|]. cbn. f_equal. exact IH. Qed.

Lemma whole_message_fits m : whole_message m = true → fits m.
Proof.
  destruct m as [|c m]; [done|]. cbn [whole_message]. intros Hw%bool_decide_eq_true_1.
  apply message_length_bound in Hw. unfold fits, RX_FRAME_SIZE. lia.
Qed.

Lemma split_messages_bytes fuel file : Forall is_byte file →
  Forall (Forall is_byte) (split_messages fuel file).
Proof.
  revert file. induction fuel as [|fuel IH]; intros file Hb; [done|].
  destruct file as [|b0 [|b1 rest]]; [done|done|]. cbn [split_messages].
  apply Forall_cons in Hb as [_ Hb]. apply Forall_cons in Hb as [_ Hb].
  destruct (_ <=? _)%nat; [|done]. constructor; [by apply Forall_take|]. by apply IH, Forall_drop.
Qed.

(** * The theorems *)

(** C8 The recovered book is the live book: start with a new log, a new queue
    and a book, feed any sequence of blocks of whole messages (each with at
    most Size - 1 orders, each followed by at most the beginning of a message),
    whose frames and two bytes more fit the log, and let the consumer dispatch
    the orders. If no order throws, and the last message did not leave the byte
    of the marker after its frame, the live book is the result of applying the
    decoded orders in order, and replaying the log file into a copy of the
    initial book ends normally with exactly the live book and reports every
    message. *)
Theorem recovered_book_is_live_book e tsc blks d lg b b' page_size fuel :
  0 ≤ e ≤ 63 → MmapLogger_new true true true true = Ok lg → Forall (block_ok e) blks →
  let ms := concat (fst <$> blks) in
  64 * Z.of_nat (length ms) + 2 ≤ FILE_SIZE →
  apply_orders (omap decode ms) b = (Ok tt, b') →
  0 < page_size → (page_size | FILE_SIZE) →
  fold_left (λ _ m, overrun m) ms 0 ≠ VALID_FRAME_MARKER → (length ms < fuel)%nat →
  ∃ p' file,
    run_blocks e tsc (payload_of <$> blks)
      (mkSystem (ItchParser_new (SPSCQueue_new (2 ^ e) d) lg) b) = (Ok tt, mkSystem p' b') ∧
    start_ (logger_ p') = Some file ∧
    run_recovery fuel page_size (Some file) true true (RecoveryEngine_new b) =
      (Ok tt, mkEngine b' (report_at (length ms) 0)).
Proof.
  intros He Hlg Hblks ms Hroom Happ Hpage Hdiv Hnext Hfuel.
  destruct (run_blocks_rep e tsc He blks (ItchParser_new (SPSCQueue_new (2 ^ e) d) lg) [] 0 b b' Hblks)
    as (p' & Hrun & Hp); [by apply new_parser_rep|done|done|].
  destruct (blocks_messages e blks Hblks) as [Hw Hb].
  destruct (log_recovers e tsc p' ms [] b b' page_size fuel Hp) as (file & Hfile & Hrec); try done.
  by exists p', file.
Qed.

Definition sample_blocks : list (list (list Z) * list Z) :=
  [(replay_messages, [65; 0; 0]); ([encode (NCancel (mkCancelOrder 7 77 0 13 2))], [])].

Lemma recovered_book_is_live_book_witness :
  match new_book 4 4096 true true with
  | Ok b =>
      let ms := concat (fst <$> sample_blocks) in
      let run := apply_orders (omap decode ms) b in
      ∃ p' file,
        run_blocks 2 (λ n, n) (payload_of <$> sample_blocks)
          (mkSystem (ItchParser_new (SPSCQueue_new (2 ^ 2) (NCancel (mkCancelOrder 0 0 0 0 0)))
             (mkLogger (Some (anew FILE_SIZE 0)) 0)) b) = (Ok tt, mkSystem p' run.2) ∧
        start_ (logger_ p') = Some file ∧
        run_recovery 10 4096 (Some file) true true (RecoveryEngine_new b) =
          (Ok tt, mkEngine run.2 (report_at (length ms) 0))
  | _ => False
  end.
Proof.
  destruct (new_book 4 4096 true true) as [b| | |] eqn:E; [|by vm_compute in E..].
  intros ms run.
  assert (apply_orders (omap decode ms) b = (Ok tt, run.2)) as Happ.
  { unfold run. revert E. unfold new_book, StaticOrderMap_new. cbn [negb].
    intros E. injection E as <-. by vm_compute. }
  apply (recovered_book_is_live_book 2 (λ n, n) sample_blocks _ _ b run.2);
    [lia|reflexivity| |by vm_compute|exact Happ|lia|by exists 262144|by vm_compute|vm_compute; lia].
  repeat apply Forall_cons_2; [..|apply Forall_nil_2]; (split_and!;
    [repeat constructor; by vm_compute|by vm_compute|apply (bool_decide_unpack _); by vm_compute
    |by vm_compute]).
Defined.

(** Mock mode from the file to the book: the messages of a file of
    length-prefixed ITCH messages go through the packet ring, the parser, the
    log, the queue and the consumer to the book.  Every fair interleaving of
    the thread that fills the ring and the thread that polls it ends with the
    book that results from applying the decoded orders of the file in order,
    and with a log from which the same book is recovered.  (The consumer empties the queue after each block.) *)
Theorem mock_mode_builds_book e tsc file d lg b b' s rounds page_size fuel :
  let ms := file_messages file in
  1 ≤ e ≤ 63 → MmapLogger_new true true true true = Ok lg → Forall is_byte file →
  Forall (λ m, whole_message m = true) ms → 64 * Z.of_nat (length ms) + 2 ≤ FILE_SIZE →
  apply_orders (omap decode ms) b = (Ok tt, b') →
  MulticastReceiver_new (mkSystem (ItchParser_new (SPSCQueue_new (2 ^ e) d) lg) b) true true file
    = Ok s →
  Forall (λ ts, Simulator ∈ ts ∧ Poller ∈ ts) rounds → (7 * length ms + 1 ≤ length rounds)%nat →
  0 < page_size → (page_size | FILE_SIZE) →
  fold_left (λ _ m, overrun m) ms 0 ≠ VALID_FRAME_MARKER → (length ms < fuel)%nat →
  ∃ s' log, run_schedule (BlockHandler0 := system_handler e tsc) (concat rounds) s = (Ok tt, s') ∧
    sys_book (handler_ s') = b' ∧ start_ (logger_ (sys_parser (handler_ s'))) = Some log ∧
    run_recovery fuel page_size (Some log) true true (RecoveryEngine_new b) =
      (Ok tt, mkEngine b' (report_at (length ms) 0)).
Proof.
  intros ms He Hlg Hbytes Hw Hroom Happ Hnew Hr Hl Hpage Hdiv Hnext Hfuel.
  pose proof (split_messages_bytes (length file) file Hbytes) as Hmb. fold (file_messages file) ms in Hmb.
  assert (Forall (block_ok e) (one_message <$> ms)) as Hblks.
  { apply Forall_fmap. rewrite Forall_forall in Hw, Hmb |- *. intros m Hm.
    apply one_message_ok; [lia|by apply Hw|by apply Hmb]. }
  destruct (run_blocks_rep e tsc ltac:(lia) (one_message <$> ms)
    (ItchParser_new (SPSCQueue_new (2 ^ e) d) lg) [] 0 b b' Hblks) as (p' & Hrun & Hp);
    rewrite ?concat_one_message in *; [apply new_parser_rep; [lia|done]|done|done|].
  rewrite <- handle_blocks_run in Hrun.
  assert (Forall fits ms) as Hfits by (eapply Forall_impl; [exact Hw|apply whole_message_fits]).
  destruct (rounds_run (BlockHandler0 := system_handler e tsc) _ _ file s rounds Hbytes Hfits Hrun Hnew Hr Hl)
    as (s' & pn & cn & E & R & Hfin).
  destruct (log_recovers e tsc p' ms [] b b' page_size fuel Hp) as (log & Hlog & Hrec); try done.
  pose proof (finished_handler _ _ _ _ _ _ Hrun R Hfin) as Hh. exists s', log. by rewrite Hh.
Qed.

(** The messages [replay_messages] with their length prefixes, and the start of
    a message that is cut off. *)
Definition mock_file : list Z :=
  concat ((λ m, [0; Z.of_nat (length m)] ++ m) <$> replay_messages) ++ [0; 36; 65].

Lemma mock_mode_builds_book_witness :
  match new_book 4 4096 true true with
  | Ok b =>
      let run := apply_orders (omap decode (file_messages mock_file)) b in
      match MulticastReceiver_new
              (mkSystem (ItchParser_new (SPSCQueue_new (2 ^ 2) (NCancel (mkCancelOrder 0 0 0 0 0)))
                 (mkLogger (Some (anew FILE_SIZE 0)) 0)) b) true true mock_file with
      | Ok s =>
          ∃ s' log,
            run_schedule (BlockHandler0 := system_handler 2 (λ n, n))
              (concat (replicate 50 [Poller; Simulator])) s = (Ok tt, s') ∧
            sys_book (handler_ s') = run.2 ∧
            start_ (logger_ (sys_parser (handler_ s'))) = Some log ∧
            run_recovery 10 4096 (Some log) true true (RecoveryEngine_new b) =
              (Ok tt, mkEngine run.2 (report_at (length (file_messages mock_file)) 0))
      | _ => False
      end
  | _ => False
  end.
Proof.
  destruct (new_book 4 4096 true true) as [b| | |] eqn:E; [|by vm_compute in E..].
  intros run. destruct (MulticastReceiver_new _ true true mock_file) as [s| | |] eqn:Es; try done.
  assert (apply_orders (omap decode (file_messages mock_file)) b = (Ok tt, run.2)) as Happ.
  { unfold run. revert E. unfold new_book, StaticOrderMap_new. cbn [negb].
    intros E. injection E as <-. by vm_compute. }
  apply (mock_mode_builds_book 2 (λ n, n) mock_file (NCancel (mkCancelOrder 0 0 0 0 0)) _ b run.2 s
    (replicate 50 [Poller; Simulator]) 4096 10 ltac:(lia) eq_refl);
    [apply (bool_decide_unpack _); by vm_compute|repeat constructor; by vm_compute|by vm_compute
    |exact Happ|exact Es|apply Forall_replicate; set_solver|vm_compute; lia|lia|by exists 262144
    |by vm_compute|vm_compute; lia].
Defined.

(** When the queue overflows the recovered book is not the live book: with
    a queue of two slots and a block of two add orders, the second order is
    logged but dropped from the queue, so the live book's best bid is 500
    while the recovered book's is 600. *)
Theorem dropped_order_diverges_from_log :
  let add id price := encode (NAdd (mkAddOrder 0 id 10 price 0 0 (replicate 8 32) char_B)) in
  let payload := add 1 500 ++ add 2 600 in
  match new_book 4 4096 true true, MmapLogger_new true true true true with
  | Ok b, Ok lg =>
      let '(r, s) := run_blocks 1 (λ n, n) [payload]
        (mkSystem (ItchParser_new (SPSCQueue_new (2 ^ 1) (NCancel (mkCancelOrder 0 0 0 0 0))) lg) b) in
      let '(r', en) := run_recovery 10 4096 (start_ (logger_ (sys_parser s))) true true
        (RecoveryEngine_new b) in
      r = Ok tt ∧ r' = Ok tt ∧ (book_best_bid (sys_book s)).1 = Ok 500 ∧
      (book_best_bid (order_book_ en)).1 = Ok 600 ∧ records_processed (report_ en) = 2
  | _, _ => False
  end.
Proof. by vm_compute. Qed.

(** A message longer than the frame's payload area: an imbalance message
    (type I, 50 bytes) whose 49th byte is the marker leaves that byte at the
    start of the next frame.  If it is the last message logged, recovery takes
    the unwritten frame for a torn one. *)
Theorem oversized_message_fakes_torn_write :
  let m := 73 :: replicate 47 0 ++ [VALID_FRAME_MARKER; 0] in
  match new_book 4 4096 true true, MmapLogger_new true true true true with
  | Ok b, Ok lg =>
      let '(r, p) := parse_block (2 ^ 1) (λ n, n) (S (length m)) m
        (ItchParser_new (SPSCQueue_new (2 ^ 1) (NCancel (mkCancelOrder 0 0 0 0 0))) lg) in
      let '(r', en) := run_recovery 10 4096 (start_ (logger_ p)) true true (RecoveryEngine_new b) in
      r = Ok tt ∧ r' = Ok tt ∧ report_ en = mkReport 1 0 true
  | _, _ => False
  end.
Proof. by vm_compute. Qed.
