(* ===== verification/BpfFilter.v ===== *)
(** The packet filter of [network::MulticastReceiver]
    (src/src/network/MulticastReceiver.h, [bpf_code]).

    [bpf_code] is a program for the classic BPF machine of the kernel, which
    runs it on each packet, from the Ethernet header on, and drops the packet
    when the result is 0.  The machine is modelled for the instructions the
    program uses: an accumulator, an index register, loads in network byte
    order, forward jumps and returns; a load outside the packet ends the run
    with 0.

    The theorem says which packets pass, in terms of the fields of their
    headers. *)

From S2P Require Import Prelude.

(** * The machine *)

Record sock_filter : Type := mkInsn {
  bpf_op : Z;
  jt : nat;
  jf : nat;
  k : Z
}.

Definition bpf_code : list sock_filter := [
  mkInsn 0x28 0 0 0x0000000c;
  mkInsn 0x15 0 7 0x00000800;
  mkInsn 0x30 0 0 0x00000017;
  mkInsn 0x15 0 11 0x00000011;
  mkInsn 0x28 0 0 0x00000014;
  mkInsn 0x45 9 0 0x00001fff;
  mkInsn 0xb1 0 0 0x0000000e;
  mkInsn 0x48 0 0 0x00000010;
  mkInsn 0x15 5 6 0x0000e3fa;
  mkInsn 0x15 0 5 0x000086dd;
  mkInsn 0x30 0 0 0x00000014;
  mkInsn 0x15 0 3 0x00000011;
  mkInsn 0x28 0 0 0x00000038;
  mkInsn 0x15 0 1 0x0000e3fa;
  mkInsn 0x6 0 0 0x00040000;
  mkInsn 0x6 0 0 0x00000000].

(** The big-endian number in [n] bytes of the packet. *)
Definition packet_be (pkt : list Z) (off : Z) (n : nat) : option Z :=
  if (0 <=? off) && (off + Z.of_nat n <=? Z.of_nat (length pkt))
  then Some (be_Z (take n (drop (Z.to_nat off) pkt))) else None.

(** One instruction: the next program counter and registers, or the result of
    the run.  An opcode the program does not use has no meaning here. *)
Definition bpf_step (pkt : list Z) (i : sock_filter) (pc : nat) (A X : Z)
    : option ((nat * Z * Z) + Z) :=
  let load off n := match packet_be pkt off n with
                    | Some v => Some (inl (S pc, v, X))
                    | None => Some (inr 0)
                    end in
  let jump (b : bool) := Some (inl ((S pc + if b then jt i else jf i)%nat, A, X)) in
  match bpf_op i with
  | 0x28 => load (k i) 2%nat                  (** ldh [k] *)
  | 0x30 => load (k i) 1%nat                  (** ldb [k] *)
  | 0x48 => load (u32 (X + k i)) 2%nat        (** ldh [x + k] *)
  | 0xb1 => match packet_be pkt (k i) 1 with  (** ldxb 4*([k]&0xf) *)
            | Some v => Some (inl (S pc, A, 4 * Z.land v 15))
            | None => Some (inr 0)
            end
  | 0x15 => jump (A =? k i)                   (** jeq #k *)
  | 0x45 => jump (negb (Z.land A (k i) =? 0)) (** jset #k *)
  | 0x6 => Some (inr (k i))                   (** ret #k *)
  | _ => None
  end.

(** The run of a program; [None] is an unknown opcode, a jump out of the
    program, or exhausted fuel. *)
Fixpoint bpf_run (fuel : nat) (prog : list sock_filter) (pkt : list Z) (pc : nat) (A X : Z)
    : option Z :=
  match fuel with
  | O => None
  | S fuel' =>
      match prog !! pc with
      | None => None
      | Some i =>
          match bpf_step pkt i pc A X with
          | Some (inl (pc', A', X')) => bpf_run fuel' prog pkt pc' A' X'
          | Some (inr r) => Some r
          | None => None
          end
      end
  end.

(** A program with forward jumps only needs no more steps than it has
    instructions. *)
Definition run_filter (pkt : list Z) : option Z :=
  bpf_run (length bpf_code) bpf_code pkt 0 0 0.

(** * The packets that should pass: UDP to port 58362 *)

Definition ether_type (pkt : list Z) : option Z := packet_be pkt 12 2.
Definition ETHERTYPE_IP : Z := 2048.
Definition ETHERTYPE_IPV6 : Z := 34525.
Definition IPPROTO_UDP : Z := 17.
Definition FEED_PORT : Z := 58362.

(** The fields of an IPv4 packet, which starts after 14 bytes. *)
Definition ip_protocol (pkt : list Z) : option Z := packet_be pkt (14 + 9) 1.
Definition ip_fragment_offset (pkt : list Z) : option Z :=
  match packet_be pkt (14 + 6) 2 with Some f => Some (f mod 2 ^ 13) | None => None end.
Definition ip_header_length (pkt : list Z) : option Z :=
  match packet_be pkt 14 1 with Some v => Some (4 * (v mod 16)) | None => None end.
Definition ipv4_dst_port (pkt : list Z) : option Z :=
  match ip_header_length pkt with Some n => packet_be pkt (14 + n + 2) 2 | None => None end.

(** The fields of an IPv6 packet without extension headers. *)
Definition ipv6_next_header (pkt : list Z) : option Z := packet_be pkt (14 + 6) 1.
Definition ipv6_dst_port (pkt : list Z) : option Z := packet_be pkt (14 + 40 + 2) 2.

(** An unfragmented UDP datagram, or the first fragment of one, for the port.
    Of IPv6 those without extension headers: the filter does not look behind
    such headers, and passes no packet that has one. *)
Definition feed_packet (pkt : list Z) : bool :=
  bool_decide (ether_type pkt = Some ETHERTYPE_IP ∧ ip_protocol pkt = Some IPPROTO_UDP ∧
               ip_fragment_offset pkt = Some 0 ∧ ipv4_dst_port pkt = Some FEED_PORT) ||
  bool_decide (ether_type pkt = Some ETHERTYPE_IPV6 ∧ ipv6_next_header pkt = Some IPPROTO_UDP ∧
               ipv6_dst_port pkt = Some FEED_PORT).

Definition ACCEPT_LEN : Z := 262144.

(** * The payload [poll] takes *)

(** In a ring frame the packet starts at [tp_mac] and its network header at
    [tp_net], 14 bytes later; [poll] skips 20 + 8 bytes more. *)
Definition poll_payload_offset : Z := 14 + 20 + 8.

(** Where the payload of the datagram is. *)
Definition udp_payload_offset (pkt : list Z) : option Z :=
  if bool_decide (ether_type pkt = Some ETHERTYPE_IPV6) then Some (14 + 40 + 8)
  else match ip_header_length pkt with Some n => Some (14 + n + 8) | None => None end.

(** * Lemmas *)

Lemma bpf_continue fuel prog pkt pc i A X pc' A' X' : prog !! pc = Some i →
  bpf_step pkt i pc A X = Some (inl (pc', A', X')) →
  bpf_run (S fuel) prog pkt pc A X = bpf_run fuel prog pkt pc' A' X'.
Proof. intros Hi Hs. cbn [bpf_run]. by rewrite Hi, Hs. Qed.

Lemma bpf_return fuel prog pkt pc i A X r : prog !! pc = Some i →
  bpf_step pkt i pc A X = Some (inr r) → bpf_run (S fuel) prog pkt pc A X = Some r.
Proof. intros Hi Hs. cbn [bpf_run]. by rewrite Hi, Hs. Qed.

(** Run the filter up to the next load or test that is not known. *)
Ltac bpf_go := cbn [bpf_run bpf_step bpf_code lookup list_lookup bpf_op k jt jf Nat.add length].

(** The fragment offset and the header length as the filter computes them. *)
Lemma fragment_bits f : Z.land f 8191 = f mod 2 ^ 13.
Proof. change 8191 with (2 ^ 13 - 1). by apply land_mask. Qed.

Lemma header_bits v : Z.land v 15 = v mod 16.
Proof. change 15 with (2 ^ 4 - 1). by apply land_mask. Qed.

Lemma port_offset v : u32 (4 * (v mod 16) + 16) = 14 + 4 * (v mod 16) + 2.
Proof.
  pose proof (Z.mod_pos_bound v 16 ltac:(lia)). unfold u32. rewrite uwrap_id; [lia|].
  unfold in_range. lia.
Qed.

(** From the instruction after the test for IPv4. *)
Lemma filter_ipv4 pkt fuel X :
  bpf_run (8 + fuel) bpf_code pkt 2 ETHERTYPE_IP X =
  Some (if bool_decide (ip_protocol pkt = Some IPPROTO_UDP ∧ ip_fragment_offset pkt = Some 0 ∧
                        ipv4_dst_port pkt = Some FEED_PORT) then ACCEPT_LEN else 0).
Proof.
  unfold ip_protocol, ip_fragment_offset, ipv4_dst_port, ip_header_length.
  change (14 + 9) with 23. change (14 + 6) with 20. bpf_go.
  destruct (packet_be pkt 23 1) as [pr|]; [|by rewrite bool_decide_eq_false_2 by naive_solver].
  bpf_go. destruct (Z.eqb_spec pr 17) as [->|Hpr]; bpf_go;
    [|by rewrite bool_decide_eq_false_2 by naive_solver].
  destruct (packet_be pkt 20 2) as [fr|]; [|by rewrite bool_decide_eq_false_2 by naive_solver].
  bpf_go. rewrite fragment_bits. destruct (Z.eqb_spec (fr mod 2 ^ 13) 0) as [->|Hfr]; cbn [negb]; bpf_go;
    [|by rewrite bool_decide_eq_false_2 by naive_solver].
  destruct (packet_be pkt 14 1) as [v|]; [|by rewrite bool_decide_eq_false_2 by naive_solver].
  bpf_go. rewrite header_bits, port_offset.
  destruct (packet_be pkt (14 + 4 * (v mod 16) + 2) 2) as [port|];
    [|by rewrite bool_decide_eq_false_2 by naive_solver].
  bpf_go. destruct (Z.eqb_spec port 58362) as [->|Hport]; bpf_go.
  - by rewrite bool_decide_eq_true_2.
  - rewrite bool_decide_eq_false_2; [done|]. intros (_ & _ & [=]). done.
Qed.

(** From the test for IPv6. *)
Lemma filter_ipv6 pkt fuel A X :
  bpf_run (7 + fuel) bpf_code pkt 9 A X =
  Some (if bool_decide (A = ETHERTYPE_IPV6 ∧ ipv6_next_header pkt = Some IPPROTO_UDP ∧
                        ipv6_dst_port pkt = Some FEED_PORT) then ACCEPT_LEN else 0).
Proof.
  unfold ipv6_next_header, ipv6_dst_port. change (14 + 40 + 2) with 56. change (14 + 6) with 20. bpf_go.
  destruct (Z.eqb_spec A 34525) as [->|HA]; bpf_go; [|by rewrite bool_decide_eq_false_2 by naive_solver].
  destruct (packet_be pkt 20 1) as [nh|]; [|by rewrite bool_decide_eq_false_2 by naive_solver].
  bpf_go. destruct (Z.eqb_spec nh 17) as [->|Hnh]; bpf_go;
    [|by rewrite bool_decide_eq_false_2 by naive_solver].
  destruct (packet_be pkt 56 2) as [port|]; [|by rewrite bool_decide_eq_false_2 by naive_solver].
  bpf_go. destruct (Z.eqb_spec port 58362) as [->|Hport]; bpf_go.
  - by rewrite bool_decide_eq_true_2.
  - rewrite bool_decide_eq_false_2; [done|]. intros (_ & _ & [=]). done.
Qed.

(** * The theorems *)

(** C26 The filter passes the feed and nothing else: for every packet the
    filter program returns a result, which is its capture length when the
    packet is an IPv4 UDP datagram to port 58362 that is not a later fragment,
    or an IPv6 one whose first header after the fixed one is UDP (an IPv6
    packet with extension headers is not passed), and 0 for every other packet,
    truncated ones included. *)
Theorem bpf_filter_passes_feed pkt :
  run_filter pkt = Some (if feed_packet pkt then ACCEPT_LEN else 0).
Proof.
  unfold run_filter, feed_packet. change (length bpf_code) with (S (S 14)).
  destruct (ether_type pkt) as [et|] eqn:Het; unfold ether_type in Het.
  - erewrite bpf_continue; [|reflexivity|cbn; by rewrite Het].
    erewrite bpf_continue; [|reflexivity|reflexivity]. cbn [k jt jf].
    destruct (Z.eqb_spec et 2048) as [->|Hne]; cbn [Nat.add].
    + rewrite (filter_ipv4 pkt 6), (bool_decide_eq_false_2 (Some 2048 = Some ETHERTYPE_IPV6 ∧ _))
        by (by intros [[=] _]).
      rewrite orb_false_r. repeat case_bool_decide; naive_solver.
    + rewrite (filter_ipv6 pkt 7), (bool_decide_eq_false_2 (Some et = Some ETHERTYPE_IP ∧ _))
        by (intros [[= ->] _]; done).
      cbn [orb]. repeat case_bool_decide; naive_solver.
  - erewrite bpf_return; [|reflexivity|cbn; by rewrite Het].
    by rewrite !bool_decide_eq_false_2 by naive_solver.
Qed.

(** Where [poll] looks for the payload: of the packets the filter passes,
    exactly the IPv4 ones with a header of 20 bytes have their UDP payload at
    the fixed offset of 42 bytes.  A datagram with IP options, or over IPv6, is
    passed too and is given to the parser from the wrong byte on. *)
Theorem poll_offset_needs_plain_header pkt : feed_packet pkt = true →
  udp_payload_offset pkt = Some poll_payload_offset ↔
  ether_type pkt = Some ETHERTYPE_IP ∧ ip_header_length pkt = Some 20.
Proof.
  unfold feed_packet, udp_payload_offset, poll_payload_offset.
  intros [(He & _)%bool_decide_eq_true|(He & _)%bool_decide_eq_true]%orb_true_iff; rewrite He.
  - rewrite bool_decide_eq_false_2 by done.
    destruct (ip_header_length pkt) as [n|]; [|naive_solver].
    split; [intros [= Hn]; split; [done|f_equal; lia]|intros [_ [= ->]]; done].
  - rewrite bool_decide_eq_true_2 by done. split; [intros [=]|intros [[=] _]].
Qed.

(** An IPv4 datagram with four bytes of options. *)
Definition packet_with_options : list Z :=
  replicate 12 0 ++ [8; 0] ++ [70; 0; 0; 36; 0; 0; 0; 0; 64; 17; 0; 0] ++ replicate 12 0 ++
  [0; 9; 227; 250; 0; 12; 0; 0] ++ [83; 0; 0; 0].

Lemma poll_offset_needs_plain_header_witness :
  feed_packet packet_with_options = true ∧
  udp_payload_offset packet_with_options ≠ Some poll_payload_offset.
Proof.
  split; [by vm_compute|]. intros H.
  by apply (poll_offset_needs_plain_header packet_with_options ltac:(by vm_compute)) in H as [_ [=]].
Defined.
