(* ===== verification/MagicBuffer.v ===== *)
(** [utils::MagicBuffer] (src/src/utils/MagicBuffer.h): the byte ring between
    the sockets and their handlers.

    The same [aligned_capacity_] bytes of memory are mapped twice, one after
    the other, so that a run of bytes that passes the end of the first mapping
    continues at its start.  Addresses are offsets from [start_]; the byte at
    address [v] of the doubled range is cell [v] or [v - aligned_capacity_] of
    the memory, and an address outside the doubled range is UB.  The results
    of the system calls of the constructor are arguments of the model.

    The theorem: used within the space it reports, the buffer is a queue of at
    most [aligned_capacity_ - 1] bytes, and every write and every read of it is
    one contiguous run of addresses. *)

From S2P Require Import Prelude.

Record MagicBuffer : Type := mkMagic {
  memory : array Z;
  read_head_ : Z;
  write_head_ : Z;
  aligned_capacity_ : Z
}.

Definition second_half_start_ (b : MagicBuffer) : Z := aligned_capacity_ b.

Definition set_memory (a : array Z) (b : MagicBuffer) : MagicBuffer :=
  mkMagic a (read_head_ b) (write_head_ b) (aligned_capacity_ b).
Definition set_read_head (x : Z) (b : MagicBuffer) : MagicBuffer :=
  mkMagic (memory b) x (write_head_ b) (aligned_capacity_ b).
Definition set_write_head (x : Z) (b : MagicBuffer) : MagicBuffer :=
  mkMagic (memory b) (read_head_ b) x (aligned_capacity_ b).

(** [(capacity + PAGE_SIZE - 1) & ~(PAGE_SIZE - 1)]. *)
Definition align_capacity (page_size capacity : Z) : Z :=
  Z.land (capacity + page_size - 1) (unot 64 (page_size - 1)).

Definition MagicBuffer_new (page_size capacity : Z)
    (memfd_ok truncate_ok reserve_ok map1_ok map2_ok : bool) : outcome MagicBuffer :=
  if capacity =? 0 then
    Throw (logic_error "MagicBuffer(): Unable to create magic buffer of size 0")
  else if negb memfd_ok then
    Throw (runtime_error "MagicBuffer(): Unable to create file descriptor for magic buffer.")
  else if negb truncate_ok then
    Throw (runtime_error "MagicBuffer(): Unable to create magic buffer.")
  else if negb reserve_ok then
    Throw (runtime_error "MagicBuffer(): Unable to mmap, not enough memory.")
  else if negb map1_ok then
    Throw (runtime_error
      "MagicBuffer(): Unexpected error occurred when mapping start of buffer.")
  else if negb map2_ok then
    Throw (runtime_error
      "MagicBuffer(): Unexpected error occurred when mapping second start of buffer.")
  else
    let n := align_capacity page_size capacity in Ok (mkMagic (anew n 0) 0 0 n).

(** A null [start_] is a memory of no byte. *)
Definition null_memory : array Z := anew 0 0.

(** The move constructor: the new buffer and what is left of the old one.  It
    does not initialise the heads: [junk_read] and [junk_write] are the values
    found there. *)
Definition MagicBuffer_move (junk_read junk_write : Z) (other : MagicBuffer)
    : MagicBuffer * MagicBuffer :=
  (mkMagic (memory other) junk_read junk_write (aligned_capacity_ other),
   mkMagic null_memory (read_head_ other) (write_head_ other) (aligned_capacity_ other)).

(** Move assignment: the heads stay addresses of the mapping that is replaced,
    which starts [delta] bytes after the new one. *)
Definition MagicBuffer_move_assign (same_object : bool) (delta : Z) (this other : MagicBuffer)
    : MagicBuffer * MagicBuffer :=
  if same_object then (this, other)
  else (mkMagic (memory other) (read_head_ this + delta) (write_head_ this + delta)
          (aligned_capacity_ other),
        mkMagic null_memory (read_head_ other) (write_head_ other) (aligned_capacity_ other)).

(** The destructor: the number of bytes it unmaps, if any. *)
Definition MagicBuffer_destroy (b : MagicBuffer) : option Z :=
  if alen (memory b) =? 0 then None else Some (aligned_capacity_ b * 2).

Definition read_space_left (b : MagicBuffer) : Z :=
  if read_head_ b <=? write_head_ b then write_head_ b - read_head_ b
  else aligned_capacity_ b - (read_head_ b - write_head_ b).

Definition write_space_left (b : MagicBuffer) : Z := aligned_capacity_ b - 1 - read_space_left b.

Definition advance_write (bytes : Z) : M MagicBuffer unit :=
  b ← get_state;
  let w := write_head_ b + bytes in
  put_state (set_write_head (if second_half_start_ b <=? w then w - aligned_capacity_ b else w) b).

Definition advance_read (bytes : Z) : M MagicBuffer unit :=
  b ← get_state;
  let r := read_head_ b + bytes in
  put_state (set_read_head (if second_half_start_ b <=? r then r - aligned_capacity_ b else r) b).

Definition reset : M MagicBuffer unit :=
  modify (λ b, mkMagic (memory b) 0 0 (aligned_capacity_ b)).

(** The cell behind an address of the doubled mapping. *)
Definition cell_of (b : MagicBuffer) (v : Z) : Z :=
  if v <? aligned_capacity_ b then v else v - aligned_capacity_ b.

(** What the users do through the pointers: a run of stores from
    [get_write_head()], a run of loads from [get_read_head()]. *)
Fixpoint store_run (v : Z) (bytes : list Z) : M MagicBuffer unit :=
  match bytes with
  | [] => mret tt
  | x :: bytes' =>
      b ← get_state;
      a ← of_option (aput (memory b) (cell_of b v) x);
      modify (set_memory a);;
      store_run (v + 1) bytes'
  end.

Fixpoint load_run (v : Z) (n : nat) : M MagicBuffer (list Z) :=
  match n with
  | O => mret []
  | S n' =>
      b ← get_state;
      x ← of_option ((memory b).[cell_of b v]);
      l ← load_run (v + 1) n';
      mret (x :: l)
  end.

(** A producer appends bytes, a consumer takes [n] bytes. *)
Definition produce (bytes : list Z) : M MagicBuffer unit :=
  b ← get_state;
  store_run (write_head_ b) bytes;;
  advance_write (Z.of_nat (length bytes)).

Definition consume_bytes (n : nat) : M MagicBuffer (list Z) :=
  b ← get_state;
  l ← load_run (read_head_ b) n;
  advance_read (Z.of_nat n);;
  mret l.

(** * The represented queue *)

Record buffer_rep (b : MagicBuffer) (l : list Z) : Prop := {
  mb_len : alen (memory b) = aligned_capacity_ b;
  mb_read : 0 ≤ read_head_ b < aligned_capacity_ b;
  mb_write : 0 ≤ write_head_ b < aligned_capacity_ b;
  mb_space : read_space_left b = Z.of_nat (length l);
  mb_data : ∀ j x, l !! j = Some x → (memory b).[cell_of b (read_head_ b + Z.of_nat j)] = Some x
}.

Lemma space_bounds b l : buffer_rep b l → 0 ≤ read_space_left b < aligned_capacity_ b.
Proof.
  intros R. destruct (mb_read _ _ R), (mb_write _ _ R). unfold read_space_left. zcase; lia.
Qed.

(** The end of the stored bytes is the write head. *)
Lemma write_head_cell b l : buffer_rep b l →
  write_head_ b = cell_of b (read_head_ b + Z.of_nat (length l)).
Proof.
  intros R. destruct (mb_read _ _ R), (mb_write _ _ R). pose proof (mb_space _ _ R) as Hs.
  unfold cell_of, read_space_left in *. destruct (Z.leb_spec (read_head_ b) (write_head_ b)); zcase; lia.
Qed.

Lemma store_run_spec b v bytes : alen (memory b) = aligned_capacity_ b →
  0 ≤ v → v + Z.of_nat (length bytes) ≤ 2 * aligned_capacity_ b →
  Z.of_nat (length bytes) ≤ aligned_capacity_ b →
  ∃ a, store_run v bytes b = (Ok tt, set_memory a b) ∧ alen a = aligned_capacity_ b ∧
    (∀ j x, bytes !! j = Some x → a.[cell_of b (v + Z.of_nat j)] = Some x) ∧
    (∀ i, (∀ j, (j < length bytes)%nat → i ≠ cell_of b (v + Z.of_nat j)) → a.[i] = (memory b).[i]).
Proof.
  revert b v. induction bytes as [|x bytes IH]; intros b v Hlen Hv Hend Hcap; cbn [length] in *.
  - exists (memory b). destruct b. split_and!; try done.
  - cbn [store_run]. unfold mbind at 1, M_bind at 1. cbn [get_state].
    assert (0 ≤ cell_of b v < alen (memory b)) as Hcell by (unfold cell_of; zcase; lia).
    rewrite aput_in by done. cbn [of_option]. rewrite bind_mret, bind_modify.
    set (b1 := set_memory (aset (memory b) (cell_of b v) x) b).
    destruct (IH b1 (v + 1)) as (a & Hrun & Hal & Hin & Hout); try done; [lia|simpl; lia|simpl; lia|].
    exists a. split_and!; [done|done| |].
    + intros [|j] y; cbn [lookup list_lookup].
      * intros [= <-]. rewrite Z.add_0_r, Hout; [by apply aget_aset_eq|].
        intros j Hj E. unfold cell_of in E. cbn [aligned_capacity_ b1 set_memory] in E.
        revert E. repeat zcase; lia.
      * intros Hy. replace (v + Z.of_nat (S j)) with (v + 1 + Z.of_nat j) by lia. by apply Hin.
    + intros i Hi. rewrite Hout.
      * apply aget_aset_ne. pose proof (Hi 0%nat ltac:(lia)) as H0. rewrite Z.add_0_r in H0. congruence.
      * intros j Hj. replace (v + 1 + Z.of_nat j) with (v + Z.of_nat (S j)) by lia.
        apply (Hi (S j)). lia.
Qed.

Lemma load_run_spec b v l : (∀ j x, l !! j = Some x → (memory b).[cell_of b (v + Z.of_nat j)] = Some x) →
  load_run v (length l) b = (Ok l, b).
Proof.
  revert v. induction l as [|x l IH]; intros v H; [done|]. cbn [load_run length].
  unfold mbind at 1, M_bind at 1. cbn [get_state].
  pose proof (H 0%nat x eq_refl) as H0. rewrite Z.add_0_r in H0. rewrite H0.
  cbn [of_option]. rewrite bind_mret.
  assert (load_run (v + 1) (length l) b = (Ok l, b)) as Hrun; [|by mstep Hrun].
  apply IH. intros j y Hj. replace (v + 1 + Z.of_nat j) with (v + Z.of_nat (S j)) by lia. by apply H.
Qed.

(** Bytes written from the write head on but not yet counted. *)
Definition staged (b : MagicBuffer) (bytes : list Z) : Prop :=
  Z.of_nat (length bytes) ≤ write_space_left b ∧
  ∀ j x, bytes !! j = Some x → (memory b).[cell_of b (write_head_ b + Z.of_nat j)] = Some x.

Lemma store_staged b l bytes : buffer_rep b l → Z.of_nat (length bytes) ≤ write_space_left b →
  ∃ b', store_run (write_head_ b) bytes b = (Ok tt, b') ∧ buffer_rep b' l ∧ staged b' bytes ∧
        write_head_ b' = write_head_ b ∧ aligned_capacity_ b' = aligned_capacity_ b.
Proof.
  intros R Hsp. pose proof (space_bounds _ _ R) as Hb. pose proof (write_head_cell _ _ R) as Hw.
  destruct (mb_read _ _ R), (mb_write _ _ R). pose proof (mb_space _ _ R) as Hs.
  destruct (store_run_spec b (write_head_ b) bytes) as (a & Hrun & Hal & Hin & Hout);
    [apply R|lia|unfold write_space_left in Hsp; lia|unfold write_space_left in Hsp; lia|].
  exists (set_memory a b). split_and!; [done| |by split|done|done].
  constructor; cbn [memory read_head_ write_head_ aligned_capacity_ set_memory]; try done.
  intros j x Hx. pose proof (lookup_lt_Some _ _ _ Hx). change (cell_of (set_memory a b)) with (cell_of b).
  rewrite Hout; [by apply R|]. intros i Hi. revert Hw. unfold write_space_left in Hsp.
  unfold cell_of. repeat zcase; lia.
Qed.

Lemma commit_staged b l bytes : buffer_rep b l → staged b bytes →
  ∃ b', advance_write (Z.of_nat (length bytes)) b = (Ok tt, b') ∧ buffer_rep b' (l ++ bytes) ∧
        aligned_capacity_ b' = aligned_capacity_ b.
Proof.
  intros R [Hsp Hin]. pose proof (space_bounds _ _ R) as Hb. pose proof (write_head_cell _ _ R) as Hw.
  destruct (mb_read _ _ R), (mb_write _ _ R). pose proof (mb_space _ _ R) as Hs.
  unfold write_space_left in Hsp. unfold advance_write. unfold mbind, M_bind. cbn [get_state put_state].
  eexists. split; [done|]. split; [|done]. unfold second_half_start_, set_write_head.
  constructor; cbn [memory read_head_ write_head_ aligned_capacity_]; try apply R.
  - zcase; lia.
  - rewrite length_app. revert Hs Hsp. unfold read_space_left.
    cbn [memory read_head_ write_head_ aligned_capacity_]. repeat zcase; lia.
  - intros j x [Hx|[Hj Hx]]%lookup_app_Some.
    + by apply R.
    + rewrite <- (Hin _ _ Hx). pose proof (lookup_lt_Some _ _ _ Hx). f_equal. revert Hw.
      unfold cell_of. cbn [aligned_capacity_ read_head_ write_head_]. repeat zcase; lia.
Qed.

Lemma produce_rep b l bytes : buffer_rep b l → Z.of_nat (length bytes) ≤ write_space_left b →
  ∃ b', produce bytes b = (Ok tt, b') ∧ buffer_rep b' (l ++ bytes).
Proof.
  intros R Hsp. destruct (store_staged b l bytes R Hsp) as (b1 & E1 & R1 & S1 & _).
  destruct (commit_staged b1 l bytes R1 S1) as (b2 & E2 & R2 & _).
  exists b2. split; [|done]. unfold produce. unfold mbind at 1, M_bind at 1. cbn [get_state].
  by mstep E1.
Qed.

(** Moving the read head over bytes that are there. *)
Lemma advance_read_rep b l n : buffer_rep b l → Z.of_nat n ≤ read_space_left b →
  ∃ b', advance_read (Z.of_nat n) b = (Ok tt, b') ∧ buffer_rep b' (drop n l) ∧
        (∀ bytes, staged b bytes → staged b' bytes) ∧ aligned_capacity_ b' = aligned_capacity_ b.
Proof.
  intros R Hsp. pose proof (space_bounds _ _ R) as Hb.
  destruct (mb_read _ _ R), (mb_write _ _ R). pose proof (mb_space _ _ R) as Hs.
  unfold advance_read. unfold mbind, M_bind. cbn [get_state put_state].
  eexists. split; [done|]. unfold second_half_start_, set_read_head. split_and!; [|..|done].
  - constructor; cbn [memory read_head_ write_head_ aligned_capacity_]; try apply R.
    + zcase; lia.
    + rewrite length_drop. revert Hs Hsp. unfold read_space_left.
      cbn [memory read_head_ write_head_ aligned_capacity_]. repeat zcase; lia.
    + intros j x Hx. rewrite lookup_drop in Hx. rewrite <- (mb_data _ _ R _ _ Hx). f_equal.
      pose proof (lookup_lt_Some _ _ _ Hx). unfold cell_of.
      cbn [memory read_head_ write_head_ aligned_capacity_]. repeat zcase; lia.
  - intros bytes [Hst Hin]. split; [|done]. revert Hst Hsp. unfold write_space_left, read_space_left.
    cbn [memory read_head_ write_head_ aligned_capacity_]. repeat zcase; lia.
Qed.

Lemma consume_run b l n : buffer_rep b l → (n ≤ length l)%nat →
  consume_bytes n b = (Ok (take n l), (advance_read (Z.of_nat n) b).2).
Proof.
  intros R Hn. unfold consume_bytes. unfold mbind at 1, M_bind at 1. cbn [get_state].
  assert (length (take n l) = n) as Hl by (rewrite length_take; lia).
  pose proof (load_run_spec b (read_head_ b) (take n l)) as Hrun. rewrite Hl in Hrun.
  by mstep (Hrun ltac:(intros j x Hx; apply R; by apply lookup_take_Some in Hx as [? _])).
Qed.

Lemma consume_rep b l n : buffer_rep b l → Z.of_nat n ≤ read_space_left b →
  ∃ b', consume_bytes n b = (Ok (take n l), b') ∧ buffer_rep b' (drop n l).
Proof.
  intros R Hsp. pose proof (mb_space _ _ R) as Hs. rewrite (consume_run b l n R) by lia.
  destruct (advance_read_rep b l n R Hsp) as (b' & E & R' & _). rewrite E. by exists b'.
Qed.

(** * Construction *)

Lemma align_capacity_spec k capacity : 0 ≤ k ≤ 63 → 0 < capacity → capacity + 2 ^ k - 1 < 2 ^ 64 →
  let n := align_capacity (2 ^ k) capacity in
  capacity ≤ n < capacity + 2 ^ k ∧ (2 ^ k | n).
Proof.
  intros Hk Hc Hx n. assert (0 < 2 ^ k) as Hp by (apply Z.pow_pos_nonneg; lia).
  set (x := capacity + 2 ^ k - 1) in *.
  assert (n = x / 2 ^ k * 2 ^ k) as ->.
  { unfold n, align_capacity. fold x. rewrite <- Z.shiftr_div_pow2, <- Z.shiftl_mul_pow2 by lia.
    rewrite <- Z.ldiff_ones_r by lia. replace (2 ^ k - 1) with (Z.ones k) by (rewrite Z.ones_equiv; lia).
    apply Z.bits_inj'. intros i Hi. rewrite Z.land_spec, Z.ldiff_spec.
    destruct (Z.lt_ge_cases i 64) as [Hlt|Hge].
    - by rewrite unot_spec by lia.
    - rewrite (testbit_above 64 x i); [done|unfold in_range; lia|done]. }
  split; [|by exists (x / 2 ^ k)]. pose proof (Z.div_mod x (2 ^ k) ltac:(lia)) as Hdm.
  pose proof (Z.mod_pos_bound x (2 ^ k) Hp). unfold x in *. lia.
Qed.

Lemma MagicBuffer_new_rep k capacity b : 0 ≤ k ≤ 63 → 0 < capacity → capacity + 2 ^ k - 1 < 2 ^ 64 →
  MagicBuffer_new (2 ^ k) capacity true true true true true = Ok b → buffer_rep b [].
Proof.
  intros Hk Hc Hx. unfold MagicBuffer_new. rewrite (proj2 (Z.eqb_neq capacity 0)) by lia.
  intros [= <-]. destruct (align_capacity_spec k capacity Hk Hc Hx) as [Hn _].
  constructor; cbn [memory read_head_ write_head_ aligned_capacity_ alen anew]; try done; lia.
Qed.

(** * Sequences of uses *)

Inductive buffer_op : Type := Produce (bytes : list Z) | Consume (n : nat) | Reset.

(** A user looks at the space before it writes or reads; the result is the
    bytes read, or [None] when there is not enough space or data. *)
Definition run_buffer_op (op : buffer_op) (b : MagicBuffer) : outcome (option (list Z)) * MagicBuffer :=
  match op with
  | Produce bytes =>
      if write_space_left b <? Z.of_nat (length bytes) then (Ok None, b)
      else (produce bytes;; mret (Some [])) b
  | Consume n =>
      if read_space_left b <? Z.of_nat n then (Ok None, b)
      else (l ← consume_bytes n; mret (Some l)) b
  | Reset => (reset;; mret (Some [])) b
  end.

Definition spec_buffer_op (cap : Z) (op : buffer_op) (l : list Z) : outcome (option (list Z)) * list Z :=
  match op with
  | Produce bytes =>
      if cap - 1 <? Z.of_nat (length l + length bytes) then (Ok None, l) else (Ok (Some []), l ++ bytes)
  | Consume n =>
      if (length l <? n)%nat then (Ok None, l) else (Ok (Some (take n l)), drop n l)
  | Reset => (Ok (Some []), [])
  end.

Fixpoint run_buffer_ops (ops : list buffer_op) (b : MagicBuffer)
    : list (outcome (option (list Z))) * MagicBuffer :=
  match ops with
  | [] => ([], b)
  | op :: ops' =>
      let '(r, b1) := run_buffer_op op b in
      let '(rs, b2) := run_buffer_ops ops' b1 in (r :: rs, b2)
  end.

Fixpoint spec_buffer_ops (cap : Z) (ops : list buffer_op) (l : list Z)
    : list (outcome (option (list Z))) * list Z :=
  match ops with
  | [] => ([], l)
  | op :: ops' =>
      let '(r, l1) := spec_buffer_op cap op l in
      let '(rs, l2) := spec_buffer_ops cap ops' l1 in (r :: rs, l2)
  end.

Lemma store_run_capacity v bytes b : aligned_capacity_ (store_run v bytes b).2 = aligned_capacity_ b.
Proof.
  revert v b. induction bytes as [|x bytes IH]; intros v b; [done|]. cbn [store_run]. munfold.
  destruct (aput _ _ _) as [a|]; [|done]. by rewrite IH.
Qed.

Lemma load_run_state v n b : (load_run v n b).2 = b.
Proof.
  revert v. induction n as [|n IH]; intros v; [done|]. cbn [load_run]. munfold.
  destruct ((memory b).[cell_of b v]); [|done]. specialize (IH (v + 1)).
  by destruct (load_run (v + 1) n b) as [[| | |] b1]; simpl in *.
Qed.

Lemma run_buffer_op_capacity op b : aligned_capacity_ (run_buffer_op op b).2 = aligned_capacity_ b.
Proof.
  destruct op as [bytes|n|]; cbn [run_buffer_op]; [| |done].
  - zcase; [done|]. unfold produce, advance_write. munfold.
    pose proof (store_run_capacity (write_head_ b) bytes b) as Hc.
    by destruct (store_run (write_head_ b) bytes b) as [[| | |] b1]; simpl in *.
  - zcase; [done|]. unfold consume_bytes, advance_read. munfold.
    pose proof (load_run_state (read_head_ b) n b) as Hb.
    by destruct (load_run (read_head_ b) n b) as [[| | |] b1]; simpl in *; rewrite Hb.
Qed.

Lemma run_buffer_op_rep op b l : buffer_rep b l →
  (run_buffer_op op b).1 = (spec_buffer_op (aligned_capacity_ b) op l).1 ∧
  buffer_rep (run_buffer_op op b).2 (spec_buffer_op (aligned_capacity_ b) op l).2.
Proof.
  intros R. pose proof (space_bounds _ _ R). pose proof (mb_space _ _ R) as Hs.
  destruct op as [bytes|n|]; cbn [run_buffer_op spec_buffer_op].
  - unfold write_space_left. rewrite Hs.
    destruct (Z.ltb_spec (aligned_capacity_ b - 1) (Z.of_nat (length l + length bytes))).
    + by rewrite (proj2 (Z.ltb_lt _ _)) by lia.
    + rewrite (proj2 (Z.ltb_ge _ _)) by lia.
      destruct (produce_rep b l bytes R) as (b' & Hrun & R'); [unfold write_space_left; lia|].
      by mstep Hrun.
  - rewrite Hs. destruct (Nat.ltb_spec (length l) n).
    + by rewrite (proj2 (Z.ltb_lt _ _)) by lia.
    + rewrite (proj2 (Z.ltb_ge _ _)) by lia.
      destruct (consume_rep b l n R) as (b' & Hrun & R'); [lia|]. by mstep Hrun.
  - split; [done|]. change (buffer_rep (mkMagic (memory b) 0 0 (aligned_capacity_ b)) []).
    destruct (mb_read _ _ R). constructor; cbn [memory read_head_ write_head_ aligned_capacity_];
      (apply R || done || lia).
Qed.

Lemma run_buffer_ops_rep ops b l : buffer_rep b l →
  (run_buffer_ops ops b).1 = (spec_buffer_ops (aligned_capacity_ b) ops l).1.
Proof.
  revert b l. induction ops as [|op ops IH]; intros b l R; cbn [run_buffer_ops spec_buffer_ops]; [done|].
  destruct (run_buffer_op_rep op b l R) as [Hr R1]. pose proof (run_buffer_op_capacity op b) as Hc.
  destruct (run_buffer_op op b) as [r b1], (spec_buffer_op _ op l) as [r' l1]; simpl in *.
  specialize (IH b1 l1 R1). rewrite Hc in IH.
  destruct (run_buffer_ops ops b1), (spec_buffer_ops _ ops l1); simpl in *. congruence.
Qed.

(** C38 The magic buffer is a byte queue: for a page size that is a power of
    two, a new buffer has at least the capacity asked for, rounded up to whole
    pages; any sequence of writes, reads and resets by users that respect the
    reported space returns the bytes in the order they were written, with at
    most [aligned_capacity_ - 1] stored, and every access, also one that runs
    past the end of the first mapping, stays inside the doubled mapping. *)
Theorem magic_buffer_is_byte_queue k capacity b ops :
  0 ≤ k ≤ 63 → 0 < capacity → capacity + 2 ^ k - 1 < 2 ^ 64 →
  MagicBuffer_new (2 ^ k) capacity true true true true true = Ok b →
  capacity ≤ aligned_capacity_ b ∧ (2 ^ k | aligned_capacity_ b) ∧
  (run_buffer_ops ops b).1 = (spec_buffer_ops (aligned_capacity_ b) ops []).1.
Proof.
  intros Hk Hc Hx Hnew. pose proof (MagicBuffer_new_rep k capacity b Hk Hc Hx Hnew) as R.
  split_and!; [| |by apply run_buffer_ops_rep];
    unfold MagicBuffer_new in Hnew; rewrite (proj2 (Z.eqb_neq capacity 0)) in Hnew by lia;
    injection Hnew as <-; destruct (align_capacity_spec k capacity Hk Hc Hx); cbn; lia || done.
Qed.

Lemma magic_buffer_is_byte_queue_witness :
  let b := mkMagic (anew 4 0) 0 0 4 in
  let ops := [Produce [1; 2; 3]; Produce [9]; Consume 2; Produce [4; 5]; Consume 3; Consume 1] in
  (run_buffer_ops ops b).1 = (spec_buffer_ops 4 ops []).1.
Proof.
  intros b ops. apply (magic_buffer_is_byte_queue 2 3 b ops); [lia|lia|by vm_compute|reflexivity].
Defined.
