(* ===== verification/EpollReactor.v ===== *)
(** [network::EpollReactor] (src/src/network/EpollReactor.h).

    Two parts.  The loop that empties a ready socket into its [MagicBuffer]
    and calls the handler, over an interface for handlers ([DataHandler]) and
    a kernel that has, for each socket, the segments that have arrived and what
    comes after them.  And the hand-over of new connections from the thread of
    [wait_for_connections] to the thread of [run], through a queue and an
    eventfd, as the interleaved steps of the two threads.

    Epoll itself is not modelled: the loop starts with a socket that is
    ready. *)

From S2P Require Import Prelude SPSCQueue MagicBuffer.

Definition MAX_CONNECTIONS : Z := 1000.
Definition MAX_BUFFER_SIZE : Z := 4096.

(** * Receiving *)

(** What follows the segments of a socket: nothing yet, the end of the stream,
    or an error. *)
Inductive socket_end : Type := NoMore | PeerClosed | SocketError.

Record Socket : Type := mkSocket {
  segments : list (list Z);
  ending : socket_end
}.

Inductive recv_result : Type := Received (bytes : list Z) | RecvAgain | RecvError.

(** [recv] on a non-blocking stream socket: at most [len] bytes of the first
    segment; with a length of 0 it returns 0. *)
Definition recv (len : Z) (s : Socket) : recv_result * Socket :=
  if len <=? 0 then (Received [], s) else
  match segments s with
  | [] => match ending s with
          | NoMore => (RecvAgain, s)
          | PeerClosed => (Received [], s)
          | SocketError => (RecvError, s)
          end
  | seg :: rest =>
      if Z.of_nat (length seg) <=? len then (Received seg, mkSocket rest (ending s))
      else (Received (take (Z.to_nat len) seg),
            mkSocket (drop (Z.to_nat len) seg :: rest) (ending s))
  end.

(** The concept [HasOnDataMethod]: a handler gets the descriptor and the
    buffer, which it may change. *)
Class DataHandler (H : Type) : Type := on_data : Z → M (H * MagicBuffer) unit.

(** A handler that reads from the buffer and moves its read head within the
    space reported; [seen] is what it has read. *)
Class DataHandlerLaws (H : Type) `{!DataHandler H} (seen : H → list Z) : Prop :=
  on_data_spec fd h b l : buffer_rep b l →
    ∃ h' n, on_data fd (h, b) = (Ok tt, (h', (advance_read (Z.of_nat n) b).2)) ∧
            (n ≤ length l)%nat ∧ seen h' = seen h ++ take n l.

Section Receive.
Context {H : Type} `{!DataHandler H}.

Record Reactor : Type := mkReactor {
  fd_buffers_ : array MagicBuffer;
  sockets_ : Z → Socket;
  handler_ : H;
  closed_ : list Z
}.

Definition set_buffer (a : array MagicBuffer) (s : Reactor) : Reactor :=
  mkReactor a (sockets_ s) (handler_ s) (closed_ s).
Definition set_socket (fd : Z) (k : Socket) (s : Reactor) : Reactor :=
  mkReactor (fd_buffers_ s) (λ i, if i =? fd then k else sockets_ s i) (handler_ s) (closed_ s).
Definition set_data_handler (h : H) (s : Reactor) : Reactor :=
  mkReactor (fd_buffers_ s) (sockets_ s) h (closed_ s).
Definition close (fd : Z) (s : Reactor) : Reactor :=
  mkReactor (fd_buffers_ s) (sockets_ s) (handler_ s) (closed_ s ++ [fd]).

(** The constructor with [initialize_buffers]: MAX_CONNECTIONS new buffers, or
    an empty vector. *)
Definition EpollReactor_new (handler : H) (epoll_ok initialize_buffers : bool)
    (buffer : MagicBuffer) (sockets : Z → Socket) : outcome Reactor :=
  if negb epoll_ok then Throw (runtime_error "EpollReactor(): Unable to create epoll instance.")
  else Ok (mkReactor (anew (if initialize_buffers then MAX_CONNECTIONS else 0) buffer) sockets
             handler []).

(** A member function of [fd_buffers_[fd]]; an index outside the vector is
    UB. *)
Definition on_buffer {A} (fd : Z) (m : M MagicBuffer A) : M Reactor A := λ s,
  match (fd_buffers_ s).[fd] with
  | Some b => let '(r, b') := m b in (r, set_buffer (aset (fd_buffers_ s) fd b') s)
  | None => (UB, s)
  end.

(** [handler_.on_data(fd, buffer)]. *)
Definition call_handler (fd : Z) : M Reactor unit := λ s,
  match (fd_buffers_ s).[fd] with
  | Some b =>
      let '(r, (h', b')) := on_data fd (handler_ s, b) in
      (r, set_data_handler h' (set_buffer (aset (fd_buffers_ s) fd b') s))
  | None => (UB, s)
  end.

(** The kernel writes what it received at the write head. *)
Definition recv_into (fd : Z) : M Reactor recv_result :=
  s ← get_state;
  b ← of_option ((fd_buffers_ s).[fd]);
  let '(r, k) := recv (write_space_left b) (sockets_ s fd) in
  modify (set_socket fd k);;
  (match r with
   | Received bytes => on_buffer fd (store_run (write_head_ b) bytes)
   | _ => mret tt
   end);;
  mret r.

(** The loop of [run] for one ready socket. *)
Fixpoint receive_loop (fuel : nat) (fd : Z) : M Reactor unit :=
  match fuel with
  | O => out_of_fuel
  | S fuel' =>
      r ← recv_into fd;
      match r with
      | RecvAgain => mret tt
      | RecvError => on_buffer fd reset;; modify (close fd)
      | Received [] => on_buffer fd reset;; modify (close fd)
      | Received bytes =>
          call_handler fd;;
          on_buffer fd (advance_write (Z.of_nat (length bytes)));;
          receive_loop fuel' fd
      end
  end.
End Receive.

(** ** The invariant *)

Section Receive_lemmas.
Context {H : Type} `{!DataHandler H}.
Implicit Types (s : Reactor (H := H)).

(** The buffer of [fd] holds [l]; its socket has [segs], then [e]. *)
Definition reactor_at (fd : Z) (s : Reactor (H := H)) (l : list Z) (segs : list (list Z)) (e : socket_end)
    (cap : Z) : Prop :=
  ∃ b, (fd_buffers_ s).[fd] = Some b ∧ buffer_rep b l ∧ aligned_capacity_ b = cap ∧
       sockets_ s fd = mkSocket segs e.

(** The handler's part of an iteration on a buffer with [l] readable. *)
Definition handles (fd : Z) (h : H) (l : list Z) (P : H → nat → Prop) : Prop :=
  ∀ b, buffer_rep b l → ∃ h' n, on_data fd (h, b) = (Ok tt, (h', (advance_read (Z.of_nat n) b).2)) ∧
    (n ≤ length l)%nat ∧ P h' n.

Lemma on_buffer_run {A} fd (m : M MagicBuffer A) s b a b' : (fd_buffers_ s).[fd] = Some b →
  m b = (Ok a, b') → on_buffer fd m s = (Ok a, set_buffer (aset (fd_buffers_ s) fd b') s).
Proof. intros Hb Hm. unfold on_buffer. by rewrite Hb, Hm. Qed.

Lemma buffer_set fd s b b' : (fd_buffers_ s).[fd] = Some b →
  (aset (fd_buffers_ s) fd b').[fd] = Some b'.
Proof. intros Hb. apply aget_aset_eq. by eapply aget_Some_bounds. Qed.

Lemma space_of b l : buffer_rep b l → write_space_left b = aligned_capacity_ b - 1 - Z.of_nat (length l).
Proof. intros R. unfold write_space_left. by rewrite (mb_space _ _ R). Qed.

(** One iteration that receives [bytes]. *)
Lemma receive_iteration fuel fd s l segs e cap bytes segs' P : reactor_at fd s l segs e cap →
  bytes ≠ [] → Z.of_nat (length bytes) ≤ cap - 1 - Z.of_nat (length l) →
  recv (cap - 1 - Z.of_nat (length l)) (mkSocket segs e) = (Received bytes, mkSocket segs' e) →
  handles fd (handler_ s) l P →
  ∃ s' n, receive_loop (S fuel) fd s = receive_loop fuel fd s' ∧
    reactor_at fd s' (drop n l ++ bytes) segs' e cap ∧ closed_ s' = closed_ s ∧
    (n ≤ length l)%nat ∧ P (handler_ s') n.
Proof.
  intros (b & Hb & R & Hcap & Hk) Hne Hlen Hrecv Hh. pose proof (space_of _ _ R) as Hsp.
  destruct (store_staged b l bytes R) as (b1 & E1 & R1 & S1 & _ & Hc1); [lia|].
  destruct (Hh b1 R1) as (h' & n & Eh & Hn & HP).
  destruct (advance_read_rep b1 l n R1) as (b2 & E2 & R2 & S2 & Hc2).
  { rewrite (mb_space _ _ R1). lia. }
  destruct (commit_staged b2 _ bytes R2 (S2 _ S1)) as (b3 & E3 & R3 & Hc3).
  set (s1 := set_buffer (aset (fd_buffers_ s) fd b1) (set_socket fd (mkSocket segs' e) s)).
  assert (recv_into fd s = (Ok (Received bytes), s1)) as Hr.
  { unfold recv_into. unfold mbind at 1, M_bind at 1. cbn [get_state]. rewrite Hb. cbn [of_option].
    rewrite bind_mret, Hk, Hsp, Hcap, Hrecv, bind_modify.
    by mstep (on_buffer_run fd _ (set_socket fd (mkSocket segs' e) s) b tt b1 Hb E1). }
  assert ((fd_buffers_ s1).[fd] = Some b1) as Hb1 by exact (buffer_set fd s b b1 Hb).
  set (s2 := set_data_handler h' (set_buffer (aset (fd_buffers_ s1) fd b2) s1)).
  assert (call_handler fd s1 = (Ok tt, s2)) as Hc.
  { unfold call_handler. rewrite Hb1. change (handler_ s1) with (handler_ s). rewrite Eh.
    by rewrite E2. }
  assert ((fd_buffers_ s2).[fd] = Some b2) as Hb2 by exact (buffer_set fd s1 b1 b2 Hb1).
  pose proof (on_buffer_run fd _ s2 b2 tt b3 Hb2 E3) as Hw.
  eexists _, n. split.
  { cbn [receive_loop]. mstep Hr. destruct bytes as [|x bytes]; [done|]. mstep Hc. by mstep Hw. }
  split_and!; [exists b3|done|done|done].
  split_and!; [by apply (buffer_set fd s2 b2 b3)|done|congruence|].
  cbn. by rewrite Z.eqb_refl.
Qed.

(** The iterations that end the loop. *)
Lemma receive_close fuel fd s l segs e cap r : reactor_at fd s l segs e cap →
  recv (cap - 1 - Z.of_nat (length l)) (mkSocket segs e) = (r, mkSocket segs e) →
  r = Received [] ∨ r = RecvError →
  ∃ s', receive_loop (S fuel) fd s = (Ok tt, s') ∧ reactor_at fd s' [] segs e cap ∧
    closed_ s' = closed_ s ++ [fd] ∧ handler_ s' = handler_ s.
Proof.
  intros (b & Hb & R & Hcap & Hk) Hrecv Hr. pose proof (space_of _ _ R) as Hsp.
  set (s0 := set_socket fd (mkSocket segs e) s).
  assert (∃ b1, recv_into fd s = (Ok r, b1) ∧ (fd_buffers_ b1).[fd] = Some b ∧
    sockets_ b1 fd = mkSocket segs e ∧ closed_ b1 = closed_ s ∧ handler_ b1 = handler_ s)
    as (s1 & E1 & Hb1 & Hk1 & Hcl1 & Hh1).
  { unfold recv_into. unfold mbind at 1, M_bind at 1. cbn [get_state]. rewrite Hb. cbn [of_option].
    rewrite bind_mret, Hk, Hsp, Hcap, Hrecv, bind_modify. fold s0. destruct Hr as [-> | ->].
    - mstep (on_buffer_run fd (store_run (write_head_ b) []) s0 b tt b Hb eq_refl).
      eexists. split_and!; [done|by apply (buffer_set fd s0 b b)|cbn; by rewrite Z.eqb_refl|done|done].
    - rewrite bind_mret. exists s0. split_and!; [done|done|cbn; by rewrite Z.eqb_refl|done|done]. }
  set (b2 := mkMagic (memory b) 0 0 (aligned_capacity_ b)).
  assert (buffer_rep b2 []) as R2.
  { destruct (mb_read _ _ R). constructor; cbn [b2 memory read_head_ write_head_ aligned_capacity_];
      (apply R || done || lia). }
  pose proof (on_buffer_run fd reset s1 b tt b2 Hb1 eq_refl) as E2.
  exists (close fd (set_buffer (aset (fd_buffers_ s1) fd b2) s1)). split_and!.
  - cbn [receive_loop]. mstep E1. destruct Hr as [-> | ->]; by mstep E2.
  - exists b2. split_and!; [by apply (buffer_set fd s1 b b2)|done|done|done].
  - cbn. by rewrite Hcl1.
  - done.
Qed.

Lemma receive_again fuel fd s l cap : reactor_at fd s l [] NoMore cap →
  Z.of_nat (length l) < cap - 1 →
  ∃ s', receive_loop (S fuel) fd s = (Ok tt, s') ∧ reactor_at fd s' l [] NoMore cap ∧
    closed_ s' = closed_ s ∧ handler_ s' = handler_ s.
Proof.
  intros (b & Hb & R & Hcap & Hk) Hl. pose proof (space_of _ _ R) as Hsp.
  exists (set_socket fd (mkSocket [] NoMore) s). split_and!; [|exists b|done|done].
  - assert (recv_into fd s = (Ok RecvAgain, set_socket fd (mkSocket [] NoMore) s)) as E; [|by cbn; mstep E].
    unfold recv_into. unfold mbind at 1, M_bind at 1. cbn [get_state]. rewrite Hb. cbn [of_option].
    rewrite bind_mret, Hk, Hsp, Hcap. unfold recv. by rewrite (proj2 (Z.leb_gt _ _)) by lia.
  - split_and!; [done|done|done|]. cbn. by rewrite Z.eqb_refl.
Qed.

(** What [recv] takes of the next segment. *)
Lemma recv_segment len seg rest e : 0 < len → seg ≠ [] → Forall (λ g, g ≠ []) rest →
  ∃ bytes segs', recv len (mkSocket (seg :: rest) e) = (Received bytes, mkSocket segs' e) ∧
    bytes ≠ [] ∧ Z.of_nat (length bytes) ≤ len ∧ bytes ++ concat segs' = seg ++ concat rest ∧
    Forall (λ g, g ≠ []) segs'.
Proof.
  intros Hlen Hseg Hrest. unfold recv. rewrite (proj2 (Z.leb_gt len 0)) by done. cbn [segments ending].
  destruct (Z.leb_spec (Z.of_nat (length seg)) len) as [Hle|Hgt].
  - exists seg, rest. split_and!; [done|done|done|done|done].
  - eexists _, _. split; [done|].
    assert (length (take (Z.to_nat len) seg) = Z.to_nat len) as Ht by (rewrite length_take; lia).
    split_and!.
    + intros E. rewrite E in Ht. simpl in Ht. lia.
    + lia.
    + cbn [concat]. by rewrite app_assoc, take_drop.
    + constructor; [|done]. intros E%(f_equal length). rewrite length_drop in E. simpl in E. lia.
Qed.
End Receive_lemmas.

(** ** Whole runs of the loop *)

Section Receive_runs.
Context {H : Type} `{!DataHandler H} (seen : H → list Z) `{!DataHandlerLaws H seen}.
Implicit Types (s : Reactor (H := H)).

(** How the loop ends: with nothing more to read and every byte either seen by
    the handler or in the buffer; or by closing the descriptor.  Then [dropped]
    are the unread bytes that were in the buffer, which the reset discards, and
    [segs'] what is left in the socket: the descriptor is closed with the
    socket empty, at the peer's end or on an error, or else because [dropped]
    filled the buffer. *)
Definition receive_ends (fd : Z) (s s' : Reactor) (l : list Z) (segs : list (list Z))
    (e : socket_end) (cap : Z) : Prop :=
  (∃ l', e = NoMore ∧ closed_ s' = closed_ s ∧ reactor_at fd s' l' [] e cap ∧
     seen (handler_ s') ++ l' = seen (handler_ s) ++ l ++ concat segs) ∨
  (∃ dropped segs', closed_ s' = closed_ s ++ [fd] ∧ reactor_at fd s' [] segs' e cap ∧
     seen (handler_ s') ++ dropped ++ concat segs' = seen (handler_ s) ++ l ++ concat segs ∧
     (segs' = [] ∧ e ≠ NoMore ∨ Z.of_nat (length dropped) = cap - 1)).

Lemma receive_loop_ends fuel fd s l segs e cap : reactor_at fd s l segs e cap →
  Forall (λ g, g ≠ []) segs → (length (concat segs) < fuel)%nat →
  ∃ s', receive_loop fuel fd s = (Ok tt, s') ∧ receive_ends fd s s' l segs e cap.
Proof.
  revert s l segs. induction fuel as [|fuel IH]; intros s l segs R Hne Hfuel; [lia|].
  destruct (Z.le_gt_cases (cap - 1) (Z.of_nat (length l))) as [Hfull|Hroom].
  { destruct (receive_close fuel fd s l segs e cap (Received []) R) as (s' & E & R' & Hc & Hh);
      [|by left|].
    { unfold recv. by rewrite (proj2 (Z.leb_le _ _)) by lia. }
    exists s'. split; [done|]. right. exists l, segs. rewrite Hh. split_and!; [done|done|done|right].
    destruct R as (b & _ & Rb & <- & _). pose proof (space_bounds _ _ Rb). rewrite (mb_space _ _ Rb) in *. lia. }
  destruct segs as [|seg rest].
  - destruct e.
    + destruct (receive_again fuel fd s l cap R Hroom) as (s' & E & R' & Hc & Hh).
      exists s'. split; [done|]. left. exists l. rewrite Hh. cbn. rewrite app_nil_r. done.
    + destruct (receive_close fuel fd s l [] PeerClosed cap (Received []) R)
        as (s' & E & R' & Hc & Hh); [|by left|].
      { unfold recv. by rewrite (proj2 (Z.leb_gt _ _)) by lia. }
      exists s'. split; [done|]. right. exists l, []. rewrite Hh. cbn. rewrite app_nil_r. eauto 8.
    + destruct (receive_close fuel fd s l [] SocketError cap RecvError R)
        as (s' & E & R' & Hc & Hh); [|by right|].
      { unfold recv. by rewrite (proj2 (Z.leb_gt _ _)) by lia. }
      exists s'. split; [done|]. right. exists l, []. rewrite Hh. cbn. rewrite app_nil_r. eauto 8.
  - apply Forall_cons in Hne as [Hseg Hrest].
    destruct (recv_segment (cap - 1 - Z.of_nat (length l)) seg rest e) as (bytes & segs' & Er & Hb & Hl & Hcat & Hne');
      [lia|done|done|].
    destruct (receive_iteration fuel fd s l (seg :: rest) e cap bytes segs'
      (λ h' n, seen h' = seen (handler_ s) ++ take n l) R Hb Hl Er) as (s1 & n & E1 & R1 & Hc1 & Hn & Hs1).
    { intros b Rb. by apply on_data_spec. }
    destruct (IH s1 (drop n l ++ bytes) segs' R1 Hne') as (s' & E & Hend).
    { apply (f_equal length) in Hcat. rewrite !length_app in Hcat. cbn [concat] in Hfuel.
      rewrite length_app in Hfuel. destruct bytes; [done|]. simpl in Hcat. lia. }
    exists s'. split; [by rewrite E1|].
    assert (seen (handler_ s1) ++ (drop n l ++ bytes) ++ concat segs' =
            seen (handler_ s) ++ l ++ concat (seg :: rest)) as Hstream.
    { cbn [concat]. rewrite Hs1, <- Hcat, <- (app_assoc _ bytes), <- app_assoc.
      f_equal. by rewrite app_assoc, take_drop. }
    unfold receive_ends in *. by rewrite <- Hc1, <- Hstream.
Qed.

(** C20 The loop loses nothing that it need not: for a ready descriptor that
    has a buffer in the vector, and a handler that only reads the buffer it is
    given, emptying the socket always ends.  Unless it closes the descriptor,
    what the handler has seen followed by what is left in the buffer is exactly
    what it had seen and held before followed by all bytes received, in order.
    It closes the descriptor with the socket emptied, when the peer has closed
    it or on an error, or else when the buffer is full of unread bytes (no
    space left to receive into), with the rest still in the socket; the bytes
    it drops are those unread in the buffer, all earlier ones having been seen
    by the handler, in order. *)
Theorem reactor_keeps_stream fuel fd s l segs e cap : reactor_at fd s l segs e cap →
  Forall (λ g, g ≠ []) segs → (length (concat segs) < fuel)%nat →
  ∃ s', receive_loop fuel fd s = (Ok tt, s') ∧ receive_ends fd s s' l segs e cap.
Proof. apply receive_loop_ends. Qed.
End Receive_runs.

(** A handler that takes all readable bytes. *)
#[export] Instance drain_handler : DataHandler (list Z) := λ fd '(log, b),
  match consume_bytes (Z.to_nat (read_space_left b)) b with
  | (Ok l, b') => (Ok tt, (log ++ l, b'))
  | (Throw e, b') => (Throw e, (log, b'))
  | (UB, b') => (UB, (log, b'))
  | (OutOfFuel, b') => (OutOfFuel, (log, b'))
  end.

Lemma drain_run fd (log : list Z) b l : buffer_rep b l →
  on_data fd (log, b) = (Ok tt, (log ++ l, (advance_read (Z.of_nat (length l)) b).2)).
Proof.
  intros R. unfold on_data, drain_handler. rewrite (mb_space _ _ R), Nat2Z.id.
  by rewrite (consume_run b l (length l) R), take_ge.
Qed.

#[export] Instance drain_handler_laws : DataHandlerLaws (list Z) id.
Proof.
  intros fd h b l R. exists (h ++ l), (length l). rewrite (drain_run fd h b l R), take_ge by done. done.
Qed.

(** A new reactor with one socket that has something to read. *)
Definition sample_reactor (segs : list (list Z)) (e : socket_end) : Reactor (H := list Z) :=
  mkReactor (anew MAX_CONNECTIONS (mkMagic (anew MAX_BUFFER_SIZE 0) 0 0 MAX_BUFFER_SIZE))
    (λ _, mkSocket segs e) [] [].

Lemma sample_reactor_at segs e fd : 0 ≤ fd < MAX_CONNECTIONS →
  reactor_at fd (sample_reactor segs e) [] segs e MAX_BUFFER_SIZE.
Proof.
  intros Hfd. exists (mkMagic (anew MAX_BUFFER_SIZE 0) 0 0 MAX_BUFFER_SIZE).
  split_and!; [by apply aget_anew| |done|done].
  by constructor; cbn [memory read_head_ write_head_ aligned_capacity_].
Qed.

Lemma reactor_keeps_stream_witness :
  ∃ s', receive_loop 6 7 (sample_reactor [[1; 2]; [3]; [4; 5]] PeerClosed) = (Ok tt, s') ∧
        receive_ends id 7 (sample_reactor [[1; 2]; [3]; [4; 5]] PeerClosed) s' []
          [[1; 2]; [3]; [4; 5]] PeerClosed MAX_BUFFER_SIZE.
Proof.
  apply (reactor_keeps_stream id 6 7 (sample_reactor [[1; 2]; [3]; [4; 5]] PeerClosed));
    [by apply sample_reactor_at|by repeat constructor|simpl; lia].
Defined.

(** The handler runs before the write head moves: [run] calls [on_data] and
    only then [advance_write], so a call never sees the bytes it was made for.
    With a handler that takes everything it can read, and any segments that
    fit, the loop ends with the last segment unread in the buffer, and the
    handler has everything up to the one before. *)
Theorem handler_misses_last_segment s fd l init lastseg cap fuel :
  reactor_at fd s l (init ++ [lastseg]) NoMore cap →
  Forall (λ g, g ≠ [] ∧ 2 * Z.of_nat (length g) < cap - 1) (init ++ [lastseg]) →
  2 * Z.of_nat (length l) < cap - 1 → (S (length init) < fuel)%nat →
  ∃ s', receive_loop fuel fd s = (Ok tt, s') ∧ handler_ s' = handler_ s ++ l ++ concat init ∧
        reactor_at fd s' lastseg [] NoMore cap.
Proof.
  revert s l fuel. induction init as [|seg init IH]; intros s l fuel R Hsegs Hl Hfuel;
    (destruct fuel as [|fuel]; [lia|]); cbn [app] in *;
    apply Forall_cons in Hsegs as [[Hne Hlen] Hsegs].
  - destruct (receive_iteration fuel fd s l [lastseg] NoMore cap lastseg []
      (λ h' n, h' = handler_ s ++ l ∧ n = length l) R Hne) as (s1 & n & E1 & R1 & _ & _ & Hh & ->);
      [lia|unfold recv; cbn; rewrite !(proj2 (Z.leb_gt _ _)), !(proj2 (Z.leb_le _ _)) by lia; done
      |by intros b Rb; eexists _, (length l); rewrite (drain_run fd _ b l Rb)|].
    rewrite drop_all in R1. cbn [app length] in *. destruct fuel as [|fuel]; [lia|].
    destruct (receive_again fuel fd s1 lastseg cap R1) as (s2 & E2 & R2 & _ & Hh2); [lia|].
    exists s2. rewrite E1, Hh2, Hh. cbn. by rewrite app_nil_r.
  - destruct (receive_iteration fuel fd s l (seg :: init ++ [lastseg]) NoMore cap seg (init ++ [lastseg])
      (λ h' n, h' = handler_ s ++ l ∧ n = length l) R Hne) as (s1 & n & E1 & R1 & _ & _ & Hh & ->);
      [lia|unfold recv; cbn; rewrite !(proj2 (Z.leb_gt _ _)), !(proj2 (Z.leb_le _ _)) by lia; done
      |by intros b Rb; eexists _, (length l); rewrite (drain_run fd _ b l Rb)|].
    rewrite drop_all in R1. cbn [app length] in *.
    destruct (IH s1 seg fuel R1 Hsegs) as (s2 & E2 & Hh2 & R2); [lia|lia|].
    exists s2. rewrite E1, Hh2, Hh. cbn [concat]. by rewrite <- !app_assoc.
Qed.

Lemma handler_misses_last_segment_witness :
  ∃ s', receive_loop 4 7 (sample_reactor ([[1; 2]; [3]] ++ [[4; 5]]) NoMore) = (Ok tt, s') ∧
        handler_ s' = [1; 2; 3] ∧ reactor_at 7 s' [4; 5] [] NoMore MAX_BUFFER_SIZE.
Proof.
  apply (handler_misses_last_segment (sample_reactor ([[1; 2]; [3]] ++ [[4; 5]]) NoMore) 7 []
    [[1; 2]; [3]] [4; 5] MAX_BUFFER_SIZE 4);
    [by apply sample_reactor_at|by repeat constructor|by vm_compute|simpl; lia].
Defined.

(** * New connections *)

Definition CONNECTION_QUEUE_SIZE : Z := 1024.

(** Where the two threads are: the acceptor in [wait_for_connections], the
    reactor in [run] (its work on ready sockets is left out). *)
Inductive acceptor_pc : Type := AccWait | AccPush (fd : Z) | AccSignal.
Inductive reactor_pc : Type := EpollWait | DrainQueue | ReadEvent.

(** [event_count_] is the counter of the eventfd; [accepted_] and
    [taken_] record the connections accepted and those taken from the queue;
    [watched_] is the interest list of epoll; [dropped_] are the connections
    closed because they could not be made non-blocking. *)
Record Handover : Type := mkHandover {
  incoming_connections_ : SPSCQueue (T := Z);
  event_count_ : Z;
  acceptor_ : acceptor_pc;
  reactor_ : reactor_pc;
  watched_ : list Z;
  dropped_ : list Z;
  accepted_ : list Z;
  taken_ : list Z
}.

Definition Handover_new : Handover :=
  mkHandover (SPSCQueue_new CONNECTION_QUEUE_SIZE 0) 0 AccWait EpollWait [] [] [] [].

Definition set_incoming (q : SPSCQueue) (s : Handover) : Handover :=
  mkHandover q (event_count_ s) (acceptor_ s) (reactor_ s) (watched_ s) (dropped_ s) (accepted_ s) (taken_ s).
Definition set_acceptor (pc : acceptor_pc) (s : Handover) : Handover :=
  mkHandover (incoming_connections_ s) (event_count_ s) pc (reactor_ s) (watched_ s) (dropped_ s)
    (accepted_ s) (taken_ s).
Definition set_reactor (pc : reactor_pc) (s : Handover) : Handover :=
  mkHandover (incoming_connections_ s) (event_count_ s) (acceptor_ s) pc (watched_ s) (dropped_ s)
    (accepted_ s) (taken_ s).
Definition set_event (n : Z) (s : Handover) : Handover :=
  mkHandover (incoming_connections_ s) n (acceptor_ s) (reactor_ s) (watched_ s) (dropped_ s)
    (accepted_ s) (taken_ s).
Definition accept_connection (fd : Z) (s : Handover) : Handover :=
  mkHandover (incoming_connections_ s) (event_count_ s) (AccPush fd) (reactor_ s) (watched_ s)
    (dropped_ s) (accepted_ s ++ [fd]) (taken_ s).
Definition take_connection (fd : Z) (s : Handover) : Handover :=
  mkHandover (incoming_connections_ s) (event_count_ s) (acceptor_ s) (reactor_ s) (watched_ s)
    (dropped_ s) (accepted_ s) (taken_ s ++ [fd]).
Definition watch (fd : Z) (s : Handover) : Handover :=
  mkHandover (incoming_connections_ s) (event_count_ s) (acceptor_ s) (reactor_ s)
    (watched_ s ++ [fd]) (dropped_ s) (accepted_ s) (taken_ s).
Definition drop_connection (fd : Z) (s : Handover) : Handover :=
  mkHandover (incoming_connections_ s) (event_count_ s) (acceptor_ s) (reactor_ s)
    (watched_ s) (dropped_ s ++ [fd]) (accepted_ s) (taken_ s).

Definition on_incoming {A} (m : M SPSCQueue A) : M Handover A :=
  zoom incoming_connections_ set_incoming m.

Definition add_socket (fd : Z) (epoll_ctl_ok : bool) : M Handover unit :=
  if fd =? -1 then throw (runtime_error
    "EpollReactor::add_socket(): File descriptor passed in for add_socket is invalid.")
  else if negb epoll_ctl_ok then throw (runtime_error
    "EpollReactor::add_socket(): Unable to add file descriptor to epoll interest list.")
  else modify (watch fd).

(** A step of [wait_for_connections]: [fd] is what accept returns, [write_ok]
    the success of the write to the eventfd. *)
Definition acceptor_step (fd : Z) (write_ok : bool) : M Handover unit :=
  s ← get_state;
  match acceptor_ s with
  | AccWait => if fd =? -1 then mret tt else modify (accept_connection fd)
  | AccPush new_connection_fd =>
      pushed ← on_incoming (push CONNECTION_QUEUE_SIZE new_connection_fd);
      if (pushed : bool) then modify (set_acceptor AccSignal) else mret tt
  | AccSignal =>
      if negb write_ok then throw (runtime_error
        "EpollReactor::wait_for_connections(): Unable to write to event_fd for new connection.")
      else modify (set_event (event_count_ s + 1));; modify (set_acceptor AccWait)
  end.

(** A step of [run]: epoll reports the eventfd only while its counter is
    positive; [fcntl_ok] and [epoll_ctl_ok] are the outcomes for the
    connection that is taken from the queue, which is closed when it cannot be
    made non-blocking; [read_ok] is the success of the read of the eventfd. *)
Definition reactor_step (fcntl_ok epoll_ctl_ok read_ok : bool) : M Handover unit :=
  s ← get_state;
  match reactor_ s with
  | EpollWait => if 0 <? event_count_ s then modify (set_reactor DrainQueue) else mret tt
  | DrainQueue =>
      popped ← on_incoming (pop CONNECTION_QUEUE_SIZE);
      match popped with
      | Some new_connection_fd =>
          modify (take_connection new_connection_fd);;
          if fcntl_ok then add_socket new_connection_fd epoll_ctl_ok
          else modify (drop_connection new_connection_fd)
      | None => modify (set_reactor ReadEvent)
      end
  | ReadEvent =>
      if negb read_ok then throw (runtime_error
        "EpollReactor::run(): Unexpected error occured when clearing event_fd.")
      else modify (set_event 0);; modify (set_reactor EpollWait)
  end.

Inductive handover_step : Type :=
| Accept (fd : Z) (write_ok : bool)
| React (fcntl_ok epoll_ctl_ok read_ok : bool).

Definition run_handover_step (t : handover_step) : M Handover unit :=
  match t with
  | Accept fd write_ok => acceptor_step fd write_ok
  | React fcntl_ok epoll_ctl_ok read_ok => reactor_step fcntl_ok epoll_ctl_ok read_ok
  end.

Fixpoint run_handover (ts : list handover_step) : M Handover unit :=
  match ts with
  | [] => mret tt
  | t :: ts' => run_handover_step t;; run_handover ts'
  end.

(** The connection the acceptor holds. *)
Definition in_hand (s : Handover) : list Z :=
  match acceptor_ s with AccPush fd => [fd] | _ => [] end.

Record handover_ok (s : Handover) : Prop := {
  ho_queue : ∃ q, queue_rep CONNECTION_QUEUE_SIZE (incoming_connections_ s) q ∧
                  accepted_ s = taken_ s ++ q ++ in_hand s;
  ho_valid : Forall (λ fd, fd ≠ -1) (accepted_ s);
  ho_watched : watched_ s `sublist_of` taken_ s
}.

(** A call that fails for the kernel. *)
Definition handover_kernel_ok (t : handover_step) : bool :=
  match t with
  | Accept _ write_ok => write_ok
  | React _ epoll_ctl_ok read_ok => epoll_ctl_ok && read_ok
  end.

(** Every connection taken is watched or was closed. *)
Definition all_placed (s : Handover) : Prop := taken_ s ≡ₚ watched_ s ++ dropped_ s.

(** A step ends in a state that is right again, with an exception only after a
    failure of the kernel. *)
Definition step_ends (kernel_ok : bool) (res : outcome unit * Handover) : Prop :=
  handover_ok res.2 ∧
  (res.1 = Ok tt ∧ all_placed res.2 ∨ kernel_ok = false ∧ ∃ e, res.1 = Throw e).

Lemma acceptor_step_ok fd write_ok s : handover_ok s → all_placed s →
  step_ends write_ok (acceptor_step fd write_ok s).
Proof.
  intros [(q & Hq & Ha) Hv Hw] Hpl. unfold acceptor_step.
  unfold mbind at 1, M_bind at 1. cbn [get_state].
  destruct (acceptor_ s) as [|fd'|] eqn:Hpc; unfold in_hand in Ha; rewrite Hpc in Ha.
  - destruct (Z.eqb_spec fd (-1)) as [->|Hfd]; cbn; (split; cbn; [|by left]).
    + constructor; [exists q; unfold in_hand; by rewrite Hpc|done|done].
    + constructor; [exists q; split; [done|]|apply Forall_app_2; auto|done].
      cbn. by rewrite Ha, app_nil_r, <- app_assoc.
  - destruct (push_rep _ _ q fd' Hq) as (q' & E & Hq').
    assert (on_incoming (push CONNECTION_QUEUE_SIZE fd') s =
      (Ok (Z.of_nat (length q) <? CONNECTION_QUEUE_SIZE - 1), set_incoming q' s)) as Ep.
    { unfold on_incoming, zoom. by rewrite E. }
    mstep Ep. destruct (Z.of_nat (length q) <? CONNECTION_QUEUE_SIZE - 1); cbn; (split; cbn; [|by left]).
    + constructor; [exists (q ++ [fd']); split; [done|]|done|done]. cbn. by rewrite app_nil_r.
    + constructor; [exists q; unfold in_hand; cbn; by rewrite Hpc|done|done].
  - destruct write_ok; cbn; (split; cbn; [|first [by left|right; eauto]]); (constructor; [|done|done]);
      exists q; unfold in_hand; cbn; by rewrite ?Hpc.
Qed.

(** The connection just taken is added to the interest list, or closed, or
    epoll refuses it. *)
Lemma place_ok (fcntl_ok epoll_ctl_ok : bool) fd s : handover_ok (take_connection fd s) →
  watched_ s `sublist_of` taken_ s → all_placed s → fd ≠ (-1) →
  step_ends epoll_ctl_ok ((if fcntl_ok then add_socket fd epoll_ctl_ok else modify (drop_connection fd))
    (take_connection fd s)).
Proof.
  intros Ht Hw Hpl Hfd. pose proof Ht as [Ht1 Ht2 Ht3]. unfold all_placed in Hpl.
  destruct fcntl_ok; unfold add_socket.
  - rewrite (proj2 (Z.eqb_neq _ _) Hfd). destruct epoll_ctl_ok; cbn; [|split; [done|right; eauto]].
    split; [|left; split; [done|]].
    + constructor; [done|done|]. cbn. by apply sublist_app.
    + unfold all_placed. cbn. by rewrite Hpl, <- !app_assoc, (Permutation_app_comm (dropped_ s)).
  - cbn. split; [constructor; [exact Ht1|exact Ht2|exact Ht3]|left]. split; [done|]. unfold all_placed. cbn.
    by rewrite Hpl, <- app_assoc.
Qed.

Lemma reactor_step_ok fcntl_ok epoll_ctl_ok read_ok s : handover_ok s → all_placed s →
  step_ends (epoll_ctl_ok && read_ok) (reactor_step fcntl_ok epoll_ctl_ok read_ok s).
Proof.
  intros Hok Hpl. pose proof Hok as [(q & Hq & Ha) Hv Hw].
  unfold reactor_step. unfold mbind at 1, M_bind at 1. cbn [get_state].
  destruct (reactor_ s) eqn:Hpc.
  - zcase; cbn; (split; cbn; [|by left]); [|done]. constructor; [by exists q|done|done].
  - destruct (pop_rep _ _ q Hq) as (q' & E & Hq').
    assert (on_incoming (pop CONNECTION_QUEUE_SIZE) s = (Ok (hd_error q), set_incoming q' s)) as Ep.
    { unfold on_incoming, zoom. by rewrite E. }
    mstep Ep. destruct q as [|fd q]; cbn [hd_error].
    { cbn. split; cbn; [|by left]. constructor; [by exists []|done|done]. }
    rewrite bind_modify. edestruct (place_ok fcntl_ok epoll_ctl_ok fd (set_incoming q' s)) as [H1 H2].
    + constructor; [exists q; split; [done|]|done|by apply sublist_inserts_r]. cbn.
      by rewrite Ha, <- app_assoc.
    + done.
    + done.
    + rewrite Ha in Hv. apply Forall_app in Hv as [_ Hv]. cbn in Hv. by apply Forall_cons in Hv as [? _].
    + split; [exact H1|]. destruct H2 as [H2|[-> H2]]; [by left|by right].
  - destruct read_ok; cbn; (split; cbn; [|first [by left|right; rewrite andb_false_r; eauto]]); [|done].
    constructor; [by exists q|done|done].
Qed.

Lemma run_handover_ok ts s : handover_ok s → all_placed s →
  step_ends (forallb handover_kernel_ok ts) (run_handover ts s).
Proof.
  revert s. induction ts as [|t ts IH]; intros s Hok Hpl; [by split; [|left]|].
  assert (step_ends (handover_kernel_ok t) (run_handover_step t s)) as [Hok1 Hr].
  { destruct t; [by apply acceptor_step_ok|by apply reactor_step_ok]. }
  cbn [run_handover forallb]. unfold step_ends, mbind, M_bind.
  destruct (run_handover_step t s) as [[[]|e| |] s1]; cbn [fst snd] in *.
  - destruct Hr as [[_ Hpl1]|[_ [? [=]]]].
    destruct (IH s1 Hok1 Hpl1) as [H1 [H2|[H2 H3]]]; split; auto. right. rewrite H2. by rewrite andb_false_r.
  - split; [done|]. right. destruct Hr as [[[=] _]|[-> _]]. eauto.
  - destruct Hr as [[[=] _]|[_ [? [=]]]].
  - destruct Hr as [[[=] _]|[_ [? [=]]]].
Qed.

Lemma Handover_new_ok : handover_ok Handover_new.
Proof.
  constructor; [exists []; split; [|done]|done|done]. by apply (SPSCQueue_new_rep _ 10).
Qed.

(** C27 No connection is lost in the hand-over: in every interleaving of the two
    threads the accepted connections are those taken by the reactor, those in
    the queue and the one the acceptor holds, in the order of acceptance; the
    watched ones are among those taken, in order; a run ends in an exception
    only after a failure of the kernel (the write or the read of the eventfd,
    or epoll_ctl), and otherwise every connection taken is either watched or
    was closed because it could not be made non-blocking. *)
Theorem handover_keeps_connections ts :
  let '(r, s) := run_handover ts Handover_new in
  (∃ q, queue_rep CONNECTION_QUEUE_SIZE (incoming_connections_ s) q ∧
        accepted_ s = taken_ s ++ q ++ in_hand s) ∧
  watched_ s `sublist_of` taken_ s ∧
  (r = Ok tt ∧ taken_ s ≡ₚ watched_ s ++ dropped_ s ∨
   forallb handover_kernel_ok ts = false ∧ ∃ e, r = Throw e).
Proof.
  destruct (run_handover_ok ts Handover_new Handover_new_ok) as [[Hq _ Hw] Hr]; [apply Permutation_refl|].
  by destruct (run_handover ts Handover_new) as [r s].
Qed.

(** A lost wake-up: [run] empties the queue first and clears the eventfd
    after.  A connection that is queued and signalled in between is cleared
    with the counter: here connection 8 stays in the queue, and no number of
    steps of the reactor takes it out, until another connection comes. *)
Theorem handover_loses_wakeup n :
  let '(r, s) := run_handover
    [Accept 5 true; Accept 5 true; Accept 5 true; React true true true; React true true true; React true true true;
     Accept 8 true; Accept 8 true; Accept 8 true; React true true true] Handover_new in
  r = Ok tt ∧ accepted_ s = [5; 8] ∧ taken_ s = [5] ∧ acceptor_ s = AccWait ∧
  run_handover (replicate n (React true true true)) s = (Ok tt, s).
Proof.
  destruct (run_handover _ Handover_new) as [r s] eqn:E. vm_compute in E. injection E as <- <-.
  split_and!; [done..|]. induction n as [|n IH]; [done|]. exact IH.
Qed.
