(* ===== verification/OuchClient.v ===== *)
(** [network::OuchClient] (src/src/network/OuchClient.h) with the packets of
    src/src/protocol/OuchOrderTypes.h.

    A client sends framed OUCH orders over a non-blocking TCP socket.  When the
    socket takes only a part of an order, the client keeps a pointer to the
    rest, inside the caller's packet, and finishes it in [handle_write].  The
    packets live in a pool shared with the caller, who may write to it between
    calls: a pointer into a packet is the index of the packet and an offset,
    and each send reads the pool as it is at that time.

    The kernel's part is an argument of each call: how many bytes [send] takes
    (at most what it is offered), or its failure; the value of [SO_ERROR].
    [wire_] is the byte stream the socket has taken, [accepted_] the orders of
    the calls of [send_order] that were not refused. *)

From S2P Require Import Prelude.

(** * Packets *)

(** [protocol::FramedEnterOrder], packed. *)
Definition enter_order_fields : list (string * nat) :=
  [("type", 1%nat); ("user_ref_num", 4%nat);
   ("side", 1%nat); ("quantity", 4%nat); ("symbol", 8%nat); ("price", 8%nat);
   ("time_in_force", 1%nat); ("display", 1%nat); ("capacity", 1%nat);
   ("intermarket_sweep_eligibility", 1%nat); ("cross_type", 1%nat); ("cust_order_id", 14%nat);
   ("appendage_len", 2%nat)].

(** The same fields after the two of the SoupBinTCP frame. *)
Definition framed_enter_order_fields : list (string * nat) :=
  [("soup_length", 2%nat); ("soup_type", 1%nat)] ++ enter_order_fields.

Definition sizeof_EnterOrder : nat := sum_list (snd <$> enter_order_fields).
Definition sizeof_FramedEnterOrder : nat := sum_list (snd <$> framed_enter_order_fields).

(** The two assertions of the header. *)
Example ouch_static_asserts : sizeof_EnterOrder = 47%nat ∧ sizeof_FramedEnterOrder = 50%nat.
Proof. done. Qed.

(** [payload] is the union: the bytes of its largest member. *)
Record OuchPacket : Type := mkPacket {
  packet_len : Z;
  payload : list Z
}.

Definition null_packet : OuchPacket := mkPacket 0 (replicate sizeof_FramedEnterOrder 0).

(** Reading [len] bytes of a packet's payload from an offset on. *)
Definition payload_bytes (p : OuchPacket) (off len : Z) : option (list Z) :=
  if (0 <=? off) && (0 <=? len) && (off + len <=? Z.of_nat (length (payload p)))
  then Some (take (Z.to_nat len) (drop (Z.to_nat off) (payload p))) else None.

(** * The client *)

Inductive OuchState : Type := Disconnected | Connecting | Connected | PendingWrite.

#[export] Instance OuchState_eq_dec : EqDecision OuchState.
Proof. solve_decision. Defined.

Record OuchClient : Type := mkClient {
  state_ : OuchState;
  pending_buffer_ : option (Z * Z);
  pending_bytes_ : Z;
  packets_ : array OuchPacket;
  wire_ : list Z;
  accepted_ : list (list Z)
}.

Definition set_state (st : OuchState) (c : OuchClient) : OuchClient :=
  mkClient st (pending_buffer_ c) (pending_bytes_ c) (packets_ c) (wire_ c) (accepted_ c).
Definition set_pending (buf : Z * Z) (n : Z) (c : OuchClient) : OuchClient :=
  mkClient (state_ c) (Some buf) n (packets_ c) (wire_ c) (accepted_ c).
Definition set_packets (a : array OuchPacket) (c : OuchClient) : OuchClient :=
  mkClient (state_ c) (pending_buffer_ c) (pending_bytes_ c) a (wire_ c) (accepted_ c).
Definition put_on_wire (l : list Z) (c : OuchClient) : OuchClient :=
  mkClient (state_ c) (pending_buffer_ c) (pending_bytes_ c) (packets_ c) (wire_ c ++ l) (accepted_ c).
Definition accept_order (l : list Z) (c : OuchClient) : OuchClient :=
  mkClient (state_ c) (pending_buffer_ c) (pending_bytes_ c) (packets_ c) (wire_ c)
    (accepted_ c ++ [l]).

(** The constructor; the arguments are the outcomes of making the socket and
    setting its options. *)
Definition OuchClient_new (socket_ok nonblock_ok nodelay_ok : bool) (packets : array OuchPacket)
    : outcome OuchClient :=
  if negb socket_ok then Throw (runtime_error "TCPSocket()")
  else if negb nonblock_ok then Throw (runtime_error "TCPSocket::set_non_blocking()")
  else if negb nodelay_ok then Throw (runtime_error "TCPSocket::set_no_delay()")
  else Ok (mkClient Disconnected None 0 packets [] []).

(** [rc] is the result of [TCPSocket::connect], [None] when it throws. *)
Definition connect_to_server (rc : option Z) : M OuchClient Z :=
  modify (set_state Connecting);;
  match rc with
  | Some rc => mret rc
  | None => throw (runtime_error "TCPSocket::connect()")
  end.

(** What the kernel does with a send: it takes at most [n] of the bytes, has
    no room for any (EAGAIN), or fails. *)
Inductive send_result : Type := Takes (n : nat) | WouldBlock | Fails.

#[export] Instance send_result_eq_dec : EqDecision send_result.
Proof. solve_decision. Defined.

(** [send], and the reading of [errno] after it: the number of bytes taken. *)
Definition send (r : send_result) (bytes : list Z) (e : exn) : M OuchClient Z :=
  match r with
  | Takes n => modify (put_on_wire (take n bytes));; mret (Z.of_nat (length (take n bytes)))
  | WouldBlock => mret 0
  | Fails => throw e
  end.

Definition send_order (order : Z) (r : send_result) : M OuchClient bool :=
  st ← gets state_;
  if bool_decide (st = PendingWrite) then mret false else
  pool ← gets packets_;
  p ← of_option (pool.[order]);
  bytes ← of_option (payload_bytes p 0 (packet_len p));
  bytes_written ← send r bytes (runtime_error
    "OuchClient::send_order(): Unable to send order to server.");
  modify (accept_order bytes);;
  if bytes_written <? packet_len p then
    modify (set_state PendingWrite);;
    modify (set_pending (order, bytes_written) (packet_len p - bytes_written));;
    mret false
  else mret true.

(** [so_error] is the result of getsockopt: [None] when the call fails. *)
Definition handle_write (r : send_result) (so_error : option Z) : M OuchClient bool :=
  st ← gets state_;
  if bool_decide (st = Connecting) then
    match so_error with
    | None => throw (runtime_error
        "OuchClient::handle_write(): Unable to retrieve socket options.")
    | Some error =>
        if negb (error =? 0) then throw (runtime_error
          "OuchClient::handle_write(): Error occured during connection establishment.")
        else modify (set_state Connected);; mret true
    end
  else if bool_decide (st = PendingWrite) then
    buf ← gets pending_buffer_;
    '(i, off) ← of_option buf;
    n ← gets pending_bytes_;
    pool ← gets packets_;
    p ← of_option (pool.[i]);
    bytes ← of_option (payload_bytes p off n);
    bytes_written ← send r bytes (runtime_error
      "OuchClient::handle_write(): Unable to send order to server.");
    if bytes_written <? n then
      modify (set_pending (i, off + bytes_written) (n - bytes_written));;
      mret false
    else modify (set_state Connected);; mret true
  else mret true.

(** The caller writes a packet of the pool. *)
Definition store_packet (i : Z) (p : OuchPacket) : M OuchClient unit :=
  pool ← gets packets_; pool' ← of_option (aput pool i p); modify (set_packets pool').

(** * Sequences of calls *)

Inductive client_op : Type :=
| Connect (rc : option Z)
| Send (order : Z) (r : send_result)
| Write (r : send_result) (so_error : option Z)
| Store (i : Z) (p : OuchPacket).

Definition run_client_op (op : client_op) : M OuchClient unit :=
  match op with
  | Connect rc => _ ← connect_to_server rc; mret tt
  | Send order r => _ ← send_order order r; mret tt
  | Write r so_error => _ ← handle_write r so_error; mret tt
  | Store i p => store_packet i p
  end.

(** The bytes the client still owes the socket. *)
Definition owed (c : OuchClient) : list Z :=
  if bool_decide (state_ c = PendingWrite) then
    match pending_buffer_ c with
    | Some (i, off) => match (packets_ c).[i] with
                       | Some p => default [] (payload_bytes p off (pending_bytes_ c))
                       | None => []
                       end
    | None => []
    end
  else [].

(** What a caller must not do: write to a packet that is being sent, or connect
    again while a write is pending. *)
Definition careful (op : client_op) (c : OuchClient) : bool :=
  if bool_decide (state_ c = PendingWrite) then
    match op with
    | Store i _ => match pending_buffer_ c with Some (j, _) => negb (i =? j) | None => true end
    | Connect _ => false
    | _ => true
    end
  else true.

Fixpoint run_client_ops (ops : list client_op) : M OuchClient unit :=
  match ops with
  | [] => mret tt
  | op :: ops' => run_client_op op;; run_client_ops ops'
  end.

(** Every call of the sequence is careful in the state it is made in. *)
Fixpoint all_careful (ops : list client_op) (c : OuchClient) : bool :=
  match ops with
  | [] => true
  | op :: ops' => careful op c && all_careful ops' (run_client_op op c).2
  end.

(** * The invariant *)

Definition packet_ok (p : OuchPacket) : Prop := 0 ≤ packet_len p ≤ Z.of_nat (length (payload p)).

(** The rest of an order that is being sent. *)
Definition pending_at (c : OuchClient) (l : list Z) : Prop :=
  ∃ i off p, pending_buffer_ c = Some (i, off) ∧ (packets_ c).[i] = Some p ∧
             payload_bytes p off (pending_bytes_ c) = Some l.

Record client_ok (c : OuchClient) : Prop := {
  co_pool : ∀ i p, (packets_ c).[i] = Some p → packet_ok p;
  co_pending : state_ c = PendingWrite → ∃ l, pending_at c l ∧ l ≠ [];
  co_stream : concat (accepted_ c) = wire_ c ++ owed c
}.

(** The calls a correct caller makes. *)
Definition call_ok (n : Z) (op : client_op) : Prop :=
  match op with
  | Send order _ => 0 ≤ order < n
  | Store i p => 0 ≤ i < n ∧ packet_ok p
  | _ => True
  end.

(** No failure of the kernel. *)
Definition kernel_ok (op : client_op) : bool :=
  match op with
  | Connect None | Send _ Fails | Write Fails _ | Write _ None => false
  | Write _ (Some e) => e =? 0
  | _ => true
  end.

Lemma payload_bytes_length p off n l : payload_bytes p off n = Some l → Z.of_nat (length l) = n.
Proof.
  unfold payload_bytes. destruct (_ && _) eqn:E; [|done]. intros [= <-]. zhyps.
  rewrite length_take, length_drop. lia.
Qed.

Lemma payload_bytes_drop p off n l j : payload_bytes p off n = Some l → (j ≤ length l)%nat →
  payload_bytes p (off + Z.of_nat j) (n - Z.of_nat j) = Some (drop j l).
Proof.
  intros Hl Hj. pose proof (payload_bytes_length _ _ _ _ Hl) as Hn. revert Hl.
  unfold payload_bytes. destruct (_ && _) eqn:E; [|done]. intros [= <-]. zhyps.
  destruct (_ && _) eqn:E'.
  - f_equal. rewrite skipn_firstn_comm, drop_drop. f_equal; [lia|]. f_equal. lia.
  - rewrite !andb_false_iff, !Z.leb_gt in E'. lia.
Qed.

Lemma payload_bytes_whole p : packet_ok p → ∃ l, payload_bytes p 0 (packet_len p) = Some l.
Proof.
  intros [H0 H1]. unfold payload_bytes. destruct (_ && _) eqn:E; [eauto|].
  rewrite !andb_false_iff, !Z.leb_gt in E. lia.
Qed.

Lemma owed_pending c l : state_ c = PendingWrite → pending_at c l → owed c = l.
Proof.
  intros Hst (i & off & p & Hb & Hp & Hl). unfold owed.
  by rewrite bool_decide_eq_true_2, Hb, Hp, Hl.
Qed.

Lemma owed_nothing c : state_ c ≠ PendingWrite → owed c = [].
Proof. intros Hst. unfold owed. by rewrite bool_decide_eq_false_2. Qed.

(** What a send does, and what is left to send. *)
Lemma send_run r bytes e c : r ≠ Fails →
  ∃ j, send r bytes e c = (Ok (Z.of_nat j), put_on_wire (take j bytes) c) ∧ (j ≤ length bytes)%nat.
Proof.
  intros Hr. destruct r as [n| |]; [| |done].
  - exists (length (take n bytes)). split; [|rewrite length_take; lia].
    assert (take (length (take n bytes)) bytes = take n bytes) as ->; [|done].
    rewrite length_take. destruct (decide (n ≤ length bytes)%nat); [by rewrite Nat.min_l|].
    by rewrite Nat.min_r, !take_ge by lia.
  - exists 0%nat. split; [|lia]. unfold send, put_on_wire. munfold.
    rewrite take_0, app_nil_r. by destruct c.
Qed.

(** Where a call ends: in a state that is right again, with an exception only
    after a failure of the kernel. *)
Definition ends_ok {A} (op : client_op) (c : OuchClient) (res : outcome A * OuchClient) : Prop :=
  client_ok res.2 ∧ alen (packets_ res.2) = alen (packets_ c) ∧
  ((∃ a, res.1 = Ok a) ∨ kernel_ok op = false ∧ ∃ e, res.1 = Throw e).

Lemma connect_ok rc c : client_ok c → state_ c ≠ PendingWrite →
  ends_ok (Connect rc) c (connect_to_server rc c).
Proof.
  intros [Hp _ Hs] Hst. rewrite owed_nothing in Hs by done.
  assert (client_ok (set_state Connecting c)) as Hc.
  { constructor; [done|done|]. by rewrite owed_nothing. }
  unfold ends_ok, connect_to_server. rewrite bind_modify. destruct rc as [rc|]; cbn; eauto 8.
Qed.

Lemma store_ok i p c : client_ok c → careful (Store i p) c = true →
  call_ok (alen (packets_ c)) (Store i p) → ends_ok (Store i p) c (store_packet i p c).
Proof.
  intros [Hp Hpend Hs] Hcare [Hi Hpk]. unfold ends_ok, store_packet. munfold. rewrite aput_in by done.
  cbn [fst snd packets_ set_packets]. split_and!; [|done|eauto].
  assert (∀ l, state_ c = PendingWrite → pending_at c l →
    pending_at (set_packets (aset (packets_ c) i p) c) l) as Hkeep.
  { intros l Hst (j & off & q & Hb & Hq & Hl). exists j, off, q. split_and!; [done| |done].
    cbn [packets_ set_packets]. rewrite aget_aset_ne; [done|]. intros ->. unfold careful in Hcare.
    rewrite bool_decide_eq_true_2, Hb, Z.eqb_refl in Hcare by done. done. }
  constructor.
  - cbn. intros j q. rewrite aget_aset by done. case_decide; [by intros [= <-]|apply Hp].
  - intros Hst. destruct (Hpend Hst) as (l & Hl & Hne). exists l. split; [by apply Hkeep|done].
  - destruct (decide (state_ c = PendingWrite)) as [Hst|Hst].
    + destruct (Hpend Hst) as (l & Hl & _). cbn [accepted_ wire_ set_packets].
      rewrite (owed_pending (set_packets _ c) l) by (done || by apply Hkeep).
      by rewrite Hs, (owed_pending c l).
    + by rewrite owed_nothing in Hs |- *.
Qed.

Lemma send_order_ok order r c : client_ok c → call_ok (alen (packets_ c)) (Send order r) →
  ends_ok (Send order r) c (send_order order r c).
Proof.
  intros Hc Hi. pose proof Hc as [Hp Hpend Hs]. unfold ends_ok, send_order. rewrite bind_gets.
  destruct (decide (state_ c = PendingWrite)) as [Hst|Hst].
  { rewrite bool_decide_eq_true_2 by done. cbn. eauto. }
  rewrite bool_decide_eq_false_2 by done. rewrite bind_gets.
  destruct (aget_in (packets_ c) order Hi) as [p Hpk]. rewrite Hpk. cbn [of_option]. rewrite bind_mret.
  destruct (payload_bytes_whole p (Hp _ _ Hpk)) as [l Hl]. rewrite Hl. cbn [of_option]. rewrite bind_mret.
  pose proof (payload_bytes_length _ _ _ _ Hl) as Hlen. rewrite owed_nothing, app_nil_r in Hs by done.
  destruct (decide (r = Fails)) as [->|Hr]; [cbn; eauto 8|].
  destruct (send_run r l (runtime_error "OuchClient::send_order(): Unable to send order to server.") c Hr)
    as (j & E & Hj). mstep E. rewrite bind_modify.
  destruct (Z.ltb_spec (Z.of_nat j) (packet_len p)) as [Hlt|Hge].
  - rewrite !bind_modify. cbn [mret M_ret fst snd]. split_and!; [|done|eauto].
    assert (pending_at (set_pending (order, Z.of_nat j) (packet_len p - Z.of_nat j)
      (set_state PendingWrite (accept_order l (put_on_wire (take j l) c)))) (drop j l)) as Hpd.
    { exists order, (Z.of_nat j), p. split_and!; [done|done|].
      by apply (payload_bytes_drop p 0 (packet_len p) l j). }
    constructor; [done| |].
    + intros _. exists (drop j l). split; [done|]. intros Hd%(f_equal length).
      rewrite length_drop in Hd. simpl in Hd. lia.
    + rewrite (owed_pending _ (drop j l)) by done. cbn.
      rewrite concat_app, Hs, <- app_assoc, take_drop. cbn. by rewrite app_nil_r.
  - cbn [mret M_ret fst snd]. split_and!; [|done|eauto]. constructor; [done|done|].
    rewrite owed_nothing by done. cbn. rewrite concat_app, Hs, (take_ge l j) by lia. cbn.
    by rewrite !app_nil_r.
Qed.

Lemma handle_write_ok r so_error c : client_ok c → ends_ok (Write r so_error) c (handle_write r so_error c).
Proof.
  intros Hc. pose proof Hc as [Hp Hpend Hs]. unfold ends_ok, handle_write. rewrite bind_gets.
  case_bool_decide as Hcon.
  { destruct so_error as [e|]; [|destruct r; cbn; eauto 8].
    destruct (Z.eqb_spec e 0) as [->|He]; cbn [negb].
    - rewrite bind_modify. cbn. split_and!; [|done|eauto]. constructor; [done|done|].
      rewrite owed_nothing in Hs |- * by (done || congruence). done.
    - assert (kernel_ok (Write r (Some e)) = false).
      { destruct r; [by apply Z.eqb_neq..|done]. }
      cbn -[kernel_ok]. eauto 8. }
  case_bool_decide as Hst; [|cbn; eauto].
  destruct (Hpend Hst) as (l & (i & off & p & Hb & Hpk & Hl) & Hne).
  pose proof (payload_bytes_length _ _ _ _ Hl) as Hlen.
  rewrite (owed_pending c l) in Hs by (done || by exists i, off, p).
  rewrite bind_gets, Hb. cbn [of_option]. rewrite bind_mret, !bind_gets, Hpk. cbn [of_option].
  rewrite bind_mret, Hl. cbn [of_option]. rewrite bind_mret.
  destruct (decide (r = Fails)) as [->|Hr]; [destruct so_error; cbn; eauto 8|].
  destruct (send_run r l (runtime_error "OuchClient::handle_write(): Unable to send order to server.") c Hr)
    as (j & E & Hj). mstep E.
  destruct (Z.ltb_spec (Z.of_nat j) (pending_bytes_ c)) as [Hlt|Hge].
  - rewrite bind_modify. cbn [mret M_ret fst snd]. split_and!; [|done|eauto].
    assert (pending_at (set_pending (i, off + Z.of_nat j) (pending_bytes_ c - Z.of_nat j)
      (put_on_wire (take j l) c)) (drop j l)) as Hpd.
    { exists i, (off + Z.of_nat j), p. split_and!; [done|done|]. by apply payload_bytes_drop. }
    constructor; [done| |].
    + intros _. exists (drop j l). split; [done|]. intros Hd%(f_equal length).
      rewrite length_drop in Hd. simpl in Hd. lia.
    + rewrite (owed_pending _ (drop j l)) by done. cbn. by rewrite Hs, <- app_assoc, take_drop.
  - rewrite bind_modify. cbn [mret M_ret fst snd]. split_and!; [|done|eauto].
    constructor; [done|done|]. rewrite owed_nothing by done. cbn. by rewrite Hs, app_nil_r, take_ge by lia.
Qed.

Lemma run_client_op_ok op c : client_ok c → careful op c = true → call_ok (alen (packets_ c)) op →
  ends_ok op c (run_client_op op c).
Proof.
  intros Hc Hcare Hcall.
  assert (∀ {A} (m : M OuchClient A), ends_ok op c (m c) → ends_ok op c ((_ ← m; mret tt) c)) as Hbind.
  { intros A m. unfold ends_ok, mbind, M_bind. destruct (m c) as [[a|e| |] c1]; cbn; naive_solver. }
  destruct op as [rc|order r|r so_error|i p]; cbn [run_client_op].
  - apply Hbind, connect_ok; [done|]. intros Hst. unfold careful in Hcare.
    by rewrite bool_decide_eq_true_2 in Hcare.
  - by apply Hbind, send_order_ok.
  - by apply Hbind, handle_write_ok.
  - by apply store_ok.
Qed.

Lemma run_client_ops_ok ops c : client_ok c → all_careful ops c = true →
  Forall (call_ok (alen (packets_ c))) ops →
  client_ok (run_client_ops ops c).2 ∧
  ((run_client_ops ops c).1 = Ok tt ∨
   Exists (λ op, kernel_ok op = false) ops ∧ ∃ e, (run_client_ops ops c).1 = Throw e).
Proof.
  revert c. induction ops as [|op ops IH]; intros c Hc Hcare Hcall; [by split; [|left]|].
  cbn [all_careful run_client_ops] in *. apply andb_true_iff in Hcare as [Hcare Hrest].
  apply Forall_cons in Hcall as [Hcall Hcalls].
  destruct (run_client_op_ok op c Hc Hcare Hcall) as (Hc1 & Hlen & Hres).
  unfold mbind, M_bind. destruct (run_client_op op c) as [[[]|e| |] c1]; cbn [fst snd] in *.
  - rewrite <- Hlen in Hcalls. destruct (IH c1 Hc1 Hrest Hcalls) as [H1 [H2|[H2 H3]]]; eauto 6.
  - split; [done|]. right. destruct Hres as [[? [=]]|[? _]]. eauto 6.
  - destruct Hres as [[? [=]]|[_ [? [=]]]].
  - destruct Hres as [[? [=]]|[_ [? [=]]]].
Qed.

Lemma new_client_ok packets c : (∀ i p, packets.[i] = Some p → packet_ok p) →
  OuchClient_new true true true packets = Ok c → client_ok c ∧ packets_ c = packets.
Proof. intros Hp [= <-]. split; [|done]. by constructor. Qed.

(** * The theorems *)

(** C19 The stream of orders: for a pool of packets whose [packet_len] is
    within their payload, whatever orders of the pool the caller sends,
    whatever such packets it stores, and however many bytes the socket takes
    each time, the bytes on the wire followed by those the client still owes
    are the accepted orders one after the other: no order is cut, mixed with
    another or sent twice, and nothing outside a packet is read. The caller
    must not overwrite the packet that is being sent or connect again while a
    write is pending ([all_careful]); an exception comes only from a failure of
    the kernel and leaves the same invariant. *)
Theorem ouch_stream_is_accepted_orders packets c ops :
  (∀ i p, packets.[i] = Some p → packet_ok p) → OuchClient_new true true true packets = Ok c →
  Forall (call_ok (alen packets)) ops → all_careful ops c = true →
  let '(r, c') := run_client_ops ops c in
  concat (accepted_ c') = wire_ c' ++ owed c' ∧ (state_ c' = PendingWrite ↔ owed c' ≠ []) ∧
  (r = Ok tt ∨ Exists (λ op, kernel_ok op = false) ops ∧ ∃ e, r = Throw e).
Proof.
  intros Hp Hnew Hcall Hcare. destruct (new_client_ok packets c Hp Hnew) as [Hc <-].
  destruct (run_client_ops_ok ops c Hc Hcare Hcall) as [Hc' Hr].
  destruct (run_client_ops ops c) as [r c']. cbn [fst snd] in *.
  split_and!; [apply Hc'| |done]. split.
  - intros Hst. destruct (co_pending _ Hc' Hst) as (l & Hl & Hne). by rewrite (owed_pending c' l).
  - intros Ho. destruct (decide (state_ c' = PendingWrite)) as [|Hst]; [done|].
    by rewrite owed_nothing in Ho.
Qed.

Definition sample_packets : array OuchPacket :=
  aset (aset (anew 4 null_packet) 0 (mkPacket 50 (replicate 50 7))) 1 (mkPacket 50 (replicate 50 8)).

Definition sample_calls : list client_op :=
  [Connect (Some (-1)); Write (Takes 0) (Some 0); Send 0 (Takes 20); Send 1 (Takes 50);
   Write WouldBlock (Some 0); Write (Takes 10) (Some 0); Write (Takes 90) (Some 0);
   Store 0 (mkPacket 3 (replicate 50 9)); Send 1 (Takes 50); Send 0 (Takes 1)].

Lemma ouch_stream_is_accepted_orders_witness :
  match OuchClient_new true true true sample_packets with
  | Ok c => wire_ (run_client_ops sample_calls c).2 ++ owed (run_client_ops sample_calls c).2 =
            replicate 50 7 ++ replicate 50 8 ++ [9; 9; 9]
  | _ => False
  end.
Proof.
  cbn [OuchClient_new negb]. set (c := mkClient _ _ _ _ _ _).
  pose proof (ouch_stream_is_accepted_orders sample_packets c sample_calls) as H.
  destruct (run_client_ops sample_calls c) as [r c'] eqn:E. cbn [snd].
  destruct H as (<- & _).
  - intros i p. unfold sample_packets. rewrite !aget_aset by (cbn; lia).
    do 2 (case_decide; [intros [= <-]; split; cbn; lia|]).
    intros Hi. pose proof (aget_Some_bounds _ _ _ Hi) as Hb.
    rewrite aget_anew in Hi by done. injection Hi as <-. split; cbn; lia.
  - reflexivity.
  - repeat constructor; cbn; lia.
  - by vm_compute.
  - revert E. vm_compute. by intros [= <- <-].
Defined.

(** A send before the connection is up hides a failed connection: when
    [send_order] is called in state Connecting and the socket is not ready,
    the client goes to PendingWrite; the next [handle_write] then never asks
    for [SO_ERROR], and once the bytes are taken reports the client Connected,
    whatever the outcome of the connection was. *)
Theorem early_send_skips_connection_check c order p so_error n :
  state_ c = Connecting → (packets_ c).[order] = Some p → packet_ok p →
  0 < packet_len p → packet_len p ≤ Z.of_nat n →
  ∃ c1 c2, send_order order WouldBlock c = (Ok false, c1) ∧ state_ c1 = PendingWrite ∧
    handle_write (Takes n) so_error c1 = (Ok true, c2) ∧ state_ c2 = Connected.
Proof.
  intros Hst Hp Hok H0 Hn. destruct (payload_bytes_whole p Hok) as [l Hl].
  pose proof (payload_bytes_length _ _ _ _ Hl) as Hlen.
  unfold send_order. rewrite bind_gets, Hst, bool_decide_eq_false_2 by done.
  rewrite bind_gets, Hp. cbn [of_option]. rewrite bind_mret, Hl. cbn [of_option send].
  rewrite !bind_mret, bind_modify, (proj2 (Z.ltb_lt 0 (packet_len p))) by done.
  rewrite !bind_modify. eexists _, _. split; [done|]. split; [done|].
  unfold handle_write. rewrite bind_gets, bool_decide_eq_false_2, bool_decide_eq_true_2 by done.
  munfold. cbn [pending_buffer_ pending_bytes_ packets_ set_pending set_state accept_order].
  rewrite Hp, Z.sub_0_r, Hl. unfold send. rewrite (take_ge l n) by lia. munfold.
  by rewrite (proj2 (Z.ltb_ge (Z.of_nat (length l)) (packet_len p))) by lia.
Qed.

Lemma early_send_skips_connection_check_witness :
  ∃ c1 c2, send_order 0 WouldBlock (mkClient Connecting None 0 sample_packets [] []) = (Ok false, c1) ∧
    state_ c1 = PendingWrite ∧ handle_write (Takes 50) (Some 111) c1 = (Ok true, c2) ∧
    state_ c2 = Connected.
Proof.
  apply (early_send_skips_connection_check _ 0 (mkPacket 50 (replicate 50 7)));
    [reflexivity|reflexivity|split; cbn; lia|cbn; lia|cbn; lia].
Defined.
