(* ===== verification/LivePipeline.v ===== *)
(** The two threads of the program around the order queue (src/src/main.cpp,
    [consume], and src/src/protocol/ItchParser.h, [parse_block]), at the level
    of the queue's shared accesses.

    Pipeline.v lets the consumer run after each block.  Here the producer
    pushes the orders of its messages one after the other, the consumer pops
    and dispatches, and every step of every call of [push] and [pop] may
    interleave with the steps of the other thread, with stale loads
    (SPSCQueue.v).  A push that finds the queue full drops its order, as
    [parse_block] does.  [pop] returns when it stores the head; the dispatch
    that follows touches only the book, so it is part of that step.  An order
    whose dispatch throws ends the consumer: there is no step. *)

From S2P Require Import Prelude Interfaces HierarchicalBitset StaticOrderMap SPSCQueue ItchOrderTypes LimitOrderBook MockOrderBook BookTheorems Crc32 MmapLogger ItchParser ParserTheorems RecoveryEngine Pipeline.

Record Live : Type := mkLive {
  queue_cfg : config (T := NormalizedOrder);
  todo : list NormalizedOrder;
  dropped : list NormalizedOrder;
  live_book : Book
}.

Section Live.
Context (Size : Z).
Implicit Types (L : Live) (o : NormalizedOrder) (c : config (T := NormalizedOrder)).

Definition live_new (d : NormalizedOrder) (os : list NormalizedOrder) (b : Book) : Live :=
  mkLive (config_new Size d) os [] b.

(** A step of the producer inside a call that ends without storing the tail
    has found the queue full. *)
Definition refused (c c' : config (T := NormalizedOrder)) : list NormalizedOrder :=
  match producer c, producer c' with
  | PLoadHead o _, PIdle => [o]
  | _, _ => []
  end.

Inductive live_step : Live → Live → Prop :=
| live_call c o os dr b t :
    producer c = PIdle → last (tail_stores c) = Some t →
    live_step (mkLive c (o :: os) dr b) (mkLive (set_producer (PCheck o t) c) os dr b)
| live_push c c' os dr b :
    producer c ≠ PIdle → push_step Size c c' →
    live_step (mkLive c os dr b) (mkLive c' os (dr ++ refused c c') b)
| live_pop c c' os dr b :
    (∀ o h, consumer c ≠ CPublish o h) → pop_step Size c c' →
    live_step (mkLive c os dr b) (mkLive c' os dr b)
| live_dispatch c c' os dr b b' o h :
    consumer c = CPublish o h → pop_step Size c c' → dispatch o b = (Ok tt, b') →
    live_step (mkLive c os dr b) (mkLive c' os dr b').

(** The order the producer is pushing. *)
Definition pushing (c : config (T := NormalizedOrder)) : list NormalizedOrder :=
  match producer c with
  | PIdle => []
  | PCheck o _ | PLoadHead o _ | PWrite o _ | PPublish o _ => [o]
  end.

(** ** The invariant *)

Record live_ok (d : NormalizedOrder) (os : list NormalizedOrder) (b0 : Book) L : Prop := {
  lo_reachable : reachable Size d (queue_cfg L);
  lo_book : apply_orders (popped (queue_cfg L)) b0 = (Ok tt, live_book L);
  lo_count : length os = (length (pushed (queue_cfg L)) + length (dropped L) +
                          length (pushing (queue_cfg L)) + length (todo L))%nat;
  lo_order : ∃ done, os = done ++ pushing (queue_cfg L) ++ todo L ∧
                     pushed (queue_cfg L) `sublist_of` done ∧ dropped L `sublist_of` done
}.

Lemma push_step_history c c' : push_step Size c c' → producer c ≠ PIdle →
  popped c' = popped c ∧
  ((pushed c' = pushed c ∧ refused c c' = [] ∧ pushing c' = pushing c) ∨
   (pushed c' = pushed c ++ pushing c ∧ refused c c' = [] ∧ pushing c' = []) ∨
   (pushed c' = pushed c ∧ refused c c' = pushing c ∧ pushing c' = [])).
Proof.
  intros Hstep Hidle. unfold refused, pushing.
  destruct Hstep as [c x t Hp Ht|c x t Hp Hc|c x t Hp Hc|c x t j v Hp Hk Hv Hne|c x t j v Hp Hk Hv Heq
                    |c x t a Hp Ha|c x t Hp]; rewrite Hp in *; simpl; naive_solver.
Qed.

Lemma pop_step_history c c' : pop_step Size c c' →
  pushed c' = pushed c ∧ producer c' = producer c ∧
  popped c' = popped c ++ match consumer c with CPublish o _ => [o] | _ => [] end.
Proof.
  intros Hstep. destruct Hstep as [c h Hc Hh|c h Hc Hne|c h Hc Heq|c h j v Hc Hk Hv Hne|c h j v Hc Hk Hv Heq
                    |c h x Hc Hx|c x h Hc]; rewrite Hc; simpl; rewrite ?app_nil_r; done.
Qed.

Lemma live_step_ok d os b0 L L' : live_ok d os b0 L → live_step L L' → live_ok d os b0 L'.
Proof.
  intros [Hr Hb Hn (dn & Hos & Hpu & Hdr)] Hstep.
  assert (∀ c', step Size (queue_cfg L) c' → reachable Size d c') as Hreach.
  { intros c' Hs. eapply rtc_r; [exact Hr|exact Hs]. }
  destruct Hstep as [c o os' dr b t Hp Ht|c c' os' dr b Hp Hs|c c' os' dr b Hc Hs|c c' os' dr b b' o h Hc Hs Hd];
    cbn [queue_cfg todo dropped live_book] in *.
  - assert (push_step Size c (set_producer (PCheck o t) c)) as Hs by by constructor.
    unfold pushing in *. rewrite Hp in *. cbn in *.
    constructor; cbn; [apply Hreach; by left|done|lia|by exists dn].
  - destruct (push_step_history c c' Hs Hp) as (Hpop & Hcase).
    constructor; cbn [queue_cfg todo dropped live_book]; [apply Hreach; by left|by rewrite Hpop|..].
    + rewrite length_app. destruct Hcase as [(-> & -> & ->)|[(-> & -> & ->)|(-> & -> & ->)]];
        rewrite ?length_app; simpl; lia.
    + destruct Hcase as [(-> & -> & ->)|[(-> & -> & ->)|(-> & -> & ->)]].
      * exists dn. by rewrite app_nil_r.
      * exists (dn ++ pushing c). rewrite app_nil_r, <- app_assoc. split_and!; [done| |].
        -- by apply sublist_app.
        -- by apply sublist_inserts_r.
      * exists (dn ++ pushing c). rewrite <- app_assoc. split_and!; [done|by apply sublist_inserts_r|].
        by apply sublist_app.
  - destruct (pop_step_history c c' Hs) as (Hpu' & Hpr & Hpo). unfold pushing in *. rewrite <- Hpr in *.
    constructor; cbn; [apply Hreach; by right| |by rewrite Hpu'|exists dn; by rewrite Hpu'].
    rewrite Hpo. destruct (consumer c) as [| | | |o h]; rewrite ?app_nil_r; try done. by edestruct Hc.
  - destruct (pop_step_history c c' Hs) as (Hpu' & Hpr & Hpo). unfold pushing in *. rewrite <- Hpr in *.
    constructor; cbn; [apply Hreach; by right| |by rewrite Hpu'|exists dn; by rewrite Hpu'].
    rewrite Hpo, Hc. by erewrite apply_orders_snoc.
Qed.

Lemma live_reachable d os b L : rtc live_step (live_new d os b) L → live_ok d os b L.
Proof.
  intros Hr. assert (live_ok d os b (live_new d os b)) as H0.
  { constructor; [apply rtc_refl|done|by simpl|]. exists []. done. }
  revert L Hr. apply rtc_ind_r; [done|]. intros L L' _ Hs IH. by eapply live_step_ok.
Qed.
End Live.

Lemma sublist_same_length {A} (l1 l2 : list A) : l1 `sublist_of` l2 → length l1 = length l2 → l1 = l2.
Proof.
  induction 1 as [|x l1 l2 Hs IH|x l1 l2 Hs IH]; intros Hl; [done|simpl in Hl; f_equal; auto|].
  apply sublist_length in Hs. simpl in Hl. lia.
Qed.

(** When everything has been pushed and popped and nothing dropped. *)
Definition live_done (L : Live) : Prop :=
  todo L = [] ∧ producer (queue_cfg L) = PIdle ∧ dropped L = [] ∧
  popped (queue_cfg L) = pushed (queue_cfg L).

Lemma live_done_all Size d os b L : live_ok Size d os b L → live_done L → pushed (queue_cfg L) = os.
Proof.
  intros [_ _ Hn (dn & Hos & Hpu & _)] (Ht & Hp & Hdr & _).
  unfold pushing in *. rewrite Ht, Hp, Hdr in *. rewrite !app_nil_r in Hos. subst dn.
  apply sublist_same_length; [done|]. simpl in Hn. lia.
Qed.

(** * The theorem *)

(** C9 The book in any interleaving: the producer parses and logs whole
    messages, whose frames and two bytes more fit the log and of which the last
    did not leave the byte of the marker after its frame, and pushes their
    orders; the consumer pops and dispatches, step by step in any order and
    with stale loads. At every moment the book is the result of applying the
    orders popped so far, which are a prefix of those pushed, which are orders
    of the messages in their order. When all have been pushed and popped and
    none was dropped, replaying the log into a copy of the initial book gives
    exactly the live book. *)
Theorem live_book_in_any_interleaving e tsc ms d lg p b L page_size fuel :
  0 ≤ e ≤ 63 → MmapLogger_new true true true true = Ok lg →
  Forall (λ m, whole_message m = true) ms → Forall (Forall is_byte) ms →
  64 * Z.of_nat (length ms) + 2 ≤ FILE_SIZE →
  parse_block (2 ^ e) tsc (S (length (concat ms))) (concat ms)
    (ItchParser_new (SPSCQueue_new (2 ^ e) d) lg) = (Ok tt, p) →
  rtc (live_step (2 ^ e)) (live_new (2 ^ e) d (omap decode ms) b) L →
  0 < page_size → (page_size | FILE_SIZE) →
  fold_left (λ _ m, overrun m) ms 0 ≠ VALID_FRAME_MARKER → (length ms < fuel)%nat →
  apply_orders (popped (queue_cfg L)) b = (Ok tt, live_book L) ∧
  popped (queue_cfg L) `prefix_of` pushed (queue_cfg L) ∧
  pushed (queue_cfg L) `sublist_of` omap decode ms ∧
  (live_done L → ∃ file, start_ (logger_ p) = Some file ∧
     run_recovery fuel page_size (Some file) true true (RecoveryEngine_new b) =
       (Ok tt, mkEngine (live_book L) (report_at (length ms) 0))).
Proof.
  intros He Hlg Hw Hb Hroom Hparse Hlive Hpage Hdiv Hnext Hfuel.
  pose proof (live_reachable _ _ _ _ _ Hlive) as R. pose proof (lo_book _ _ _ _ _ R) as Hbook.
  split_and!; [done| | |].
  - apply (ok_fifo (2 ^ e)). by eapply reachable_ok, (lo_reachable _ _ _ _ _ R).
  - destruct (lo_order _ _ _ _ _ R) as (dn & -> & Hs & _). by apply sublist_inserts_r.
  - intros Hdone. pose proof (live_done_all _ _ _ _ _ R Hdone) as Hall.
    destruct Hdone as (_ & _ & _ & Hpop). rewrite Hpop, Hall in Hbook.
    destruct (parse_block_rep e tsc ms [] (S (length (concat ms)))
      (ItchParser_new (SPSCQueue_new (2 ^ e) d) lg) [] 0 []) as (p' & Hrun & Hp); try done.
    { rewrite app_nil_r. by apply Forall_concat. }
    { pose proof (length_concat_whole ms Hw). lia. }
    { by apply new_parser_rep. }
    rewrite app_nil_r, Hparse in Hrun. injection Hrun as <-.
    by eapply (log_recovers e tsc p ms).
Qed.

Definition sample_message : list Z :=
  encode (NAdd (mkAddOrder 0 77 100 650 0 0 (replicate 8 32) char_B)).

(** One order through the queue, step by step. *)
Lemma sample_live b b' : apply_orders (omap decode [sample_message]) b = (Ok tt, b') →
  ∃ L, rtc (live_step (2 ^ 1))
         (live_new (2 ^ 1) (NCancel (mkCancelOrder 0 0 0 0 0)) (omap decode [sample_message]) b) L ∧
       live_done L.
Proof.
  set (o := NAdd (mkAddOrder 0 77 100 650 0 0 (replicate 8 32) char_B)).
  assert (omap decode [sample_message] = [o]) as -> by by vm_compute.
  cbn [apply_orders]. unfold mbind, M_bind.
  destruct (dispatch o b) as [[[]| | |] b1] eqn:Hd; try done. intros _. eexists. split.
  - eapply rtc_l; [by eapply (live_call _ _ _ _ _ _ 0)|].
    eapply rtc_l; [eapply live_push; [done|by eapply (push_cached _ _ o 0)]|].
    eapply rtc_l; [eapply live_push; [done|by eapply (push_write _ _ o 0)]|].
    eapply rtc_l; [eapply live_push; [done|by eapply (push_publish _ _ o 0)]|].
    eapply rtc_l; [eapply live_pop; [done|by eapply (pop_call _ _ 0)]|].
    eapply rtc_l; [eapply live_pop; [done|by eapply (pop_reload _ _ 0)]|].
    eapply rtc_l; [eapply live_pop; [done|eapply (pop_some _ _ 0 1 1); [done|simpl; lia|done|done]]|].
    eapply rtc_l; [eapply live_pop; [done|by eapply (pop_read _ _ 0 o)]|].
    eapply rtc_l; [eapply live_dispatch; [done|by eapply (pop_publish _ _ o 0)|exact Hd]|].
    apply rtc_refl.
  - done.
Qed.

Lemma live_book_in_any_interleaving_witness :
  match new_book 4 4096 true true with
  | Ok b => ∃ L file rep,
      apply_orders [NAdd (mkAddOrder 0 77 100 650 0 0 (replicate 8 32) char_B)] b = (Ok tt, live_book L) ∧
      run_recovery 10 4096 (Some file) true true (RecoveryEngine_new b) = (Ok tt, mkEngine (live_book L) rep)
  | _ => False
  end.
Proof.
  destruct (new_book 4 4096 true true) as [b| | |] eqn:E; [|by vm_compute in E..].
  assert (∃ b', apply_orders (omap decode [sample_message]) b = (Ok tt, b')) as [b' Happ].
  { revert E. unfold new_book, StaticOrderMap_new. cbn [negb]. intros E. injection E as <-.
    eexists. vm_compute. reflexivity. }
  destruct (sample_live b b' Happ) as (L & Hlive & Hdone).
  destruct (parse_block (2 ^ 1) (λ n, n) (S (length (concat [sample_message]))) (concat [sample_message])
    (ItchParser_new (SPSCQueue_new (2 ^ 1) (NCancel (mkCancelOrder 0 0 0 0 0)))
       (mkLogger (Some (anew FILE_SIZE 0)) 0))) as [r p] eqn:Ep.
  assert (r = Ok tt) as -> by (vm_compute in Ep; by injection Ep as <- _).
  destruct (live_book_in_any_interleaving 1 (λ n, n) [sample_message] _ _ p b L 4096 10
    ltac:(lia) eq_refl ltac:(repeat constructor; by vm_compute)
    ltac:(apply (bool_decide_unpack _); by vm_compute) ltac:(by vm_compute) Ep Hlive ltac:(lia)
    ltac:(by exists 262144) ltac:(by vm_compute) ltac:(vm_compute; lia)) as (Hb & _ & _ & Hrec).
  destruct (Hrec Hdone) as (file & _ & Hrun). exists L, file. eexists. split; [|exact Hrun].
  pose proof (live_done_all _ _ _ _ _ (live_reachable _ _ _ _ _ Hlive) Hdone) as Hall.
  destruct Hdone as (_ & _ & _ & Hpop). rewrite Hpop, Hall in Hb. exact Hb.
Defined.
