(* ===== verification/MachineTypes.v ===== *)
(** The widths of the machine integers.

    The book, the id map and the bitsets are modelled with integers of [Z]; the
    code stores them in 32-bit and 64-bit unsigned fields (the structs of
    src/src/book/LimitOrderBook.h, src/src/utils/StaticOrderMap.h and
    src/src/utils/HierarchicalBitset.h).  Here every field is shown to stay
    within its width, whatever the orders are and however an operation ends,
    so that the model never holds a number the code could not.

    The typing lemmas of the operations are rules of [keeps] (Prelude.v) in the
    hint database [typed]. *)

From S2P Require Import Prelude Interfaces HierarchicalBitset StaticOrderMap SPSCQueue ItchOrderTypes LimitOrderBook BookTheorems Crc32 MmapLogger ItchParser ParserTheorems.

(** Arrays whose cells satisfy a predicate. *)
Definition all_cells {A} (R : A → Prop) (a : array A) : Prop := ∀ i x, a.[i] = Some x → R x.

Lemma all_cells_aput {A} (R : A → Prop) (a a' : array A) i x : all_cells R a → R x →
  aput a i x = Some a' → all_cells R a'.
Proof.
  intros Ha Hx. unfold aput. destruct (in_bounds (alen a) i) eqn:E; [|done]. intros [= <-] j y.
  apply in_bounds_spec in E. rewrite aget_aset by done. case_decide; [by intros [= <-]|apply Ha].
Qed.

Lemma all_cells_anew {A} (R : A → Prop) n d : R d → all_cells R (anew n d).
Proof.
  intros Hd i x Hx. pose proof (aget_Some_bounds _ _ _ Hx). rewrite aget_anew in Hx by done.
  by injection Hx as <-.
Qed.

Section Cells.
Context {S C : Type} (P : S → Prop) (R : C → Prop) (get : S → array C) (set : array C → S → S).
Hypothesis get_ok : ∀ s, P s → all_cells R (get s).
Hypothesis set_ok : ∀ s a, P s → all_cells R a → P (set a s).

Lemma keeps_load i : keeps P R (a ← gets get; of_option (a.[i])).
Proof.
  intros s Hs. munfold. destruct (get s).[i] as [x|] eqn:E; [|done]. split; [done|].
  intros a [= <-]. by eapply get_ok.
Qed.

Lemma keeps_update i f : (∀ x, R x → R (f x)) → keeps P (λ _, True)
  (a ← gets get; x ← of_option (a.[i]); a' ← of_option (aput a i (f x)); modify (set a')).
Proof.
  intros Hf s Hs. munfold. destruct (get s).[i] as [x|] eqn:E; [|done].
  destruct (aput (get s) i (f x)) as [a'|] eqn:E'; [|done]. split; [|done].
  apply set_ok; [done|]. eapply all_cells_aput; [by apply get_ok|apply Hf; by eapply get_ok|done].
Qed.

Lemma keeps_store i x : R x → keeps P (λ _, True)
  (a ← gets get; a' ← of_option (aput a i x); modify (set a')).
Proof.
  intros Hx s Hs. munfold. destruct (aput (get s) i x) as [a'|] eqn:E'; [|done]. split; [|done].
  apply set_ok; [done|]. eapply all_cells_aput; [by apply get_ok|done..].
Qed.
End Cells.

(** * The fields *)

Definition order_in_range (o : Order) : Prop :=
  in_range 64 (order_reference_number o) ∧ in_range 32 (shares o) ∧ in_range 32 (price o) ∧
  in_range 32 (next o) ∧ in_range 32 (prev o).

Definition level_in_range (l : PriceLevel) : Prop := in_range 32 (head l) ∧ in_range 32 (tail l).

Definition bucket_in_range (b : Bucket) : Prop := in_range 64 (order_id b) ∧ in_range 32 (pool_idx b).

Definition map_in_range (m : StaticOrderMap) : Prop := all_cells bucket_in_range (map_ m).

Definition bitset_in_range (b : HierarchicalBitset) : Prop :=
  all_cells (in_range 64) (first_level_ b) ∧ all_cells (in_range 64) (second_level_ b) ∧
  in_range 64 (third_level_ b).

Record book_in_range (b : Book) : Prop := {
  br_pool : all_cells order_in_range (pool_ b);
  br_bids : all_cells level_in_range (bids_ b);
  br_asks : all_cells level_in_range (asks_ b);
  br_orders : map_in_range (orders_ b);
  br_bids_bitset : bitset_in_range (bids_bitset_ b);
  br_asks_bitset : bitset_in_range (asks_bitset_ b);
  br_next_free : in_range 32 (next_free_index_ b)
}.

(** The structs of ItchOrderTypes.h. *)
Definition normalized_in_range (o : NormalizedOrder) : Prop :=
  match o with
  | NAdd o => in_range 64 (ao_timestamp o) ∧ in_range 64 (ao_order_reference_number o) ∧
      in_range 32 (ao_shares o) ∧ in_range 32 (ao_price o) ∧ in_range 16 (ao_stock_locate o) ∧
      in_range 16 (ao_tracking_number o) ∧ Forall is_byte (ao_stock o) ∧ is_byte (ao_indicator o)
  | NExecute o => in_range 64 (eo_timestamp o) ∧ in_range 64 (eo_order_reference_number o) ∧
      in_range 64 (eo_match_number o) ∧ in_range 32 (eo_shares o) ∧ in_range 16 (eo_stock_locate o) ∧
      in_range 16 (eo_tracking_number o)
  | NCancel o => in_range 64 (co_timestamp o) ∧ in_range 64 (co_order_reference_number o) ∧
      in_range 32 (co_shares o) ∧ in_range 16 (co_stock_locate o) ∧ in_range 16 (co_tracking_number o)
  end.

(** * The id map *)

Lemma load_bucket_typed i : keeps map_in_range bucket_in_range (load_bucket i).
Proof. by apply keeps_load. Qed.

Lemma store_bucket_typed i b : bucket_in_range b → keeps map_in_range (λ _, True) (store_bucket i b).
Proof. by apply keeps_store. Qed.

(** The probing loops only read. *)
Lemma find_typed id : keeps map_in_range (λ _, True) (find id).
Proof. apply keeps_same; [|done]. intros s. unfold find. by destruct (loop_pos _ _ _). Qed.

Lemma insert_probe_typed id : keeps map_in_range (λ _, True) (insert_probe id).
Proof. apply keeps_same; [|done]. intros s. unfold insert_probe. by destruct (loop_pos _ _ _). Qed.

Lemma get_state_typed {S} (P : S → Prop) : keeps P (λ _, True) get_state.
Proof. by apply keeps_gets. Qed.

#[export] Hint Resolve load_bucket_typed store_bucket_typed find_typed insert_probe_typed
  get_state_typed : typed.

Lemma bucket_typed id idx st : in_range 64 id → in_range 32 idx → bucket_in_range (mkBucket id idx st).
Proof. by split. Qed.
#[export] Hint Resolve bucket_typed : typed.

Lemma order_id_typed b : bucket_in_range b → in_range 64 (order_id b).
Proof. by intros []. Qed.
Lemma pool_idx_typed b : bucket_in_range b → in_range 32 (pool_idx b).
Proof. by intros []. Qed.
Lemma zero_typed : in_range 32 0.
Proof. by unfold in_range. Qed.
#[export] Hint Resolve order_id_typed pool_idx_typed zero_typed : typed.

Lemma insert_typed id idx : in_range 64 id → in_range 32 idx →
  keeps map_in_range (λ _, True) (insert id idx).
Proof. intros Hid Hidx. unfold insert. typed. Qed.
#[export] Hint Resolve insert_typed : typed.

Lemma operator_index_typed id : in_range 64 id → keeps map_in_range (λ _, True) (operator_index id).
Proof. intros Hid. unfold operator_index. typed. Qed.
#[export] Hint Resolve operator_index_typed : typed.

Lemma index_assign_typed id idx : in_range 64 id → in_range 32 idx →
  keeps map_in_range (λ _, True) (index_assign id idx).
Proof. intros Hid Hidx. unfold index_assign. typed. Qed.

Lemma erase_typed id : keeps map_in_range (λ _, True) (erase id).
Proof. unfold erase. typed. Qed.

Definition some_in_range (w : Z) (o : option Z) : Prop := ∀ v, o = Some v → in_range w v.

Lemma some_in_range_Some w v : in_range w v → some_in_range w (Some v).
Proof. by intros H ? [= <-]. Qed.
Lemma some_in_range_None w : some_in_range w None.
Proof. by intros ?. Qed.
#[export] Hint Resolve some_in_range_Some some_in_range_None : typed.

Lemma find_pool_idx_typed id : keeps map_in_range (some_in_range 32) (find_pool_idx id).
Proof. unfold find_pool_idx. typed. Qed.

(** * The bitsets *)

Lemma load_first_typed i : keeps bitset_in_range (in_range 64) (load_first i).
Proof. apply keeps_load. by intros s []. Qed.
Lemma load_second_typed i : keeps bitset_in_range (in_range 64) (load_second i).
Proof. apply keeps_load. by intros s (? & ? & ?). Qed.
Lemma third_typed : keeps bitset_in_range (in_range 64) (gets third_level_).
Proof. apply keeps_gets. by intros s (? & ? & ?). Qed.
Lemma store_first_typed i w : in_range 64 w → keeps bitset_in_range (λ _, True) (store_first i w).
Proof. apply keeps_store; [by intros s []|]. by intros s a (? & ? & ?). Qed.
Lemma store_second_typed i w : in_range 64 w → keeps bitset_in_range (λ _, True) (store_second i w).
Proof. apply keeps_store; [by intros s (? & ? & ?)|]. by intros s a (? & ? & ?). Qed.
Lemma set_third_typed w : in_range 64 w → keeps bitset_in_range (λ _, True) (modify (set_third w)).
Proof. intros Hw. apply keeps_modify. by intros s (? & ? & ?). Qed.

Lemma position_range i : 0 ≤ Z.land i 63 < 64.
Proof. change 63 with (Z.ones 6). rewrite Z.land_ones by lia. apply Z.mod_pos_bound. lia. Qed.
Lemma set_bit_typed w i : in_range 64 w → in_range 64 (Z.lor w (Z.shiftl 1 (63 - Z.land i 63))).
Proof. apply set_word_range, position_range. Qed.
Lemma clear_bit_typed w i :
  in_range 64 w → in_range 64 (Z.land w (unot 64 (Z.shiftl 1 (63 - Z.land i 63)))).
Proof. apply clear_word_range, position_range. Qed.

#[export] Hint Resolve load_first_typed load_second_typed third_typed store_first_typed
  store_second_typed set_third_typed set_bit_typed clear_bit_typed : typed.

Lemma set_price_level_typed t : keeps bitset_in_range (λ _, True) (set_price_level t).
Proof. unfold set_price_level. typed. Qed.

Lemma clear_price_level_typed t : keeps bitset_in_range (λ _, True) (clear_price_level t).
Proof. unfold clear_price_level. typed. Qed.

(** * The book *)

Section Book_typed.
Implicit Types (side : Side) (b : Book).

Lemma set_pool_typed b a : book_in_range b → all_cells order_in_range a → book_in_range (set_pool a b).
Proof. by intros [] Ha. Qed.
Lemma levels_typed side b : book_in_range b → all_cells level_in_range (levels side b).
Proof. intros []. by destruct side. Qed.
Lemma set_levels_typed side b a :
  book_in_range b → all_cells level_in_range a → book_in_range (set_levels side a b).
Proof. intros [] Ha. by destruct side. Qed.

Lemma load_order_typed i : keeps book_in_range order_in_range (load_order i).
Proof. apply keeps_load. apply br_pool. Qed.
Lemma update_order_typed i f : (∀ o, order_in_range o → order_in_range (f o)) →
  keeps book_in_range (λ _, True) (update_order i f).
Proof. apply keeps_update; [apply br_pool|apply set_pool_typed]. Qed.
Lemma load_level_typed side p : keeps book_in_range level_in_range (load_level side p).
Proof. apply keeps_load, levels_typed. Qed.
Lemma update_level_typed side p f : (∀ l, level_in_range l → level_in_range (f l)) →
  keeps book_in_range (λ _, True) (update_level side p f).
Proof. apply keeps_update; [apply levels_typed|apply set_levels_typed]. Qed.

Lemma next_free_typed : keeps book_in_range (in_range 32) (gets next_free_index_).
Proof. apply keeps_gets. apply br_next_free. Qed.
Lemma set_next_free_typed i : in_range 32 i → keeps book_in_range (λ _, True) (modify (set_next_free i)).
Proof. intros Hi. apply keeps_modify. by intros b []. Qed.

Lemma on_orders_typed {A} (Q : A → Prop) (m : M StaticOrderMap A) :
  keeps map_in_range Q m → keeps book_in_range Q (on_orders m).
Proof. apply keeps_zoom; [apply br_orders|]. by intros b t []. Qed.
Lemma on_bitset_typed {A} side (Q : A → Prop) (m : M HierarchicalBitset A) :
  keeps bitset_in_range Q m → keeps book_in_range Q (on_bitset side m).
Proof. destruct side; apply keeps_zoom; try (by intros b []); by intros b t []. Qed.

Lemma set_next_typed x o : in_range 32 x → order_in_range o → order_in_range (set_next x o).
Proof. by intros Hx (? & ? & ? & ? & ?). Qed.
Lemma set_prev_typed x o : in_range 32 x → order_in_range o → order_in_range (set_prev x o).
Proof. by intros Hx (? & ? & ? & ? & ?). Qed.
Lemma set_shares_typed x o : in_range 32 x → order_in_range o → order_in_range (set_shares x o).
Proof. by intros Hx (? & ? & ? & ? & ?). Qed.
Lemma set_parsed_typed p o :
  normalized_in_range (NAdd p) → order_in_range o → order_in_range (set_parsed p o).
Proof. by intros (? & ? & ? & ? & ?) (? & ? & ? & ? & ?). Qed.
Lemma set_head_typed x l : in_range 32 x → level_in_range l → level_in_range (set_head x l).
Proof. by intros Hx []. Qed.
Lemma set_tail_typed x l : in_range 32 x → level_in_range l → level_in_range (set_tail x l).
Proof. by intros Hx []. Qed.
Lemma next_typed o : order_in_range o → in_range 32 (next o).
Proof. by intros (? & ? & ? & ? & ?). Qed.
Lemma prev_typed o : order_in_range o → in_range 32 (prev o).
Proof. by intros (? & ? & ? & ? & ?). Qed.
Lemma reference_typed o : order_in_range o → in_range 64 (order_reference_number o).
Proof. by intros (? & ? & ? & ? & ?). Qed.
Lemma tail_typed l : level_in_range l → in_range 32 (tail l).
Proof. by intros []. Qed.
Lemma null_typed : in_range 32 NULL_INDEX.
Proof. by unfold in_range. Qed.
End Book_typed.

#[export] Hint Resolve load_order_typed update_order_typed load_level_typed update_level_typed
  next_free_typed set_next_free_typed on_orders_typed on_bitset_typed set_next_typed set_prev_typed
  set_shares_typed set_parsed_typed set_head_typed set_tail_typed next_typed prev_typed
  reference_typed tail_typed null_typed find_pool_idx_typed index_assign_typed erase_typed
  set_price_level_typed clear_price_level_typed : typed.
#[export] Hint Extern 1 (keeps map_in_range _ (om_lookup _)) => apply find_pool_idx_typed : typed.
#[export] Hint Extern 1 (keeps map_in_range _ (om_assign _ _)) => apply index_assign_typed : typed.
#[export] Hint Extern 1 (keeps map_in_range _ (om_erase _)) => apply erase_typed : typed.
#[export] Hint Extern 1 (keeps bitset_in_range _ (idx_set _)) => apply set_price_level_typed : typed.
#[export] Hint Extern 1 (keeps bitset_in_range _ (idx_clear _)) => apply clear_price_level_typed : typed.

Section Book_operations.
Implicit Types (side : Side).
Abbreviation returns_unit := (λ _ : unit, True).

Lemma tagged_typed side i : in_range 32 i →
  in_range 32 (Z.lor match side with Buy => 0 | Sell => Z.shiftl 1 31 end i).
Proof. intros Hi. apply lor_range; [|done]. destruct side; by unfold in_range. Qed.
Lemma index_mask_typed t : in_range 32 t → in_range 32 (Z.land t INDEX_MASK).
Proof. intros Ht. apply land_range; [lia|done|]. by vm_compute. Qed.
#[local] Hint Resolve tagged_typed index_mask_typed : typed.

(** A conditional store. *)
Lemma when_typed (c : bool) (m : M Book unit) :
  keeps book_in_range returns_unit m → keeps book_in_range returns_unit (if c then m else mret tt).
Proof. intros Hm. destruct c; eauto with typed. Qed.
Lemma unless_typed (c : bool) (m : M Book unit) :
  keeps book_in_range returns_unit m → keeps book_in_range returns_unit (if c then mret tt else m).
Proof. intros Hm. destruct c; eauto with typed. Qed.
Lemma bind_typed {A} (Q : A → Prop) (m : M Book A) (k : A → M Book unit) :
  keeps book_in_range Q m → (∀ a, Q a → keeps book_in_range returns_unit (k a)) →
  keeps book_in_range returns_unit (m ≫= k).
Proof. apply keeps_bind. Qed.
#[local] Hint Resolve when_typed unless_typed bind_typed : typed.

Lemma add_update_price_level_typed side level i : in_range 32 i →
  keeps book_in_range returns_unit (add_update_price_level side level i).
Proof. intros Hi. unfold add_update_price_level. typed. Qed.
#[local] Hint Resolve add_update_price_level_typed : typed.

Lemma add_order_impl_typed side p : normalized_in_range (NAdd p) →
  keeps book_in_range returns_unit (add_order_impl side p).
Proof. intros Hp. unfold add_order_impl. typed. Qed.
#[local] Hint Resolve add_order_impl_typed : typed.

Lemma add_order_typed p : normalized_in_range (NAdd p) →
  keeps book_in_range returns_unit (add_order p).
Proof. intros Hp. unfold add_order. typed. Qed.

Lemma execute_update_price_level_typed side level i :
  keeps book_in_range returns_unit (execute_update_price_level side level i).
Proof. unfold execute_update_price_level. typed. Qed.
#[local] Hint Resolve execute_update_price_level_typed : typed.

Lemma release_order_to_pool_typed side i : in_range 32 i →
  keeps book_in_range returns_unit (release_order_to_pool side i).
Proof. intros Hi. unfold release_order_to_pool. typed. Qed.
#[local] Hint Resolve release_order_to_pool_typed : typed.

Lemma some_typed w v : some_in_range w (Some v) → in_range w v.
Proof. intros H. by apply H. Qed.
#[local] Hint Resolve some_typed : typed.

Lemma cancel_order_typed id : keeps book_in_range returns_unit (cancel_order id).
Proof. unfold cancel_order. typed; subst; eauto with typed. Qed.

Lemma remaining_typed o n : order_in_range o → in_range 32 n → (shares o <? n) = false →
  in_range 32 (shares o - n).
Proof. intros (_ & Ho & _) Hn H. unfold in_range in *. lia. Qed.
#[local] Hint Resolve remaining_typed : typed.

(** The guard of [execute_order] is what keeps its subtraction in range. *)
Lemma execute_order_typed e : normalized_in_range (NExecute e) →
  keeps book_in_range returns_unit (execute_order e).
Proof. intros (_ & _ & _ & He & _). unfold execute_order. typed; subst; eauto with typed. Qed.

Lemma dispatch_typed o : normalized_in_range o → keeps book_in_range returns_unit (dispatch o).
Proof.
  destruct o; intros Ho; cbn [dispatch];
    eauto using add_order_typed, execute_order_typed, cancel_order_typed.
Qed.
End Book_operations.

(** * The queue *)

Section Queue_typed.
Context {T : Type} (R : T → Prop) (Size : Z) (Size_pos : 0 < Size).

Record queue_in_range (q : SPSCQueue (T := T)) : Prop := {
  qir_tail : in_range 64 (tail_ q);
  qir_cached_head : in_range 64 (cached_head_ q);
  qir_head : in_range 64 (head_ q);
  qir_cached_tail : in_range 64 (cached_tail_ q);
  qir_data : all_cells R (data_ q)
}.

Lemma next_idx_typed i : in_range 64 (next_idx Size i).
Proof. apply land_range; [lia|by apply uwrap_range|lia]. Qed.

Lemma SPSCQueue_new_typed d : R d → queue_in_range (SPSCQueue_new Size d).
Proof. intros Hd. constructor; [by unfold in_range..|by apply all_cells_anew]. Qed.

Lemma push_typed x : R x → keeps queue_in_range (λ _, True) (push Size x).
Proof.
  intros Hx q [Ht Hch Hh Hct Hd]. pose proof (next_idx_typed (tail_ q)). unfold push. munfold.
  repeat (case_match; simpl); simplify_eq; (split; [|done]); constructor; simpl; try done;
    by eapply all_cells_aput.
Qed.

Lemma pop_typed : keeps queue_in_range (λ r, ∀ x, r = Some x → R x) (pop Size).
Proof.
  intros q [Ht Hch Hh Hct Hd]. pose proof (next_idx_typed (head_ q)). unfold pop. munfold.
  repeat (case_match; simpl); simplify_eq; (split; [by constructor|]); intros r [= <-]; try done;
    intros x [= <-]; by eapply Hd.
Qed.
End Queue_typed.

(** * The write-ahead log *)

Record logger_in_range (l : MmapLogger) : Prop := {
  lr_bytes : ∀ a, start_ l = Some a → all_cells is_byte a;
  lr_curr : 0 ≤ curr_ l ≤ FILE_SIZE
}.

Lemma write_bytes_typed (a a' : array Z) off l : all_cells is_byte a → Forall is_byte l →
  write_bytes a off l = Some a' → all_cells is_byte a'.
Proof.
  intros Ha Hl. revert a off Ha. induction Hl as [|b l Hb Hl IH]; intros a off Ha; simpl.
  - by intros [= <-].
  - destruct (aput a off b) eqn:E; [|done]. apply IH. by eapply all_cells_aput.
Qed.

Lemma reserve_frame_typed : keeps logger_in_range (λ _, True) reserve_frame.
Proof.
  intros l Hok. pose proof Hok as [Hb Hc]. unfold reserve_frame. munfold. destruct (Z.ltb_spec FILE_SIZE (curr_ l + sizeof_WalFrame)).
  - by split.
  - assert (logger_in_range (mkLogger (start_ l) (curr_ l + sizeof_WalFrame))) as Hl.
    { constructor; cbn [start_ curr_]; [done|unfold sizeof_WalFrame in *; lia]. }
    destruct (start_ l); [by split|]. destruct (curr_ l =? 0); by split.
Qed.

Lemma store_bytes_typed off bytes : Forall is_byte bytes →
  keeps logger_in_range (λ _, True) (store_bytes off bytes).
Proof.
  intros Hbytes l Hok. pose proof Hok as [Hb Hc]. unfold store_bytes. munfold. destruct (start_ l) as [a|] eqn:Ea; [|by split].
  destruct (write_bytes a off bytes) as [a'|] eqn:E; [|by split]. split; [|done].
  constructor; cbn [start_ curr_]; [|done]. intros x [= <-]. eapply write_bytes_typed; eauto.
Qed.

Lemma store_le_typed off n v : keeps logger_in_range (λ _, True) (store_le off n v).
Proof. apply store_bytes_typed, le_bytes_bytes. Qed.

Lemma load_bytes_typed off n : keeps logger_in_range (λ _, True) (load_bytes off n).
Proof.
  apply keeps_same; [|done]. intros l. unfold load_bytes. munfold. destruct (start_ l) as [a|]; [|done].
  by destruct (read_bytes a off n).
Qed.

(** * The parser *)

Lemma bswap_range n z : in_range (8 * Z.of_nat n) (bswap n z).
Proof.
  unfold bswap, in_range. pose proof (le_Z_range (rev (le_bytes n z))) as H.
  rewrite length_rev, length_le_bytes in H. change 256 with (2 ^ 8) in H.
  rewrite <- Z.pow_mul_r in H by lia. apply H. apply Forall_rev, le_bytes_bytes.
Qed.

Lemma load_swapped_range l off n v : load_swapped l off n = Some v → in_range (8 * Z.of_nat n) v.
Proof. unfold load_swapped. destruct (bytes_at l off n); [|done]. intros [= <-]. apply bswap_range. Qed.

Definition header_in_range (h : Header) : Prop :=
  in_range 64 (h_timestamp h) ∧ in_range 64 (h_order_reference_number h) ∧
  in_range 16 (h_stock_locate h) ∧ in_range 16 (h_tracking_number h).

Lemma extract_header_typed l h : extract_header l = Some h → header_in_range h.
Proof.
  unfold extract_header. destruct (bytes_at l _ 6) as [b|]; simpl; [|done].
  destruct (load_swapped l _ 8) as [r|] eqn:Er; simpl; [|done].
  destruct (load_swapped l off_stock_locate 2) as [s|] eqn:Es; simpl; [|done].
  destruct (load_swapped l off_tracking_number 2) as [t|] eqn:Et; simpl; [|done].
  intros [= <-]. apply load_swapped_range in Er, Es, Et. split_and!; try done. simpl.
  pose proof (bswap_range 8 (le_Z b)) as Hb. unfold in_range in *. rewrite Z.shiftr_div_pow2 by lia.
  pose proof (Z.div_pos (bswap 8 (le_Z b)) (2 ^ 16)). pose proof (Z.div_le_upper_bound (bswap 8 (le_Z b)) (2 ^ 16) (2 ^ 64 - 1)).
  lia.
Qed.

Lemma parse_add_order_typed l h o : Forall is_byte l → header_in_range h →
  parse_add_order l h = Some o → normalized_in_range o.
Proof.
  intros Hl (? & ? & ? & ?). unfold parse_add_order.
  destruct (load_swapped l off_add_shares 4) as [s|] eqn:Es; simpl; [|done].
  destruct (load_swapped l off_add_price 4) as [p|] eqn:Ep; simpl; [|done].
  destruct (bytes_at l off_add_stock 8) as [st|] eqn:Est; simpl; [|done].
  destruct (l !! off_add_indicator) as [i|] eqn:Ei; simpl; [|done].
  intros [= <-]. apply load_swapped_range in Es, Ep. cbn. split_and!; try done.
  - unfold bytes_at in Est. destruct (_ <=? _)%nat; [|done]. injection Est as <-. by apply take_drop_bytes.
  - by eapply Forall_lookup_1.
Qed.

Lemma parse_executed_order_typed l h o : header_in_range h →
  parse_executed_order l h = Some o → normalized_in_range o.
Proof.
  intros (? & ? & ? & ?). unfold parse_executed_order.
  destruct (load_swapped l off_exec_match_number 8) as [n|] eqn:En; simpl; [|done].
  destruct (load_swapped l off_exec_shares 4) as [s|] eqn:Es; simpl; [|done].
  intros [= <-]. by apply load_swapped_range in En, Es.
Qed.

Lemma parse_cancel_order_typed l h o : header_in_range h →
  parse_cancel_order l h = Some o → normalized_in_range o.
Proof.
  intros (? & ? & ? & ?). unfold parse_cancel_order.
  destruct (load_swapped l off_cancel_shares 4) as [s|] eqn:Es; simpl; [|done].
  intros [= <-]. by apply load_swapped_range in Es.
Qed.

Record parser_in_range (p : ItchParser) : Prop := {
  pr_queue : queue_in_range normalized_in_range (queue_ p);
  pr_logger : logger_in_range (logger_ p);
  pr_seq : in_range 64 (curr_seq_num p)
}.

Section Parser_typed.
Context (QUEUE_SIZE : Z) (QUEUE_SIZE_pos : 0 < QUEUE_SIZE) (tsc : Z → Z).
Abbreviation returns := (λ _, True).

Lemma on_logger_typed {A} (Q : A → Prop) (m : M MmapLogger A) :
  keeps logger_in_range Q m → keeps parser_in_range Q (on_logger m).
Proof. apply keeps_zoom; [apply pr_logger|]. by intros p t []. Qed.

Lemma on_queue_typed {A} (Q : A → Prop) (m : M SPSCQueue A) :
  keeps (queue_in_range normalized_in_range) Q m → keeps parser_in_range Q (on_queue m).
Proof. apply keeps_zoom; [apply pr_queue|]. by intros p t []. Qed.

Lemma seq_num_typed : keeps parser_in_range (in_range 64) (gets curr_seq_num).
Proof. apply keeps_gets, pr_seq. Qed.

Lemma set_seq_num_typed n : keeps parser_in_range returns (modify (set_seq_num (u64 n))).
Proof. apply keeps_modify. intros p []. constructor; try done. by apply uwrap_range. Qed.

Lemma option_typed {A} (P : ItchParser → Prop) (o : option A) :
  keeps P (λ a, o = Some a) (of_option o).
Proof. by apply keeps_of_option. Qed.
#[local] Hint Resolve on_logger_typed on_queue_typed seq_num_typed set_seq_num_typed option_typed
  reserve_frame_typed store_le_typed load_bytes_typed store_bytes_typed : typed.

Lemma bytes_at_typed l off n b : Forall is_byte l → bytes_at l off n = Some b → Forall is_byte b.
Proof.
  intros Hl. unfold bytes_at. destruct (_ <=? _)%nat; [|done]. intros [= <-]. by apply take_drop_bytes.
Qed.
#[local] Hint Resolve bytes_at_typed : typed.

Lemma log_payload_typed l n t : Forall is_byte l → keeps parser_in_range returns (log_payload tsc l n t).
Proof. intros Hl. unfold log_payload. typed. Qed.

Lemma push_order_typed o : normalized_in_range o → keeps parser_in_range returns (push_order QUEUE_SIZE o).
Proof.
  intros Ho. unfold push_order. eapply keeps_bind; [apply on_queue_typed; by apply push_typed|].
  intros b _. by apply keeps_ret.
Qed.
#[local] Hint Resolve log_payload_typed push_order_typed parse_add_order_typed
  parse_executed_order_typed parse_cancel_order_typed extract_header_typed Forall_drop : typed.

Lemma parse_block_typed fuel l : Forall is_byte l →
  keeps parser_in_range returns (parse_block QUEUE_SIZE tsc fuel l).
Proof.
  revert l. induction fuel as [|fuel IH]; intros l Hl; [by intros p Hp|]. cbn [parse_block].
  destruct l as [|c l]; [by apply keeps_ret|]. set (l' := c :: l) in *. clearbody l'. typed.
Qed.
End Parser_typed.

(** * Construction *)

Lemma link_pool_typed n i a a' : all_cells order_in_range a → link_pool n i a = Some a' →
  all_cells order_in_range a'.
Proof.
  revert i a. induction n as [|n IH]; intros i a Ha; cbn [link_pool]; [by intros [= <-]|].
  destruct a.[i - 1] as [o|] eqn:Eo; [|done]. destruct (aput a (i - 1) _) as [a1|] eqn:E; [|done].
  apply IH. eapply all_cells_aput; [done| |done].
  apply set_next_typed; [by apply uwrap_range|by eapply Ha].
Qed.

Lemma bitset_new_typed ticks : bitset_in_range (HierarchicalBitset_new ticks).
Proof. split_and!; [apply all_cells_anew; by unfold in_range..|by unfold in_range]. Qed.

Lemma LimitOrderBook_new_typed n ok om bs b : map_in_range om → bitset_in_range bs →
  LimitOrderBook_new n ok om bs = Ok b → book_in_range b.
Proof.
  intros Hom Hbs. unfold LimitOrderBook_new. destruct (n =? 0); [done|]. destruct ok; [|done].
  destruct (_ <? _); [done|].
  destruct (link_pool _ 1 _) as [a|] eqn:E; [|done]. apply link_pool_typed in E.
  2: { apply all_cells_anew. by split_and!; unfold in_range. }
  destruct a.[n - 1] as [o|] eqn:Eo; [|done]. destruct (aput a (n - 1) _) as [a'|] eqn:E'; [|done].
  intros [= <-]. constructor; cbn [pool_ bids_ asks_ orders_ bids_bitset_ asks_bitset_ next_free_index_];
    eauto using zero_typed.
  - eapply all_cells_aput; [done| |done]. apply set_next_typed; [apply null_typed|by eapply E].
  - apply all_cells_anew. by split; apply null_typed.
  - apply all_cells_anew. by split; apply null_typed.
Qed.

Lemma new_book_typed n page mok pok b : new_book n page mok pok = Ok b → book_in_range b.
Proof.
  unfold new_book, StaticOrderMap_new. destruct mok; [|done].
  apply LimitOrderBook_new_typed; [|apply bitset_new_typed].
  apply all_cells_anew. by split; unfold in_range.
Qed.

Lemma MmapLogger_new_typed o f m a l : MmapLogger_new o f m a = Ok l → logger_in_range l.
Proof.
  unfold MmapLogger_new. destruct o, f, m, a; try done. cbn [negb]. intros [= <-]. constructor.
  - intros x [= <-]. apply all_cells_anew. by unfold is_byte.
  - cbn [curr_]. unfold FILE_SIZE. by vm_compute.
Qed.

(** * The program *)

(** The two threads at the granularity of calls: a block of payload goes
    through [parse_block], or the consumer pops an order and dispatches it.
    The state an operation leaves is kept however the operation ended. *)
Inductive machine_op : Type :=
| Feed (payload : list Z)
| Consume.

Definition Machine : Type := ItchParser * Book.

Section Machine.
Context (QUEUE_SIZE : Z) (tsc : Z → Z).

Definition machine_step (op : machine_op) (s : Machine) : Machine :=
  match op with
  | Feed payload => ((parse_block QUEUE_SIZE tsc (S (length payload)) payload s.1).2, s.2)
  | Consume =>
      let '(r, p) := on_queue (pop QUEUE_SIZE) s.1 in
      match r with
      | Ok (Some o) => (p, (dispatch o s.2).2)
      | _ => (p, s.2)
      end
  end.

Definition op_bytes (op : machine_op) : Prop :=
  match op with Feed payload => Forall is_byte payload | Consume => True end.

Definition machine_in_range (s : Machine) : Prop := parser_in_range s.1 ∧ book_in_range s.2.

Lemma machine_step_typed op s : 0 < QUEUE_SIZE → op_bytes op → machine_in_range s →
  machine_in_range (machine_step op s).
Proof.
  intros HS Hop [Hp Hb]. destruct op as [payload|]; cbn [machine_step].
  - split; [by apply parse_block_typed|done].
  - destruct (on_queue_typed _ (pop QUEUE_SIZE) (pop_typed _ _ HS) s.1 Hp) as [Hp' Ho].
    destruct (on_queue (pop QUEUE_SIZE) s.1) as [[[o|]|e| |] p]; try done.
    split; [done|]. by apply dispatch_typed; [apply (Ho (Some o))|].
Qed.
End Machine.

(** C10 Types: in a program built by its constructors, whatever bytes arrive,
    in whatever order the blocks and the pops come, and however each call
    ends (normally, by an exception, or by a read outside a table), every
    field of the parser, of the order queue, of the log, of the pool, of the
    price levels, of the id map and of the bitsets holds a number of its
    machine type: no 32-bit or 64-bit field of the model ever leaves its
    width. *)
Theorem machine_state_well_typed QUEUE_SIZE tsc n page d l b ops :
  0 < QUEUE_SIZE → normalized_in_range d →
  MmapLogger_new true true true true = Ok l → new_book n page true true = Ok b →
  Forall op_bytes ops →
  machine_in_range (foldl (λ s op, machine_step QUEUE_SIZE tsc op s)
                      (ItchParser_new (SPSCQueue_new QUEUE_SIZE d) l, b) ops).
Proof.
  intros HS Hd Hl Hb Hops.
  assert (machine_in_range (ItchParser_new (SPSCQueue_new QUEUE_SIZE d) l, b)) as H0.
  { split; [|by eapply new_book_typed]. constructor; [by apply SPSCQueue_new_typed| |by unfold in_range].
    by eapply MmapLogger_new_typed. }
  revert H0. generalize (ItchParser_new (SPSCQueue_new QUEUE_SIZE d) l, b).
  induction Hops as [|op ops Hop _ IH]; intros s Hs; [done|]. by apply IH, machine_step_typed.
Qed.

Definition wire_add (id shares price indicator : Z) : list Z :=
  encode (NAdd (mkAddOrder 0 id shares price 0 0 (replicate 8 32) indicator)).

(** A buy order that rests, a sell order that is executed in full, and an
    execution that asks for too many shares. *)
Definition sample_feed : list machine_op :=
  [Feed (wire_add 4294967296 5 99999 char_B ++ wire_add 2 7 650 char_S);
   Consume; Feed (encode (sample_execute 2 7) ++ encode (sample_execute 4294967296 6) ++ [65; 255]);
   Consume; Consume; Consume; Consume].

Lemma machine_state_well_typed_witness :
  match MmapLogger_new true true true true, new_book 4 4096 true true with
  | Ok l, Ok b =>
      let s := foldl (λ s op, machine_step 8 (λ n, n) op s)
                 (ItchParser_new (SPSCQueue_new 8 (sample_cancel 0)) l, b) sample_feed in
      machine_in_range s ∧ (next_free_index_ s.2 = 1) ∧ (book_best_bid s.2).1 = Ok 99999
  | _, _ => False
  end.
Proof.
  destruct (MmapLogger_new true true true true) as [l| | |] eqn:El; [|by vm_compute in El..].
  destruct (new_book 4 4096 true true) as [b| | |] eqn:Eb; [|by vm_compute in Eb..].
  intros s. split.
  - apply (machine_state_well_typed 8 (λ n, n) 4 4096 (sample_cancel 0) l b sample_feed);
      [lia| |exact El|exact Eb|].
    + apply (bool_decide_unpack _). by vm_compute.
    + unfold sample_feed. repeat apply Forall_cons_2; cbn [op_bytes]; try done;
        apply (bool_decide_unpack _); by vm_compute.
  - unfold s. clear s. injection El as <-. revert Eb. unfold new_book, StaticOrderMap_new. cbn [negb].
    intros Eb. injection Eb as <-. by vm_compute.
Defined.
