(* ===== verification/Kernel.v ===== *)
(** What the program holds of the operating system, and a logic of ownership.

    The classes of the program own descriptors, mappings and address lists.
    The kernel is not part of the program: which calls fail, and which number
    a new descriptor or mapping gets, are the parameters [OS], with what the
    manual pages promise of them in [OSLaws] (a new descriptor is not open, a
    new mapping does not overlap an old one).  The state [Kernel] records what
    is held, the flags and options that have been set, the fallible calls made
    so far, and whether anything was released that was not held.

    [owns R m Q E] says of a function [m] that is called by the owner of [R],
    in a process that may hold anything else: it touches nothing else, and
    when it returns [a] it owns an [R'] with [Q a R'], when it throws an [R']
    with [E R'].  Its rules follow the monad; [Resource] is the interface of
    a class with a destructor. *)

From S2P Require Import Prelude.

Inductive resource : Type :=
| Fd (fd : Z)
| Page (n : Z)
| AddrInfo (a : Z).

#[export] Instance resource_eq_dec : EqDecision resource.
Proof. solve_decision. Defined.

#[export] Instance resource_countable : Countable resource.
Proof.
  refine (inj_countable' (λ r, match r with Fd x => inl x | Page x => inr (inl x) | AddrInfo x => inr (inr x) end)
    (λ s, match s with inl x => Fd x | inr (inl x) => Page x | inr (inr x) => AddrInfo x end) _).
  by intros [].
Defined.

(** A system call by its name, and the numbers among its arguments that
    matter. *)
Record syscall : Type := mkCall {
  sc_name : string;
  sc_args : list Z
}.

(** [errno_of n c]: the error of the [n]-th call, if it fails. *)
Class OS : Type := {
  errno_of : nat → syscall → option Z;
  pick_fd : gset resource → Z;
  pick_page : gset resource → Z → Z;
  pick_info : gset resource → Z;
  new_flags : syscall → Z;
  page_size : Z
}.

Class OSLaws `{OS} : Prop := {
  pick_fd_new X : 0 ≤ pick_fd X ∧ Fd (pick_fd X) ∉ X;
  pick_page_new X n : 0 < pick_page X n ∧ ∀ i, 0 ≤ i < n → Page (pick_page X n + i) ∉ X;
  pick_info_new X : 0 < pick_info X ∧ AddrInfo (pick_info X) ∉ X;
  page_size_pow2 : ∃ e, 0 ≤ e < 32 ∧ page_size = 2 ^ e
}.

Record Kernel : Type := mkKernel {
  held : gset resource;
  fl_flags : gmap Z Z;
  sock_opts : gmap (Z * Z * Z) Z;
  calls : list syscall;
  stray : bool
}.

Definition EAGAIN : Z := 11.

Section Calls.
Context `{OS}.
Implicit Types (k : Kernel) (R F : gset resource).

Definition take_up R k : Kernel :=
  mkKernel (R ∪ held k) (fl_flags k) (sock_opts k) (calls k) (stray k).
Definition give_back R k : Kernel :=
  mkKernel (held k ∖ R) (fl_flags k) (sock_opts k) (calls k)
    (stray k || negb (bool_decide (R ⊆ held k))).
Definition log_call (c : syscall) k : Kernel :=
  mkKernel (held k) (fl_flags k) (sock_opts k) (calls k ++ [c]) (stray k).
Definition put_flags (fd x : Z) k : Kernel :=
  mkKernel (held k) (<[fd := x]> (fl_flags k)) (sock_opts k) (calls k) (stray k).
Definition put_opt (fd level name x : Z) k : Kernel :=
  mkKernel (held k) (fl_flags k) (<[(fd, level, name) := x]> (sock_opts k)) (calls k) (stray k).

(** The errno of a call, [None] when it succeeds. *)
Definition sys (name : string) (args : list Z) : M Kernel (option Z) :=
  k ← get_state;
  modify (log_call (mkCall name args));;
  mret (errno_of (length (calls k)) (mkCall name args)).

(** A call that returns a new descriptor, or -1. *)
Definition sys_fd (name : string) (args : list Z) : M Kernel (option Z * Z) :=
  err ← sys name args;
  match err with
  | Some e => mret (Some e, -1)
  | None =>
      k ← get_state;
      let fd := pick_fd (held k) in
      modify (put_flags fd (new_flags (mkCall name args)) ∘ take_up {[Fd fd]});;
      mret (None, fd)
  end.

Definition open_fd (name : string) (args : list Z) : M Kernel Z :=
  r ← sys_fd name args; mret r.2.

Definition close (fd : Z) : M Kernel unit := modify (give_back {[Fd fd]}).

(** The pages of [len] bytes from the page-aligned address [addr]. *)
Definition page_count (len : Z) : Z := (len + page_size - 1) / page_size.
Definition pages (addr len : Z) : gset resource :=
  list_to_set (Page <$> seqZ (addr / page_size) (page_count len)).

(** An address, or [None] for MAP_FAILED.  A mapping of no bytes fails. *)
Definition mmap (len : Z) (args : list Z) : M Kernel (option Z) :=
  err ← sys "mmap" (len :: args);
  match err with
  | Some _ => mret None
  | None =>
      if len <=? 0 then mret None else
      k ← get_state;
      let addr := pick_page (held k) (page_count len) * page_size in
      modify (take_up (pages addr len));;
      mret (Some addr)
  end.

Definition munmap (addr len : Z) : M Kernel unit := modify (give_back (pages addr len)).

Definition getaddrinfo : M Kernel (option Z) :=
  err ← sys "getaddrinfo" [];
  match err with
  | Some _ => mret None
  | None =>
      k ← get_state;
      let a := pick_info (held k) in
      modify (take_up {[AddrInfo a]});;
      mret (Some a)
  end.

Definition freeaddrinfo (a : Z) : M Kernel unit := modify (give_back {[AddrInfo a]}).

(** Whether a call succeeds. *)
Definition succeeds (name : string) (args : list Z) : M Kernel bool :=
  err ← sys name args; mret (bool_decide (err = None)).

(** [setsockopt] with an [int] value. *)
Definition setsockopt (fd level name value : Z) : M Kernel bool :=
  ok ← succeeds "setsockopt" [fd; level; name];
  if (ok : bool) then modify (put_opt fd level name value);; mret true else mret false.

Definition fcntl_getfl (fd : Z) : M Kernel Z :=
  ok ← succeeds "fcntl" [fd; 3];
  if (ok : bool) then k ← get_state; mret (default 0 (fl_flags k !! fd)) else mret (-1).

Definition fcntl_setfl (fd flags : Z) : M Kernel Z :=
  ok ← succeeds "fcntl" [fd; 4; flags];
  if (ok : bool) then modify (put_flags fd flags);; mret 0 else mret (-1).

(** Run [m]; if it throws, run [cleanup] and let the exception go on: the
    destruction of the local objects and of the members already built. *)
Definition unwind {A} (m : M Kernel A) (cleanup : M Kernel unit) : M Kernel A := λ k,
  match m k with
  | (Throw e, k') =>
      match cleanup k' with (Ok tt, k2) => (Throw e, k2) | (_, k2) => (UB, k2) end
  | r => r
  end.
End Calls.

(** * Ownership *)

Definition owns {A} (R : gset resource) (m : M Kernel A) (Q : A → gset resource → Prop)
    (E : gset resource → Prop) : Prop :=
  ∀ k F, held k = R ∪ F → R ## F →
    match m k with
    | (Ok a, k') => ∃ R', Q a R' ∧ held k' = R' ∪ F ∧ R' ## F ∧ stray k' = stray k
    | (Throw _, k') => ∃ R', E R' ∧ held k' = R' ∪ F ∧ R' ## F ∧ stray k' = stray k
    | _ => False
    end.

(** A class with a destructor. *)
Class Resource (T : Type) : Type := {
  owned : T → gset resource;
  destroy : T → M Kernel unit
}.

Class ResourceLaws (T : Type) `{Resource T} (valid : T → Prop) : Prop :=
  destroy_spec t E : valid t → owns (owned t) (destroy t) (λ _ R, R = ∅) E.

(** A constructor: it yields an object that owns what was taken, or takes
    nothing. *)
Definition constructs {T} `{Resource T} (valid : T → Prop) (m : M Kernel T) : Prop :=
  owns ∅ m (λ t R, valid t ∧ R = owned t) (λ R, R = ∅).

Create HintDb owns.

Section Owns.
Context {A B : Type}.
Implicit Types (R F X : gset resource) (m : M Kernel A) (E : gset resource → Prop).

Lemma owns_ret R E (Q : A → gset resource → Prop) a : Q a R → owns R (mret a) Q E.
Proof. intros Ha k F Hk HF. by exists R. Qed.

Lemma owns_throw R E (Q : A → gset resource → Prop) e : E R → owns R (throw e) Q E.
Proof. intros Ha k F Hk HF. by exists R. Qed.

Lemma owns_bind R E (Q : A → gset resource → Prop) (Q' : B → gset resource → Prop) m (n : A → M Kernel B) :
  owns R m Q E → (∀ a R', Q a R' → owns R' (n a) Q' E) → owns R (m ≫= n) Q' E.
Proof.
  intros Hm Hn k F Hk HF. specialize (Hm k F Hk HF). unfold mbind, M_bind.
  destruct (m k) as [[a|e| |] k1]; [|done..]. destruct Hm as (R1 & HQ & Hk1 & HF1 & Hs).
  specialize (Hn a R1 HQ k1 F Hk1 HF1). rewrite Hs in Hn. done.
Qed.

Lemma owns_mono R E E' (Q Q' : A → gset resource → Prop) m : owns R m Q E →
  (∀ a R', Q a R' → Q' a R') → (∀ R', E R' → E' R') → owns R m Q' E'.
Proof.
  intros Hm HQ HE k F Hk HF. specialize (Hm k F Hk HF).
  destruct (m k) as [[a|e| |] k1]; [| |done..]; naive_solver.
Qed.

(** The frame rule. *)
Lemma owns_frame R X E (Q : A → gset resource → Prop) m : owns R m Q E → R ## X →
  owns (R ∪ X) m (λ a R', ∃ R0, Q a R0 ∧ R0 ## X ∧ R' = R0 ∪ X)
    (λ R', ∃ R0, E R0 ∧ R0 ## X ∧ R' = R0 ∪ X).
Proof.
  intros Hm HX k F Hk HF. specialize (Hm k (X ∪ F) ltac:(set_solver) ltac:(set_solver)).
  destruct (m k) as [[a|e| |] k1]; [| |done..]; destruct Hm as (R1 & HQ & -> & HF1 & Hs);
    exists (R1 ∪ X); (split_and!; [exists R1; split_and!; [done|set_solver|done]|set_solver|set_solver|done]).
Qed.

(** A step that only reads or sets flags. *)
Lemma owns_neutral R E m : (∀ k, ∃ a k', m k = (Ok a, k') ∧ held k' = held k ∧ stray k' = stray k) →
  owns R m (λ _ R', R' = R) E.
Proof.
  intros Hm k F Hk HF. destruct (Hm k) as (a & k' & -> & Hh & Hs). exists R.
  by rewrite Hh, Hs.
Qed.
End Owns.

Section Call_rules.
Context `{OSLaws}.
Implicit Types (R F : gset resource) (E : gset resource → Prop).

Lemma sys_run name args (k : Kernel) : ∃ r, sys name args k = (Ok r, log_call (mkCall name args) k).
Proof. eexists. reflexivity. Qed.

Lemma owns_sys R E name args : owns R (sys name args) (λ _ R', R' = R) E.
Proof. apply owns_neutral. intros k. destruct (sys_run name args k) as [r Hr]. eauto. Qed.

Lemma owns_succeeds R E name args : owns R (succeeds name args) (λ _ R', R' = R) E.
Proof.
  apply owns_neutral. intros k. unfold succeeds. destruct (sys_run name args k) as [r Hr]. mstep Hr.
  by repeat eexists.
Qed.

Lemma owns_setsockopt R E fd level name v : owns R (setsockopt fd level name v) (λ _ R', R' = R) E.
Proof.
  unfold setsockopt. eapply owns_bind; [apply owns_succeeds|]. intros [] R' ->; [|by apply owns_ret].
  eapply owns_bind; [apply owns_neutral; by repeat eexists|]. intros ? ? ->. by apply owns_ret.
Qed.

Lemma owns_getfl R E fd : owns R (fcntl_getfl fd) (λ _ R', R' = R) E.
Proof.
  unfold fcntl_getfl. eapply owns_bind; [apply owns_succeeds|]. intros [] R' ->; [|by apply owns_ret].
  apply owns_neutral. by repeat eexists.
Qed.

Lemma owns_setfl R E fd x : owns R (fcntl_setfl fd x) (λ _ R', R' = R) E.
Proof.
  unfold fcntl_setfl. eapply owns_bind; [apply owns_succeeds|]. intros [] R' ->; [|by apply owns_ret].
  eapply owns_bind; [apply owns_neutral; by repeat eexists|]. intros ? ? ->. by apply owns_ret.
Qed.

(** Taking something new, and giving back what is owned. *)
Lemma owns_take {A} R E (f : gset resource → gset resource) (g : Kernel → Kernel) (r : Kernel → A)
    (Q : A → gset resource → Prop) :
  (∀ X, f X ## X) → (∀ k, held (g k) = f (held k) ∪ held k ∧ stray (g k) = stray k) →
  (∀ k, R ⊆ held k → Q (r k) (f (held k) ∪ R)) →
  owns R (λ k, (Ok (r k), g k)) Q E.
Proof.
  intros Hf Hg HQ k F Hk HF. destruct (Hg k) as [Hh Hs]. exists (f (held k) ∪ R).
  specialize (Hf (held k)). rewrite Hh. split_and!; [apply HQ; set_solver|set_solver|set_solver|done].
Qed.

Lemma owns_give R X E : X ⊆ R → owns R (modify (give_back X)) (λ _ R', R' = R ∖ X) E.
Proof.
  intros HX k F Hk HF. exists (R ∖ X). cbn. split_and!; [done|set_solver|set_solver|].
  rewrite bool_decide_true by set_solver. by destruct (stray k).
Qed.

Definition fd_taken R (fd : Z) (R' : gset resource) : Prop :=
  (fd = (-1) ∧ R' = R) ∨ (0 ≤ fd ∧ (Fd fd ∉ R) ∧ R' = {[Fd fd]} ∪ R).

Lemma owns_sys_fd R E name args :
  owns R (sys_fd name args) (λ r R', fd_taken R r.2 R') E.
Proof.
  unfold sys_fd. eapply owns_bind; [apply owns_sys|]. intros [e|] R' ->.
  { apply owns_ret. by left. }
  apply (owns_take R E (λ X, {[Fd (pick_fd X)]})).
  - intros X. destruct (pick_fd_new X). set_solver.
  - done.
  - intros k Hk. right. cbn. destruct (pick_fd_new (held k)). split_and!; [done|set_solver|done].
Qed.

Lemma owns_open_fd R E name args : owns R (open_fd name args) (fd_taken R) E.
Proof.
  unfold open_fd. eapply owns_bind; [apply owns_sys_fd|]. intros r R' Hr. by apply owns_ret.
Qed.

Lemma owns_close R E fd : Fd fd ∈ R → owns R (close fd) (λ _ R', R' = R ∖ {[Fd fd]}) E.
Proof. intros Hfd. apply owns_give. set_solver. Qed.

Lemma page_size_pos : 0 < page_size.
Proof. destruct page_size_pow2 as (e & He & ->). apply Z.pow_pos_nonneg; lia. Qed.

Lemma elem_of_pages addr len r :
  r ∈ pages addr len ↔ ∃ i, r = Page i ∧ addr / page_size ≤ i < addr / page_size + page_count len.
Proof.
  unfold pages. rewrite elem_of_list_to_set, list_elem_of_fmap.
  by setoid_rewrite elem_of_seqZ.
Qed.

Definition mapping_taken R (len : Z) (a : option Z) (R' : gset resource) : Prop :=
  match a with
  | None => R' = R
  | Some addr => 0 < addr ∧ addr mod page_size = 0 ∧ pages addr len ## R ∧ R' = pages addr len ∪ R
  end.

Lemma owns_mmap R E len args : owns R (mmap len args) (mapping_taken R len) E.
Proof.
  unfold mmap. eapply owns_bind; [apply owns_sys|]. intros [e|] R' ->; [by apply owns_ret|].
  destruct (len <=? 0); [by apply owns_ret|]. pose proof page_size_pos as Hp.
  set (at_ := λ X, pick_page X (page_count len) * page_size).
  assert (∀ X, pages (at_ X) len ## X) as Hfresh.
  { intros X r Hr HX. apply elem_of_pages in Hr as (i & -> & Hi). unfold at_ in Hi.
    rewrite Z.div_mul in Hi by lia. destruct (pick_page_new X (page_count len)) as [_ Hn].
    apply (Hn (i - pick_page X (page_count len))); [lia|]. by rewrite Zplus_minus. }
  apply (owns_take R E (λ X, pages (at_ X) len)); [done|done|].
  intros k Hk. cbn. destruct (pick_page_new (held k) (page_count len)) as [Hpos _].
  specialize (Hfresh (held k)). unfold at_ in *.
  split_and!; [lia|by apply Z.mod_mul; lia|set_solver|done].
Qed.

Lemma owns_munmap R E addr len : pages addr len ⊆ R →
  owns R (munmap addr len) (λ _ R', R' = R ∖ pages addr len) E.
Proof. apply owns_give. Qed.

Definition info_taken R (a : option Z) (R' : gset resource) : Prop :=
  match a with None => R' = R | Some a => (AddrInfo a ∉ R) ∧ R' = {[AddrInfo a]} ∪ R end.

Lemma owns_getaddrinfo R E : owns R getaddrinfo (info_taken R) E.
Proof.
  unfold getaddrinfo. eapply owns_bind; [apply owns_sys|]. intros [e|] R' ->; [by apply owns_ret|].
  apply (owns_take R E (λ X, {[AddrInfo (pick_info X)]})).
  - intros X. destruct (pick_info_new X). set_solver.
  - done.
  - intros k Hk. cbn. destruct (pick_info_new (held k)). split; [set_solver|done].
Qed.

Lemma owns_freeaddrinfo R E a : AddrInfo a ∈ R →
  owns R (freeaddrinfo a) (λ _ R', R' = R ∖ {[AddrInfo a]}) E.
Proof. intros Ha. apply owns_give. set_solver. Qed.

Lemma owns_unwind {A} R E E' (Q : A → gset resource → Prop) (m : M Kernel A) c :
  owns R m Q E → (∀ R', E R' → owns R' c (λ _ R2, E' R2) (λ _, False)) →
  owns R (unwind m c) Q E'.
Proof.
  intros Hm Hc k F Hk HF. specialize (Hm k F Hk HF). unfold unwind.
  destruct (m k) as [[a|e| |] k1]; [done| |done..].
  destruct Hm as (R1 & HE & Hk1 & HF1 & Hs). specialize (Hc R1 HE k1 F Hk1 HF1).
  destruct (c k1) as [[[]|e'| |] k2]; [|naive_solver..]. destruct Hc as (R2 & ? & ? & ? & ?).
  exists R2. split_and!; [done..|congruence].
Qed.
End Call_rules.

#[export] Instance set_unfold_pages `{OS} addr len r :
  SetUnfoldElemOf r (pages addr len)
    (∃ i, r = Page i ∧ addr / page_size ≤ i < addr / page_size + page_count len).
Proof.
  constructor. unfold pages. rewrite elem_of_list_to_set, list_elem_of_fmap.
  by setoid_rewrite elem_of_seqZ.
Qed.

#[export] Hint Resolve owns_sys owns_succeeds owns_setsockopt owns_getfl owns_setfl owns_open_fd
  owns_sys_fd owns_mmap owns_getaddrinfo : owns.
#[export] Hint Extern 2 (owns _ (close _) _ _) => eapply owns_close; set_solver : owns.
#[export] Hint Extern 2 (owns _ (munmap _ _) _ _) => eapply owns_munmap; set_solver : owns.
#[export] Hint Extern 2 (owns _ (freeaddrinfo _) _ _) => eapply owns_freeaddrinfo; set_solver : owns.

(** Follow a function through its calls.  What a call leaves is an equation
    on the set owned, or one of the alternatives above. *)
Ltac owns_facts :=
  cbv beta in *; cbn [fst snd] in *;
  repeat match goal with
  | H : fd_taken _ _ _ |- _ => destruct H as [[-> ->]|(? & ? & ->)]
  | H : mapping_taken _ _ ?a _ |- _ => destruct a; cbn [mapping_taken] in H;
      [destruct H as (? & ? & ? & ->)|subst]
  | H : info_taken _ ?a _ |- _ => destruct a; cbn [info_taken] in H; [destruct H as [? ->]|subst]
  | H : ?R = _ |- owns ?R _ _ _ => is_var R; subst R
  | H : (?x =? ?x) = false |- _ => by rewrite Z.eqb_refl in H
  | H : (-1 =? -1) = false |- _ => done
  | H : (?x =? -1) = true |- _ => apply Z.eqb_eq in H; subst; try lia
  end.
Ltac owns_step :=
  lazymatch goal with
  | |- owns _ (_ ≫= _) _ _ => eapply owns_bind; [solve [eauto with owns]|intros ? ? ?; owns_facts]
  | |- owns _ (if ?b then _ else _) _ _ => destruct b eqn:?; owns_facts
  | |- owns _ (match ?x with _ => _ end) _ _ => destruct x eqn:?; owns_facts
  | |- owns _ (let _ := _ in _) _ _ => cbv zeta
  | |- owns _ (mret _) _ _ => apply owns_ret
  | |- owns _ (throw _) _ _ => apply owns_throw
  | |- owns _ _ _ _ => eapply owns_mono; [solve [eauto with owns]|..]
  end.
Ltac owns_auto := repeat owns_step.

(** ** Objects *)

Section Object_rules.
Context {T : Type} `{!Resource T} (valid : T → Prop).
Implicit Types (R : gset resource).

(** Constructing an object in a context, and destroying it there. *)
Lemma owns_new R m : constructs valid m →
  owns R m (λ t R', valid t ∧ owned t ## R ∧ R' = owned t ∪ R) (λ R', R' = R).
Proof.
  intros Hm. pose proof (owns_frame ∅ R _ _ m Hm (disjoint_empty_l R)) as H. rewrite (left_id_L ∅ (∪)) in H.
  eapply owns_mono; [exact H|..]; cbv beta.
  - intros t R' (R0 & [? ->] & ? & ->). done.
  - intros R' (R0 & -> & _ & ->). set_solver.
Qed.

Lemma owns_destroy R E t : ResourceLaws T valid → valid t → owned t ⊆ R →
  owns R (destroy t) (λ _ R', R' = R ∖ owned t) E.
Proof.
  intros HT Ht HR k F Hk HF.
  specialize (HT t (λ _, False) Ht k (R ∖ owned t ∪ F)).
  assert (held k = owned t ∪ (R ∖ owned t ∪ F)) as Hk'.
  { by rewrite Hk, (assoc_L (∪)), <- union_difference_L. }
  specialize (HT Hk' ltac:(set_solver)).
  destruct (destroy t k) as [[a|e| |] k']; [|naive_solver..]. destruct HT as (R' & -> & -> & _ & Hs).
  exists (R ∖ owned t). split_and!; [done|set_solver|set_solver|done].
Qed.
End Object_rules.

(** Run a constructor and the destructor of what it gives. *)
Definition lifetime {T} `{Resource T} (m : M Kernel T) : M Kernel unit := t ← m; destroy t.

Lemma lifetime_spec {T} `{!Resource T} valid (m : M Kernel T) :
  ResourceLaws T valid → constructs valid m → owns ∅ (lifetime m) (λ _ R, R = ∅) (λ R, R = ∅).
Proof.
  intros HT Hm. unfold lifetime. eapply owns_bind; [exact Hm|]. intros t R [Ht ->]. by apply HT.
Qed.

(** Nothing taken and nothing released, in every outcome. *)
Lemma owns_balanced {A} (m : M Kernel A) k : owns ∅ m (λ _ R, R = ∅) (λ R, R = ∅) →
  held (m k).2 = held k ∧ stray (m k).2 = stray k.
Proof.
  intros Hm. specialize (Hm k (held k) ltac:(set_solver) ltac:(set_solver)).
  destruct (m k) as [[a|e| |] k']; [| |done..]; destruct Hm as (R & -> & Hh & _ & Hs); cbn;
    (split; [set_solver|done]).
Qed.

(** * A concrete kernel *)

(** Descriptors, pages and lists numbered above those in use; [fails] says
    which calls fail, and with which error.  The parameters can be what
    [OSLaws] asks. *)
Definition above (f : resource → Z) (X : gset resource) : Z :=
  foldr (λ r m, Z.max (f r + 1) m) 1 (elements X).

Definition page_of (r : resource) : Z := match r with Page n => n | _ => 0 end.
Definition info_of (r : resource) : Z := match r with AddrInfo n => n | _ => 0 end.
Definition fd_of (r : resource) : Z := match r with Fd n => n | _ => 0 end.

Definition sample_os (page : Z) (fails : nat → syscall → option Z) : OS := {|
  errno_of := fails;
  pick_fd X := above fd_of X;
  pick_page X _ := above page_of X;
  pick_info X := above info_of X;
  new_flags _ := 2;
  page_size := page
|}.

Lemma above_spec f X r : 0 < above f X ∧ (r ∈ X → f r < above f X).
Proof.
  unfold above. rewrite <- elem_of_elements. induction (elements X) as [|r' l [IH1 IH2]]; cbn.
  - split; [lia|]. intros Hr. by apply elem_of_nil in Hr.
  - split; [lia|]. rewrite elem_of_cons. intros [->|Hr]; [lia|]. specialize (IH2 Hr). lia.
Qed.

Lemma sample_os_laws page fails : (∃ e, 0 ≤ e < 32 ∧ page = 2 ^ e) → @OSLaws (sample_os page fails).
Proof.
  intros Hpage. constructor; cbn.
  - intros X. destruct (above_spec fd_of X (Fd (above fd_of X))) as [? Hx].
    split; [lia|]. intros HX. specialize (Hx HX). cbn in Hx. lia.
  - intros X n. destruct (above_spec page_of X (Page 0)) as [? _]. split; [done|].
    intros i Hi HX. destruct (above_spec page_of X (Page (above page_of X + i))) as [_ Hx].
    specialize (Hx HX). cbn in Hx. lia.
  - intros X. destruct (above_spec info_of X (AddrInfo (above info_of X))) as [? Hx].
    split; [lia|]. intros HX. specialize (Hx HX). cbn in Hx. lia.
  - exact Hpage.
Qed.

(** Small and large pages. *)
#[export] Instance small_page_laws fails : @OSLaws (sample_os 4096 fails).
Proof. apply sample_os_laws. by exists 12. Qed.
#[export] Instance large_page_laws fails : @OSLaws (sample_os 1073741824 fails).
Proof. apply sample_os_laws. by exists 30. Qed.

Definition idle_kernel : Kernel := mkKernel ∅ ∅ ∅ [] false.
