(* ===== verification/TCPSocket.v ===== *)
(** [network::TCPSocket] (src/src/network/TCPSocket.h): every member function,
    over the system calls of Kernel.v.

    A socket object is its descriptor, -1 in a moved-from one.  The texts of
    the exceptions leave out what [strerror] and the port number add. *)

From S2P Require Import Prelude Kernel.

Record TCPSocket : Type := mkSocket { socket_fd : Z }.

Definition SOL_SOCKET : Z := 1.
Definition SO_REUSEADDR : Z := 2.
Definition IPPROTO_TCP : Z := 6.
Definition TCP_NODELAY : Z := 1.
Definition TCP_QUICKACK : Z := 12.
Definition O_NONBLOCK : Z := 2048.

Section Socket.
Context `{OS}.

Definition TCPSocket_ctor : M Kernel TCPSocket :=
  socket_info ← getaddrinfo;
  match socket_info with
  | None => throw (runtime_error
      "TCPSocket(): Unable to obtain address info for own server's port number: ")
  | Some info =>
      fd ← open_fd "socket" [];
      if fd =? -1 then
        freeaddrinfo info;;
        throw (runtime_error
          "TCPSocket(): Unable to create a socket file descriptor for own server's port number: ")
      else
      reuse ← setsockopt fd SOL_SOCKET SO_REUSEADDR 1;
      if negb reuse then
        close fd;; freeaddrinfo info;;
        throw (runtime_error
          "TCPSocket(): Unable to set SO_REUSEADDR for own server's port number: ")
      else
      bound ← succeeds "bind" [fd];
      if negb bound then
        close fd;; freeaddrinfo info;;
        throw (runtime_error "TCPSocket(): Unable to bind socket to port number: ")
      else
        freeaddrinfo info;;
        mret (mkSocket fd)
  end.

Definition TCPSocket_dtor (s : TCPSocket) : M Kernel unit :=
  if socket_fd s =? -1 then mret tt else close (socket_fd s).

(** The move constructor: the new socket and what is left of the old one. *)
Definition TCPSocket_move (other : TCPSocket) : TCPSocket * TCPSocket :=
  (mkSocket (socket_fd other), mkSocket (-1)).

Definition TCPSocket_move_assign (same_object : bool) (this other : TCPSocket)
    : M Kernel (TCPSocket * TCPSocket) :=
  if same_object then mret (this, other) else
  (if socket_fd this =? -1 then mret tt else close (socket_fd this));;
  mret (mkSocket (socket_fd other), mkSocket (-1)).

Definition TCPSocket_listen (s : TCPSocket) (backlog : Z) : M Kernel unit :=
  ok ← succeeds "listen" [socket_fd s; backlog];
  if (ok : bool) then mret tt
  else throw (runtime_error "TCPSocket::listen(): Unable to listen on socket.").

(** The descriptor of the connection, or -1 when there is none to accept. *)
Definition TCPSocket_accept (s : TCPSocket) : M Kernel Z :=
  '(errno, rc) ← sys_fd "accept" [socket_fd s];
  if rc =? -1 then
    if bool_decide (errno = Some EAGAIN) then mret (-1)
    else throw (runtime_error
      "TCPSocket::accept(): Unable to accept a connection on socket.")
  else mret rc.

(** The address list is not freed. *)
Definition TCPSocket_connect (s : TCPSocket) : M Kernel Z :=
  res ← getaddrinfo;
  match res with
  | None => throw (runtime_error
      "TCPSocket::connect(): Unable to get address information for server: ")
  | Some _ =>
      ok ← succeeds "connect" [socket_fd s];
      mret (if (ok : bool) then 0 else -1)
  end.

Definition TCPSocket_set_non_blocking (s : TCPSocket) : M Kernel unit :=
  flags ← fcntl_getfl (socket_fd s);
  if flags =? -1 then throw (runtime_error
    "TCPSocket::set_non_blocking(): Unable to get socket's flags") else
  rc ← fcntl_setfl (socket_fd s) (Z.lor flags O_NONBLOCK);
  if rc =? -1 then throw (runtime_error
    "TCPSocket::set_non_blocking(): Unable to set socket to be non blocking.")
  else mret tt.

Definition TCPSocket_set_no_delay (s : TCPSocket) (enable : Z) : M Kernel unit :=
  ok ← setsockopt (socket_fd s) IPPROTO_TCP TCP_NODELAY enable;
  if (ok : bool) then mret tt else throw (runtime_error
    "TCPSocket::set_no_delay(): Unable to set/unset socket's Nagle's Algorithm. Error: ").

Definition TCPSocket_set_quick_ack (s : TCPSocket) (enable : Z) : M Kernel unit :=
  ok ← setsockopt (socket_fd s) IPPROTO_TCP TCP_QUICKACK enable;
  if (ok : bool) then mret tt else throw (runtime_error
    "TCPSocket::set_quick_ack(): Unable to set/unset socket's QUICKACK. Error: ").

(** [OuchClient()]: the member [socket_] is destroyed when the body throws. *)
Definition OuchClient_ctor : M Kernel TCPSocket :=
  socket_ ← TCPSocket_ctor;
  unwind (TCPSocket_set_non_blocking socket_;; TCPSocket_set_no_delay socket_ 1)
         (TCPSocket_dtor socket_);;
  mret socket_.
End Socket.

(** * Ownership *)

Definition socket_valid (s : TCPSocket) : Prop := -1 ≤ socket_fd s.

#[export] Instance socket_resource `{OS} : Resource TCPSocket := {
  owned s := if socket_fd s =? -1 then ∅ else {[Fd (socket_fd s)]};
  destroy := TCPSocket_dtor
}.

Section Socket_ownership.
Context `{OSLaws}.

#[export] Instance socket_resource_laws : ResourceLaws TCPSocket socket_valid.
Proof.
  intros s E _. cbn. unfold TCPSocket_dtor. destruct (socket_fd s =? -1); [by apply owns_ret|].
  eapply owns_mono; [apply owns_close; set_solver|set_solver|done].
Qed.

Lemma TCPSocket_constructs : constructs socket_valid TCPSocket_ctor.
Proof.
  unfold constructs, TCPSocket_ctor. owns_auto; try set_solver.
  split; [unfold socket_valid; cbn; lia|]. cbn. rewrite Heqb. set_solver.
Qed.

(** The member functions neither take nor release anything, whether they
    return or throw; [accept] takes the new connection. *)
Lemma owns_set_non_blocking R s :
  owns R (TCPSocket_set_non_blocking s) (λ _ R', R' = R) (λ R', R' = R).
Proof. unfold TCPSocket_set_non_blocking. owns_auto; done. Qed.

Lemma owns_set_no_delay R s n :
  owns R (TCPSocket_set_no_delay s n) (λ _ R', R' = R) (λ R', R' = R).
Proof. unfold TCPSocket_set_no_delay. owns_auto; done. Qed.

Lemma owns_set_quick_ack R s n :
  owns R (TCPSocket_set_quick_ack s n) (λ _ R', R' = R) (λ R', R' = R).
Proof. unfold TCPSocket_set_quick_ack. owns_auto; done. Qed.

Lemma owns_listen R s n : owns R (TCPSocket_listen s n) (λ _ R', R' = R) (λ R', R' = R).
Proof. unfold TCPSocket_listen. owns_auto; done. Qed.

Lemma owns_accept R s : owns R (TCPSocket_accept s) (fd_taken R) (λ R', R' = R).
Proof.
  unfold TCPSocket_accept. eapply owns_bind; [apply owns_sys_fd|]. intros [e rc] R' Hr.
  owns_facts; cbn [Z.eqb Pos.eqb]; owns_auto; try done; [by left|lia..|by right].
Qed.

Lemma OuchClient_constructs : constructs socket_valid OuchClient_ctor.
Proof.
  unfold constructs, OuchClient_ctor. eapply owns_bind; [apply TCPSocket_constructs|].
  intros s R [Hv ->]. eapply (owns_bind _ _ (λ _ R, R = owned s)); [|intros [] R ->; by apply owns_ret].
  apply (owns_unwind _ (λ R, R = owned s)).
  - eapply owns_bind; [apply owns_set_non_blocking|]. intros [] R ->. apply owns_set_no_delay.
  - intros R ->. by apply socket_resource_laws.
Qed.

Lemma TCPSocket_move_owned s : socket_valid s →
  let '(s', old) := TCPSocket_move s in owned s' = owned s ∧ owned old = ∅ ∧ socket_valid old.
Proof. by intros Hs. Qed.

Lemma owns_move_assign this other E : owned this ## owned other →
  owns (owned this ∪ owned other) (TCPSocket_move_assign false this other)
    (λ r R, R = owned other ∧ R = owned r.1 ∧ owned r.2 = ∅) E.
Proof.
  intros Hd. unfold TCPSocket_move_assign. eapply (owns_bind _ _ (λ _ R, R = owned other)).
  - cbn in Hd |- *. destruct (socket_fd this =? -1); [apply owns_ret; set_solver|].
    eapply owns_mono; [apply owns_close; set_solver| |done]. set_solver.
  - intros [] R ->. by apply owns_ret.
Qed.
End Socket_ownership.

(** * What the calls do *)

Section Socket_calls.
Context `{OSLaws}.
Implicit Types (s : TCPSocket) (k : Kernel).

(** [connect] keeps an address list nobody can free, in every call that gets
    one. *)
Lemma connect_leaks_address_list R s :
  owns R (TCPSocket_connect s)
    (λ rc R', ∃ a, (AddrInfo a ∉ R) ∧ R' = {[AddrInfo a]} ∪ R) (λ R', R' = R).
Proof. unfold TCPSocket_connect. owns_auto; eauto. Qed.

(** A call that changes nothing the process can see: no descriptor, mapping or
    list taken or given back, no flag, no option. *)
Definition unchanged k k' : Prop :=
  held k' = held k ∧ stray k' = stray k ∧ fl_flags k' = fl_flags k ∧ sock_opts k' = sock_opts k.

(** The outcome of [set_non_blocking] by the two calls of fcntl it makes. *)
Definition non_blocking_post s k (r : outcome unit * Kernel) : Prop :=
  ∃ f, fl_flags k !! socket_fd s = Some f ∧
  let getfl := errno_of (length (calls k)) (mkCall "fcntl" [socket_fd s; 3]) in
  let setfl := errno_of (S (length (calls k))) (mkCall "fcntl" [socket_fd s; 4; Z.lor f O_NONBLOCK]) in
  match r with
  | (Ok _, k') => getfl = None ∧ f ≠ (-1) ∧ setfl = None ∧
      held k' = held k ∧ stray k' = stray k ∧ sock_opts k' = sock_opts k ∧
      ∃ f', fl_flags k' = <[socket_fd s := f']> (fl_flags k) ∧
            ∀ i, 0 ≤ i → Z.testbit f' i = (i =? 11) || Z.testbit f i
  | (Throw _, k') => (getfl ≠ None ∨ f = (-1) ∨ setfl ≠ None) ∧ unchanged k k'
  | _ => False
  end.

Lemma set_non_blocking_spec s k : is_Some (fl_flags k !! socket_fd s) →
  non_blocking_post s k (TCPSocket_set_non_blocking s k).
Proof.
  intros [f Hf]. exists f. split; [exact Hf|].
  unfold TCPSocket_set_non_blocking, fcntl_getfl, fcntl_setfl, succeeds, sys. munfold.
  cbn [log_call calls length fl_flags].
  destruct (errno_of (length (calls k)) _); cbn; [by split; [left|]|]. rewrite Hf. cbn.
  destruct (f =? -1) eqn:E; [apply Z.eqb_eq in E; by split; [right; left|]|apply Z.eqb_neq in E].
  cbn. rewrite length_app, Nat.add_1_r. destruct (errno_of _ _); cbn; [by split; [right; right|]|].
  split_and!; [done..|]. eexists. split; [done|].
  intros i Hi. rewrite Z.lor_spec, orb_comm. f_equal. unfold O_NONBLOCK. change 2048 with (2 ^ 11).
  rewrite Z.pow2_bits_eqb by lia. by rewrite Z.eqb_sym.
Qed.

Definition option_post s (name enable : Z) k (r : outcome unit * Kernel) : Prop :=
  let errno := errno_of (length (calls k)) (mkCall "setsockopt" [socket_fd s; IPPROTO_TCP; name]) in
  match r with
  | (Ok _, k') => errno = None ∧ held k' = held k ∧ stray k' = stray k ∧ fl_flags k' = fl_flags k ∧
      sock_opts k' = <[(socket_fd s, IPPROTO_TCP, name) := enable]> (sock_opts k)
  | (Throw _, k') => errno ≠ None ∧ unchanged k k'
  | _ => False
  end.

Lemma set_no_delay_spec s enable k :
  option_post s TCP_NODELAY enable k (TCPSocket_set_no_delay s enable k).
Proof.
  unfold option_post, TCPSocket_set_no_delay, setsockopt, succeeds, sys. munfold. by destruct (errno_of _ _).
Qed.

Lemma set_quick_ack_spec s enable k :
  option_post s TCP_QUICKACK enable k (TCPSocket_set_quick_ack s enable k).
Proof.
  unfold option_post, TCPSocket_set_quick_ack, setsockopt, succeeds, sys. munfold. by destruct (errno_of _ _).
Qed.

(** [accept] distinguishes an empty backlog from an error. *)
Definition accept_post s k (r : outcome Z * Kernel) : Prop :=
  let errno := errno_of (length (calls k)) (mkCall "accept" [socket_fd s]) in
  match r with
  | (Ok fd, k') =>
      (fd = (-1) ∧ errno = Some EAGAIN ∧ unchanged k k') ∨
      (0 ≤ fd ∧ errno = None ∧ (Fd fd ∉ held k) ∧ held k' = {[Fd fd]} ∪ held k ∧ stray k' = stray k ∧
       sock_opts k' = sock_opts k ∧ ∀ fd', fd' ≠ fd → fl_flags k' !! fd' = fl_flags k !! fd')
  | (Throw _, k') => (∃ e, errno = Some e ∧ e ≠ EAGAIN) ∧ unchanged k k'
  | _ => False
  end.

Lemma accept_spec s k : accept_post s k (TCPSocket_accept s k).
Proof.
  unfold accept_post, TCPSocket_accept, sys_fd, sys. munfold. destruct (errno_of _ _) as [e|] eqn:He; cbn.
  - case_bool_decide; simplify_eq; cbn; [by left|]. split; [|done]. exists e. split; [done|congruence].
  - destruct (pick_fd_new (held k)) as [Hpos Hnew]. rewrite (proj2 (Z.eqb_neq (pick_fd (held k)) (-1))) by lia.
    right. split_and!; [done..|]. intros fd' Hfd. by apply lookup_insert_ne.
Qed.

(** C29 The calls on a socket whose descriptor is open: [set_non_blocking] sets
    the flag O_NONBLOCK of the descriptor and no other flag of it or of another
    descriptor, and throws exactly when one of its two calls of fcntl fails
    (or the flags read as -1); [set_no_delay] and [set_quick_ack] set their
    option to the given value and nothing else, and throw exactly when
    setsockopt fails (a value of 1 turns Nagle's algorithm off, although the
    comment says it enables it); [accept] returns a new descriptor, or -1
    exactly when the error is EAGAIN, and throws on every other error.  None of
    them closes a descriptor, and an exception of any of them leaves what is
    held, the flags and the options as they were. *)
Theorem socket_calls_specification s k enable : is_Some (fl_flags k !! socket_fd s) →
  non_blocking_post s k (TCPSocket_set_non_blocking s k) ∧
  option_post s TCP_NODELAY enable k (TCPSocket_set_no_delay s enable k) ∧
  option_post s TCP_QUICKACK enable k (TCPSocket_set_quick_ack s enable k) ∧
  accept_post s k (TCPSocket_accept s k).
Proof.
  eauto using set_non_blocking_spec, set_no_delay_spec, set_quick_ack_spec, accept_spec.
Qed.
End Socket_calls.

(** Every call succeeds; the descriptor 3 is open. *)
Definition calm_os : OS := sample_os 4096 (λ _ _, None).
Definition one_socket : Kernel := mkKernel {[Fd 3]} {[3 := 2]} ∅ [] false.

Lemma socket_calls_specification_witness :
  let s := mkSocket 3 in
  @non_blocking_post calm_os s one_socket (@TCPSocket_set_non_blocking calm_os s one_socket) ∧
  @accept_post calm_os s one_socket (@TCPSocket_accept calm_os s one_socket) ∧
  fl_flags (@TCPSocket_set_non_blocking calm_os s one_socket).2 !! 3 = Some 2050 ∧
  (@TCPSocket_accept calm_os s one_socket).1 = Ok 4.
Proof.
  intros s.
  destruct (@socket_calls_specification calm_os (small_page_laws _) s one_socket 1) as (Hn & _ & _ & Ha); [by eexists|].
  split_and!; [exact Hn|exact Ha|by vm_compute..].
Defined.
