(* ===== verification/Ownership.v ===== *)
(** Who owns which descriptor and which mapping: the constructors,
    destructors and moves of the classes, over the system calls of Kernel.v.

    A handle holds the pointers and descriptors of an object (null is 0, no
    descriptor is -1); the contents of the memory behind them are in the files
    of the classes (MmapLogger.v, StaticOrderMap.v, LimitOrderBook.v,
    MagicBuffer.v, MulticastReceiver.v, EpollReactor.v). *)

From S2P Require Import Prelude MagicBuffer StaticOrderMap LimitOrderBook MmapLogger MulticastReceiver EpollReactor Kernel TCPSocket.

(** * The handles *)

(** [start_] of MmapLogger. *)
Record LoggerHandle : Type := mkLoggerHandle { lh_start : Z }.

(** [map_] and [mapped_bytes_] of StaticOrderMap. *)
Record MapHandle : Type := mkMapHandle { mh_map : Z; mh_bytes : Z }.

(** [orders_] and [pool_] of LimitOrderBook; the size of the mapping of the
    pool is not kept by the code. *)
Record BookHandle : Type := mkBookHandle { bk_orders : MapHandle; bk_pool : Z; bk_bytes : Z }.

Record BufferHandle : Type := mkBufferHandle {
  bh_start : Z;
  bh_second : Z;
  bh_capacity : Z;
  bh_fd : Z
}.

(** [fd_buffers_] and [epoll_fd_] of EpollReactor. *)
Record ReactorHandle : Type := mkReactorHandle { rh_buffers : list BufferHandle; rh_epoll : Z }.

(** [ring_], [fd_] and [total_size_] of MulticastReceiver. *)
Record ReceiverHandle : Type := mkReceiverHandle { rc_ring : Z; rc_fd : Z; rc_size : Z }.

(** [metadata_] and [fd_] of TelemetryEngine. *)
Record TelemetryHandle : Type := mkTelemetryHandle { te_metadata : Z; te_fd : Z }.

Definition SOL_PACKET : Z := 263.
Definition PACKET_ADD_MEMBERSHIP : Z := 1.
Definition PACKET_RX_RING : Z := 5.
Definition PACKET_VERSION : Z := 10.
Definition SO_ATTACH_FILTER : Z := 26.
Definition TPACKET_V2 : Z := 1.
Definition IFNAMSIZ : Z := 16.

Section Classes.
Context `{OS}.

(** ** MmapLogger *)

Definition MmapLogger_ctor : M Kernel LoggerHandle :=
  fd ← open_fd "open" [];
  if fd =? -1 then throw (runtime_error "MmapLogger(): unable to create new file.") else
  ret ← succeeds "fallocate" [fd; 0; 0; FILE_SIZE];
  if negb ret then
    close fd;; throw (runtime_error "MmapLogger(): unable to fallocate data blocks for file.")
  else
  addr ← mmap FILE_SIZE [fd];
  match addr with
  | None => close fd;; throw (runtime_error "MmapLogger(): unable to mmap file.")
  | Some start =>
      ret ← succeeds "madvise" [start; FILE_SIZE];
      if negb ret then
        close fd;; munmap start FILE_SIZE;;
        throw (runtime_error "MmapLogger(): unable to use madvise.")
      else
        close fd;; mret (mkLoggerHandle start)
  end.

Definition MmapLogger_dtor (l : LoggerHandle) : M Kernel unit :=
  if lh_start l =? 0 then mret tt else munmap (lh_start l) FILE_SIZE.

Definition MmapLogger_assign (same_object : bool) (this other : LoggerHandle)
    : M Kernel (LoggerHandle * LoggerHandle) :=
  if same_object then mret (this, other) else
  (if lh_start this =? 0 then mret tt else munmap (lh_start this) FILE_SIZE);;
  mret (mkLoggerHandle (lh_start other), mkLoggerHandle 0).

(** ** StaticOrderMap *)

Definition StaticOrderMap_ctor (Capacity : Z) : M Kernel MapHandle :=
  let bytes_needed := u64 (Capacity * sizeof_Bucket) in
  let page_aligned_bytes_needed := align_capacity page_size bytes_needed in
  map_addr ← mmap page_aligned_bytes_needed [-1];
  match map_addr with
  | None => throw (runtime_error
      "StaticOrderMap(): Unable to allocate memory for StaticOrderMap.")
  | Some a => mret (mkMapHandle a page_aligned_bytes_needed)
  end.

Definition StaticOrderMap_dtor (m : MapHandle) : M Kernel unit :=
  if mh_map m =? 0 then mret tt else munmap (mh_map m) (mh_bytes m).

Definition StaticOrderMap_assign (same_object : bool) (this other : MapHandle)
    : M Kernel (MapHandle * MapHandle) :=
  if same_object then mret (this, other) else
  (if mh_map this =? 0 then mret tt else munmap (mh_map this) (mh_bytes this));;
  mret (mkMapHandle (mh_map other) (mh_bytes other), mkMapHandle 0 (mh_bytes other)).

(** ** LimitOrderBook *)

(** The member [orders_] is constructed before the body runs, and destroyed
    when the body throws.  There is no destructor: the implicit one destroys
    [orders_] and forgets [pool_]. *)
Definition LimitOrderBook_body (max_orders : Z) : M Kernel (Z * Z) :=
  if max_orders =? 0 then
    throw (runtime_error "LimitOrderBook(): Max Orders should be a positive value.")
  else
    let bytes := align_capacity page_size (u64 (max_orders * sizeof_Order)) in
    pool_addr ← mmap bytes [-1];
    match pool_addr with
    | None => throw (runtime_error "LimitOrderBook(): Unable to mmap order pool.")
    | Some a => mret (a, bytes)
    end.

Definition LimitOrderBook_ctor (max_orders : Z) : M Kernel BookHandle :=
  orders_ ← StaticOrderMap_ctor ORDER_MAP_SIZE;
  pool ← unwind (LimitOrderBook_body max_orders) (StaticOrderMap_dtor orders_);
  mret (mkBookHandle orders_ pool.1 pool.2).

Definition LimitOrderBook_dtor (b : BookHandle) : M Kernel unit := StaticOrderMap_dtor (bk_orders b).

(** ** MagicBuffer *)

(** The two mappings at fixed addresses replace pages of the reservation. *)
Definition MagicBuffer_ctor (capacity : Z) : M Kernel BufferHandle :=
  if capacity =? 0 then
    throw (logic_error "MagicBuffer(): Unable to create magic buffer of size 0")
  else
  fd ← open_fd "memfd_create" [];
  if fd =? -1 then
    throw (runtime_error "MagicBuffer(): Unable to create file descriptor for magic buffer.")
  else
  let aligned_capacity := align_capacity page_size capacity in
  ret ← succeeds "ftruncate" [fd; aligned_capacity];
  if negb ret then
    close fd;; throw (runtime_error "MagicBuffer(): Unable to create magic buffer.")
  else
  buffer ← mmap (aligned_capacity * 2) [-1];
  match buffer with
  | None => close fd;; throw (runtime_error "MagicBuffer(): Unable to mmap, not enough memory.")
  | Some buffer =>
      first ← succeeds "mmap" [aligned_capacity; buffer; fd];
      if negb first then
        munmap buffer (aligned_capacity * 2);; close fd;;
        throw (runtime_error
          "MagicBuffer(): Unexpected error occurred when mapping start of buffer.")
      else
      second ← succeeds "mmap" [aligned_capacity; buffer + aligned_capacity; fd];
      if negb second then
        munmap buffer (aligned_capacity * 2);; close fd;;
        throw (runtime_error
          "MagicBuffer(): Unexpected error occurred when mapping second start of buffer.")
      else mret (mkBufferHandle buffer (buffer + aligned_capacity) aligned_capacity fd)
  end.

Definition MagicBuffer_dtor (b : BufferHandle) : M Kernel unit :=
  (if bh_start b =? 0 then mret tt else munmap (bh_start b) (bh_capacity b * 2));;
  if bh_fd b =? -1 then mret tt else close (bh_fd b).

(** The move constructor does not initialise [fd_]: [junk] is found there.
    Move assignment closes [fd_] and leaves it. *)
Definition MagicBuffer_take (junk : Z) (other : BufferHandle) : BufferHandle * BufferHandle :=
  (mkBufferHandle (bh_start other) (bh_second other) (bh_capacity other) junk,
   mkBufferHandle 0 0 (bh_capacity other) (bh_fd other)).

Definition MagicBuffer_assign (same_object : bool) (this other : BufferHandle)
    : M Kernel (BufferHandle * BufferHandle) :=
  if same_object then mret (this, other) else
  (if bh_start this =? 0 then mret tt else
     munmap (bh_start this) (bh_capacity this);;
     munmap (bh_second this) (bh_capacity this);;
     close (bh_fd this));;
  mret (mkBufferHandle (bh_start other) (bh_second other) (bh_capacity other) (bh_fd this),
        mkBufferHandle 0 0 (bh_capacity other) (bh_fd other)).

(** ** EpollReactor *)

(** [n] more calls of [fd_buffers_.emplace_back]; when one throws the vector
    destroys the buffers it has. *)
Fixpoint destroy_buffers (bs : list BufferHandle) : M Kernel unit :=
  match bs with
  | [] => mret tt
  | b :: bs' => MagicBuffer_dtor b;; destroy_buffers bs'
  end.

Fixpoint emplace_buffers (n : nat) (bs : list BufferHandle) : M Kernel (list BufferHandle) :=
  match n with
  | O => mret bs
  | S n' =>
      b ← unwind (MagicBuffer_ctor MAX_BUFFER_SIZE) (destroy_buffers bs);
      emplace_buffers n' (bs ++ [b])
  end.

(** The destructor does not run when the constructor throws: [epoll_fd_] is an
    [int]. *)
Definition EpollReactor_ctor (initialize_buffers : bool) : M Kernel ReactorHandle :=
  epoll_fd ← open_fd "epoll_create1" [];
  if epoll_fd =? -1 then throw (runtime_error "EpollReactor(): Unable to create epoll instance.")
  else if initialize_buffers then
    bs ← emplace_buffers (Z.to_nat MAX_CONNECTIONS) []; mret (mkReactorHandle bs epoll_fd)
  else mret (mkReactorHandle [] epoll_fd).

(** The body, then the members. *)
Definition EpollReactor_dtor (r : ReactorHandle) : M Kernel unit :=
  (if rh_epoll r =? -1 then mret tt else close (rh_epoll r));;
  destroy_buffers (rh_buffers r).

(** Move assignment takes the descriptor only. *)
Definition EpollReactor_assign (same_object : bool) (this other : ReactorHandle)
    : M Kernel (ReactorHandle * ReactorHandle) :=
  if same_object then mret (this, other) else
  (if rh_epoll this =? -1 then mret tt else close (rh_epoll this));;
  mret (mkReactorHandle (rh_buffers this) (rh_epoll other), mkReactorHandle (rh_buffers other) (-1)).

(** ** MulticastReceiver *)

(** The bytes of [mreq.mr_address]: the last two are not set; [junk] is found
    there. *)
Definition mr_address (ip junk : list Z) : list Z :=
  [1; 0; 94; Z.land (nth 1 ip 0) 127] ++ junk.

(** [name_len] is the length of the interface's name, which [memcpy] copies
    with its terminator; [pton] and [ip] are the result of [inet_pton] and
    the four bytes it wrote. *)
Definition MulticastReceiver_ctor (name_len pton : Z) (ip junk : list Z) : M Kernel ReceiverHandle :=
  fd ← open_fd "socket" [];
  if fd =? -1 then
    throw (runtime_error "MulticastReceiver(): Unable to create AF_PACKET socket.")
  else if IFNAMSIZ <? name_len + 1 then ub else
  let fail what := close fd;; throw (runtime_error what) in
  ret ← succeeds "ioctl" [fd];
  if negb ret then
    fail "MulticastReceiver(): Unable to retrieve interface index for interface."%string
  else if pton =? -1 then
    fail "MulticastReceiver(): Unable to retrieve integer network representation for multicast address."%string
  else if pton =? 0 then
    fail "MulticastReceiver(): Invalid network format."%string
  else
  ret ← succeeds "setsockopt" ([fd; SOL_PACKET; PACKET_ADD_MEMBERSHIP] ++ mr_address ip junk);
  if negb ret then
    fail "MulticastReceiver(): Unable to add multicast packet membership."%string
  else
  ret ← succeeds "setsockopt" [fd; SOL_PACKET; SO_ATTACH_FILTER];
  if negb ret then
    fail "MulticastReceiver(): Unable to attach BPF filter."%string
  else
  ret ← setsockopt fd SOL_PACKET PACKET_VERSION TPACKET_V2;
  if negb ret then
    fail "MulticastReceiver(): Unable to set TPACKET_VERSION."%string
  else
  ret ← succeeds "setsockopt" [fd; SOL_PACKET; PACKET_RX_RING; RX_BLOCK_SIZE; RX_FRAME_SIZE;
                               RX_BLOCK_NR; RX_FRAME_NR];
  if negb ret then
    fail "MulticastReceiver(): Unable to setup RX ring."%string
  else
  let total_size := RX_BLOCK_SIZE * RX_BLOCK_NR in
  ring_addr ← mmap total_size [fd];
  match ring_addr with
  | None => fail "MulticastReceiver(): Unable to mmap RX ring buffer."%string
  | Some ring => mret (mkReceiverHandle ring fd total_size)
  end.

Definition MulticastReceiver_mock_ctor (mock_mode : bool) : M Kernel ReceiverHandle :=
  if mock_mode then
    let total_size := RX_BLOCK_SIZE * RX_BLOCK_NR in
    ring_addr ← mmap total_size [-1];
    match ring_addr with
    | None => throw (runtime_error "MulticastReceiver(): Unable to create mock RX ring buffer.")
    | Some ring => mret (mkReceiverHandle ring (-1) total_size)
    end
  else throw (runtime_error
    "MulticastReceiver(): Mock mode constructor should only be used when mock_mode is true.").

Definition MulticastReceiver_dtor (r : ReceiverHandle) : M Kernel unit :=
  (if rc_ring r =? 0 then mret tt else munmap (rc_ring r) (rc_size r));;
  if rc_fd r =? -1 then mret tt else close (rc_fd r).

(** [if (fd_)] is true of -1 and false of the descriptor 0. *)
Definition MulticastReceiver_assign (same_object : bool) (this other : ReceiverHandle)
    : M Kernel (ReceiverHandle * ReceiverHandle) :=
  if same_object then mret (this, other) else
  (if rc_fd this =? 0 then mret tt else
     close (rc_fd this);; munmap (rc_ring this) (rc_size this));;
  mret (mkReceiverHandle (rc_ring other) (rc_fd other) (rc_size other),
        mkReceiverHandle 0 (-1) (rc_size other)).

(** The calls of [simulate_packets] around its loop; [st_size] is the size of
    the file.  A thread that cannot be pinned goes on. *)
Definition simulate_packets_calls (st_size : Z) : M Kernel unit :=
  _ ← succeeds "pthread_setaffinity_np" [0];
  fd ← open_fd "open" [];
  if fd =? -1 then throw (runtime_error
    "MulticastReceiver::simulate_packets(): Unable to open file ") else
  data_addr ← mmap st_size [fd];
  match data_addr with
  | None => throw (runtime_error
      "MulticastReceiver::simulate_packets(): Unable to mmap for file ")
  | Some data =>
      ret ← succeeds "madvise" [data; st_size];
      if negb ret then throw (runtime_error
        "MulticastReceiver::simulate_packets(): Unable to set MADV_SEQUENTIAL for simulating packets.")
      else close fd;; munmap data st_size
  end.

(** ** TelemetryEngine, with ENABLE_HW_TELEMETRY *)

Definition TelemetryEngine_ctor (type config : Z) : M Kernel TelemetryHandle :=
  fd ← open_fd "perf_event_open" [type; config];
  if fd =? -1 then throw (runtime_error "TelemetryEngine(): Unable to open new perf event for type: ")
  else
  addr ← mmap 4096 [fd];
  match addr with
  | None =>
      close fd;;
      throw (runtime_error "TelemetryEngine(): Unable to create mapping for perf_event_mmap_page.")
  | Some a => mret (mkTelemetryHandle a fd)
  end.

Definition TelemetryEngine_dtor (t : TelemetryHandle) : M Kernel unit :=
  (if te_fd t =? -1 then mret tt else close (te_fd t));;
  if te_metadata t =? 0 then mret tt else munmap (te_metadata t) 4096.
End Classes.

(** * Ownership *)

(** What a descriptor member and a pointer member stand for, and the guarded
    releases of the destructors. *)
Definition fd_part (fd : Z) : gset resource := if fd =? -1 then ∅ else {[Fd fd]}.
Definition map_part `{OS} (addr len : Z) : gset resource := if addr =? 0 then ∅ else pages addr len.

Section Parts.
Context `{OSLaws}.
Implicit Types (R : gset resource) (E : gset resource → Prop).

Lemma owns_close_part R E fd : fd_part fd ⊆ R →
  owns R (if fd =? -1 then mret tt else close fd) (λ _ R', R' = R ∖ fd_part fd) E.
Proof.
  unfold fd_part. intros Hfd. destruct (fd =? -1); [apply owns_ret; set_solver|].
  apply owns_close. set_solver.
Qed.

Lemma owns_munmap_part R E a len : map_part a len ⊆ R →
  owns R (if a =? 0 then mret tt else munmap a len) (λ _ R', R' = R ∖ map_part a len) E.
Proof.
  unfold map_part. intros Ha. destruct (a =? 0); [apply owns_ret; set_solver|]. by apply owns_munmap.
Qed.

Lemma fd_part_open fd : 0 ≤ fd → fd_part fd = {[Fd fd]}.
Proof. intros Hfd. unfold fd_part. by rewrite (proj2 (Z.eqb_neq fd (-1))) by lia. Qed.

Lemma map_part_some a len : 0 < a → map_part a len = pages a len.
Proof. intros Ha. unfold map_part. by rewrite (proj2 (Z.eqb_neq a 0)) by lia. Qed.

Lemma parts_disjoint fd a len : fd_part fd ## map_part a len.
Proof. unfold fd_part, map_part. destruct (fd =? -1), (a =? 0); set_solver. Qed.
End Parts.

#[export] Instance logger_resource `{OS} : Resource LoggerHandle := {
  owned l := map_part (lh_start l) FILE_SIZE;
  destroy := MmapLogger_dtor
}.
#[export] Instance map_resource `{OS} : Resource MapHandle := {
  owned m := map_part (mh_map m) (mh_bytes m);
  destroy := StaticOrderMap_dtor
}.
#[export] Instance buffer_resource `{OS} : Resource BufferHandle := {
  owned b := map_part (bh_start b) (bh_capacity b * 2) ∪ fd_part (bh_fd b);
  destroy := MagicBuffer_dtor
}.
#[export] Instance receiver_resource `{OS} : Resource ReceiverHandle := {
  owned r := map_part (rc_ring r) (rc_size r) ∪ fd_part (rc_fd r);
  destroy := MulticastReceiver_dtor
}.
#[export] Instance telemetry_resource `{OS} : Resource TelemetryHandle := {
  owned t := map_part (te_metadata t) 4096 ∪ fd_part (te_fd t);
  destroy := TelemetryEngine_dtor
}.
(** The buffers of a reactor. *)
Fixpoint buffers_owned `{OS} (bs : list BufferHandle) : gset resource :=
  match bs with [] => ∅ | b :: bs' => owned b ∪ buffers_owned bs' end.
#[export] Instance reactor_resource `{OS} : Resource ReactorHandle := {
  owned r := fd_part (rh_epoll r) ∪ buffers_owned (rh_buffers r);
  destroy := EpollReactor_dtor
}.
#[export] Instance book_resource `{OS} : Resource BookHandle := {
  owned b := owned (bk_orders b) ∪ map_part (bk_pool b) (bk_bytes b);
  destroy := LimitOrderBook_dtor
}.

Section Laws.
Context `{OSLaws}.
Abbreviation any := (λ _, True).

#[export] Instance logger_resource_laws : ResourceLaws LoggerHandle any.
Proof.
  intros l E _. eapply owns_mono; [by apply owns_munmap_part| |done]. set_solver.
Qed.
#[export] Instance map_resource_laws : ResourceLaws MapHandle any.
Proof.
  intros m E _. eapply owns_mono; [by apply owns_munmap_part| |done]. set_solver.
Qed.
#[export] Instance buffer_resource_laws : ResourceLaws BufferHandle any.
Proof.
  intros b E _. cbn. unfold MagicBuffer_dtor. pose proof (parts_disjoint (bh_fd b) (bh_start b) (bh_capacity b * 2)).
  eapply owns_bind; [apply owns_munmap_part; set_solver|]. intros [] R ->.
  eapply owns_mono; [apply owns_close_part; set_solver| |done]. set_solver.
Qed.
#[export] Instance receiver_resource_laws : ResourceLaws ReceiverHandle any.
Proof.
  intros r E _. cbn. unfold MulticastReceiver_dtor. pose proof (parts_disjoint (rc_fd r) (rc_ring r) (rc_size r)).
  eapply owns_bind; [apply owns_munmap_part; set_solver|]. intros [] R ->.
  eapply owns_mono; [apply owns_close_part; set_solver| |done]. set_solver.
Qed.
#[export] Instance telemetry_resource_laws : ResourceLaws TelemetryHandle any.
Proof.
  intros t E _. cbn. unfold TelemetryEngine_dtor. pose proof (parts_disjoint (te_fd t) (te_metadata t) 4096).
  eapply owns_bind; [apply owns_close_part; set_solver|]. intros [] R ->.
  eapply owns_mono; [apply owns_munmap_part; set_solver| |done]. set_solver.
Qed.

(** ** Constructors *)

Ltac owns_object :=
  owns_auto; try set_solver; cbn; rewrite ?map_part_some, ?fd_part_open by done; set_solver.

Lemma MmapLogger_constructs : constructs any MmapLogger_ctor.
Proof. unfold constructs, MmapLogger_ctor. owns_object. Qed.

Lemma StaticOrderMap_constructs C : constructs any (StaticOrderMap_ctor C).
Proof. unfold constructs, StaticOrderMap_ctor. owns_object. Qed.

Lemma MagicBuffer_constructs n : constructs any (MagicBuffer_ctor n).
Proof. unfold constructs, MagicBuffer_ctor. owns_object. Qed.

Lemma MulticastReceiver_mock_constructs mode : constructs any (MulticastReceiver_mock_ctor mode).
Proof. unfold constructs, MulticastReceiver_mock_ctor. owns_object. Qed.

Lemma MulticastReceiver_constructs name_len pton ip junk : name_len < IFNAMSIZ →
  constructs any (MulticastReceiver_ctor name_len pton ip junk).
Proof.
  intros Hn. unfold constructs, MulticastReceiver_ctor. rewrite (proj2 (Z.ltb_ge IFNAMSIZ (name_len + 1))) by lia.
  owns_object.
Qed.

Lemma TelemetryEngine_constructs type config : constructs any (TelemetryEngine_ctor type config).
Proof. unfold constructs, TelemetryEngine_ctor. owns_object. Qed.

(** The book: the id map is released when the body throws.  Its pool is a
    mapping of [pool_bytes n] bytes apart from the id map. *)
Definition pool_bytes (n : Z) : Z := align_capacity page_size (u64 (n * sizeof_Order)).

Definition book_apart (b : BookHandle) : Prop :=
  owned (bk_orders b) ## map_part (bk_pool b) (bk_bytes b).
Definition book_of (n : Z) (b : BookHandle) : Prop :=
  book_apart b ∧ 0 < bk_pool b ∧ bk_pool b mod page_size = 0 ∧ bk_bytes b = pool_bytes n.

Lemma LimitOrderBook_constructs n : constructs (book_of n) (LimitOrderBook_ctor n).
Proof.
  unfold constructs, LimitOrderBook_ctor. eapply owns_bind; [apply StaticOrderMap_constructs|].
  intros om R [_ ->].
  eapply (owns_bind _ _ (λ p R, owned om ## map_part p.1 p.2 ∧ R = owned om ∪ map_part p.1 p.2 ∧
    0 < p.1 ∧ p.1 mod page_size = 0 ∧ p.2 = pool_bytes n)).
  - apply (owns_unwind _ (λ R, R = owned om)).
    + unfold LimitOrderBook_body. owns_auto; try done. cbn [fst snd]. rewrite map_part_some by done.
      split_and!; [done| |done..]. apply (comm_L (∪)).
    + intros R ->. by apply map_resource_laws.
  - intros p R (Hd & -> & Hb). by apply owns_ret.
Qed.

(** Its destructor leaves the pool mapped. *)
Lemma LimitOrderBook_dtor_leaks X E b : book_apart b → owned b ## X →
  owns (owned b ∪ X) (LimitOrderBook_dtor b)
    (λ _ R, R = map_part (bk_pool b) (bk_bytes b) ∪ X) E.
Proof.
  unfold book_apart. cbn [owned book_resource]. change (LimitOrderBook_dtor b) with (destroy (bk_orders b)).
  intros Hd HX. eapply owns_mono; [eapply (owns_destroy any); [apply _|done|]| |done].
  - clear. generalize (owned (bk_orders b)). set_solver.
  - intros _ R ->. revert Hd HX. clear. generalize (owned (bk_orders b)), (map_part (bk_pool b) (bk_bytes b)).
    set_solver.
Qed.

(** ** The buffers of a reactor *)

Fixpoint buffers_apart (bs : list BufferHandle) : Prop :=
  match bs with [] => True | b :: bs' => owned b ## buffers_owned bs' ∧ buffers_apart bs' end.

Lemma buffers_owned_snoc bs b : buffers_owned (bs ++ [b]) = owned b ∪ buffers_owned bs.
Proof.
  induction bs as [|b' bs IH]; cbn [app buffers_owned]; [done|].
  by rewrite IH, !(assoc_L (∪)), (comm_L (∪) (owned b)).
Qed.

Lemma buffers_apart_snoc bs b :
  owned b ## buffers_owned bs → buffers_apart bs → buffers_apart (bs ++ [b]).
Proof.
  induction bs as [|b' bs IH]; cbn [app buffers_owned buffers_apart].
  - intros _ _. split; [apply disjoint_empty_r|done].
  - rewrite buffers_owned_snoc, !disjoint_union_r. naive_solver.
Qed.

Lemma owns_destroy_buffers R E bs : buffers_owned bs ⊆ R → buffers_apart bs →
  owns R (destroy_buffers bs) (λ _ R', R' = R ∖ buffers_owned bs) E.
Proof.
  revert R. induction bs as [|b bs IH]; intros R HR Hd; cbn [destroy_buffers buffers_owned buffers_apart] in *.
  { apply owns_ret. by rewrite difference_empty_L. }
  change (MagicBuffer_dtor b) with (destroy b). destruct Hd as [Hd Hbs].
  assert (owned b ⊆ R ∧ buffers_owned bs ⊆ R ∖ owned b) as [HX HY].
  { revert HR Hd. clear. generalize (owned b), (buffers_owned bs). set_solver. }
  eapply owns_bind; [by apply (owns_destroy any); [apply _|..]|]. intros [] R' ->.
  eapply owns_mono; [by apply IH| |done]. intros _ R' ->. apply difference_difference_l_L.
Qed.

(** What the reactor's vector holds while it grows. *)
Lemma owns_emplace_buffers n bs X : buffers_apart bs → buffers_owned bs ## X →
  owns (buffers_owned bs ∪ X) (emplace_buffers n bs)
    (λ bs' R, buffers_apart bs' ∧ buffers_owned bs' ## X ∧ R = buffers_owned bs' ∪ X) (λ R, R = X).
Proof.
  revert bs. induction n as [|n IH]; intros bs Hbs HX; cbn [emplace_buffers]; [by apply owns_ret|].
  eapply owns_bind.
  { eapply owns_unwind; [apply (owns_new any), MagicBuffer_constructs|]. cbv beta. intros R ->.
    eapply owns_mono; [apply (owns_destroy_buffers _ (λ _, False)); [|done]| |done].
    - apply union_subseteq_l.
    - intros _ R ->. revert HX. clear. generalize (buffers_owned bs). set_solver. }
  cbv beta. intros b R (_ & Hb & ->). rewrite disjoint_union_r in Hb. destruct Hb as [Hb HbX].
  rewrite (assoc_L (∪)), <- buffers_owned_snoc. apply IH; [by apply buffers_apart_snoc|].
  rewrite buffers_owned_snoc, disjoint_union_l. done.
Qed.

(** A reactor that is constructed owns its descriptor and its buffers; a
    constructor that throws may have left the epoll descriptor behind. *)
Definition reactor_apart (r : ReactorHandle) : Prop :=
  buffers_apart (rh_buffers r) ∧ fd_part (rh_epoll r) ## buffers_owned (rh_buffers r).

Lemma owns_EpollReactor_ctor init :
  owns ∅ (EpollReactor_ctor init) (λ r R, reactor_apart r ∧ R = owned r)
    (λ R, R = ∅ ∨ ∃ fd, init = true ∧ R = {[Fd fd]}).
Proof.
  unfold EpollReactor_ctor. eapply owns_bind; [apply owns_open_fd|]. intros fd R Hfd.
  destruct (fd =? -1) eqn:E1; owns_facts; [by apply owns_throw; left|]. destruct init.
  - rewrite (comm_L (∪)). change (∅ : gset resource) with (buffers_owned []). eapply owns_bind.
    + eapply owns_mono; [apply (owns_emplace_buffers _ [] {[Fd fd]}); [done|apply disjoint_empty_l]|..]; cbv beta.
      * intros bs R HR. exact HR.
      * intros R ->. right. by exists fd.
    + cbv beta. intros bs R (Hbs & Hd & ->). apply owns_ret. unfold reactor_apart. cbn.
      rewrite fd_part_open, (comm_L (∪)) by done. done.
  - apply owns_ret. unfold reactor_apart. cbn. rewrite fd_part_open by done. done.
Qed.

#[export] Instance reactor_resource_laws : ResourceLaws ReactorHandle reactor_apart.
Proof.
  intros r E [Ha Hd]. cbn [owned destroy reactor_resource]. unfold EpollReactor_dtor.
  eapply owns_bind; [apply owns_close_part, union_subseteq_l|]. intros [] R ->.
  eapply owns_mono; [apply owns_destroy_buffers; [|done]| |done].
  - revert Hd. generalize (fd_part (rh_epoll r)), (buffers_owned (rh_buffers r)). set_solver.
  - intros _ R ->. generalize (fd_part (rh_epoll r)), (buffers_owned (rh_buffers r)). set_solver.
Qed.

(** ** Moves *)

(** A move assignment: [this] releases the part [released] of what it holds and
    takes over the part [moved] of what [other] holds; afterwards the two own,
    apart from each other, all that is left, and nothing was released twice.
    Assigning an object to itself does nothing. *)
Definition moves_ownership {T} `{!Resource T} (assign : bool → T → T → M Kernel (T * T)) (this other : T)
    (released moved : gset resource) : Prop :=
  (∀ k, assign true this other k = (Ok (this, other), k)) ∧
  owns (owned this ∪ owned other) (assign false this other)
    (λ r R, owned r.1 = (owned this ∖ released) ∪ moved ∧ owned r.2 = owned other ∖ moved ∧
            owned r.1 ## owned r.2 ∧ R = owned r.1 ∪ owned r.2 ∧ released ## R) (λ _, False).

(** The usual case: everything is released, everything is taken over. *)
Definition takes_over {T} `{!Resource T} (assign : bool → T → T → M Kernel (T * T)) (this other : T) : Prop :=
  moves_ownership assign this other (owned this) (owned other).

Lemma takes_over_intro {T} `{!Resource T} (assign : bool → T → T → M Kernel (T * T)) (this other t1 t2 : T)
    (m : M Kernel unit) :
  (∀ k, assign true this other k = (Ok (this, other), k)) → assign false this other = (m;; mret (t1, t2)) →
  owned this ## owned other → owned t1 = owned other → owned t2 = ∅ →
  (∀ R, owned this ⊆ R → owns R m (λ _ R', R' = R ∖ owned this) (λ _, False)) →
  takes_over assign this other.
Proof.
  intros Hself Ha Hd H1 H2 Hm. split; [exact Hself|]. rewrite Ha.
  eapply owns_bind; [apply Hm, union_subseteq_l|]. intros [] R ->.
  apply owns_ret. cbn [fst snd]. rewrite H1, H2. revert Hd. clear.
  generalize (owned this), (owned other). set_solver.
Qed.

Lemma logger_assign_takes_over this other : owned this ## owned other → takes_over MmapLogger_assign this other.
Proof.
  intros Hd. eapply takes_over_intro; [done..|]. intros R HR. by apply owns_munmap_part.
Qed.

Lemma map_assign_takes_over this other : owned this ## owned other → takes_over StaticOrderMap_assign this other.
Proof.
  intros Hd. eapply takes_over_intro; [done..|]. intros R HR. by apply owns_munmap_part.
Qed.

(** The guard [if (fd_)] is right for a receiver with a descriptor above 0. *)
Lemma receiver_assign_takes_over this other : 0 < rc_fd this → 0 < rc_ring this → owned this ## owned other →
  takes_over MulticastReceiver_assign this other.
Proof.
  intros Hfd Hring Hd. eapply takes_over_intro; [done..|]. intros R HR.
  rewrite (proj2 (Z.eqb_neq (rc_fd this) 0)) by lia. cbn [owned receiver_resource] in *.
  rewrite fd_part_open, map_part_some in * by lia.
  eapply owns_bind; [apply owns_close; set_solver|]. intros [] R' ->.
  eapply owns_mono; [apply (owns_munmap _ (λ _, False)); set_solver| |done]. set_solver.
Qed.

(** Of a reactor only the epoll descriptor is moved: both keep their buffers. *)
Lemma reactor_assign_moves_epoll this other : reactor_apart this → reactor_apart other →
  owned this ## owned other →
  moves_ownership EpollReactor_assign this other (fd_part (rh_epoll this)) (fd_part (rh_epoll other)).
Proof.
  intros [_ H1] [_ H2] Hd. split; [done|]. unfold EpollReactor_assign. cbn [owned reactor_resource] in *.
  eapply owns_bind.
  { eapply (owns_close_part _ _ (rh_epoll this)). rewrite <- (assoc_L (∪)). apply union_subseteq_l. }
  cbv beta. intros [] R ->. apply owns_ret. cbn [fst snd rh_epoll rh_buffers owned].
  change (fd_part (-1)) with (∅ : gset resource). revert H1 H2 Hd. clear.
  generalize (fd_part (rh_epoll this)), (fd_part (rh_epoll other)), (buffers_owned (rh_buffers this)),
    (buffers_owned (rh_buffers other)). set_solver.
Qed.

Lemma socket_assign_takes_over this other : owned this ## owned other → takes_over TCPSocket_move_assign this other.
Proof.
  intros Hd. eapply takes_over_intro; [done..|]. intros R HR. by apply owns_close_part.
Qed.
End Laws.
