(* ===== verification/ProgramSetup.v ===== *)
(** The set-up of the program (src/src/main.cpp, [run_mock_mode], [main] and
    the head of [consume]) and of a recovery (src/src/recovery/RecoveryEngine.cpp),
    over the system calls of Kernel.v: the objects are constructed one after
    the other, and an exception destroys those that were constructed.

    The threads are started when the objects stand; they never return, so the
    ends of [run_mock_mode] and [main] are not reached. *)

From S2P Require Import Prelude StaticOrderMap ItchOrderTypes BookTheorems MmapLogger ParserTheorems RecoveryEngine MagicBuffer LimitOrderBook MulticastReceiver Kernel TCPSocket Ownership.

Definition PERF_TYPE_HARDWARE : Z := 0.
Definition PERF_TYPE_HW_CACHE : Z := 3.
Definition PERF_COUNT_HW_BRANCH_MISSES : Z := 5.

(** PERF_COUNT_HW_CACHE_L1D, the operation READ, the result MISS. *)
Definition l1d_miss_config : Z := Z.lor (Z.lor 0 (Z.shiftl 0 8)) (Z.shiftl 1 16).

Section Setup.
Context `{OS}.

(** The receiver of the two modes. *)
Definition setup (max_orders : Z) (receiver : M Kernel ReceiverHandle)
    : M Kernel (LoggerHandle * BookHandle * ReceiverHandle) :=
  logger ← MmapLogger_ctor;
  unwind
    (book ← LimitOrderBook_ctor max_orders;
     unwind (poller ← receiver; mret (logger, book, poller)) (LimitOrderBook_dtor book))
    (MmapLogger_dtor logger).

(** [pthread_setaffinity_np] comes first. *)
Definition main_setup (MOCK_MODE : bool) (pton : Z) (ip junk : list Z)
    : M Kernel (LoggerHandle * BookHandle * ReceiverHandle) :=
  pinned ← succeeds "pthread_setaffinity_np" [1];
  if negb pinned then throw (runtime_error "Unable to pin main thread to Core 1. Error Code: ")
  else if MOCK_MODE then setup 1000 (MulticastReceiver_mock_ctor true)
  else setup 1000 (MulticastReceiver_ctor (Z.of_nat (String.length "eth0")) pton ip junk).

(** The head of [consume], with ENABLE_HW_TELEMETRY. *)
Definition consume_setup : M Kernel (TelemetryHandle * TelemetryHandle) :=
  pinned ← succeeds "pthread_setaffinity_np" [2];
  if negb pinned then throw (runtime_error
    "LOB Thread::consume(): Unable to pin LOB thread to Core 2. Error Code: ")
  else
  l1d_te ← TelemetryEngine_ctor PERF_TYPE_HW_CACHE l1d_miss_config;
  unwind
    (branch_te ← TelemetryEngine_ctor PERF_TYPE_HARDWARE PERF_COUNT_HW_BRANCH_MISSES;
     mret (l1d_te, branch_te))
    (TelemetryEngine_dtor l1d_te).

(** The head of [log_telemetry]: the descriptor of its file; [None] is the
    return after a message. *)
Definition log_telemetry_setup : M Kernel (option Z) :=
  pinned ← succeeds "pthread_setaffinity_np" [6];
  if negb pinned then throw (runtime_error
    "Telemetry Logging Thread: Unable to pin thread to Core 6. Error Code: ")
  else
  output_file ← open_fd "open" [];
  if output_file =? -1 then mret None else mret (Some output_file).

(** The head of [EpollReactor::wait_for_connections]. *)
Definition wait_for_connections_setup : M Kernel unit :=
  pinned ← succeeds "pthread_setaffinity_np" [0];
  if negb pinned then throw (runtime_error
    "EpollReactor::wait_for_connections(): Unable to pin connections thread to Core 0. Error Code: ")
  else mret tt.

(** The heads of [print_statistics] and [print_statistics_mock_mode]: a thread
    that cannot be pinned prints a line and goes on. *)
Definition print_statistics_setup : M Kernel (option string) :=
  pinned ← succeeds "pthread_setaffinity_np" [7];
  if negb pinned then mret (Some "Unable to pin statistics thread to a separate core. Error Code: "%string)
  else mret None.

Definition print_statistics_mock_mode_setup : M Kernel (option string) :=
  pinned ← succeeds "pthread_setaffinity_np" [7];
  if negb pinned then mret (Some "Unable to pin statistics thread to a separate core. Error Code: "%string)
  else mret None.

(** [run_recovery] on the file [f]: the replay is that of RecoveryEngine.v.
    Its exceptions pass through without a release. *)
Definition run_recovery_calls (fuel : nat) (f : array Z) (en : RecoveryEngine)
    : M Kernel RecoveryEngine :=
  fd ← open_fd "open" [];
  if fd =? -1 then
    throw (runtime_error "RecoveryEngine::run_recovery: unable to open file for recovery.")
  else
  start_addr ← mmap (alen f) [fd];
  match start_addr with
  | None =>
      close fd;;
      throw (runtime_error "RecoveryEngine::run_recovery: unable to mmap file for recovery.")
  | Some start =>
      ret ← succeeds "madvise" [start; alen f];
      if negb ret then
        close fd;; munmap start (alen f);;
        throw (runtime_error "RecoveryEngine::run_recovery: unable to use madvise.")
      else
        match recover_loop fuel (map_file page_size f) 0 en with
        | (Ok _, en') => close fd;; munmap start (alen f);; mret en'
        | (Throw e, _) => throw e
        | (UB, _) => ub
        | (OutOfFuel, _) => out_of_fuel
        end
  end.
End Setup.

(** * Ownership of the whole program *)

Section Setup_ownership.
Context `{OSLaws}.
Abbreviation any := (λ _, True).

Definition program_owned (p : LoggerHandle * BookHandle * ReceiverHandle) : gset resource :=
  owned p.1.1 ∪ owned p.1.2 ∪ owned p.2.

(** The log, the book and the receiver own nothing in common, and neither do
    the id map and the pool of the book. *)
Definition program_apart (p : LoggerHandle * BookHandle * ReceiverHandle) : Prop :=
  owned p.1.1 ## owned p.1.2 ∧ owned p.1.1 ## owned p.2 ∧ owned p.1.2 ## owned p.2 ∧ book_apart p.1.2.

(** The pages of a pool of [n] orders, which nothing frees. *)
Definition leaked_pool (n : Z) (R : gset resource) : Prop :=
  R = ∅ ∨ ∃ a, 0 < a ∧ a mod page_size = 0 ∧ R = pages a (pool_bytes n).

(** What is left when the objects after the logger cannot be built. *)
Definition leaked_with (n : Z) (X R : gset resource) : Prop :=
  ∃ P, leaked_pool n P ∧ X ## P ∧ R = X ∪ P.

Lemma owns_book_and_receiver X n receiver lg : constructs any receiver → X = owned lg →
  owns X (book ← LimitOrderBook_ctor n;
          unwind (poller ← receiver; mret (lg, book, poller)) (LimitOrderBook_dtor book))
    (λ p R, program_apart p ∧ R = program_owned p) (leaked_with n X).
Proof.
  intros Hrc HX. eapply owns_bind.
  { eapply owns_mono; [apply (owns_new (book_of n)), LimitOrderBook_constructs|intros b R HR; exact HR|].
    cbv beta. intros R ->. exists ∅. split_and!; [by left|apply disjoint_empty_r|by rewrite (right_id_L ∅ (∪))]. }
  cbv beta. intros b R ((Hba & Hpool & Hmod & Hbytes) & Hb & ->).
  apply (owns_unwind _ (λ R, R = owned b ∪ X)).
  - eapply owns_bind; [by apply (owns_new any)|]. cbv beta. intros rc R (_ & Hd & ->). apply owns_ret.
    rewrite disjoint_union_r in Hd. destruct Hd as [Hd1 Hd2]. subst X.
    unfold program_owned, program_apart. cbn [fst snd]. split; [done|].
    by rewrite (comm_L (∪)), (comm_L (∪) (owned b)).
  - intros R ->. eapply owns_mono; [by apply (LimitOrderBook_dtor_leaks _ (λ _, False))| |done].
    intros _ R ->. exists (map_part (bk_pool b) (bk_bytes b)). split_and!.
    + right. exists (bk_pool b). rewrite map_part_some, Hbytes by done. done.
    + cbn [owned book_resource] in Hb. set_solver.
    + apply (comm_L (∪)).
Qed.

(** The set-up owns exactly the objects it hands out; when it throws, at most
    the pages of the order pool are left. *)
Lemma owns_setup n receiver : constructs any receiver →
  owns ∅ (setup n receiver) (λ p R, program_apart p ∧ R = program_owned p) (leaked_pool n).
Proof.
  intros Hrc. unfold setup. eapply owns_bind.
  { eapply owns_mono; [apply MmapLogger_constructs|intros l R HR; exact HR|intros R ->; by left]. }
  cbv beta. intros lg R [_ ->]. eapply owns_unwind; [by apply owns_book_and_receiver|].
  intros R (P & HP & Hd & ->). change (MmapLogger_dtor lg) with (destroy lg).
  eapply owns_mono; [apply (owns_destroy any _ (λ _, False)); [apply _|done|apply union_subseteq_l]| |done].
  cbv beta. intros _ R ->. replace ((owned lg ∪ P) ∖ owned lg) with P; [done|].
  revert Hd. clear. generalize (owned lg). set_solver.
Qed.

Lemma owns_main_setup mode pton ip junk :
  owns ∅ (main_setup mode pton ip junk) (λ p R, program_apart p ∧ R = program_owned p) (leaked_pool 1000).
Proof.
  unfold main_setup. eapply owns_bind; [apply owns_succeeds|]. intros pinned R ->.
  destruct pinned; cbn [negb]; [|by apply owns_throw; left].
  destruct mode; apply owns_setup; [apply MulticastReceiver_mock_constructs|].
  by apply MulticastReceiver_constructs.
Qed.

Lemma owns_consume_setup :
  owns ∅ consume_setup (λ p R, owned p.1 ## owned p.2 ∧ R = owned p.1 ∪ owned p.2) (λ R, R = ∅).
Proof.
  unfold consume_setup. eapply owns_bind; [apply owns_succeeds|]. intros pinned R ->.
  destruct pinned; cbn [negb]; [|by apply owns_throw].
  eapply owns_bind; [apply TelemetryEngine_constructs|]. intros t1 R [_ ->].
  apply (owns_unwind _ (λ R, R = owned t1)).
  - eapply owns_bind; [apply (owns_new any), TelemetryEngine_constructs|]. cbv beta.
    intros t2 R (_ & Hd & ->). apply owns_ret. cbn [fst snd]. split; [done|apply (comm_L (∪))].
  - intros R ->. by apply telemetry_resource_laws.
Qed.

Lemma owns_log_telemetry_setup :
  owns ∅ log_telemetry_setup (λ r R, R = match r with Some fd => {[Fd fd]} | None => ∅ end) (λ R, R = ∅).
Proof. unfold log_telemetry_setup. owns_auto; set_solver. Qed.

Lemma owns_wait_for_connections_setup :
  owns ∅ wait_for_connections_setup (λ _ R, R = ∅) (λ R, R = ∅).
Proof. unfold wait_for_connections_setup. owns_auto; set_solver. Qed.

(** The statistics threads hold nothing and never fail to start. *)
Lemma owns_print_statistics_setup : owns ∅ print_statistics_setup (λ _ R, R = ∅) (λ _, False).
Proof. unfold print_statistics_setup. owns_auto; set_solver. Qed.

Lemma owns_print_statistics_mock_mode_setup :
  owns ∅ print_statistics_mock_mode_setup (λ _ R, R = ∅) (λ _, False).
Proof. unfold print_statistics_mock_mode_setup. owns_auto; set_solver. Qed.

(** A recovery that ends, or fails before the replay, gives everything back;
    one whose replay throws keeps the descriptor and the mapping. *)
Lemma owns_run_recovery fuel f en :
  (recover_loop fuel (map_file page_size f) 0 en).1 = Ok tt ∨
    (∃ e, (recover_loop fuel (map_file page_size f) 0 en).1 = Throw e) →
  owns ∅ (run_recovery_calls fuel f en)
    (λ en' R, recover_loop fuel (map_file page_size f) 0 en = (Ok tt, en') ∧ R = ∅)
    (λ R, R = ∅ ∨ ((∃ e, (recover_loop fuel (map_file page_size f) 0 en).1 = Throw e) ∧
                   ∃ fd a, R = {[Fd fd]} ∪ pages a (alen f))).
Proof.
  intros Hr. unfold run_recovery_calls.
  destruct (recover_loop fuel (map_file page_size f) 0 en) as [r en'] eqn:E. cbn [fst] in Hr.
  destruct r as [[]|e| |]; [..|naive_solver|naive_solver].
  - owns_auto; first [split; [done|set_solver]|left; set_solver].
  - owns_auto; first [left; set_solver|right; split; [by eexists|]].
    match goal with |- ∃ fd a, pages ?a0 _ ∪ ({[Fd ?fd0]} ∪ _) = _ => exists fd0, a0; set_solver end.
Qed.
End Setup_ownership.

(** * The theorems *)

(** C21 Every class with a destructor is a scope for what it takes from the
    kernel: whichever system calls fail, a constructor that throws has
    released everything it took, and one that succeeds followed by the
    destructor leaves the process with the descriptors and mappings it had,
    nothing being released twice.  This holds of MmapLogger, StaticOrderMap,
    MagicBuffer, MulticastReceiver in both modes, TelemetryEngine, TCPSocket
    and OuchClient. *)
Theorem lifetimes_are_balanced `{OSLaws} (k : Kernel) (capacity config pton name_len : Z)
    (ip junk : list Z) (mode : bool) : name_len < IFNAMSIZ →
  let balanced (m : M Kernel unit) :=
    held (m k).2 = held k ∧ stray (m k).2 = stray k ∧ (m k).1 ≠ UB in
  balanced (lifetime MmapLogger_ctor) ∧
  balanced (lifetime (StaticOrderMap_ctor capacity)) ∧
  balanced (lifetime (MagicBuffer_ctor capacity)) ∧
  balanced (lifetime (MulticastReceiver_ctor name_len pton ip junk)) ∧
  balanced (lifetime (MulticastReceiver_mock_ctor mode)) ∧
  balanced (lifetime (TelemetryEngine_ctor PERF_TYPE_HARDWARE config)) ∧
  balanced (lifetime TCPSocket_ctor) ∧
  balanced (lifetime OuchClient_ctor).
Proof.
  intros Hn balanced.
  assert (∀ m : M Kernel unit, owns ∅ m (λ _ R, R = ∅) (λ R, R = ∅) → balanced m) as Hb.
  { intros m Hm. destruct (owns_balanced m k Hm). split_and!; [done..|].
    specialize (Hm k (held k) ltac:(set_solver) ltac:(set_solver)). by destruct (m k) as [[]]. }
  split_and!; apply Hb; (eapply lifetime_spec; [apply _|]);
    eauto using MmapLogger_constructs, StaticOrderMap_constructs, MagicBuffer_constructs,
      MulticastReceiver_constructs, MulticastReceiver_mock_constructs, TelemetryEngine_constructs,
      TCPSocket_constructs, OuchClient_constructs.
Qed.

(** Every call succeeds and no page is small. *)
Definition calm_large : OS := sample_os 1073741824 (λ _ _, None).

(** The second mmap fails: of a MagicBuffer this is a mapping at a fixed
    address. *)
Definition second_mmap_fails : OS := sample_os 4096 (λ n c,
  if bool_decide (sc_name c = "mmap"%string) && (3 <=? n)%nat then Some 12 else None).

Lemma lifetimes_are_balanced_witness :
  let m := @lifetime _ (@buffer_resource second_mmap_fails) (@MagicBuffer_ctor second_mmap_fails 4096) in
  held (m idle_kernel).2 = ∅ ∧
  match (m idle_kernel).1 with Throw _ => True | _ => False end ∧
  length (calls (m idle_kernel).2) = 4%nat.
Proof.
  intros m. split; [|by vm_compute].
  destruct (@lifetimes_are_balanced second_mmap_fails (small_page_laws _) idle_kernel 4096 0 0 4 [] [] true)
    as (_ & _ & H & _); [done|]. exact (proj1 H).
Defined.

(** C22 The start of the program: whatever fails, in mock mode and in real
    mode, [main] either ends up with the log, the book and the receiver
    constructed, owning mappings and descriptors apart from one another and
    from everything else the process holds, or throws with everything given
    back, except possibly one mapping of exactly the size of the pool of 1000
    orders, which no destructor frees; the two telemetry objects of [consume]
    are constructed, apart from each other, or leave nothing; [log_telemetry]
    and [wait_for_connections] start holding the file of the log, or nothing;
    and the statistics threads start whatever fails, holding nothing. *)
Theorem program_start_owns_its_resources `{OSLaws} (k : Kernel) (mode : bool) (pton : Z) (ip junk : list Z) :
  match main_setup mode pton ip junk k with
  | (Ok p, k') => program_apart p ∧ program_owned p ## held k ∧
      held k' = program_owned p ∪ held k ∧ stray k' = stray k
  | (Throw _, k') => ∃ P, leaked_pool 1000 P ∧ P ## held k ∧ held k' = P ∪ held k ∧ stray k' = stray k
  | _ => False
  end ∧
  match consume_setup k with
  | (Ok p, k') => owned p.1 ## owned p.2 ∧ owned p.1 ∪ owned p.2 ## held k ∧
      held k' = owned p.1 ∪ owned p.2 ∪ held k ∧ stray k' = stray k
  | (Throw _, k') => held k' = held k ∧ stray k' = stray k
  | _ => False
  end ∧
  match log_telemetry_setup k with
  | (Ok (Some fd), k') => (Fd fd ∉ held k) ∧ held k' = {[Fd fd]} ∪ held k ∧ stray k' = stray k
  | (Ok None, k') | (Throw _, k') => held k' = held k ∧ stray k' = stray k
  | _ => False
  end ∧
  match wait_for_connections_setup k with
  | (Ok _, k') | (Throw _, k') => held k' = held k ∧ stray k' = stray k
  | _ => False
  end ∧
  match print_statistics_setup k, print_statistics_mock_mode_setup k with
  | (Ok _, k1), (Ok _, k2) => held k1 = held k ∧ stray k1 = stray k ∧ held k2 = held k ∧ stray k2 = stray k
  | _, _ => False
  end.
Proof.
  split_and!.
  - pose proof (owns_main_setup mode pton ip junk k (held k) ltac:(set_solver) ltac:(set_solver)) as Hm.
    destruct (main_setup mode pton ip junk k) as [[p|e| |] k']; [| |done..].
    + by destruct Hm as (R & [Hp ->] & Hh & Hd & Hs).
    + destruct Hm as (R & HR & Hh & Hd & Hs). by exists R.
  - pose proof (owns_consume_setup k (held k) ltac:(set_solver) ltac:(set_solver)) as Hm.
    destruct (consume_setup k) as [[p|e| |] k']; [| |done..].
    + by destruct Hm as (R & [Hp ->] & Hh & Hd & Hs).
    + destruct Hm as (R & -> & Hh & _ & Hs). split; [set_solver|done].
  - pose proof (owns_log_telemetry_setup k (held k) ltac:(set_solver) ltac:(set_solver)) as Hm.
    destruct (log_telemetry_setup k) as [[[fd|]|e| |] k']; [| | |done..];
      destruct Hm as (R & -> & Hh & Hd & Hs); split_and!; (done || set_solver).
  - pose proof (owns_wait_for_connections_setup k (held k) ltac:(set_solver) ltac:(set_solver)) as Hm.
    destruct (wait_for_connections_setup k) as [[[]|e| |] k']; [| |done..];
      destruct Hm as (R & -> & Hh & Hd & Hs); split; (done || set_solver).
  - pose proof (owns_print_statistics_setup k (held k) ltac:(set_solver) ltac:(set_solver)) as H1.
    pose proof (owns_print_statistics_mock_mode_setup k (held k) ltac:(set_solver) ltac:(set_solver)) as H2.
    destruct (print_statistics_setup k) as [[x|e| |] k1]; [|naive_solver|done..].
    destruct (print_statistics_mock_mode_setup k) as [[y|e| |] k2]; [|naive_solver|done..].
    destruct H1 as (R1 & -> & Hh1 & _ & Hs1), H2 as (R2 & -> & Hh2 & _ & Hs2). split_and!; (done || set_solver).
Qed.

Lemma program_start_owns_its_resources_witness :
  match @main_setup calm_large true 1 [224; 0; 0; 0] [0; 0] idle_kernel with
  | (Ok p, k') => held k' = @program_owned calm_large p ∪ ∅ ∧ stray k' = false
  | _ => False
  end.
Proof.
  pose proof (@program_start_owns_its_resources calm_large (large_page_laws _) idle_kernel true 1
    [224; 0; 0; 0] [0; 0]) as Hm. destruct Hm as [Hm _]. revert Hm.
  destruct (@main_setup calm_large true 1 [224; 0; 0; 0] [0; 0] idle_kernel) as [[p|e| |] k'] eqn:E;
    intros Hm; [by destruct Hm as (_ & _ & Hh & Hs)|exfalso; by vm_compute in E..].
Defined.

(** Recovery and its resources: on a log whose replay ends, [run_recovery]
    gives back its descriptor and its mapping whichever call fails, and
    returns the engine of the replay; when the book throws during the replay,
    and only then, the descriptor and the mapping of the file stay held. *)
Theorem recovery_keeps_resources_only_on_exception `{OSLaws} (k : Kernel) fuel (f : array Z) en :
  (recover_loop fuel (map_file page_size f) 0 en).1 = Ok tt ∨
    (∃ e, (recover_loop fuel (map_file page_size f) 0 en).1 = Throw e) →
  match run_recovery_calls fuel f en k with
  | (Ok en', k') => recover_loop fuel (map_file page_size f) 0 en = (Ok tt, en') ∧ held k' = held k
  | (Throw e, k') => held k' = held k ∨
      ((∃ e, (recover_loop fuel (map_file page_size f) 0 en).1 = Throw e) ∧
       ∃ fd a, (Fd fd ∉ held k) ∧ held k' = {[Fd fd]} ∪ pages a (alen f) ∪ held k)
  | _ => False
  end ∧ stray (run_recovery_calls fuel f en k).2 = stray k.
Proof.
  intros Hr. pose proof (owns_run_recovery fuel f en Hr k (held k) ltac:(set_solver) ltac:(set_solver)) as Hm.
  destruct (run_recovery_calls fuel f en k) as [[en'|e| |] k']; [| |done..].
  - destruct Hm as (R & [Hl ->] & Hh & _ & Hs). split_and!; [done|set_solver|done].
  - destruct Hm as (R & [->|(He & fd & a & ->)] & Hh & Hd & Hs); (split; [|done]).
    + left. set_solver.
    + right. split; [done|]. exists fd, a. split; [set_solver|done].
Qed.

(** A log of an add order and of an execution of more shares than it has. *)
Definition throwing_log : array Z :=
  sample_log [encode (NAdd (mkAddOrder 0 77 100 650 0 0 (replicate 8 32) char_B));
              encode (NExecute (mkOrderExecuted 5 77 9 250 13 2))].

Lemma recovery_keeps_resources_only_on_exception_witness :
  match new_book 4 4096 true true with
  | Ok b =>
      let r := @run_recovery_calls calm_os 10 throwing_log (RecoveryEngine_new b) idle_kernel in
      (∃ fd a, held r.2 = {[Fd fd]} ∪ @pages calm_os a 4096 ∪ held idle_kernel) ∧ r.1 = Throw too_few_shares
  | _ => False
  end.
Proof.
  destruct (new_book 4 4096 true true) as [b| | |] eqn:Eb; [|by vm_compute in Eb..]. intros r.
  assert (Hloop : (recover_loop 10 (map_file 4096 throwing_log) 0 (RecoveryEngine_new b)).1 =
                  Throw too_few_shares ∧ r.1 = Throw too_few_shares ∧ held r.2 ≠ held idle_kernel).
  { unfold r. clear r. revert Eb. unfold new_book, StaticOrderMap_new. cbn [negb]. intros Eb.
    injection Eb as <-. split_and!; [by vm_compute..|]. apply (bool_decide_unpack _). by vm_compute. }
  destruct Hloop as (Hloop & Hr & Hne).
  pose proof (@recovery_keeps_resources_only_on_exception calm_os (small_page_laws _) idle_kernel 10 throwing_log
    (RecoveryEngine_new b)) as Hm.
  destruct Hm as [Hm _]; [right; by exists too_few_shares|]. revert Hm Hr Hne. unfold r. clear r.
  generalize (@run_recovery_calls calm_os 10 throwing_log (RecoveryEngine_new b) idle_kernel).
  assert (alen throwing_log = 4096) as -> by by vm_compute.
  intros [[en'|e| |] k'] Hm Hr Hne; cbn [fst snd] in *; [discriminate Hr| |destruct Hm..].
  destruct Hm as [Hh|(_ & fd & a & _ & Hh)]; [contradiction|]. split; [by exists fd, a|exact Hr].
Defined.

(** C28 Move assignment of the classes that define it moves ownership.  For
    sockets, logs, id maps and receivers whose descriptor is above 0, what the
    target held is released, once, what the source held belongs to the target,
    and the source is left with nothing; for reactors this is so of the epoll
    descriptor, while each of the two keeps the buffers it has.  Afterwards the
    two objects own, apart from each other, everything that is left; and
    assigning an object to itself does nothing. *)
Theorem move_assignments_keep_owners `{OSLaws} (s s' : TCPSocket) (l l' : LoggerHandle)
    (m m' : MapHandle) (c c' : ReceiverHandle) (r r' : ReactorHandle) :
  owned s ## owned s' → owned l ## owned l' → owned m ## owned m' →
  owned c ## owned c' → 0 < rc_fd c → 0 < rc_ring c →
  owned r ## owned r' → reactor_apart r → reactor_apart r' →
  takes_over TCPSocket_move_assign s s' ∧ takes_over MmapLogger_assign l l' ∧
  takes_over StaticOrderMap_assign m m' ∧ takes_over MulticastReceiver_assign c c' ∧
  moves_ownership EpollReactor_assign r r' (fd_part (rh_epoll r)) (fd_part (rh_epoll r')).
Proof.
  eauto 10 using socket_assign_takes_over, logger_assign_takes_over, map_assign_takes_over,
    receiver_assign_takes_over, reactor_assign_moves_epoll.
Qed.

Lemma move_assignments_keep_owners_witness :
  let c := mkReceiverHandle 4096 3 4096 in let c' := mkReceiverHandle 8192 4 4096 in
  let r := mkReactorHandle [] 5 in let r' := mkReactorHandle [mkBufferHandle 12288 16384 4096 7] 6 in
  @moves_ownership _ (@receiver_resource calm_os) (@MulticastReceiver_assign calm_os) c c'
    {[Fd 3; Page 1]} {[Fd 4; Page 2]} ∧
  @moves_ownership _ (@reactor_resource calm_os) EpollReactor_assign r r' {[Fd 5]} {[Fd 6]}.
Proof.
  intros c c' r r'.
  destruct (@move_assignments_keep_owners calm_os (small_page_laws _) (mkSocket 3) (mkSocket 4)
    (mkLoggerHandle 0) (mkLoggerHandle 0) (mkMapHandle 4096 4096) (mkMapHandle 8192 4096) c c' r r')
    as (_ & _ & _ & Hc & Hr); [| | | |done|done| | | |].
  1-5: apply (bool_decide_unpack _); by vm_compute.
  1-2: split; [by repeat split|]; apply (bool_decide_unpack _); by vm_compute.
  split; [|exact Hr].
  assert (@owned _ (@receiver_resource calm_os) c = {[Fd 3; Page 1]}) as <- by by vm_compute.
  by assert (@owned _ (@receiver_resource calm_os) c' = {[Fd 4; Page 2]}) as <- by by vm_compute.
Defined.

(** ** Where ownership breaks *)

(** The [n]-th call, counted from 0, fails. *)
Definition failing_at (n : nat) : OS :=
  sample_os 4096 (λ i _, if (i =? n)%nat then Some 12 else None).

(** A MagicBuffer assigned to another, and both destroyed. *)
Definition assign_buffers `{OS} : M Kernel unit :=
  a ← MagicBuffer_ctor 4096;
  b ← MagicBuffer_ctor 4096;
  '(a', b') ← MagicBuffer_assign false a b;
  destroy a';; destroy b'.

(** A mock-mode receiver assigned to another, and both destroyed. *)
Definition assign_mock_receivers `{OS} : M Kernel unit :=
  a ← MulticastReceiver_mock_ctor true;
  b ← MulticastReceiver_mock_ctor true;
  '(a', b') ← MulticastReceiver_assign false a b;
  destroy a';; destroy b'.

(** Where the code does not keep its books, on an otherwise idle process
    with pages of 4096 bytes: a reactor whose second buffer cannot be created
    leaves its epoll descriptor open; [simulate_packets] leaves the
    descriptor when the mapping fails, and the mapping too when madvise
    fails; a book of one order that is destroyed leaves the page of its pool;
    after the move assignment of a MagicBuffer the descriptor of the target
    is closed twice; a move assignment between mock-mode receivers closes the
    descriptor -1. *)
Theorem ownership_defects :
  held (@EpollReactor_ctor (failing_at 5) true idle_kernel).2 = {[Fd 1]} ∧
  held (@simulate_packets_calls (failing_at 2) 100 idle_kernel).2 = {[Fd 1]} ∧
  held (@simulate_packets_calls (failing_at 3) 100 idle_kernel).2 = {[Fd 1; Page 1]} ∧
  size (held (@lifetime _ (@book_resource calm_large) (@LimitOrderBook_ctor calm_large 1) idle_kernel).2) = 1%nat ∧
  stray (@assign_buffers calm_os idle_kernel).2 = true ∧
  stray (@assign_mock_receivers calm_large idle_kernel).2 = true.
Proof. split_and!; by vm_compute. Qed.

(** Real mode cannot start: the filter is attached at the level SOL_PACKET,
    which has no option of that number (SO_ATTACH_FILTER belongs to
    SOL_SOCKET).  In a kernel that refuses an option unknown at its level,
    as setsockopt(2) documents, the constructor of the receiver always throws,
    with nothing left open. *)
Theorem real_mode_receiver_never_starts `{OSLaws} (k : Kernel) name_len pton ip junk :
  (∀ n fd, ∃ e, errno_of n (mkCall "setsockopt" [fd; SOL_PACKET; SO_ATTACH_FILTER]) = Some e) →
  name_len < IFNAMSIZ →
  ∃ e k', MulticastReceiver_ctor name_len pton ip junk k = (Throw e, k') ∧ held k' = held k.
Proof.
  intros Hopt Hn.
  assert (owns ∅ (MulticastReceiver_ctor name_len pton ip junk) (λ _ _, False) (λ R, R = ∅)) as Hm.
  { unfold MulticastReceiver_ctor. rewrite (proj2 (Z.ltb_ge IFNAMSIZ (name_len + 1))) by lia.
    repeat lazymatch goal with
    | |- owns _ (succeeds _ [_; SOL_PACKET; SO_ATTACH_FILTER] ≫= _) _ _ => fail
    | |- _ => owns_step
    end; try set_solver.
    eapply (owns_bind _ _ (λ ok R, ok = false ∧ R = {[Fd a]} ∪ ∅)).
    - intros k0 F Hk HF. unfold succeeds, sys. munfold.
      destruct (Hopt (length (calls k0)) a) as [e ->]. cbn. by exists ({[Fd a]} ∪ ∅).
    - intros ok R [-> ->]. cbn [negb]. owns_auto. set_solver. }
  specialize (Hm k (held k) ltac:(set_solver) ltac:(set_solver)).
  destruct (MulticastReceiver_ctor name_len pton ip junk k) as [[r|e| |] k']; [naive_solver| |done..].
  destruct Hm as (R & -> & Hh & _ & _). exists e, k'. split; [done|set_solver].
Qed.

(** A kernel without that option. *)
Definition packet_os : OS := sample_os 4096 (λ _ c,
  match sc_args c with
  | [_; level; name] =>
      if bool_decide (sc_name c = "setsockopt"%string) && (level =? SOL_PACKET) && (name =? SO_ATTACH_FILTER)
      then Some 92 else None
  | _ => None
  end).

Lemma real_mode_receiver_never_starts_witness :
  ∃ e k', @MulticastReceiver_ctor packet_os 4 1 [224; 0; 0; 0] [0; 0] idle_kernel = (Throw e, k') ∧
          held k' = ∅ ∧ e = runtime_error "MulticastReceiver(): Unable to attach BPF filter.".
Proof.
  destruct (@real_mode_receiver_never_starts packet_os (small_page_laws _) idle_kernel 4 1 [224; 0; 0; 0] [0; 0])
    as (e & k' & He & Hk); [by intros n fd; exists 92|done|].
  exists e, k'. split_and!; [exact He|exact Hk|]. vm_compute in He. by injection He as <- _.
Defined.
