(* ===== verification/Telemetry.v ===== *)
(** The measurements of the consumer thread (src/src/main.cpp, [consume] and
    [log_telemetry]; src/src/telemetry).

    Around each dispatch [consume] reads counters; the differences go to one
    of two buffers.  A slow dispatch hands the buffer to the logging thread
    through a queue of two slots and switches to the other one.  The logging
    thread writes a whole buffer to its file, sample by sample, while the
    consumer goes on: [LogWrite] is the state of that copy.  What the hardware
    returns is an argument.  ENABLE_HW_TELEMETRY is the boolean [hw]. *)

From S2P Require Import Prelude Interfaces HierarchicalBitset StaticOrderMap ItchOrderTypes LimitOrderBook BookTheorems RecoveryEngine SPSCQueue.

(** * Reading the counters *)

(** [TelemetryEngine::read_pmc]: [index] is that of the metadata page, and the
    assertion that it is positive aborts otherwise ([None]). *)
Definition read_pmc (hw : bool) (index : Z) (rdpmc : Z → Z) : option Z :=
  if hw then if 0 <? index then Some (rdpmc (index - 1)) else None else Some 0.

Definition calibrate_frequency (hw : bool) (eax : Z) : Z := if hw then Z.land eax 65535 else 0.
Definition rdtsc_start (hw : bool) (tsc : Z) : Z := if hw then tsc else 0.
Definition rdtsc_end (hw : bool) (tsc : Z) : Z := if hw then tsc else 0.

(** What the hardware shows at the six reads of one iteration, and the indices
    of the two counters. *)
Record Readings : Type := mkReadings {
  l1d_index : Z;
  branch_index : Z;
  start_l1d : Z → Z;
  start_branches : Z → Z;
  start_tsc : Z;
  end_tsc : Z;
  end_branches : Z → Z;
  end_l1d : Z → Z
}.

(** The tuple of the three differences. *)
Definition Sample : Type := Z * Z * Z.

(** The reads before the dispatch, in the order of the code, and those after
    it. *)
Definition measure_start (hw : bool) (rd : Readings) : option (Z * Z * Z) :=
  s_l1d ← read_pmc hw (l1d_index rd) (start_l1d rd);
  s_branches ← read_pmc hw (branch_index rd) (start_branches rd);
  Some (rdtsc_start hw (start_tsc rd), s_l1d, s_branches).

Definition measure_end (hw : bool) (rd : Readings) : option (Z * Z * Z) :=
  e_branches ← read_pmc hw (branch_index rd) (end_branches rd);
  e_l1d ← read_pmc hw (l1d_index rd) (end_l1d rd);
  Some (rdtsc_end hw (end_tsc rd), e_l1d, e_branches).

Definition deltas (start end_ : Z * Z * Z) : Sample :=
  (u64 (end_.1.1 - start.1.1), u64 (end_.1.2 - start.1.2), u64 (end_.2 - start.2)).

(** [l1d_delta > 1000 || tsc_delta > 5000]. *)
Definition slow (s : Sample) : bool := (1000 <? s.1.2) || (5000 <? s.1.1).

(** * The double buffer *)

Definition NUM_BUFFERS : Z := 2.
Definition TELEMETRY_BUFFER_SIZE : Z := 16384.
Definition HANDOFF_SIZE : Z := 2.

(** The size is a template parameter of [log_telemetry]; [consume] has
    [TELEMETRY_BUFFER_SIZE], which its comment calls arbitrary. *)

(** The logging thread: waiting for a buffer, or copying it, with the number
    of samples copied and the samples, the last one first. *)
Inductive log_pc : Type :=
| LogPop
| LogWrite (buf_idx count : Z) (copied : list Sample).

Record Telemetry : Type := mkTelemetry {
  buffers : array (array Sample);
  handoff : SPSCQueue (T := Z);
  active_buf : Z;
  tel_idx : Z;
  log_thread : log_pc;
  log_file : list (list Sample)
}.

Section Buffers.
Context (BUFFER_SIZE : Z) (BUFFER_SIZE_pow2 : ∃ e, 0 ≤ e ∧ BUFFER_SIZE = 2 ^ e).

(** [buffers] has no initialiser, but the default constructor of [std::tuple]
    value-initialises its elements: every sample is zero. *)
Definition Telemetry_new : Telemetry :=
  mkTelemetry (anew NUM_BUFFERS (anew BUFFER_SIZE (0, 0, 0)))
    (SPSCQueue_new HANDOFF_SIZE 0) 0 0 LogPop [].

Definition set_buffers (a : array (array Sample)) (t : Telemetry) : Telemetry :=
  mkTelemetry a (handoff t) (active_buf t) (tel_idx t) (log_thread t) (log_file t).
Definition set_handoff (q : SPSCQueue) (t : Telemetry) : Telemetry :=
  mkTelemetry (buffers t) q (active_buf t) (tel_idx t) (log_thread t) (log_file t).
Definition set_active (b i : Z) (t : Telemetry) : Telemetry :=
  mkTelemetry (buffers t) (handoff t) b i (log_thread t) (log_file t).
Definition set_tel_idx (i : Z) (t : Telemetry) : Telemetry := set_active (active_buf t) i t.
Definition set_log (pc : log_pc) (t : Telemetry) : Telemetry :=
  mkTelemetry (buffers t) (handoff t) (active_buf t) (tel_idx t) pc (log_file t).
Definition append_block (b : list Sample) (t : Telemetry) : Telemetry :=
  mkTelemetry (buffers t) (handoff t) (active_buf t) (tel_idx t) LogPop (log_file t ++ [b]).

Definition on_handoff {A} (m : M (SPSCQueue (T := Z)) A) : M Telemetry A := zoom handoff set_handoff m.

(** [buffers[active_buf][tel_idx] = ...] and what follows it; the result of
    the push is not used. *)
Definition record_sample (s : Sample) : M Telemetry unit :=
  t ← get_state;
  buf ← of_option ((buffers t).[active_buf t]);
  buf' ← of_option (aput buf (tel_idx t) s);
  bufs' ← of_option (aput (buffers t) (active_buf t) buf');
  modify (set_buffers bufs');;
  modify (λ t, set_tel_idx (Z.land (tel_idx t + 1) (BUFFER_SIZE - 1)) t);;
  if slow s then
    _ ← on_handoff (push HANDOFF_SIZE (active_buf t));
    modify (λ t, set_active (1 - active_buf t) 0 t)
  else mret tt.

(** One step of [log_telemetry]: a pop, or the copy of one sample; the last
    copy writes the block. *)
Definition log_step : M Telemetry unit :=
  t ← get_state;
  match log_thread t with
  | LogPop =>
      popped ← on_handoff (pop HANDOFF_SIZE);
      match popped with
      | None => mret tt
      | Some buf_idx => modify (set_log (LogWrite buf_idx 0 []))
      end
  | LogWrite buf_idx count copied =>
      if count <? BUFFER_SIZE then
        buf ← of_option ((buffers t).[buf_idx]);
        x ← of_option (buf.[count]);
        modify (set_log (LogWrite buf_idx (count + 1) (x :: copied)))
      else modify (append_block (rev copied))
  end.

(** * The loop of consume *)

(** A line of CORRECTNESS_CHECK: id, stock, shares and price. *)
Definition Line : Type := Z * list Z * Z * Z.

(** The lines printed so far stand for [add_count], their number. *)
Record Consumer : Type := mkConsumer {
  c_queue : SPSCQueue (T := NormalizedOrder);
  c_book : Book;
  c_telemetry : Telemetry;
  c_printed : list Line
}.

Definition on_c_queue {A} (m : M SPSCQueue A) : M Consumer A :=
  zoom c_queue (λ q c, mkConsumer q (c_book c) (c_telemetry c) (c_printed c)) m.
Definition on_c_book {A} (m : M Book A) : M Consumer A :=
  zoom c_book (λ b c, mkConsumer (c_queue c) b (c_telemetry c) (c_printed c)) m.
Definition on_c_telemetry {A} (m : M Telemetry A) : M Consumer A :=
  zoom c_telemetry (λ t c, mkConsumer (c_queue c) (c_book c) t (c_printed c)) m.

(** What ['%s'] prints of [stock_str]: the bytes before the first zero. *)
Fixpoint c_string (l : list Z) : list Z :=
  match l with
  | [] => []
  | b :: l' => if b =? 0 then [] else b :: c_string l'
  end.

(** The block under CORRECTNESS_CHECK: the first ten add orders are printed. *)
Definition correctness_check (order : NormalizedOrder) : M Consumer unit :=
  add_count ← gets (λ c, length (c_printed c));
  match order with
  | NAdd o =>
      if (add_count <? 10)%nat then
        let line := (ao_order_reference_number o, c_string (ao_stock o), ao_shares o, ao_price o) in
        modify (λ c, mkConsumer (c_queue c) (c_book c) (c_telemetry c) (c_printed c ++ [line]))
      else mret tt
  | _ => mret tt
  end.

(** One attempt to pop, and the rest of the iteration when it succeeds. *)
Definition consume_iteration (QUEUE_SIZE : Z) (hw : bool) (rd : Readings) : M Consumer unit :=
  popped ← on_c_queue (pop QUEUE_SIZE);
  match popped with
  | None => mret tt
  | Some order =>
      start ← of_option (measure_start hw rd);
      correctness_check order;;
      on_c_book (dispatch order);;
      end_ ← of_option (measure_end hw rd);
      on_c_telemetry (record_sample (deltas start end_))
  end.

(** * Safety *)

Definition is_buffer (b : Z) : Prop := b = 0 ∨ b = 1.

Record telemetry_ok (t : Telemetry) : Prop := {
  to_len : alen (buffers t) = NUM_BUFFERS;
  to_buffers : ∀ b buf, (buffers t).[b] = Some buf → alen buf = BUFFER_SIZE;
  to_active : is_buffer (active_buf t);
  to_idx : 0 ≤ tel_idx t < BUFFER_SIZE;
  to_handoff : ∃ l, queue_rep HANDOFF_SIZE (handoff t) l ∧ Forall is_buffer l;
  to_log : ∀ b count copied, log_thread t = LogWrite b count copied →
    is_buffer b ∧ count = Z.of_nat (length copied) ∧ count ≤ BUFFER_SIZE
}.

Lemma buffer_at t b : telemetry_ok t → is_buffer b → ∃ buf, (buffers t).[b] = Some buf.
Proof. intros Hok Hb. apply aget_in. rewrite (to_len _ Hok). unfold NUM_BUFFERS. destruct Hb; lia. Qed.

Lemma buffer_size_pos : 0 < BUFFER_SIZE.
Proof. destruct BUFFER_SIZE_pow2 as (e & He & ->). by apply Z.pow_pos_nonneg. Qed.

Lemma next_tel_idx i : Z.land (i + 1) (BUFFER_SIZE - 1) = (i + 1) mod BUFFER_SIZE.
Proof. destruct BUFFER_SIZE_pow2 as (e & He & ->). by apply land_mask. Qed.

Lemma Telemetry_new_ok : telemetry_ok Telemetry_new.
Proof.
  constructor; cbn [buffers handoff active_buf tel_idx log_thread Telemetry_new]; try done.
  - intros b buf Hb. pose proof (aget_Some_bounds _ _ _ Hb) as Hr. rewrite aget_anew in Hb by exact Hr.
    by injection Hb as <-.
  - by left.
  - pose proof buffer_size_pos. lia.
  - exists []. split; [|done]. by apply (SPSCQueue_new_rep _ 1).
Qed.

(** What is in the queue after a hand-over: it holds one buffer. *)
Definition handed (b : Z) (l : list Z) : list Z :=
  if Z.of_nat (length l) <? HANDOFF_SIZE - 1 then l ++ [b] else l.

(** [record_sample] always returns. *)
Lemma record_sample_run t s l buf : telemetry_ok t → queue_rep HANDOFF_SIZE (handoff t) l →
  (buffers t).[active_buf t] = Some buf →
  ∃ h', record_sample s t = (Ok tt, mkTelemetry
          (aset (buffers t) (active_buf t) (aset buf (tel_idx t) s)) h'
          (if slow s then 1 - active_buf t else active_buf t)
          (if slow s then 0 else (tel_idx t + 1) mod BUFFER_SIZE)
          (log_thread t) (log_file t)) ∧
        queue_rep HANDOFF_SIZE h' (if slow s then handed (active_buf t) l else l) ∧
        (slow s = false → h' = handoff t).
Proof.
  intros Hok Hl Hbuf. unfold record_sample. munfold. rewrite Hbuf.
  rewrite (aput_in buf) by (rewrite (to_buffers _ Hok _ _ Hbuf); apply Hok). cbn [of_option].
  rewrite aput_in by by eapply aget_Some_bounds.
  destruct (slow s).
  - destruct (push_rep HANDOFF_SIZE (handoff t) l (active_buf t) Hl) as (q' & Hp & Hq').
    unfold on_handoff, zoom. cbn [handoff set_tel_idx set_active set_buffers]. rewrite Hp.
    by exists q'.
  - exists (handoff t). split_and!; [|done..]. unfold set_tel_idx. cbn [tel_idx set_buffers].
    by rewrite next_tel_idx.
Qed.

Lemma handed_buffers b l : is_buffer b → Forall is_buffer l → Forall is_buffer (handed b l).
Proof. intros Hb Hl. unfold handed. destruct (_ <? _); [|done]. apply Forall_app_2; [done|by constructor]. Qed.

Lemma record_sample_ok t s : telemetry_ok t →
  ∃ t', record_sample s t = (Ok tt, t') ∧ telemetry_ok t'.
Proof.
  intros Hok. destruct (to_handoff _ Hok) as (l & Hl & Hbl). pose proof (to_active _ Hok) as Ha.
  destruct (buffer_at t _ Hok Ha) as [buf Hbuf].
  destruct (record_sample_run t s l buf Hok Hl Hbuf) as (h' & Hrun & Hh' & _). eexists. split; [exact Hrun|].
  pose proof (aget_Some_bounds _ _ _ Hbuf) as Hbd.
  constructor; cbn [buffers handoff active_buf tel_idx log_thread]; try apply Hok.
  - intros b buf'. rewrite aget_aset by done. case_decide.
    + intros [= <-]. rewrite alen_aset. exact (to_buffers _ Hok _ _ Hbuf).
    + apply (to_buffers _ Hok).
  - destruct (slow s); [|done]. unfold is_buffer in *. lia.
  - pose proof buffer_size_pos. destruct (slow s); [lia|]. by apply Z.mod_pos_bound.
  - eexists. split; [exact Hh'|]. destruct (slow s); [by apply handed_buffers|done].
Qed.

Lemma log_step_ok t : telemetry_ok t → ∃ t', log_step t = (Ok tt, t') ∧ telemetry_ok t'.
Proof.
  intros Hok. destruct (to_handoff _ Hok) as (l & Hl & Hbl). unfold log_step. munfold.
  destruct (log_thread t) as [|b count copied] eqn:Elog.
  - unfold on_handoff, zoom. destruct (pop_rep HANDOFF_SIZE _ _ Hl) as (q' & -> & Hq').
    assert (Forall is_buffer (list.tail l)) as Htl by (destruct Hbl; [constructor|done]).
    destruct l as [|b l]; cbn [hd_error]; (eexists; split; [reflexivity|]);
      (constructor; cbn [buffers handoff active_buf tel_idx log_thread set_handoff set_log]; try apply Hok; eauto).
    intros b' n c [= <- <- <-]. inversion Hbl. pose proof buffer_size_pos. split_and!; [done..|lia].
  - destruct (to_log _ Hok _ _ _ Elog) as (Hb & Hn & Hc). destruct (Z.ltb_spec count BUFFER_SIZE).
    + destruct (buffer_at t b Hok Hb) as [buf Hbuf]. rewrite Hbuf.
      destruct (aget_in buf count) as [x Hx]; [rewrite (to_buffers _ Hok _ _ Hbuf); lia|].
      rewrite Hx. eexists. split; [reflexivity|].
      constructor; cbn [buffers handoff active_buf tel_idx log_thread set_log]; try apply Hok.
      intros b' n c [= <- <- <-]. cbn [length]. split_and!; [done|lia|lia].
    + eexists. split; [reflexivity|].
      constructor; cbn [buffers handoff active_buf tel_idx log_thread append_block]; try apply Hok. done.
Qed.

(** * The measurements do not change what the consumer does *)

(** The perf counters are scheduled, or the telemetry is compiled out. *)
Definition counters_ready (hw : bool) (rd : Readings) : bool :=
  negb hw || ((0 <? l1d_index rd) && (0 <? branch_index rd)).

Lemma measure_ready hw rd : counters_ready hw rd = true →
  ∃ s e, measure_start hw rd = Some s ∧ measure_end hw rd = Some e.
Proof.
  unfold counters_ready, measure_start, measure_end, read_pmc. destruct hw; cbn; [|by eauto].
  destruct (0 <? l1d_index rd), (0 <? branch_index rd); cbn; by eauto.
Qed.

Fixpoint consume_loop (QUEUE_SIZE : Z) (hw : bool) (rds : list Readings) : M Consumer unit :=
  match rds with
  | [] => mret tt
  | rd :: rds' => consume_iteration QUEUE_SIZE hw rd;; consume_loop QUEUE_SIZE hw rds'
  end.

(** The loop without the measurements. *)
Fixpoint plain_loop (QUEUE_SIZE : Z) (n : nat) : M (SPSCQueue (T := NormalizedOrder) * Book) unit :=
  match n with
  | O => mret tt
  | S n' =>
      popped ← zoom fst (λ q s, (q, s.2)) (pop QUEUE_SIZE);
      (match popped with
       | None => mret tt
       | Some order => zoom snd (λ b s, (s.1, b)) (dispatch order)
       end);;
      plain_loop QUEUE_SIZE n'
  end.

(** At most ten lines, none of them changed. *)
Definition lines_kept (l l' : list Line) : Prop :=
  l `prefix_of` l' ∧ ((length l ≤ 10)%nat → (length l' ≤ 10)%nat).

Lemma lines_kept_refl l : lines_kept l l.
Proof. by split. Qed.

Lemma lines_kept_trans l1 l2 l3 : lines_kept l1 l2 → lines_kept l2 l3 → lines_kept l1 l3.
Proof. intros [P1 L1] [P2 L2]. split; [by etrans|auto]. Qed.

#[local] Hint Resolve lines_kept_refl : core.

Lemma correctness_check_run o c : ∃ l, lines_kept (c_printed c) l ∧
  correctness_check o c = (Ok tt, mkConsumer (c_queue c) (c_book c) (c_telemetry c) l).
Proof.
  unfold correctness_check. munfold. destruct o as [o| |]; [|by exists (c_printed c); destruct c..].
  destruct (Nat.ltb_spec (length (c_printed c)) 10); [|by exists (c_printed c); destruct c].
  eexists. split; [|done]. split; [by apply prefix_app_r|]. rewrite length_app. cbn [length]. lia.
Qed.

Lemma consume_iteration_plain QUEUE_SIZE hw rd c : telemetry_ok (c_telemetry c) →
  counters_ready hw rd = true →
  ∃ t' l, telemetry_ok t' ∧ lines_kept (c_printed c) l ∧
    let r := plain_loop QUEUE_SIZE 1 (c_queue c, c_book c) in
    consume_iteration QUEUE_SIZE hw rd c = (r.1, mkConsumer r.2.1 r.2.2 t' l).
Proof.
  intros Hok Hready. destruct (measure_ready hw rd Hready) as (s & e & Hs & He).
  destruct (record_sample_ok (c_telemetry c) (deltas s e) Hok) as (t' & Hrec & Hok').
  unfold consume_iteration, on_c_queue, on_c_book, on_c_telemetry. cbn [plain_loop]. unfold mbind, M_bind, zoom.
  cbn [fst snd]. destruct (pop QUEUE_SIZE (c_queue c)) as [[[o|]|ex| |] q']; cbn;
    [|by exists (c_telemetry c), (c_printed c)..].
  rewrite Hs. cbn [of_option mret M_ret].
  destruct (correctness_check_run o (mkConsumer q' (c_book c) (c_telemetry c) (c_printed c))) as (l & Hl & ->).
  cbn [c_book c_telemetry c_queue c_printed] in *.
  destruct (dispatch o (c_book c)) as [[[]|ex| |] b']; cbn; [|by exists (c_telemetry c), l..].
  rewrite He. cbn [of_option mret M_ret c_book c_telemetry c_queue]. rewrite Hrec. by exists t', l.
Qed.

Lemma plain_loop_cons QUEUE_SIZE n s :
  plain_loop QUEUE_SIZE (S n) s = (plain_loop QUEUE_SIZE 1;; plain_loop QUEUE_SIZE n) s.
Proof.
  cbn [plain_loop]. rewrite bind_assoc. unfold mbind, M_bind.
  destruct (zoom fst _ _ s) as [[o| | |] s1]; [|done..].
  destruct o as [o|]; [|done]. by destruct (zoom snd _ _ s1) as [[[]| | |] s2].
Qed.

Lemma consume_loop_plain QUEUE_SIZE hw rds c : telemetry_ok (c_telemetry c) →
  Forall (λ rd, counters_ready hw rd = true) rds →
  ∃ t' l, telemetry_ok t' ∧ lines_kept (c_printed c) l ∧
    let r := plain_loop QUEUE_SIZE (length rds) (c_queue c, c_book c) in
    consume_loop QUEUE_SIZE hw rds c = (r.1, mkConsumer r.2.1 r.2.2 t' l).
Proof.
  intros Hok Hrds. revert c Hok. induction Hrds as [|rd rds Hrd _ IH]; intros c Hok.
  { exists (c_telemetry c), (c_printed c). split_and!; [done|done|]. by destruct c. }
  destruct (consume_iteration_plain QUEUE_SIZE hw rd c Hok Hrd) as (t1 & l1 & Hok1 & Hl1 & Hit). cbv zeta in *.
  cbn [length]. rewrite plain_loop_cons. cbn [consume_loop]. revert Hit.
  destruct (plain_loop QUEUE_SIZE 1 (c_queue c, c_book c)) as [[[]|ex| |] [q1 b1]] eqn:E1; cbn [fst snd];
    intros Hit; mstep Hit; mstep E1; cbn [fst snd]; [|by exists t1, l1..].
  destruct (IH (mkConsumer q1 b1 t1 l1)) as (t' & l' & Ht' & Hl' & ->); [done|]. exists t', l'.
  split_and!; [done|by eapply lines_kept_trans|done].
Qed.

Lemma measure_unready hw rd : counters_ready hw rd = false → measure_start hw rd = None.
Proof.
  unfold counters_ready, measure_start, read_pmc. destruct hw; cbn; [|done].
  destruct (0 <? l1d_index rd), (0 <? branch_index rd); by cbn.
Qed.

Lemma consume_loop_app QUEUE_SIZE hw rds rds' c :
  consume_loop QUEUE_SIZE hw (rds ++ rds') c =
  (consume_loop QUEUE_SIZE hw rds;; consume_loop QUEUE_SIZE hw rds') c.
Proof.
  revert c. induction rds as [|rd rds IH]; intros c; [done|]. cbn [app consume_loop]. rewrite bind_assoc.
  unfold mbind, M_bind. destruct (consume_iteration QUEUE_SIZE hw rd c) as [[[]| | |] c1]; [|done..]. apply IH.
Qed.

(** C25 Instrumentation is transparent while the counters are scheduled (both
    indices of the metadata pages positive, which [read_pmc] asserts; always
    so without ENABLE_HW_TELEMETRY): whatever values they show, the
    instrumented loop of [consume] pops the same orders, leaves the same queue
    and the same book, and ends with the same outcome as the loop without
    measurements and printing; the telemetry never fails, and at most ten
    lines are printed.  The first iteration that pops an order with a counter
    not scheduled stops at the assertion: the order has left the queue and has
    not reached the book. *)
Theorem consume_measurements_transparent QUEUE_SIZE hw rds c : telemetry_ok (c_telemetry c) →
  Forall (λ rd, counters_ready hw rd = true) rds →
  let r := plain_loop QUEUE_SIZE (length rds) (c_queue c, c_book c) in
  (∃ t' l, telemetry_ok t' ∧ lines_kept (c_printed c) l ∧
    consume_loop QUEUE_SIZE hw rds c = (r.1, mkConsumer r.2.1 r.2.2 t' l)) ∧
  (∀ rd rds' order q', counters_ready hw rd = false → r.1 = Ok tt →
    pop QUEUE_SIZE r.2.1 = (Ok (Some order), q') →
    ∃ t' l, lines_kept (c_printed c) l ∧
      consume_loop QUEUE_SIZE hw (rds ++ rd :: rds') c = (UB, mkConsumer q' r.2.2 t' l)).
Proof.
  intros Hok Hrds r. destruct (consume_loop_plain QUEUE_SIZE hw rds c Hok Hrds) as (t' & l & Ht' & Hl & Hrun).
  fold r in Hrun. cbv zeta in Hrun. split; [by exists t', l|]. intros rd rds' order q' Hrd Hr Hpop. exists t', l.
  split; [done|]. rewrite consume_loop_app. rewrite Hr in Hrun. mstep Hrun. cbn [consume_loop].
  unfold consume_iteration, on_c_queue, zoom. unfold mbind, M_bind. cbn [c_queue c_book c_telemetry c_printed].
  rewrite Hpop. by rewrite (measure_unready hw rd Hrd).
Qed.

(** * The log file *)

(** The two threads: a sample is recorded, or the logging thread steps. *)
Inductive tel_op : Type := Measure (s : Sample) | Log.

Definition tel_step (op : tel_op) : M Telemetry unit :=
  match op with Measure s => record_sample s | Log => log_step end.

Fixpoint tel_run (ops : list tel_op) : M Telemetry unit :=
  match ops with
  | [] => mret tt
  | op :: ops' => tel_step op;; tel_run ops'
  end.

(** The logging thread waits and nothing waits for it. *)
Definition log_idle (t : Telemetry) : bool :=
  match log_thread t with LogPop => tail_ (handoff t) =? head_ (handoff t) | _ => false end.

(** At each hand-over the logging thread has finished with the previous one. *)
Fixpoint keeps_up (ops : list tel_op) (t : Telemetry) : bool :=
  match ops with
  | [] => true
  | op :: ops' =>
      (match op with Measure s => negb (slow s) || log_idle t | Log => true end) &&
      keeps_up ops' (tel_step op t).2
  end.

(** The samples up to each slow one, and those since the last slow one. *)
Fixpoint windows (ops : list tel_op) (ws : list (list Sample)) (w : list Sample)
    : list (list Sample) * list Sample :=
  match ops with
  | [] => (ws, w)
  | Log :: ops' => windows ops' ws w
  | Measure s :: ops' =>
      if slow s then windows ops' (ws ++ [w ++ [s]]) [] else windows ops' ws (w ++ [s])
  end.

(** The last BUFFER_SIZE samples of a window are in a buffer, or in a
    block of the file, at their places. *)
Definition holds_window (cell : Z → option Sample) (w : list Sample) : Prop :=
  ∀ n x, w !! n = Some x → Z.of_nat (length w) - BUFFER_SIZE ≤ Z.of_nat n →
    cell (Z.of_nat n mod BUFFER_SIZE) = Some x.

Definition in_block (w : list Sample) (block : list Sample) : Prop :=
  Z.of_nat (length block) = BUFFER_SIZE ∧ holds_window (λ i, block !! Z.to_nat i) w.

(** Where the last window handed over is. *)
Inductive hand_over (t : Telemetry) : list (list Sample) → Prop :=
| hand_idle ws : queue_rep HANDOFF_SIZE (handoff t) [] → log_thread t = LogPop →
    Forall2 in_block ws (log_file t) → hand_over t ws
| hand_queued ws w S : queue_rep HANDOFF_SIZE (handoff t) [1 - active_buf t] → log_thread t = LogPop →
    (buffers t).[1 - active_buf t] = Some S → holds_window (aget S) w →
    Forall2 in_block ws (log_file t) → hand_over t (ws ++ [w])
| hand_writing ws w S count copied : queue_rep HANDOFF_SIZE (handoff t) [] →
    log_thread t = LogWrite (1 - active_buf t) count copied →
    (buffers t).[1 - active_buf t] = Some S → holds_window (aget S) w →
    (∀ i x, rev copied !! i = Some x → S.[Z.of_nat i] = Some x) →
    Forall2 in_block ws (log_file t) → hand_over t (ws ++ [w]).

Record double_buffer (t : Telemetry) (ws : list (list Sample)) (w : list Sample) : Prop := {
  db_ok : telemetry_ok t;
  db_idx : tel_idx t = Z.of_nat (length w) mod BUFFER_SIZE;
  db_window : ∃ buf, (buffers t).[active_buf t] = Some buf ∧ holds_window (aget buf) w;
  db_hand : hand_over t ws
}.

(** Writing the next sample of a window over the oldest one. *)
Lemma holds_window_snoc buf w s : alen buf = BUFFER_SIZE → holds_window (aget buf) w →
  holds_window (aget (aset buf (Z.of_nat (length w) mod BUFFER_SIZE) s)) (w ++ [s]).
Proof.
  intros Hlen Hw n x Hn Hlow. rewrite length_app in Hlow. cbn [length] in Hlow.
  pose proof (Z.mod_pos_bound (Z.of_nat (length w)) BUFFER_SIZE buffer_size_pos) as Hb.
  rewrite aget_aset by (rewrite Hlen; lia). apply lookup_app_Some in Hn as [Hn|[Hge Hn]].
  - pose proof (lookup_lt_Some _ _ _ Hn) as Hlt. rewrite decide_False; [apply Hw; [done|lia]|].
    intros E. apply mod_inj_near in E; pose proof buffer_size_pos; lia.
  - apply list_lookup_singleton_Some in Hn as [E <-].
    rewrite decide_True; [done|]. f_equal. lia.
Qed.

Lemma queue_empty_eq (q : SPSCQueue (T := Z)) l : queue_rep HANDOFF_SIZE q l → tail_ q = head_ q → l = [].
Proof.
  intros (h & t & sh & st & R) E. destruct R as [_ Ho Ht Hh _ _ _ Hl _]. rewrite Ht, Hh in E.
  apply mod_inj_near in E; [|unfold HANDOFF_SIZE in *; lia..]. destruct l; [done|]. cbn [length] in Hl. lia.
Qed.

Lemma idle_hand_over t ws : telemetry_ok t → hand_over t ws → log_idle t = true →
  queue_rep HANDOFF_SIZE (handoff t) [] ∧ log_thread t = LogPop ∧ Forall2 in_block ws (log_file t).
Proof.
  intros Hok Hh. unfold log_idle. destruct Hh as [ws Hq Hl Hf|ws w S Hq Hl HS Hw Hf|ws w S n c Hq Hl HS Hw Hc Hf];
    rewrite Hl; [done| |done].
  intros E%Z.eqb_eq. by apply (queue_empty_eq _ _ Hq) in E.
Qed.

Lemma other_buffer b : is_buffer b → is_buffer (1 - b) ∧ b ≠ 1 - b ∧ 1 - (1 - b) = b.
Proof. unfold is_buffer. lia. Qed.

Lemma measure_step t ws w s : double_buffer t ws w → negb (slow s) || log_idle t = true →
  ∃ t', record_sample s t = (Ok tt, t') ∧
        if slow s then double_buffer t' (ws ++ [w ++ [s]]) [] else double_buffer t' ws (w ++ [s]).
Proof.
  intros [Hok Hidx (buf & Hbuf & Hw) Hh] Hidle.
  destruct (record_sample_ok t s Hok) as (t' & Hrun & Hok'). eexists. split; [exact Hrun|].
  pose proof (aget_Some_bounds _ _ _ Hbuf) as Hbd.
  pose proof (holds_window_snoc buf w s (to_buffers _ Hok _ _ Hbuf) Hw) as Hw'. rewrite <- Hidx in Hw'.
  destruct (other_buffer _ (to_active _ Hok)) as (Hb & Hne & Hinv).
  destruct (slow s) eqn:Es.
  - destruct (idle_hand_over t ws Hok Hh Hidle) as (Hq & Hlog & Hf).
    destruct (record_sample_run t s [] buf Hok Hq Hbuf) as (h' & Hrun' & Hq' & _).
    rewrite Hrun, Es in Hrun'. injection Hrun' as ->. rewrite Es in Hq'.
    constructor; cbn [tel_idx active_buf buffers handoff log_thread log_file]; [done|done| |].
    + destruct (buffer_at t _ Hok Hb) as [buf1 Hbuf1]. exists buf1. by rewrite aget_aset_ne.
    + eapply hand_queued; cbn [active_buf buffers handoff log_thread log_file]; rewrite ?Hinv; try done.
      by apply aget_aset_eq.
  - destruct (to_handoff _ Hok) as (l & Hl & _).
    destruct (record_sample_run t s l buf Hok Hl Hbuf) as (h' & Hrun' & _ & Hq').
    rewrite Hrun, Es in Hrun'. injection Hrun' as ->. rewrite (Hq' Es) in *.
    constructor; cbn [tel_idx active_buf buffers handoff log_thread log_file]; [done| | |].
    + rewrite Hidx, length_app, Nat2Z.inj_add, Zplus_mod_idemp_l. done.
    + eexists. split; [by apply aget_aset_eq|done].
    + destruct Hh as [ws Hq Hlog Hf|ws v S Hq Hlog HS Hv Hf|ws v S n c Hq Hlog HS Hv Hc Hf].
      * by apply hand_idle.
      * eapply hand_queued; cbn [active_buf buffers handoff log_thread log_file]; try done.
        by rewrite aget_aset_ne.
      * eapply hand_writing; cbn [active_buf buffers handoff log_thread log_file]; try done.
        by rewrite aget_aset_ne.
Qed.

(** A complete copy is a block. *)
Lemma copied_block S w copied : Z.of_nat (length copied) = BUFFER_SIZE →
  (∀ i x, copied !! i = Some x → S.[Z.of_nat i] = Some x) → holds_window (aget S) w → in_block w copied.
Proof.
  intros Hlen Hc Hw. split; [done|]. intros n x Hn Hlow. cbv beta.
  pose proof (Z.mod_pos_bound (Z.of_nat n) BUFFER_SIZE buffer_size_pos) as Hb.
  destruct (lookup_lt_is_Some_2 copied (Z.to_nat (Z.of_nat n mod BUFFER_SIZE))) as [y Hy]; [lia|].
  rewrite Hy. pose proof (Hw n x Hn Hlow) as Hx. apply Hc in Hy. rewrite Z2Nat.id in Hy by lia. congruence.
Qed.

Lemma log_step_step t ws w : double_buffer t ws w →
  ∃ t', log_step t = (Ok tt, t') ∧ double_buffer t' ws w.
Proof.
  intros [Hok Hidx Hw Hh]. destruct (log_step_ok t Hok) as (t' & Hrun & Hok'). exists t'. split; [done|].
  revert Hrun. unfold log_step. munfold.
  destruct Hh as [ws Hq Hlog Hf|ws v S Hq Hlog HS Hv Hf|ws v S n c Hq Hlog HS Hv Hc Hf]; rewrite Hlog.
  - unfold on_handoff, zoom. destruct (pop_rep _ _ _ Hq) as (q' & -> & Hq'). intros [= <-].
    constructor; [done..|]. by apply hand_idle.
  - unfold on_handoff, zoom. destruct (pop_rep _ _ _ Hq) as (q' & -> & Hq'). intros [= <-].
    constructor; [done..|]. by eapply hand_writing.
  - destruct (to_log _ Hok _ _ _ Hlog) as (_ & -> & Hle).
    destruct (Z.ltb_spec (Z.of_nat (length c)) BUFFER_SIZE) as [Hlt|Hge].
    + rewrite HS. destruct (aget_in S (Z.of_nat (length c))) as [x Hx].
      { rewrite (to_buffers _ Hok _ _ HS). lia. }
      rewrite Hx. intros [= <-]. constructor; [done..|]. eapply hand_writing; try done. cbn [rev].
      intros i y [Hi|[Hi Hy]]%lookup_app_Some; [by apply Hc|]. rewrite length_rev in *.
      apply list_lookup_singleton_Some in Hy as [E <-]. by replace i with (length c) by lia.
    + intros [= <-]. constructor; [done..|]. apply hand_idle; [done..|]. cbn [log_file append_block].
      apply Forall2_app; [done|]. constructor; [|done]. eapply copied_block; [|done..].
      rewrite length_rev. lia.
Qed.

Lemma tel_run_double_buffer ops t ws w : double_buffer t ws w → keeps_up ops t = true →
  ∃ t', tel_run ops t = (Ok tt, t') ∧ double_buffer t' (windows ops ws w).1 (windows ops ws w).2.
Proof.
  revert t ws w. induction ops as [|op ops IH]; intros t ws w Hdb Hk; [by exists t|].
  cbn [keeps_up tel_run windows] in *. apply andb_true_iff in Hk as [Hop Hk].
  destruct op as [s|]; cbn [tel_step] in *.
  - destruct (measure_step t ws w s Hdb Hop) as (t1 & Hrun & Hdb1). mstep Hrun. rewrite Hrun in Hk. cbn [snd] in Hk.
    destruct (slow s); by apply IH.
  - destruct (log_step_step t ws w Hdb) as (t1 & Hrun & Hdb1). mstep Hrun. rewrite Hrun in Hk. cbn [snd] in Hk.
    by apply IH.
Qed.

Lemma Telemetry_new_double : double_buffer Telemetry_new [] [].
Proof.
  constructor; [apply Telemetry_new_ok|done| |].
  - eexists. split; [by apply (aget_anew _ _ 0)|]. by intros n x Hn.
  - apply hand_idle; [|done..]. by apply (SPSCQueue_new_rep _ 1).
Qed.


End Buffers.

Lemma buffer_size_16384 : ∃ e, 0 ≤ e ∧ TELEMETRY_BUFFER_SIZE = 2 ^ e.
Proof. by exists 14. Qed.

(** Readings of scheduled counters, and a counter that is not scheduled. *)
Definition sample_readings : Readings :=
  mkReadings 1 2 (λ _, 10) (λ _, 20) 100 9000 (λ _, 25) (λ _, 12).

Definition unscheduled : Readings :=
  mkReadings 1 0 (λ _, 10) (λ _, 20) 100 9000 (λ _, 25) (λ _, 12).

Lemma consume_measurements_transparent_witness :
  match new_book 4 4096 true true with
  | Ok b =>
      let o := sample_add 77 100 650 char_B in
      let q := (push 8 o (push 8 o (SPSCQueue_new 8 o)).2).2 in
      let r := plain_loop 8 1 (q, b) in
      let c := mkConsumer q b (Telemetry_new TELEMETRY_BUFFER_SIZE) [] in
      (∃ t' l, consume_loop TELEMETRY_BUFFER_SIZE 8 true [sample_readings] c =
         (r.1, mkConsumer r.2.1 r.2.2 t' l)) ∧
      (∃ t' l q', consume_loop TELEMETRY_BUFFER_SIZE 8 true [sample_readings; unscheduled] c =
         (UB, mkConsumer q' r.2.2 t' l)) ∧
      r.1 = Ok tt ∧ (book_best_bid r.2.2).1 = Ok 650
  | _ => False
  end.
Proof.
  destruct (new_book 4 4096 true true) as [b| | |] eqn:Eb; [|by vm_compute in Eb..]. intros o q r c.
  assert (r.1 = Ok tt ∧ (book_best_bid r.2.2).1 = Ok 650 ∧ pop 8 r.2.1 = (Ok (Some o), (pop 8 r.2.1).2))
    as (Hr & Hbest & Hpop).
  { unfold c, r, q, o. clear r q o c. revert Eb. unfold new_book, StaticOrderMap_new. cbn [negb].
    intros Eb. injection Eb as <-. split_and!; by vm_compute. }
  destruct (consume_measurements_transparent TELEMETRY_BUFFER_SIZE buffer_size_16384 8 true [sample_readings] c)
    as [(t' & l & _ & _ & Hrun) Hstop]; [apply Telemetry_new_ok, buffer_size_16384|repeat constructor|].
  split_and!; [by exists t', l| |exact Hr|exact Hbest].
  destruct (Hstop unscheduled [] o (pop 8 r.2.1).2 eq_refl Hr Hpop) as (t2 & l2 & _ & Hrun2).
  by exists t2, l2, (pop 8 r.2.1).2.
Defined.

Definition slow_sample (n : Z) : Sample := (6000, n, 0).
Definition fast_sample (n : Z) : Sample := (100, n, 0).

(** The copy of a buffer of [n] samples and the end of the block. *)
Definition copy_block (n : nat) : list tel_op := replicate (S n) Log.

(** Buffers of four samples: a slow dispatch after two fast ones; the block is
    copied while the consumer goes on. *)
Definition sample_ops : list tel_op :=
  [Measure (fast_sample 1); Measure (fast_sample 2); Measure (slow_sample 3); Log;
   Measure (fast_sample 4)] ++ copy_block 4.


(** When the logging thread does not keep up the log is wrong, and nothing
    tells: a second slow dispatch before the first buffer is popped is not
    handed over (the queue has two slots, so it holds one buffer), and its
    window never reaches the file; and a second slow dispatch during a copy
    makes the consumer write to the buffer that is being copied, so that a
    later sample takes the place of the first one in the block. *)
Theorem telemetry_overrun_corrupts_log :
  (let ops := [Measure (slow_sample 1); Measure (slow_sample 2)] in
   let t := (tel_run TELEMETRY_BUFFER_SIZE ops (Telemetry_new TELEMETRY_BUFFER_SIZE)).2 in
   let '(first, q) := pop HANDOFF_SIZE (handoff t) in
   (windows ops [] []).1 = [[slow_sample 1]; [slow_sample 2]] ∧
   first = Ok (Some 0) ∧ (pop HANDOFF_SIZE q).1 = Ok None) ∧
  (let ops := [Measure (slow_sample 1); Log; Measure (slow_sample 2); Measure (fast_sample 3)] ++
              copy_block (Z.to_nat TELEMETRY_BUFFER_SIZE) in
   let t := (tel_run TELEMETRY_BUFFER_SIZE ops (Telemetry_new TELEMETRY_BUFFER_SIZE)).2 in
   windows ops [] [] = ([[slow_sample 1]; [slow_sample 2]], [fast_sample 3]) ∧
   take 1 <$> log_file t = [[fast_sample 3]]).
Proof. split; by vm_compute. Qed.

(** Without ENABLE_HW_TELEMETRY every difference is 0 and no buffer is ever
    handed over. *)
Lemma no_telemetry_no_log rd s e : measure_start false rd = Some s → measure_end false rd = Some e →
  deltas s e = (0, 0, 0) ∧ slow (deltas s e) = false.
Proof. by intros [= <-] [= <-]. Qed.
