(* ===== verification/EventLoop.v ===== *)
(** One round of [EpollReactor::run] (src/src/network/EpollReactor.h): the
    result of [epoll_wait], the loop over the ready descriptors, and the flag
    that tells whether new connections wait.

    EpollReactor.v has the loop that empties one socket and the hand-over of
    new connections; here the rounds are put together and each socket is shown
    to be served without a trace in the buffers of the others. *)

From S2P Require Import Prelude SPSCQueue MagicBuffer EpollReactor.

Definition MAX_EVENTS : Z := 64.

(** [epoll_wait]: interrupted by a signal, another error, or the ready
    descriptors, at most MAX_EVENTS of them. *)
Inductive wait_result : Type :=
| WaitInterrupted
| WaitFailed
| WaitReady (events : list Z).

Section Events.
Context {H : Type} `{!DataHandler H}.
Implicit Types (s : Reactor (H := H)).

(** [for (i = 0; i < ready_count; ++i)]; the result is
    [has_new_connections]. *)
Fixpoint process_events (fuel : nat) (event_fd : Z) (events : list Z) (has_new_connections : bool)
    : M (Reactor (H := H)) bool :=
  match events with
  | [] => mret has_new_connections
  | fd :: events' =>
      if fd =? event_fd then process_events fuel event_fd events' true
      else receive_loop fuel fd;; process_events fuel event_fd events' has_new_connections
  end.

(** A round of the outer loop up to the treatment of new connections; [None]
    is [continue]. *)
Definition run_round (fuel : nat) (event_fd : Z) (w : wait_result) : M (Reactor (H := H)) (option bool) :=
  match w with
  | WaitInterrupted => mret None
  | WaitFailed => throw (runtime_error
      "EpollReactor::run(): Unexpected error occurred during epoll_wait. Error: ")
  | WaitReady events =>
      has_new_connections ← process_events fuel event_fd events false;
      mret (Some has_new_connections)
  end.

(** ** What a socket's loop leaves alone *)

(** [s] is as [s0] but for the descriptor [fd]. *)
Definition same_but (fd : Z) (s0 s : Reactor (H := H)) : Prop :=
  alen (fd_buffers_ s) = alen (fd_buffers_ s0) ∧
  (∀ i, i ≠ fd → (fd_buffers_ s).[i] = (fd_buffers_ s0).[i] ∧ sockets_ s i = sockets_ s0 i) ∧
  (closed_ s = closed_ s0 ∨ closed_ s = closed_ s0 ++ [fd]).

(** The same while the loop runs: nothing is closed. *)
Definition same_open (fd : Z) (s0 s : Reactor (H := H)) : Prop :=
  same_but fd s0 s ∧ closed_ s = closed_ s0.

Lemma same_but_set_buffer fd s0 s b : same_open fd s0 s → in_bounds (alen (fd_buffers_ s)) fd = true →
  same_open fd s0 (set_buffer (aset (fd_buffers_ s) fd b) s).
Proof.
  intros [(Hl & Hi & Hc) Hcl] Hb. split; [|done]. split_and!; [done| |done].
  intros i Hne. destruct (Hi i Hne) as [<- <-]. split; [|done]. cbn. by rewrite aget_aset_ne.
Qed.

Lemma on_buffer_frame {A} fd s0 (m : M MagicBuffer A) : keeps (same_open fd s0) (λ _, True) (on_buffer fd m).
Proof.
  intros s Hs. unfold on_buffer. destruct ((fd_buffers_ s).[fd]) as [b|] eqn:Hb; [|by split].
  pose proof (aget_Some_bounds _ _ _ Hb) as Hbd. destruct (m b) as [r b']. split; [|done].
  apply same_but_set_buffer; [done|by apply in_bounds_spec].
Qed.

Lemma call_handler_frame fd s0 : keeps (same_open fd s0) (λ _, True) (call_handler fd).
Proof.
  intros s Hs. unfold call_handler. destruct ((fd_buffers_ s).[fd]) as [b|] eqn:Hb; [|by split].
  pose proof (aget_Some_bounds _ _ _ Hb) as Hbd. destruct (on_data fd (handler_ s, b)) as [r [h' b']].
  split; [|done]. apply (same_but_set_buffer fd s0 s b'); [done|by apply in_bounds_spec].
Qed.

Lemma set_socket_frame fd s0 k : keeps (same_open fd s0) (λ _, True) (modify (set_socket fd k)).
Proof.
  apply keeps_modify. intros s [(Hl & Hi & Hc) Hcl]. split; [|done]. split_and!; [done| |done].
  intros i Hne. destruct (Hi i Hne) as [<- <-]. cbn. by rewrite (proj2 (Z.eqb_neq i fd)).
Qed.

Lemma get_reactor_frame fd s0 : keeps (same_open fd s0) (λ _, True) get_state.
Proof. by apply keeps_gets. Qed.

Lemma of_option_frame {A} fd s0 (o : option A) : keeps (same_open fd s0) (λ _, True) (of_option o).
Proof. by apply keeps_of_option. Qed.
#[local] Hint Resolve on_buffer_frame call_handler_frame set_socket_frame get_reactor_frame
  of_option_frame : typed.

Lemma recv_into_frame fd s0 : keeps (same_open fd s0) (λ _, True) (recv_into fd).
Proof.
  unfold recv_into. typed_step. typed_step. destruct (recv _ _) as [r k]. typed_step.
  eapply keeps_bind; [|intros ? _; by apply keeps_ret]. destruct r; eauto with typed.
Qed.

Lemma close_frame fd s0 s : same_open fd s0 s → same_but fd s0 (close fd s).
Proof. intros [(Hl & Hi & _) Hc]. split_and!; [done|done|]. right. cbn. by rewrite Hc. Qed.

Lemma reset_close_frame fd s0 s : same_open fd s0 s →
  same_but fd s0 ((on_buffer fd reset;; modify (close fd)) s).2.
Proof.
  intros Hs. destruct (on_buffer_frame fd s0 reset s Hs) as [H1 _]. unfold mbind, M_bind.
  destruct (on_buffer fd reset s) as [[[]| | |] s1]; cbn in *; [by apply close_frame|by apply H1..].
Qed.

Lemma receive_loop_frame fuel fd s0 s : same_open fd s0 s → same_but fd s0 (receive_loop fuel fd s).2.
Proof.
  revert s. induction fuel as [|fuel IH]; intros s Hs; [apply Hs|]. cbn [receive_loop].
  destruct (recv_into_frame fd s0 s Hs) as [H1 _]. unfold mbind at 1, M_bind at 1.
  destruct (recv_into fd s) as [[r| | |] s1]; cbn [snd] in H1; [|apply H1..].
  destruct r as [[|x bytes]| |]; [by apply reset_close_frame| |apply H1|by apply reset_close_frame].
  destruct (call_handler_frame fd s0 s1 H1) as [H2 _]. unfold mbind at 1, M_bind at 1.
  destruct (call_handler fd s1) as [[[]| | |] s2]; cbn [snd] in H2; [|apply H2..].
  destruct (on_buffer_frame fd s0 (advance_write (Z.of_nat (length (x :: bytes)))) s2 H2) as [H3 _].
  unfold mbind at 1, M_bind at 1.
  destruct (on_buffer fd _ s2) as [[[]| | |] s3]; cbn [snd] in H3; [by apply IH|apply H3..].
Qed.
End Events.

(** * A round serves every ready socket *)

Section Rounds.
Context {H : Type} `{!DataHandler H} (seen : H → list Z) `{!DataHandlerLaws H seen}.
Implicit Types (s : Reactor (H := H)).

(** A socket whose pending segments are fewer bytes than the fuel. *)
Definition ready (fuel : nat) (fd : Z) (s : Reactor (H := H)) : Prop :=
  ∃ l segs e cap, reactor_at fd s l segs e cap ∧ Forall (λ g, g ≠ []) segs ∧
    (length (concat segs) < fuel)%nat.

(** Nothing is left to read, or the descriptor has been closed. *)
Definition served (fd : Z) (s : Reactor (H := H)) : Prop :=
  (∃ l cap, reactor_at fd s l [] NoMore cap) ∨ fd ∈ closed_ s.

Lemma reactor_at_frame fd i s s' l segs e cap : same_but fd s s' → i ≠ fd →
  reactor_at i s l segs e cap → reactor_at i s' l segs e cap.
Proof.
  intros (_ & Hi & _) Hne (b & Hb & HR). destruct (Hi i Hne) as [E1 E2]. exists b. by rewrite E1, E2.
Qed.

Lemma closed_grows fd s s' : same_but fd s s' → ∃ cl, closed_ s' = closed_ s ++ cl ∧ cl `sublist_of` [fd].
Proof.
  intros (_ & _ & [->| ->]); [exists []; rewrite app_nil_r|exists [fd]]; (split; [done|]).
  - apply sublist_nil_l.
  - done.
Qed.

Lemma receive_loop_serves fuel fd s : ready fuel fd s →
  ∃ s', receive_loop fuel fd s = (Ok tt, s') ∧ served fd s' ∧ same_but fd s s'.
Proof.
  intros (l & segs & e & cap & R & Hne & Hlen).
  destruct (receive_loop_ends seen fuel fd s l segs e cap R Hne Hlen) as (s' & Hrun & Hends).
  exists s'. split; [done|]. split.
  - destruct Hends as [(l' & -> & _ & R' & _)|(lost & segs' & Hc & _)].
    + left. eauto.
    + right. rewrite Hc. apply elem_of_app. right. by apply list_elem_of_singleton.
  - replace s' with (receive_loop fuel fd s).2 by by rewrite Hrun. apply receive_loop_frame.
    split; [|done]. split_and!; [done|done|by left].
Qed.

(** [s'] is [s] after a round over [events]. *)
Record round_done (event_fd : Z) (events : list Z) (s s' : Reactor (H := H)) : Prop := {
  rd_served : ∀ fd, fd ∈ events → fd ≠ event_fd → served fd s';
  rd_others : ∀ i, i ∉ events ∨ i = event_fd →
    (fd_buffers_ s').[i] = (fd_buffers_ s).[i] ∧ sockets_ s' i = sockets_ s i;
  rd_closed : ∃ cl, closed_ s' = closed_ s ++ cl ∧ cl `sublist_of` events
}.

Lemma served_frame fd i s s' : same_but fd s s' → i ≠ fd → served i s → served i s'.
Proof.
  intros Hs Hne [(l & cap & R)|Hc].
  - left. exists l, cap. by eapply reactor_at_frame.
  - right. destruct (closed_grows _ _ _ Hs) as (cl & -> & _). apply elem_of_app. by left.
Qed.

Lemma process_events_serves fuel event_fd events b s : NoDup events →
  (∀ fd, fd ∈ events → fd ≠ event_fd → ready fuel fd s) →
  ∃ s', process_events fuel event_fd events b s = (Ok (b || bool_decide (event_fd ∈ events)), s') ∧
        round_done event_fd events s s'.
Proof.
  revert b s. induction events as [|fd events IH]; intros b s Hnd Hready; cbn [process_events].
  { exists s. rewrite bool_decide_false, orb_false_r by apply not_elem_of_nil. split; [done|].
    constructor; [by intros fd ?%elem_of_nil|done|]. exists []. by rewrite app_nil_r. }
  apply NoDup_cons in Hnd as [Hfd Hnd]. destruct (Z.eqb_spec fd event_fd) as [->|Hne].
  - destruct (IH true s Hnd) as (s' & Hrun & [Hs Ho (cl & Hcl & Hsub)]).
    { intros i Hi Hi'. apply Hready; [by apply elem_of_cons; right|done]. }
    exists s'. rewrite Hrun. rewrite (bool_decide_true (event_fd ∈ event_fd :: events)) by by left.
    split; [by rewrite orb_true_r|]. constructor.
    + intros i [->|Hi]%elem_of_cons Hi'; [done|by apply Hs].
    + intros i Hi. apply Ho. destruct Hi as [Hi|Hi]; [left; set_solver|by right].
    + exists cl. split; [done|]. by apply sublist_cons.
  - destruct (receive_loop_serves fuel fd s) as (s1 & Hrun1 & Hserved & Hs1); [by apply Hready; [left|]|].
    destruct (IH b s1 Hnd) as (s' & Hrun & [Hs Ho (cl & Hcl & Hsub)]).
    { intros i Hi Hi'. destruct (Hready i ltac:(by right) Hi') as (l & segs & e & cap & R & Hseg).
      exists l, segs, e, cap. split; [|done]. eapply reactor_at_frame; [exact Hs1|set_solver|done]. }
    exists s'. mstep Hrun1. rewrite Hrun. split.
    { f_equal. f_equal. f_equal. apply bool_decide_ext. rewrite elem_of_cons. naive_solver. }
    destruct (closed_grows _ _ _ Hs1) as (cl1 & Hcl1 & Hsub1). constructor.
    + intros i [->|Hi]%elem_of_cons Hi'; [|by apply Hs].
      destruct Hserved as [(l & cap & bf & Hb & R)|Hc]; [left; exists l, cap, bf|right].
      * destruct (Ho fd ltac:(by left)) as [-> ->]. done.
      * rewrite Hcl. apply elem_of_app. by left.
    + intros i Hi. assert (i ≠ fd) as Hifd by (destruct Hi as [Hi|Hi]; set_solver).
      destruct (Ho i) as [-> ->]; [destruct Hi; [left; set_solver|by right]|]. destruct Hs1 as (_ & Hi1 & _).
      by apply Hi1.
    + exists (cl1 ++ cl). rewrite Hcl, Hcl1, app_assoc. split; [done|].
      change (fd :: events) with ([fd] ++ events). by apply sublist_app.
Qed.

(** C24 A round of the reactor: for ready descriptors that are distinct, as
    epoll_wait returns them, and that (the eventfd apart) each index a buffer
    of the vector, and for a handler that only reads the buffer it is given,
    the round ends without touching memory outside the buffers; every ready
    socket has been emptied, or closed; no other socket and no other buffer has
    changed; descriptors are closed at most once each and only if they were
    ready; and the round goes on to the new connections exactly when the
    eventfd was among the ready descriptors. *)
Theorem round_serves_every_ready_socket fuel event_fd events s : NoDup events →
  (∀ fd, fd ∈ events → fd ≠ event_fd → ready fuel fd s) →
  ∃ s', run_round fuel event_fd (WaitReady events) s = (Ok (Some (bool_decide (event_fd ∈ events))), s') ∧
        round_done event_fd events s s'.
Proof.
  intros Hnd Hready. destruct (process_events_serves fuel event_fd events false s Hnd Hready) as (s' & Hrun & Hd).
  exists s'. split; [|done]. cbn [run_round]. by mstep Hrun.
Qed.
End Rounds.

Lemma round_serves_every_ready_socket_witness :
  let s := sample_reactor [[1; 2]; [3]] NoMore in
  ∃ s', run_round 4 9 (WaitReady [7; 9; 8]) s = (Ok (Some true), s') ∧ round_done 9 [7; 9; 8] s s'.
Proof.
  intros s.
  destruct (round_serves_every_ready_socket id 4 9 [7; 9; 8] s) as (s' & Hrun & Hd).
  - apply (bool_decide_unpack _). by vm_compute.
  - intros fd Hfd _. exists [], [[1; 2]; [3]], NoMore, MAX_BUFFER_SIZE.
    split_and!; [|by repeat constructor|simpl; lia]. apply sample_reactor_at.
    unfold MAX_CONNECTIONS. rewrite !elem_of_cons, elem_of_nil in Hfd. lia.
  - exists s'. rewrite (bool_decide_true (9 ∈ [7; 9; 8])) in Hrun; [split; [exact Hrun|exact Hd]|].
    apply (bool_decide_unpack _). by vm_compute.
Defined.
