(* ===== verification/DescriptorLimits.v ===== *)
(** The descriptors of a reactor and the numbers of its connections.

    [EpollReactor::run] finds the buffer of a connection by its descriptor,
    [fd_buffers_[fd]], in a vector of MAX_CONNECTIONS buffers
    (src/src/network/EpollReactor.h).  Each [MagicBuffer] keeps a descriptor of
    its own open (src/src/utils/MagicBuffer.h).  A kernel gives out the lowest
    descriptor that is not open (open(2), accept(2)): [LowestFd].  So once the
    buffers exist no connection has a number that the vector has. *)

From S2P Require Import Prelude MagicBuffer EpollReactor Kernel TCPSocket Ownership.

Class LowestFd `{OS} : Prop :=
  pick_fd_lowest X i : 0 ≤ i < pick_fd X → Fd i ∈ X.

(** The first [n] descriptors are open. *)
Definition filled (n : Z) (k : Kernel) : Prop := ∀ i, 0 ≤ i < n → Fd i ∈ held k.

(** When [m] returns, [d] more of them are. *)
Definition fills {A} (m : M Kernel A) (d : Z) : Prop :=
  ∀ k n, filled n k → ∀ a k', m k = (Ok a, k') → filled (n + d) k'.

Section Fill.
Context `{OSLaws} `{!LowestFd}.

Lemma fills_ret {A} (a : A) : fills (mret a) 0.
Proof. intros k n Hk a' k' [= _ <-]. by rewrite Z.add_0_r. Qed.

Lemma fills_bind {A B} (m : M Kernel A) (f : A → M Kernel B) d d' :
  fills m d → (∀ a, fills (f a) d') → fills (m ≫= f) (d + d').
Proof.
  intros Hm Hf k n Hk b k'. unfold mbind, M_bind. destruct (m k) as [[a| | |] k1] eqn:E; try done.
  intros Hb. rewrite Z.add_assoc. eapply Hf; [by eapply Hm|done].
Qed.

(** A branch that throws. *)
Definition fails {A} (m : M Kernel A) : Prop := ∀ k a k', m k ≠ (Ok a, k').

Lemma fails_throw {A} e : fails (throw e : M Kernel A).
Proof. done. Qed.
Lemma fails_bind {A B} (m : M Kernel A) (f : A → M Kernel B) : (∀ a, fails (f a)) → fails (m ≫= f).
Proof. intros Hf k b k'. unfold mbind, M_bind. destruct (m k) as [[a| | |] k1]; try done. apply Hf. Qed.
Lemma fills_fails {A} (m : M Kernel A) d : fails m → fills m d.
Proof. intros Hm k n Hk a k' E. by apply Hm in E. Qed.

Lemma fills_same {A} (m : M Kernel A) : (∀ k a k', m k = (Ok a, k') → held k ⊆ held k') → fills m 0.
Proof. intros Hm k n Hk a k' E i Hi. eapply Hm; [done|]. apply Hk. lia. Qed.

Lemma fills_succeeds name args : fills (succeeds name args) 0.
Proof. apply fills_same. by intros k a k' [= _ <-]. Qed.

Lemma fills_mmap len args : fills (mmap len args) 0.
Proof.
  apply fills_same. intros k a k'. unfold mmap, sys. munfold. destruct (errno_of _ _); [by intros [= _ <-]|].
  destruct (len <=? 0); intros [= _ <-]; [done|]. cbn. apply union_subseteq_r.
Qed.

(** A new descriptor is the lowest one, and it was not open. *)
Lemma fills_open {B} name args e (f : Z → M Kernel B) d : (∀ fd, fills (f fd) d) →
  fills (fd ← open_fd name args; if fd =? -1 then throw e else f fd) (1 + d).
Proof.
  intros Hf k n Hk b k'. unfold open_fd, sys_fd, sys. munfold. destruct (errno_of _ _); cbn [fst snd]; [done|].
  set (p := pick_fd _). assert (p = pick_fd (held k)) as Hp by done.
  destruct (pick_fd_new (held k)) as [Hpos Hnew]. rewrite <- Hp in *.
  rewrite (proj2 (Z.eqb_neq p (-1))) by lia. intros E. rewrite Z.add_assoc. eapply Hf; [|exact E].
  intros i Hi. cbn. assert (n ≤ p) as Hn.
  { destruct (Z.le_gt_cases n p) as [|Hlt]; [done|]. exfalso. apply Hnew, Hk. lia. }
  destruct (decide (i = p)) as [->|Hne]; [by apply elem_of_union_l, elem_of_singleton|].
  apply elem_of_union_r.
  destruct (Z.lt_ge_cases i n) as [|Hge]; [apply Hk; lia|].
  apply pick_fd_lowest. rewrite <- Hp. lia.
Qed.

Ltac throws := apply fills_fails; repeat first [apply fails_throw|apply fails_bind; intros ?].

Lemma fills_MagicBuffer n : fills (MagicBuffer_ctor n) 1.
Proof.
  unfold MagicBuffer_ctor. destruct (n =? 0); [throws|]. apply (fills_open _ _ _ _ 0).
  intros fd. apply (fills_bind _ _ 0 0); [apply fills_succeeds|]. intros [] ; cbn [negb]; [|throws].
  apply (fills_bind _ _ 0 0); [apply fills_mmap|]. intros [buffer|]; [|throws].
  apply (fills_bind _ _ 0 0); [apply fills_succeeds|]. intros [] ; cbn [negb]; [|throws].
  apply (fills_bind _ _ 0 0); [apply fills_succeeds|]. intros [] ; cbn [negb]; [|throws].
  apply fills_ret.
Qed.

Lemma fills_unwind {A} (m : M Kernel A) c d : fills m d → fills (unwind m c) d.
Proof.
  intros Hm k n Hk a k'. unfold unwind. destruct (m k) as [[x|e| |] k1] eqn:E; try done.
  - intros [= -> ->]. by eapply Hm.
  - by destruct (c k1) as [[[]| | |] k2].
Qed.

Lemma fills_emplace_buffers m bs : fills (emplace_buffers m bs) (Z.of_nat m).
Proof.
  revert bs. induction m as [|m IH]; intros bs; cbn [emplace_buffers]; [apply fills_ret|].
  rewrite Nat2Z.inj_succ, <- Z.add_1_l. apply fills_bind; [apply fills_unwind, fills_MagicBuffer|done].
Qed.

Lemma fills_EpollReactor : fills (EpollReactor_ctor true) (1 + MAX_CONNECTIONS).
Proof.
  unfold EpollReactor_ctor. apply fills_open. intros fd. rewrite <- (Z.add_0_r MAX_CONNECTIONS).
  apply fills_bind; [|intros ?; apply fills_ret]. apply (fills_emplace_buffers (Z.to_nat MAX_CONNECTIONS)).
Qed.
End Fill.

(** C30 No connection has a buffer: a reactor that was constructed with its
    buffers holds more than MAX_CONNECTIONS descriptors, so in a kernel that
    gives out the lowest free one every connection accepted while they are
    open gets a number beyond the vector of buffers, and the first event on
    it reads past the vector's end. *)
Theorem accepted_connection_has_no_buffer {H} `{!DataHandler H} `{OSLaws} `{!LowestFd}
    (k k1 k2 k3 : Kernel) (r : ReactorHandle) (server : TCPSocket) (fd : Z) (fuel : nat)
    (s : Reactor (H := H)) :
  EpollReactor_ctor true k = (Ok r, k1) → held k1 ⊆ held k2 →
  TCPSocket_accept server k2 = (Ok fd, k3) → fd ≠ -1 → alen (fd_buffers_ s) = MAX_CONNECTIONS →
  MAX_CONNECTIONS < fd ∧ (receive_loop (S fuel) fd s).1 = UB.
Proof.
  intros Hctor Hsub Hacc Hfd Hlen.
  assert (filled (1 + MAX_CONNECTIONS) k2) as Hfill.
  { intros i Hi. apply Hsub. apply (fills_EpollReactor k 0) with r; [|exact Hctor|exact Hi]. intros j Hj. lia. }
  pose proof (accept_spec server k2) as Hpost. rewrite Hacc in Hpost.
  destruct Hpost as [(-> & _)|(Hpos & _ & Hnew & _)]; [done|].
  assert (MAX_CONNECTIONS < fd) as Hbig.
  { destruct (Z.lt_ge_cases MAX_CONNECTIONS fd) as [|Hle]; [done|]. exfalso. apply Hnew, Hfill. lia. }
  split; [done|]. cbn [receive_loop]. unfold recv_into, mbind, M_bind. cbn [get_state].
  rewrite aget_out by lia. done.
Qed.

(** * A kernel that gives out the lowest descriptor *)

Fixpoint lowest_from (n : nat) (i : Z) (X : gset resource) : Z :=
  match n with
  | O => i
  | S n' => if bool_decide (Fd i ∈ X) then lowest_from n' (i + 1) X else i
  end.

Lemma lowest_from_spec n i X : i ≤ lowest_from n i X ≤ i + Z.of_nat n ∧
  (∀ j, i ≤ j < lowest_from n i X → Fd j ∈ X) ∧
  (Fd (lowest_from n i X) ∉ X ∨ lowest_from n i X = i + Z.of_nat n).
Proof.
  revert i. induction n as [|n IH]; intros i; cbn [lowest_from].
  { split_and!; [lia|lia|intros j Hj; lia|right; lia]. }
  case_bool_decide as Hi; [|split_and!; [lia|lia|intros j Hj; lia|by left]].
  destruct (IH (i + 1)) as (Hr & Hall & Hnew). split_and!; [lia|lia| |].
  - intros j Hj. destruct (decide (j = i)) as [->|]; [done|]. apply Hall. lia.
  - destruct Hnew as [|Hnew]; [by left|right; lia].
Qed.

(** Among the first [size X + 1] descriptors one is not in [X]. *)
Lemma some_fd_free (X : gset resource) : ¬ (∀ j, 0 ≤ j < Z.of_nat (S (size X)) → Fd j ∈ X).
Proof.
  intros Hall. set (l := Fd <$> seqZ 0 (Z.of_nat (S (size X)))).
  assert (NoDup l) as Hnd by (apply NoDup_fmap_2; [by intros ? ? [= ->]|apply NoDup_seqZ]).
  assert ((list_to_set l : gset resource) ⊆ X) as Hsub%subseteq_size.
  { intros r (j & -> & Hj)%elem_of_list_to_set%list_elem_of_fmap. apply elem_of_seqZ in Hj. apply Hall. lia. }
  rewrite size_list_to_set in Hsub by done. unfold l in Hsub. rewrite length_fmap, length_seqZ in Hsub. lia.
Qed.

Definition lowest_os : OS := {|
  errno_of _ _ := None;
  pick_fd X := lowest_from (S (size X)) 0 X;
  pick_page X _ := above page_of X;
  pick_info X := above info_of X;
  new_flags _ := 2;
  page_size := 4096
|}.

#[export] Instance lowest_os_lowest : @LowestFd lowest_os.
Proof. intros X i Hi. cbn in Hi. by apply (lowest_from_spec (S (size X)) 0 X). Qed.

#[export] Instance lowest_os_laws : @OSLaws lowest_os.
Proof.
  destruct (small_page_laws (λ _ _, None)) as [_ Hpage Hinfo Hsize]. constructor; [|exact Hpage|exact Hinfo|exact Hsize].
  intros X. cbn [pick_fd lowest_os]. destruct (lowest_from_spec (S (size X)) 0 X) as (Hr & Hall & [Hnew|Hend]).
  - split; [lia|done].
  - exfalso. apply (some_fd_free X). intros j Hj. apply Hall. lia.
Qed.

(** When no call fails the constructors return. *)
#[local] Existing Instance lowest_os.

Lemma open_fd_returns name args k : ∃ fd k', open_fd name args k = (Ok fd, k') ∧ (fd =? -1) = false.
Proof.
  pose proof (lowest_from_spec (S (size (held k))) 0 (held k)) as [Hpos _].
  eexists _, _. split; [reflexivity|]. apply Z.eqb_neq. cbn [snd pick_fd lowest_os held log_call]. lia.
Qed.

Lemma succeeds_returns name args k : succeeds name args k = (Ok true, log_call (mkCall name args) k).
Proof. done. Qed.

Lemma mmap_returns len args k : 0 < len → ∃ a k', mmap len args k = (Ok (Some a), k').
Proof.
  intros Hlen. unfold mmap, sys. munfold. cbn [errno_of lowest_os].
  rewrite (proj2 (Z.leb_gt len 0)) by done. by eexists _, _.
Qed.

Lemma MagicBuffer_returns k : ∃ b k', MagicBuffer_ctor MAX_BUFFER_SIZE k = (Ok b, k').
Proof.
  unfold MagicBuffer_ctor. change (MAX_BUFFER_SIZE =? 0) with false. cbv iota.
  destruct (open_fd_returns "memfd_create" [] k) as (fd & k1 & Hfd & Hne). mstep Hfd. rewrite Hne.
  mstep (succeeds_returns "ftruncate" [fd; align_capacity page_size MAX_BUFFER_SIZE] k1). cbn [negb].
  destruct (mmap_returns (align_capacity page_size MAX_BUFFER_SIZE * 2) [-1]
    (log_call (mkCall "ftruncate" [fd; align_capacity page_size MAX_BUFFER_SIZE]) k1)) as (a & k2 & Ha); [done|].
  mstep Ha. mstep (succeeds_returns "mmap" [align_capacity page_size MAX_BUFFER_SIZE; a; fd] k2). cbn [negb].
  match goal with |- context [(succeeds ?n ?l ≫= _) ?k] => mstep (succeeds_returns n l k) end.
  by eexists _, _.
Qed.

Lemma emplace_buffers_returns n bs k : ∃ bs' k', emplace_buffers n bs k = (Ok bs', k').
Proof.
  revert bs k. induction n as [|n IH]; intros bs k; cbn [emplace_buffers]; [by eexists _, _|].
  destruct (MagicBuffer_returns k) as (b & k1 & Hb). unfold mbind, M_bind, unwind. rewrite Hb. apply IH.
Qed.

Lemma EpollReactor_returns k : ∃ r k', EpollReactor_ctor true k = (Ok r, k').
Proof.
  unfold EpollReactor_ctor. destruct (open_fd_returns "epoll_create1" [] k) as (fd & k1 & Hfd & Hne).
  mstep Hfd. rewrite Hne. destruct (emplace_buffers_returns (Z.to_nat MAX_CONNECTIONS) [] k1) as (bs & k2 & Hbs).
  mstep Hbs. by eexists _, _.
Qed.

Lemma accepted_connection_has_no_buffer_witness :
  ∃ r k1 fd k3, EpollReactor_ctor true idle_kernel = (Ok r, k1) ∧
    TCPSocket_accept (mkSocket 3) k1 = (Ok fd, k3) ∧
    MAX_CONNECTIONS < fd ∧ (receive_loop 1 fd (sample_reactor [[1]] NoMore)).1 = UB.
Proof.
  destruct (EpollReactor_returns idle_kernel) as (r & k1 & E1).
  pose proof (accept_spec (mkSocket 3) k1) as Hacc. revert Hacc.
  destruct (TCPSocket_accept (mkSocket 3) k1) as [[fd|e| |] k3] eqn:E2; cbn [accept_post].
  - intros [(_ & He & _)|(Hpos & _)]; [discriminate He|]. exists r, k1, fd, k3. split; [exact E1|]. split; [done|].
    apply (accepted_connection_has_no_buffer idle_kernel k1 k1 k3 r (mkSocket 3) fd 0);
      [exact E1|done|exact E2|lia|done].
  - intros [(e' & He & _) _]. discriminate He.
  - intros [].
  - intros [].
Defined.
