(* ===== verification/RealPoll.v ===== *)
(** [MulticastReceiver::poll] (src/src/network/MulticastReceiver.h): the packet
    ring in real mode.

    The kernel fills the frames: a frame that belongs to the user holds a
    captured packet at [tp_mac], its network header at [tp_net], 14 bytes
    later (packet(7)); [holds_packet] states this of the ring.  [poll] skips
    an IP header of 20 bytes and a UDP header of 8, and takes what is left of
    the captured packet.  The steps of the loop are those of
    [poll_simulation] (MulticastReceiver.v) with the offsets of [poll]. *)

From S2P Require Import Prelude Interfaces SPSCQueue ItchOrderTypes Crc32 MmapLogger ItchParser ParserTheorems MulticastReceiver BpfFilter.

Definition ETH_HLEN : Z := 14.

(** [payload_length] is the unsigned difference as an int; a negative one is
    outside the model. *)
Definition packet_block (start_of_frame : Z) : M (array Z) (list Z) :=
  tp_net ← ring_load (start_of_frame + off_tp_net) 2;
  tp_snaplen ← ring_load (start_of_frame + off_tp_snaplen) 4;
  let payload_length := u32 (tp_snaplen - ETH_HLEN - 20 - 8) in
  if 2 ^ 31 <=? payload_length then ub else
  r ← get_state; of_option (read_bytes r (start_of_frame + tp_net + 20 + 8) (Z.to_nat payload_length)).

Section Poll.
Context {H : Type} `{!BlockHandler H}.

(** The next step of [poll]. *)
Definition poll_packet_step : M (Receiver (H := H)) unit :=
  s ← get_state;
  let start_of_frame := curr_frame_idx_ s * RX_FRAME_SIZE in
  match poller_ s with
  | PollWait =>
      status ← on_ring (ring_load (start_of_frame + off_tp_status) 4);
      if Z.land status TP_STATUS_USER =? 0 then mret tt else modify (set_poller PollParse)
  | PollParse =>
      block ← on_ring (packet_block start_of_frame);
      on_handler (handle_block block);;
      modify (record_block block)
  | PollRelease =>
      on_ring (ring_store (start_of_frame + off_tp_status) 4 TP_STATUS_KERNEL);;
      modify next_frame
  end.

(** A captured packet in the frame [i], from byte [mac] of it on. *)
Record holds_packet (r : array Z) (i mac : Z) (pkt : list Z) : Prop := {
  hp_snaplen : read_bytes r (i * RX_FRAME_SIZE + off_tp_snaplen) 4 = Some (le_bytes 4 (Z.of_nat (length pkt)));
  hp_net : read_bytes r (i * RX_FRAME_SIZE + off_tp_net) 2 = Some (le_bytes 2 (mac + 14));
  hp_bytes : read_bytes r (i * RX_FRAME_SIZE + mac) (length pkt) = Some pkt;
  hp_fits : 32 ≤ mac ∧ mac + Z.of_nat (length pkt) ≤ RX_FRAME_SIZE
}.

Lemma packet_block_run r i mac pkt : holds_packet r i mac pkt → (42 ≤ length pkt)%nat →
  packet_block (i * RX_FRAME_SIZE) r = (Ok (drop 42 pkt), r).
Proof.
  intros [Hs Hn Hb [Hm Hf]] Hlen. unfold RX_FRAME_SIZE in Hf. unfold packet_block.
  mstep (ring_load_run _ _ _ _ Hn). mstep (ring_load_run _ _ _ _ Hs).
  rewrite !le_Z_le_bytes, (Z.mod_small (Z.of_nat (length pkt))), (Z.mod_small (mac + 14)) by (cbn; lia).
  unfold ETH_HLEN, u32. rewrite uwrap_id by (unfold in_range; lia).
  rewrite (proj2 (Z.leb_gt _ _)) by lia. munfold.
  replace (i * RX_FRAME_SIZE + (mac + 14) + 20 + 8) with (i * RX_FRAME_SIZE + mac + Z.of_nat 42) by lia.
  replace (Z.to_nat (Z.of_nat (length pkt) - 14 - 20 - 8)) with (length pkt - 42)%nat by lia.
  destruct (read_bytes r (i * RX_FRAME_SIZE + mac + Z.of_nat 42) (length pkt - 42)) as [l|] eqn:E.
  - replace (drop 42 pkt) with l; [done|].
    replace (length pkt) with (42 + (length pkt - 42))%nat in Hb by lia.
    rewrite read_bytes_app, E in Hb. destruct (read_bytes r _ 42) as [l1|] eqn:E1; [|done].
    apply read_bytes_Some in E1 as [Hl1 _]. injection Hb as <-. by rewrite <- Hl1, drop_app_length.
  - replace (length pkt) with (42 + (length pkt - 42))%nat in Hb by lia.
    rewrite read_bytes_app, E in Hb. by destruct (read_bytes r _ 42).
Qed.

(** One turn of the loop of [poll], its frame ready. *)
Definition poll_packet : M (Receiver (H := H)) unit :=
  poll_packet_step;; poll_packet_step;; poll_packet_step.

(** What a turn leaves: the frame with the kernel, the other frames as they
    were, the next frame up, the packet counted. *)
Definition polled (s s' : Receiver (H := H)) (block : list Z) (h : H) : Prop :=
  let i := curr_frame_idx_ s in
  status_at (ring_ s') i TP_STATUS_KERNEL ∧ only_frame i (ring_ s) (ring_ s') ∧
  poller_ s' = PollWait ∧ curr_frame_idx_ s' = (i + 1) mod RX_FRAME_NR ∧
  total_packets_ s' = u64 (total_packets_ s + 1) ∧ handler_ s' = h ∧
  handled_ s' = handled_ s ++ [block].

Section Turn.
Variables (s : Receiver (H := H)) (mac : Z) (pkt : list Z) (h' : H).

Hypothesis (Hok : ring_ok (ring_ s)) (Hi : 0 ≤ curr_frame_idx_ s < RX_FRAME_NR).

Lemma packet_wait v : poller_ s = PollWait → status_at (ring_ s) (curr_frame_idx_ s) v → 0 ≤ v < 2 ^ 32 →
  poll_packet_step s = (Ok tt, if Z.land v TP_STATUS_USER =? 0 then s else set_poller PollParse s).
Proof using.
  clear Hok Hi. intros Hpc Hs Hv. unfold poll_packet_step. mstep (eq_refl (get_state s)). rewrite Hpc.
  mstep (on_ring_run _ s _ _ (load_status _ _ _ Hs Hv)). rewrite set_ring_id.
  by destruct (Z.land v TP_STATUS_USER =? 0).
Qed.

Lemma packet_parse : poller_ s = PollParse → (42 ≤ length pkt)%nat →
  holds_packet (ring_ s) (curr_frame_idx_ s) mac pkt →
  handle_block (drop 42 pkt) (handler_ s) = (Ok tt, h') →
  poll_packet_step s = (Ok tt, record_block (drop 42 pkt) (set_handler h' s)).
Proof using.
  clear Hok Hi. intros Hpc Hl Hp Hh. unfold poll_packet_step. mstep (eq_refl (get_state s)). rewrite Hpc.
  mstep (on_ring_run _ s _ _ (packet_block_run _ _ _ _ Hp Hl)). rewrite set_ring_id.
  assert (on_handler (handle_block (drop 42 pkt)) s = (Ok tt, set_handler h' s)) as Eh.
  { unfold on_handler, zoom. by rewrite Hh. }
  by mstep Eh.
Qed.

Lemma packet_release : poller_ s = PollRelease → ∃ r', poll_packet_step s = (Ok tt, next_frame (set_ring r' s)) ∧
  status_at r' (curr_frame_idx_ s) TP_STATUS_KERNEL ∧ only_frame (curr_frame_idx_ s) (ring_ s) r'.
Proof using Hok Hi.
  intros Hpc. destruct (set_status_run _ TP_STATUS_KERNEL _ Hok Hi) as (r' & E & _ & Hst & Ho & _).
  exists r'. split; [|done]. unfold poll_packet_step. mstep (eq_refl (get_state s)). rewrite Hpc.
  by mstep (on_ring_run _ s _ _ E).
Qed.
End Turn.

(** [poll] on a frame the kernel filled: the handler gets the packet from
    byte 42 on, the end of the Ethernet, IP (without options) and UDP headers;
    then the frame goes back to the kernel, no other frame is written, and the
    index and the count advance.  A frame the kernel still owns leaves the
    receiver as it is. *)
Theorem poll_hands_over_packet s mac pkt h' :
  ring_ok (ring_ s) → 0 ≤ curr_frame_idx_ s < RX_FRAME_NR → poller_ s = PollWait →
  (42 ≤ length pkt)%nat → holds_packet (ring_ s) (curr_frame_idx_ s) mac pkt →
  handle_block (drop 42 pkt) (handler_ s) = (Ok tt, h') →
  (status_at (ring_ s) (curr_frame_idx_ s) TP_STATUS_USER →
     ∃ s', poll_packet s = (Ok tt, s') ∧ polled s s' (drop 42 pkt) h') ∧
  (status_at (ring_ s) (curr_frame_idx_ s) TP_STATUS_KERNEL → poll_packet_step s = (Ok tt, s)).
Proof.
  intros Hok Hi Hpc Hl Hp Hh. split; intros Hs; [|by rewrite (packet_wait _ _ Hpc Hs)].
  unfold poll_packet. mstep (packet_wait _ _ Hpc Hs ltac:(done)).
  mstep (packet_parse (set_poller PollParse s) mac pkt h' eq_refl Hl Hp Hh).
  destruct (packet_release (record_block (drop 42 pkt) (set_handler h' (set_poller PollParse s))) Hok Hi eq_refl)
    as (r' & E & Hst & Ho).
  rewrite E. eexists. split; [done|]. by split_and!.
Qed.
End Poll.

(** * A datagram with Ethernet padding *)

(** The minimum of an Ethernet frame, without its checksum: a shorter packet
    is padded with zeros, which the captured length counts. *)
Definition ETH_ZLEN : nat := 60.

Definition pad_frame (pkt : list Z) : list Z := pkt ++ replicate (ETH_ZLEN - length pkt) 0.

(** Non-termination: [poll] takes the length of the block from
    [tp_snaplen], not from the UDP header.  A datagram with a message of 12
    bytes (a system event, for one) is shorter than the minimum of Ethernet;
    its padding is given to the parser, which takes the first zero for a
    message of no length and never returns. *)
Theorem padded_datagram_diverges Size tsc r i mac headers c body p :
  length headers = 42%nat → message_length c = Some 12 → length (c :: body) = 12%nat →
  holds_packet r i mac (pad_frame (headers ++ c :: body)) → live_log (logger_ p) →
  ∃ block, packet_block (i * RX_FRAME_SIZE) r = (Ok block, r) ∧
    ∀ fuel, (parse_block Size tsc fuel block p).1 = OutOfFuel.
Proof.
  intros Hh Hc Hb Hp Hlive. eexists. split.
  { apply (packet_block_run _ _ _ _ Hp). unfold pad_frame. rewrite !length_app. lia. }
  unfold pad_frame. rewrite <- app_assoc, <- Hh, drop_app_length, length_app, Hh, Hb.
  intros [|fuel]; [done|]. change (ETH_ZLEN - (42 + 12))%nat with 6%nat.
  cbn [app parse_block]. rewrite Hc. cbn [of_option]. rewrite bind_mret.
  assert (c ≠ char_A ∧ c ≠ char_E ∧ c ≠ char_X) as (HA & HE & HX)
    by (split_and!; intros ->; by vm_compute in Hc).
  rewrite (proj2 (Z.eqb_neq _ _) HA), (proj2 (Z.eqb_neq _ _) HE), (proj2 (Z.eqb_neq _ _) HX).
  rewrite (proj2 (Z.ltb_ge _ 12)) by (cbn [length] in *; rewrite length_app; lia).
  destruct (log_payload_live tsc (c :: body ++ replicate 6 0) (Z.to_nat 12) char_minus p Hlive)
    as (p' & Hrun & Hlive'); [lia|cbn [length] in *; rewrite length_app; lia|].
  mstep Hrun. change (Z.to_nat 12) with 12%nat. rewrite <- Hb, app_comm_cons, drop_app_length.
  by apply zero_length_diverges.
Qed.

(** * Witnesses *)

Definition sample_headers : list Z :=
  replicate 12 0 ++ [8; 0] ++ [69; 0; 0; 40; 0; 0; 0; 0; 64; 17; 0; 0] ++ replicate 8 0 ++
  [0; 9; 227; 250; 0; 20; 0; 0].

Definition sample_packet : list Z := pad_frame (sample_headers ++ 83 :: replicate 11 7).

(** The first frame of a ring as the kernel fills it, the packet at byte 66. *)
Definition sample_ring : array Z :=
  let fill r '(off, l) := default r (write_bytes r off l) in
  fold_left fill [(0, le_bytes 4 TP_STATUS_USER); (off_tp_snaplen, le_bytes 4 60);
                  (off_tp_net, le_bytes 2 80); (66, sample_packet)]
    (anew (RX_BLOCK_SIZE * RX_BLOCK_NR) 0).

Lemma sample_ring_holds : holds_packet sample_ring 0 66 sample_packet.
Proof. constructor; by vm_compute. Qed.

#[local] Instance length_handler : BlockHandler Z := λ block n, (Ok tt, n + Z.of_nat (length block)).

Lemma poll_hands_over_packet_witness :
  let s := mkReceiver sample_ring SimDone [] 0 PollWait 0 0 (0 : Z) [] in
  feed_packet sample_packet = true ∧
  ∃ s', poll_packet s = (Ok tt, s') ∧ handled_ s' = [83 :: replicate 11 7 ++ replicate 6 0] ∧
        total_packets_ s' = 1.
Proof.
  split; [by vm_compute|].
  destruct (poll_hands_over_packet (mkReceiver sample_ring SimDone [] 0 PollWait 0 0 (0 : Z) []) 66 sample_packet 18)
    as [(s' & E & _ & _ & _ & _ & Ht & _ & Hd) _]; [by vm_compute|by vm_compute|done|apply Nat.leb_le; reflexivity
    |exact sample_ring_holds|by vm_compute|by vm_compute|].
  exists s'. split_and!; [exact E|exact Hd|exact Ht].
Defined.

Lemma padded_datagram_diverges_witness :
  let p := ItchParser_new (SPSCQueue_new (2 ^ 1) (NCancel (mkCancelOrder 0 0 0 0 0)))
             (mkLogger (Some (anew FILE_SIZE 0)) 0) in
  feed_packet sample_packet = true ∧
  ∃ block, packet_block (0 * RX_FRAME_SIZE) sample_ring = (Ok block, sample_ring) ∧
           (parse_block (2 ^ 1) (λ n, n) 1000 block p).1 = OutOfFuel.
Proof.
  split; [by vm_compute|].
  destruct (padded_datagram_diverges (2 ^ 1) (λ n, n) sample_ring 0 66 sample_headers 83 (replicate 11 7)
    (ItchParser_new (SPSCQueue_new (2 ^ 1) (NCancel (mkCancelOrder 0 0 0 0 0)))
       (mkLogger (Some (anew FILE_SIZE 0)) 0))) as (block & E & Hd);
    [reflexivity|reflexivity|reflexivity|exact sample_ring_holds| |].
  - exists (anew FILE_SIZE 0). split_and!; by vm_compute.
  - exists block. split; [exact E|exact (Hd 1000%nat)].
Defined.
