(* ===== verification/Statistics.v ===== *)
(** The statistics threads of src/src/network/MulticastReceiver.h:
    [print_statistics_mock_mode] beside the two threads of the packet ring, and
    [print_statistics] of real mode beside the kernel.

    It shares one word with them, [total_packets], which it exchanges with 0
    and prints, once a second; the other threads only add to it.  Both are
    atomic read-modify-writes (relaxed), so every schedule of the three
    threads is an interleaving of their steps. *)

From S2P Require Import Prelude Interfaces MulticastReceiver.

Section Statistics.
Context {H : Type} `{!BlockHandler H}.
Abbreviation Receiver := (Receiver (H := H)).

(** The receiver and the numbers printed so far. *)
Record Watched : Type := mkWatched { receiver : Receiver; printed : list Z }.

Definition set_total (n : Z) (s : Receiver) : Receiver :=
  mkReceiver (ring_ s) (simulator_ s) (data_ s) (frame_idx_ s) (poller_ s) (curr_frame_idx_ s) n
    (handler_ s) (handled_ s).

(** One turn of the loop: [total_packets.exchange(0)], and the line. *)
Definition print_statistics_mock_mode : M Watched unit :=
  packets_per_second ← gets (λ w, total_packets_ (receiver w));
  modify (λ w, mkWatched (set_total 0 (receiver w)) (printed w ++ [packets_per_second])).

(** A step of one of the ring's threads, or ([None]) of the statistics. *)
Definition watched_step (t : option thread) : M Watched unit :=
  match t with
  | Some t => zoom receiver (λ s w, mkWatched s (printed w)) (thread_step t)
  | None => print_statistics_mock_mode
  end.

Fixpoint run_watched (ts : list (option thread)) : M Watched unit :=
  match ts with
  | [] => mret tt
  | t :: ts' => watched_step t;; run_watched ts'
  end.

Definition Zsum (l : list Z) : Z := foldr Z.add 0 l.

Lemma Zsum_app l1 l2 : Zsum (l1 ++ l2) = Zsum l1 + Zsum l2.
Proof. induction l1 as [|x l1 IH]; simpl; [done|]. rewrite IH. lia. Qed.

(** A step reads the count only to add 1 to it. *)
Lemma thread_step_total t n s : ∃ o s', thread_step t s = (o, s') ∧
  (thread_step t (set_total n s) = (o, set_total n s') ∧ total_packets_ s' = total_packets_ s ∨
   thread_step t (set_total n s) = (o, set_total (u64 (n + 1)) s') ∧
     total_packets_ s' = u64 (total_packets_ s + 1)).
Proof.
  destruct s as [r pc d i ppc ci tp h hd].
  destruct t; unfold thread_step, simulate_step, poll_step, on_ring, on_handler, set_total; munfold;
    cbn [ring_ simulator_ data_ frame_idx_ poller_ curr_frame_idx_ handler_ handled_ total_packets_].
  - repeat (case_match; cbn [ring_ handler_ set_ring]); try congruence; simplify_eq; cbn; eauto 8.
  - repeat (case_match; cbn [ring_ handler_ set_ring] in *; simplify_eq); try congruence; simplify_eq; cbn; eauto 8.
Qed.

(** The watched receiver is the unwatched one but for the count, of which the
    printed numbers are the rest. *)
Definition watches (w : Watched) (s : Receiver) : Prop :=
  set_total 0 (receiver w) = set_total 0 s ∧
  u64 (Zsum (printed w) + total_packets_ (receiver w)) = total_packets_ s.

Lemma set_total_of w s : watches w s → receiver w = set_total (total_packets_ (receiver w)) s.
Proof. intros [E _]. destruct w as [[] ?], s. injection E as -> -> -> -> -> -> -> ->. done. Qed.

Lemma u64_add a b : u64 (u64 a + b) = u64 (a + b).
Proof. unfold u64, uwrap. apply Zplus_mod_idemp_l. Qed.

Lemma watched_thread_step t w s : watches w s → ∃ o w' s',
  watched_step (Some t) w = (o, w') ∧ thread_step t s = (o, s') ∧ watches w' s'.
Proof.
  intros Hw. pose proof (set_total_of w s Hw) as E. destruct Hw as [_ Hc], w as [sw l].
  cbn [receiver printed] in *. unfold watched_step, zoom. cbn [receiver]. rewrite E.
  destruct (thread_step_total t (total_packets_ sw) s) as (o & s' & Es & [[-> Ht]|[-> Ht]]);
    exists o; eexists; exists s'; (split_and!; [done|done|]); (split; [by destruct s'|]);
    cbn [receiver printed total_packets_ set_total]; rewrite Ht, <- Hc; [done|].
  rewrite u64_add, (Z.add_comm (Zsum l)), u64_add. f_equal. lia.
Qed.

Lemma statistics_step w s : watches w s → ∃ w', watched_step None w = (Ok tt, w') ∧ watches w' s.
Proof.
  intros [E Hc]. eexists. split; [done|]. split; [exact E|]. rewrite <- Hc. destruct w as [sw l].
  cbn [receiver printed total_packets_ set_total]. rewrite Zsum_app. simpl. f_equal. lia.
Qed.

Lemma run_watched_spec ts w s : watches w s → ∃ o w' s',
  run_watched ts w = (o, w') ∧ run_schedule (omap id ts) s = (o, s') ∧ watches w' s'.
Proof.
  revert w s. induction ts as [|[t|] ts IH]; intros w s Hw; [by exists (Ok tt), w, s| |].
  - destruct (watched_thread_step t w s Hw) as (o & w1 & s1 & E1 & E2 & H1).
    cbn [run_watched omap list_omap id run_schedule]. change (omap id (Some t :: ts)) with (t :: omap id ts).
    cbn [run_schedule]. destruct o as [[]| | |]; mstep E1; mstep E2; [by apply IH|by eauto 8..].
  - destruct (statistics_step w s Hw) as (w1 & E1 & H1). cbn [run_watched]. mstep E1.
    change (omap id (None :: ts)) with (omap (M := list) (@id (option thread)) ts). by apply IH.
Qed.

(** The statistics thread does not disturb the receiver and loses no
    packet: in every interleaving of the three threads the ring's threads do
    what they do without it, and the numbers it has printed and the count
    still to be printed add up to the number of packets polled (mod 2^64). *)
Theorem statistics_transparent ts s : 0 ≤ total_packets_ s < 2 ^ 64 →
  let '(o, w) := run_watched ts (mkWatched s []) in
  let '(o', s') := run_schedule (omap id ts) s in
  o = o' ∧ set_total 0 (receiver w) = set_total 0 s' ∧
  u64 (Zsum (printed w) + total_packets_ (receiver w)) = total_packets_ s'.
Proof.
  intros Ht. destruct (run_watched_spec ts (mkWatched s []) s) as (o & w & s' & -> & -> & Hw); [|by split].
  split; [done|]. cbn. unfold u64. apply uwrap_id. exact Ht.
Qed.
End Statistics.

#[local] Instance byte_counter : BlockHandler Z := λ block n, (Ok tt, n + Z.of_nat (length block)).

(** Nothing counted since the last line: the lines hold the whole count. *)
Lemma lines_hold_count {H} (r : outcome unit * Watched (H := H)) (r' : outcome unit * Receiver (H := H)) :
  (let '(o, w) := r in let '(o', s') := r' in
   o = o' ∧ set_total 0 (receiver w) = set_total 0 s' ∧
   u64 (Zsum (printed w) + total_packets_ (receiver w)) = total_packets_ s') →
  total_packets_ (receiver r.2) = 0 → in_range 64 (Zsum (printed r.2)) →
  Zsum (printed r.2) = total_packets_ r'.2.
Proof.
  destruct r as [o w], r' as [o' s']. cbn [snd]. intros (_ & _ & <-) -> Hr.
  rewrite Z.add_0_r. symmetry. by apply uwrap_id.
Qed.

Definition sample_receiver : Receiver (H := Z) :=
  mkReceiver (anew (RX_BLOCK_SIZE * RX_BLOCK_NR) 0) SimHead sample_file 0 PollWait 0 0 0 [].

(** A line printed in the middle of the sample file and one after it. *)
Definition sample_watch : list (option thread) :=
  concat (replicate 10 [Some Simulator; Some Poller]) ++ [None] ++
  concat (replicate 12 [Some Simulator; Some Poller]) ++ [None].

Lemma statistics_transparent_witness :
  MulticastReceiver_new 0 true true sample_file = Ok sample_receiver ∧
  (run_watched sample_watch (mkWatched sample_receiver [])).1 = Ok tt ∧
  total_packets_ (run_schedule (omap id sample_watch) sample_receiver).2 = 3 ∧
  Zsum (printed (run_watched sample_watch (mkWatched sample_receiver [])).2) =
    total_packets_ (run_schedule (omap id sample_watch) sample_receiver).2.
Proof.
  split; [reflexivity|]. split; [by vm_compute|]. split; [by vm_compute|].
  apply lines_hold_count; [|by vm_compute|by vm_compute].
  apply statistics_transparent. by vm_compute.
Defined.

(** * Real mode *)

(** The counters the kernel keeps for the socket; [getsockopt] with
    PACKET_STATISTICS returns and clears them (packet(7)). *)
Record PacketStats : Type := mkStats { tp_packets : Z; tp_drops : Z }.

Inductive stats_event : Type :=
| Arrived (dropped : bool)          (** the kernel sees a packet *)
| Turn (getsockopt_ok : bool).      (** a turn of the statistics thread *)

Record RealStats : Type := mkRealStats {
  kernel_stats : PacketStats;
  stat_lines : list (Z * Z);
  stat_running : bool
}.

(** [%d] of an unsigned int. *)
Definition as_int (n : Z) : Z := if n <? 2 ^ 31 then n else n - 2 ^ 32.

Definition count_packet (dropped : bool) (k : PacketStats) : PacketStats :=
  mkStats (u32 (tp_packets k + 1)) (if dropped then u32 (tp_drops k + 1) else tp_drops k).

(** The loop of [print_statistics]: a failed call ends the thread. *)
Definition print_statistics (getsockopt_ok : bool) : M RealStats unit :=
  s ← get_state;
  if negb (stat_running s) then mret tt
  else if getsockopt_ok then
    let stats := kernel_stats s in
    put_state (mkRealStats (mkStats 0 0)
      (stat_lines s ++ [(as_int (tp_packets stats), as_int (tp_drops stats))]) true)
  else put_state (mkRealStats (kernel_stats s) (stat_lines s) false).

Definition stats_step (ev : stats_event) : M RealStats unit :=
  match ev with
  | Arrived dropped => modify (λ s, mkRealStats (count_packet dropped (kernel_stats s)) (stat_lines s) (stat_running s))
  | Turn ok => print_statistics ok
  end.

Fixpoint run_stats (evs : list stats_event) : M RealStats unit :=
  match evs with
  | [] => mret tt
  | ev :: evs' => stats_step ev;; run_stats evs'
  end.

Fixpoint arrived (evs : list stats_event) : Z :=
  match evs with [] => 0 | Arrived _ :: evs' => 1 + arrived evs' | _ :: evs' => arrived evs' end.
Fixpoint lost (evs : list stats_event) : Z :=
  match evs with [] => 0 | Arrived true :: evs' => 1 + lost evs' | _ :: evs' => lost evs' end.

Lemma arrived_nonneg evs : 0 ≤ arrived evs.
Proof. induction evs as [|[] evs IH]; cbn [arrived]; lia. Qed.

(** The packets and drops printed or still to be printed. *)
Definition seen (s : RealStats) : Z := Zsum (fst <$> stat_lines s) + tp_packets (kernel_stats s).
Definition seen_drops (s : RealStats) : Z := Zsum (snd <$> stat_lines s) + tp_drops (kernel_stats s).

Lemma as_int_id n : n < 2 ^ 31 → as_int n = n.
Proof. intros Hn. unfold as_int. by rewrite (proj2 (Z.ltb_lt _ _) Hn). Qed.

Lemma stats_step_ok ev s : 0 ≤ tp_drops (kernel_stats s) ≤ tp_packets (kernel_stats s) →
  tp_packets (kernel_stats s) + arrived [ev] < 2 ^ 31 →
  ∃ s', stats_step ev s = (Ok tt, s') ∧ 0 ≤ tp_drops (kernel_stats s') ≤ tp_packets (kernel_stats s') ∧
    tp_packets (kernel_stats s') ≤ tp_packets (kernel_stats s) + arrived [ev] ∧
    seen s' = seen s + arrived [ev] ∧ seen_drops s' = seen_drops s + lost [ev].
Proof.
  destruct s as [[p d] ls run]. unfold seen, seen_drops.
  cbn [kernel_stats stat_lines tp_packets tp_drops]. intros Hd Hb. destruct ev as [dr|ok].
  - cbn [arrived] in Hb. eexists. split; [reflexivity|].
    cbn [kernel_stats stat_lines tp_packets tp_drops count_packet arrived lost]. unfold u32.
    rewrite (uwrap_id 32 (p + 1)) by (unfold in_range; lia).
    destruct dr; rewrite ?(uwrap_id 32 (d + 1)) by (unfold in_range; lia); lia.
  - cbn [stats_step arrived lost] in *. unfold print_statistics. munfold. cbn [stat_running kernel_stats stat_lines].
    destruct run; cbn [negb]; [destruct ok|]; (eexists; split; [reflexivity|]);
      cbn [kernel_stats stat_lines tp_packets tp_drops]; [|lia..].
    rewrite !fmap_app, !Zsum_app. cbn [fmap list_fmap fst snd]. rewrite !as_int_id by lia. cbn [Zsum foldr]. lia.
Qed.

Lemma counts_cons ev evs : arrived (ev :: evs) = arrived [ev] + arrived evs ∧ lost (ev :: evs) = lost [ev] + lost evs.
Proof. destruct ev as [[]|]; cbn [arrived lost]; lia. Qed.

(** The lines of real mode account for every packet: as long as fewer than
    2^31 packets arrive in all, what has been printed and what the kernel still
    keeps are together the packets that arrived and those that were dropped,
    also after a failed call has ended the thread. *)
Theorem real_statistics_complete evs s : 0 ≤ tp_drops (kernel_stats s) ≤ tp_packets (kernel_stats s) →
  tp_packets (kernel_stats s) + arrived evs < 2 ^ 31 →
  ∃ s', run_stats evs s = (Ok tt, s') ∧ seen s' = seen s + arrived evs ∧ seen_drops s' = seen_drops s + lost evs.
Proof.
  revert s. induction evs as [|ev evs IH]; intros s Hd Hb; [exists s; cbn [arrived lost]; split_and!; [done|lia|lia]|].
  destruct (counts_cons ev evs) as [Ha Hl]. rewrite Ha in Hb. pose proof (arrived_nonneg evs).
  destruct (stats_step_ok ev s Hd) as (s1 & E & Hd1 & Hp1 & H1 & H2); [lia|].
  destruct (IH s1 Hd1 ltac:(lia)) as (s' & E' & H1' & H2'). exists s'. cbn [run_stats]. mstep E.
  split_and!; [done|lia|lia].
Qed.
