(* ===== verification/MockProgram.v ===== *)
(** The whole program in mock mode ([run_mock_mode] of src/src/main.cpp): the
    five threads over their shared state.

    - [RingThread Simulator]: [simulate_packets] fills the packet ring;
    - [RingThread Poller]: [poll_simulation], the main thread, takes the
      frames out of the ring and runs the parser on them, which writes the log
      and pushes the orders;
    - [Consume]: an iteration of [consume] pops an order, applies it to the
      book and records its measurements;
    - [LogTelemetry]: a step of [log_telemetry];
    - [PrintStatistics]: a turn of [print_statistics_mock_mode].

    A frame holds one message, so a step of the poller pushes at most one
    order; a push and a pop are single steps here, and are interleaved access by
    access in SPSCQueue.v and LivePipeline.v.  An exception of a thread ends
    the program. *)

From S2P Require Import Prelude Interfaces HierarchicalBitset StaticOrderMap SPSCQueue ItchOrderTypes LimitOrderBook MockOrderBook BookTheorems Crc32 MmapLogger ItchParser ParserTheorems RecoveryEngine MulticastReceiver Pipeline Telemetry Statistics.

Section Program.
Context (e : Z) (tsc : Z → Z) (hw : bool).
#[local] Abbreviation Size := (2 ^ e).

(** [handler_.parse_block(payload_ptr, payload_length)]. *)
#[local] Instance parser_handler : BlockHandler ItchParser :=
  λ payload, parse_block Size tsc (S (length payload)) payload.

(** The objects of [run_mock_mode] and [consume]: the receiver refers to the
    parser, which refers to the log and the queue. *)
Record Program : Type := mkProgram {
  p_watched : Watched (H := ItchParser);
  p_book : Book;
  p_telemetry : Telemetry;
  p_lines : list Line
}.

Definition p_receiver (P : Program) : Receiver (H := ItchParser) := receiver (p_watched P).
Definition p_parser (P : Program) : ItchParser := handler_ (p_receiver P).

Definition set_watched (w : Watched) (P : Program) : Program :=
  mkProgram w (p_book P) (p_telemetry P) (p_lines P).
Definition set_telemetry (t : Telemetry) (P : Program) : Program :=
  mkProgram (p_watched P) (p_book P) t (p_lines P).

(** What [consume] sees; the queue is the one the parser pushes to. *)
Definition consumer_of (P : Program) : Consumer :=
  mkConsumer (queue_ (p_parser P)) (p_book P) (p_telemetry P) (p_lines P).
Definition set_consumer (c : Consumer) (P : Program) : Program :=
  mkProgram (mkWatched (set_handler (set_queue (c_queue c) (p_parser P)) (p_receiver P))
               (printed (p_watched P)))
    (c_book c) (c_telemetry c) (c_printed c).

Inductive program_thread : Type :=
| RingThread (t : thread)
| Consume (rd : Readings)
| LogTelemetry
| PrintStatistics.

Definition program_step (t : program_thread) : M Program unit :=
  match t with
  | RingThread t => zoom p_watched set_watched (watched_step (Some t))
  | PrintStatistics => zoom p_watched set_watched (watched_step None)
  | Consume rd =>
      zoom consumer_of set_consumer (consume_iteration TELEMETRY_BUFFER_SIZE Size hw rd)
  | LogTelemetry => zoom p_telemetry set_telemetry (log_step TELEMETRY_BUFFER_SIZE)
  end.

Fixpoint run_program (ts : list program_thread) : M Program unit :=
  match ts with
  | [] => mret tt
  | t :: ts' => program_step t;; run_program ts'
  end.

(** [run_mock_mode] before its threads start, on a file. *)
Definition run_mock_mode (lg : MmapLogger) (d : NormalizedOrder) (b : Book) (file : list Z)
    : outcome Program :=
  match MulticastReceiver_new (ItchParser_new (SPSCQueue_new Size d) lg) true true file with
  | Ok s => Ok (mkProgram (mkWatched s []) b (Telemetry_new TELEMETRY_BUFFER_SIZE) [])
  | Throw ex => Throw ex
  | UB => UB
  | OutOfFuel => OutOfFuel
  end.

(** The schedules in which the consumer keeps up: the queue has room whenever
    the parser is called. *)
Definition has_room (P : Program) : bool :=
  bool_decide ((push Size (NCancel (mkCancelOrder 0 0 0 0 0)) (queue_ (p_parser P))).1 = Ok true).

Definition room_for (t : program_thread) (P : Program) : bool :=
  match t with
  | RingThread Poller =>
      match poller_ (p_receiver P) with PollParse => has_room P | _ => true end
  | _ => true
  end.

Fixpoint consumer_keeps_up (ts : list program_thread) (P : Program) : bool :=
  match ts with
  | [] => true
  | t :: ts' =>
      room_for t P &&
      match program_step t P with (Ok _, P') => consumer_keeps_up ts' P' | _ => true end
  end.

(** The counters the consumer reads are scheduled. *)
Definition readings_ready (t : program_thread) : bool :=
  match t with Consume rd => counters_ready hw rd | _ => true end.

Definition ring_thread (t : program_thread) : option thread :=
  match t with RingThread t => Some t | _ => None end.

(** * An iteration of [consume] *)

(** What becomes of the book when the first order of the queue is applied. *)
Definition consumed (queued : list NormalizedOrder) (b : Book) (o : outcome unit) (b' : Book) : Prop :=
  match queued with [] => o = Ok tt ∧ b' = b | x :: _ => dispatch x b = (o, b') end.

Lemma plain_iteration q b queued : queue_rep Size q queued →
  ∃ q' b' o, plain_loop Size 1 (q, b) = (o, (q', b')) ∧ queue_rep Size q' (list.tail queued) ∧
    consumed queued b o b'.
Proof.
  intros Hq. destruct (pop_rep Size q queued Hq) as (q' & E & Hq'). cbn [plain_loop].
  unfold mbind, M_bind, zoom. cbn [fst snd]. rewrite E. destruct queued as [|x queued]; cbn [hd_error].
  - by exists q', b, (Ok tt).
  - cbn [fst snd]. destruct (dispatch x b) as [o b'] eqn:Ed. exists q', b', o.
    split_and!; [|done|done]. by destruct o as [[]| | |].
Qed.

Lemma consume_iteration_run rd c queued : telemetry_ok TELEMETRY_BUFFER_SIZE (c_telemetry c) →
  counters_ready hw rd = true → queue_rep Size (c_queue c) queued → (length (c_printed c) ≤ 10)%nat →
  ∃ o q' b' t' l, consume_iteration TELEMETRY_BUFFER_SIZE Size hw rd c = (o, mkConsumer q' b' t' l) ∧
    queue_rep Size q' (list.tail queued) ∧ telemetry_ok TELEMETRY_BUFFER_SIZE t' ∧ (length l ≤ 10)%nat ∧
    consumed queued (c_book c) o b'.
Proof.
  intros Ht Hrd Hq Hlines.
  destruct (consume_iteration_plain TELEMETRY_BUFFER_SIZE buffer_size_16384 Size hw rd c Ht Hrd)
    as (t' & l & Ht' & [_ Hl] & Hrun). cbv zeta in Hrun.
  destruct (plain_iteration (c_queue c) (c_book c) queued Hq) as (q' & b' & o & Hplain & Hq' & Ho).
  rewrite Hplain in Hrun. cbn [fst snd] in Hrun. exists o, q', b', t', l. split_and!; try done. by apply Hl.
Qed.

Lemma consumed_orders popped queued b0 b o b' : apply_orders popped b0 = (Ok tt, b) →
  consumed queued b o b' → apply_orders (popped ++ take 1 queued) b0 = (o, b').
Proof.
  intros Hb. destruct queued as [|x queued]; cbn [consumed take].
  - intros [-> ->]. by rewrite app_nil_r.
  - intros Hd. by rewrite (apply_orders_snoc _ _ _ _ Hb).
Qed.

Lemma take_1_tail (popped queued : list NormalizedOrder) :
  (popped ++ take 1 queued) ++ list.tail queued = popped ++ queued.
Proof. rewrite <- app_assoc. f_equal. by destruct queued. Qed.

(** * A message goes through the parser *)

Lemma enqueue_message queued m :
  enqueue_all e queued (omap decode [m]) `sublist_of` queued ++ omap decode [m] ∧
  (Z.of_nat (length queued) < Size - 1 → enqueue_all e queued (omap decode [m]) = queued ++ omap decode [m]).
Proof.
  cbn [omap list_omap]. unfold enqueue_all. destruct (decode m) as [o|]; cbn [fold_left]; [|by rewrite app_nil_r].
  unfold enqueue. destruct (Z.ltb_spec (Z.of_nat (length queued)) (Size - 1)); [done|].
  split; [by apply sublist_inserts_r|lia].
Qed.

Lemma frames_of_handled l m : message_frames tsc 0 (l ++ [m]) =
  message_frames tsc 0 l ++ message_frames tsc (length (message_frames tsc 0 l)) [m].
Proof. by rewrite message_frames_app, length_message_frames. Qed.

Lemma omap_snoc l (m : list Z) : omap decode (l ++ [m]) = omap decode l ++ omap decode [m].
Proof. apply omap_app. Qed.

(** * The ring without its handler *)

(** The threads of the ring behave as with a handler that does nothing. *)
#[local] Instance null_handler : BlockHandler unit := λ _ _, (Ok tt, tt).

Definition with_handler (h : ItchParser) (n : Z) (s : Receiver (H := unit)) : Receiver (H := ItchParser) :=
  mkReceiver (ring_ s) (simulator_ s) (data_ s) (frame_idx_ s) (poller_ s) (curr_frame_idx_ s) n h (handled_ s).

(** The count: unchanged, or one more. *)
Definition counted (s s' : Receiver (H := unit)) (n n' : Z) : Prop :=
  n' = n ∧ total_packets_ s' = total_packets_ s ∨
  n' = u64 (n + 1) ∧ total_packets_ s' = u64 (total_packets_ s + 1).

Lemma shadow_step t h n s s' : thread_step t s = (Ok tt, s') →
  ∃ n', counted s s' n n' ∧
    (handled_ s' = handled_ s ∧ thread_step t (with_handler h n s) = (Ok tt, with_handler h n' s') ∨
     ∃ block, t = Poller ∧ poller_ s = PollParse ∧ handled_ s' = handled_ s ++ [block] ∧
       ∀ h', handle_block block h = (Ok tt, h') →
         thread_step t (with_handler h n s) = (Ok tt, with_handler h' n' s')).
Proof.
  unfold counted. destruct s as [r pc d i ppc ci tp [] hd].
  destruct t; unfold thread_step, simulate_step, poll_step, on_ring, on_handler, with_handler; munfold;
    cbn [ring_ simulator_ data_ frame_idx_ poller_ curr_frame_idx_ handler_ handled_ total_packets_].
  - intros Hs. exists n.
    repeat (case_match; cbn [ring_ handler_ set_ring] in *; simplify_eq); try congruence; cbn; eauto 8.
  - destruct ppc.
    + intros Hs. exists n.
      repeat (case_match; cbn [ring_ handler_ set_ring] in *; simplify_eq); try congruence; cbn; eauto 8.
    + unfold handle_block at 1, null_handler. cbn.
      destruct (frame_block (ci * RX_FRAME_SIZE) r) as [[block| | |] r']; cbn; intros Hs; simplify_eq.
      exists n. cbn. split; [by left|]. right. exists block. split_and!; [done..|].
      intros h' Eh. by rewrite Eh.
    + cbn. destruct (ring_store (ci * RX_FRAME_SIZE + off_tp_status) 4 TP_STATUS_KERNEL r)
        as [[[]| | |] r']; cbn; intros Hs; simplify_eq. eexists. cbn. split; [by right|]. by left.
Qed.

(** * The invariant *)

Section Invariant.
Context (ms : list (list Z)) (b0 : Book).
Hypothesis He : 1 ≤ e ≤ 63.
Hypothesis Hwhole : Forall (λ m, whole_message m = true) ms.
Hypothesis Hbytes : Forall (Forall is_byte) ms.
Hypothesis Hroom : 64 * Z.of_nat (length ms) + 2 ≤ FILE_SIZE.
Implicit Types (s : Receiver (H := unit)).

(** The receiver [w] is [s] but for its handler and its count, of which the
    statistics have printed a part. *)
Definition shadows (w : Watched (H := ItchParser)) s : Prop :=
  receiver w = with_handler (handler_ (receiver w)) (total_packets_ (receiver w)) s ∧
  u64 (Zsum (printed w) + total_packets_ (receiver w)) = total_packets_ s.

(** [popped] has been applied to the book with the outcome [o], [queued] is in
    the queue; nothing else was pushed, and nothing is missing if the queue
    always had room. *)
Record program_ok (o : outcome unit) (kept : bool) (P : Program) s (popped queued : list NormalizedOrder)
    : Prop := {
  po_ring : ∃ p c, receiver_ok tt ms s p c;
  po_shadow : shadows (p_watched P) s;
  po_parser : parser_rep e (p_parser P) (message_frames tsc 0 (handled_ s))
    (fold_left (λ _ m, overrun m) (handled_ s) 0) queued;
  po_book : apply_orders popped b0 = (o, p_book P);
  po_orders : popped ++ queued `sublist_of` omap decode (handled_ s);
  po_kept : kept = true → popped ++ queued = omap decode (handled_ s);
  po_telemetry : telemetry_ok TELEMETRY_BUFFER_SIZE (p_telemetry P);
  po_lines : (length (p_lines P) ≤ 10)%nat
}.

Lemma ring_fits : Forall fits ms.
Proof. eapply Forall_impl; [exact Hwhole|apply whole_message_fits]. Qed.

Lemma null_handles (l : list (list Z)) : handle_blocks l tt = (Ok tt, tt).
Proof. induction l as [|m l IH]; [done|]. cbn [handle_blocks]. unfold handle_block, null_handler. munfold. exact IH. Qed.

Lemma handled_prefix s p c : receiver_ok tt ms s p c → ∃ k, (k ≤ length ms)%nat ∧ handled_ s = take k ms.
Proof.
  intros R. pose proof (ro_poller _ _ _ _ _ R) as Hp. destruct (ro_window _ _ _ _ _ R) as [Hw Hl].
  unfold poller_ok in Hp. destruct (poller_ s); [exists c; split; [lia|done]|..];
    destruct Hp as [Hh ?]; [exists c|exists (S c)]; (split; [lia|done]).
Qed.

(** The counts of the ring and of its shadow go together. *)
Lemma shadows_counted w s s' h n' : shadows w s → counted s s' (total_packets_ (receiver w)) n' →
  shadows (mkWatched (with_handler h n' s') (printed w)) s'.
Proof.
  intros [_ Hc] Hn. split; [done|]. cbn [receiver printed total_packets_ with_handler].
  destruct Hn as [[-> ->]|[-> ->]]; [done|]. rewrite <- Hc, (Z.add_comm (Zsum _)), !u64_add. f_equal. lia.
Qed.

(** ** A message goes through the handler *)

Lemma handle_message m p frames next queued : whole_message m = true → Forall is_byte m →
  64 * Z.of_nat (S (length frames)) + 2 ≤ FILE_SIZE → parser_rep e p frames next queued →
  ∃ p', handle_block m p = (Ok tt, p') ∧
    parser_rep e p' (frames ++ message_frames tsc (length frames) [m]) (overrun m)
      (enqueue_all e queued (omap decode [m])).
Proof.
  intros Hw Hb Hr Hp.
  destruct (parse_block_rep e tsc [m] [] (S (length m)) p frames next queued) as (p' & E & Hp'); try done.
  - by repeat constructor.
  - cbn [concat]. by rewrite !app_nil_r.
  - destruct m; [done|]. cbn [length]. lia.
  - cbn [length]. lia.
  - exists p'. split; [|done]. cbn [concat] in E. by rewrite !app_nil_r in E.
Qed.

Lemma room_length P s popped queued o kept : program_ok o kept P s popped queued → has_room P = true →
  Z.of_nat (length queued) < Size - 1.
Proof.
  intros I Hr. destruct (po_parser _ _ _ _ _ _ I) as (_ & Hq & _). unfold has_room in Hr.
  destruct (push_rep Size _ _ (NCancel (mkCancelOrder 0 0 0 0 0)) Hq) as (q' & E & _).
  rewrite E in Hr. cbn [fst] in Hr. apply bool_decide_eq_true_1 in Hr. injection Hr as Hr. lia.
Qed.

Lemma next_message s' p c l m : receiver_ok tt ms s' p c → handled_ s' = l ++ [m] →
  whole_message m = true ∧ Forall is_byte m ∧ (S (length l) ≤ length ms)%nat.
Proof.
  intros R Hh. destruct (handled_prefix _ _ _ R) as (k & Hk & Hks). rewrite Hks in Hh.
  assert (∀ Q : list Z → Prop, Forall Q ms → Q m) as Hall.
  { intros Q HQ. pose proof (Forall_take Q k ms HQ) as Ht. rewrite Hh in Ht.
    apply Forall_app in Ht as [_ Ht]. by apply Forall_inv in Ht. }
  split_and!; [by apply (Hall (λ m, whole_message m = true))|by apply Hall|].
  apply (f_equal length) in Hh. rewrite length_app, length_take in Hh. cbn in Hh. lia.
Qed.

(** ** The steps *)

(** What a step of the program does to the ring and to the queue. *)
Definition queue_after (t : program_thread) (queued : list NormalizedOrder) : list NormalizedOrder :=
  match t with Consume _ => list.tail queued | _ => queued end.

Definition ring_after (t : program_thread) s s' : Prop :=
  run_schedule (omap ring_thread [t]) s = (Ok tt, s') ∧ (finished ms s → s' = s).

Lemma ring_advances t s p c : receiver_ok tt ms s p c → ∃ s' p' c',
  thread_step t s = (Ok tt, s') ∧ receiver_ok tt ms s' p' c' ∧ ring_after (RingThread t) s s'.
Proof.
  intros R.
  destruct (thread_step_ok tt ms ring_fits tt (null_handles ms) t s p c R) as (s' & p' & c' & E & R' & Hpr).
  exists s', p', c'. split_and!; [done|done|]. split; [change (run_schedule [t] s = (Ok tt, s')); cbn [run_schedule]; by mstep E|].
  intros (F1 & F2 & F3). destruct Hpr as [->|Ha]; [done|].
  unfold advances, work_left, simulator_work, poller_work in Ha. rewrite F1, F2, F3 in Ha. lia.
Qed.

(** A step of the ring outside the handler, and one that handles a message. *)
Lemma quiet_step_ok kept kept' P s s' h n' popped queued : program_ok (Ok tt) kept P s popped queued →
  (∃ p c, receiver_ok tt ms s' p c) → counted s s' (total_packets_ (p_receiver P)) n' →
  handled_ s' = handled_ s → h = p_parser P → (kept' = true → kept = true) →
  program_ok (Ok tt) kept' (set_watched (mkWatched (with_handler h n' s') (printed (p_watched P))) P) s' popped queued.
Proof.
  intros I R' Hn Hh -> Hk. constructor; try apply I; cbn [p_watched set_watched]; rewrite ?Hh; try apply I.
  - exact R'.
  - by eapply shadows_counted; [apply I|].
  - intros Hk'. by apply I, Hk.
Qed.

Lemma message_step_ok kept kept' P s s' n' m popped queued : program_ok (Ok tt) kept P s popped queued →
  (∃ p c, receiver_ok tt ms s' p c) → counted s s' (total_packets_ (p_receiver P)) n' →
  handled_ s' = handled_ s ++ [m] → (kept' = true → kept = true ∧ has_room P = true) →
  ∃ h' queued', handle_block m (p_parser P) = (Ok tt, h') ∧
    program_ok (Ok tt) kept' (set_watched (mkWatched (with_handler h' n' s') (printed (p_watched P))) P) s' popped queued'.
Proof.
  intros I R' Hn Hh Hk. destruct R' as (p & c & R'). destruct (next_message _ _ _ _ _ R' Hh) as (Hw & Hb & Hl).
  edestruct (handle_message m) as (h' & Eh & Hp'); [exact Hw|exact Hb| |apply (po_parser _ _ _ _ _ _ I)|].
  { rewrite length_message_frames. lia. }
  destruct (enqueue_message queued m) as [Hsub Heq].
  exists h', (enqueue_all e queued (omap decode [m])). split; [done|].
  constructor; try apply I; cbn [p_watched set_watched].
  - by exists p, c.
  - by eapply shadows_counted; [apply I|].
  - rewrite Hh, frames_of_handled, fold_left_app. exact Hp'.
  - rewrite Hh, omap_snoc. etrans; [apply sublist_app; [done|exact Hsub]|]. rewrite app_assoc.
    apply sublist_app; [apply I|done].
  - intros [Hkept Hr]%Hk. rewrite (Heq (room_length _ _ _ _ _ _ I Hr)), Hh, omap_snoc, app_assoc. f_equal.
    by apply I.
Qed.

Lemma ring_step_ok t kept P s popped queued : program_ok (Ok tt) kept P s popped queued →
  ∃ P' s' queued', program_step (RingThread t) P = (Ok tt, P') ∧
    program_ok (Ok tt) (kept && room_for (RingThread t) P) P' s' popped queued' ∧
    ring_after (RingThread t) s s' ∧ (handled_ s' = handled_ s → queued' = queued).
Proof.
  intros I. destruct (po_ring _ _ _ _ _ _ I) as (p & c & R).
  destruct (ring_advances t s p c R) as (s' & p' & c' & E & R' & Hafter).
  pose proof (po_shadow _ _ _ _ _ _ I) as [Hw _].
  destruct (shadow_step t (p_parser P) (total_packets_ (p_receiver P)) s s' E) as (n' & Hn & Hcase).
  unfold p_parser, p_receiver in Hcase. rewrite <- Hw in Hcase.
  assert (∀ h', thread_step t (receiver (p_watched P)) = (Ok tt, with_handler h' n' s') →
    program_step (RingThread t) P =
      (Ok tt, set_watched (mkWatched (with_handler h' n' s') (printed (p_watched P))) P)) as Hstep.
  { intros h' Eh. unfold program_step, watched_step, zoom. by rewrite Eh. }
  destruct Hcase as [[Hh Ht]|(m & -> & Hpc & Hh & Ht)].
  - eexists _, s', queued. split; [by apply Hstep|]. split_and!; [|done|done].
    eapply quiet_step_ok; try done; [by exists p', c'|]. by intros [? _]%andb_true_iff.
  - destruct (message_step_ok kept (kept && room_for (RingThread Poller) P) P s s' n' m popped queued I)
      as (h' & queued' & Eh & I'); [by exists p', c'|done|done| |].
    { intros [? Hr]%andb_true_iff. split; [done|]. cbn [room_for] in Hr. unfold p_receiver in Hr.
      rewrite Hw in Hr. cbn [poller_ with_handler] in Hr. by rewrite Hpc in Hr. }
    eexists _, s', queued'. split; [by apply Hstep, Ht|]. split_and!; [done|done|].
    intros Hbad. rewrite Hh in Hbad. apply (f_equal length) in Hbad. rewrite length_app in Hbad. cbn in Hbad. lia.
Qed.

Lemma consume_step_ok rd kept P s popped queued : program_ok (Ok tt) kept P s popped queued →
  readings_ready (Consume rd) = true →
  ∃ o P' popped', program_step (Consume rd) P = (o, P') ∧ program_ok o kept P' s popped' (list.tail queued).
Proof.
  intros I Hrd. pose proof (po_parser _ _ _ _ _ _ I) as (Hlog & Hq & Hseq).
  destruct (consume_iteration_run rd (consumer_of P) queued) as (o & q' & b' & t' & l & Hrun & Hq' & Ht & Hl & Ho);
    [apply I|done|exact Hq|apply I|].
  exists o, (set_consumer (mkConsumer q' b' t' l) P), (popped ++ take 1 queued).
  split; [unfold program_step, zoom; by rewrite Hrun|].
  constructor; rewrite ?take_1_tail; try apply I; try done.
  - destruct (po_shadow _ _ _ _ _ _ I) as [Hw Hc]. split; [|exact Hc].
    cbn [p_watched set_consumer receiver]. unfold p_receiver. rewrite Hw at 1. done.
  - by eapply consumed_orders; [apply I|].
Qed.

Lemma log_telemetry_ok kept P s popped queued : program_ok (Ok tt) kept P s popped queued →
  ∃ P', program_step LogTelemetry P = (Ok tt, P') ∧ program_ok (Ok tt) kept P' s popped queued.
Proof.
  intros I. destruct (log_step_ok TELEMETRY_BUFFER_SIZE buffer_size_16384 (p_telemetry P)) as (t' & E & Ht); [apply I|].
  exists (set_telemetry t' P). split; [unfold program_step, zoom; by rewrite E|].
  constructor; try apply I. exact Ht.
Qed.

Lemma print_statistics_ok kept P s popped queued : program_ok (Ok tt) kept P s popped queued →
  ∃ P', program_step PrintStatistics P = (Ok tt, P') ∧ program_ok (Ok tt) kept P' s popped queued.
Proof.
  intros I. eexists. split; [reflexivity|]. constructor; try apply I.
  destruct (po_shadow _ _ _ _ _ _ I) as [Hw Hc]. split; cbn -[u64 Zsum].
  - rewrite Hw at 1. done.
  - rewrite Zsum_app. cbn [Zsum foldr]. rewrite <- Hc. f_equal. lia.
Qed.

(** Every thread: the invariant is kept, and only the consumer can fail. *)
Lemma program_step_ok t kept P s popped queued : program_ok (Ok tt) kept P s popped queued →
  readings_ready t = true →
  ∃ o P' s' popped' queued', program_step t P = (o, P') ∧
    program_ok o (kept && room_for t P) P' s' popped' queued' ∧
    ring_after t s s' ∧ (handled_ s' = handled_ s → queued' = queue_after t queued).
Proof.
  intros I Hrd. destruct t as [t|rd| |].
  - destruct (ring_step_ok t kept P s popped queued I) as (P' & s' & queued' & ?). by exists (Ok tt), P', s', popped, queued'.
  - destruct (consume_step_ok rd kept P s popped queued I Hrd) as (o & P' & popped' & E & I').
    exists o, P', s, popped', (list.tail queued). cbn [room_for]. by rewrite andb_true_r.
  - destruct (log_telemetry_ok kept P s popped queued I) as (P' & E & I').
    exists (Ok tt), P', s, popped, queued. cbn [room_for]. by rewrite andb_true_r.
  - destruct (print_statistics_ok kept P s popped queued I) as (P' & E & I').
    exists (Ok tt), P', s, popped, queued. cbn [room_for]. by rewrite andb_true_r.
Qed.

Fixpoint consumptions (ts : list program_thread) : nat :=
  match ts with
  | [] => 0
  | Consume _ :: ts' => S (consumptions ts')
  | _ :: ts' => consumptions ts'
  end.

Lemma consumptions_cons t ts : consumptions (t :: ts) = (consumptions [t] + consumptions ts)%nat.
Proof. by destruct t. Qed.

Lemma queue_after_length t queued : length (queue_after t queued) = (length queued - consumptions [t])%nat.
Proof. destruct t, queued; cbn; lia. Qed.

Lemma run_program_ok ts kept P s popped queued : program_ok (Ok tt) kept P s popped queued →
  Forall (λ t, readings_ready t = true) ts →
  ∃ o P' s' popped' queued', run_program ts P = (o, P') ∧
    program_ok o (kept && consumer_keeps_up ts P) P' s' popped' queued' ∧
    (o = Ok tt → run_schedule (omap ring_thread ts) s = (Ok tt, s') ∧
      (finished ms s → s' = s ∧ length queued' = (length queued - consumptions ts)%nat)).
Proof.
  intros I Hts. revert kept P s popped queued I. induction Hts as [|t ts Ht _ IH]; intros kept P s popped queued I.
  - exists (Ok tt), P, s, popped, queued. cbn [consumer_keeps_up consumptions]. rewrite andb_true_r, Nat.sub_0_r. done.
  - destruct (program_step_ok t kept P s popped queued I Ht) as (o & P1 & s1 & l1 & q1 & E & I1 & [Er Ef] & Hq1).
    cbn [run_program consumer_keeps_up]. rewrite E.
    destruct o as [[]|ex| |]; mstep E;
      [|rewrite andb_true_r; eexists _, P1, s1, l1, q1; (split_and!; [done|done|by intros [=]])..].
    destruct (IH _ P1 s1 l1 q1 I1) as (o & P' & s' & l' & q' & E' & I' & Ho).
    exists o, P', s', l', q'. rewrite andb_assoc. split_and!; [done|done|].
    intros Hok. destruct (Ho Hok) as [Er' Ef']. split.
    + change (omap ring_thread (t :: ts)) with
        (match ring_thread t with Some y => y :: omap ring_thread ts | None => omap ring_thread ts end).
      change (omap ring_thread [t]) with (match ring_thread t with Some y => [y] | None => [] end) in Er.
      destruct (ring_thread t) as [y|]; cbn [run_schedule] in *; [|by injection Er as ->].
      revert Er. unfold mbind, M_bind. destruct (thread_step y s) as [[[]| | |] s2]; try done. by intros [= ->].
    + intros F. pose proof (Ef F) as ->. destruct (Ef' F) as [-> Hl]. split; [done|].
      rewrite Hl, (Hq1 eq_refl), queue_after_length, (consumptions_cons t ts). lia.
Qed.
End Invariant.
End Program.

(** * The program from its start *)

Section Start.
Context (e : Z) (tsc : Z → Z) (hw : bool) (file : list Z) (lg : MmapLogger) (d : NormalizedOrder).
Context (b : Book) (P : Program).
#[local] Abbreviation ms := (file_messages file).
#[local] Existing Instance null_handler.

Record mock_start : Prop := {
  ms_size : 1 ≤ e ≤ 63;
  ms_log : MmapLogger_new true true true true = Ok lg;
  ms_bytes : Forall is_byte file;
  ms_whole : Forall (λ m, whole_message m = true) ms;
  ms_room : 64 * Z.of_nat (length ms) + 2 ≤ FILE_SIZE;
  ms_program : run_mock_mode e lg d b file = Ok P
}.

Lemma start_ok : mock_start →
  ∃ s0, MulticastReceiver_new tt true true file = Ok s0 ∧ program_ok e tsc ms b (Ok tt) true P s0 [] [].
Proof.
  intros [He Hlg Hb Hw Hr HP]. eexists. split; [reflexivity|]. injection HP as <-. constructor; try done.
  - exists 0%nat, 0%nat. by eapply new_receiver_ok.
  - apply new_parser_rep; [lia|done].
  - apply Telemetry_new_ok, buffer_size_16384.
  - cbn. lia.
Qed.

Lemma messages_bytes : mock_start → Forall (Forall is_byte) ms.
Proof. intros S. apply split_messages_bytes, S. Qed.

(** What a run leaves, in terms of the invariant. *)
Lemma run_from_start ts : mock_start → Forall (λ t, readings_ready hw t = true) ts →
  ∃ o P' s0 s' popped queued, MulticastReceiver_new tt true true file = Ok s0 ∧
    run_program e tsc hw ts P = (o, P') ∧
    program_ok e tsc ms b o (consumer_keeps_up e tsc hw ts P) P' s' popped queued ∧
    (o = Ok tt → run_schedule (omap ring_thread ts) s0 = (Ok tt, s')).
Proof.
  intros S Hts. destruct (start_ok S) as (s0 & E0 & I).
  destruct (run_program_ok e tsc hw ms b (ms_whole S) (messages_bytes S) (ms_room S) ts true P s0 [] [] I Hts)
    as (o & P' & s' & popped & queued & E & I' & Ho).
  exists o, P', s0, s', popped, queued. split_and!; [done|done|done|]. intros Hok. apply (Ho Hok).
Qed.

(** The log of a reachable state can be replayed. *)
Lemma program_log_recovers o kept P' s' popped queued b' page_size fuel :
  mock_start → program_ok e tsc ms b o kept P' s' popped queued →
  apply_orders (omap decode (handled_ s')) b = (Ok tt, b') →
  0 < page_size → (page_size | FILE_SIZE) →
  fold_left (λ _ m, overrun m) (handled_ s') 0 ≠ VALID_FRAME_MARKER → (length ms < fuel)%nat →
  ∃ log, start_ (logger_ (p_parser P')) = Some log ∧
    run_recovery fuel page_size (Some log) true true (RecoveryEngine_new b) =
      (Ok tt, mkEngine b' (report_at (length (handled_ s')) 0)).
Proof.
  intros S I Happ Hpage Hdiv Hnext Hfuel. destruct (po_ring _ _ _ _ _ _ _ _ _ _ I) as (p & c & R).
  destruct (handled_prefix _ _ _ _ R) as (k & Hk & Hh). pose proof (ms_room S) as Hroom.
  assert (length (handled_ s') ≤ length ms)%nat as Hl by (rewrite Hh, length_take; lia).
  apply (log_recovers e tsc _ _ queued b b'); try done; try lia.
  - apply I.
  - rewrite Hh. apply Forall_take, S.
  - rewrite Hh. by apply Forall_take, messages_bytes.
Qed.
End Start.

(** * The theorems *)

(** The five threads in any schedule: the messages handled are the first of
    the file; the book is the result of applying the orders popped so far, and
    the outcome of the run is the outcome of applying them (no thread fails
    but by an order the book refuses); popped and queued orders together are,
    in order, orders of the messages handled, and all of them if the queue had
    room whenever the parser pushed; at most ten lines are printed; and
    replaying the log into a copy of the first book gives the book of the
    messages handled. *)
Theorem program_in_any_schedule e tsc hw file lg d b P ts page_size fuel :
  mock_start e file lg d b P → Forall (λ t, readings_ready hw t = true) ts →
  0 < page_size → (page_size | FILE_SIZE) → (length (file_messages file) < fuel)%nat →
  ∃ o P' k popped queued, run_program e tsc hw ts P = (o, P') ∧
    let handled := take k (file_messages file) in
    handled_ (p_receiver P') = handled ∧
    apply_orders popped b = (o, p_book P') ∧ queue_rep (2 ^ e) (queue_ (p_parser P')) queued ∧
    popped ++ queued `sublist_of` omap decode handled ∧
    (consumer_keeps_up e tsc hw ts P = true → popped ++ queued = omap decode handled) ∧
    (length (p_lines P') ≤ 10)%nat ∧
    ∀ b', apply_orders (omap decode handled) b = (Ok tt, b') →
      fold_left (λ _ m, overrun m) handled 0 ≠ VALID_FRAME_MARKER →
      ∃ log, start_ (logger_ (p_parser P')) = Some log ∧
        run_recovery fuel page_size (Some log) true true (RecoveryEngine_new b) =
          (Ok tt, mkEngine b' (report_at (length handled) 0)).
Proof.
  intros S Hts Hpage Hdiv Hfuel.
  destruct (run_from_start e tsc hw file lg d b P ts S Hts) as (o & P' & s0 & s' & popped & queued & _ & E & I & _).
  destruct (po_ring _ _ _ _ _ _ _ _ _ _ I) as (p & c & R). destruct (handled_prefix _ _ _ _ R) as (k & _ & Hh).
  destruct (po_shadow _ _ _ _ _ _ _ _ _ _ I) as [Hw _].
  exists o, P', k, popped, queued. cbv zeta. rewrite <- Hh. split_and!; try apply I; [done| |].
  - unfold p_receiver. by rewrite Hw.
  - intros b' Happ Hnext. by apply (program_log_recovers e tsc file lg d b P _ _ P' s' popped queued b' page_size fuel S I).
Qed.

(** ** Fair schedules *)

Definition fair_round (ts : list program_thread) : Prop :=
  RingThread Simulator ∈ ts ∧ RingThread Poller ∈ ts ∧ (0 < consumptions ts)%nat.

Lemma ring_round (ts : list program_thread) t : RingThread t ∈ ts → t ∈ omap ring_thread ts.
Proof. intros H. apply list_elem_of_omap. by exists (RingThread t). Qed.

Lemma consumptions_app ts1 ts2 : consumptions (ts1 ++ ts2) = (consumptions ts1 + consumptions ts2)%nat.
Proof. induction ts1 as [|[]]; cbn; lia. Qed.

Lemma consumptions_rounds rounds : Forall fair_round rounds → (length rounds ≤ consumptions (concat rounds))%nat.
Proof.
  induction 1 as [|ts rounds (_ & _ & Hc) _ IH]; [done|]. cbn [concat length]. rewrite consumptions_app. lia.
Qed.

Lemma ring_rounds rounds : Forall fair_round rounds →
  ∃ rr, omap ring_thread (concat rounds) = concat rr ∧ length rr = length rounds ∧
        Forall (λ ts, Simulator ∈ ts ∧ Poller ∈ ts) rr.
Proof.
  induction 1 as [|ts rounds (H1 & H2 & _) _ (rr & E & El & Hrr)]; [by exists []|].
  exists (omap ring_thread ts :: rr). cbn [concat length]. rewrite omap_app, E, El. split_and!; [done|done|].
  constructor; [|done]. by split; apply ring_round.
Qed.

Lemma run_program_app e tsc hw ts1 ts2 P :
  run_program e tsc hw (ts1 ++ ts2) P = (run_program e tsc hw ts1;; run_program e tsc hw ts2) P.
Proof.
  revert P. induction ts1 as [|t ts1 IH]; intros P; [done|]. cbn [app run_program].
  rewrite bind_assoc. unfold mbind, M_bind. by destruct (program_step e tsc hw t P) as [[] ?].
Qed.

Lemma keeps_up_app e tsc hw ts1 ts2 P :
  consumer_keeps_up e tsc hw (ts1 ++ ts2) P =
  consumer_keeps_up e tsc hw ts1 P &&
  match run_program e tsc hw ts1 P with (Ok _, P') => consumer_keeps_up e tsc hw ts2 P' | _ => true end.
Proof.
  revert P. induction ts1 as [|t ts1 IH]; intros P; [done|]. cbn [app run_program consumer_keeps_up].
  unfold mbind, M_bind. rewrite <- andb_assoc. f_equal.
  destruct (program_step e tsc hw t P) as [[[]| | |] P']; [apply IH|done..].
Qed.

(** If all orders of the file can be applied and none was lost, the consumer
    has not failed. *)
Lemma kept_outcome e tsc ms b b' o P s popped queued : program_ok e tsc ms b o true P s popped queued →
  apply_orders (omap decode ms) b = (Ok tt, b') → o = Ok tt.
Proof.
  intros I Happ. destruct (po_ring _ _ _ _ _ _ _ _ _ _ I) as (p & c & R).
  destruct (handled_prefix _ _ _ _ R) as (k & _ & Hh). pose proof (po_kept _ _ _ _ _ _ _ _ _ _ I eq_refl) as Hk.
  rewrite <- (take_drop k ms), omap_app, <- Hh, <- Hk, <- app_assoc in Happ.
  apply apply_orders_app in Happ as (b1 & Hb1 & _). pose proof (po_book _ _ _ _ _ _ _ _ _ _ I). congruence.
Qed.

Lemma finished_count e tsc ms b o kept P s popped queued : program_ok e tsc ms b o kept P s popped queued →
  finished ms s → Z.of_nat (length ms) < 2 ^ 64 →
  u64 (Zsum (printed (p_watched P)) + total_packets_ (p_receiver P)) = Z.of_nat (length ms).
Proof.
  intros I (_ & Hpc & Hh) Hlt. destruct (po_shadow _ _ _ _ _ _ _ _ _ _ I) as [_ Hc]. unfold p_receiver. rewrite Hc.
  destruct (po_ring _ _ _ _ _ _ _ _ _ _ I) as (p & c & R). rewrite (ro_total _ _ _ _ _ R).
  pose proof (ro_poller _ _ _ _ _ R) as Hp. unfold poller_ok in Hp. rewrite Hpc, Hh in Hp.
  apply (f_equal length) in Hp. rewrite length_take in Hp. destruct (ro_window _ _ _ _ _ R).
  replace c with (length ms) by lia. apply uwrap_id. split; [lia|done].
Qed.

(** Enough fair rounds finish the ring, and more of them empty the queue. *)
Lemma rounds_build e tsc hw file lg d b b' P rounds : let ms := file_messages file in
  mock_start e file lg d b P → Forall (λ t, readings_ready hw t = true) (concat rounds) →
  Forall fair_round rounds → consumer_keeps_up e tsc hw (concat rounds) P = true →
  apply_orders (omap decode ms) b = (Ok tt, b') →
  (7 * length ms + 1 + length (omap decode ms) ≤ length rounds)%nat →
  ∃ P' s' popped, run_program e tsc hw (concat rounds) P = (Ok tt, P') ∧ finished ms s' ∧
    program_ok e tsc ms b (Ok tt) true P' s' popped [].
Proof.
  intros ms S Hts Hr Hk Happ Hl. set (n := (7 * length ms + 1)%nat).
  rewrite <- (take_drop n rounds), concat_app in Hts, Hk |- *. rewrite <- (take_drop n rounds) in Hr.
  apply Forall_app in Hts as [Hts1 Hts2]. apply Forall_app in Hr as [Hr1 Hr2].
  rewrite keeps_up_app in Hk. apply andb_true_iff in Hk as [Hk1 Hk2].
  destruct (run_from_start e tsc hw file lg d b P (concat (take n rounds)) S Hts1)
    as (o1 & P1 & s0 & s1 & l1 & q1 & E0 & E1 & I1 & Hring).
  rewrite Hk1 in I1. pose proof (kept_outcome _ _ _ _ _ _ _ _ _ _ I1 Happ) as ->. specialize (Hring eq_refl).
  rewrite E1 in Hk2. destruct (ring_rounds _ Hr1) as (rr & Err & Hrr & Hrf). rewrite Err in Hring.
  destruct (rounds_run (BlockHandler0 := null_handler) tt tt file s0 rr (ms_bytes _ _ _ _ _ _ S)
    (ring_fits _ (ms_whole _ _ _ _ _ _ S)) (null_handles _) E0 Hrf) as (s1' & p & c & Hring' & _ & F).
  { rewrite Hrr, length_take. subst n ms. lia. }
  assert (s1' = s1) as -> by congruence.
  destruct (run_program_ok e tsc hw ms b (ms_whole _ _ _ _ _ _ S) (messages_bytes _ _ _ _ _ _ S)
    (ms_room _ _ _ _ _ _ S) _ true P1 s1 l1 q1 I1 Hts2) as (o2 & P2 & s2 & l2 & q2 & E2 & I2 & Ho).
  rewrite Hk2 in I2. cbn [andb] in I2. pose proof (kept_outcome _ _ _ _ _ _ _ _ _ _ I2 Happ) as ->.
  destruct (Ho eq_refl) as [_ Hf]. destruct (Hf F) as [-> Hq]. exists P2, s1, l2.
  split_and!; [rewrite run_program_app; by mstep E1|done|].
  pose proof (consumptions_rounds _ Hr2) as Hc. rewrite length_drop in Hc.
  pose proof (po_kept _ _ _ _ _ _ _ _ _ _ I1 eq_refl) as Hq1. destruct F as (_ & _ & Fh). rewrite Fh in Hq1.
  apply (f_equal length) in Hq1. rewrite length_app in Hq1.
  assert (q2 = []) as -> by (apply length_zero_iff_nil; subst n ms; lia). exact I2.
Qed.

(** C3 Mock mode builds the book of the file. The file holds whole messages
    whose frames and two bytes more fit the log, no order of it throws, its
    last message did not leave the byte of the marker after its frame, and the
    perf counters are scheduled. Then in every schedule with enough rounds in
    which the two threads of the ring and the consumer step, with any steps of
    the other threads in between, in which the queue never fills up, the run
    ends with the file read to its end, the queue empty, the book that results
    from applying the decoded orders of the file in order, a log from which
    exactly this book is recovered, and statistics that count every message. *)
Theorem program_builds_book e tsc hw file lg d b b' P rounds page_size fuel : let ms := file_messages file in
  mock_start e file lg d b P → Forall (λ t, readings_ready hw t = true) (concat rounds) →
  Forall fair_round rounds → consumer_keeps_up e tsc hw (concat rounds) P = true →
  apply_orders (omap decode ms) b = (Ok tt, b') →
  (7 * length ms + 1 + length (omap decode ms) ≤ length rounds)%nat →
  0 < page_size → (page_size | FILE_SIZE) → fold_left (λ _ m, overrun m) ms 0 ≠ VALID_FRAME_MARKER →
  (length ms < fuel)%nat →
  ∃ P' log, run_program e tsc hw (concat rounds) P = (Ok tt, P') ∧
    p_book P' = b' ∧ queue_rep (2 ^ e) (queue_ (p_parser P')) [] ∧ handled_ (p_receiver P') = ms ∧
    u64 (Zsum (printed (p_watched P')) + total_packets_ (p_receiver P')) = Z.of_nat (length ms) ∧
    start_ (logger_ (p_parser P')) = Some log ∧
    run_recovery fuel page_size (Some log) true true (RecoveryEngine_new b) =
      (Ok tt, mkEngine b' (report_at (length ms) 0)).
Proof.
  intros ms S Hts Hr Hk Happ Hl Hpage Hdiv Hnext Hfuel.
  destruct (rounds_build e tsc hw file lg d b b' P rounds S Hts Hr Hk Happ Hl) as (P' & s' & l & E & F & I).
  fold ms in F, I. pose proof F as (_ & _ & Hh). pose proof (ms_room _ _ _ _ _ _ S) as Hroom. fold ms in Hroom.
  assert (FILE_SIZE = 2 ^ 30) as HF by done.
  destruct (program_log_recovers e tsc file lg d b P _ _ P' s' l [] b' page_size fuel S I) as (log & Hlog & Hrec);
    rewrite ?Hh; try done. rewrite Hh in Hrec.
  pose proof (po_kept _ _ _ _ _ _ _ _ _ _ I eq_refl) as Hpop. rewrite app_nil_r, Hh in Hpop.
  exists P', log. split_and!; [done| |apply I| |by apply (finished_count _ _ _ _ _ _ _ _ _ _ I); [|lia]|done|done].
  - pose proof (po_book _ _ _ _ _ _ _ _ _ _ I) as Hb. rewrite Hpop in Hb. congruence.
  - unfold p_receiver. rewrite (proj1 (po_shadow _ _ _ _ _ _ _ _ _ _ I)). exact Hh.
Qed.

(** * A small run *)

(** Rounds in which every thread steps, the consumer twice. *)
Definition sample_round : list program_thread :=
  [RingThread Poller; RingThread Simulator; Consume sample_readings; PrintStatistics; LogTelemetry;
   Consume sample_readings].

Definition sample_order : NormalizedOrder := NCancel (mkCancelOrder 0 0 0 0 0).

Definition sample_start (file : list Z) (b : Book) : Program :=
  mkProgram
    (mkWatched (mkReceiver (anew (RX_BLOCK_SIZE * RX_BLOCK_NR) 0) SimHead file 0 PollWait 0 0
                  (ItchParser_new (SPSCQueue_new (2 ^ 2) sample_order) (mkLogger (Some (anew FILE_SIZE 0)) 0)) [])
       [])
    b (Telemetry_new TELEMETRY_BUFFER_SIZE) [].

Lemma sample_start_ok b : mock_start 2 mock_file (mkLogger (Some (anew FILE_SIZE 0)) 0) sample_order b (sample_start mock_file b).
Proof.
  constructor; [lia|reflexivity|apply (bool_decide_unpack _); by vm_compute|repeat constructor; by vm_compute
    |by vm_compute|reflexivity].
Qed.

Lemma sample_rounds_ready n : Forall (λ t, readings_ready true t = true) (concat (replicate n sample_round)).
Proof. induction n as [|n IH]; [constructor|]. repeat (constructor; [reflexivity|]). exact IH. Qed.

Lemma sample_rounds_fair n : Forall fair_round (replicate n sample_round).
Proof.
  apply Forall_replicate. split_and!; [by apply list_elem_of_further, list_elem_of_here|by apply list_elem_of_here|].
  cbn. lia.
Qed.

Lemma program_builds_book_witness :
  match new_book 4 4096 true true with
  | Ok b =>
      let run := apply_orders (omap decode (file_messages mock_file)) b in
      ∃ P' log, run_program 2 (λ n, n) true (concat (replicate 30 sample_round)) (sample_start mock_file b) = (Ok tt, P') ∧
        p_book P' = run.2 ∧ start_ (logger_ (p_parser P')) = Some log ∧
        run_recovery 10 4096 (Some log) true true (RecoveryEngine_new b) =
          (Ok tt, mkEngine run.2 (report_at 3 0))
  | _ => False
  end.
Proof.
  destruct (new_book 4 4096 true true) as [b| | |] eqn:E; [|by vm_compute in E..]. intros run.
  assert (apply_orders (omap decode (file_messages mock_file)) b = (Ok tt, run.2) ∧
    consumer_keeps_up 2 (λ n, n) true (concat (replicate 30 sample_round)) (sample_start mock_file b) = true) as [Happ Hk].
  { unfold run. revert E. unfold new_book, StaticOrderMap_new. cbn [negb]. intros E. injection E as <-.
    split; by vm_compute. }
  destruct (program_builds_book 2 (λ n, n) true mock_file _ sample_order b run.2 (sample_start mock_file b)
    (replicate 30 sample_round) 4096 10 (sample_start_ok b) (sample_rounds_ready 30) (sample_rounds_fair 30) Hk Happ)
    as (P' & log & H1 & H2 & _ & _ & _ & H3 & H4);
    [apply Nat.leb_le; by vm_compute|lia|by exists 262144|by vm_compute|apply Nat.ltb_lt; by vm_compute|].
  exists P', log. split; [exact H1|]. split; [exact H2|]. split; [exact H3|exact H4].
Defined.

Lemma program_in_any_schedule_witness :
  match new_book 4 4096 true true with
  | Ok b =>
      let ts := concat (replicate 4 sample_round) in
      ∃ o P' k popped queued, run_program 2 (λ n, n) true ts (sample_start mock_file b) = (o, P') ∧
        apply_orders popped b = (o, p_book P') ∧
        popped ++ queued = omap decode (take k (file_messages mock_file))
  | _ => False
  end.
Proof.
  destruct (new_book 4 4096 true true) as [b| | |] eqn:E; [|by vm_compute in E..]. intros ts.
  assert (consumer_keeps_up 2 (λ n, n) true ts (sample_start mock_file b) = true) as Hk.
  { unfold ts. revert E. unfold new_book, StaticOrderMap_new. cbn [negb]. intros E. injection E as <-. by vm_compute. }
  destruct (program_in_any_schedule 2 (λ n, n) true mock_file _ sample_order b (sample_start mock_file b) ts 4096 10
    (sample_start_ok b) (sample_rounds_ready 4)) as (o & P' & k & popped & queued & H1 & _ & H2 & _ & _ & H3 & _);
    [lia|by exists 262144|apply Nat.ltb_lt; by vm_compute|].
  exists o, P', k, popped, queued. split; [exact H1|]. split; [exact H2|exact (H3 Hk)].
Defined.
