(* ===== verification/ProgramSafety.v ===== *)
(** The program of MockProgram.v with the book of AnyOrders.v: no file of
    whole messages that fit the log, whatever their ids, prices and shares,
    makes a thread of the program leave the memory mapped or allocated for it
    while the perf counters are scheduled, and the book at every moment is that
    of the contract for the orders popped so far. *)

From S2P Require Import Prelude Interfaces HierarchicalBitset StaticOrderMap SPSCQueue ItchOrderTypes LimitOrderBook MockOrderBook BookTheorems AnyOrders Crc32 MmapLogger ItchParser ParserTheorems RecoveryEngine MulticastReceiver Pipeline Telemetry Statistics MockProgram.

(** Orders one after the other, up to the first exception. *)
Fixpoint any_apply (max_orders : Z) (os : list NormalizedOrder) (s : AnyBook)
    : outcome unit * AnyBook :=
  match os with
  | [] => (Ok tt, s)
  | o :: os' =>
      match any_dispatch max_orders o s with
      | (Ok _, s') => any_apply max_orders os' s'
      | r => r
      end
  end.

(** * Decoded orders *)

Lemma decode_price_ok m o : Forall is_byte m → decode m = Some o → price_ok o = true.
Proof.
  intros Hm. unfold decode. destruct m as [|c m]; [done|].
  destruct (c =? char_A); [|destruct (c =? char_E); [|destruct (c =? char_X)]]; try done; intros [= <-]; try done.
  apply Z.leb_le. change (0 ≤ be_at (c :: m) off_add_price 4). apply be_Z_range. by apply Forall_take, Forall_drop.
Qed.

Lemma decoded_prices_ok ms : Forall (Forall is_byte) ms → Forall (λ o, price_ok o = true) (omap decode ms).
Proof.
  intros Hms. apply Forall_forall. intros o (m & Hm & Ho)%list_elem_of_omap.
  rewrite Forall_forall in Hms. eapply decode_price_ok; [by apply Hms|done].
Qed.

(** * Orders applied to the book *)

Section Apply.
Context (max_orders : Z).

Lemma apply_orders_any os b s : book_any max_orders b s → Forall (λ o, price_ok o = true) os →
  ∃ b', apply_orders os b = ((any_apply max_orders os s).1, b') ∧
        book_any max_orders b' (any_apply max_orders os s).2.
Proof.
  intros Hb Hos. revert b s Hb. induction Hos as [|o os Ho _ IH]; intros b s Hb; cbn [apply_orders any_apply].
  - by exists b.
  - destruct (dispatch_any max_orders b s o Hb Ho) as (b1 & E & Hb1).
    destruct (any_dispatch max_orders o s) as [[[]| | |] s1]; mstep E; [by apply IH|by exists b1..].
Qed.

Lemma any_apply_outcome os s :
  (any_apply max_orders os s).1 = Ok tt ∨ (any_apply max_orders os s).1 = Throw too_few_shares.
Proof.
  revert s. induction os as [|o os IH]; intros s; cbn [any_apply]; [by left|].
  pose proof (any_dispatch_outcome max_orders o s) as Ho.
  destruct (any_dispatch max_orders o s) as [[[]|ex| |] s1]; [apply IH|done..].
Qed.

(** Orders of messages applied to a new book. *)
Lemma orders_applied page_size b ms popped queued o b' :
  0 < max_orders ≤ ORDER_MAP_SIZE → new_book max_orders page_size true true = Ok b →
  Forall (Forall is_byte) ms → popped ++ queued `sublist_of` omap decode ms →
  apply_orders popped b = (o, b') →
  let s := (any_apply max_orders popped any_empty).2 in
  (o = Ok tt ∨ o = Throw too_few_shares) ∧ (any_apply max_orders popped any_empty).1 = o ∧
  (book_best_bid b').1 = Ok (mock_best_bid (any_book s)) ∧
  (book_best_offer b').1 = Ok (mock_best_offer (any_book s)) ∧
  ∀ side p, 0 ≤ p < MAX_TICKS → level_orders side p b' = Some (any_queue side p s).
Proof.
  intros Hmax Hnew Hb Hsub Happ s.
  assert (Forall (λ o, price_ok o = true) popped) as Hok.
  { pose proof (decoded_prices_ok _ Hb) as Hall. rewrite Forall_forall in Hall |- *.
    intros x Hx. apply Hall. eapply elem_of_sublist; [|exact Hsub]. apply elem_of_app. by left. }
  destruct (apply_orders_any popped b any_empty) as (b1 & Hrun & Hb1); [by eapply book_any_new|done|].
  rewrite Happ in Hrun. injection Hrun as -> ->. split_and!; [apply any_apply_outcome|done| | |].
  - by rewrite (best_bid_any _ _ _ _ _ _ Hb1).
  - by rewrite (best_offer_any _ _ _ _ _ _ Hb1).
  - intros side p Hp. by eapply level_orders_any.
Qed.
End Apply.


(** A file that adds two orders with one id and cancels them. *)
Definition repeated_file : list Z :=
  concat ((λ m, [0; Z.of_nat (length m)] ++ m) <$>
    [encode (NAdd (mkAddOrder 1 9 100 500 0 0 (replicate 8 32) char_B));
     encode (NAdd (mkAddOrder 2 9 50 500 0 0 (replicate 8 32) char_B));
     encode (NExecute (mkOrderExecuted 3 9 0 60 0 0))]).

Lemma repeated_start_ok b :
  mock_start 2 repeated_file (mkLogger (Some (anew FILE_SIZE 0)) 0) sample_order b (sample_start repeated_file b).
Proof.
  constructor; [lia|reflexivity|apply (bool_decide_unpack _); by vm_compute|repeat constructor; by vm_compute
    |by vm_compute|reflexivity].
Qed.

