(* ===== verification/RealProgram.v ===== *)
(** The whole program in real mode (the end of [main] of src/src/main.cpp): the
    kernel, which puts captured packets into the packet ring, and the threads
    of the program.

    - [Poll]: [MulticastReceiver::poll], the main thread: it waits for a frame,
      finds the payload of its packet, runs the loop of [parse_block] on it one
      message at a time, and returns the frame;
    - [ConsumeOrder]: an iteration of [consume];
    - [WriteTelemetry]: a step of [log_telemetry];
    - [PrintStats]: a turn of [print_statistics].

    The kernel is the relation [kernel_fills] of packet(7): it writes only a
    frame it owns, the frames in turn, and sets the status last; a packet that
    finds no free frame is dropped.  It passes the packets the filter of the
    receiver accepts ([feed_packet], BpfFilter.v).

    A push and a pop are single steps here, and are interleaved access by
    access in SPSCQueue.v and LivePipeline.v.  While a frame belongs to the
    program nobody writes it, so its payload is read once. *)

From S2P Require Import Prelude Interfaces HierarchicalBitset StaticOrderMap SPSCQueue ItchOrderTypes LimitOrderBook MockOrderBook BookTheorems AnyOrders Crc32 MmapLogger ItchParser ParserTheorems RecoveryEngine MulticastReceiver Pipeline BpfFilter Telemetry RealPoll Statistics MockProgram ProgramSafety.

(** * The messages of a packet *)

(** The reference: cut a payload into whole messages and what is left. *)
Fixpoint split_block (fuel : nat) (payload : list Z) : list (list Z) * list Z :=
  match fuel, payload with
  | S fuel', c :: _ =>
      match message_length c with
      | Some n =>
          if (n <=? 0) || (Z.of_nat (length payload) <? n) then ([], payload)
          else
            let '(ms, rest) := split_block fuel' (drop (Z.to_nat n) payload) in
            (take (Z.to_nat n) payload :: ms, rest)
      | None => ([], payload)
      end
  | _, _ => ([], payload)
  end.

Definition packet_payload (pkt : list Z) : list Z := drop 42 pkt.
Definition packet_split (pkt : list Z) : list (list Z) * list Z :=
  split_block (length (packet_payload pkt)) (packet_payload pkt).
Definition packet_messages (pkt : list Z) : list (list Z) := (packet_split pkt).1.

(** A packet [poll] reads as the sender meant it: its headers are 42 bytes,
    and after them there are whole messages and at most the start of one. *)
Definition clean_packet (pkt : list Z) : bool :=
  (42 <=? length pkt)%nat && bool_decide (Forall is_byte pkt) && incomplete (packet_split pkt).2.

Lemma split_block_concat fuel payload :
  payload = concat (split_block fuel payload).1 ++ (split_block fuel payload).2.
Proof.
  revert payload. induction fuel as [|fuel IH]; intros [|c payload]; cbn [split_block]; try done.
  destruct (message_length c) as [n|]; [|done]. destruct (_ || _); [done|].
  specialize (IH (drop (Z.to_nat n) (c :: payload))).
  destruct (split_block fuel (drop (Z.to_nat n) (c :: payload))) as [ms rest]. cbn [fst snd concat] in *.
  by rewrite <- app_assoc, <- IH, take_drop.
Qed.

Lemma split_block_whole fuel payload :
  Forall (λ m, whole_message m = true) (split_block fuel payload).1.
Proof.
  revert payload. induction fuel as [|fuel IH]; intros [|c payload]; cbn [split_block fst]; try done.
  destruct (message_length c) as [n|] eqn:Ec; [|done]. destruct (_ || _) eqn:En; [done|].
  apply orb_false_iff in En as [Hn Hl]. zhyps.
  specialize (IH (drop (Z.to_nat n) (c :: payload))).
  destruct (split_block fuel (drop (Z.to_nat n) (c :: payload))) as [ms rest]. cbn [fst] in *.
  constructor; [|done]. destruct (Z.to_nat n) as [|k] eqn:Ek; [lia|]. cbn [take whole_message].
  apply bool_decide_eq_true. rewrite Ec. f_equal. cbn [length] in *. rewrite length_take. lia.
Qed.

Section Program.
Context (e : Z) (tsc : Z → Z) (hw : bool) (sent : list Z → Prop).
#[local] Abbreviation Size := (2 ^ e).

(** * The state *)

Inductive real_pc : Type :=
| RWait                         (** waiting for the frame *)
| RTake                         (** about to look for the payload *)
| RParse (payload : list Z)     (** in the loop of [parse_block] *)
| RRelease.                     (** about to return the frame *)

Record Real : Type := mkReal {
  r_ring : array Z;
  r_pc : real_pc;
  r_curr_frame_idx : Z;
  r_total_packets : Z;
  r_parser : ItchParser;
  r_book : Book;
  r_telemetry : Telemetry;
  r_lines : list Line;
  r_stats : RealStats;
  r_kernel_idx : Z;
  r_captured : list (list Z)
}.

Definition set_r_ring (r : array Z) (P : Real) : Real :=
  mkReal r (r_pc P) (r_curr_frame_idx P) (r_total_packets P) (r_parser P) (r_book P) (r_telemetry P)
    (r_lines P) (r_stats P) (r_kernel_idx P) (r_captured P).
Definition set_r_pc (pc : real_pc) (P : Real) : Real :=
  mkReal (r_ring P) pc (r_curr_frame_idx P) (r_total_packets P) (r_parser P) (r_book P) (r_telemetry P)
    (r_lines P) (r_stats P) (r_kernel_idx P) (r_captured P).
Definition set_r_parser (p : ItchParser) (P : Real) : Real :=
  mkReal (r_ring P) (r_pc P) (r_curr_frame_idx P) (r_total_packets P) p (r_book P) (r_telemetry P)
    (r_lines P) (r_stats P) (r_kernel_idx P) (r_captured P).
Definition set_r_telemetry (t : Telemetry) (P : Real) : Real :=
  mkReal (r_ring P) (r_pc P) (r_curr_frame_idx P) (r_total_packets P) (r_parser P) (r_book P) t
    (r_lines P) (r_stats P) (r_kernel_idx P) (r_captured P).
Definition set_r_stats (st : RealStats) (P : Real) : Real :=
  mkReal (r_ring P) (r_pc P) (r_curr_frame_idx P) (r_total_packets P) (r_parser P) (r_book P)
    (r_telemetry P) (r_lines P) st (r_kernel_idx P) (r_captured P).

(** [curr_frame_idx_ = (curr_frame_idx_ + 1) % RX_FRAME_NR] and the count. *)
Definition next_r_frame (P : Real) : Real :=
  mkReal (r_ring P) RWait ((r_curr_frame_idx P + 1) mod RX_FRAME_NR) (u64 (r_total_packets P + 1))
    (r_parser P) (r_book P) (r_telemetry P) (r_lines P) (r_stats P) (r_kernel_idx P) (r_captured P).

Definition r_consumer (P : Real) : Consumer :=
  mkConsumer (queue_ (r_parser P)) (r_book P) (r_telemetry P) (r_lines P).
Definition set_r_consumer (c : Consumer) (P : Real) : Real :=
  mkReal (r_ring P) (r_pc P) (r_curr_frame_idx P) (r_total_packets P) (set_queue (c_queue c) (r_parser P))
    (c_book c) (c_telemetry c) (c_printed c) (r_stats P) (r_kernel_idx P) (r_captured P).

Definition on_r_ring {A} (m : M (array Z) A) : M Real A := zoom r_ring set_r_ring m.
Definition on_r_parser {A} (m : M ItchParser A) : M Real A := zoom r_parser set_r_parser m.

(** * The threads *)

Definition real_poll_step : M Real unit :=
  P ← get_state;
  let start_of_frame := r_curr_frame_idx P * RX_FRAME_SIZE in
  match r_pc P with
  | RWait =>
      status ← on_r_ring (ring_load (start_of_frame + off_tp_status) 4);
      if Z.land status TP_STATUS_USER =? 0 then mret tt else modify (set_r_pc RTake)
  | RTake =>
      payload ← on_r_ring (packet_block start_of_frame);
      modify (set_r_pc (RParse payload))
  | RParse payload =>
      left ← on_r_parser (parse_step Size tsc payload);
      modify (set_r_pc (match left with Some rest => RParse rest | None => RRelease end))
  | RRelease =>
      on_r_ring (ring_store (start_of_frame + off_tp_status) 4 TP_STATUS_KERNEL);;
      modify next_r_frame
  end.

Inductive real_thread : Type :=
| Poll
| ConsumeOrder (rd : Readings)
| WriteTelemetry
| PrintStats (getsockopt_ok : bool).

Definition real_thread_step (t : real_thread) : M Real unit :=
  match t with
  | Poll => real_poll_step
  | ConsumeOrder rd =>
      zoom r_consumer set_r_consumer (consume_iteration TELEMETRY_BUFFER_SIZE Size hw rd)
  | WriteTelemetry => zoom r_telemetry set_r_telemetry (log_step TELEMETRY_BUFFER_SIZE)
  | PrintStats ok => zoom r_stats set_r_stats (print_statistics ok)
  end.

(** [main] of real mode before its threads start. *)
Definition real_start (lg : MmapLogger) (d : NormalizedOrder) (b : Book) : Real :=
  mkReal (anew (RX_BLOCK_SIZE * RX_BLOCK_NR) 0) RWait 0 0 (ItchParser_new (SPSCQueue_new Size d) lg)
    b (Telemetry_new TELEMETRY_BUFFER_SIZE) [] (mkRealStats (mkStats 0 0) [] true) 0 [].

(** * The kernel *)

Record kernel_fills (r : array Z) (i : Z) (pkt : list Z) (r' : array Z) : Prop := {
  kf_owner : status_at r i TP_STATUS_KERNEL;
  kf_ring : ring_ok r';
  kf_only : only_frame i r r';
  kf_status : ∃ v, status_at r' i v ∧ 0 ≤ v < 2 ^ 32 ∧ Z.land v TP_STATUS_USER ≠ 0;
  kf_packet : ∃ mac, holds_packet r' i mac pkt
}.

Definition count_stats (dropped : bool) (st : RealStats) : RealStats :=
  mkRealStats (count_packet dropped (kernel_stats st)) (stat_lines st) (stat_running st).

Definition capture (pkt : list Z) (r' : array Z) (P : Real) : Real :=
  mkReal r' (r_pc P) (r_curr_frame_idx P) (r_total_packets P) (r_parser P) (r_book P) (r_telemetry P)
    (r_lines P) (count_stats false (r_stats P)) ((r_kernel_idx P + 1) mod RX_FRAME_NR)
    (r_captured P ++ [pkt]).

(** * The program *)

(** The counters the consumer reads are scheduled. *)
Definition thread_ready (t : real_thread) : bool :=
  match t with ConsumeOrder rd => counters_ready hw rd | _ => true end.

(** Whether the queue has room for an order. *)
Definition queue_has_room (P : Real) : bool :=
  bool_decide ((push Size (NCancel (mkCancelOrder 0 0 0 0 0)) (queue_ (r_parser P))).1 = Ok true).

(** A step of the kernel or of a thread; with [keep] the poller only steps
    while the queue has room. *)
Inductive real_step (keep : bool) : Real → Real → Prop :=
| KernelCaptures P pkt r' : sent pkt → feed_packet pkt = true →
    kernel_fills (r_ring P) (r_kernel_idx P) pkt r' →
    real_step keep P (capture pkt r' P)
| KernelDrops P pkt : sent pkt → ¬ status_at (r_ring P) (r_kernel_idx P) TP_STATUS_KERNEL →
    real_step keep P (set_r_stats (count_stats true (r_stats P)) P)
| ThreadSteps P t P' : thread_ready t = true → (keep = true → t = Poll → queue_has_room P = true) →
    real_thread_step t P = (Ok tt, P') → real_step keep P P'.

(** * The invariant *)

Section Invariant.
Context (b0 : Book) (keep : bool).
Hypothesis Hsent : ∀ pkt, sent pkt → clean_packet pkt = true.

Definition captured_messages (P : Real) : list (list Z) := concat (packet_messages <$> r_captured P).
Definition messages_upto (c : nat) (P : Real) : list (list Z) :=
  concat (packet_messages <$> take c (r_captured P)).

(** A frame that belongs to the program. *)
Definition user_frame (r : array Z) (i : Z) (pkt : list Z) : Prop :=
  (∃ v, status_at r i v ∧ 0 ≤ v < 2 ^ 32 ∧ Z.land v TP_STATUS_USER ≠ 0) ∧ ∃ mac, holds_packet r i mac pkt.

(** The messages parsed, after [c] frames returned. *)
Definition poll_ok (P : Real) (c : nat) (parsed : list (list Z)) : Prop :=
  match r_pc P with
  | RWait => parsed = messages_upto c P
  | RTake => parsed = messages_upto c P ∧ (c < length (r_captured P))%nat
  | RParse payload => ∃ pkt ms1 ms2 rest, r_captured P !! c = Some pkt ∧
      packet_split pkt = (ms1 ++ ms2, rest) ∧ payload = concat ms2 ++ rest ∧
      parsed = messages_upto c P ++ ms1
  | RRelease => parsed = messages_upto (S c) P ∧ (c < length (r_captured P))%nat
  end.

(** The packets from [c] on are in the ring; [popped] has been applied to the
    book with the outcome [o], [queued] is in the queue. *)
Record real_ok (o : outcome unit) (P : Real) (c : nat) (parsed : list (list Z))
    (popped queued : list NormalizedOrder) : Prop := {
  rk_ring : ring_ok (r_ring P);
  rk_window : (c ≤ length (r_captured P) ≤ c + 4096)%nat;
  rk_clean : Forall (λ pkt, clean_packet pkt = true) (r_captured P);
  rk_kernel_idx : r_kernel_idx P = ring_slot (length (r_captured P));
  rk_curr_idx : r_curr_frame_idx P = ring_slot c;
  rk_total : r_total_packets P = u64 (Z.of_nat c);
  rk_full : ∀ k pkt, (c ≤ k)%nat → r_captured P !! k = Some pkt → user_frame (r_ring P) (ring_slot k) pkt;
  rk_free : ∀ i, 0 ≤ i < RX_FRAME_NR →
    (∀ k, (c ≤ k < length (r_captured P))%nat → i ≠ ring_slot k) → status_at (r_ring P) i TP_STATUS_KERNEL;
  rk_poll : poll_ok P c parsed;
  rk_parser : parser_rep e (r_parser P) (message_frames tsc 0 parsed) (fold_left (λ _ m, overrun m) parsed 0) queued;
  rk_book : apply_orders popped b0 = (o, r_book P);
  rk_orders : popped ++ queued `sublist_of` omap decode parsed;
  rk_kept : keep = true → popped ++ queued = omap decode parsed;
  rk_telemetry : telemetry_ok TELEMETRY_BUFFER_SIZE (r_telemetry P);
  rk_lines : (length (r_lines P) ≤ 10)%nat
}.

(** ** Packets and frames *)

Lemma packet_split_payload pkt ms rest : packet_split pkt = (ms, rest) → packet_payload pkt = concat ms ++ rest.
Proof.
  intros E. rewrite (split_block_concat (length (packet_payload pkt)) (packet_payload pkt)) at 1.
  unfold packet_split in E. by rewrite E.
Qed.

Lemma clean_packet_facts pkt ms rest : clean_packet pkt = true → packet_split pkt = (ms, rest) →
  (42 ≤ length pkt)%nat ∧ Forall is_byte (concat ms ++ rest) ∧ incomplete rest = true ∧
  Forall (λ m, whole_message m = true) ms.
Proof.
  intros Hc E. unfold clean_packet in Hc. rewrite E in Hc. zhyps. apply Nat.leb_le in H.
  match goal with H : bool_decide _ = true |- _ => apply bool_decide_eq_true in H end.
  split_and!; [done| |done|].
  - rewrite <- (packet_split_payload _ _ _ E). by apply Forall_drop.
  - pose proof (split_block_whole (length (packet_payload pkt)) (packet_payload pkt)) as Hw.
    unfold packet_split in E. by rewrite E in Hw.
Qed.

Lemma user_not_kernel r i pkt : user_frame r i pkt → ¬ status_at r i TP_STATUS_KERNEL.
Proof.
  intros [(v & Hv & Hr & Hu) _] Hk. unfold status_at in *. rewrite Hv in Hk.
  apply (f_equal (λ o, le_Z (default [] o))) in Hk.
  change (le_Z (le_bytes 4 v) = le_Z (le_bytes 4 TP_STATUS_KERNEL)) in Hk.
  rewrite !le_Z_le_bytes, Z.mod_small in Hk by (cbn; lia). subst v. done.
Qed.

Lemma holds_packet_frame i j r r' mac pkt : only_frame i r r' → i ≠ j → holds_packet r j mac pkt → holds_packet r' j mac pkt.
Proof.
  intros Ho Hij [H1 H2 H3 [H4 H5]].
  assert (∀ off n, 0 ≤ off → off + Z.of_nat n ≤ RX_FRAME_SIZE →
    read_bytes r' (j * RX_FRAME_SIZE + off) n = read_bytes r (j * RX_FRAME_SIZE + off) n) as He.
  { intros off n Hoff Hn. apply read_bytes_ext. intros k Hk. apply Ho. offsets. lia. }
  constructor; rewrite ?He; try done; offsets; lia.
Qed.

Lemma user_frame_other i j r r' pkt : only_frame i r r' → i ≠ j → user_frame r j pkt → user_frame r' j pkt.
Proof.
  intros Ho Hij [(v & Hv & Hr) (mac & Hp)]. split.
  - exists v. split; [by eapply status_frame|done].
  - exists mac. by eapply holds_packet_frame.
Qed.

Lemma messages_upto_S P c pkt : r_captured P !! c = Some pkt →
  messages_upto (S c) P = messages_upto c P ++ packet_messages pkt.
Proof.
  intros Hc. unfold messages_upto. rewrite (take_S_r _ _ _ Hc), fmap_app, concat_app. cbn. by rewrite app_nil_r.
Qed.

Lemma messages_upto_prefix P c : messages_upto c P `prefix_of` captured_messages P.
Proof.
  exists (concat (packet_messages <$> drop c (r_captured P))). unfold messages_upto, captured_messages.
  by rewrite <- concat_app, <- fmap_app, take_drop.
Qed.

(** What has been parsed is the first part of what was captured. *)
Lemma parsed_prefix P c parsed : poll_ok P c parsed → parsed `prefix_of` captured_messages P.
Proof.
  unfold poll_ok. destruct (r_pc P) as [| |payload|].
  - intros ->. apply messages_upto_prefix.
  - intros [-> _]. apply messages_upto_prefix.
  - intros (pkt & ms1 & ms2 & rest & Hc & E & _ & ->).
    etrans; [|apply (messages_upto_prefix P (S c))]. rewrite (messages_upto_S _ _ _ Hc).
    apply prefix_app. unfold packet_messages. rewrite E. by exists ms2.
  - intros [-> _]. apply messages_upto_prefix.
Qed.
(** ** The poller *)

Lemma on_r_ring_run {A} (m : M (array Z) A) P r a : m (r_ring P) = (Ok a, r) →
  on_r_ring m P = (Ok a, set_r_ring r P).
Proof. intros E. unfold on_r_ring, zoom. by rewrite E. Qed.

Lemma set_r_ring_id P : set_r_ring (r_ring P) P = P.
Proof. by destruct P. Qed.

(** A change of the poller's position alone. *)
Lemma moved_ok o P c parsed popped queued pc : real_ok o P c parsed popped queued →
  poll_ok (set_r_pc pc P) c parsed → real_ok o (set_r_pc pc P) c parsed popped queued.
Proof. intros I Hp. constructor; try apply I. exact Hp. Qed.

Lemma poll_wait_step P c parsed popped queued : real_ok (Ok tt) P c parsed popped queued → r_pc P = RWait →
  ∃ P', real_poll_step P = (Ok tt, P') ∧ real_ok (Ok tt) P' c parsed popped queued ∧
    (P' = P ∧ c = length (r_captured P) ∨ P' = set_r_pc RTake P ∧ (c < length (r_captured P))%nat).
Proof.
  intros I Hpc. pose proof (rk_poll _ _ _ _ _ _ I) as Hp. unfold poll_ok in Hp. rewrite Hpc in Hp.
  unfold real_poll_step. mstep (eq_refl (get_state P)). rewrite Hpc, (rk_curr_idx _ _ _ _ _ _ I).
  destruct (decide (c < length (r_captured P))%nat) as [Hc|Hc].
  - destruct (lookup_lt_is_Some_2 _ _ Hc) as [pkt Hpkt].
    destruct (rk_full _ _ _ _ _ _ I c pkt ltac:(lia) Hpkt) as [(v & Hv & Hr & Hu) _].
    mstep (on_r_ring_run _ P _ _ (load_status _ _ _ Hv Hr)). rewrite set_r_ring_id, (proj2 (Z.eqb_neq _ _) Hu).
    eexists. split; [done|]. split; [by apply moved_ok|by right].
  - pose proof (rk_window _ _ _ _ _ _ I).
    assert (status_at (r_ring P) (ring_slot c) TP_STATUS_KERNEL) as Hk.
    { apply (rk_free _ _ _ _ _ _ I); [apply ring_slot_range|]. intros k Hk. lia. }
    mstep (on_r_ring_run _ P _ _ (load_status _ _ _ Hk ltac:(done))). rewrite set_r_ring_id.
    exists P. split_and!; [done|done|]. left. split; [done|lia].
Qed.

Lemma poll_take_step P c parsed popped queued : real_ok (Ok tt) P c parsed popped queued → r_pc P = RTake →
  ∃ payload, real_poll_step P = (Ok tt, set_r_pc (RParse payload) P) ∧
    real_ok (Ok tt) (set_r_pc (RParse payload) P) c parsed popped queued.
Proof.
  intros I Hpc. pose proof (rk_poll _ _ _ _ _ _ I) as Hp. unfold poll_ok in Hp. rewrite Hpc in Hp.
  destruct Hp as [Hp Hc]. destruct (lookup_lt_is_Some_2 _ _ Hc) as [pkt Hpkt].
  destruct (rk_full _ _ _ _ _ _ I c pkt ltac:(lia) Hpkt) as [_ (mac & Hm)].
  pose proof (proj1 (Forall_lookup _ _) (rk_clean _ _ _ _ _ _ I) c pkt Hpkt) as Hclean.
  destruct (packet_split pkt) as [ms rest] eqn:Es.
  destruct (clean_packet_facts _ _ _ Hclean Es) as (Hl & _).
  unfold real_poll_step. mstep (eq_refl (get_state P)). rewrite Hpc, (rk_curr_idx _ _ _ _ _ _ I).
  mstep (on_r_ring_run _ P _ _ (packet_block_run _ _ _ _ Hm Hl)). rewrite set_r_ring_id.
  eexists. split; [done|]. apply moved_ok; [done|].
  exists pkt, [], ms, rest. split_and!; [done|done|by apply packet_split_payload|by rewrite app_nil_r].
Qed.

(** One message: logged, its order pushed. *)
Lemma poll_message_step P c m ms1 ms2 rest pkt popped queued :
  real_ok (Ok tt) P c (messages_upto c P ++ ms1) popped queued → r_pc P = RParse (concat (m :: ms2) ++ rest) →
  r_captured P !! c = Some pkt → packet_split pkt = (ms1 ++ m :: ms2, rest) →
  64 * Z.of_nat (length (captured_messages P)) + 2 ≤ FILE_SIZE → (keep = true → queue_has_room P = true) →
  ∃ payload p' queued', let P' := set_r_pc (RParse payload) (set_r_parser p' P) in
    real_poll_step P = (Ok tt, P') ∧
    real_ok (Ok tt) P' c ((messages_upto c P ++ ms1) ++ [m]) popped queued' ∧
    (length queued' ≤ S (length queued))%nat.
Proof.
  intros I Hpc Hpkt Es Hroom Hkeep. set (parsed := messages_upto c P ++ ms1) in *.
  pose proof (proj1 (Forall_lookup _ _) (rk_clean _ _ _ _ _ _ I) c pkt Hpkt) as Hclean.
  destruct (clean_packet_facts _ _ _ Hclean Es) as (_ & Hb & _ & Hw).
  assert (poll_ok (set_r_pc (RParse (concat ms2 ++ rest)) P) c (parsed ++ [m])) as Hp'.
  { exists pkt, (ms1 ++ [m]), ms2, rest. subst parsed. rewrite <- !app_assoc. by split_and!. }
  assert (S (length parsed) ≤ length (captured_messages P))%nat as Hlen.
  { destruct (parsed_prefix _ _ _ Hp') as [l Hl]. change (captured_messages (set_r_pc _ P)) with (captured_messages P) in Hl.
    rewrite Hl, !length_app. cbn [length]. lia. }
  destruct (parse_step_rep e tsc m (concat ms2 ++ rest) (r_parser P) (message_frames tsc 0 parsed)
    (fold_left (λ _ m, overrun m) parsed 0) queued) as (p' & E & Hrep).
  - apply Forall_app in Hw as [_ Hw]. by apply Forall_cons in Hw as [? _].
  - rewrite concat_app, <- app_assoc in Hb. apply Forall_app in Hb as [_ Hb]. cbn [concat] in Hb.
    by rewrite <- app_assoc in Hb.
  - apply I.
  - rewrite length_message_frames. lia.
  - cbn [concat] in Hpc. rewrite <- app_assoc in Hpc.
    assert (on_r_parser (parse_step Size tsc (m ++ concat ms2 ++ rest)) P = (Ok (Some (concat ms2 ++ rest)), set_r_parser p' P)) as Er.
    { unfold on_r_parser, zoom. by rewrite E. }
    exists (concat ms2 ++ rest), p', (enqueue_all e queued (omap decode [m])). cbv zeta.
    split; [unfold real_poll_step; mstep (eq_refl (get_state P)); rewrite Hpc; by mstep Er|].
    destruct (enqueue_message e queued m) as [Hsub Heq]. split; [constructor; try apply I; [exact Hp'|..]|].
    + rewrite frames_of_handled, fold_left_app, length_message_frames. cbn [fold_left message_frames].
      rewrite length_message_frames in Hrep. unfold enqueue_all. cbn [omap list_omap]. by destruct (decode m).
    + rewrite omap_snoc. etrans; [apply sublist_app; [done|exact Hsub]|]. rewrite app_assoc.
      apply sublist_app; [apply I|done].
    + intros Hk. specialize (Hkeep Hk). rewrite Heq, omap_snoc, app_assoc; [f_equal; by apply I|].
      destruct (rk_parser _ _ _ _ _ _ I) as (_ & Hq & _). unfold queue_has_room in Hkeep.
      destruct (push_rep Size _ _ (NCancel (mkCancelOrder 0 0 0 0 0)) Hq) as (q' & Eq & _).
      rewrite Eq in Hkeep. cbn [fst] in Hkeep. apply bool_decide_eq_true_1 in Hkeep. injection Hkeep as Hr. lia.
    + apply sublist_length in Hsub. pose proof (length_omap_le decode [m]) as Hle. rewrite length_app in Hsub.
      cbn [length] in Hle. lia.
Qed.

(** The end of the block. *)
Lemma poll_end_step P c ms1 rest pkt popped queued :
  real_ok (Ok tt) P c (messages_upto c P ++ ms1) popped queued → r_pc P = RParse rest →
  r_captured P !! c = Some pkt → packet_split pkt = (ms1, rest) →
  real_poll_step P = (Ok tt, set_r_pc RRelease P) ∧
  real_ok (Ok tt) (set_r_pc RRelease P) c (messages_upto c P ++ ms1) popped queued.
Proof.
  intros I Hpc Hpkt Es.
  pose proof (proj1 (Forall_lookup _ _) (rk_clean _ _ _ _ _ _ I) c pkt Hpkt) as Hclean.
  destruct (clean_packet_facts _ _ _ Hclean Es) as (_ & _ & Hrest & _).
  unfold real_poll_step. mstep (eq_refl (get_state P)). rewrite Hpc.
  assert (on_r_parser (parse_step Size tsc rest) P = (Ok None, P)) as Er.
  { unfold on_r_parser, zoom. rewrite parse_step_end by done. by destruct P. }
  mstep Er. split; [done|]. apply moved_ok; [done|]. split; [|by eapply lookup_lt_Some].
  rewrite (messages_upto_S (set_r_pc RRelease P) c pkt) by done. unfold packet_messages. by rewrite Es.
Qed.

(** The frame goes back to the kernel. *)
Lemma poll_release_step P c parsed popped queued : real_ok (Ok tt) P c parsed popped queued → r_pc P = RRelease →
  ∃ r', let P' := next_r_frame (set_r_ring r' P) in
    real_poll_step P = (Ok tt, P') ∧ real_ok (Ok tt) P' (S c) parsed popped queued.
Proof.
  intros I Hpc. pose proof (rk_poll _ _ _ _ _ _ I) as Hp. unfold poll_ok in Hp. rewrite Hpc in Hp.
  destruct Hp as [Hp Hc]. pose proof (rk_window _ _ _ _ _ _ I) as Hwin.
  destruct (set_status_run (ring_slot c) TP_STATUS_KERNEL (r_ring P)) as (r' & E & Hok & Hst & Ho & _);
    [apply I|apply ring_slot_range|].
  unfold real_poll_step. mstep (eq_refl (get_state P)). rewrite Hpc, (rk_curr_idx _ _ _ _ _ _ I).
  mstep (on_r_ring_run _ P _ _ E). eexists. split; [done|].
  constructor; try apply I; cbn [set_r_ring next_r_frame r_ring r_curr_frame_idx r_total_packets r_captured].
  - done.
  - lia.
  - rewrite (rk_curr_idx _ _ _ _ _ _ I). apply ring_slot_S.
  - rewrite (rk_total _ _ _ _ _ _ I). unfold u64, uwrap. rewrite Zplus_mod_idemp_l. f_equal. lia.
  - intros k pkt Hk Hpkt. pose proof (lookup_lt_Some _ _ _ Hpkt).
    eapply user_frame_other; [exact Ho| |apply (rk_full _ _ _ _ _ _ I); [lia|done]].
    intros Ek. apply ring_slot_inj in Ek; lia.
  - intros i Hi Hne. destruct (decide (i = ring_slot c)) as [->|Hic]; [done|].
    eapply status_frame; [done|congruence|]. apply (rk_free _ _ _ _ _ _ I); [done|]. intros k Hk.
    destruct (decide (k = c)) as [->|]; [done|]. apply Hne. lia.
  - exact Hp.
Qed.

(** The steps of the poller left to do for the packets captured: four for a
    packet and one for each of its messages. *)
Definition phase (pc : real_pc) : nat :=
  match pc with RWait => 0 | RTake => 1 | RParse _ => 2 | RRelease => 3 end.
Definition poll_work (P : Real) (c : nat) (parsed : list (list Z)) : nat :=
  4 * (length (r_captured P) - c) + (length (captured_messages P) - length parsed) - phase (r_pc P).

(** A step of the poller does a part of its work, or there is none; it pushes
    at most one order. *)
Definition poll_progress (P P' : Real) (c c' : nat) (parsed parsed' : list (list Z))
    (queued queued' : list NormalizedOrder) : Prop :=
  r_captured P' = r_captured P ∧ (length queued' ≤ S (length queued))%nat ∧
  (P' = P ∧ c' = c ∧ parsed' = parsed ∧ queued' = queued ∧ r_pc P = RWait ∧ c = length (r_captured P) ∨
   S (poll_work P' c' parsed') = poll_work P c parsed).

Lemma poll_step_real P c parsed popped queued : real_ok (Ok tt) P c parsed popped queued →
  64 * Z.of_nat (length (captured_messages P)) + 2 ≤ FILE_SIZE → (keep = true → queue_has_room P = true) →
  ∃ P' c' parsed' queued', real_poll_step P = (Ok tt, P') ∧ real_ok (Ok tt) P' c' parsed' popped queued' ∧
    poll_progress P P' c c' parsed parsed' queued queued'.
Proof.
  intros I Hroom Hkeep. pose proof (rk_poll _ _ _ _ _ _ I) as Hp. unfold poll_progress, poll_work.
  destruct (r_pc P) as [| |payload|] eqn:Hpc; unfold poll_ok in Hp; rewrite Hpc in Hp.
  - destruct (poll_wait_step _ _ _ _ _ I Hpc) as (P' & E & I' & Hcase). exists P', c, parsed, queued.
    split_and!; [done|done|by destruct Hcase as [[-> _]|[-> _]]|lia|].
    destruct Hcase as [[-> Hc]|[-> Hc]]; [by left|right]. cbn [set_r_pc r_pc r_captured phase].
    change (captured_messages (set_r_pc RTake P)) with (captured_messages P). lia.
  - destruct (poll_take_step _ _ _ _ _ I Hpc) as (payload & E & I'). eexists _, c, parsed, queued.
    split_and!; [done|done|done|lia|right]. cbn [set_r_pc r_pc r_captured phase]. destruct Hp as [_ Hc].
    change (captured_messages (set_r_pc (RParse payload) P)) with (captured_messages P). lia.
  - destruct Hp as (pkt & ms1 & ms2 & rest & Hpkt & Es & -> & ->).
    pose proof (lookup_lt_Some _ _ _ Hpkt) as Hc. destruct ms2 as [|m ms2].
    + rewrite app_nil_r in Es. destruct (poll_end_step _ _ _ _ _ _ _ I Hpc Hpkt Es) as (E & I').
      eexists _, c, _, queued. split_and!; [done|done|done|lia|right]. cbn [set_r_pc r_pc r_captured phase].
      change (captured_messages (set_r_pc RRelease P)) with (captured_messages P). lia.
    + destruct (poll_message_step _ _ _ _ _ _ _ _ _ I Hpc Hpkt Es Hroom Hkeep)
        as (payload & p' & queued' & E & I' & Hl). cbv zeta in E, I'.
      pose proof (parsed_prefix _ _ _ (rk_poll _ _ _ _ _ _ I')) as Hpre. apply prefix_length in Hpre.
      eexists _, c, _, queued'. split_and!; [done|done|done|done|right].
      cbn [set_r_pc set_r_parser r_pc r_captured phase].
      change (captured_messages (set_r_pc _ _)) with (captured_messages P) in *.
      rewrite (length_app _ [m]) in *. cbn [length] in *. lia.
  - destruct (poll_release_step _ _ _ _ _ I Hpc) as (r' & E & I'). cbv zeta in E, I'.
    eexists _, (S c), parsed, queued. split_and!; [done|done|done|lia|right]. destruct Hp as [_ Hc].
    cbn [next_r_frame set_r_ring r_pc r_captured phase].
    change (captured_messages (next_r_frame _)) with (captured_messages P). lia.
Qed.

(** ** The kernel *)

Lemma messages_upto_captured pkt r' P c : (c ≤ length (r_captured P))%nat →
  messages_upto c (capture pkt r' P) = messages_upto c P.
Proof. intros Hc. unfold messages_upto. cbn [capture r_captured]. by rewrite take_app_le. Qed.

Lemma capture_ok P c parsed popped queued pkt r' : real_ok (Ok tt) P c parsed popped queued →
  sent pkt → kernel_fills (r_ring P) (r_kernel_idx P) pkt r' →
  real_ok (Ok tt) (capture pkt r' P) c parsed popped queued.
Proof.
  intros I Hs [Hown Hok Ho Hst Hpk]. rewrite (rk_kernel_idx _ _ _ _ _ _ I) in *.
  set (p := length (r_captured P)) in *. pose proof (rk_window _ _ _ _ _ _ I) as Hwin. fold p in Hwin.
  assert (p ≠ c + 4096)%nat as Hfull.
  { intros Hp. destruct (lookup_lt_is_Some_2 (r_captured P) c) as [pk Hpk0]; [lia|].
    apply (user_not_kernel _ _ _ (rk_full _ _ _ _ _ _ I c pk ltac:(lia) Hpk0)).
    by rewrite Hp, ring_slot_wrap in Hown. }
  constructor; try apply I; cbn [capture r_ring r_captured r_kernel_idx].
  - done.
  - rewrite length_app. cbn [length]. fold p. lia.
  - apply Forall_app. split; [apply I|]. constructor; [by apply Hsent|done].
  - rewrite (rk_kernel_idx _ _ _ _ _ _ I), length_app, Nat.add_1_r. apply ring_slot_S.
  - intros k q Hk Hq. apply lookup_app_Some in Hq as [Hq|[Hge Hq]].
    + pose proof (lookup_lt_Some _ _ _ Hq) as Hlt. fold p in Hlt.
      eapply user_frame_other; [exact Ho| |by apply (rk_full _ _ _ _ _ _ I)].
      intros Ek. apply ring_slot_inj in Ek; lia.
    + apply list_lookup_singleton_Some in Hq as [Hz <-]. fold p in Hz, Hge.
      replace k with p by lia. by split.
  - intros i Hi Hne. rewrite length_app, Nat.add_1_r in Hne. fold p in Hne.
    eapply status_frame; [exact Ho|by apply not_eq_sym, Hne; lia|].
    apply (rk_free _ _ _ _ _ _ I); [done|]. intros k Hk. apply Hne. fold p in Hk. lia.
  - pose proof (rk_poll _ _ _ _ _ _ I) as Hp. unfold poll_ok in *. cbn [capture r_pc r_captured].
    rewrite length_app. cbn [length]. fold p. destruct (r_pc P) as [| |payload|].
    + by rewrite messages_upto_captured by (fold p; lia).
    + destruct Hp as [Hp Hc]. fold p in Hc. rewrite messages_upto_captured by (fold p; lia). split; [done|lia].
    + destruct Hp as (q & ms1 & ms2 & rest & Hq & ?). exists q, ms1, ms2, rest.
      rewrite messages_upto_captured by (fold p; lia). split; [by apply lookup_app_l_Some|done].
    + destruct Hp as [Hp Hc]. fold p in Hc. rewrite messages_upto_captured by (fold p; lia). split; [done|lia].
Qed.

(** ** The other threads *)

Lemma consume_real P c parsed popped queued rd : real_ok (Ok tt) P c parsed popped queued →
  counters_ready hw rd = true →
  ∃ o P' popped', real_thread_step (ConsumeOrder rd) P = (o, P') ∧
    real_ok o P' c parsed popped' (list.tail queued) ∧ r_captured P' = r_captured P.
Proof.
  intros I Hrd. pose proof (rk_parser _ _ _ _ _ _ I) as (Hlog & Hq & Hseq).
  destruct (consume_iteration_run e hw rd (r_consumer P) queued) as (o & q' & b' & t' & l & Hrun & Hq' & Ht & Hl & Ho);
    [apply I|done|exact Hq|apply I|].
  exists o, (set_r_consumer (mkConsumer q' b' t' l) P), (popped ++ take 1 queued).
  split; [unfold real_thread_step, zoom; by rewrite Hrun|]. split; [|done].
  constructor; rewrite ?take_1_tail; try apply I; try done.
  by eapply consumed_orders; [apply I|].
Qed.

Lemma write_telemetry_real P c parsed popped queued : real_ok (Ok tt) P c parsed popped queued →
  ∃ P', real_thread_step WriteTelemetry P = (Ok tt, P') ∧ real_ok (Ok tt) P' c parsed popped queued.
Proof.
  intros I. destruct (log_step_ok TELEMETRY_BUFFER_SIZE buffer_size_16384 (r_telemetry P)) as (t' & E & Ht); [apply I|].
  exists (set_r_telemetry t' P). split; [unfold real_thread_step, zoom; by rewrite E|].
  constructor; try apply I. exact Ht.
Qed.

Lemma set_stats_ok o P c parsed popped queued st : real_ok o P c parsed popped queued →
  real_ok o (set_r_stats st P) c parsed popped queued.
Proof. intros I. constructor; apply I. Qed.

Lemma print_stats_real P ok : ∃ st, real_thread_step (PrintStats ok) P = (Ok tt, set_r_stats st P).
Proof.
  unfold real_thread_step, zoom, print_statistics. munfold.
  destruct (stat_running (r_stats P)); cbn [negb]; [destruct ok|]; by eexists.
Qed.

(** ** Every step *)

Lemma thread_step_real P c parsed popped queued t : real_ok (Ok tt) P c parsed popped queued →
  thread_ready t = true → 64 * Z.of_nat (length (captured_messages P)) + 2 ≤ FILE_SIZE →
  (keep = true → t = Poll → queue_has_room P = true) →
  ∃ o P' c' parsed' popped' queued', real_thread_step t P = (o, P') ∧
    real_ok o P' c' parsed' popped' queued'.
Proof.
  intros I Ht Hroom Hkeep. destruct t as [|rd| |ok].
  - destruct (poll_step_real _ _ _ _ _ I Hroom) as (P' & c' & parsed' & queued' & E & I' & _); [naive_solver|].
    by exists (Ok tt), P', c', parsed', popped, queued'.
  - destruct (consume_real _ _ _ _ _ rd I Ht) as (o & P' & popped' & E & I' & _).
    by eexists o, P', c, parsed, popped', _.
  - destruct (write_telemetry_real _ _ _ _ _ I) as (P' & E & I').
    by exists (Ok tt), P', c, parsed, popped, queued.
  - destruct (print_stats_real P ok) as (st & E). exists (Ok tt), (set_r_stats st P), c, parsed, popped, queued.
    split; [exact E|by apply set_stats_ok].
Qed.

(** What is captured only grows. *)
Lemma thread_captured t P o P' : real_thread_step t P = (o, P') → r_captured P' = r_captured P.
Proof.
  destruct t as [|rd| |ok]; cbn [real_thread_step].
  2-4: unfold zoom; match goal with |- (let '(_, _) := ?m in _) = _ → _ => destruct m end; by intros [= _ <-].
  unfold real_poll_step, on_r_ring, on_r_parser, mbind, M_bind, zoom. cbn [get_state].
  destruct (r_pc P);
    match goal with |- match (let '(_, _) := ?m in _) with _ => _ end = _ → _ => destruct m as [[] ?] end;
    repeat case_match; by intros [= _ <-].
Qed.

Lemma captured_grows P P' : real_step keep P P' →
  (length (captured_messages P) ≤ length (captured_messages P'))%nat.
Proof.
  unfold captured_messages. destruct 1 as [P pkt r' _ _ _|P pkt _ _|P t P' _ _ E].
  - cbn [capture r_captured]. rewrite fmap_app, concat_app, length_app. lia.
  - done.
  - by rewrite (thread_captured _ _ _ _ E).
Qed.

Lemma real_step_ok P P' c parsed popped queued : real_ok (Ok tt) P c parsed popped queued →
  real_step keep P P' → 64 * Z.of_nat (length (captured_messages P)) + 2 ≤ FILE_SIZE →
  ∃ c' parsed' popped' queued', real_ok (Ok tt) P' c' parsed' popped' queued'.
Proof.
  intros I Hstep Hroom. destruct Hstep as [P pkt r' Hs Hf Hk|P pkt _ _|P t P' Ht Hkeep E].
  - exists c, parsed, popped, queued. by apply capture_ok.
  - exists c, parsed, popped, queued. by apply set_stats_ok.
  - destruct (thread_step_real _ _ _ _ _ t I Ht Hroom Hkeep) as (o & P1 & c' & parsed' & popped' & queued' & E1 & I').
    rewrite E in E1. injection E1 as <- <-. by exists c', parsed', popped', queued'.
Qed.

Lemma real_reach P0 P : (∃ c parsed popped queued, real_ok (Ok tt) P0 c parsed popped queued) →
  rtc (real_step keep) P0 P → 64 * Z.of_nat (length (captured_messages P)) + 2 ≤ FILE_SIZE →
  ∃ c parsed popped queued, real_ok (Ok tt) P c parsed popped queued.
Proof.
  intros I0. revert P. refine (rtc_ind_r _ _ _ _); [done|]. intros P P' Hsteps Hstep IH Hroom. pose proof (captured_grows _ _ Hstep).
  destruct IH as (c & parsed & popped & queued & I); [lia|]. eapply real_step_ok; [exact I|done|lia].
Qed.
End Invariant.

Lemma real_start_ok b0 keep lg d : 0 ≤ e ≤ 63 → MmapLogger_new true true true true = Ok lg →
  real_ok b0 keep (Ok tt) (real_start lg d b0) 0 [] [] [].
Proof.
  intros He Hlg. constructor; cbn [real_start r_ring r_captured r_pc length]; try done; try lia.
  - intros i Hi _. by apply new_ring_status.
  - by apply new_parser_rep.
  - apply Telemetry_new_ok, buffer_size_16384.
  - cbn. lia.
Qed.

(** Threads one after the other. *)
Fixpoint run_real (ts : list real_thread) : M Real unit :=
  match ts with
  | [] => mret tt
  | t :: ts' => real_thread_step t;; run_real ts'
  end.

Lemma run_real_steps ts P P' : Forall (λ t, thread_ready t = true) ts → run_real ts P = (Ok tt, P') →
  rtc (real_step false) P P'.
Proof.
  intros Hts. revert P. induction Hts as [|t ts Ht _ IH]; intros P; cbn [run_real].
  - by intros [= <-].
  - unfold mbind, M_bind. destruct (real_thread_step t P) as [[[]| | |] P1] eqn:E; try done.
    intros Hrun. eapply rtc_l; [by apply (ThreadSteps false P t P1)|by apply IH].
Qed.
End Program.

Lemma captured_whole captured : Forall (λ pkt, clean_packet pkt = true) captured →
  Forall (λ m, whole_message m = true) (concat (packet_messages <$> captured)) ∧
  Forall (Forall is_byte) (concat (packet_messages <$> captured)).
Proof.
  induction 1 as [|pkt captured Hpkt _ [IH1 IH2]]; [done|]. cbn [fmap list_fmap concat].
  destruct (packet_split pkt) as [ms rest] eqn:E. destruct (clean_packet_facts _ _ _ Hpkt E) as (_ & Hb & _ & Hw).
  assert (packet_messages pkt = ms) as -> by (unfold packet_messages; by rewrite E).
  split; apply Forall_app; split; try done. apply Forall_app in Hb as [Hb _]. clear -Hb.
  induction ms as [|m ms IH]; [done|]. cbn [concat] in Hb. apply Forall_app in Hb as [Hm Hb]. constructor; auto.
Qed.

(** C2 Real mode, once the receiver is constructed (which a kernel that refuses
    the filter option prevents): if every packet sent has 42 bytes of headers
    followed by whole messages and at most the start of one, if the frames of
    the captured messages and two bytes more fit the log, and the perf counters
    are scheduled whenever the consumer steps, then in every interleaving of
    the kernel with the threads of the program, packets dropped or not, every
    thread can step, without an access outside the memory mapped or allocated
    for it (a message of type I or O runs over the 44-byte payload of its
    frame, inside the log), and fails only by the book's "less shares"
    exception. The messages parsed are the first messages of the captured
    packets; popped and queued orders are, in order, orders of these messages,
    and all of them if the poller only ran while the queue had room; the levels
    of the book are the contract's for the orders popped. If no order of the
    messages parsed throws, and the last of them did not leave the byte of the
    marker after its frame, replaying the log into a new book gives the book of
    the messages parsed. *)
Theorem real_program_is_safe e tsc hw sent keep lg d b P max_orders map_page page_size fuel :
  0 ≤ e ≤ 63 → MmapLogger_new true true true true = Ok lg →
  0 < max_orders ≤ ORDER_MAP_SIZE → new_book max_orders map_page true true = Ok b →
  (∀ pkt, sent pkt → clean_packet pkt = true) →
  rtc (real_step e tsc hw sent keep) (real_start e lg d b) P →
  64 * Z.of_nat (length (captured_messages P)) + 2 ≤ FILE_SIZE →
  0 < page_size → (page_size | FILE_SIZE) → (length (captured_messages P) < fuel)%nat →
  ∃ parsed popped queued,
    parsed `prefix_of` captured_messages P ∧ queue_rep (2 ^ e) (queue_ (r_parser P)) queued ∧
    popped ++ queued `sublist_of` omap decode parsed ∧
    (keep = true → popped ++ queued = omap decode parsed) ∧
    (∀ side p, 0 ≤ p < MAX_TICKS →
       level_orders side p (r_book P) = Some (any_queue side p (any_apply max_orders popped any_empty).2)) ∧
    (∀ t, thread_ready hw t = true → (keep = true → t = Poll → queue_has_room e P = true) →
       (real_thread_step e tsc hw t P).1 = Ok tt ∨ (real_thread_step e tsc hw t P).1 = Throw too_few_shares) ∧
    ∀ b', apply_orders (omap decode parsed) b = (Ok tt, b') →
      fold_left (λ _ m, overrun m) parsed 0 ≠ VALID_FRAME_MARKER →
      ∃ log, start_ (logger_ (r_parser P)) = Some log ∧
        run_recovery fuel page_size (Some log) true true (RecoveryEngine_new b) =
          (Ok tt, mkEngine b' (report_at (length parsed) 0)).
Proof.
  intros He Hlg Hmax Hnew Hsent Hsteps Hroom Hpage Hdiv Hfuel.
  destruct (real_reach e tsc hw sent b keep Hsent (real_start e lg d b) P) as (c & parsed & popped & queued & I);
    [exists 0%nat, [], [], []; by apply real_start_ok|done|done|].
  pose proof (parsed_prefix _ _ _ (rk_poll _ _ _ _ _ _ _ _ _ _ I)) as Hpre.
  destruct (captured_whole _ (rk_clean _ _ _ _ _ _ _ _ _ _ I)) as [Hw Hb].
  change (concat (packet_messages <$> r_captured P)) with (captured_messages P) in Hw, Hb.
  destruct Hpre as [later Hlater]. rewrite Hlater in Hw, Hb, Hroom, Hfuel. rewrite length_app in Hroom, Hfuel.
  apply Forall_app in Hw as [Hw _]. apply Forall_app in Hb as [Hb _].
  destruct (orders_applied max_orders map_page b parsed popped queued (Ok tt) (r_book P))
    as (_ & _ & _ & _ & Hbook); try done; [apply I..|].
  exists parsed, popped, queued. split_and!; try apply I; [by exists later|done| |].
  - intros t Ht Hkeep.
    destruct (thread_step_real e tsc hw b keep P c parsed popped queued t I Ht)
      as (o & P' & c' & parsed' & popped' & queued' & E & I'); [rewrite Hlater, length_app; lia|done|].
    rewrite E. cbn [fst].
    pose proof (rk_poll _ _ _ _ _ _ _ _ _ _ I') as Hp'. apply parsed_prefix in Hp' as [later' Hlater'].
    destruct (captured_whole _ (rk_clean _ _ _ _ _ _ _ _ _ _ I')) as [_ Hb'].
    change (concat (packet_messages <$> r_captured P')) with (captured_messages P') in Hb'.
    rewrite Hlater' in Hb'. apply Forall_app in Hb' as [Hb' _].
    destruct (orders_applied max_orders map_page b parsed' popped' queued' o (r_book P')) as (Ho & _);
      try done; apply I'.
  - intros b' Happ Hnext.
    apply (log_recovers e tsc (r_parser P) parsed queued b b' page_size fuel); try done; [apply I|lia|lia].
Qed.

(** * A small run *)

Definition sample_add_packet : list Z :=
  sample_headers ++ encode (NAdd (mkAddOrder 1 9 100 500 0 0 (replicate 8 32) char_B)).

(** The first frame as the kernel fills it, the packet at byte 66. *)
Definition sample_writes : list (Z * list Z) :=
  [(off_tp_snaplen, le_bytes 4 78); (off_tp_net, le_bytes 2 80); (66, sample_add_packet);
   (off_tp_status, le_bytes 4 TP_STATUS_USER)].

Definition write_all (ws : list (Z * list Z)) (r : array Z) : array Z :=
  fold_left (λ r '(off, l), default r (write_bytes r off l)) ws r.

Definition sample_filled : array Z := write_all sample_writes (anew (RX_BLOCK_SIZE * RX_BLOCK_NR) 0).

Lemma write_all_frame ws r : Forall (λ w, 0 ≤ w.1 ∧ w.1 + Z.of_nat (length w.2) ≤ RX_FRAME_SIZE) ws →
  only_frame 0 r (write_all ws r).
Proof.
  intros Hws. revert r. induction Hws as [|[off l] ws [H1 H2] _ IH]; intros r; [by intros j _|].
  cbn [write_all fold_left fst snd] in *. intros j Hj. etrans; [by apply IH|].
  destruct (write_bytes r off l) as [r'|] eqn:E; [|done]. cbn [default id].
  rewrite (write_bytes_get _ _ _ _ _ E). case_decide; [lia|done].
Qed.

Lemma sample_kernel_fills :
  kernel_fills (anew (RX_BLOCK_SIZE * RX_BLOCK_NR) 0) 0 sample_add_packet sample_filled.
Proof.
  constructor.
  - by apply new_ring_status.
  - by vm_compute.
  - apply write_all_frame. repeat constructor; by vm_compute.
  - exists TP_STATUS_USER. split_and!; by vm_compute.
  - exists 66. constructor; by vm_compute.
Qed.

Definition sample_real_threads : list real_thread :=
  [Poll; Poll; Poll; ConsumeOrder sample_readings; Poll; Poll; WriteTelemetry; PrintStats true].

Lemma real_program_is_safe_witness :
  match new_book 4 4096 true true with
  | Ok b =>
      let lg := mkLogger (Some (anew FILE_SIZE 0)) 0 in
      let P := (run_real 2 (λ n, n) true sample_real_threads
                  (capture sample_add_packet sample_filled (real_start 2 lg sample_order b))).2 in
      feed_packet sample_add_packet = true ∧
      ∃ parsed popped queued,
        parsed `prefix_of` captured_messages P ∧ popped ++ queued `sublist_of` omap decode parsed ∧
        level_orders Buy 500 (r_book P) = Some (any_queue Buy 500 (any_apply 4 popped any_empty).2)
  | _ => False
  end.
Proof.
  destruct (new_book 4 4096 true true) as [b| | |] eqn:E; [|by vm_compute in E..]. intros lg P.
  split; [by vm_compute|].
  set (P0 := real_start 2 lg sample_order b) in P.
  assert ((run_real 2 (λ n, n) true sample_real_threads (capture sample_add_packet sample_filled P0)).1 = Ok tt ∧
    64 * Z.of_nat (length (captured_messages P)) + 2 ≤ FILE_SIZE ∧ (length (captured_messages P) <? 10)%nat = true)
    as (Hrun & Hroom & Hfuel).
  { subst P P0 lg. revert E. unfold new_book, StaticOrderMap_new. cbn [negb]. intros E. injection E as <-.
    split_and!; by vm_compute. }
  assert (rtc (real_step 2 (λ n, n) true (λ pkt, pkt = sample_add_packet) false) P0 P) as Hsteps.
  { eapply rtc_l; [apply (KernelCaptures _ _ _ _ _ P0 sample_add_packet sample_filled);
      [done|by vm_compute|exact sample_kernel_fills]|].
    apply (run_real_steps 2 (λ n, n) true _ sample_real_threads); [by repeat constructor|]. subst P.
    rewrite <- Hrun. apply surjective_pairing. }
  clearbody P.
  destruct (real_program_is_safe 2 (λ n, n) true (λ pkt, pkt = sample_add_packet) false lg sample_order b P 4 4096 4096 10)
    as (parsed & popped & queued & H1 & _ & H2 & _ & H3 & _);
    [lia|reflexivity|clear; by vm_compute|exact E|clear; intros pkt ->; by vm_compute|exact Hsteps|exact Hroom|lia
    |by exists 262144|exact (proj1 (Nat.ltb_lt _ _) Hfuel)|].
  exists parsed, popped, queued. split; [exact H1|]. split; [exact H2|]. apply H3. clear. by vm_compute.
Defined.
