(* ===== verification/RealLiveness.v ===== *)
(** Progress of the program in real mode (RealProgram.v): the packets captured
    are parsed, their orders reach the book and the frames go back to the
    kernel.

    The work left in a state is two units for each step the poller has to do
    and one for each order in the queue.  No step of a thread adds to it; a
    step of the poller that has something to do, and a step of the consumer
    that finds an order, take at least one unit away. *)

From S2P Require Import Prelude Interfaces HierarchicalBitset StaticOrderMap SPSCQueue ItchOrderTypes LimitOrderBook MockOrderBook BookTheorems AnyOrders Crc32 MmapLogger ItchParser ParserTheorems RecoveryEngine MulticastReceiver Pipeline BpfFilter Telemetry RealPoll Statistics MockProgram ProgramSafety RealProgram.

Section Progress.
Context (e : Z) (tsc : Z → Z) (hw : bool) (b0 : Book).
#[local] Abbreviation ok := (real_ok e tsc b0 true).

Definition real_work (P : Real) (c : nat) (parsed : list (list Z)) (queued : list NormalizedOrder) : nat :=
  2 * poll_work P c parsed + length queued.

Definition is_consume (t : real_thread) : bool := match t with ConsumeOrder _ => true | _ => false end.

(** The schedules in which the consumer keeps up: the queue has room whenever
    the poller steps. *)
Fixpoint real_keeps_up (ts : list real_thread) (P : Real) : bool :=
  match ts with
  | [] => true
  | t :: ts' =>
      (match t with Poll => queue_has_room e P | _ => true end) &&
      match real_thread_step e tsc hw t P with (Ok _, P') => real_keeps_up ts' P' | _ => true end
  end.

(** * One step *)

(** Work is done, or the thread has nothing to do. *)
Definition works (t : real_thread) (P P' : Real) (c c' : nat) (parsed parsed' : list (list Z))
    (queued queued' : list NormalizedOrder) : Prop :=
  (real_work P' c' parsed' queued' < real_work P c parsed queued)%nat ∨
  poll_work P' c' parsed' = poll_work P c parsed ∧ queued' = queued ∧
  (t = Poll → poll_work P c parsed = 0%nat) ∧ (is_consume t = true → queued = []).

Lemma idle_poller_done P c parsed popped queued o : ok o P c parsed popped queued →
  r_pc P = RWait → c = length (r_captured P) → poll_work P c parsed = 0%nat.
Proof.
  intros I Hpc ->. pose proof (rk_poll _ _ _ _ _ _ _ _ _ _ I) as Hp. unfold poll_ok in Hp. rewrite Hpc in Hp.
  unfold poll_work. rewrite Hpc, Hp. unfold messages_upto, captured_messages. rewrite firstn_all. cbn [phase]. lia.
Qed.

Lemma done_poller_idle P c parsed popped queued o : ok o P c parsed popped queued →
  poll_work P c parsed = 0%nat →
  r_pc P = RWait ∧ c = length (r_captured P) ∧ parsed = captured_messages P.
Proof.
  intros I Hw. pose proof (rk_poll _ _ _ _ _ _ _ _ _ _ I) as Hp. pose proof (rk_window _ _ _ _ _ _ _ _ _ _ I) as Hwin.
  unfold poll_work in Hw. unfold poll_ok in Hp. destruct (r_pc P) as [| |payload|]; cbn [phase] in Hw.
  - assert (c = length (r_captured P)) as -> by lia. split_and!; [done|done|]. rewrite Hp.
    unfold messages_upto, captured_messages. by rewrite firstn_all.
  - destruct Hp. lia.
  - destruct Hp as (pkt & ms1 & ms2 & rest & Hpkt & _). apply lookup_lt_Some in Hpkt. lia.
  - destruct Hp. lia.
Qed.

Lemma same_poll_work P P' c parsed : r_captured P' = r_captured P → r_pc P' = r_pc P →
  poll_work P' c parsed = poll_work P c parsed.
Proof. intros H1 H2. unfold poll_work, captured_messages. by rewrite H1, H2. Qed.

(** Only the poller moves the poller. *)
Lemma thread_pc t P o P' : real_thread_step e tsc hw t P = (o, P') → t ≠ Poll → r_pc P' = r_pc P.
Proof.
  destruct t as [|rd| |x]; cbn [real_thread_step]; [done|..];
    unfold zoom; match goal with |- (let '(_, _) := ?m in _) = _ → _ => destruct m end; by intros [= _ <-] _.
Qed.

Lemma thread_works P c parsed popped queued t : ok (Ok tt) P c parsed popped queued →
  thread_ready hw t = true → 64 * Z.of_nat (length (captured_messages P)) + 2 ≤ FILE_SIZE →
  (t = Poll → queue_has_room e P = true) →
  ∃ o P' c' parsed' popped' queued', real_thread_step e tsc hw t P = (o, P') ∧
    ok o P' c' parsed' popped' queued' ∧ works t P P' c c' parsed parsed' queued queued'.
Proof.
  intros I Ht Hroom Hkeep.
  assert (∀ o P', real_thread_step e tsc hw t P = (o, P') → t ≠ Poll → poll_work P' c parsed = poll_work P c parsed)
    as Hsame.
  { intros o P' E Hne. apply same_poll_work; [by eapply thread_captured|by eapply thread_pc]. }
  unfold works, real_work. destruct t as [|rd| |x].
  - destruct (poll_step_real _ _ _ _ _ _ _ _ _ I Hroom) as (P' & c' & parsed' & queued' & E & I' & _ & Hl & Hpr); [by auto|].
    exists (Ok tt), P', c', parsed', popped, queued'. split_and!; [done|done|].
    destruct Hpr as [(-> & -> & -> & -> & Hpc & Hc)|Hw]; [right|left; lia].
    split_and!; [done|done|by intros _; eapply idle_poller_done|done].
  - destruct (consume_real _ _ _ _ _ _ _ _ _ _ rd I Ht) as (o & P' & popped' & E & I' & _).
    exists o, P', c, parsed, popped', (list.tail queued). rewrite (Hsame _ _ E) by done. split_and!; [done|done|].
    destruct queued as [|x queued]; [by right|left; cbn; lia].
  - destruct (write_telemetry_real _ _ hw _ _ _ _ _ _ _ I) as (P' & E & I').
    exists (Ok tt), P', c, parsed, popped, queued. rewrite (Hsame _ _ E) by done. split_and!; [done|done|]. by right.
  - destruct (print_stats_real e tsc hw P x) as (st & E).
    exists (Ok tt), (set_r_stats st P), c, parsed, popped, queued. rewrite (Hsame _ _ E) by done.
    split_and!; [done|by apply set_stats_ok|]. by right.
Qed.

(** * Schedules *)

Section Schedule.
Context (b' : Book) (captured : list (list Z)).
Hypothesis Hroom : 64 * Z.of_nat (length (concat (packet_messages <$> captured))) + 2 ≤ FILE_SIZE.
Hypothesis Happ : apply_orders (omap decode (concat (packet_messages <$> captured))) b0 = (Ok tt, b').

(** If the orders of all captured messages can be applied, the consumer does
    not fail. *)
Lemma kept_real P c parsed popped queued o : ok o P c parsed popped queued → r_captured P = captured → o = Ok tt.
Proof.
  intros I Hc. destruct (parsed_prefix _ _ _ (rk_poll _ _ _ _ _ _ _ _ _ _ I)) as [later Hl].
  unfold captured_messages in Hl. rewrite Hc in Hl. rewrite Hl, omap_app in Happ.
  rewrite <- (rk_kept _ _ _ _ _ _ _ _ _ _ I eq_refl), <- app_assoc in Happ.
  apply apply_orders_app in Happ as (b1 & Hb1 & _). pose proof (rk_book _ _ _ _ _ _ _ _ _ _ I). congruence.
Qed.

Definition has_turn (ts : list real_thread) (P : Real) (c : nat) (parsed : list (list Z))
    (queued : list NormalizedOrder) : Prop :=
  Poll ∈ ts ∧ poll_work P c parsed ≠ 0%nat ∨ existsb is_consume ts = true ∧ queued ≠ [].

Lemma run_works ts P c parsed popped queued : ok (Ok tt) P c parsed popped queued → r_captured P = captured →
  Forall (λ t, thread_ready hw t = true) ts → real_keeps_up ts P = true →
  ∃ P' c' parsed' popped' queued', run_real e tsc hw ts P = (Ok tt, P') ∧
    ok (Ok tt) P' c' parsed' popped' queued' ∧ r_captured P' = captured ∧
    (real_work P' c' parsed' queued' ≤ real_work P c parsed queued)%nat ∧
    (has_turn ts P c parsed queued → real_work P' c' parsed' queued' < real_work P c parsed queued)%nat.
Proof.
  intros I Hc Hts. revert P c parsed popped queued I Hc.
  induction Hts as [|t ts Ht _ IH]; intros P c parsed popped queued I Hc Hk; cbn [run_real real_keeps_up] in *.
  - exists P, c, parsed, popped, queued. split_and!; try done. intros [[Hin _]|[[=] _]]. by apply not_elem_of_nil in Hin.
  - apply andb_true_iff in Hk as [Hq Hk].
    destruct (thread_works P c parsed popped queued t I Ht) as (o & P1 & c1 & pa1 & po1 & q1 & E & I1 & Hw);
      [unfold captured_messages; by rewrite Hc|by intros ->|].
    assert (r_captured P1 = captured) as Hc1 by (by rewrite (thread_captured _ _ _ _ _ _ _ E)).
    pose proof (kept_real _ _ _ _ _ _ I1 Hc1) as ->. rewrite E in Hk.
    destruct (IH P1 c1 pa1 po1 q1 I1 Hc1 Hk) as (P2 & c2 & pa2 & po2 & q2 & E2 & I2 & Hc2 & Hle & Hlt).
    exists P2, c2, pa2, po2, q2. mstep E. split_and!; [done|done|done|..]; unfold works in Hw.
    + destruct Hw as [Hw|(Hpw & -> & _)]; [lia|]. unfold real_work in *. lia.
    + intros Hturn. destruct Hw as [Hw|(Hpw & -> & Hp & Hcs)]; [lia|]. unfold real_work in *.
      assert (has_turn ts P1 c1 pa1 queued) as Ht1; [|specialize (Hlt Ht1); lia].
      unfold has_turn in *. rewrite Hpw. destruct Hturn as [[[<-|Hin]%elem_of_cons Hne]|[Hin Hne]];
        [by destruct Hne; apply Hp|by left|right]. split; [|done]. cbn [existsb] in Hin.
      destruct (is_consume t); [by destruct Hne; apply Hcs|done].
Qed.

(** A round in which the poller and the consumer step. *)
Definition fair_real_round (ts : list real_thread) : Prop := Poll ∈ ts ∧ existsb is_consume ts = true.

Lemma run_real_app ts1 ts2 P :
  run_real e tsc hw (ts1 ++ ts2) P = (run_real e tsc hw ts1;; run_real e tsc hw ts2) P.
Proof.
  revert P. induction ts1 as [|t ts1 IH]; intros P; [done|]. cbn [app run_real].
  rewrite bind_assoc. unfold mbind, M_bind. by destruct (real_thread_step e tsc hw t P) as [[] ?].
Qed.

Lemma real_keeps_up_app ts1 ts2 P :
  real_keeps_up (ts1 ++ ts2) P =
  real_keeps_up ts1 P && match run_real e tsc hw ts1 P with (Ok _, P') => real_keeps_up ts2 P' | _ => true end.
Proof.
  revert P. induction ts1 as [|t ts1 IH]; intros P; [done|]. cbn [app run_real real_keeps_up].
  unfold mbind, M_bind. rewrite <- andb_assoc. f_equal.
  destruct (real_thread_step e tsc hw t P) as [[[]| | |] P']; [apply IH|done..].
Qed.

(** Rounds enough do all the work. *)
Lemma rounds_work rounds P c parsed popped queued : ok (Ok tt) P c parsed popped queued → r_captured P = captured →
  Forall (λ t, thread_ready hw t = true) (concat rounds) → Forall fair_real_round rounds →
  real_keeps_up (concat rounds) P = true → (real_work P c parsed queued ≤ length rounds)%nat →
  ∃ P' popped', run_real e tsc hw (concat rounds) P = (Ok tt, P') ∧ r_captured P' = captured ∧ r_pc P' = RWait ∧
    ok (Ok tt) P' (length captured) (concat (packet_messages <$> captured)) popped' [].
Proof.
  intros I Hc Hts Hf. revert P c parsed popped queued I Hc Hts.
  induction Hf as [|ts rounds [Hpoll Hcons] _ IH]; intros P c parsed popped queued I Hc Hts Hk Hl; cbn [concat length] in *.
  - unfold real_work in Hl. destruct queued; [|cbn in Hl; lia].
    destruct (done_poller_idle _ _ _ _ _ _ I) as (Hpc & -> & ->); [lia|].
    exists P, popped. split_and!; [done|done|done|]. unfold captured_messages in I. by rewrite Hc in I.
  - apply Forall_app in Hts as [Hts1 Hts2]. rewrite real_keeps_up_app in Hk. apply andb_true_iff in Hk as [Hk1 Hk2].
    destruct (run_works ts P c parsed popped queued I Hc Hts1 Hk1) as (P1 & c1 & pa1 & po1 & q1 & E1 & I1 & Hc1 & Hle & Hlt).
    rewrite E1 in Hk2. destruct (IH P1 c1 pa1 po1 q1 I1 Hc1 Hts2 Hk2) as (P' & popped' & E & Hrest).
    { destruct (decide (real_work P c parsed queued = 0)%nat) as [Hz|Hz]; [lia|].
      assert (has_turn ts P c parsed queued) as Hturn; [|specialize (Hlt Hturn); lia].
      unfold has_turn. destruct (decide (poll_work P c parsed = 0)%nat) as [Hp|Hp]; [right|by left].
      split; [done|]. intros ->. unfold real_work in Hz. cbn [length] in Hz. lia. }
    exists P', popped'. split; [|done]. rewrite run_real_app. by mstep E1.
Qed.
End Schedule.
End Progress.

(** The work left is bounded by the packets and messages captured. *)
Lemma real_work_bound e tsc b0 o P c parsed popped queued : real_ok e tsc b0 true o P c parsed popped queued →
  (real_work P c parsed queued ≤ 8 * length (r_captured P) + 2 * length (captured_messages P))%nat.
Proof.
  intros I. pose proof (rk_kept _ _ _ _ _ _ _ _ _ _ I eq_refl) as Hk. apply (f_equal length) in Hk.
  rewrite length_app in Hk. pose proof (length_omap_le decode parsed).
  pose proof (prefix_length _ _ (parsed_prefix _ _ _ (rk_poll _ _ _ _ _ _ _ _ _ _ I))).
  unfold real_work, poll_work. lia.
Qed.

(** * The theorem *)

(** C5 Real mode gets its work done. All packets sent are clean (42 bytes of
    headers, whole messages, at most the start of one); take any state the
    program and the kernel can reach in which no order was dropped, the frames
    of the captured messages and two bytes more fit the log, no captured order
    throws, and the last captured message did not leave the byte of the marker
    after its frame. Let the threads run in rounds in each of which the poller
    and the consumer step at least once, the other threads anywhere in between,
    with scheduled counters, while no more packets come and the queue never
    fills up. After eight rounds for each packet captured and two for each
    message every captured message has been parsed, the queue is empty, the
    book is that of the decoded orders of the captured packets, every frame is
    back with the kernel and counted, and the log recovers exactly this book.
    *)
Theorem real_program_catches_up e tsc hw sent lg d b b' P rounds page_size fuel :
  0 ≤ e ≤ 63 → MmapLogger_new true true true true = Ok lg →
  (∀ pkt, sent pkt → clean_packet pkt = true) →
  rtc (real_step e tsc hw sent true) (real_start e lg d b) P →
  let ms := captured_messages P in
  64 * Z.of_nat (length ms) + 2 ≤ FILE_SIZE → apply_orders (omap decode ms) b = (Ok tt, b') →
  Forall (λ t, thread_ready hw t = true) (concat rounds) → Forall fair_real_round rounds →
  real_keeps_up e tsc hw (concat rounds) P = true →
  (8 * length (r_captured P) + 2 * length ms ≤ length rounds)%nat →
  0 < page_size → (page_size | FILE_SIZE) → fold_left (λ _ m, overrun m) ms 0 ≠ VALID_FRAME_MARKER →
  (length ms < fuel)%nat →
  ∃ P' log, run_real e tsc hw (concat rounds) P = (Ok tt, P') ∧ r_pc P' = RWait ∧
    r_book P' = b' ∧ queue_rep (2 ^ e) (queue_ (r_parser P')) [] ∧
    r_total_packets P' = u64 (Z.of_nat (length (r_captured P))) ∧
    (∀ i, 0 ≤ i < RX_FRAME_NR → status_at (r_ring P') i TP_STATUS_KERNEL) ∧
    start_ (logger_ (r_parser P')) = Some log ∧
    run_recovery fuel page_size (Some log) true true (RecoveryEngine_new b) =
      (Ok tt, mkEngine b' (report_at (length ms) 0)).
Proof.
  intros He Hlg Hsent Hsteps ms Hroom Happ Hts Hf Hk Hl Hpage Hdiv Hnext Hfuel.
  destruct (real_reach e tsc hw sent b true Hsent (real_start e lg d b) P) as (c & parsed & popped & queued & I);
    [exists 0%nat, [], [], []; by apply real_start_ok|done|done|].
  pose proof (real_work_bound _ _ _ _ _ _ _ _ _ I) as Hbound. fold ms in Hbound.
  destruct (rounds_work e tsc hw b b' (r_captured P) Hroom Happ rounds P c parsed popped queued I eq_refl Hts Hf Hk)
    as (P' & popped' & E & Hc & Hpc & I'); [lia|].
  change (concat (packet_messages <$> r_captured P)) with ms in I'.
  pose proof (rk_kept _ _ _ _ _ _ _ _ _ _ I' eq_refl) as Hpop. rewrite app_nil_r in Hpop.
  destruct (captured_whole _ (rk_clean _ _ _ _ _ _ _ _ _ _ I)) as [Hw Hb].
  destruct (log_recovers e tsc (r_parser P') ms [] b b' page_size fuel) as (log & Hlog & Hrec); try done; [apply I'|].
  exists P', log. split_and!; try done; try apply I'.
  - pose proof (rk_book _ _ _ _ _ _ _ _ _ _ I') as Hbk. rewrite Hpop in Hbk. congruence.
  - intros i Hi. apply (rk_free _ _ _ _ _ _ _ _ _ _ I'); [done|]. rewrite Hc. lia.
Qed.

Definition sample_real_round : list real_thread :=
  [WriteTelemetry; ConsumeOrder sample_readings; PrintStats true; Poll].

Lemma sample_real_rounds n : Forall (λ t, thread_ready true t = true) (concat (replicate n sample_real_round)) ∧
  Forall fair_real_round (replicate n sample_real_round).
Proof.
  split; [induction n as [|n IH]; [constructor|]; repeat (constructor; [reflexivity|]); exact IH|].
  apply Forall_replicate. split; [|reflexivity]. unfold sample_real_round. set_solver.
Qed.

(** One packet with an add order, captured before the threads run. *)
Lemma real_program_catches_up_witness :
  match new_book 4 4096 true true with
  | Ok b =>
      let lg := mkLogger (Some (anew FILE_SIZE 0)) 0 in
      let P := capture sample_add_packet sample_filled (real_start 2 lg sample_order b) in
      let run := apply_orders (omap decode (captured_messages P)) b in
      ∃ P' log, run_real 2 (λ n, n) true (concat (replicate 12 sample_real_round)) P = (Ok tt, P') ∧
        r_book P' = run.2 ∧ start_ (logger_ (r_parser P')) = Some log ∧
        run_recovery 10 4096 (Some log) true true (RecoveryEngine_new b) =
          (Ok tt, mkEngine run.2 (report_at (length (captured_messages P)) 0))
  | _ => False
  end.
Proof.
  destruct (new_book 4 4096 true true) as [b| | |] eqn:E; [|by vm_compute in E..]. intros lg P run.
  assert (run.1 = Ok tt ∧ real_keeps_up 2 (λ n, n) true (concat (replicate 12 sample_real_round)) P = true)
    as [Hrun Hk].
  { subst run P lg. revert E. unfold new_book, StaticOrderMap_new. cbn [negb]. intros E. injection E as <-.
    split; by vm_compute. }
  assert (rtc (real_step 2 (λ n, n) true (λ pkt, pkt = sample_add_packet) true) (real_start 2 lg sample_order b) P)
    as Hsteps.
  { apply rtc_once, (KernelCaptures _ _ _ _ _ _ sample_add_packet sample_filled);
      [done|clear; by vm_compute|exact sample_kernel_fills]. }
  destruct (sample_real_rounds 12) as [Hts Hf].
  destruct (real_program_catches_up 2 (λ n, n) true (λ pkt, pkt = sample_add_packet) lg sample_order b run.2 P
    (replicate 12 sample_real_round) 4096 10) as (P' & log & H1 & _ & H2 & _ & _ & _ & H3 & H4);
    [lia|reflexivity|clear; intros pkt ->; by vm_compute|exact Hsteps|clear; by vm_compute
    |rewrite <- Hrun; apply surjective_pairing|exact Hts|exact Hf|exact Hk
    |apply Nat.leb_le; clear; by vm_compute|lia|by exists 262144|clear; by vm_compute
    |apply Nat.ltb_lt; clear; by vm_compute|].
  exists P', log. split; [exact H1|]. split; [exact H2|]. split; [exact H3|exact H4].
Defined.
