(* ===== verification/CrashConsistency.v ===== *)
(** A crash in the middle of [log_payload] (src/src/protocol/ItchParser.h).

    The log is a shared file mapping: when the process dies, the file keeps
    the bytes stored so far.  [log_payload_until n] is [log_payload] stopped
    after its first [n] stores in program order, with [memcpy] storing one
    byte at a time; the checksum is the last store.  [crash_poll n] stops the
    poller of MockProgram.v there.  The theorems say what recovery makes of
    the file that is left. *)

From S2P Require Import Prelude Interfaces HierarchicalBitset StaticOrderMap SPSCQueue ItchOrderTypes LimitOrderBook MockOrderBook BookTheorems Crc32 MmapLogger ItchParser ParserTheorems RecoveryEngine MulticastReceiver Pipeline Telemetry Statistics MockProgram.

(** * Stores one after the other *)

(** A store: where, and the bytes. *)
Fixpoint run_stores (l : list (Z * list Z)) : M MmapLogger unit :=
  match l with
  | [] => mret tt
  | (off, bytes) :: l' => store_bytes off bytes;; run_stores l'
  end.

Section Stores.
Context (tsc : Z → Z).

(** The stores of [log_payload] before the checksum. *)
Definition field_stores (frame seq msg_type : Z) (bytes : list Z) : list (Z * list Z) :=
  [(frame + off_marker, le_bytes 1 VALID_FRAME_MARKER);
   (frame + off_msg_type, le_bytes 1 msg_type);
   (frame + off_channel_id, le_bytes 2 1);
   (frame + off_seq_num, le_bytes 4 seq);
   (frame + off_frame_timestamp, le_bytes 8 (tsc seq))] ++
  imap (λ i byte, (frame + off_payload + Z.of_nat i, [byte])) bytes.

(** [log_payload] up to its [n]-th store.  The sequence number is kept in the
    parser, which a crash loses. *)
Definition log_payload_until (n : nat) (payload : list Z) (message_len : nat) (msg_type : Z)
    : M ItchParser unit :=
  wal_frame_ptr ← on_logger reserve_frame;
  match wal_frame_ptr with
  | None => mret tt
  | Some frame =>
      seq ← gets curr_seq_num;
      modify (set_seq_num (u64 (seq + 1)));;
      bytes ← of_option (bytes_at payload 0 message_len);
      let stores := field_stores frame seq msg_type bytes in
      on_logger (run_stores (take n stores));;
      if (n <=? length stores)%nat then mret tt
      else
        block ← on_logger (load_bytes frame 60);
        checksum ← of_option (calculate_crc32 block);
        on_logger (store_le (frame + off_checksum) 4 checksum)
  end.

(** [parse_block] up to that store for the first message of the block. *)
Definition parse_block_until (n : nat) (payload : list Z) : M ItchParser unit :=
  match payload with
  | [] => mret tt
  | message_type :: _ =>
      message_len ← of_option (message_length message_type);
      if Z.of_nat (length payload) <? message_len then mret tt
      else if message_type =? char_A then log_payload_until n payload 36 char_A
      else if message_type =? char_E then log_payload_until n payload 31 char_E
      else if message_type =? char_X then log_payload_until n payload 23 char_X
      else log_payload_until n payload (Z.to_nat message_len) char_minus
  end.

(** The poller at the message it is about to hand over. *)
Definition crash_poll (n : nat) : M Program unit :=
  block ← gets (λ P, frame_block (curr_frame_idx_ (p_receiver P) * RX_FRAME_SIZE) (ring_ (p_receiver P)));
  match block with
  | (Ok payload, _) =>
      zoom p_parser (λ h P, set_watched (mkWatched (set_handler h (p_receiver P)) (printed (p_watched P))) P)
        (parse_block_until n payload)
  | _ => ub
  end.

(** * What the stores leave *)

(** Stores to consecutive addresses. *)
Fixpoint contiguous (off : Z) (l : list (Z * list Z)) : Prop :=
  match l with
  | [] => True
  | (o, bytes) :: l' => o = off ∧ contiguous (off + Z.of_nat (length bytes)) l'
  end.

Definition stored (l : list (Z * list Z)) : list Z := concat (snd <$> l).

Lemma contiguous_take n off l : contiguous off l → contiguous off (take n l).
Proof.
  revert n off. induction l as [|[o bytes] l IH]; intros [|n] off; cbn; try done.
  intros [-> H]. split; [done|]. by apply IH.
Qed.

Lemma run_stores_write l off a a' c : contiguous off l → write_bytes a off (stored l) = Some a' →
  run_stores l (mkLogger (Some a) c) = (Ok tt, mkLogger (Some a') c).
Proof.
  revert off a. induction l as [|[o bytes] l IH]; intros off a; cbn -[write_bytes].
  - by intros _ [= <-].
  - intros [-> Hl] (a1 & H1 & H2)%write_bytes_app_inv. mstep (store_bytes_run a c off bytes a1 H1).
    by eapply IH.
Qed.

Lemma stored_take n l : stored (take n l) = take (length (stored (take n l))) (stored l).
Proof.
  unfold stored. rewrite <- (take_drop n l) at 3. rewrite fmap_app, concat_app. by rewrite take_app_length.
Qed.

Lemma contiguous_memcpy off bytes k :
  contiguous (off + Z.of_nat k) (imap (λ i byte, (off + Z.of_nat (k + i), [byte])) bytes).
Proof.
  revert k. induction bytes as [|x bytes IH]; intros k; cbn; [done|]. rewrite Nat.add_0_r. split; [done|].
  specialize (IH (S k)). replace (off + Z.of_nat k + Z.of_nat 1) with (off + Z.of_nat (S k)) by lia.
  erewrite imap_ext; [exact IH|]. intros i y _. cbn. do 2 f_equal. lia.
Qed.

Lemma stored_memcpy (f : nat → Z) bytes : stored (imap (λ i byte, (f i, [byte])) bytes) = bytes.
Proof.
  unfold stored. revert f. induction bytes as [|x bytes IH]; intros f; [done|]. cbn. f_equal. apply (IH (f ∘ S)).
Qed.

Lemma field_stores_contiguous frame seq ty bytes : contiguous frame (field_stores frame seq ty bytes).
Proof.
  unfold field_stores, off_marker, off_msg_type, off_channel_id, off_seq_num, off_frame_timestamp, off_payload.
  cbn [app contiguous]. rewrite !length_le_bytes. split_and!; try lia.
  pose proof (contiguous_memcpy (frame + 16) bytes 0) as H.
  replace (frame + Z.of_nat 1 + Z.of_nat 1 + Z.of_nat 2 + Z.of_nat 4 + Z.of_nat 8)
    with (frame + 16 + Z.of_nat 0) by lia. exact H.
Qed.

Lemma stored_fields frame seq ty bytes : stored (field_stores frame seq ty bytes) = frame_stores tsc seq ty bytes.
Proof.
  unfold field_stores. unfold stored. rewrite fmap_app, concat_app. fold (stored (imap
    (λ i byte, (frame + off_payload + Z.of_nat i, [byte])) bytes)).
  rewrite (stored_memcpy (λ i, frame + off_payload + Z.of_nat i)).
  unfold frame_stores. cbn [fmap list_fmap concat snd]. by rewrite app_nil_r, !app_assoc.
Qed.

Lemma length_field_stores frame seq ty bytes : length (field_stores frame seq ty bytes) = (5 + length bytes)%nat.
Proof. unfold field_stores. by rewrite length_app, length_imap. Qed.

(** The chunks of bytes the stores write. *)
Definition field_chunks (seq ty : Z) (bytes : list Z) : list (list Z) :=
  [le_bytes 1 VALID_FRAME_MARKER; le_bytes 1 ty; le_bytes 2 1; le_bytes 4 seq; le_bytes 8 (tsc seq)] ++
  ((λ byte, [byte]) <$> bytes).

Lemma field_stores_chunks frame seq ty bytes :
  snd <$> field_stores frame seq ty bytes = field_chunks seq ty bytes.
Proof. unfold field_stores, field_chunks. rewrite fmap_app, fmap_imap. f_equal. apply imap_const. Qed.

Lemma stored_chunks n frame seq ty bytes :
  stored (take n (field_stores frame seq ty bytes)) = concat (take n (field_chunks seq ty bytes)).
Proof. unfold stored. by rewrite fmap_take, field_stores_chunks. Qed.

Lemma chunks_prefix n seq ty bytes :
  concat (take n (field_chunks seq ty bytes)) `prefix_of` frame_stores tsc seq ty bytes.
Proof.
  rewrite <- (stored_fields 0), <- (stored_chunks n 0). unfold stored.
  rewrite <- (take_drop n (field_stores 0 seq ty bytes)) at 2. rewrite fmap_app, concat_app. by eexists.
Qed.

Lemma length_chunks n seq ty bytes :
  (length (concat (take n (field_chunks seq ty bytes))) ≤ 16 + length bytes)%nat.
Proof. rewrite <- (length_frame_stores tsc seq ty bytes). apply prefix_length, chunks_prefix. Qed.

(** The frame at the time of a crash, if it was zero before. *)
Definition torn_frame (n : nat) (seq ty : Z) (bytes : list Z) : list Z :=
  take 64 (concat (take n (field_chunks seq ty bytes)) ++ replicate 64 0).

(** The interrupted call writes a prefix of the bytes of the whole call; with
    all its stores and the checksum it is the whole call. *)
Lemma log_payload_until_run n payload len ty bytes q a c seq : alen a = FILE_SIZE → 0 ≤ c →
  c + 64 ≤ FILE_SIZE → bytes_at payload 0 len = Some bytes → c + 16 + Z.of_nat (length bytes) ≤ FILE_SIZE →
  ∃ a1, write_bytes a c (concat (take n (field_chunks seq ty bytes))) = Some a1 ∧
    log_payload_until n payload len ty (mkParser q (mkLogger (Some a) c) seq) =
    if (n <=? 5 + length bytes)%nat
    then (Ok tt, mkParser q (mkLogger (Some a1) (c + 64)) (u64 (seq + 1)))
    else log_payload tsc payload len ty (mkParser q (mkLogger (Some a) c) seq).
Proof.
  intros Hlen Hc Hroom Hbytes Hfit.
  destruct (write_bytes_in a c (concat (take n (field_chunks seq ty bytes)))) as (a1 & Hw & _);
    [done|pose proof (length_chunks n seq ty bytes); lia|].
  exists a1. split; [done|]. unfold log_payload_until.
  mstep (on_logger_run _ q _ seq _ _ (reserve_frame_room a c Hroom)).
  rewrite bind_gets, bind_modify. unfold set_seq_num. cbn [curr_seq_num queue_ logger_].
  rewrite Hbytes. cbn [of_option]. rewrite bind_mret. cbv zeta.
  mstep (on_logger_run _ q _ (u64 (seq + 1)) _ _ (run_stores_write _ c a a1 (c + 64)
    (contiguous_take n _ _ (field_stores_contiguous c seq ty bytes)) ltac:(by rewrite stored_chunks))).
  rewrite length_field_stores. destruct (Nat.leb_spec n (5 + length bytes)) as [Hn|Hn]; [done|].
  destruct (log_payload_run tsc payload len ty bytes q a c seq)
    as (a1' & a2 & block & crc & Hw1 & Hr & Hcrc & Hw2 & ->); try done.
  rewrite <- stored_chunks with (frame := c), take_ge, stored_fields in Hw by (rewrite length_field_stores; lia).
  rewrite Hw in Hw1. injection Hw1 as <-.
  mstep (on_logger_run _ q _ (u64 (seq + 1)) _ _ (load_bytes_run _ (c + 64) _ _ _ Hr)).
  rewrite Hcrc. cbn [of_option]. rewrite bind_mret.
  exact (on_logger_run _ q _ (u64 (seq + 1)) _ _ (store_bytes_run _ (c + 64) _ _ _ Hw2)).
Qed.

(** The frame left by a crash after two stores or more. *)
Lemma torn_frame_read n a a1 c seq ty bytes : 0 ≤ c → c + 64 ≤ alen a → (2 ≤ n)%nat →
  (∀ j, c + 2 ≤ j < c + 64 → a.[j] = Some 0) →
  write_bytes a c (concat (take n (field_chunks seq ty bytes))) = Some a1 →
  read_bytes a1 c 64 = Some (torn_frame n seq ty bytes).
Proof.
  intros Hc Hlen Hn Hz Hw. set (pre := concat (take n (field_chunks seq ty bytes))) in *.
  assert (2 ≤ length pre)%nat as Hpre.
  { unfold pre, field_chunks. destruct n as [|[|n]]; [lia..|]. cbn [take app concat].
    rewrite !length_app, !length_le_bytes. lia. }
  apply read_bytes_Some. unfold torn_frame. fold pre.
  split; [rewrite length_take, length_app, length_replicate; lia|].
  intros k Hk. rewrite (write_bytes_get _ _ _ _ _ Hw), lookup_take, (decide_True (P := (k < 64)%nat)) by lia.
  destruct (decide (k < length pre)%nat) as [H|H].
  - rewrite decide_True by lia. rewrite lookup_app_l by lia. f_equal. lia.
  - rewrite decide_False by lia. rewrite Hz, lookup_app_r, lookup_replicate_2 by lia. done.
Qed.

Lemma torn_frame_bytes n seq ty bytes : Forall is_byte bytes → Forall is_byte (torn_frame n seq ty bytes).
Proof.
  intros Hb. apply Forall_take, Forall_app_2; [|apply Forall_replicate; by vm_compute].
  destruct (chunks_prefix n seq ty bytes) as [l E].
  assert (Forall is_byte (frame_stores tsc seq ty bytes)) as Hall.
  { unfold frame_stores. repeat apply Forall_app_2; try apply le_bytes_bytes. done. }
  rewrite E in Hall. by apply Forall_app in Hall as [? _].
Qed.

(** The checksum of a frame is wrong. *)
Definition checksum_wrong (f : list Z) : bool := negb (crc32c (take 60 f) =? le_Z (drop 60 f)).

(** And so for every crash after four stores or more. *)
Definition crash_detected (seq : Z) (m : list Z) : bool :=
  forallb (λ n, checksum_wrong (torn_frame n seq (log_type m) m)) (List.seq 4 (2 + length m)).

(** A frame of which only the first four bytes were written: two blocks that
    differ in a window of four bytes have different checksums, and that of
    zeros is zero. *)
Lemma four_bytes_detected w x : Forall is_byte w → length w = 4%nat → w !! 0%nat = Some x → x ≠ 0 →
  checksum_wrong (w ++ replicate 60 0) = true.
Proof.
  intros Hb Hl Hx Hne. unfold checksum_wrong. apply negb_true_iff, Z.eqb_neq.
  assert (take 60 (w ++ replicate 60 0) = [] ++ w ++ replicate 56 0) as ->.
  { rewrite take_app, Hl, take_ge by lia. done. }
  assert (drop 60 (w ++ replicate 60 0) = replicate 4 0) as ->.
  { rewrite drop_app, Hl, drop_ge by lia. done. }
  change (le_Z (replicate 4 0)) with 0.
  assert (crc32c ([] ++ replicate 4 0 ++ replicate 56 0) = 0) as Hz by (clear; by vm_compute).
  intros E. assert (w = replicate 4 0) as Hw.
  { apply (crc32c_burst [] w (replicate 4 0) (replicate 56 0));
      [exact Hb|apply Forall_replicate; clear; by vm_compute|exact Hl|clear -Hl; lia|etrans; [exact E|symmetry; exact Hz]]. }
  clear E Hz. rewrite Hw in Hx. injection Hx as Hx. congruence.
Qed.

Lemma torn_frame_2 seq ty m : torn_frame 2 seq ty m = [VALID_FRAME_MARKER; ty mod 256; 0; 0] ++ replicate 60 0.
Proof. reflexivity. Qed.
Lemma torn_frame_3 seq ty m : torn_frame 3 seq ty m = [VALID_FRAME_MARKER; ty mod 256; 1; 0] ++ replicate 60 0.
Proof. reflexivity. Qed.

Lemma first_bytes ty x : x = 0 ∨ x = 1 → Forall is_byte [VALID_FRAME_MARKER; ty mod 256; x; 0].
Proof.
  intros Hx. repeat constructor; unfold is_byte; try (apply Z.mod_pos_bound; lia); try lia; by destruct Hx as [->| ->].
Qed.

Lemma crash_detected_spec seq m n : crash_detected seq m = true → (4 ≤ n ≤ 5 + length m)%nat →
  checksum_wrong (torn_frame n seq (log_type m) m) = true.
Proof. unfold crash_detected. rewrite forallb_forall. intros Hd Hn. apply Hd, in_seq. lia. Qed.

Lemma early_detected seq ty m n : (2 ≤ n < 4)%nat → checksum_wrong (torn_frame n seq ty m) = true.
Proof.
  intros Hn. assert (n = 2%nat ∨ n = 3%nat) as [->| ->] by lia.
  - rewrite torn_frame_2. apply four_bytes_detected with VALID_FRAME_MARKER; [|reflexivity|reflexivity|done].
    apply first_bytes. by left.
  - rewrite torn_frame_3. apply four_bytes_detected with VALID_FRAME_MARKER; [|reflexivity|reflexivity|done].
    apply first_bytes. by right.
Qed.

Lemma torn_detected seq m n : crash_detected seq m = true → (2 ≤ n ≤ 5 + length m)%nat →
  checksum_wrong (torn_frame n seq (log_type m) m) = true.
Proof.
  intros Hd Hn. destruct (decide (4 ≤ n)%nat) as [H4|H4]; [apply crash_detected_spec|apply early_detected];
    [exact Hd|clear -Hn H4; lia..].
Qed.

Lemma recover_checksum_wrong fuel mem off en f : Forall is_byte f → length f = 64%nat →
  read_bytes mem off 64 = Some f → f !! 0%nat = Some VALID_FRAME_MARKER → checksum_wrong f = true →
  recover_loop (S fuel) mem off en = (Ok tt, set_torn en).
Proof.
  intros Hb Hl Hr Hm Hck. unfold checksum_wrong in Hck. apply negb_true_iff, Z.eqb_neq in Hck.
  assert (length (drop 60 f) = 4%nat) as H4 by (rewrite length_drop; lia).
  pose proof (Forall_drop is_byte 60 f Hb) as Hb4.
  apply (recover_torn fuel mem off en (take 60 f) (le_Z (drop 60 f))); try done.
  - by apply Forall_take.
  - rewrite length_take. lia.
  - pose proof (le_bytes_le_Z _ Hb4) as El. rewrite H4 in El. by rewrite El, take_drop.
  - pose proof (le_Z_range _ Hb4) as Hrg. rewrite H4 in Hrg. exact Hrg.
  - by rewrite lookup_take, decide_True by lia.
Qed.

(** The marker alone, before a byte that an oversized message may have left. *)
Definition marker_frame (x : Z) : list Z := VALID_FRAME_MARKER :: x :: replicate 62 0.

Lemma marker_frame_bytes x : is_byte x → Forall is_byte (marker_frame x).
Proof.
  intros Hx. apply Forall_cons_2; [by vm_compute|]. apply Forall_cons_2; [exact Hx|].
  apply Forall_replicate. by vm_compute.
Qed.

Lemma marker_detected x : is_byte x → checksum_wrong (marker_frame x) = true.
Proof.
  intros Hx. change (marker_frame x) with ([VALID_FRAME_MARKER; x; 0; 0] ++ replicate 60 0).
  apply four_bytes_detected with VALID_FRAME_MARKER; [|reflexivity|reflexivity|done].
  apply Forall_cons_2; [by vm_compute|]. apply Forall_cons_2; [exact Hx|].
  apply (bool_decide_unpack _). by vm_compute.
Qed.

(** ** The log after a crash *)

(** Frames below the one being written are not touched. *)
Lemma frames_kept a a1 c l frames : write_bytes a c l = Some a1 → c = 64 * Z.of_nat (length frames) →
  holds_frames a 0 frames → holds_frames a1 0 frames.
Proof.
  intros Hw -> Hfr i f Hi. pose proof (lookup_lt_Some _ _ _ Hi).
  rewrite (read_bytes_ext a); [exact (Hfr i f Hi)|]. intros j Hj.
  rewrite (write_bytes_get _ _ _ _ _ Hw). by rewrite decide_False by lia.
Qed.

(** The report with the torn flag as the crash leaves it. *)
Definition crash_report (k : nat) (torn : bool) : RecoveryReport :=
  mkReport (Z.of_nat k) (last_valid_seq (report_at k 0)) torn.

(** What the loop does at the frame of the interrupted call. *)
Lemma recover_interrupted n fuel a a1 c frames next seq m lg b k :
  log_rep_at lg a frames next → c = curr_ lg → c + 64 ≤ FILE_SIZE → Forall is_byte m →
  next ≠ VALID_FRAME_MARKER → crash_detected seq m = true → (n ≤ 5 + length m)%nat →
  write_bytes a c (concat (take n (field_chunks seq (log_type m) m))) = Some a1 →
  recover_loop (S fuel) a1 c (mkEngine b (report_at k 0)) =
  (Ok tt, mkEngine b (crash_report k (bool_decide (0 < n)%nat))).
Proof.
  intros L -> Hroom Hm Hnext Hd Hn Hw. pose proof (lr_curr _ _ _ _ L) as Hc.
  pose proof (lr_zero _ _ _ _ L) as Hz. pose proof (lr_len _ _ _ _ L) as Hlen.
  destruct n as [|[|n]].
  - injection Hw as <-. rewrite (recover_stop _ _ _ _ next); [done| |done]. apply (lr_next _ _ _ _ L). lia.
  - destruct (lr_second _ _ _ _ L) as (x & Hx & Hx1); [lia|].
    assert (read_bytes a1 (curr_ lg) 64 = Some (marker_frame x)) as Hr.
    { apply read_bytes_Some. split; [done|]. intros i Hi. rewrite (write_bytes_get _ _ _ _ _ Hw).
      change (concat _) with [VALID_FRAME_MARKER]. cbn [length].
      destruct i as [|[|i]]; [rewrite decide_True, Z.add_0_r, Z.sub_diag by lia; done|..].
      - rewrite decide_False by lia. exact Hx1.
      - rewrite decide_False, Hz by lia. symmetry. apply (lookup_replicate_2 62 0 i). lia. }
    rewrite (recover_checksum_wrong _ _ _ _ (marker_frame x));
      [reflexivity|by apply marker_frame_bytes|reflexivity|exact Hr|reflexivity|by apply marker_detected].
  - rewrite (recover_checksum_wrong _ _ _ _ (torn_frame (S (S n)) seq (log_type m) m)); [reflexivity|..|reflexivity|].
    + by apply torn_frame_bytes.
    + unfold torn_frame. rewrite length_take, length_app, length_replicate. lia.
    + apply (torn_frame_read _ a); [lia|lia|lia| |exact Hw]. intros j Hj. apply Hz. lia.
    + apply torn_detected; [done|lia].
Qed.

(** The whole call, as the parser's invariant has it. *)
Lemma logged_rep e p ms m rest l : parser_rep e p (message_frames tsc 0 ms) (fold_left (λ _ m, overrun m) ms 0) l →
  whole_message m = true → Forall is_byte m → 64 * Z.of_nat (S (length ms)) + 2 ≤ FILE_SIZE →
  ∃ p', log_payload tsc (m ++ rest) (length m) (log_type m) p = (Ok tt, p') ∧
    parser_rep e p' (message_frames tsc 0 (ms ++ [m])) (fold_left (λ _ m, overrun m) (ms ++ [m]) 0) l.
Proof.
  intros (Hlog & Hq & Hs) Hw Hb Hroom. destruct p as [q lg s]. cbn [logger_ queue_ curr_seq_num] in *. subst s.
  destruct (log_payload_rep tsc m rest (log_type m) q lg _ _ Hlog Hb (whole_message_50 m Hw)) as (lg' & E & Hlog');
    [by rewrite length_message_frames|]. eexists. split; [exact E|].
  rewrite frames_of_handled, fold_left_app. split_and!; [exact Hlog'|exact Hq|].
  rewrite length_app. cbn. lia.
Qed.

Lemma bytes_at_message (m rest : list Z) : bytes_at (m ++ rest) 0 (length m) = Some m.
Proof. rewrite bytes_at_in by (rewrite length_app; lia). by rewrite drop_0, take_app_length. Qed.

Section Crash.
Context (e : Z) (page_size : Z) (fuel : nat) (ms : list (list Z)) (m rest : list Z) (p : ItchParser).
Context (l : list NormalizedOrder) (b b' : Book).
Hypothesis Hp : parser_rep e p (message_frames tsc 0 ms) (fold_left (λ _ m, overrun m) ms 0) l.
Hypothesis Hw : Forall (λ m, whole_message m = true) (ms ++ [m]).
Hypothesis Hb : Forall (Forall is_byte) (ms ++ [m]).
Hypothesis Hroom : 64 * Z.of_nat (S (length ms)) + 2 ≤ FILE_SIZE.
Hypothesis Hpage : 0 < page_size.
Hypothesis Hdiv : (page_size | FILE_SIZE).
Hypothesis Hfuel : (S (length ms) < fuel)%nat.

Lemma last_message : (whole_message m = true ∧ Forall is_byte m) ∧
  Forall (λ m, whole_message m = true) ms ∧ Forall (Forall is_byte) ms.
Proof. apply Forall_app in Hw as [? Hwm]. apply Forall_app in Hb as [? Hbm]. rewrite Forall_singleton in Hwm, Hbm. done. Qed.

(** The call on the log of [ms]. *)
Lemma interrupted_call n : ∃ a a1 c',
  log_rep_at (logger_ p) a (message_frames tsc 0 ms) (fold_left (λ _ m, overrun m) ms 0) ∧
  write_bytes a (curr_ (logger_ p)) (concat (take n (field_chunks (Z.of_nat (length ms)) (log_type m) m))) = Some a1 ∧
  log_payload_until n (m ++ rest) (length m) (log_type m) p =
    if (n <=? 5 + length m)%nat
    then (Ok tt, mkParser (queue_ p) (mkLogger (Some a1) c') (u64 (Z.of_nat (length ms) + 1)))
    else log_payload tsc (m ++ rest) (length m) (log_type m) p.
Proof.
  pose proof Hp as ((a & L) & _ & Hs). destruct last_message as [[Hwm _] _].
  pose proof (lr_curr _ _ _ _ L) as Hc. rewrite length_message_frames in Hs, Hc.
  pose proof (whole_message_50 m Hwm) as Hm50. pose proof (lr_start _ _ _ _ L) as Hst.
  destruct p as [q [sa c] s]. cbn [logger_ queue_ curr_seq_num start_ curr_] in *. subst sa s.
  destruct (log_payload_until_run n (m ++ rest) (length m) (log_type m) m q a c (Z.of_nat (length ms)))
    as (a1 & Hw1 & E); [apply L|lia|lia|by apply bytes_at_message|lia|].
  by exists a, a1, (c + 64).
Qed.

(** Stopped after at most the stores before the checksum: the frames before it
    are replayed, and the frame is reported as torn if its marker was stored. *)
Lemma interrupted_recovers n : (n ≤ 5 + length m)%nat → crash_detected (Z.of_nat (length ms)) m = true →
  fold_left (λ _ m, overrun m) ms 0 ≠ VALID_FRAME_MARKER → apply_orders (omap decode ms) b = (Ok tt, b') →
  ∃ p' log, log_payload_until n (m ++ rest) (length m) (log_type m) p = (Ok tt, p') ∧ start_ (logger_ p') = Some log ∧
    run_recovery fuel page_size (Some log) true true (RecoveryEngine_new b) =
      (Ok tt, mkEngine b' (crash_report (length ms) (bool_decide (0 < n)%nat))).
Proof.
  intros Hn Hd Hnext Happ. destruct (interrupted_call n) as (a & a1 & c' & L & Hw1 & ->).
  rewrite (proj2 (Nat.leb_le _ _) Hn). destruct last_message as ([Hwm Hbm] & Hw' & Hb').
  pose proof (lr_curr _ _ _ _ L) as Hc. rewrite length_message_frames in Hc.
  eexists _, a1. split; [done|]. split; [done|]. assert (FILE_SIZE = 2 ^ 30) as HF by done.
  destruct (run_recovery_frames tsc ms page_size a1 fuel b (Ok tt) b') as (_ & fuel' & ->);
    try assumption; try lia.
  - by rewrite (write_bytes_len _ _ _ _ Hw1), (lr_len _ _ _ _ L).
  - eapply frames_kept; [exact Hw1|by rewrite length_message_frames|]. exact (lr_frames _ _ _ _ L).
  - rewrite <- Hc. eapply recover_interrupted; [exact L|reflexivity|lia|exact Hbm|exact Hnext|exact Hd|exact Hn|exact Hw1].
Qed.

(** With the checksum stored the frame is replayed too. *)
Lemma completed_recovers n : (5 + length m < n)%nat →
  fold_left (λ _ m, overrun m) (ms ++ [m]) 0 ≠ VALID_FRAME_MARKER →
  apply_orders (omap decode (ms ++ [m])) b = (Ok tt, b') →
  ∃ p' log, log_payload_until n (m ++ rest) (length m) (log_type m) p = (Ok tt, p') ∧ start_ (logger_ p') = Some log ∧
    run_recovery fuel page_size (Some log) true true (RecoveryEngine_new b) =
      (Ok tt, mkEngine b' (crash_report (S (length ms)) false)).
Proof.
  intros Hn Hnext Happ. destruct (interrupted_call n) as (a & a1 & c' & _ & _ & ->).
  rewrite (proj2 (Nat.leb_gt _ _) Hn). destruct last_message as ([Hwm Hbm] & _).
  destruct (logged_rep e p ms m rest l Hp Hwm Hbm Hroom) as (p' & E & Hp').
  destruct (log_recovers e tsc p' (ms ++ [m]) l b b' page_size fuel Hp') as (log & Hlog & Hrec); try done;
    [rewrite length_app; cbn; lia..|].
  exists p', log. rewrite length_app, Nat.add_1_r in Hrec. split_and!; [done|done|exact Hrec].
Qed.

Lemma crash_recovers n : let whole := (5 + length m <? n)%nat in let seen := if whole then ms ++ [m] else ms in
  crash_detected (Z.of_nat (length ms)) m = true → fold_left (λ _ m, overrun m) seen 0 ≠ VALID_FRAME_MARKER →
  apply_orders (omap decode seen) b = (Ok tt, b') →
  ∃ p' log, log_payload_until n (m ++ rest) (length m) (log_type m) p = (Ok tt, p') ∧ start_ (logger_ p') = Some log ∧
    run_recovery fuel page_size (Some log) true true (RecoveryEngine_new b) =
      (Ok tt, mkEngine b' (crash_report (length seen) (negb whole && (0 <? n)%nat))).
Proof.
  cbv zeta. destruct (Nat.ltb_spec (5 + length m) n) as [Hn|Hn]; cbn [negb andb]; intros Hd Hnext Happ.
  - rewrite length_app, Nat.add_1_r. by apply completed_recovers.
  - replace (0 <? n)%nat with (bool_decide (0 < n)%nat) by (destruct n; done). by apply interrupted_recovers.
Qed.
End Crash.

(** ** The poller stopped in the middle of a call *)

Lemma parse_until_message n m rest p : whole_message m = true →
  parse_block_until n (m ++ rest) p = log_payload_until n (m ++ rest) (length m) (log_type m) p.
Proof.
  intros Hm. destruct m as [|c m]; [done|]. pose proof Hm as Hl. unfold whole_message in Hl.
  apply bool_decide_eq_true in Hl. change ((c :: m) ++ rest) with (c :: m ++ rest). cbn [parse_block_until].
  rewrite Hl. cbn [of_option]. rewrite bind_mret.
  rewrite (proj2 (Z.ltb_ge _ _)) by (cbn [length]; rewrite length_app; lia).
  rewrite Nat2Z.id. unfold log_type. set (k := length (c :: m)) in *. clearbody k.
  destruct (Z.eqb_spec c char_A) as [->|]; [|destruct (Z.eqb_spec c char_E) as [->|];
    [|destruct (Z.eqb_spec c char_X) as [->|]; [|done]]]; injection Hl as Hl; cbn [orb].
  - by replace k with 36%nat by lia.
  - by replace k with 31%nat by lia.
  - by replace k with 23%nat by lia.
Qed.

Lemma crash_poll_run n e ms b o kept P s popped queued : Forall (λ m, whole_message m = true) ms →
  program_ok e tsc ms b o kept P s popped queued → poller_ (p_receiver P) = PollParse →
  ∃ k m, ms !! k = Some m ∧ handled_ s = take k ms ∧
    ∀ p', parse_block_until n m (p_parser P) = (Ok tt, p') →
      ∃ P', crash_poll n P = (Ok tt, P') ∧ p_parser P' = p'.
Proof.
  intros Hw I Hpc. destruct (po_ring _ _ _ _ _ _ _ _ _ _ I) as (i & c & R).
  destruct (po_shadow _ _ _ _ _ _ _ _ _ _ I) as [Es _].
  assert (poller_ s = PollParse ∧ ring_ (p_receiver P) = ring_ s ∧
    curr_frame_idx_ (p_receiver P) = curr_frame_idx_ s) as (Hps & Hring & Hidx).
  { unfold p_receiver in *. rewrite Es in Hpc |- *. done. }
  pose proof (ro_poller _ _ _ _ _ R) as Hp. unfold poller_ok in Hp. rewrite Hps in Hp. destruct Hp as [Hh Hc].
  destruct (frame_full _ _ (ring_fits _ Hw) _ _ _ R Hc) as (m & Hlk & Hf & _ & Hm).
  exists c, m. split_and!; [done|done|]. intros p' E. unfold crash_poll.
  rewrite bind_gets, Hring, Hidx, (ro_curr_idx _ _ _ _ _ R), (frame_block_run _ _ _ Hm Hf).
  unfold zoom. rewrite E. by eexists.
Qed.
End Stores.

(** * The theorems *)

(** Without a crash the interrupted call is the call. *)
Theorem log_payload_until_all tsc e p frames next l m rest n : parser_rep e p frames next l →
  Forall is_byte m → (length m ≤ 50)%nat → 64 * Z.of_nat (S (length frames)) + 2 ≤ FILE_SIZE →
  (5 + length m < n)%nat →
  log_payload_until tsc n (m ++ rest) (length m) (log_type m) p =
  log_payload tsc (m ++ rest) (length m) (log_type m) p.
Proof.
  intros ((a & L) & _ & _) Hb H50 Hroom Hn. destruct p as [q [sa c] s].
  pose proof (lr_start _ _ _ _ L) as Hst. pose proof (lr_curr _ _ _ _ L) as Hc. cbn in Hst, Hc. subst sa.
  destruct (log_payload_until_run tsc n (m ++ rest) (length m) (log_type m) m q a c s) as (a1 & _ & ->);
    [apply L|lia|lia|by apply bytes_at_message|lia|].
  by rewrite (proj2 (Nat.leb_gt _ _) Hn).
Qed.

(** C4 A crash in mock mode loses no order the book has seen. Start on a file
    of whole messages whose frames and two bytes more fit the log, with
    scheduled counters, and stop the program, in any schedule of its threads,
    while the poller is in the middle of writing the log frame of a message,
    after any number [n] of stores. The orders applied to the live book are
    orders of the messages whose frames are complete. Recovery of the file that
    is left applies exactly the orders of those messages, the interrupted one
    included only if its checksum was stored; it reports a torn write when at
    least one store but not the checksum was made, and none otherwise. This
    half is conditional: the checksum must tell each partial frame from a whole
    one ([crash_detected]), no replayed order may throw, and the last of the
    replayed messages must not have left the byte of the marker after its
    frame, as a message longer than its payload can. *)
Theorem crash_keeps_consumed_orders e tsc hw file lg d b P ts P1 n page_size fuel :
  let ms := file_messages file in
  mock_start e file lg d b P → Forall (λ t, readings_ready hw t = true) ts →
  run_program e tsc hw ts P = (Ok tt, P1) → poller_ (p_receiver P1) = PollParse →
  0 < page_size → (page_size | FILE_SIZE) → (S (length ms) < fuel)%nat →
  ∃ k m popped, ms !! k = Some m ∧ apply_orders popped b = (Ok tt, p_book P1) ∧
    popped `sublist_of` omap decode (take k ms) ∧
    (consumer_keeps_up e tsc hw ts P = true → popped `prefix_of` omap decode (take k ms)) ∧
    let whole := (5 + length m <? n)%nat in
    let seen := take (if whole then S k else k) ms in
    ∀ b', crash_detected tsc (Z.of_nat k) m = true →
      fold_left (λ _ m, overrun m) seen 0 ≠ VALID_FRAME_MARKER →
      apply_orders (omap decode seen) b = (Ok tt, b') →
      ∃ P2 log, crash_poll tsc n P1 = (Ok tt, P2) ∧ start_ (logger_ (p_parser P2)) = Some log ∧
        run_recovery fuel page_size (Some log) true true (RecoveryEngine_new b) =
          (Ok tt, mkEngine b' (crash_report (length seen) (negb whole && (0 <? n)%nat))).
Proof.
  intros ms S Hts Erun Hpc Hpage Hdiv Hfuel.
  destruct (run_from_start e tsc hw file lg d b P ts S Hts) as (o & P' & s0 & s & popped & queued & _ & E & I & _).
  rewrite Erun in E. injection E as <- <-. fold ms in I.
  destruct (crash_poll_run tsc n e ms b _ _ P1 s popped queued (ms_whole _ _ _ _ _ _ S) I Hpc)
    as (k & m & Hk & Hh & Hcrash).
  pose proof (po_parser _ _ _ _ _ _ _ _ _ _ I) as Hp. rewrite Hh in Hp.
  exists k, m, popped. rewrite <- Hh.
  split_and!; [done|apply I|etrans; [|apply I]; by apply sublist_inserts_r| |].
  { intros Hkeep. rewrite <- (po_kept _ _ _ _ _ _ _ _ _ _ I Hkeep). by eexists. }
  intros whole seen b' Hd Hnext Happ. pose proof (lookup_lt_Some _ _ _ Hk) as Hlt.
  assert (length (take k ms) = k) as Hl by (rewrite length_take; lia).
  assert (seen = if whole then take k ms ++ [m] else take k ms) as Es.
  { unfold seen. destruct whole; [by apply take_S_r|done]. }
  pose proof (Forall_take _ (Datatypes.S k) _ (ms_whole _ _ _ _ _ _ S)) as Hw.
  pose proof (Forall_take _ (Datatypes.S k) _ (messages_bytes _ _ _ _ _ _ S)) as Hb.
  pose proof (ms_room _ _ _ _ _ _ S) as Hroom. fold ms in Hw, Hb, Hroom.
  rewrite (take_S_r _ _ _ Hk) in Hw, Hb. rewrite Es in Hnext, Happ |- *.
  destruct (crash_recovers tsc e page_size fuel (take k ms) m [] (p_parser P1) queued b b' Hp Hw Hb) with (n := n)
    as (p' & log & Ep & Hlog & Hrec); rewrite ?Hl; try assumption; try lia.
  rewrite <- parse_until_message, app_nil_r in Ep by (by apply Forall_app in Hw as [_ ?%Forall_inv]).
  destruct (Hcrash p' Ep) as (P2 & E2 & <-). exists P2, log. split_and!; [exact E2|exact Hlog|exact Hrec].
Qed.

(** A crash after 30 of the 37 stores for the second message. *)
Lemma crash_keeps_consumed_orders_witness :
  match new_book 4 4096 true true with
  | Ok b =>
      let '(r, P1) := run_program 2 (λ n, n) true (concat (replicate 9 sample_round)) (sample_start mock_file b) in
      ∃ k m popped, file_messages mock_file !! k = Some m ∧ apply_orders popped b = (Ok tt, p_book P1) ∧
        popped `prefix_of` omap decode (take k (file_messages mock_file)) ∧
        ((5 + length m <? 30)%nat = false → ∀ b', crash_detected (λ n, n) (Z.of_nat k) m = true →
         fold_left (λ _ m, overrun m) (take k (file_messages mock_file)) 0 ≠ VALID_FRAME_MARKER →
         apply_orders (omap decode (take k (file_messages mock_file))) b = (Ok tt, b') →
         ∃ P2 log, crash_poll (λ n, n) 30 P1 = (Ok tt, P2) ∧ start_ (logger_ (p_parser P2)) = Some log ∧
           run_recovery 10 4096 (Some log) true true (RecoveryEngine_new b) =
             (Ok tt, mkEngine b' (crash_report (length (take k (file_messages mock_file))) true)))
  | _ => False
  end.
Proof.
  destruct (new_book 4 4096 true true) as [b| | |] eqn:E; [|by vm_compute in E..].
  destruct (run_program 2 (λ n, n) true (concat (replicate 9 sample_round)) (sample_start mock_file b))
    as [r P1] eqn:Er.
  assert (r = Ok tt ∧ poller_ (p_receiver P1) = PollParse ∧
    consumer_keeps_up 2 (λ n, n) true (concat (replicate 9 sample_round)) (sample_start mock_file b) = true)
    as (-> & Hpc & Hk).
  { revert E. unfold new_book, StaticOrderMap_new. cbn [negb]. intros E. injection E as <-.
    split_and!; [change r with (r, P1).1; rewrite <- Er|change P1 with (r, P1).2; rewrite <- Er|]; clear; by vm_compute. }
  destruct (crash_keeps_consumed_orders 2 (λ n, n) true mock_file _ sample_order b (sample_start mock_file b)
    (concat (replicate 9 sample_round)) P1 30 4096 10 (sample_start_ok b) (sample_rounds_ready 9) Er Hpc)
    as (k & m & popped & H1 & H2 & _ & H3 & H4); [lia|by exists 262144|apply Nat.ltb_lt; by vm_compute|].
  exists k, m, popped. split; [exact H1|]. split; [exact H2|]. split; [exact (H3 Hk)|].
  intros Hw. rewrite Hw in H4. exact H4.
Defined.

(** The numbers of that run: the second message, whose partial frames all
    have a wrong checksum. *)
Lemma sample_crash :
  match new_book 4 4096 true true with
  | Ok b =>
      let '(r, P1) := run_program 2 (λ n, n) true (concat (replicate 9 sample_round)) (sample_start mock_file b) in
      let '(r2, P2) := crash_poll (λ n, n) 30 P1 in
      let '(r3, en) := run_recovery 10 4096 (start_ (logger_ (p_parser P2))) true true (RecoveryEngine_new b) in
      r = Ok tt ∧ r2 = Ok tt ∧ r3 = Ok tt ∧ crash_detected (λ n, n) 1 (nth 1 replay_messages []) = true ∧
      report_ en = crash_report 1 true ∧ (book_best_bid (order_book_ en)).1 = (book_best_bid (p_book P1)).1
  | _ => False
  end.
Proof. by vm_compute. Qed.
