(* ===== verification/RealCrash.v ===== *)
(** A crash of the program in real mode (RealProgram.v) while the poller is in
    the middle of writing the log frame of a message (CrashConsistency.v). *)

From S2P Require Import Prelude Interfaces HierarchicalBitset StaticOrderMap SPSCQueue ItchOrderTypes LimitOrderBook MockOrderBook BookTheorems AnyOrders Crc32 MmapLogger ItchParser ParserTheorems RecoveryEngine MulticastReceiver Pipeline BpfFilter Telemetry RealPoll Statistics MockProgram ProgramSafety RealProgram CrashConsistency.

Section Crash.
Context (e : Z) (tsc : Z → Z) (b0 : Book) (keep : bool).

(** The poller, in the loop of [parse_block], up to the [n]-th store for the
    next message. *)
Definition crash_real (n : nat) : M Real unit :=
  P ← get_state;
  match r_pc P with
  | RParse payload => on_r_parser (parse_block_until tsc n payload)
  | _ => mret tt
  end.

(** The message the poller is at. *)
Lemma next_captured P c parsed popped queued payload : real_ok e tsc b0 keep (Ok tt) P c parsed popped queued →
  r_pc P = RParse payload → incomplete payload = false →
  ∃ m rest, payload = m ++ rest ∧ parsed ++ [m] `prefix_of` captured_messages P.
Proof.
  intros I Hpc Hinc. pose proof (rk_poll _ _ _ _ _ _ _ _ _ _ I) as Hp. unfold poll_ok in Hp. rewrite Hpc in Hp.
  destruct Hp as (pkt & ms1 & ms2 & rest & Hpkt & Es & -> & ->).
  pose proof (proj1 (Forall_lookup _ _) (rk_clean _ _ _ _ _ _ _ _ _ _ I) c pkt Hpkt) as Hclean.
  destruct (clean_packet_facts _ _ _ Hclean Es) as (_ & _ & Hrest & _).
  destruct ms2 as [|m ms2]; [cbn [concat app] in Hinc; congruence|].
  exists m, (concat ms2 ++ rest). split; [cbn [concat]; by rewrite <- app_assoc|].
  etrans; [|apply (messages_upto_prefix P (S c))]. rewrite (messages_upto_S _ _ _ Hpkt).
  unfold packet_messages. rewrite Es. cbn [fst]. rewrite <- app_assoc. do 2 apply prefix_app. by exists ms2.
Qed.

Lemma crash_real_run n P p' payload : r_pc P = RParse payload →
  parse_block_until tsc n payload (r_parser P) = (Ok tt, p') →
  crash_real n P = (Ok tt, set_r_parser p' P).
Proof. intros Hpc E. unfold crash_real. munfold. rewrite Hpc. unfold on_r_parser, zoom. by rewrite E. Qed.
End Crash.

(** C6 A crash in real mode loses no order the book has seen. Take any
    interleaving with a kernel that delivers clean packets (42 bytes of
    headers, whole messages, at most the start of one), in a run whose messages
    fit the log with two bytes to spare and with scheduled counters, and stop
    the program while the poller writes the log frame of a message, after any
    number [n] of stores. The orders applied to the live book are orders of the
    messages whose frames are complete. Recovery of the file that is left
    applies exactly the orders of those messages, the interrupted one included
    only if its checksum was stored; it reports a torn write when at least one
    store but not the checksum was made, and none otherwise. This half is
    conditional: the checksum must tell each partial frame from a whole one
    ([crash_detected]), no replayed order may throw, and the last of the
    replayed messages must not have left the byte of the marker after its
    frame, as a message longer than its payload can. *)
Theorem real_crash_keeps_consumed_orders e tsc hw sent keep lg d b P payload n page_size fuel :
  0 ≤ e ≤ 63 → MmapLogger_new true true true true = Ok lg →
  (∀ pkt, sent pkt → clean_packet pkt = true) →
  rtc (real_step e tsc hw sent keep) (real_start e lg d b) P →
  let ms := captured_messages P in
  64 * Z.of_nat (length ms) + 2 ≤ FILE_SIZE → r_pc P = RParse payload → incomplete payload = false →
  0 < page_size → (page_size | FILE_SIZE) → (S (length ms) < fuel)%nat →
  ∃ k m popped, ms !! k = Some m ∧ apply_orders popped b = (Ok tt, r_book P) ∧
    popped `sublist_of` omap decode (take k ms) ∧ (keep = true → popped `prefix_of` omap decode (take k ms)) ∧
    let whole := (5 + length m <? n)%nat in
    let seen := take (if whole then S k else k) ms in
    ∀ b', crash_detected tsc (Z.of_nat k) m = true →
      fold_left (λ _ m, overrun m) seen 0 ≠ VALID_FRAME_MARKER →
      apply_orders (omap decode seen) b = (Ok tt, b') →
      ∃ P2 log, crash_real tsc n P = (Ok tt, P2) ∧ start_ (logger_ (r_parser P2)) = Some log ∧
        run_recovery fuel page_size (Some log) true true (RecoveryEngine_new b) =
          (Ok tt, mkEngine b' (crash_report (length seen) (negb whole && (0 <? n)%nat))).
Proof.
  intros He Hlg Hsent Hsteps ms Hroom Hpc Hinc Hpage Hdiv Hfuel.
  destruct (real_reach e tsc hw sent b keep Hsent (real_start e lg d b) P) as (c & parsed & popped & queued & I);
    [exists 0%nat, [], [], []; by apply real_start_ok|done|done|].
  destruct (next_captured _ _ _ _ _ _ _ _ _ _ I Hpc Hinc) as (m & rest & -> & [later Hl]). fold ms in Hl.
  destruct (captured_whole _ (rk_clean _ _ _ _ _ _ _ _ _ _ I)) as [Hw Hb].
  change (concat (packet_messages <$> r_captured P)) with ms in Hw, Hb.
  rewrite Hl in Hw, Hb. apply Forall_app in Hw as [Hw _]. apply Forall_app in Hb as [Hb _].
  assert (take (length parsed) ms = parsed ∧ take (S (length parsed)) ms = parsed ++ [m]) as [Ek ES].
  { rewrite Hl. split; [rewrite <- app_assoc; apply take_app_length|].
    rewrite take_app_length' by (rewrite length_app; cbn; lia). done. }
  assert (S (length parsed) ≤ length ms)%nat as Hle by (rewrite Hl, !length_app; cbn; lia).
  exists (length parsed), m, popped. rewrite Ek. split_and!.
  - rewrite Hl, <- app_assoc. by rewrite lookup_app_r, Nat.sub_diag by lia.
  - apply I.
  - etrans; [|apply I]. by apply sublist_inserts_r.
  - intros Hk. rewrite <- (rk_kept _ _ _ _ _ _ _ _ _ _ I Hk). by eexists.
  - intros whole seen b' Hd Hnext Happ.
    assert (seen = if whole then parsed ++ [m] else parsed) as Es by (unfold seen; by destruct whole).
    rewrite Es in Hnext, Happ |- *.
    destruct (crash_recovers tsc e page_size fuel parsed m rest (r_parser P) queued b b'
      (rk_parser _ _ _ _ _ _ _ _ _ _ I) Hw Hb) with (n := n) as (p' & log & Ep & Hlog & Hrec);
      try assumption; try lia.
    rewrite <- parse_until_message in Ep by (by apply Forall_app in Hw as [_ ?%Forall_inv]).
    exists (set_r_parser p' P), log. split_and!; [exact (crash_real_run tsc n P p' _ Hpc Ep)|exact Hlog|exact Hrec].
Qed.

(** The packet of RealProgram.v, with the poller in its message, and a crash
    after 20 of the 42 stores: recovery finds no whole frame, reports the torn
    write and leaves the book as it was. *)
Lemma real_crash_keeps_consumed_orders_witness :
  match new_book 4 4096 true true with
  | Ok b =>
      let lg := mkLogger (Some (anew FILE_SIZE 0)) 0 in
      let '(r, P) := run_real 2 (λ n, n) true [Poll; Poll]
                       (capture sample_add_packet sample_filled (real_start 2 lg sample_order b)) in
      ∃ P2 log, crash_real (λ n, n) 20 P = (Ok tt, P2) ∧ start_ (logger_ (r_parser P2)) = Some log ∧
        run_recovery 10 4096 (Some log) true true (RecoveryEngine_new b) = (Ok tt, mkEngine b (crash_report 0 true))
  | _ => False
  end.
Proof.
  destruct (new_book 4 4096 true true) as [b| | |] eqn:E; [|by vm_compute in E..]. intros lg.
  set (P0 := real_start 2 lg sample_order b).
  set (msg := packet_payload sample_add_packet).
  destruct (run_real 2 (λ n, n) true [Poll; Poll] (capture sample_add_packet sample_filled P0)) as [r P] eqn:Er.
  assert (r = Ok tt ∧ r_pc P = RParse msg ∧ captured_messages P = [msg]) as (-> & Hpc & Hcap).
  { revert E. unfold new_book, StaticOrderMap_new. cbn [negb]. intros E. injection E as <-. subst P0 lg msg.
    split_and!; [change r with (r, P).1|change P with (r, P).2..]; rewrite <- Er; clear; by vm_compute. }
  assert (rtc (real_step 2 (λ n, n) true (λ pkt, pkt = sample_add_packet) false) P0 P) as Hsteps.
  { eapply rtc_l; [apply (KernelCaptures _ _ _ _ _ P0 sample_add_packet sample_filled);
      [done|clear; by vm_compute|exact sample_kernel_fills]|].
    apply (run_real_steps 2 (λ n, n) true _ [Poll; Poll]); [by repeat constructor|exact Er]. }
  destruct (real_crash_keeps_consumed_orders 2 (λ n, n) true (λ pkt, pkt = sample_add_packet) false lg sample_order b P
    msg 20 4096 10) as (k & m & popped & H1 & _ & _ & _ & H4);
    [lia|reflexivity|clear; intros pkt ->; by vm_compute|exact Hsteps
    |rewrite Hcap; clear; by vm_compute|exact Hpc|clear; by vm_compute|lia|by exists 262144
    |rewrite Hcap; clear; cbn; lia|].
  rewrite Hcap in H1, H4. destruct k as [|k]; [|discriminate H1]. injection H1 as <-.
  assert ((5 + length msg <? 20)%nat = false) as Hw by (clear; by vm_compute). rewrite Hw in H4.
  apply (H4 b); [clear; by vm_compute|clear; by vm_compute|reflexivity].
Defined.
