(* ===== verification/DifferentialTest.v ===== *)
(** The randomised test of the book (src/tests/test_limit_order_book.cpp): it
    drives the book and the reference book with the same random operations and
    compares the best prices after each.

    A draw gives the numbers of the random generator for one iteration; the
    distributions whose range depends on the state, [idx_dist] and
    [exec_dist], map a number into their range, so that every result of a
    generator is the result of some draw. *)

From S2P Require Import Prelude Interfaces HierarchicalBitset StaticOrderMap ItchOrderTypes LimitOrderBook LinkedPool MockOrderBook BookRefinement BookTheorems.

Record Draw : Type := mkDraw {
  d_op : Z;
  d_price : Z;
  d_shares : Z;
  d_side : Z;
  d_idx : Z;
  d_exec : Z
}.

(** The ranges of the distributions. *)
Record draw_ok (r : Draw) : Prop := {
  dr_price : 0 ≤ d_price r ≤ 99999;
  dr_shares : 100 ≤ d_shares r ≤ 10000
}.

Definition idx_dist (raw : Z) (n : nat) : nat := Z.to_nat (raw mod Z.of_nat n).
Definition exec_dist (raw current_shares : Z) : Z := 1 + raw mod current_shares.

(** * The test *)

Record Test : Type := mkTest {
  lob : Book;
  test_book : MockOrderBook;
  active_ids : list Z;
  id_to_vector_idx : gmap Z nat;
  next_order_id : Z
}.

Definition set_lob (b : Book) (s : Test) : Test :=
  mkTest b (test_book s) (active_ids s) (id_to_vector_idx s) (next_order_id s).
Definition on_lob {A} (m : M Book A) : M Test A := zoom lob set_lob m.
Definition on_test_book (f : MockOrderBook → MockOrderBook) : M Test unit :=
  modify (λ s, mkTest (lob s) (f (test_book s)) (active_ids s) (id_to_vector_idx s) (next_order_id s)).
Definition set_ids (ids : list Z) (idx : gmap Z nat) : M Test unit :=
  modify (λ s, mkTest (lob s) (test_book s) ids idx (next_order_id s)).

(** [next_order_id++]. *)
Definition next_id : M Test Z := λ s,
  (Ok (next_order_id s),
   mkTest (lob s) (test_book s) (active_ids s) (id_to_vector_idx s) (u64 (next_order_id s + 1))).

(** The last id takes the place of the removed one. *)
Definition remove_active (random_idx : nat) (target_id : Z) : M Test unit :=
  s ← get_state;
  last_id ← of_option (last (active_ids s));
  let ids := <[random_idx := last_id]> (active_ids s) in
  set_ids (take (length ids - 1) ids)
    (delete target_id (<[last_id := random_idx]> (id_to_vector_idx s))).

Definition test_add (r : Draw) : M Test unit :=
  id ← next_id;
  let side := if d_side r =? 0 then char_B else char_S in
  let enum_side := if side =? char_B then Buy else Sell in
  on_lob (add_order (mkAddOrder 0 id (d_shares r) (d_price r) 0 0 (replicate 8 0) side));;
  on_test_book (mock_add_order id (mkMockOrder (d_shares r) (d_price r) enum_side));;
  s ← get_state;
  set_ids (active_ids s ++ [id]) (<[id := length (active_ids s)]> (id_to_vector_idx s)).

Definition test_cancel (random_idx : nat) (target_id : Z) : M Test unit :=
  on_lob (cancel_order target_id);;
  on_test_book (mock_cancel_order target_id);;
  remove_active random_idx target_id.

(** [get_shares] of an id that is not live would make the range of
    [exec_dist] empty, which is undefined. *)
Definition test_execute (r : Draw) (random_idx : nat) (target_id : Z) : M Test unit :=
  s ← get_state;
  current_shares ← of_option (mo_shares <$> mk_orders (test_book s) !! target_id);
  let executed_shares := exec_dist (d_exec r) current_shares in
  on_lob (execute_order (mkOrderExecuted 0 target_id 0 executed_shares 0 0));;
  on_test_book (mock_execute_order target_id executed_shares);;
  if current_shares =? executed_shares then remove_active random_idx target_id else mret tt.

Definition require (c : bool) : M Test unit := if c then mret tt else throw (logic_error "REQUIRE").

(** The body of the loop. *)
Definition test_iteration (r : Draw) : M Test unit :=
  s ← get_state;
  let op := match active_ids s with [] => 0 | _ => d_op r end in
  (if op <? 50 then test_add r
   else
     let random_idx := idx_dist (d_idx r) (length (active_ids s)) in
     target_id ← of_option (active_ids s !! random_idx);
     if op <? 75 then test_cancel random_idx target_id else test_execute r random_idx target_id);;
  bid ← on_lob book_best_bid;
  m ← gets test_book;
  require (bid =? mock_best_bid m);;
  offer ← on_lob book_best_offer;
  require (offer =? mock_best_offer m).

Fixpoint run_test (rs : list Draw) : M Test unit :=
  match rs with
  | [] => mret tt
  | r :: rs' => test_iteration r;; run_test rs'
  end.

(** The test has a book of 2,000,000 cells and runs 1,000,000 iterations. *)
Definition TEST_BOOK_SIZE : Z := 2000000.
Definition TEST_ITERATIONS : nat := Z.to_nat 1000000.

Definition new_test (b : Book) : Test := mkTest b mock_empty [] ∅ 1.

(** * The invariant *)

Section Invariant.
Context (LOB_SIZE : Z) (LOB_SIZE_range : 0 < LOB_SIZE ≤ ORDER_MAP_SIZE).

(** After [n] iterations. *)
Record test_ok (n : nat) (s : Test) : Prop := {
  tk_rep : rep LOB_SIZE (lob s) (test_book s);
  tk_nodup : NoDup (active_ids s);
  tk_live : ∀ id, id ∈ active_ids s ↔ is_Some (mk_orders (test_book s) !! id);
  tk_shares : ∀ id o, mk_orders (test_book s) !! id = Some o → 1 ≤ mo_shares o;
  tk_old : ∀ id, id ∈ active_ids s → id < next_order_id s;
  tk_next : 1 ≤ next_order_id s ≤ Z.of_nat n + 1;
  tk_length : (length (active_ids s) ≤ n)%nat
}.

(** [active_ids] without the element at [i]. *)
Lemma swap_remove (ids : list Z) i x : ids !! i = Some x →
  ∃ y, last ids = Some y ∧ ids ≡ₚ x :: take (length (<[i := y]> ids) - 1) (<[i := y]> ids).
Proof.
  intros Hi. destruct (last ids) as [y|] eqn:El; [|by apply last_None in El as ->].
  exists y. split; [done|]. apply last_Some in El as [l ->]. rewrite length_insert, length_app. cbn [length].
  replace (length l + 1 - 1)%nat with (length l) by lia. rewrite insert_app.
  destruct (decide (i < length l)%nat) as [Hlt|Hge].
  - rewrite lookup_app_l in Hi by done. rewrite take_app_length' by (by rewrite length_insert).
    rewrite <- (take_drop_middle l i x Hi) at 1. rewrite insert_take_drop by done.
    rewrite <- app_assoc. cbn [app]. rewrite <- (Permutation_middle (take i l)). f_equiv.
    apply Permutation_app_head. by rewrite <- Permutation_cons_append.
  - rewrite take_app_length. rewrite lookup_app_r in Hi by lia.
    apply list_lookup_singleton_Some in Hi as [_ ->]. by rewrite <- Permutation_cons_append.
Qed.

(** ** The calls *)

Lemma on_lob_run {A} (m : M Book A) s o b : m (lob s) = (o, b) → on_lob m s = (o, set_lob b s).
Proof. intros E. unfold on_lob, zoom. by rewrite E. Qed.

Lemma live_count n s : test_ok n s → (size (mk_orders (test_book s)) ≤ n)%nat.
Proof.
  intros I. rewrite <- size_dom.
  assert (dom (mk_orders (test_book s)) = list_to_set (active_ids s)) as ->.
  { apply set_eq. intros id. by rewrite elem_of_dom, elem_of_list_to_set, (tk_live _ _ I). }
  rewrite size_list_to_set by apply I. apply I.
Qed.

Lemma next_id_fresh n s : test_ok n s → mk_orders (test_book s) !! next_order_id s = None.
Proof.
  intros I. apply eq_None_not_Some. intros Hl%(tk_live _ _ I). apply (tk_old _ _ I) in Hl. lia.
Qed.

(** The ids after a removal. *)
Lemma remove_active_run n s i id : NoDup (active_ids s) → (length (active_ids s) ≤ n)%nat →
  active_ids s !! i = Some id →
  ∃ s', remove_active i id s = (Ok tt, s') ∧ lob s' = lob s ∧ test_book s' = test_book s ∧
    next_order_id s' = next_order_id s ∧ NoDup (active_ids s') ∧ (length (active_ids s') ≤ n)%nat ∧
    ∀ x, x ∈ active_ids s' ↔ x ∈ active_ids s ∧ x ≠ id.
Proof.
  intros Hnd Hlen Hi. destruct (swap_remove _ _ _ Hi) as (y & Hy & Hp). eexists. split.
  { unfold remove_active. munfold. rewrite Hy. reflexivity. }
  cbn [lob test_book next_order_id active_ids]. revert Hp.
  generalize (take (length (<[i := y]> (active_ids s)) - 1) (<[i := y]> (active_ids s))). intros l Hp.
  split_and!; [done..| | |].
  - rewrite Hp in Hnd. by apply NoDup_cons in Hnd as [_ ?].
  - apply Permutation_length in Hp. cbn [length] in Hp. lia.
  - intros x. rewrite Hp in Hnd. apply NoDup_cons in Hnd as [Hnot _]. rewrite Hp. set_solver.
Qed.

Lemma test_add_ok n s r : test_ok n s → Z.of_nat n < LOB_SIZE → draw_ok r →
  ∃ s', test_add r s = (Ok tt, s') ∧ test_ok (S n) s'.
Proof.
  intros I Hn [Hp Hs]. pose proof (next_id_fresh n s I) as Hfresh. pose proof (live_count n s I) as Hsize.
  set (side := if d_side r =? 0 then char_B else char_S).
  set (p := mkAddOrder 0 (next_order_id s) (d_shares r) (d_price r) 0 0 (replicate 8 0) side).
  destruct (dispatch_rep LOB_SIZE (lob s) (test_book s) (NAdd p) (tk_rep _ _ I)) as (b' & Hrun & Hrep).
  { apply andb_true_iff. split; [apply Z.leb_le; cbn; lia|by apply bool_decide_eq_true]. }
  cbn [spec_dispatch fst snd] in Hrun, Hrep. unfold spec_add_order in Hrep. cbn [ao_price p] in Hrep.
  rewrite (proj2 (Z.leb_gt MAX_TICKS _)) in Hrep by (unfold MAX_TICKS; lia).
  rewrite (proj2 (Z.leb_gt LOB_SIZE _)) in Hrep by lia.
  eexists. split.
  { unfold test_add. mstep (eq_refl (next_id s)). fold side. fold p.
    change (add_order p) with (dispatch (NAdd p)).
    mstep (on_lob_run (dispatch (NAdd p))
      (mkTest (lob s) (test_book s) (active_ids s) (id_to_vector_idx s) (u64 (next_order_id s + 1))) _ _ Hrun).
    reflexivity. }
  destruct (tk_next _ _ I) as [Hn1 Hn2]. assert (ORDER_MAP_SIZE = 2 ^ 22) as Hmap by done.
  constructor; cbn [lob test_book active_ids next_order_id set_lob]; rewrite ?mock_add_orders.
  - exact Hrep.
  - apply NoDup_app. split_and!; [apply I| |apply NoDup_singleton].
    intros x Hx ->%list_elem_of_singleton. apply (tk_old _ _ I) in Hx. lia.
  - intros id. rewrite elem_of_app, list_elem_of_singleton, (tk_live _ _ I), lookup_insert.
    case_decide; subst; [split; eauto|]. naive_solver.
  - intros id o. rewrite lookup_insert. case_decide; [|by apply I]. intros [= <-]. cbn [mo_shares]. lia.
  - intros id. unfold u64. rewrite uwrap_id by (unfold in_range; lia).
    intros [Hid| ->%list_elem_of_singleton]%elem_of_app; [apply (tk_old _ _ I) in Hid|]; lia.
  - unfold u64. rewrite uwrap_id by (unfold in_range; lia). lia.
  - rewrite length_app. pose proof (tk_length _ _ I). cbn [length]. lia.
Qed.

(** What is left to show of a removal once the two books agree. *)
Lemma removed_ok n s s0 s' i id : test_ok n s0 → active_ids s0 !! i = Some id →
  active_ids s = active_ids s0 → next_order_id s = next_order_id s0 → rep LOB_SIZE (lob s) (test_book s) →
  mk_orders (test_book s) = delete id (mk_orders (test_book s0)) →
  remove_active i id s = (Ok tt, s') → test_ok n s'.
Proof.
  intros I Hi Ha Hx Hrep Ho Hrun. destruct (remove_active_run n s i id) as (s1 & E & Hl & Ht & Hx' & Hnd & Hlen & Hin);
    rewrite ?Ha; try apply I; [done|]. assert (s1 = s') as -> by congruence.
  constructor; rewrite ?Hl, ?Ht, ?Hx', ?Hx; try done; try apply I.
  - intros x. rewrite Hin, Ha, Ho, (tk_live _ _ I), lookup_delete_is_Some. naive_solver.
  - intros x o. rewrite Ho. intros [_ Hxo]%lookup_delete_Some. by apply (tk_shares _ _ I x).
  - intros x [Hx1 _]%Hin. rewrite Ha in Hx1. by apply I.
Qed.

Lemma remove_active_some i id s : active_ids s !! i = Some id → ∃ s', remove_active i id s = (Ok tt, s').
Proof.
  intros Hi. destruct (swap_remove _ _ _ Hi) as (y & Hy & _). eexists. unfold remove_active. munfold.
  rewrite Hy. reflexivity.
Qed.

Lemma test_cancel_ok n s i id : test_ok n s → active_ids s !! i = Some id →
  ∃ s', test_cancel i id s = (Ok tt, s') ∧ test_ok n s'.
Proof.
  intros I Hi.
  destruct (dispatch_rep LOB_SIZE (lob s) (test_book s) (NCancel (mkCancelOrder 0 id 0 0 0)) (tk_rep _ _ I) eq_refl)
    as (b' & Hrun & Hrep). cbn [dispatch spec_dispatch fst snd co_order_reference_number] in Hrun, Hrep.
  unfold test_cancel. mstep (on_lob_run _ s _ _ Hrun). unfold on_test_book. rewrite bind_modify. cbn [set_lob].
  match goal with |- context [remove_active i id ?s1] => destruct (remove_active_some i id s1) as (s' & E); [exact Hi|] end.
  exists s'. split; [exact E|]. eapply (removed_ok n _ s); try exact E; try done. cbn [test_book]. apply mock_cancel_orders.
Qed.

Lemma mock_execute_orders id k m o : mk_orders m !! id = Some o →
  mk_orders (mock_execute_order id k m) =
  if mo_shares o - k =? 0 then delete id (mk_orders m)
  else <[id := mkMockOrder (mo_shares o - k) (mo_price o) (mo_side o)]> (mk_orders m).
Proof.
  intros Ho. unfold mock_execute_order. rewrite Ho. cbn [mo_shares]. destruct (_ =? 0); [|done].
  rewrite mock_cancel_orders. cbn. apply delete_insert_eq.
Qed.

Lemma exec_dist_range raw n : 1 ≤ n → 1 ≤ exec_dist raw n ≤ n.
Proof. intros Hn. unfold exec_dist. pose proof (Z.mod_pos_bound raw n ltac:(lia)). lia. Qed.

Lemma test_execute_ok n s r i id : test_ok n s → active_ids s !! i = Some id →
  ∃ s', test_execute r i id s = (Ok tt, s') ∧ test_ok n s'.
Proof.
  intros I Hi. assert (id ∈ active_ids s) as Hin by (by eapply list_elem_of_lookup_2).
  destruct (proj1 (tk_live _ _ I id) Hin) as [o Ho].
  pose proof (exec_dist_range (d_exec r) (mo_shares o) (tk_shares _ _ I _ _ Ho)) as Hr.
  set (k := exec_dist (d_exec r) (mo_shares o)) in *.
  destruct (dispatch_rep LOB_SIZE (lob s) (test_book s) (NExecute (mkOrderExecuted 0 id 0 k 0 0)) (tk_rep _ _ I) eq_refl)
    as (b' & Hrun & Hrep). cbn [dispatch spec_dispatch] in Hrun, Hrep. unfold spec_execute_order in Hrun, Hrep.
  cbn [eo_order_reference_number eo_shares] in Hrun, Hrep. rewrite Ho, (proj2 (Z.ltb_ge _ k)) in Hrun, Hrep by lia.
  cbn [fst snd] in Hrun, Hrep.
  pose proof (mock_execute_orders id k (test_book s) o Ho) as Hm.
  unfold test_execute. mstep (eq_refl (get_state s)). rewrite Ho. cbn [fmap option_fmap option_map of_option]. rewrite bind_mret.
  fold k. mstep (on_lob_run _ s _ _ Hrun). unfold on_test_book. rewrite bind_modify. cbn [set_lob].
  destruct (Z.eqb_spec (mo_shares o) k) as [Hk|Hk].
  - match goal with |- context [remove_active i id ?s1] => destruct (remove_active_some i id s1) as (s' & E); [exact Hi|] end.
    exists s'. split; [exact E|]. eapply (removed_ok n _ s); try exact E; try done. cbn [test_book set_lob].
    by rewrite Hm, (proj2 (Z.eqb_eq _ 0)) by lia.
  - rewrite (proj2 (Z.eqb_neq _ 0)) in Hm by lia. eexists. split; [reflexivity|].
    constructor; cbn [lob test_book active_ids next_order_id set_lob]; rewrite ?Hm; try apply I; [exact Hrep| |].
    + intros x. rewrite (tk_live _ _ I), lookup_insert. case_decide; subst; [split; eauto|done].
    + intros x o'. rewrite lookup_insert. case_decide; [|by apply I]. intros [= <-]. cbn [mo_shares]. lia.
Qed.

Lemma test_ok_S n s : test_ok n s → test_ok (S n) s.
Proof. intros []. constructor; try done; lia. Qed.

(** The comparison of the best prices succeeds. *)
Lemma comparison_ok n s : test_ok n s →
  (bid ← on_lob book_best_bid;
   m ← gets test_book;
   require (bid =? mock_best_bid m);;
   offer ← on_lob book_best_offer;
   require (offer =? mock_best_offer m)) s = (Ok tt, s).
Proof.
  intros I. assert (set_lob (lob s) s = s) as Hs by (by destruct s).
  mstep (on_lob_run _ s _ _ (best_bid_rep _ _ _ _ _ _ (tk_rep _ _ I))). rewrite Hs, bind_gets, Z.eqb_refl.
  cbn [require]. rewrite bind_mret.
  mstep (on_lob_run _ s _ _ (best_offer_rep _ _ _ _ _ _ (tk_rep _ _ I))). by rewrite Hs, Z.eqb_refl.
Qed.

Lemma test_iteration_ok n s r : test_ok n s → Z.of_nat n < LOB_SIZE → draw_ok r →
  ∃ s', test_iteration r s = (Ok tt, s') ∧ test_ok (S n) s'.
Proof.
  intros I Hn Hr. unfold test_iteration. mstep (eq_refl (get_state s)).
  set (op := match active_ids s with [] => 0 | _ => d_op r end).
  assert (∃ s', (if op <? 50 then test_add r
   else target_id ← of_option (active_ids s !! idx_dist (d_idx r) (length (active_ids s)));
        if op <? 75 then test_cancel (idx_dist (d_idx r) (length (active_ids s))) target_id
        else test_execute r (idx_dist (d_idx r) (length (active_ids s))) target_id) s = (Ok tt, s') ∧
   test_ok (S n) s') as (s' & E & I').
  { destruct (Z.ltb_spec op 50) as [|Hop]; [by apply test_add_ok|].
    destruct (lookup_lt_is_Some_2 (active_ids s) (idx_dist (d_idx r) (length (active_ids s)))) as [id Hid].
    { unfold op in Hop. unfold idx_dist. destruct (active_ids s) as [|x l]; [lia|].
      pose proof (Z.mod_pos_bound (d_idx r) (Z.of_nat (length (x :: l))) ltac:(cbn [length]; lia)). lia. }
    rewrite Hid. cbn [of_option]. rewrite bind_mret.
    destruct (op <? 75); [destruct (test_cancel_ok n s _ id I Hid) as (s' & E & I')
                         |destruct (test_execute_ok n s r _ id I Hid) as (s' & E & I')];
      exists s'; (split; [exact E|by apply test_ok_S]). }
  exists s'. split; [|done]. mstep E. by apply (comparison_ok (S n)).
Qed.

Lemma run_test_ok rs n s : test_ok n s → Z.of_nat (n + length rs) ≤ LOB_SIZE → Forall draw_ok rs →
  ∃ s', run_test rs s = (Ok tt, s') ∧ test_ok (n + length rs) s'.
Proof.
  intros I Hn Hrs. revert n s I Hn. induction Hrs as [|r rs Hr _ IH]; intros n s I Hn.
  - exists s. split; [done|]. by rewrite Nat.add_0_r.
  - cbn [length] in *. destruct (test_iteration_ok n s r I ltac:(lia) Hr) as (s1 & E & I1).
    destruct (IH (S n) s1 I1 ltac:(lia)) as (s' & E' & I'). exists s'. cbn [run_test]. mstep E.
    split; [done|]. by replace (n + S (length rs))%nat with (S n + length rs)%nat by lia.
Qed.

Lemma new_test_ok page_size b : new_book LOB_SIZE page_size true true = Ok b → test_ok 0 (new_test b).
Proof.
  intros Hnew. constructor; unfold new_test; cbn [lob test_book active_ids next_order_id length].
  - by apply (rep_new LOB_SIZE page_size).
  - apply NoDup_nil_2.
  - intros id. unfold mock_empty. cbn [mk_orders]. rewrite lookup_empty. split; [set_solver|by intros [? [=]]].
  - intros id o. unfold mock_empty. cbn [mk_orders]. by rewrite lookup_empty.
  - set_solver.
  - lia.
  - lia.
Qed.

End Invariant.

(** The randomised test of the book passes on every seed: whatever numbers
    the generator gives, no REQUIRE of the test fails, no call throws and no
    access is undefined, as long as the book has a cell for each iteration (the
    test has two for each); and the ids the test believes to be live are those
    of the reference book. *)
Theorem differential_test_passes LOB_SIZE page_size b rs : 0 < LOB_SIZE ≤ ORDER_MAP_SIZE →
  new_book LOB_SIZE page_size true true = Ok b → Forall draw_ok rs → Z.of_nat (length rs) ≤ LOB_SIZE →
  ∃ s', run_test rs (new_test b) = (Ok tt, s') ∧
    ∀ id, id ∈ active_ids s' ↔ is_Some (mk_orders (test_book s') !! id).
Proof.
  intros Hsize Hnew Hrs Hl.
  destruct (run_test_ok LOB_SIZE Hsize rs 0 (new_test b)) as (s' & E & I); [|done|done|].
  - by apply (new_test_ok LOB_SIZE Hsize page_size).
  - exists s'. split; [done|apply I].
Qed.

(** Two additions, an execution, a cancellation of what is left, an addition. *)
Definition sample_draws : list Draw :=
  [mkDraw 3 500 100 0 0 0; mkDraw 10 700 200 1 0 0; mkDraw 80 0 100 0 1 49; mkDraw 60 0 100 0 1 0;
   mkDraw 99 0 100 0 5 99; mkDraw 0 99999 10000 1 7 7].

Lemma differential_test_passes_witness :
  match new_book 8 4096 true true with
  | Ok b => ∃ s', run_test sample_draws (new_test b) = (Ok tt, s') ∧
              (3 ∈ active_ids s' ↔ is_Some (mk_orders (test_book s') !! 3))
  | _ => False
  end.
Proof.
  destruct (new_book 8 4096 true true) as [b| | |] eqn:E; [|by vm_compute in E..].
  destruct (differential_test_passes 8 4096 b sample_draws) as (s' & Hrun & Hid);
    [by vm_compute|exact E|repeat constructor; by vm_compute|by vm_compute|].
  exists s'. split; [exact Hrun|exact (Hid 3)].
Defined.

(** The sizes of the test satisfy the theorem. *)
Lemma test_sizes : 0 < TEST_BOOK_SIZE ≤ ORDER_MAP_SIZE ∧ Z.of_nat TEST_ITERATIONS ≤ TEST_BOOK_SIZE.
Proof. split; [by vm_compute|]. unfold TEST_ITERATIONS. rewrite Z2Nat.id; by vm_compute. Qed.
