(* ===== verification/UnitTests.v ===== *)
(** The unit tests of the repository with fixed inputs (src/tests), run on the
    model: each test case is a function that makes the calls of the test and
    collects the results it requires.  The randomised tests are theorems over
    all inputs: that of the book in DifferentialTest.v, those of the id map and
    of the bitset below. *)

From S2P Require Import Prelude Interfaces HierarchicalBitset StaticOrderMap SPSCQueue ItchOrderTypes LimitOrderBook BookTheorems Crc32 MmapLogger ItchParser RecoveryEngine.

(** * test_static_order_map.cpp *)

(** [for (i = 0; i < n; ++i) body(i)], keeping the results. *)
Fixpoint for_each {S A} (n : nat) (i : Z) (body : Z → M S A) : M S (list A) :=
  match n with
  | O => mret []
  | S n' => a ← body i; l ← for_each n' (i + 1) body; mret (a :: l)
  end.

(** [order_map.find(id)->order_id] and [->pool_idx]. *)
Definition find_bucket (id : Z) : M StaticOrderMap (option (Z * Z)) :=
  found ← find id;
  match found with
  | None => mret None
  | Some i => b ← load_bucket i; mret (Some (order_id b, pool_idx b))
  end.

Definition erase_found (id : Z) : M StaticOrderMap unit :=
  found ← find id;
  match found with Some i => erase_ptr i | None => ub end.

(** "Static Order Map Find Test". *)
Definition map_find_test : M StaticOrderMap bool :=
  r0 ← find 1;
  _ ← insert 1 1;
  r1 ← find_bucket 1;
  _ ← for_each 10 0 (λ i, insert (3 + i * 64) (10000 + i));
  rs ← for_each 10 0 (λ i, find_bucket (3 + i * 64));
  _ ← for_each 5 0 (λ j, erase_found (3 + (1 + 2 * j) * 64));
  r8 ← find (3 + 8 * 64);
  mret (bool_decide (r0 = None ∧ r1 = Some (1, 1) ∧
    rs = (λ i, Some (3 + i * 64, 10000 + i)) <$> [0; 1; 2; 3; 4; 5; 6; 7; 8; 9] ∧ r8 ≠ None)).

(** "Static Order Map Full Find Test". *)
Definition map_full_test : M StaticOrderMap bool :=
  _ ← for_each 64 0 (λ i, insert (1 + i * 64) (1 + i * 64));
  r ← find 0;
  result ← insert 0 0;
  m ← get_state;
  mret (bool_decide (r = None ∧ result = (end_ m, false))).

(** "Static Order Map Open Addressing Wraparound". *)
Definition map_wraparound_test : M StaticOrderMap bool :=
  rs ← for_each 10 0 (λ i, insert (4095 + i * 4096) (1 + i * 4096));
  mret (forallb snd rs).

(** "Tombstone Overwrite Test". *)
Definition map_tombstone_test : M StaticOrderMap bool :=
  res1 ← insert 1 1;
  erase_ptr res1.1;;
  res2 ← insert 65 1;
  mret (bool_decide (res1 = res2)).

(** The result of a test case on a new map. *)
Definition run_map_test (Capacity : Z) (t : M StaticOrderMap bool) : outcome bool :=
  match StaticOrderMap_new Capacity 4096 true with
  | Ok m => (t m).1
  | Throw e => Throw e
  | UB => UB
  | OutOfFuel => OutOfFuel
  end.

Example map_tests_pass :
  run_map_test 64 map_find_test = Ok true ∧ run_map_test 64 map_full_test = Ok true ∧
  run_map_test 4096 map_wraparound_test = Ok true ∧ run_map_test 64 map_tombstone_test = Ok true.
Proof. split_and!; by vm_compute. Qed.

(** * test_crash_recovery.cpp *)

(** Ten zero add orders are logged, four bytes of the fifth frame are
    overwritten, and the log is recovered into a book of 1000 orders. *)
Definition crash_recovery_test (b : Book) (lg : MmapLogger) : outcome RecoveryReport :=
  let parser := ItchParser_new (SPSCQueue_new 4096 (NCancel (mkCancelOrder 0 0 0 0 0))) lg in
  let raw_msg := char_A :: replicate 35 0 in
  match for_each 10 0 (λ _, parse_block 4096 (λ n, n) 37 raw_msg) parser with
  | (Ok _, p) =>
      match start_ (logger_ p) with
      | Some file =>
          match write_bytes file (4 * 64 + 16) (le_bytes 4 3735928559) with
          | Some file' =>
              match run_recovery 20 4096 (Some file') true true (RecoveryEngine_new b) with
              | (Ok _, en) => Ok (report_ en)
              | (Throw e, _) => Throw e
              | (UB, _) => UB
              | (OutOfFuel, _) => OutOfFuel
              end
          | None => UB
          end
      | None => UB
      end
  | (Throw e, _) => Throw e
  | (UB, _) => UB
  | (OutOfFuel, _) => OutOfFuel
  end.

Example crash_recovery_passes :
  match new_book 1000 4096 true true, MmapLogger_new true true true true with
  | Ok b, Ok lg => crash_recovery_test b lg = Ok (mkReport 4 3 true)
  | _, _ => False
  end.
Proof. by vm_compute. Qed.

(** * The fuzzer of test_static_order_map.cpp *)

(** A draw is an id and a pool index; an id that is found is drawn again. *)
Fixpoint fuzz_insert (draws : list (Z * Z)) (all_order_ids : list Z) : M StaticOrderMap (list Z) :=
  match draws with
  | [] => mret all_order_ids
  | (id, idx) :: draws' =>
      found ← find id;
      match found with
      | Some _ => fuzz_insert draws' all_order_ids
      | None => _ ← insert id idx; fuzz_insert draws' (all_order_ids ++ [id])
      end
  end.

Fixpoint all_found (ids : list Z) : M StaticOrderMap bool :=
  match ids with
  | [] => mret true
  | id :: ids' =>
      found ← find id;
      match found with Some _ => all_found ids' | None => mret false end
  end.

Definition fuzzer_test (draws : list (Z * Z)) : M StaticOrderMap bool :=
  all_order_ids ← fuzz_insert draws [];
  all_found all_order_ids.

Section Fuzzer.
Context (C : Z).

Lemma fuzz_insert_rep draws ids m K : map_rep C m K → Z.of_nat (size K + length draws) ≤ C →
  (∀ id, id ∈ ids → is_Some (K !! id)) →
  ∃ ids' m' K', fuzz_insert draws ids m = (Ok ids', m') ∧ map_rep C m' K' ∧ ∀ id, id ∈ ids' → is_Some (K' !! id).
Proof.
  revert ids m K. induction draws as [|[id idx] draws IH]; intros ids m K R Hl Hids; [by exists ids, m, K|].
  cbn [fuzz_insert length] in *. destruct (find_rep C m K id R) as [(i & v & Hf & _)|[Hf Hk]]; mstep Hf.
  - apply (IH ids m K); [done|lia|done].
  - destruct (insert_room C m K id idx R Hk ltac:(lia)) as (i & m1 & Hi & _ & R1). mstep Hi.
    apply (IH (ids ++ [id]) m1 (<[id := idx]> K)); [done| |].
    + rewrite map_size_insert_None by done. lia.
    + intros x [Hx| ->%list_elem_of_singleton]%elem_of_app; rewrite lookup_insert; case_decide; eauto. done.
Qed.

Lemma all_found_rep ids m K : map_rep C m K → (∀ id, id ∈ ids → is_Some (K !! id)) → all_found ids m = (Ok true, m).
Proof.
  intros R. induction ids as [|id ids IH]; intros Hids; [done|]. cbn [all_found].
  destruct (Hids id ltac:(left)) as [v Hv].
  destruct (find_rep C m K id R) as [(i & w & Hf & _)|[_ Hn]]; [mstep Hf|congruence].
  apply IH. intros x Hx. apply Hids. by right.
Qed.
End Fuzzer.

(** The fuzzer passes on every seed: whatever ids and indices are drawn, as
    long as there are not more draws than buckets, every id that was inserted
    is found at the end. *)
Theorem map_fuzzer_passes e page_size draws m : 0 ≤ e ≤ 63 →
  StaticOrderMap_new (2 ^ e) page_size true = Ok m → Z.of_nat (length draws) ≤ 2 ^ e →
  (fuzzer_test draws m).1 = Ok true.
Proof.
  intros He Hnew Hl.
  assert (map_rep (2 ^ e) m ∅) as R by (eapply StaticOrderMap_new_rep; [exists e; lia|exact Hnew]).
  destruct (fuzz_insert_rep (2 ^ e) draws [] m ∅ R) as (ids & m' & K & E & R' & Hids).
  - by rewrite map_size_empty.
  - set_solver.
  - unfold fuzzer_test. mstep E. by rewrite (all_found_rep (2 ^ e) ids m' K R' Hids).
Qed.

(** * test_hierarchical_bitset.cpp *)

(** The bitset and the [std::set] of the test. *)
Record BitsetTest : Type := mkBitsetTest { bt_bitset : HierarchicalBitset; bt_set : gset Z }.

Definition on_bt_bitset {A} (m : M HierarchicalBitset A) : M BitsetTest A :=
  zoom bt_bitset (λ b s, mkBitsetTest b (bt_set s)) m.
Definition on_bt_set (f : gset Z → gset Z) : M BitsetTest unit :=
  modify (λ s, mkBitsetTest (bt_bitset s) (f (bt_set s))).

Definition require_bitset (c : bool) : M BitsetTest unit :=
  if c then mret tt else throw (logic_error "REQUIRE").

(** One iteration on the drawn [idx] and [op]; [*st.rbegin()] and
    [*st.begin()] are the extrema of the set. *)
Definition bitset_iteration (draw : Z * Z) : M BitsetTest unit :=
  let '(idx, op) := draw in
  (if op =? 0 then on_bt_bitset (clear_price_level idx);; on_bt_set (λ st, st ∖ {[idx]})
   else on_bt_bitset (set_price_level idx);; on_bt_set (λ st, {[idx]} ∪ st));;
  st ← gets bt_set;
  bid ← on_bt_bitset get_best_bid;
  require_bitset (bid =? best_bid_of st);;
  offer ← on_bt_bitset get_best_offer;
  require_bitset (offer =? best_offer_of st).

Fixpoint bitset_test (draws : list (Z * Z)) : M BitsetTest unit :=
  match draws with
  | [] => mret tt
  | d :: ds => bitset_iteration d;; bitset_test ds
  end.

Lemma on_bt_bitset_run {A} (m : M HierarchicalBitset A) b st a b' : m b = (Ok a, b') →
  on_bt_bitset m (mkBitsetTest b st) = (Ok a, mkBitsetTest b' st).
Proof. intros E. unfold on_bt_bitset, zoom. cbn [bt_bitset]. by rewrite E. Qed.

Lemma bitset_iteration_ok idx op b st : bitset_rep 100000 b st → 0 ≤ idx < 100000 →
  ∃ b' st', bitset_iteration (idx, op) (mkBitsetTest b st) = (Ok tt, mkBitsetTest b' st') ∧ bitset_rep 100000 b' st'.
Proof.
  intros R Hi. unfold bitset_iteration.
  assert (∃ b' st', (if op =? 0 then on_bt_bitset (clear_price_level idx);; on_bt_set (λ st, st ∖ {[idx]})
     else on_bt_bitset (set_price_level idx);; on_bt_set (λ st, {[idx]} ∪ st)) (mkBitsetTest b st) =
     (Ok tt, mkBitsetTest b' st') ∧ bitset_rep 100000 b' st') as (b' & st' & E & R').
  { destruct (op =? 0);
      [destruct (clear_price_level_rep 100000 b st idx R Hi) as (b' & E & R')
      |destruct (set_price_level_rep 100000 b st idx R Hi) as (b' & E & R')];
      mstep (on_bt_bitset_run _ b st _ _ E); by eexists _, _. }
  mstep E. exists b', st'. split; [|done]. rewrite bind_gets. cbn [bt_set].
  mstep (on_bt_bitset_run _ b' st' _ _ (get_best_bid_rep _ _ _ R')). rewrite Z.eqb_refl. cbn [require_bitset].
  rewrite bind_mret. mstep (on_bt_bitset_run _ b' st' _ _ (get_best_offer_rep _ _ _ R')). by rewrite Z.eqb_refl.
Qed.

(** The test of the bitset passes on every seed. *)
Theorem bitset_test_passes draws : Forall (λ d, 0 ≤ d.1 ≤ 99999) draws →
  (bitset_test draws (mkBitsetTest (HierarchicalBitset_new 100000) ∅)).1 = Ok tt.
Proof.
  assert (bitset_rep 100000 (HierarchicalBitset_new 100000) ∅) as R by (apply bitset_new_rep; lia).
  revert R. generalize (HierarchicalBitset_new 100000) (∅ : gset Z). intros b st R Hd. revert b st R.
  induction Hd as [|[idx op] ds Hi _ IH]; intros b st R; [done|]. cbn [bitset_test fst] in *.
  destruct (bitset_iteration_ok idx op b st R ltac:(lia)) as (b' & st' & E & R'). mstep E. by apply IH.
Qed.
