(* ===== verification/Benchmarks.v ===== *)
(** The programs of src/benchmarks that use the library, with their numbers
    of iterations: what they measure runs to its end.

    The benchmark of recovery fills the log with one add order, repeated, all
    with the id 0: the queue overflows, which loses orders of the live book but
    not of the log, and the replay adds the same id again and again
    (AnyOrders.v). *)

From S2P Require Import Prelude Interfaces HierarchicalBitset StaticOrderMap SPSCQueue ItchOrderTypes LimitOrderBook MockOrderBook BookTheorems AnyOrders Crc32 MmapLogger ItchParser ParserTheorems RecoveryEngine MulticastReceiver Pipeline Telemetry Statistics MockProgram ProgramSafety.

(** * bench_recovery.cpp *)

Definition NUM_ITERATIONS : Z := 16700000.

Definition raw_msg : list Z := char_A :: replicate 35 0.

Section Recovery.
Context (tsc : Z → Z).

Fixpoint write_log (n : nat) : M ItchParser unit :=
  match n with
  | O => mret tt
  | S n' => parse_block 4096 tsc 37 raw_msg;; write_log n'
  end.

(** [flush_to_disk] makes the mapping the content of the file. *)
Definition bench_recovery (n : nat) (lg : MmapLogger) (b : Book) : outcome RecoveryReport :=
  match write_log n (ItchParser_new (SPSCQueue_new 4096 (NCancel (mkCancelOrder 0 0 0 0 0))) lg) with
  | (Ok _, p) =>
      match run_recovery (S n) 4096 (start_ (logger_ p)) true true (RecoveryEngine_new b) with
      | (Ok _, engine) => Ok (get_recovery_report engine)
      | (Throw ex, _) => Throw ex
      | (UB, _) => UB
      | (OutOfFuel, _) => OutOfFuel
      end
  | (Throw ex, _) => Throw ex
  | (UB, _) => UB
  | (OutOfFuel, _) => OutOfFuel
  end.

Lemma raw_msg_whole : whole_message raw_msg = true ∧ Forall is_byte raw_msg.
Proof. split; [by vm_compute|]. apply (bool_decide_unpack _). by vm_compute. Qed.

Lemma write_log_rep n p ms l : parser_rep 12 p (message_frames tsc 0 ms) 0 l →
  64 * Z.of_nat (length ms + n) + 2 ≤ FILE_SIZE →
  ∃ p' l', write_log n p = (Ok tt, p') ∧ parser_rep 12 p' (message_frames tsc 0 (ms ++ replicate n raw_msg)) 0 l'.
Proof.
  revert p ms l. induction n as [|n IH]; intros p ms l Hp Hroom.
  - exists p, l. by rewrite app_nil_r.
  - destruct raw_msg_whole as [Hw Hb].
    destruct (parse_block_rep 12 tsc [raw_msg] [] 37 p (message_frames tsc 0 ms) 0 l) as (p1 & E & Hp1); try done.
    + by repeat constructor.
    + cbn [length]. lia.
    + rewrite length_message_frames. cbn [length]. lia.
    + change (concat [raw_msg] ++ []) with raw_msg in E.
      rewrite <- frames_of_handled in Hp1. change (fold_left _ [raw_msg] 0) with 0 in Hp1.
      destruct (IH p1 (ms ++ [raw_msg]) _ Hp1) as (p' & l' & E' & Hp'); [rewrite length_app; cbn [length]; lia|].
      exists p', l'. cbn [write_log]. mstep E. split; [done|]. by rewrite <- app_assoc in Hp'.
Qed.

(** Additions never throw. *)
Lemma additions_return max_orders os s : Forall (λ o, order_type o = AddOrderType) os →
  (any_apply max_orders os s).1 = Ok tt.
Proof. intros Hos. revert s. induction Hos as [|o os Ho _ IH]; intros s; [done|]. destruct o; try done. apply IH. Qed.

(** The replay of the benchmark reads every frame and reports no torn write,
    for each number of iterations for which the log has room. *)
Theorem bench_recovery_reads_all n lg max_orders map_page b :
  MmapLogger_new true true true true = Ok lg → 0 < max_orders ≤ ORDER_MAP_SIZE →
  new_book max_orders map_page true true = Ok b → 64 * Z.of_nat n + 2 ≤ FILE_SIZE →
  bench_recovery n lg b = Ok (report_at n 0).
Proof.
  intros Hlg Hmax Hnew Hroom. destruct raw_msg_whole as [Hw Hb].
  destruct (write_log_rep n (ItchParser_new (SPSCQueue_new (2 ^ 12) (NCancel (mkCancelOrder 0 0 0 0 0))) lg) [] [])
    as (p' & l' & E & Hp'); [by apply (new_parser_rep 12)|done|].
  set (ms := replicate n raw_msg). cbn [app] in Hp'. fold ms in Hp'.
  assert (Forall (Forall is_byte) ms) as Hbs by (by apply Forall_replicate).
  destruct (apply_orders_any max_orders (omap decode ms) b any_empty) as (b' & Happ & _);
    [by eapply book_any_new|by apply decoded_prices_ok|].
  rewrite additions_return in Happ.
  2: { apply Forall_forall. intros o (m & Hm & Ho)%list_elem_of_omap.
       apply elem_of_replicate in Hm as [-> _]. injection Ho as <-. done. }
  assert (fold_left (λ _ m, overrun m) ms 0 = 0) as Hnext.
  { subst ms. clear. induction n as [|n IH]; [done|]. exact IH. }
  destruct (log_recovers 12 tsc p' ms l' b b' 4096 (S n)) as (file & Hfile & Hrec); try done.
  - by rewrite Hnext.
  - by apply Forall_replicate.
  - unfold ms. by rewrite length_replicate.
  - by exists 262144.
  - by rewrite Hnext.
  - unfold ms. rewrite length_replicate. lia.
  - unfold bench_recovery. change (2 ^ 12) with 4096 in E. rewrite E, Hfile, Hrec. unfold get_recovery_report, ms.
    cbn [report_]. by rewrite length_replicate.
Qed.
End Recovery.

(** The benchmark's log has room for its iterations. *)
Lemma bench_recovery_room : 64 * NUM_ITERATIONS + 2 ≤ FILE_SIZE.
Proof. by vm_compute. Qed.

(** * bench_logger.cpp *)

Definition WARM_UP : Z := 100000.
Definition APPENDS : Z := 10000000.

Section Logger.
Context (tsc : Z → Z).

(** The frame is not compared with null. *)
Definition append_frame (i : Z) : M MmapLogger unit :=
  frame_ptr ← reserve_frame;
  frame ← of_option frame_ptr;
  store_le (frame + off_marker) 1 170;;
  store_le (frame + off_msg_type) 1 char_X;;
  store_le (frame + off_channel_id) 2 1;;
  store_le (frame + off_seq_num) 4 0;;
  store_le (frame + off_frame_timestamp) 8 (tsc i).

Fixpoint bench_logger (n : nat) (i : Z) : M MmapLogger unit :=
  match n with
  | O => mret tt
  | S n' => append_frame i;; bench_logger n' (i + 1)
  end.

Lemma store_le_in a c off n v : 0 ≤ off → off + Z.of_nat n ≤ alen a →
  ∃ a', store_le off n v (mkLogger (Some a) c) = (Ok tt, mkLogger (Some a') c) ∧ alen a' = alen a.
Proof.
  intros H1 H2. destruct (write_bytes_in a off (le_bytes n v)) as (a' & E & Hl);
    [done|rewrite length_le_bytes; lia|].
  exists a'. split; [|done]. unfold store_le, store_bytes. munfold. cbn [start_ curr_]. by rewrite E.
Qed.

Lemma append_frame_ok i a c : alen a = FILE_SIZE → 0 ≤ c → c + 64 ≤ FILE_SIZE →
  ∃ a', append_frame i (mkLogger (Some a) c) = (Ok tt, mkLogger (Some a') (c + 64)) ∧ alen a' = FILE_SIZE.
Proof.
  intros Ha Hc Hroom. unfold append_frame. mstep (reserve_frame_room a c Hroom). cbn [of_option]. rewrite bind_mret.
  change (c + sizeof_WalFrame) with (c + 64).
  unfold off_marker, off_msg_type, off_channel_id, off_seq_num, off_frame_timestamp.
  repeat match goal with |- context [(store_le ?off ?n ?v ≫= _) (mkLogger (Some ?a) ?c)] =>
    let a' := fresh "a" in let E := fresh "E" in let H := fresh "Ha" in
    destruct (store_le_in a c off n v) as (a' & E & H); [lia|lia|]; mstep E end.
  match goal with |- context [store_le ?off ?n ?v (mkLogger (Some ?a) ?c)] =>
    destruct (store_le_in a c off n v) as (a' & E' & H'); [lia|lia|] end.
  exists a'. split; [exact E'|congruence].
Qed.

(** Every append of the benchmark gets a frame, as long as the log has room
    for all of them. *)
Theorem bench_logger_never_null n i lg : MmapLogger_new true true true true = Ok lg →
  64 * Z.of_nat n ≤ FILE_SIZE → (bench_logger n i lg).1 = Ok tt.
Proof.
  intros [= <-] Hn.
  assert (∀ a c, alen a = FILE_SIZE → 0 ≤ c → c + 64 * Z.of_nat n ≤ FILE_SIZE →
    (bench_logger n i (mkLogger (Some a) c)).1 = Ok tt) as H; [|by apply H].
  clear Hn. revert i. induction n as [|n IH]; intros i a c Ha Hc Hroom; [done|]. cbn [bench_logger].
  destruct (append_frame_ok i a c Ha Hc ltac:(lia)) as (a' & E & Ha'). mstep E. apply IH; [done|lia|lia].
Qed.
End Logger.

Lemma bench_logger_room : 64 * (WARM_UP + APPENDS) ≤ FILE_SIZE.
Proof. by vm_compute. Qed.
