(* ===== verification/UnusedParts.v ===== *)
(** Parts of the repository that the program does not use yet: the headers of
    a capture file (src/src/utils/PCAPSimulation.h), the visitor of orders
    [OrderBookCallBack] (src/src/main.cpp) and the mock of
    [strategy::ExecutionEngine] (src/src/strategy/ExecutionEngine.h). *)

From S2P Require Import Prelude Interfaces HierarchicalBitset StaticOrderMap SPSCQueue ItchOrderTypes LimitOrderBook MockOrderBook BookTheorems OuchClient.

(** * Capture file headers *)

(** The offsets the C layout gives to fields of the given sizes, each aligned
    to its size, and the size of the struct, aligned to [align]. *)
Definition align_up (n a : nat) : nat := (n + a - 1) / a * a.

Fixpoint field_offsets (off : nat) (sizes : list nat) : list nat :=
  match sizes with
  | [] => []
  | s :: sizes' => align_up off s :: field_offsets (align_up off s + s) sizes'
  end.

Fixpoint fields_end (off : nat) (sizes : list nat) : nat :=
  match sizes with
  | [] => off
  | s :: sizes' => fields_end (align_up off s + s) sizes'
  end.

Definition struct_size (align : nat) (sizes : list nat) : nat := align_up (fields_end 0 sizes) align.

Record pcap_global_hdr : Type := mkGlobalHdr {
  magic_number : Z;
  major_version : Z;
  minor_version : Z;
  thiszone : Z;
  sigfigs : Z;
  snaplen : Z;
  network_ : Z
}.

Record pcap_packet_hdr : Type := mkPacketHdr {
  ts_sec : Z;
  ts_usec : Z;
  incl_len : Z;
  orig_len : Z
}.

Definition global_hdr_sizes : list nat := [4; 2; 2; 4; 4; 4; 4]%nat.
Definition packet_hdr_sizes : list nat := [4; 4; 4; 4]%nat.

(** The fields as the members of the structs, with their sizes; a signed
    member is its two's complement. *)
Definition global_hdr_fields (h : pcap_global_hdr) : list (nat * Z) :=
  zip global_hdr_sizes
    [magic_number h; major_version h; minor_version h; thiszone h; sigfigs h; snaplen h; network_ h].
Definition packet_hdr_fields (h : pcap_packet_hdr) : list (nat * Z) :=
  zip packet_hdr_sizes [ts_sec h; ts_usec h; incl_len h; orig_len h].

(** Without padding the bytes of a struct are those of its fields. *)
Definition fields_bytes (fs : list (nat * Z)) : list Z := concat ((λ '(n, v), le_bytes n v) <$> fs).

Definition signed32 (x : Z) : Z := if x <? 2 ^ 31 then x else x - 2 ^ 32.

Definition load_field (l : list Z) (off n : nat) : Z := le_Z (take n (drop off l)).

Definition read_global_hdr (l : list Z) : pcap_global_hdr :=
  match field_offsets 0 global_hdr_sizes with
  | [o1; o2; o3; o4; o5; o6; o7] =>
      mkGlobalHdr (load_field l o1 4) (load_field l o2 2) (load_field l o3 2) (signed32 (load_field l o4 4))
        (load_field l o5 4) (load_field l o6 4) (load_field l o7 4)
  | _ => mkGlobalHdr 0 0 0 0 0 0 0
  end.

Definition read_packet_hdr (l : list Z) : pcap_packet_hdr :=
  match field_offsets 0 packet_hdr_sizes with
  | [o1; o2; o3; o4] =>
      mkPacketHdr (load_field l o1 4) (load_field l o2 4) (load_field l o3 4) (load_field l o4 4)
  | _ => mkPacketHdr 0 0 0 0
  end.

(** The sizes the comments state, with no padding in between. *)
Lemma pcap_sizes :
  struct_size 4 global_hdr_sizes = 24%nat ∧ fields_end 0 global_hdr_sizes = sum_list global_hdr_sizes ∧
  struct_size 4 packet_hdr_sizes = 16%nat ∧ fields_end 0 packet_hdr_sizes = sum_list packet_hdr_sizes.
Proof. done. Qed.

Lemma load_field_at pre n v post : load_field (pre ++ le_bytes n v ++ post) (length pre) n = v mod 256 ^ Z.of_nat n.
Proof.
  unfold load_field. rewrite drop_app_length, take_app_length' by (by rewrite length_le_bytes). apply le_Z_le_bytes.
Qed.

(** A header written to a file and read back, whatever follows it. *)
Lemma packet_hdr_roundtrip h rest :
  in_range 32 (ts_sec h) → in_range 32 (ts_usec h) → in_range 32 (incl_len h) → in_range 32 (orig_len h) →
  read_packet_hdr (fields_bytes (packet_hdr_fields h) ++ rest) = h.
Proof.
  destruct h as [a b c d]. cbn [ts_sec ts_usec incl_len orig_len]. intros Ha Hb Hc Hd.
  set (l := fields_bytes _ ++ rest).
  assert (load_field l 0 4 = a mod 2 ^ 32 ∧ load_field l 4 4 = b mod 2 ^ 32 ∧
          load_field l 8 4 = c mod 2 ^ 32 ∧ load_field l 12 4 = d mod 2 ^ 32) as (E1 & E2 & E3 & E4).
  { split_and!.
    - exact (load_field_at [] 4 a (le_bytes 4 b ++ le_bytes 4 c ++ le_bytes 4 d ++ rest)).
    - exact (load_field_at (le_bytes 4 a) 4 b (le_bytes 4 c ++ le_bytes 4 d ++ rest)).
    - exact (load_field_at (le_bytes 4 a ++ le_bytes 4 b) 4 c (le_bytes 4 d ++ rest)).
    - exact (load_field_at (le_bytes 4 a ++ le_bytes 4 b ++ le_bytes 4 c) 4 d rest). }
  change (mkPacketHdr (load_field l 0 4) (load_field l 4 4) (load_field l 8 4) (load_field l 12 4)
          = mkPacketHdr a b c d).
  rewrite E1, E2, E3, E4, !Z.mod_small by done. done.
Qed.

(** * OrderBookCallBack *)

(** The overloads of [operator()], by the alternative a visitor finds. *)
Inductive OrderVariant : Type :=
| VariantAdd (o : NormalizedAddOrder)
| VariantExecuted (o : NormalizedOrderExecuted)
| VariantCancel (o : NormalizedCancelOrder).

Definition OrderBookCallBack (v : OrderVariant) : M Book unit :=
  match v with
  | VariantAdd new_order => add_order new_order
  | VariantExecuted new_order => execute_order new_order
  | VariantCancel new_order => cancel_order (co_order_reference_number new_order)
  end.

Definition variant_of (o : NormalizedOrder) : OrderVariant :=
  match o with NAdd o => VariantAdd o | NExecute o => VariantExecuted o | NCancel o => VariantCancel o end.

(** The visitor does what the dispatch table of [consume] does. *)
Lemma callback_is_dispatch o b : OrderBookCallBack (variant_of o) b = dispatch o b.
Proof. by destruct o. Qed.

(** * ExecutionEngine *)

Record ExecutionEngine : Type := mkExecutionEngine {
  egress_packet_pool_ : array OuchPacket;
  ee_seq_num : Z;
  ouch_client_ : OuchClient
}.

Definition EGRESS_POOL_SIZE : Z := 2048.

(** The constructor; the client is held by reference. *)
Definition ExecutionEngine_new (client : OuchClient) : ExecutionEngine :=
  mkExecutionEngine (anew EGRESS_POOL_SIZE null_packet) 0 client.

(** [execute_trade] is not implemented yet. *)
Definition execute_trade : M ExecutionEngine unit := mret tt.
