(* ===== verification/BenchTools.v ===== *)
(** The benchmark programs that do not use the library: the logger that calls
    write(2) (src/benchmarks/bench_write.cpp, with bench_utils.h) and the
    measurement of the frequency of the time stamp counter
    (src/benchmarks/find_cpu_freq.cpp).

    What write(2) and clock_gettime(2) return are arguments of the model.  The
    quotients the programs print are floating point and not modelled. *)

From S2P Require Import Prelude ItchOrderTypes Kernel.

(** * bench_write.cpp *)

Record LogEvent : Type := mkEvent {
  ev_timestamp : Z;
  ev_order_id : Z;
  ev_price : Z;
  ev_quantity : Z;
  ev_type : Z
}.

(** alignas(32): seven bytes of padding, whose content is not specified. *)
Definition sizeof_LogEvent : nat := 32.

Definition event_bytes (padding : list Z) (ev : LogEvent) : list Z :=
  le_bytes 8 (ev_timestamp ev) ++ le_bytes 8 (ev_order_id ev) ++ le_bytes 4 (ev_price ev) ++
  le_bytes 4 (ev_quantity ev) ++ le_bytes 1 (ev_type ev) ++ padding.

(** [create_dummy_event] of src/benchmarks/bench_logger.cpp on the numbers it
    draws; reading past the vector is UB.  The bounds of the last distribution
    are 0 and the size of the vector, both included. *)
Definition dummy_events : list Z := [char_A; char_E; char_X].
Definition event_type_dist (draw : Z) : bool := (0 <=? draw) && (draw <=? Z.of_nat (length dummy_events)).

Definition create_dummy_event (timestamp order_id price quantity type_draw : Z) : option LogEvent :=
  event_type ← dummy_events !! Z.to_nat type_draw;
  Some (mkEvent timestamp order_id price quantity event_type).

Example dummy_event_out_of_range : event_type_dist 3 = true ∧ create_dummy_event 1 2 3 4 3 = None.
Proof. done. Qed.

Section Constructor.
Context `{OS}.

Definition WriteLogger_ctor : M Kernel Z :=
  fd ← open_fd "open" [];
  if fd =? -1 then throw (runtime_error "WriteLogger(): unable to create new file. Error: ")
  else mret fd.

Definition WriteLogger_dtor (fd : Z) : M Kernel unit := if fd =? -1 then mret tt else close fd.

(** [flush_to_disk]: the result of fdatasync is not used. *)
Definition WriteLogger_flush (fd : Z) : M Kernel unit :=
  if fd =? -1 then mret tt else _ ← succeeds "fdatasync" [fd]; mret tt.
End Constructor.

(** [append]: the file is the state, [ret] what write returns, with the bytes
    it took. *)
Definition append (padding : list Z) (ev : LogEvent) (ret : Z) : M (list Z) bool :=
  if ret =? -1 then throw (runtime_error "WriteLogger::append(): Unable to append data to file. Error: ")
  else modify (λ file, file ++ take (Z.to_nat ret) (event_bytes padding ev));; mret true.

(** The loop of [main]: the same event with the number of the iteration. *)
Fixpoint append_loop (i : Z) (rets : list Z) (ev : LogEvent) : M (list Z) unit :=
  match rets with
  | [] => mret tt
  | ret :: rets' =>
      let ev := mkEvent (ev_timestamp ev) i (ev_price ev) (ev_quantity ev) (ev_type ev) in
      append (replicate 7 0) ev ret;; append_loop (i + 1) rets' ev
  end.

(** The fenced reads of the counter, on the value the counter has, and the
    cycles between two of them. *)
Definition get_tsc_start (counter : Z) : Z := u64 counter.
Definition get_tsc_end (counter : Z) : Z := u64 counter.
Definition num_cycles (start stop : Z) : Z := u64 (get_tsc_end stop - get_tsc_start start).

(** The difference is right even when the counter wraps in between. *)
Lemma num_cycles_wraps start n : 0 ≤ n < 2 ^ 64 → num_cycles start (start + n) = n.
Proof.
  intros Hn. unfold num_cycles, get_tsc_end, get_tsc_start, u64, uwrap. rewrite <- Zminus_mod.
  replace (start + n - start) with n by lia. by apply Z.mod_small.
Qed.

Lemma length_event_bytes padding ev : length padding = 7%nat → length (event_bytes padding ev) = sizeof_LogEvent.
Proof. intros Hp. unfold event_bytes. rewrite !length_app, !length_le_bytes, Hp. done. Qed.

Section Ownership.
Context `{OSLaws}.

(** The constructor holds a descriptor or nothing, and the destructor gives it
    back. *)
Lemma owns_WriteLogger_ctor :
  owns ∅ WriteLogger_ctor (λ fd R, fd ≠ -1 ∧ R = {[Fd fd]}) (λ R, R = ∅).
Proof. unfold WriteLogger_ctor. owns_auto; [set_solver|]. split; [by apply Z.eqb_neq|set_solver]. Qed.

Lemma owns_WriteLogger : owns ∅ (fd ← WriteLogger_ctor; WriteLogger_dtor fd) (λ _ R, R = ∅) (λ R, R = ∅).
Proof.
  eapply owns_bind; [apply owns_WriteLogger_ctor|]. cbv beta. intros fd R [Hfd ->]. unfold WriteLogger_dtor.
  rewrite (proj2 (Z.eqb_neq _ _) Hfd). owns_auto; set_solver.
Qed.
End Ownership.

(** When every write takes the whole event, the [k]-th event of the file is
    that of iteration [k]. *)
Theorem whole_writes_keep_events n i ev file : in_range 64 i → i + Z.of_nat n < 2 ^ 64 →
  ∃ file', append_loop i (replicate n 32) ev file = (Ok tt, file ++ file') ∧
    length file' = (32 * n)%nat ∧
    ∀ k, (k < n)%nat → le_Z (take 8 (drop (32 * k + 8) file')) = i + Z.of_nat k.
Proof.
  revert i ev file. induction n as [|n IH]; intros i ev file Hi Hn.
  - exists []. split_and!; [by rewrite app_nil_r|done|lia].
  - cbn [replicate append_loop]. set (ev' := mkEvent _ i _ _ _).
    set (bytes := event_bytes (replicate 7 0) ev').
    assert (length bytes = 32%nat) as Hl by (by apply length_event_bytes).
    assert (append (replicate 7 0) ev' 32 file = (Ok true, file ++ bytes)) as E.
    { unfold append. munfold. by rewrite (take_ge bytes) by (rewrite Hl; done). }
    destruct (IH (i + 1) ev' (file ++ bytes)) as (file' & E' & Hl' & Hk'); [unfold in_range in *; lia|lia|].
    exists (bytes ++ file'). mstep E. split_and!; [by rewrite E', <- app_assoc|rewrite length_app; lia|].
    intros [|k] Hk.
    + change (drop (32 * 0 + 8) (bytes ++ file')) with (le_bytes 8 i ++ drop 16 (bytes ++ file')).
      rewrite take_app_length', le_Z_le_bytes, Z.mod_small by (done || lia). lia.
    + replace (32 * S k + 8)%nat with (length bytes + (32 * k + 8))%nat by lia.
      rewrite <- drop_drop, drop_app_length, Hk' by lia. lia.
Qed.

(** A write that takes only a part of the event is taken for a success: the
    events after it are not where a reader of the file looks for them. *)
Example short_write_shifts_events :
  let ev := mkEvent 0 0 0 0 65 in
  let '(r, file) := append_loop 5 [32; 16; 32] ev [] in
  r = Ok tt ∧ le_Z (take 8 (drop (32 * 2 + 8) file)) ≠ 7.
Proof. by vm_compute. Qed.

(** * find_cpu_freq.cpp *)

Record timespec : Type := mkTime { tv_sec : Z; tv_nsec : Z }.

(** The two halves of the counter. *)
Definition rdtsc (lo hi : Z) : Z := Z.lor (Z.shiftl hi 32) lo.

(** [do { clock_gettime(&t2); } while (t2.tv_sec - t1.tv_sec < 1)]: the reading
    the loop ends with; [None] when none of the readings ends it. *)
Fixpoint busy_wait (t1 : timespec) (readings : list timespec) : option timespec :=
  match readings with
  | [] => None
  | t2 :: readings' => if tv_sec t2 - tv_sec t1 <? 1 then busy_wait t1 readings' else Some t2
  end.

Definition elapsed_ns (t1 t2 : timespec) : Z :=
  (tv_sec t2 - tv_sec t1) * 10 ^ 9 + (tv_nsec t2 - tv_nsec t1).

Definition time_ok (t : timespec) : Prop := 0 ≤ tv_nsec t < 10 ^ 9.

Lemma rdtsc_value lo hi : in_range 32 lo → in_range 32 hi → rdtsc lo hi = hi * 2 ^ 32 + lo.
Proof.
  intros Hlo Hhi. unfold rdtsc. rewrite <- Z.shiftl_mul_pow2 by lia. rewrite Z.add_nocarry_lor; [done|].
  apply Z.bits_inj'. intros n Hn. rewrite Z.land_spec, Z.bits_0. destruct (Z.ltb_spec n 32).
  - by rewrite Z.shiftl_spec_low.
  - unfold in_range in Hlo. rewrite (Z.bits_above_log2 lo), andb_false_r; [done|lia|].
    destruct (decide (lo = 0)) as [->|]; [cbn; lia|].
    assert (Z.log2 lo < 32) by (apply Z.log2_lt_pow2; lia). lia.
Qed.

(** The elapsed time is positive, so the frequency is defined, and the wait
    ends with the first reading a second later. *)
Theorem busy_wait_ends t1 readings : time_ok t1 → Forall time_ok readings →
  Exists (λ t2, 10 ^ 9 ≤ elapsed_ns t1 t2) readings →
  ∃ t2, busy_wait t1 readings = Some t2 ∧ 0 < elapsed_ns t1 t2.
Proof.
  unfold time_ok, elapsed_ns. intros H1 Hall Hex. induction Hall as [|t2 readings H2 _ IH]; [by apply Exists_nil in Hex|].
  cbn [busy_wait]. destruct (Z.ltb_spec (tv_sec t2 - tv_sec t1) 1) as [Hlt|Hge].
  - apply IH. apply Exists_cons in Hex as [Hex|Hex]; [nia|done].
  - exists t2. split; [done|nia].
Qed.

(** The comment says that the loop waits for exactly one second; it waits for
    the seconds of the clock to change, which may take a nanosecond. *)
Example busy_wait_may_be_short :
  let t1 := mkTime 7 999999999 in
  ∃ t2, time_ok t1 ∧ time_ok t2 ∧ busy_wait t1 [mkTime 7 999999999; t2] = Some t2 ∧ elapsed_ns t1 t2 = 1.
Proof. exists (mkTime 8 0). split_and!; by vm_compute. Qed.
